(* ===== verification/_CoqProject ===== *)
-Q . S2P
Prelude.v
Machine.v
Bilist.v
Ops.v
Service.v
Impl.v
Mutex.v
MutexSpec.v
Semaphore.v
SemaphoreSpec.v
Barrier.v
BarrierSpec.v
CondVar.v
CondVarSpec.v
SharedMutex.v
SharedMutexSpec.v
Immediate.v
Component.v
Objects.v
Context.v
ContextSpec.v
Shutdown.v
ShutdownSpec.v
Relational.v
Equiv.v
Scheduler.v
SharedUsers.v
Rounds.v
Monitor.v
Producers.v
Gate.v
LockGuard.v
GuardRuns.v
LockGuardSpec.v
Guarded.v
GuardedSpec.v
Clients.v
Parties.v
Basic.v
BasicSpec.v
BilistSpec.v
Request.v
Requests.v
CondVarBenchmark.v
MutexBenchmark.v
