(* ===== verification/Prelude.v ===== *)
(** * A verification library for Boost.Sam

    Sam is a C++ library of synchronisation objects for asio: [mutex],
    [shared_mutex], [semaphore], [barrier] and [condition_variable], whose
    waiting operations are handlers queued in intrusive lists or threads that
    sleep, with guards and guarded operations on top. This development
    translates the library's own code (everything below
    [src/include/boost/sam] that has a body) into executable functions and
    proves what they promise.

    ** How the program is modelled

    - Memory is explicit. List nodes, operation objects, [error_code]
      variables, cancellation slots and services live in finite maps from
      addresses ([Machine.world]); a pointer is an address, and following one
      that points nowhere is undefined behaviour. The aliasing that intrusive
      lists, captured references and moved-from objects bring is therefore in
      the model.
    - Functions run in the monad [Machine.M St]: a state ([St] is the object
      whose member function runs), a result that is a value or an exception,
      and no result at all for undefined behaviour: a dangling pointer, signed
      overflow, a failed assertion, a mutex locked twice by one thread, a loop
      that runs out of fuel. [wp x s P] says that [x] run in [s] has an outcome
      and that it satisfies [P]; every theorem about an operation is such a
      statement, so "never stuck" is part of each of them.
    - Loops over lists run with the fuel [loop_fuel], one more than the nodes
      in memory; a list has no more members than that ([NoDup_length_dom]).
    - [int], [std::ptrdiff_t] and [std::uintptr_t] are integers with their
      bounds ([INT_MAX], [ptrdiff_], [wrap_u64]).
    - asio is outside the repository. The class [Machine.Asio] holds the types
      and queries the library uses (associated executors, slots, allocators,
      which may fail), and what is handed to asio ([net::post],
      [net::dispatch], deallocation, notification of a thread) is recorded in
      order in the [trace]. [test_asio] is a concrete asio for the examples.
    - Every member function takes the object's own mutex for its whole length,
      so that calls of several threads are a sequence of calls; the exceptions
      are modelled in their pieces: a blocking call up to its wait and the
      wake-up ([sync_wait]), and the two critical sections of
      [basic_barrier::async_arrive].

    ** The files

    - [Prelude]: machine integers and list lemmas.
    - [Machine]: errors, the class [Asio], the world, the monad and its rules.
    - [Bilist] ([detail/bilist_node.hpp]): the list code; [heap_rep N L] says
      that the nodes [N] hold exactly the circular lists [L].
    - [Ops] ([detail/basic_op*.hpp], [detail/predicate_op*.hpp] and their
      [impl]): operations and the lists that own them; [world_ok], [queue], and
      the abstract effects [finish] (complete) and [abort] (shut down).
    - [Service] ([detail/service.hpp], [detail/conditionally_enabled_mutex.hpp],
      [detail/concurrency_hint.hpp]): members of a service, critical sections,
      blocking. The class [Member] is inheritance from [service_member].
    - [BilistSpec]: the properties of lists and of member assignment.
    - [Impl]: the invariant [impl_ok] and the rules the five implementations
      share.
    - [Mutex], [Semaphore], [Barrier], [CondVar], [SharedMutex]
      ([detail/*_impl.hpp], [detail/impl/*_impl.ipp], [impl/basic_*.hpp]): the
      code of each object, its invariant ([mutex_rep] and the like) and a rule
      for every operation and every branch of it.
    - [MutexSpec], [SemaphoreSpec], [BarrierSpec], [CondVarSpec],
      [SharedMutexSpec]: for each object an abstract specification as a step
      relation, the refinement theorem, runs of arbitrary calls with their
      invariant, the properties and the examples at which they are applied.
    - [Immediate]: handlers that [net::dispatch] runs at once. The initiating
      functions take what [net::dispatch] does as a parameter ([async_lock_with]
      and the like); everywhere else it is recorded and the handler runs later.
    - [Component]: the interface the five objects offer a program that owns
      several of them (class [Component]) and its contract ([ComponentOk]: a call
      is a step of the abstract object and touches nothing but the object's own
      lists, operations and closures), with the five instances.
    - [Objects]: a finite map of objects and member functions run on one of them
      ([on_object]); [any_impl], the sum of the five classes with its virtual
      [shutdown], is a [Component] itself.
    - [Context], [ContextSpec]: programs that make, call, cancel and destroy
      objects that share one service. [context_ok] is the invariant of the whole,
      [context_step] the product of the abstract objects.
    - [Shutdown], [ShutdownSpec] ([detail/impl/service.ipp]):
      [op_list_service::shutdown], with the virtual call for every member, and
      what can still be done with objects whose service is gone.
    - [Relational], [Equiv]: rules for comparing two pieces of code that run on
      different classes, and the comparison of the mutex with a semaphore that
      has one permit.
    - [Scheduler]: what closed systems of many parties share: runs that get
      shorter, delivery of events, sums over parties, lines of parties that wait.
    - [Gate]: what a mutex and a semaphore have in common for those who use them
      (class [Gate]) and its contract ([GateOk]), with both instances.
    - [Clients] ([bench/mutex.cpp], [detail/guarded.hpp]): three kinds of
      parties, call by call: the coroutine of the benchmark, against the
      interface its template asks for ([BenchMutex]), a thread that locks and
      unlocks and a guarded operation, against [Gate].
    - [Parties]: closed systems of any number of such parties around one mutex or
      one semaphore, with cancellation, under every scheduler.
    - [SharedUsers]: the same for coroutines that read and write under one shared
      mutex, and threads that write.
    - [Rounds]: the same for coroutines and threads that go through the rounds of
      a barrier, with the two critical sections of [async_arrive] as two steps.
    - [Monitor]: the same for coroutines that wait on a condition variable for
      conditions on a state, which they change, with [notify_all].
    - [Producers]: the same for producers and consumers, with [notify_one].
    - [MutexBenchmark] ([bench/mutex.cpp]): the benchmark of the mutex as a whole
      program, and [tmutex], its imitation of a mutex by asio's channel, which is
      a parameter with its documented behaviour ([ChannelOk]).
    - [CondVarBenchmark] ([bench/condition_variable.cpp]): the benchmark of the
      condition variable as a whole program, constructor and destructor
      included.
    - [LockGuard], [LockGuardSpec] ([lock_guard.hpp], [shared_lock_guard.hpp]):
      guards, against the class [Lockable] of the virtual functions they call;
      [LockableOk] lists what both mutexes promise them.
    - [GuardRuns]: programs in which only guards unlock, and the account of all who
      have been granted the mutex, whether they have made their guard yet or not.
    - [Guarded], [GuardedSpec] ([guarded.hpp], [detail/guarded.hpp]): operations
      guarded by a semaphore or a mutex.
    - [Basic], [BasicSpec] ([basic_*.hpp]): the public classes, and the free
      functions [guarded], [async_lock] and [async_lock_shared] on them.
    - [Request], [Requests] ([example/request.cpp]): the composed operation of the
      example, and its [main] as a closed system of requests guarded by a mutex.

    ** What is shown

    - Safety over all interleavings of calls: mutual exclusion of the mutex,
      one writer or many readers, conservation of permits, the concurrency
      bound of guarded operations, exclusive ownership of guards.
    - Composition: in a program with any number of objects of the five classes,
      every command is a step of one abstract object and leaves the others alone,
      no command is stuck, objects keep their class, a mutex excludes its callers
      whatever happens to other objects, and the shutdown of the service reaches
      every waiting operation once and posts nothing.
    - Equivalence: a mutex and a semaphore with one permit behave alike in every
      world, call by call; so do the mutex and the benchmark's imitation of it.
    - Refinement: every call of each object is a step of its abstract
      specification, with the same answer and the same effects outside list
      nodes.
    - Liveness: no call is stuck, blocked calls return once served, loops end;
      coroutines, blocking threads and guarded operations that share a mutex or
      a semaphore all finish, as do readers and writers, under every scheduler
      and in a bounded number of steps; so do the parties of a barrier, who stay in
      the same round, as long as the last of a round does not come while another
      one is between the two critical sections of [async_arrive]; no coroutine that waits on a condition variable
      misses the notification that follows a change, with [notify_all] for any
      conditions and with [notify_one] when all wait for the same one.
    - The example: guarded requests use their socket one after the other and all
      complete, as long as no operation of the socket fails.
    - Functional behaviour: first come first served, readers first, rounds of
      the barrier, [notify_all] and [notify_one], cancellation, shutdown and
      destruction, in which memory is freed before a handler is posted.
    - Error paths: single-threaded contexts, failing allocation, overflow of
      the semaphore's counter.
    - Where the code does not do what it means to, a theorem says what it does:
      blocked [lock_shared], overlapping and cancelled [async_arrive], move
      assignment of lists, mutexes and members, guards made by [lock_shared],
      stale [error_code]s, rebinding, requests that fail, handlers that run
      inside the critical section that dispatches them.

    ** What is not modelled

    - asio itself, [async_compose] and [async_initiate], and the C++ memory
      model: [std::mutex] is a flag, and a critical section one step.
    - Threads that use a service while it is shut down: [op_list_service::shutdown]
      takes no lock, and is one step here.
    - Moves of objects inside the programs of [Context]: closures keep referring
      to the object that was moved from ([basic_mutex_rebind_dangles]), so that
      no invariant of programs survives them. The moves themselves are modelled
      object by object.
    - Assignment of [basic_mutex] and [basic_shared_mutex] from another executor
      type, which cannot be instantiated; macros, umbrella headers, tests, and
      what the [main] functions do besides: timing, connecting, printing.
    - The imitation of a condition variable in [bench/condition_variable.cpp]: it
      waits on a timer that has no expiry time, which asio's documentation
      forbids, so that nothing is known of what it does. *)
From stdpp Require Export prelude gmap fin_maps sets list infinite.
#[export] Set Warnings "-level-tolerance,-clear-no-such-hyp".

(** ** Tactics and hint databases of the development *)

Create HintDb sam.

(** Decide every [decide] of the goal that is a trivial truth, or whose
    negation [tac] proves. *)
Ltac solve_decide tac :=
  repeat first
    [ rewrite decide_True by done
    | rewrite bool_decide_eq_true_2 by done
    | rewrite decide_False by tac
    | rewrite bool_decide_eq_false_2 by tac ].

(** ** Machine integers

    The library is compiled for an LP64 target: [int] has 32 bits,
    [std::ptrdiff_t], [std::uintptr_t] and [std::size_t] have 64. *)

Definition INT_MIN : Z := (-2 ^ 31)%Z.
Definition INT_MAX : Z := (2 ^ 31 - 1)%Z.
Definition PTRDIFF_MIN : Z := (-2 ^ 63)%Z.
Definition PTRDIFF_MAX : Z := (2 ^ 63 - 1)%Z.

(** Unsigned 64-bit arithmetic wraps. *)
Definition wrap_u64 (z : Z) : Z := (z `mod` 2 ^ 64)%Z.

(** The conversion of an unsigned 64-bit value to [int]: reduction modulo
    [2 ^ 32] into the signed range. *)
Definition int_of_u64 (z : Z) : Z := ((z + 2 ^ 31) `mod` 2 ^ 32 - 2 ^ 31)%Z.

Lemma wrap_u64_small z : (0 ≤ z < 2 ^ 64)%Z → wrap_u64 z = z.
Proof. intros ?. unfold wrap_u64. by apply Z.mod_small. Qed.

Lemma int_of_u64_small z : (0 ≤ z ≤ INT_MAX)%Z → int_of_u64 z = z.
Proof.
  unfold int_of_u64, INT_MAX. intros ?. rewrite Z.mod_small; lia.
Qed.

(** ** Lists *)

Section lists.
Context {A : Type}.
Implicit Types (l k : list A) (x y : A).

Lemma NoDup_app_mid l k x : NoDup (l ++ x :: k) → x ∉ l ∧ x ∉ k ∧ NoDup (l ++ k).
Proof.
  rewrite !NoDup_app, NoDup_cons. intros (Hl & Hd & Hx & Hk).
  split_and!; try done.
  - intros Hin. apply (Hd x Hin). by left.
  - intros y Hy Hyk. apply (Hd y Hy). by right.
Qed.

Lemma NoDup_snoc l x : NoDup (l ++ [x]) ↔ NoDup l ∧ x ∉ l.
Proof.
  rewrite NoDup_app. pose proof (NoDup_singleton x). set_solver.
Qed.

Lemma Forall_elem_of_mid (P : A → Prop) l k x : Forall P (l ++ x :: k) → P x ∧ Forall P (l ++ k).
Proof. rewrite !Forall_app, Forall_cons. naive_solver. Qed.

(** An association list without duplicate keys splits at a key in one way. *)
Lemma split_at_key {B} (l1 l2 k1 k2 : list (A * B)) a b c :
  NoDup (l1 ++ (a, b) :: l2).*1 → l1 ++ (a, b) :: l2 = k1 ++ (a, c) :: k2 → k1 = l1 ∧ c = b ∧ k2 = l2.
Proof.
  revert k1. induction l1 as [|[a1 b1] l1 IH]; intros [|[a2 b2] k1] Hnd E; simplify_eq/=; [done| | |].
  - apply NoDup_cons in Hnd as [Hin _]. destruct Hin. rewrite fmap_app. simpl. set_solver.
  - apply NoDup_cons in Hnd as [Hin _]. destruct Hin. rewrite fmap_app. simpl. set_solver.
  - apply NoDup_cons in Hnd as [_ Hnd]. by destruct (IH k1 Hnd) as (-> & -> & ->).
Qed.

(** A duplicate-free list inside the domain of a finite map is not longer
    than the map: the bound every loop's fuel rests on. *)
Lemma NoDup_length_dom `{Countable A} {V} (m : gmap A V) l :
  NoDup l → (∀ x, x ∈ l → is_Some (m !! x)) → length l ≤ size m.
Proof.
  intros Hnd Hin. rewrite <- size_dom.
  rewrite <- (size_list_to_set (C := gset A)) by done.
  apply subseteq_size. intros x Hx. apply elem_of_dom, Hin.
  by apply elem_of_list_to_set in Hx.
Qed.

(** At most one list in a row is not empty. *)
Lemma mjoin_imap_nil {D} (f : nat → A → list D) l :
  (∀ j d, l !! j = Some d → f j d = []) → mjoin (imap f l) = [].
Proof.
  revert f. induction l as [|c l IH]; intros f H; [done|]. simpl. rewrite (H 0 c) by done. apply IH. intros j d. apply (H (S j)).
Qed.
Lemma mjoin_imap_one {D} (f : nat → A → list D) l i c :
  l !! i = Some c → (∀ j d, j ≠ i → l !! j = Some d → f j d = []) → mjoin (imap f l) = f i c.
Proof.
  revert f i. induction l as [|c0 l IH]; intros f [|i] Hi H; simpl in *; simplify_eq.
  - rewrite mjoin_imap_nil; [by rewrite app_nil_r|]. intros j d Hj. by apply (H (S j)).
  - rewrite (H 0 c0) by done. simpl. apply (IH (f ∘ S) i Hi). intros j d Hne Hj. apply (H (S j)); [lia|done].
Qed.
End lists.
