(* ===== verification/Machine.v ===== *)
(** * The machine the library runs on

    Memory (list nodes, operation objects, [error_code] variables, services),
    the calls the library makes to asio, and the state-and-error monad in
    which every function of the library is written.

    asio is not part of the repository: the class [Asio] lists the facts the
    library asks of it (associated executors, cancellation slots, allocators),
    and the calls that hand work to it ([net::post], [net::dispatch], the
    allocator, [condition_variable::notify_all]) are recorded, in order, in the
    [trace] of the world. What asio does with them afterwards is not modelled. *)
From S2P Require Import Prelude.

(** ** Errors *)

(** [error_code] of [detail/config.hpp]; [other_error] is any value the
    library does not produce itself. *)
Inductive error_code :=
  | no_error
  | operation_aborted
  | shut_down
  | in_progress
  | other_error (n : Z).

#[export] Instance error_code_eq_dec : EqDecision error_code.
Proof. solve_decision. Defined.

(** [explicit operator bool] of an [error_code]. *)
Definition ec_failed (ec : error_code) : bool := bool_decide (ec ≠ no_error).

(** What a function of the library may throw. *)
Inductive exn :=
  | system_error (ec : error_code)
  | bad_alloc.

(** ** asio *)

(** Addresses of objects. *)
Abbreviation addr := positive.

(** The types of the program asio is used with, and the queries the library
    makes. [associated_slot h] names the cancellation slot associated with
    [h], [None] when the slot is not connected to a signal. [allocate h X] is
    the associated allocator of [h] asked for memory while the addresses [X]
    are in use; it may fail, and it never returns memory that is in use. The
    two concurrency hints are asio's macros. *)
Class Asio := {
  handler : Type;
  executor : Type;
  predicate : Type;
  get_associated_executor : handler → executor → executor;
  get_associated_immediate_executor : handler → executor → executor;
  associated_slot : handler → option positive;
  allocate : handler → gset addr → option addr;
  CONCURRENCY_HINT_DEFAULT : Z;
  CONCURRENCY_HINT_1 : Z;
  allocate_fresh h X p : allocate h X = Some p → p ∉ X;
}.

(** A concrete asio for the examples: handlers, executors and predicates are
    numbers, handler [h] uses its associated executor [h] when [h] is even, the
    slot of a handler is the handler's own number, handler 0 has none, and only
    the allocator of handler 13 is out of memory. *)
#[export, program] Instance test_asio : Asio := {|
  handler := nat;
  executor := nat;
  predicate := nat;
  get_associated_executor h e := if Nat.even h then h else e;
  get_associated_immediate_executor h e := e;
  associated_slot h := match h with O => None | S _ => Some (Pos.of_nat h) end;
  allocate h X := if Nat.eqb h 13 then None else Some (fresh X);
  CONCURRENCY_HINT_DEFAULT := -1;
  CONCURRENCY_HINT_1 := 1;
|}.
Next Obligation. intros h X p. simpl. destruct (Nat.eqb h 13); [done|]. intros [= <-]. apply is_fresh. Qed.

Section machine.
Context {ASIO : Asio}.

(** ** Memory *)

(** The two pointers of a [bilist_node]. *)
Record bilist_node := BilistNode { next_ : addr; prev_ : addr }.

(** The predicate held by a [predicate_op_model]. *)
Inductive predicate_fn :=
  | true_predicate
  | user_predicate (p : predicate).

(** The objects whose dynamic type derives from [basic_op] or [predicate_op]:
    an asynchronous operation on the heap, one with a predicate, or an
    operation on the stack of a thread inside [lock], [acquire] or [arrive]
    ([lock_op_t], [acquire_op_t] and [arrive_op_t] have the same members and
    the same bodies), which refers to the caller's [error_code] at [ec]. *)
Inductive op :=
  | basic_op_model (work_guard_ : executor) (handler_ : handler)
  | predicate_op_model (work_guard_ : executor) (handler_ : handler) (predicate_ : predicate_fn)
  | sync_op (ec : addr) (done : bool).

(** The closure a slot holds: the captured [model] and the address of the
    captured [impl]. *)
Record cancel_handler := CancelHandler { ch_model : addr; ch_impl : addr }.

(** [detail::conditionally_enabled_mutex]: [held_] is the state of the
    [internal_mutex mtx_]. *)
Record conditionally_enabled_mutex :=
  CEMutex { enabled_ : bool; locked_flag_ : bool; held_ : bool }.

(** The calls handed to asio and to the standard library, as they happen. *)
Inductive event :=
  | ev_deallocate (p : addr)
  | ev_post (e : executor) (h : handler) (ec : error_code)
  | ev_dispatch (e : executor) (h : handler) (ec : error_code)
  | ev_destroy (h : handler)
  | ev_notify (p : addr).

(** [services] maps the address of an [op_list_service]'s [entries] node to
    the service's mutex. *)
Record world := World {
  nodes : gmap addr bilist_node;
  ops : gmap addr op;
  ecs : gmap addr error_code;
  slots : gmap positive cancel_handler;
  services : gmap addr conditionally_enabled_mutex;
  trace : list event
}.

Definition set_nodes (f : gmap addr bilist_node → gmap addr bilist_node) (w : world) : world :=
  World (f (nodes w)) (ops w) (ecs w) (slots w) (services w) (trace w).
Definition set_ops (f : gmap addr op → gmap addr op) (w : world) : world :=
  World (nodes w) (f (ops w)) (ecs w) (slots w) (services w) (trace w).
Definition set_ecs (f : gmap addr error_code → gmap addr error_code) (w : world) : world :=
  World (nodes w) (ops w) (f (ecs w)) (slots w) (services w) (trace w).
Definition set_slots (f : gmap positive cancel_handler → gmap positive cancel_handler) (w : world) : world :=
  World (nodes w) (ops w) (ecs w) (f (slots w)) (services w) (trace w).
Definition set_services (f : gmap addr conditionally_enabled_mutex → gmap addr conditionally_enabled_mutex)
    (w : world) : world :=
  World (nodes w) (ops w) (ecs w) (slots w) (f (services w)) (trace w).
Definition log (e : event) (w : world) : world :=
  World (nodes w) (ops w) (ecs w) (slots w) (services w) (trace w ++ [e]).

(** ** The monad

    A function of the library runs on an object of type [St] (its [*this]) and
    the world. It returns, throws, or has no outcome at all ([None]): a read
    through a dangling pointer, a signed overflow, a failed assertion, a
    thread that locks a mutex it holds, or a loop that exhausts its fuel. *)

Record machine (St : Type) := Machine { obj : St; wld : world }.
Global Arguments Machine {St} _ _.
Global Arguments obj {St} _.
Global Arguments wld {St} _.

Inductive res (A : Type) :=
  | Ok (a : A)
  | Exn (e : exn).
Global Arguments Ok {A} _.
Global Arguments Exn {A} _.

Definition M (St A : Type) : Type := machine St → option (res A * machine St).

#[global] Instance M_ret {St} : MRet (M St) := λ A a s, Some (Ok a, s).

#[global] Instance M_bind {St} : MBind (M St) := λ A B k m s,
  match m s with
  | Some (Ok a, s') => k a s'
  | Some (Exn e, s') => Some (Exn e, s')
  | None => None
  end.

(** Undefined behaviour. *)
Definition ub {St A} : M St A := λ s, None.
Definition throw {St A} (e : exn) : M St A := λ s, Some (Exn e, s).
Definition get_obj {St} : M St St := λ s, Some (Ok (obj s), s).
Definition modify_obj {St} (f : St → St) : M St unit := λ s, Some (Ok tt, Machine (f (obj s)) (wld s)).
Definition get_world {St} : M St world := λ s, Some (Ok (wld s), s).
Definition modify_world {St} (f : world → world) : M St unit :=
  λ s, Some (Ok tt, Machine (obj s) (f (wld s))).
(** [net::dispatch] of a handler whose operation is complete with no error, to an
    executor that does not run it at once, as asio's default is. *)
Definition net_dispatch {St} (ie : executor) (h : handler) : M St unit := modify_world (log (ev_dispatch ie h no_error)).
Definition of_option {St A} (o : option A) : M St A :=
  match o with Some a => mret a | None => ub end.
(** [assert] and [BOOST_SAM_ASSERT]. *)
Definition assert_ {St} (b : bool) : M St unit := if b then mret tt else ub.

(** A [while] loop, cut after [fuel] rounds. *)
Fixpoint while_ {St} (fuel : nat) (cond : M St bool) (body : M St unit) : M St unit :=
  match fuel with
  | O => ub
  | S n => b ← cond; if (b : bool) then body;; while_ n cond body else mret tt
  end.

(** The fuel of every loop over a list: one round per node in memory and one
    for the final test. *)
Definition loop_fuel {St} : M St nat := w ← get_world; mret (S (size (nodes w))).

(** Signed arithmetic: a result outside the type is undefined. *)
Definition int_ {St} (z : Z) : M St Z :=
  if bool_decide (INT_MIN ≤ z ≤ INT_MAX)%Z then mret z else ub.
Definition ptrdiff_ {St} (z : Z) : M St Z :=
  if bool_decide (PTRDIFF_MIN ≤ z ≤ PTRDIFF_MAX)%Z then mret z else ub.

(** ** Total correctness

    [wp m s Φ]: from [s], [m] has an outcome, and it satisfies [Φ]. *)
Definition wp {St A} (m : M St A) (s : machine St) (Φ : res A → machine St → Prop) : Prop :=
  match m s with
  | Some (r, s') => Φ r s'
  | None => False
  end.

Lemma wp_ret {St A} (a : A) (s : machine St) Φ : Φ (Ok a) s → wp (mret a) s Φ.
Proof. done. Qed.

Lemma wp_bind {St A B} (m : M St A) (k : A → M St B) s Φ :
  wp m s (λ r s', match r with Ok a => wp (k a) s' Φ | Exn e => Φ (Exn e) s' end) →
  wp (m ≫= k) s Φ.
Proof.
  unfold wp, mbind, M_bind. destruct (m s) as [[[a|e] s']|]; done.
Qed.

Lemma wp_mono {St A} (m : M St A) s (Φ Ψ : res A → machine St → Prop) :
  wp m s Φ → (∀ r s', Φ r s' → Ψ r s') → wp m s Ψ.
Proof. unfold wp. destruct (m s) as [[r s']|]; naive_solver. Qed.

Lemma wp_run {St A} (m : M St A) s Φ : wp m s Φ ↔ ∃ r s', m s = Some (r, s') ∧ Φ r s'.
Proof. unfold wp. destruct (m s) as [[r s']|]; naive_solver. Qed.

Lemma wp_throw {St A} e (s : machine St) (Φ : res A → machine St → Prop) : Φ (Exn e) s → wp (throw e) s Φ.
Proof. done. Qed.

Lemma wp_get_obj {St} (s : machine St) Φ : Φ (Ok (obj s)) s → wp get_obj s Φ.
Proof. done. Qed.

Lemma wp_modify_obj {St} f (s : machine St) Φ :
  Φ (Ok tt) (Machine (f (obj s)) (wld s)) → wp (modify_obj f) s Φ.
Proof. done. Qed.

Lemma wp_get_world {St} (s : machine St) Φ : Φ (Ok (wld s)) s → wp get_world s Φ.
Proof. done. Qed.

Lemma wp_modify_world {St} f (s : machine St) Φ :
  Φ (Ok tt) (Machine (obj s) (f (wld s))) → wp (modify_world f) s Φ.
Proof. done. Qed.

Lemma wp_of_option {St A} (a : A) o (s : machine St) Φ : o = Some a → Φ (Ok a) s → wp (of_option o) s Φ.
Proof. by intros ->. Qed.

Lemma wp_assert {St} b (s : machine St) Φ : b = true → Φ (Ok tt) s → wp (assert_ b) s Φ.
Proof. by intros ->. Qed.

Lemma wp_loop_fuel {St} (s : machine St) Φ :
  Φ (Ok (S (size (nodes (wld s))))) s → wp loop_fuel s Φ.
Proof. done. Qed.

Lemma wp_int {St} z (s : machine St) Φ : (INT_MIN ≤ z ≤ INT_MAX)%Z → Φ (Ok z) s → wp (int_ z) s Φ.
Proof. intros ? ?. unfold int_. by rewrite bool_decide_eq_true_2. Qed.

Lemma wp_ptrdiff {St} z (s : machine St) Φ :
  (PTRDIFF_MIN ≤ z ≤ PTRDIFF_MAX)%Z → Φ (Ok z) s → wp (ptrdiff_ z) s Φ.
Proof. intros ? ?. unfold ptrdiff_. by rewrite bool_decide_eq_true_2. Qed.

(** Loop rule: an invariant indexed by a measure that the body decreases. *)
Lemma wp_while {St} (I : nat → machine St → Prop) cond body fuel n (s : machine St)
    (Φ : res unit → machine St → Prop) :
  I n s → n < fuel →
  (∀ k s, I k s → wp cond s (λ r s', match r with
     | Ok true => wp body s' (λ r s'', r = Ok tt ∧ ∃ k', k = Datatypes.S k' ∧ I k' s'')
     | Ok false => Φ (Ok tt) s'
     | Exn _ => False end)) →
  wp (while_ fuel cond body) s Φ.
Proof.
  intros HI Hlt Hstep. revert n s HI Hlt.
  induction fuel as [|fuel IH]; intros n s HI Hlt; [lia|]. simpl.
  apply wp_bind. eapply wp_mono; [by apply Hstep|].
  intros [[]|] s' Hb; [|done|done].
  apply wp_bind. eapply wp_mono; [exact Hb|].
  intros r s'' [-> (k' & -> & HI')]. eapply IH; [done|lia].
Qed.

End machine.

(** ** Automation

    [wp_auto] runs the straight-line part of a program: it peels binds and
    the primitives whose rule has no side condition; [wp_apply l] uses the
    specification [l] of a call and carries on. *)
Ltac wp_prim :=
  lazymatch goal with
  | |- wp (mret _) _ _ => apply wp_ret
  | |- wp (throw _) _ _ => apply wp_throw
  | |- wp get_obj _ _ => apply wp_get_obj
  | |- wp (modify_obj _) _ _ => apply wp_modify_obj
  | |- wp get_world _ _ => apply wp_get_world
  | |- wp (modify_world _) _ _ => apply wp_modify_world
  | |- wp loop_fuel _ _ => apply wp_loop_fuel
  | |- wp (_ ≫= _) _ _ => apply wp_bind
  end.
Ltac wp_auto := repeat (wp_prim; simpl).
Ltac wp_apply l := eapply wp_mono; [by eapply l|].

(** The machine fields of a concrete execution. *)
Definition run_trace {ASIO : Asio} {St A} (x : option (res A * machine St)) : option (list event) :=
  (λ y, trace (wld y.2)) <$> x.
Definition run_result {ASIO : Asio} {St A} (x : option (res A * machine St)) : option (res A) := fst <$> x.
Definition empty_world {ASIO : Asio} : world := World ∅ ∅ ∅ ∅ ∅ [].

(** The state after a call on a concrete machine. *)
Definition after {ASIO : Asio} {St A} (x : option (res A * machine St)) (s : machine St) : machine St :=
  match x with Some (_, s') => s' | None => s end.

(** A specification, read off the state a concrete call ends in. *)
Lemma wp_after {ASIO : Asio} {St A} (x : M St A) (s : machine St) (P : machine St → Prop) :
  wp x s (λ _ s', P s') → P (after (x s) s).
Proof. unfold wp. destruct (x s) as [[r s']|]; done. Qed.
