(* ===== verification/Bilist.v ===== *)
(** * The intrusive list ([detail/bilist_node.hpp])

    The pointer code of [bilist_node], and the representation of circular
    lists in memory: [heap_rep N L] says that the nodes [N] hold, for every
    root [r] of [L], the circular list [r -> L !! r -> r], and that these lists
    are disjoint. Every operation of the library on a list is then an update of
    one entry of [L]. *)
From S2P Require Import Prelude Machine.

(** ** The code *)

Section code.
Context {ASIO : Asio} {St : Type}.

Definition get_node (p : addr) : M St bilist_node := w ← get_world; of_option (nodes w !! p).

Definition read_next (p : addr) : M St addr := nd ← get_node p; mret (next_ nd).
Definition read_prev (p : addr) : M St addr := nd ← get_node p; mret (prev_ nd).

Definition set_next (p v : addr) (N : gmap addr bilist_node) : gmap addr bilist_node :=
  alter (λ nd, BilistNode v (prev_ nd)) p N.
Definition set_prev (p v : addr) (N : gmap addr bilist_node) : gmap addr bilist_node :=
  alter (λ nd, BilistNode (next_ nd) v) p N.

Definition write_next (p v : addr) : M St unit :=
  _ ← get_node p; modify_world (set_nodes (set_next p v)).
Definition write_prev (p v : addr) : M St unit :=
  _ ← get_node p; modify_world (set_nodes (set_prev p v)).

(** [bilist_node() : next_(this), prev_(this)], run on the storage [this]. *)
Definition bilist_node_ctor (this : addr) : M St unit :=
  modify_world (set_nodes <[this := BilistNode this this]>).

(** The end of the lifetime of the node's storage. *)
Definition free_node (this : addr) : M St unit :=
  _ ← get_node this; modify_world (set_nodes (delete this)).

(** Automatic storage for a node: an address that is not in use. *)
Definition stack_node : M St addr := w ← get_world; mret (fresh (dom (nodes w))).

Definition unlink (this : addr) : M St unit :=
  p ← read_prev this;
  n ← read_next this;
  write_prev n p;;
  write_next p n.

Definition link_before (this next : addr) : M St unit :=
  write_next this next;;
  np ← read_prev next;
  write_prev this np;;
  p ← read_prev this;
  write_next p this;;
  write_prev next this.

(** [size()]: the counter is a [std::size_t]. *)
Fixpoint size_loop (fuel : nat) (this p : addr) (sz : Z) : M St Z :=
  match fuel with
  | O => ub
  | S n => if bool_decide (p = this) then mret sz
           else p' ← read_next p; size_loop n this p' (wrap_u64 (sz + 1))
  end.
Definition bilist_size (this : addr) : M St Z :=
  fuel ← loop_fuel; p ← read_next this; size_loop fuel this p 0.

(** [bilist_node(bilist_node &&lhs)], for the root node. *)
Definition bilist_move_ctor (this lhs : addr) : M St unit :=
  ln ← read_next lhs;
  lp ← read_prev lhs;
  modify_world (set_nodes <[this := BilistNode ln lp]>);;
  write_next lhs lhs;;
  write_prev lhs lhs;;
  n ← read_next this;
  (if bool_decide (n = lhs) then write_next this this else write_prev n this);;
  p ← read_prev this;
  (if bool_decide (p = lhs) then write_prev this this else write_next p this).

(** [operator=(bilist_node &&lhs)]. *)
Definition bilist_move_assign (this lhs : addr) : M St unit :=
  ln ← read_next lhs;
  (if bool_decide (ln = lhs) then write_next this this
   else n ← read_next this; write_prev n this);;
  lp ← read_prev lhs;
  (if bool_decide (lp = lhs) then write_prev this this
   else p ← read_prev this; write_next p this).
End code.

(** ** Segments and circular lists *)

Section rep.
Context {ASIO : Asio}.
Implicit Types (N : gmap addr bilist_node) (p q r x y : addr) (xs ys : list addr).

Definition next_at N p : option addr := next_ <$> N !! p.
Definition prev_at N p : option addr := prev_ <$> N !! p.

(** The nodes [xs] are chained between [p] and [q], in both directions. *)
Fixpoint seg N p xs q : Prop :=
  match xs with
  | [] => next_at N p = Some q ∧ prev_at N q = Some p
  | x :: xs' => next_at N p = Some x ∧ prev_at N x = Some p ∧ seg N x xs' q
  end.

(** The circular list of root [r] holds the nodes [xs], in this order. *)
Definition dlist N r xs : Prop := NoDup (r :: xs) ∧ seg N r xs r.

Lemma is_Some_set_next N p v q : is_Some (N !! q) → is_Some (set_next p v N !! q).
Proof. unfold set_next. by rewrite lookup_alter_is_Some. Qed.
Lemma is_Some_set_prev N p v q : is_Some (N !! q) → is_Some (set_prev p v N !! q).
Proof. unfold set_prev. by rewrite lookup_alter_is_Some. Qed.

Lemma next_at_set_next N p v q :
  is_Some (N !! q) → next_at (set_next p v N) q = if decide (p = q) then Some v else next_at N q.
Proof.
  intros [nd E]. unfold next_at, set_next. rewrite lookup_alter. by case_decide; subst; rewrite ?E.
Qed.
Lemma prev_at_set_next N p v q : prev_at (set_next p v N) q = prev_at N q.
Proof. unfold prev_at, set_next. rewrite lookup_alter. case_decide; subst; by destruct (N !! q). Qed.
Lemma prev_at_set_prev N p v q :
  is_Some (N !! q) → prev_at (set_prev p v N) q = if decide (p = q) then Some v else prev_at N q.
Proof.
  intros [nd E]. unfold prev_at, set_prev. rewrite lookup_alter. by case_decide; subst; rewrite ?E.
Qed.
Lemma next_at_set_prev N p v q : next_at (set_prev p v N) q = next_at N q.
Proof. unfold next_at, set_prev. rewrite lookup_alter. case_decide; subst; by destruct (N !! q). Qed.

Lemma next_at_is_Some N p v : next_at N p = Some v → is_Some (N !! p).
Proof. unfold next_at. destruct (N !! p); naive_solver. Qed.
Lemma prev_at_is_Some N p v : prev_at N p = Some v → is_Some (N !! p).
Proof. unfold prev_at. destruct (N !! p); naive_solver. Qed.

Lemma seg_app N p xs y ys q : seg N p (xs ++ y :: ys) q ↔ seg N p xs y ∧ seg N y ys q.
Proof. revert p. induction xs as [|x xs IH]; intros p; simpl; [tauto|]. rewrite IH. tauto. Qed.

(** A segment only depends on the [next_] of its start and members and on the
    [prev_] of its members and end. *)
Lemma seg_agree N N' p xs q :
  (∀ a, a ∈ p :: xs → next_at N' a = next_at N a) →
  (∀ a, a ∈ xs ++ [q] → prev_at N' a = prev_at N a) →
  seg N p xs q → seg N' p xs q.
Proof.
  revert p. induction xs as [|x xs IH]; intros p Hn Hp; simpl in *.
  - intros [??]. rewrite Hn, Hp by set_solver. done.
  - intros (?&?&?). rewrite Hn, Hp by set_solver. split_and!; try done.
    apply IH; [| |done]; set_solver.
Qed.

Lemma seg_nodes N p xs q : seg N p xs q → ∀ a, a ∈ p :: xs ++ [q] → is_Some (N !! a).
Proof.
  revert p. induction xs as [|x xs IH]; intros p; simpl.
  - intros [Hn Hp] a Ha. apply elem_of_cons in Ha as [->|Ha]; [by eapply next_at_is_Some|].
    apply list_elem_of_singleton in Ha as ->. by eapply prev_at_is_Some.
  - intros (Hn & Hp & Hs) a Ha. apply elem_of_cons in Ha as [->|Ha]; [by eapply next_at_is_Some|].
    by eapply IH.
Qed.

Lemma dlist_nodes N r xs : dlist N r xs → ∀ a, a ∈ r :: xs → is_Some (N !! a).
Proof. intros [_ Hs] a Ha. eapply seg_nodes; [done|]. set_solver. Qed.

Lemma seg_first N p xs q : seg N p xs q → next_at N p = Some (hd q xs).
Proof. destruct xs; simpl; tauto. Qed.

Lemma seg_last N p xs q : seg N p xs q → prev_at N q = Some (default p (last xs)).
Proof.
  revert p. induction xs as [|x xs IH]; intros p; cbn [seg]; [simpl; tauto|].
  intros (_ & _ & Hs). rewrite (IH _ Hs), last_cons. by destruct (last xs).
Qed.

(** The neighbours of a member of a segment. *)
Lemma seg_neighbours N a xs p ys q pr n :
  seg N a (xs ++ p :: ys) q → prev_at N p = Some pr → next_at N p = Some n →
  pr ∈ a :: xs ∧ n ∈ ys ++ [q].
Proof.
  intros [Hs1%seg_last Hs2%seg_first]%seg_app Hpr Hn.
  assert (pr = default a (last xs)) as -> by congruence.
  assert (n = hd q ys) as -> by congruence. split.
  - destruct (last xs) eqn:E; simpl; [right; by apply last_Some_elem_of|by left].
  - destruct ys; simpl; set_solver.
Qed.

(** A segment with a new end. *)
Lemma seg_retarget N N' p xs q q' z :
  seg N p xs q → NoDup (p :: xs) → z = default p (last xs) →
  (∀ a, a ∈ p :: xs → a ≠ z → next_at N' a = next_at N a) →
  (∀ a, a ∈ xs → prev_at N' a = prev_at N a) →
  next_at N' z = Some q' → prev_at N' q' = Some z → seg N' p xs q'.
Proof.
  revert p. induction xs as [|x xs IH]; intros p; cbn [seg]; [by intros ? ? ->|].
  intros (Hn & Hp & Hs) [Hpx Hnd]%NoDup_cons Hz Hnext Hprev Hnz Hpq.
  assert (z = default x (last xs)) as Hz' by (rewrite Hz, last_cons; by destruct (last xs)).
  rewrite Hnext, Hprev; [split_and!; [done..|]|by left|by left|].
  - apply IH; try done; intros a Ha; [apply Hnext|apply Hprev]; by right.
  - intros ->. apply Hpx. rewrite Hz'.
    destruct (last xs) eqn:E; simpl; [right; by apply last_Some_elem_of|by left].
Qed.

(** ** The pointer updates on a segment *)

Definition unlinked (pr n : addr) N : gmap addr bilist_node := set_next pr n (set_prev n pr N).

Lemma next_at_unlinked pr n N a :
  is_Some (N !! a) → next_at (unlinked pr n N) a = if decide (pr = a) then Some n else next_at N a.
Proof.
  intros ?. unfold unlinked. by rewrite next_at_set_next, next_at_set_prev by auto using is_Some_set_prev.
Qed.
Lemma prev_at_unlinked pr n N a :
  is_Some (N !! a) → prev_at (unlinked pr n N) a = if decide (n = a) then Some pr else prev_at N a.
Proof.
  intros ?. unfold unlinked. by rewrite prev_at_set_next, prev_at_set_prev by done.
Qed.

Lemma seg_unlink N a xs p ys q pr n :
  seg N a (xs ++ p :: ys) q → NoDup (a :: xs ++ p :: ys) → q ∉ xs ++ p :: ys →
  prev_at N p = Some pr → next_at N p = Some n →
  seg (unlinked pr n N) a (xs ++ ys) q.
Proof.
  intros Hs Hnd Hq Hpr Hn. pose proof (seg_nodes _ _ _ _ Hs) as Hnodes.
  revert a Hs Hnd Hnodes. induction xs as [|x xs IH]; intros a; simpl.
  - intros (Han & Hpa & Hs) (Ha & [Hp Hys]%NoDup_cons)%NoDup_cons Hnodes.
    assert (pr = a) as -> by congruence.
    destruct ys as [|y ys]; simpl in *.
    + destruct Hs as [Hs1 Hs2]. assert (n = q) as -> by congruence.
      rewrite next_at_unlinked, prev_at_unlinked by (apply Hnodes; set_solver).
      by rewrite !decide_True by done.
    + destruct Hs as (Hs1 & Hs2 & Hs3). assert (n = y) as -> by congruence.
      rewrite next_at_unlinked, prev_at_unlinked by (apply Hnodes; set_solver).
      rewrite !decide_True by done. split_and!; [done..|].
      apply NoDup_cons in Hys as [Hy Hys].
      revert Hs3. apply seg_agree; intros b Hb.
      * rewrite next_at_unlinked by (apply Hnodes; set_solver). rewrite decide_False; set_solver.
      * rewrite prev_at_unlinked by (apply Hnodes; set_solver). rewrite decide_False; set_solver.
  - intros (Han & Hpa & Hs) (Ha & Hnd)%NoDup_cons Hnodes.
    apply NoDup_cons in Hnd as Hx. destruct Hx as [Hx _].
    destruct (seg_neighbours _ _ _ _ _ _ _ _ Hs Hpr Hn) as [Hprin Hnin].
    rewrite next_at_unlinked, prev_at_unlinked by (apply Hnodes; set_solver).
    rewrite !decide_False by set_solver. split_and!; [done..|].
    apply IH; [set_solver|done|done|]. intros b Hb. apply Hnodes. set_solver.
Qed.

Definition linked (this next np : addr) N : gmap addr bilist_node :=
  set_prev next this (set_next np this (set_prev this np (set_next this next N))).

Lemma next_at_linked this next np N a :
  is_Some (N !! a) →
  next_at (linked this next np N) a =
    if decide (np = a) then Some this else if decide (this = a) then Some next else next_at N a.
Proof.
  intros ?. unfold linked.
  by rewrite next_at_set_prev, next_at_set_next, next_at_set_prev, next_at_set_next
    by auto using is_Some_set_prev, is_Some_set_next.
Qed.
Lemma prev_at_linked this next np N a :
  is_Some (N !! a) →
  prev_at (linked this next np N) a =
    if decide (next = a) then Some this else if decide (this = a) then Some np else prev_at N a.
Proof.
  intros ?. unfold linked.
  by rewrite prev_at_set_prev, prev_at_set_next, prev_at_set_prev, prev_at_set_next
    by auto using is_Some_set_prev, is_Some_set_next.
Qed.

Lemma seg_link N a xs p q np :
  seg N a xs q → NoDup (a :: xs) → q ∉ xs → p ∉ a :: xs → p ≠ q → is_Some (N !! p) →
  prev_at N q = Some np →
  seg (linked p q np N) a (xs ++ [p]) q.
Proof.
  intros Hs Hnd Hq Hp Hpq Hpn Hnp. pose proof (seg_nodes _ _ _ _ Hs) as Hnodes.
  pose proof (seg_last _ _ _ _ Hs) as Hlast.
  assert (np = default a (last xs)) as Enp by congruence. clear Hnp Hlast.
  revert a Hs Hnd Hp Hnodes Enp. induction xs as [|x xs IH]; intros a; simpl.
  - intros [Han Hqa] _ Hp Hnodes ->.
    assert (is_Some (N !! a) ∧ is_Some (N !! q)) as [??] by (split; apply Hnodes; set_solver).
    apply not_elem_of_cons in Hp as [Hpa _].
    rewrite !next_at_linked, !prev_at_linked by done.
    split_and!; repeat case_decide; congruence.
  - intros (Han & Hxa & Hs) (Ha & Hnd)%NoDup_cons Hp Hnodes Enp.
    assert (np = default x (last xs)) as Enp'.
    { subst. rewrite last_cons. by destruct (last xs). }
    assert (np ∈ x :: xs) as Hnpin.
    { rewrite Enp'. destruct (last xs) eqn:E; simpl; [right; by apply last_Some_elem_of|by left]. }
    apply not_elem_of_cons in Hq as [Hqx Hq]. apply not_elem_of_cons in Hp as [Hpa Hp].
    assert (p ≠ x) by (intros ->; apply Hp; by left).
    assert (np ≠ a) by (intros ->; done).
    rewrite next_at_linked, prev_at_linked by (apply Hnodes; set_solver).
    rewrite !decide_False by done. split_and!; [done..|].
    apply IH; try done. intros b Hb. apply Hnodes. by right.
Qed.
End rep.

(** ** All the circular lists of the memory *)

Section heap.
Context {ASIO : Asio}.
Implicit Types (N : gmap addr bilist_node) (p q r x y : addr) (xs ys : list addr).
Implicit Types (L : gmap addr (list addr)).

Record heap_rep N L : Prop := {
  hr_dlist r xs : L !! r = Some xs → dlist N r xs;
  hr_disjoint r1 r2 xs1 xs2 a :
    L !! r1 = Some xs1 → L !! r2 = Some xs2 → a ∈ r1 :: xs1 → a ∈ r2 :: xs2 → r1 = r2
}.

(** [a] is the root or a member of some list. *)
Definition listed L (a : addr) : Prop := ∃ r xs, L !! r = Some xs ∧ a ∈ r :: xs.

Lemma heap_rep_listed N L a : heap_rep N L → listed L a → is_Some (N !! a).
Proof. intros HL (r & xs & Hr & Ha). eapply dlist_nodes; [by eapply hr_dlist|done]. Qed.

Lemma unlisted N L a : heap_rep N L → N !! a = None → ¬ listed L a.
Proof. intros HL Ha Hl. apply (heap_rep_listed _ _ _ HL) in Hl. rewrite Ha in Hl. by destruct Hl. Qed.

Lemma dlist_agree N N' r xs :
  (∀ a, a ∈ r :: xs → next_at N' a = next_at N a ∧ prev_at N' a = prev_at N a) →
  dlist N r xs → dlist N' r xs.
Proof.
  intros Ha [Hnd Hs]. split; [done|]. revert Hs.
  apply seg_agree; intros a Hin; apply Ha; set_solver.
Qed.

(** Changing the list at [r] (or adding one) keeps the others. *)
Lemma heap_rep_update N N' L r xs' :
  heap_rep N L → dlist N' r xs' →
  (∀ a r2 xs2, a ∈ r :: xs' → L !! r2 = Some xs2 → a ∈ r2 :: xs2 → r2 = r) →
  (∀ a r2 xs2, L !! r2 = Some xs2 → r2 ≠ r → a ∈ r2 :: xs2 →
     next_at N' a = next_at N a ∧ prev_at N' a = prev_at N a) →
  heap_rep N' (<[r := xs']> L).
Proof.
  intros HL Hd Hown Hagree. split.
  - intros r2 xs2 [[<- <-]|[Hne Hr2]]%lookup_insert_Some; [done|].
    eapply dlist_agree; [|by eapply hr_dlist]. intros a Ha. by eapply Hagree.
  - intros r1 r2 xs1 xs2 a [[<- <-]|[Hne1 Hr1]]%lookup_insert_Some
      [[<- <-]|[Hne2 Hr2]]%lookup_insert_Some Ha1 Ha2; [done|..].
    + symmetry. eapply (Hown a r2); eauto.
    + eapply (Hown a r1); eauto.
    + by eapply hr_disjoint.
Qed.

Lemma heap_rep_agree N N' L :
  (∀ a, listed L a → next_at N' a = next_at N a ∧ prev_at N' a = prev_at N a) →
  heap_rep N L → heap_rep N' L.
Proof.
  intros Ha HL. split; [|by apply HL].
  intros r xs Hr. eapply dlist_agree; [|by eapply hr_dlist].
  intros a Hin. apply Ha. by exists r, xs.
Qed.

Lemma heap_rep_insert N L p nd : heap_rep N L → ¬ listed L p → heap_rep (<[p := nd]> N) L.
Proof.
  intros HL Hp. revert HL. apply heap_rep_agree. intros a Ha. unfold next_at, prev_at.
  rewrite lookup_insert_ne by (by intros ->). done.
Qed.

Lemma heap_rep_free N L p : heap_rep N L → ¬ listed L p → heap_rep (delete p N) L.
Proof.
  intros HL Hp. revert HL. apply heap_rep_agree. intros a Ha. unfold next_at, prev_at.
  rewrite lookup_delete_ne by (by intros ->). done.
Qed.

Lemma heap_rep_delete N L r : heap_rep N L → heap_rep N (delete r L).
Proof.
  intros HL. split.
  - intros r2 xs2 [? ?]%lookup_delete_Some. by eapply hr_dlist.
  - intros r1 r2 xs1 xs2 a [? ?]%lookup_delete_Some [? ?]%lookup_delete_Some. by eapply hr_disjoint.
Qed.

Lemma listed_delete L r a : listed (delete r L) a → listed L a.
Proof. intros (r2 & xs2 & [? ?]%lookup_delete_Some & ?). by exists r2, xs2. Qed.

Lemma listed_insert L r xs a : listed (<[r := xs]> L) a → a ∈ r :: xs ∨ listed L a.
Proof.
  intros (r2 & xs2 & [[<- <-]|[? ?]]%lookup_insert_Some & ?); [by left|right; by exists r2, xs2].
Qed.

(** [bilist_node()] on an unlisted node: a new empty list. *)
Lemma heap_rep_ctor N L p :
  heap_rep N L → ¬ listed L p → heap_rep (<[p := BilistNode p p]> N) (<[p := []]> L).
Proof.
  intros HL Hp. eapply heap_rep_update; [by apply (heap_rep_insert N L p (BilistNode p p))| | |done].
  - split; [apply NoDup_singleton|]. simpl. unfold next_at, prev_at.
    by rewrite !lookup_insert_eq.
  - intros a r2 xs2 ->%list_elem_of_singleton Hr2 Ha. destruct Hp. by exists r2, xs2.
Qed.

(** What a call on the lists [L] leaves alone: the nodes that are in no list. *)
Definition framed L N N' : Prop := ∀ a, is_Some (N !! a) → ¬ listed L a → N' !! a = N !! a.

Lemma framed_refl L N : framed L N N.
Proof. by intros a. Qed.
Lemma framed_trans L L1 N N1 N2 :
  framed L N N1 → framed L1 N1 N2 → (∀ a, is_Some (N !! a) → listed L1 a → listed L a) → framed L N N2.
Proof.
  intros H1 H2 HL a Ha Hl. rewrite <- (H1 a Ha Hl). apply H2; [by rewrite H1|]. intros H. by apply Hl, HL.
Qed.
Lemma framed_delete L N N1 p :
  framed L N N1 → (is_Some (N !! p) → listed L p) → framed L N (delete p N1).
Proof.
  intros H1 Hp a Ha Hl. rewrite lookup_delete_ne by (intros ->; by apply Hl, Hp). by apply H1.
Qed.
Lemma framed_at L N N' :
  (∀ a, is_Some (N !! a) → ¬ listed L a → next_at N' a = next_at N a ∧ prev_at N' a = prev_at N a) →
  framed L N N'.
Proof.
  intros H a Ha Hl. destruct (H a Ha Hl) as [E1 E2]. revert E1 E2. unfold next_at, prev_at.
  destruct Ha as [[n p] ->]. destruct (N' !! a) as [[n' p']|]; naive_solver.
Qed.

Lemma heap_rep_NoDup N L r xs : heap_rep N L → L !! r = Some xs → NoDup (r :: xs).
Proof. intros HL Hr. by destruct (hr_dlist _ _ HL _ _ Hr). Qed.

Lemma heap_rep_unlink N L r xs p ys pr n :
  heap_rep N L → L !! r = Some (xs ++ p :: ys) →
  prev_at N p = Some pr → next_at N p = Some n →
  heap_rep (unlinked pr n N) (<[r := xs ++ ys]> L).
Proof.
  intros HL Hr Hpr Hn. destruct (hr_dlist _ _ HL _ _ Hr) as [Hnd Hs].
  destruct (seg_neighbours _ _ _ _ _ _ _ _ Hs Hpr Hn) as [Hprin Hnin].
  eapply heap_rep_update; [done| | |].
  - split.
    + apply NoDup_cons in Hnd as [Hr' Hnd]. apply NoDup_app_mid in Hnd as (_ & _ & ?).
      apply NoDup_cons. split; [set_solver|done].
    + eapply seg_unlink; try done. by apply NoDup_cons in Hnd as [? _].
  - intros a r2 xs2 Ha Hr2 Ha2. eapply (hr_disjoint _ _ HL r2 r); [done..|]. set_solver.
  - intros a r2 xs2 Hr2 Hne Ha2.
    assert (a ∉ r :: xs ++ p :: ys) as Hnot.
    { intros Ha. apply Hne. by eapply (hr_disjoint _ _ HL r2 r). }
    assert (is_Some (N !! a)) by (eapply heap_rep_listed; [done|by exists r2, xs2]).
    rewrite next_at_unlinked, prev_at_unlinked by done.
    rewrite !decide_False by (intros ->; apply Hnot; set_solver). done.
Qed.

Lemma heap_rep_link N L r xs p np :
  heap_rep N L → L !! r = Some xs → ¬ listed L p → is_Some (N !! p) → prev_at N r = Some np →
  heap_rep (linked p r np N) (<[r := xs ++ [p]]> L).
Proof.
  intros HL Hr Hp Hpn Hnp. destruct (hr_dlist _ _ HL _ _ Hr) as [Hnd Hs].
  assert (p ∉ r :: xs) as Hpr by (intros ?; apply Hp; by exists r, xs).
  assert (np ∈ r :: xs) as Hnpin.
  { apply seg_last in Hs. assert (np = default r (last xs)) as -> by congruence.
    destruct (last xs) eqn:E; simpl; [right; by apply last_Some_elem_of|by left]. }
  eapply heap_rep_update; [done| | |].
  - split.
    + apply NoDup_cons in Hnd as [? ?]. apply NoDup_cons. rewrite NoDup_snoc. set_solver.
    + apply seg_link; try done; [by apply NoDup_cons in Hnd as [? _]|set_solver].
  - intros a r2 xs2 Ha Hr2 Ha2. destruct (decide (a = p)) as [->|Hap].
    + destruct Hp. by exists r2, xs2.
    + eapply (hr_disjoint _ _ HL r2 r); [done..|]. set_solver.
  - intros a r2 xs2 Hr2 Hne Ha2.
    assert (a ≠ p) by (intros ->; apply Hp; by exists r2, xs2).
    assert (a ∉ r :: xs) as Hnot.
    { intros Ha. apply Hne. by eapply (hr_disjoint _ _ HL r2 r). }
    assert (is_Some (N !! a)) by (eapply heap_rep_listed; [done|by exists r2, xs2]).
    rewrite next_at_linked, prev_at_linked by done.
    rewrite !decide_False by (intros ->; set_solver). done.
Qed.
End heap.

(** ** Rules for the pointer code *)

Section rules.
Context {ASIO : Asio} {St : Type}.
Implicit Types (N : gmap addr bilist_node) (p q r x y : addr) (xs ys : list addr).
Implicit Types (L : gmap addr (list addr)) (s : machine St) (w : world).

Definition with_nodes N w : world := World N (ops w) (ecs w) (slots w) (services w) (trace w).

Lemma wp_read_next p v s (Φ : res addr → machine St → Prop) :
  next_at (nodes (wld s)) p = Some v → Φ (Ok v) s → wp (read_next p) s Φ.
Proof.
  unfold next_at. intros (nd & E & ->)%fmap_Some ?.
  apply wp_bind, wp_bind, wp_get_world. by apply (wp_of_option nd).
Qed.

Lemma wp_read_prev p v s (Φ : res addr → machine St → Prop) :
  prev_at (nodes (wld s)) p = Some v → Φ (Ok v) s → wp (read_prev p) s Φ.
Proof.
  unfold prev_at. intros (nd & E & ->)%fmap_Some ?.
  apply wp_bind, wp_bind, wp_get_world. by apply (wp_of_option nd).
Qed.

Lemma wp_get_node p nd s (Φ : res bilist_node → machine St → Prop) :
  nodes (wld s) !! p = Some nd → Φ (Ok nd) s → wp (get_node p) s Φ.
Proof. intros E ?. apply wp_bind, wp_get_world. by apply (wp_of_option nd). Qed.

Lemma wp_write_next p v s (Φ : res unit → machine St → Prop) :
  is_Some (nodes (wld s) !! p) →
  Φ (Ok tt) (Machine (obj s) (with_nodes (set_next p v (nodes (wld s))) (wld s))) →
  wp (write_next p v) s Φ.
Proof. intros [nd E] ?. apply wp_bind. by apply (wp_get_node p nd). Qed.

Lemma wp_write_prev p v s (Φ : res unit → machine St → Prop) :
  is_Some (nodes (wld s) !! p) →
  Φ (Ok tt) (Machine (obj s) (with_nodes (set_prev p v (nodes (wld s))) (wld s))) →
  wp (write_prev p v) s Φ.
Proof. intros [nd E] ?. apply wp_bind. by apply (wp_get_node p nd). Qed.

Lemma wp_free_node p s (Φ : res unit → machine St → Prop) :
  is_Some (nodes (wld s) !! p) →
  Φ (Ok tt) (Machine (obj s) (with_nodes (delete p (nodes (wld s))) (wld s))) →
  wp (free_node p) s Φ.
Proof. intros [nd E] ?. apply wp_bind. by apply (wp_get_node p nd). Qed.

Lemma wp_stack_node s (Φ : res addr → machine St → Prop) :
  (∀ p, nodes (wld s) !! p = None → Φ (Ok p) s) → wp stack_node s Φ.
Proof.
  intros HΦ. apply wp_bind, wp_get_world, wp_ret, HΦ.
  apply not_elem_of_dom, is_fresh.
Qed.

Lemma dom_unlinked pr n N : dom (unlinked pr n N) = dom N.
Proof. unfold unlinked, set_next, set_prev. by rewrite !dom_alter_L. Qed.
Lemma dom_linked p r np N : dom (linked p r np N) = dom N.
Proof. unfold linked, set_next, set_prev. by rewrite !dom_alter_L. Qed.

(** [unlink] only follows the pointers of the node itself. *)
Lemma wp_unlink_raw p pr n s (Φ : res unit → machine St → Prop) :
  prev_at (nodes (wld s)) p = Some pr → next_at (nodes (wld s)) p = Some n →
  is_Some (nodes (wld s) !! pr) → is_Some (nodes (wld s) !! n) →
  Φ (Ok tt) (Machine (obj s) (with_nodes (unlinked pr n (nodes (wld s))) (wld s))) →
  wp (unlink p) s Φ.
Proof.
  intros Hpr Hn Ipr In ?. apply wp_bind, (wp_read_prev p pr); [done|].
  apply wp_bind, (wp_read_next p n); [done|].
  apply wp_bind, wp_write_prev; [done|].
  apply wp_write_next; [by apply is_Some_set_prev|done].
Qed.

(** Unlinking a member removes it from its list and touches no other. *)
Lemma wp_unlink p L r xs ys s (Φ : res unit → machine St → Prop) :
  heap_rep (nodes (wld s)) L → L !! r = Some (xs ++ p :: ys) →
  (∀ N', heap_rep N' (<[r := xs ++ ys]> L) → dom N' = dom (nodes (wld s)) →
     N' !! p = nodes (wld s) !! p → framed L (nodes (wld s)) N' →
     Φ (Ok tt) (Machine (obj s) (with_nodes N' (wld s)))) →
  wp (unlink p) s Φ.
Proof.
  intros HL Hr HΦ. destruct (hr_dlist _ _ HL _ _ Hr) as [Hnd Hs].
  pose proof (seg_nodes _ _ _ _ Hs) as Hnodes.
  destruct (Hnodes p) as [[n pr] Hp]; [set_solver|].
  assert (prev_at (nodes (wld s)) p = Some pr) as Hpr by (unfold prev_at; by rewrite Hp).
  assert (next_at (nodes (wld s)) p = Some n) as Hn by (unfold next_at; by rewrite Hp).
  destruct (seg_neighbours _ _ _ _ _ _ _ _ Hs Hpr Hn) as [Hprin Hnin].
  eapply wp_unlink_raw; [done|done|apply Hnodes; set_solver..|].
  assert (∀ a, a ≠ pr → a ≠ n → unlinked pr n (nodes (wld s)) !! a = nodes (wld s) !! a) as Hne.
  { intros a ??. unfold unlinked, set_next, set_prev. by rewrite !lookup_alter_ne by done. }
  apply HΦ; [by eapply heap_rep_unlink|by rewrite dom_unlinked|..].
  - apply NoDup_cons in Hnd as [Hr0 Hnd]. apply NoDup_app_mid in Hnd as (Hp1 & Hp2 & _).
    apply Hne; intros ->; set_solver.
  - intros a _ Hl. apply Hne; intros ->; apply Hl; eexists r, _; (split; [done|]); set_solver.
Qed.

(** [link_before] the root appends. *)
Lemma wp_link_before p L r xs s (Φ : res unit → machine St → Prop) :
  heap_rep (nodes (wld s)) L → L !! r = Some xs → ¬ listed L p → is_Some (nodes (wld s) !! p) →
  (∀ N', heap_rep N' (<[r := xs ++ [p]]> L) → dom N' = dom (nodes (wld s)) →
     Φ (Ok tt) (Machine (obj s) (with_nodes N' (wld s)))) →
  wp (link_before p r) s Φ.
Proof.
  intros HL Hr Hp Hpn HΦ. destruct (hr_dlist _ _ HL _ _ Hr) as [Hnd Hs].
  pose proof (seg_nodes _ _ _ _ Hs) as Hnodes. pose proof (seg_last _ _ _ _ Hs) as Hnp.
  assert (p ∉ r :: xs) as Hpr by (intros ?; apply Hp; by exists r, xs).
  set (np := default r (last xs)) in *.
  assert (is_Some (nodes (wld s) !! r)) as Hrn by (apply Hnodes; set_solver).
  assert (is_Some (nodes (wld s) !! np)) as Hnpn.
  { apply Hnodes. subst np. destruct (last xs) eqn:E; simpl; [|by left].
    apply last_Some_elem_of in E. set_solver. }
  apply wp_bind, wp_write_next; [done|].
  apply wp_bind, (wp_read_prev r np); simpl; [by rewrite prev_at_set_next|].
  apply wp_bind, wp_write_prev; simpl; [by apply is_Some_set_next|].
  apply wp_bind, (wp_read_prev p np); simpl.
  { rewrite prev_at_set_prev by (by apply is_Some_set_next). by rewrite decide_True. }
  apply wp_bind, wp_write_next; simpl; [by apply is_Some_set_prev, is_Some_set_next|].
  apply wp_write_prev; simpl; [by apply is_Some_set_next, is_Some_set_prev, is_Some_set_next|].
  apply HΦ; [by eapply heap_rep_link|apply (dom_linked p r np)].
Qed.

(** [size()] walks the whole list, counting modulo [2 ^ 64]. *)
Lemma wp_size_loop p0 ys p q sz fuel s (Φ : res Z → machine St → Prop) :
  seg (nodes (wld s)) p0 ys q → q ∉ ys → length ys < fuel → p = hd q ys →
  (0 ≤ sz)%Z → (sz + Z.of_nat (length ys) < 2 ^ 64)%Z →
  Φ (Ok (sz + Z.of_nat (length ys))%Z) s →
  wp (size_loop fuel q p sz) s Φ.
Proof.
  revert p0 p sz fuel. induction ys as [|y ys IH]; intros p0 p sz [|fuel] Hs Hq Hf -> Hsz Hb HΦ;
    cbn [size_loop hd length] in *; try lia.
  - rewrite bool_decide_eq_true_2 by done. apply wp_ret. by rewrite Z.add_0_r in HΦ.
  - apply not_elem_of_cons in Hq as [Hqy Hq]. rewrite bool_decide_eq_false_2 by done.
    destruct Hs as (_ & _ & Hs).
    apply wp_bind. eapply wp_read_next; [by eapply seg_first|].
    rewrite wrap_u64_small by lia.
    eapply IH; try done; try lia.
    by replace (sz + 1 + Z.of_nat (length ys))%Z with (sz + Z.of_nat (S (length ys)))%Z by lia.
Qed.

Lemma wp_bilist_size r L xs s (Φ : res Z → machine St → Prop) :
  heap_rep (nodes (wld s)) L → L !! r = Some xs → (Z.of_nat (size (nodes (wld s))) < 2 ^ 64)%Z →
  Φ (Ok (Z.of_nat (length xs))) s → wp (bilist_size r) s Φ.
Proof.
  intros HL Hr Hsz HΦ. destruct (hr_dlist _ _ HL _ _ Hr) as [Hnd Hs].
  pose proof (dlist_nodes _ _ _ (hr_dlist _ _ HL _ _ Hr)) as Hnodes.
  assert (length (r :: xs) ≤ size (nodes (wld s))) as Hlen by (by apply NoDup_length_dom).
  simpl in Hlen. apply wp_bind, wp_loop_fuel.
  apply wp_bind. eapply wp_read_next; [by eapply seg_first|].
  eapply wp_size_loop; try done; [by apply NoDup_cons in Hnd as [? _]|lia..].
Qed.

Lemma wp_bilist_ctor p L s (Φ : res unit → machine St → Prop) :
  heap_rep (nodes (wld s)) L → ¬ listed L p →
  (∀ N', heap_rep N' (<[p := []]> L) → dom N' = {[p]} ∪ dom (nodes (wld s)) →
     Φ (Ok tt) (Machine (obj s) (with_nodes N' (wld s)))) →
  wp (bilist_node_ctor p) s Φ.
Proof.
  intros HL Hp HΦ. apply wp_modify_world, HΦ; [by apply heap_rep_ctor|by rewrite dom_insert_L].
Qed.

End rules.

(** ** Moving a root *)

Section move.
Context {ASIO : Asio} {St : Type}.
Implicit Types (N : gmap addr bilist_node) (p q r x y : addr) (xs ys : list addr).
Implicit Types (L : gmap addr (list addr)) (s : machine St) (w : world).

(** The memory after the three first writes of the move constructor. *)
Definition emptied (this lhs ln lp : addr) N : gmap addr bilist_node :=
  set_prev lhs lhs (set_next lhs lhs (<[this := BilistNode ln lp]> N)).

Lemma emptied_is_Some this lhs ln lp N a :
  a = this ∨ is_Some (N !! a) → is_Some (emptied this lhs ln lp N !! a).
Proof.
  intros Ha. apply is_Some_set_prev, is_Some_set_next, lookup_insert_is_Some'. naive_solver.
Qed.
Lemma next_at_emptied this lhs ln lp N a : a = this ∨ is_Some (N !! a) →
  next_at (emptied this lhs ln lp N) a =
    if decide (lhs = a) then Some lhs else if decide (this = a) then Some ln else next_at N a.
Proof.
  intros Ha. unfold emptied.
  rewrite next_at_set_prev, next_at_set_next by (apply lookup_insert_is_Some'; naive_solver).
  case_decide; [done|]. unfold next_at. rewrite lookup_insert. by case_decide.
Qed.
Lemma prev_at_emptied this lhs ln lp N a : a = this ∨ is_Some (N !! a) →
  prev_at (emptied this lhs ln lp N) a =
    if decide (lhs = a) then Some lhs else if decide (this = a) then Some lp else prev_at N a.
Proof.
  intros Ha. unfold emptied.
  rewrite prev_at_set_prev, prev_at_set_next
    by (apply is_Some_set_next, lookup_insert_is_Some'; naive_solver).
  case_decide; [done|]. unfold prev_at. rewrite lookup_insert. by case_decide.
Qed.
Lemma dom_emptied this lhs ln lp N : dom (emptied this lhs ln lp N) = {[this]} ∪ dom N.
Proof. unfold emptied, set_prev, set_next. by rewrite !dom_alter_L, dom_insert_L. Qed.

(** The two lists after a move, from the lists they hold. *)
Lemma heap_rep_moved N N' L this lhs xs :
  heap_rep N L → L !! lhs = Some xs → ¬ listed L this →
  dlist N' this xs → dlist N' lhs [] →
  (∀ a r2 xs2, L !! r2 = Some xs2 → r2 ≠ lhs → a ∈ r2 :: xs2 →
     next_at N' a = next_at N a ∧ prev_at N' a = prev_at N a) →
  heap_rep N' (<[this := xs]> (<[lhs := []]> L)).
Proof.
  intros HL Hlhs Hthis Hd1 Hd2 Hagree.
  assert (heap_rep N' (<[lhs := []]> L)) as HL1.
  { eapply heap_rep_update; [done..| |done].
    intros a r2 xs2 ->%list_elem_of_singleton Hr2 Ha. eapply (hr_disjoint _ _ HL r2 lhs); [done..|by left]. }
  eapply heap_rep_update; [done..| |done].
  intros a r2 xs2 Ha Hr2 Ha2. apply elem_of_cons in Ha as [->|Ha].
  - destruct Hthis. apply lookup_insert_Some in Hr2 as [[<- <-]|[? ?]].
    + apply list_elem_of_singleton in Ha2 as ->. by exists lhs, xs; split; [|left].
    + by exists r2, xs2.
  - exfalso. apply lookup_insert_Some in Hr2 as [[<- <-]|[Hne Hr2]].
    + apply list_elem_of_singleton in Ha2 as ->.
      by apply (heap_rep_NoDup _ _ _ _ HL), NoDup_cons in Hlhs as [? _].
    + apply Hne. eapply (hr_disjoint _ _ HL lhs r2 xs xs2 a); try done. by right.
Qed.

(** The end of the move: both roots empty, or [x .. z] chained to [this]. *)
Definition moved_nil (this lhs : addr) N : gmap addr bilist_node :=
  set_prev this this (set_next this this (emptied this lhs lhs lhs N)).
Definition moved_cons (this lhs x z : addr) N : gmap addr bilist_node :=
  set_next z this (set_prev x this (emptied this lhs x z N)).

Lemma at_moved_nil this lhs N a : this ≠ lhs → a = this ∨ is_Some (N !! a) →
  next_at (moved_nil this lhs N) a =
    (if decide (this = a) then Some this else if decide (lhs = a) then Some lhs else next_at N a) ∧
  prev_at (moved_nil this lhs N) a =
    (if decide (this = a) then Some this else if decide (lhs = a) then Some lhs else prev_at N a).
Proof.
  intros Hne Ha. pose proof (emptied_is_Some this lhs lhs lhs N a Ha). unfold moved_nil.
  rewrite next_at_set_prev, next_at_set_next, prev_at_set_prev, prev_at_set_next
    by auto using is_Some_set_next.
  rewrite next_at_emptied, prev_at_emptied by done.
  split; repeat case_decide; congruence.
Qed.

Lemma at_moved_cons this lhs x z N a : this ≠ lhs → a = this ∨ is_Some (N !! a) →
  next_at (moved_cons this lhs x z N) a =
    (if decide (z = a) then Some this else if decide (lhs = a) then Some lhs
     else if decide (this = a) then Some x else next_at N a) ∧
  prev_at (moved_cons this lhs x z N) a =
    (if decide (x = a) then Some this else if decide (lhs = a) then Some lhs
     else if decide (this = a) then Some z else prev_at N a).
Proof.
  intros Hne Ha. pose proof (emptied_is_Some this lhs x z N a Ha). unfold moved_cons.
  rewrite prev_at_set_next, next_at_set_next, prev_at_set_prev, next_at_set_prev
    by auto using is_Some_set_prev.
  by rewrite next_at_emptied, prev_at_emptied by done.
Qed.

(** A node of another list is neither of the two roots nor in the moved list. *)
Lemma other_list N L this lhs xs r2 xs2 a :
  heap_rep N L → L !! lhs = Some xs → ¬ listed L this → L !! r2 = Some xs2 → r2 ≠ lhs →
  a ∈ r2 :: xs2 → is_Some (N !! a) ∧ a ≠ this ∧ a ∉ lhs :: xs.
Proof.
  intros HL Hlhs Hthis Hr2 Hne Ha. split_and!.
  - eapply heap_rep_listed; [done|]. by exists r2, xs2.
  - intros ->. apply Hthis. by exists r2, xs2.
  - intros Hin. apply Hne. by eapply (hr_disjoint _ _ HL r2 lhs).
Qed.

Lemma heap_rep_moved_nil N L this lhs :
  heap_rep N L → L !! lhs = Some [] → ¬ listed L this →
  heap_rep (moved_nil this lhs N) (<[this := []]> (<[lhs := []]> L)).
Proof.
  intros HL Hlhs Hthis.
  assert (this ≠ lhs) as Hne by (intros ->; apply Hthis; exists lhs, []; split; [done|by left]).
  assert (is_Some (N !! lhs)) by (eapply dlist_nodes; [by eapply hr_dlist|by left]).
  eapply heap_rep_moved; [done..| | |].
  - split; [apply NoDup_singleton|]. destruct (at_moved_nil this lhs N this) as [E1 E2]; [auto..|].
    simpl. rewrite E1, E2. by solve_decide done.
  - split; [apply NoDup_singleton|]. destruct (at_moved_nil this lhs N lhs) as [E1 E2]; [auto..|].
    simpl. rewrite E1, E2. by solve_decide done.
  - intros a r2 xs2 Hr2 Hne2 Ha.
    destruct (other_list _ _ _ _ _ _ _ _ HL Hlhs Hthis Hr2 Hne2 Ha) as (? & ? & ?%not_elem_of_cons).
    destruct (at_moved_nil this lhs N a) as [-> ->]; [auto..|]. by solve_decide ltac:(naive_solver).
Qed.

Lemma heap_rep_moved_cons N L this lhs x ys z :
  heap_rep N L → L !! lhs = Some (x :: ys) → ¬ listed L this → z = default x (last ys) →
  heap_rep (moved_cons this lhs x z N) (<[this := x :: ys]> (<[lhs := []]> L)).
Proof.
  intros HL Hlhs Hthis Hz. destruct (hr_dlist _ _ HL _ _ Hlhs) as [Hnd (Hn & Hp & Hs)].
  pose proof (dlist_nodes _ _ _ (hr_dlist _ _ HL _ _ Hlhs)) as Hnodes.
  assert (this ∉ lhs :: x :: ys) as Hnin by (intros ?; apply Hthis; by exists lhs, (x :: ys)).
  apply NoDup_cons in Hnd as [Hlx Hnd]. apply NoDup_cons in Hnd as Hx. destruct Hx as [Hx _].
  assert (z ∈ x :: ys) as Hzin.
  { subst z. destruct (last ys) eqn:E; simpl; [right; by apply last_Some_elem_of|by left]. }
  assert (this ≠ lhs ∧ x ≠ lhs ∧ z ≠ lhs ∧ x ≠ this ∧ z ≠ this) as (? & ? & ? & ? & ?) by set_solver.
  assert (∀ a, a ∈ lhs :: x :: ys → a = this ∨ is_Some (N !! a)) as Hin by auto.
  eapply heap_rep_moved; [done..| | |].
  - split; [apply NoDup_cons; set_solver|]. cbn [seg].
    destruct (at_moved_cons this lhs x z N this) as [E1 E2]; [auto..|].
    destruct (at_moved_cons this lhs x z N x) as [E3 E4]; [set_solver..|].
    rewrite E1, E4. solve_decide done. split_and!; [done..|].
    eapply seg_retarget; [exact Hs|done|exact Hz| | | |].
    + intros a Ha Haz. destruct (at_moved_cons this lhs x z N a) as [-> _]; [done|set_solver|].
      by solve_decide ltac:(set_solver).
    + intros a Ha. destruct (at_moved_cons this lhs x z N a) as [_ ->]; [done|set_solver|].
      by solve_decide ltac:(set_solver).
    + destruct (at_moved_cons this lhs x z N z) as [-> _]; [done|set_solver|]. by solve_decide done.
    + rewrite E2. by solve_decide done.
  - split; [apply NoDup_singleton|]. destruct (at_moved_cons this lhs x z N lhs) as [E1 E2]; [set_solver..|].
    simpl. rewrite E1, E2. by solve_decide done.
  - intros a r2 xs2 Hr2 Hne2 Ha.
    destruct (other_list _ _ _ _ _ _ _ _ HL Hlhs Hthis Hr2 Hne2 Ha) as (? & ? & ?).
    destruct (at_moved_cons this lhs x z N a) as [-> ->]; [auto..|].
    by solve_decide ltac:(set_solver).
Qed.

Lemma framed_moved_nil N L this lhs xs :
  L !! lhs = Some xs → lhs ≠ this → N !! this = None → framed L N (moved_nil this lhs N).
Proof.
  intros Hlhs Hne Hthis. apply framed_at. intros a Ha Hl.
  assert (this ≠ a) by (intros ->; rewrite Hthis in Ha; by destruct Ha).
  assert (lhs ≠ a) by (intros <-; apply Hl; exists lhs, xs; split; [done|by left]).
  destruct (at_moved_nil this lhs N a) as [-> ->]; [auto..|]. by solve_decide done.
Qed.
Lemma framed_moved_cons N L this lhs xs x z :
  L !! lhs = Some xs → lhs ≠ this → N !! this = None → x ∈ xs → z ∈ xs →
  framed L N (moved_cons this lhs x z N).
Proof.
  intros Hlhs Hne Hthis Hx Hz. apply framed_at. intros a Ha Hl.
  assert (this ≠ a) by (intros ->; rewrite Hthis in Ha; by destruct Ha).
  assert (∀ b, b ∈ lhs :: xs → b ≠ a) as Hb by (intros b ? ->; apply Hl; by exists lhs, xs).
  destruct (at_moved_cons this lhs x z N a) as [-> ->]; [auto..|].
  by solve_decide ltac:(first [done|apply Hb; set_solver]).
Qed.

(** The move constructor hands the whole list over and leaves [lhs] empty. *)
Lemma wp_bilist_move_ctor this lhs L xs s (Φ : res unit → machine St → Prop) :
  heap_rep (nodes (wld s)) L → L !! lhs = Some xs → ¬ listed L this →
  (∀ N', heap_rep N' (<[this := xs]> (<[lhs := []]> L)) → dom N' = {[this]} ∪ dom (nodes (wld s)) →
     (nodes (wld s) !! this = None → framed L (nodes (wld s)) N') →
     Φ (Ok tt) (Machine (obj s) (with_nodes N' (wld s)))) →
  wp (bilist_move_ctor this lhs) s Φ.
Proof.
  intros HL Hlhs Hthis HΦ. pose proof (hr_dlist _ _ HL _ _ Hlhs) as Hd.
  pose proof (dlist_nodes _ _ _ Hd) as Hnodes. destruct Hd as [Hnd Hs].
  set (N := nodes (wld s)) in *.
  assert (this ∉ lhs :: xs) as Hnin by (intros ?; apply Hthis; by exists lhs, xs).
  assert (lhs ≠ this) as Hne by (intros <-; apply Hnin; by left).
  assert (is_Some (N !! lhs)) as Hlhsn by (apply Hnodes; by left).
  apply wp_bind. eapply wp_read_next; [by eapply seg_first|].
  apply wp_bind. eapply wp_read_prev; [by eapply seg_last|].
  set (ln := hd lhs xs). set (lp := default lhs (last xs)).
  apply wp_bind, wp_modify_world.
  apply wp_bind, wp_write_next; simpl; [apply lookup_insert_is_Some'; by right|].
  apply wp_bind, wp_write_prev; simpl; [apply is_Some_set_next, lookup_insert_is_Some'; by right|].
  fold N. change (set_prev lhs lhs _) with (emptied this lhs ln lp N).
  assert (is_Some (emptied this lhs ln lp N !! this)) as Hthisn by (apply emptied_is_Some; auto).
  apply wp_bind, (wp_read_next this ln); simpl.
  { rewrite next_at_emptied by auto. by solve_decide done. }
  apply wp_bind. destruct xs as [|x ys]; simpl in *.
  - rewrite bool_decide_eq_true_2 by done. apply wp_write_next; [done|].
    apply wp_bind, (wp_read_prev this lp); simpl.
    { rewrite prev_at_set_next, prev_at_emptied by auto. by solve_decide done. }
    rewrite bool_decide_eq_true_2 by done.
    apply wp_write_prev; [by apply is_Some_set_next|].
    apply HΦ; [by apply heap_rep_moved_nil| |].
    + unfold set_next, set_prev. simpl. unfold set_next. by rewrite !dom_alter_L, dom_emptied.
    + intros Hfresh. by apply (framed_moved_nil _ _ _ _ []).
  - assert (lp = default x (last ys)) as Hlp by (unfold lp; rewrite last_cons; by destruct (last ys)).
    assert (lp ∈ x :: ys) as Hlpin.
    { rewrite Hlp. destruct (last ys) eqn:E; simpl; [right; by apply last_Some_elem_of|by left]. }
    apply NoDup_cons in Hnd as [Hlx Hnd].
    assert (∀ a, a ∈ x :: ys → a ≠ lhs ∧ a ≠ this) as Hother.
    { intros a Ha. split; intros ->; [done|]. apply Hnin. by right. }
    destruct (Hother lp Hlpin). destruct (Hother ln) as [? ?]; [by left|].
    rewrite bool_decide_eq_false_2 by done.
    apply wp_write_prev; [apply emptied_is_Some; right; apply Hnodes; by right; left|].
    apply wp_bind, (wp_read_prev this lp); simpl.
    { rewrite prev_at_set_prev, prev_at_emptied by auto. by solve_decide done. }
    rewrite bool_decide_eq_false_2 by done.
    apply wp_write_next; [apply is_Some_set_prev, emptied_is_Some; right; apply Hnodes; by right|].
    apply HΦ; [by apply heap_rep_moved_cons| |].
    + unfold set_next, set_prev. simpl. unfold set_prev. by rewrite !dom_alter_L, dom_emptied.
    + intros Hfresh. eapply (framed_moved_cons _ _ _ _ (x :: ys)); [done..|by left|done].
Qed.

Lemma set_prev_id p v N : prev_at N p = Some v → set_prev p v N = N.
Proof.
  unfold prev_at, set_prev. intros (nd & E & ->)%fmap_Some. apply alter_id.
  intros [a b] Hx. simplify_eq/=. done.
Qed.
Lemma set_next_id p v N : next_at N p = Some v → set_next p v N = N.
Proof.
  unfold next_at, set_next. intros (nd & E & ->)%fmap_Some. apply alter_id.
  intros [a b] Hx. simplify_eq/=. done.
Qed.
Lemma with_nodes_id w : with_nodes (nodes w) w = w.
Proof. by destruct w. Qed.

(** Move assignment from a list that is not empty writes back the pointers
    that are there already. *)
Lemma wp_bilist_move_assign_cons this lhs L xs y ys s (Φ : res unit → machine St → Prop) :
  heap_rep (nodes (wld s)) L → L !! this = Some xs → L !! lhs = Some (y :: ys) →
  Φ (Ok tt) s → wp (bilist_move_assign this lhs) s Φ.
Proof.
  intros HL Hthis Hlhs HΦ. destruct (hr_dlist _ _ HL _ _ Hthis) as [Hnd1 Hs1].
  destruct (hr_dlist _ _ HL _ _ Hlhs) as [Hnd2 Hs2].
  pose proof (seg_nodes _ _ _ _ Hs1) as Hnodes. apply NoDup_cons in Hnd2 as [Hy _].
  apply wp_bind. eapply wp_read_next; [by eapply seg_first|].
  rewrite bool_decide_eq_false_2 by (simpl; intros ->; apply Hy; by left).
  apply wp_bind, wp_bind. eapply wp_read_next; [by eapply seg_first|].
  assert (prev_at (nodes (wld s)) (hd this xs) = Some this) as Hp.
  { destruct xs; simpl in *; tauto. }
  apply wp_write_prev; [by eapply prev_at_is_Some|].
  rewrite set_prev_id, with_nodes_id by done. pose proof (seg_last _ _ _ _ Hs2) as Hlast.
  destruct s as [o w]; cbn [wld obj] in *.
  apply wp_bind. eapply wp_read_prev; [exact Hlast|].
  rewrite bool_decide_eq_false_2.
  - apply wp_bind. eapply wp_read_prev; [by eapply seg_last|].
    assert (next_at (nodes w) (default this (last xs)) = Some this) as Hn.
    { destruct (last xs) as [z|] eqn:E; simpl.
      - apply last_Some in E as [l ->]. apply seg_app in Hs1 as [_ [? _]]. done.
      - apply last_None in E as ->. by destruct Hs1. }
    apply wp_write_next; [by eapply next_at_is_Some|].
    simpl. by rewrite set_next_id, with_nodes_id by done.
  - intros E. apply Hy. rewrite last_cons in E.
    destruct (last ys) eqn:El; simpl in E; subst; [right; by apply last_Some_elem_of|by left].
Qed.

(** Move assignment from an empty list empties [this]; its nodes are left
    linked to one another, in no list. *)
Lemma wp_bilist_move_assign_nil this lhs L xs s (Φ : res unit → machine St → Prop) :
  heap_rep (nodes (wld s)) L → L !! this = Some xs → L !! lhs = Some [] →
  (∀ N', heap_rep N' (<[this := []]> L) → dom N' = dom (nodes (wld s)) →
     (∀ a, a ∈ xs → N' !! a = nodes (wld s) !! a) →
     Φ (Ok tt) (Machine (obj s) (with_nodes N' (wld s)))) →
  wp (bilist_move_assign this lhs) s Φ.
Proof.
  intros HL Hthis Hlhs HΦ. destruct (hr_dlist _ _ HL _ _ Hlhs) as [_ [Hn Hp]].
  pose proof (dlist_nodes _ _ _ (hr_dlist _ _ HL _ _ Hthis)) as Hnodes.
  pose proof (heap_rep_NoDup _ _ _ _ HL Hthis) as [Hnx _]%NoDup_cons.
  assert (is_Some (nodes (wld s) !! this)) as Hthisn by (apply Hnodes; by left).
  apply wp_bind, (wp_read_next lhs lhs); [done|]. rewrite bool_decide_eq_true_2 by done.
  apply wp_bind, wp_write_next; [done|].
  apply wp_bind, (wp_read_prev lhs lhs); simpl; [by rewrite prev_at_set_next|].
  rewrite bool_decide_eq_true_2 by done.
  apply wp_write_prev; [by apply is_Some_set_next|]. apply HΦ; simpl.
  - eapply heap_rep_update; [done| | |].
    + split; [apply NoDup_singleton|]. simpl.
      rewrite next_at_set_prev, next_at_set_next, prev_at_set_prev by auto using is_Some_set_next.
      by solve_decide done.
    + intros a r2 xs2 ->%list_elem_of_singleton Hr2 Ha.
      eapply (hr_disjoint _ _ HL r2 this); [done..|by left].
    + intros a r2 xs2 Hr2 Hne Ha.
      assert (is_Some (nodes (wld s) !! a)) by (eapply heap_rep_listed; [done|by exists r2, xs2]).
      assert (this ≠ a) by (intros ->; apply Hne; eapply (hr_disjoint _ _ HL r2 a); [done..|by left]).
      rewrite next_at_set_prev, next_at_set_next, prev_at_set_prev, prev_at_set_next
        by auto using is_Some_set_next. by solve_decide done.
  - unfold set_prev, set_next. by rewrite !dom_alter_L.
  - intros a Ha. unfold set_prev, set_next. by rewrite !lookup_alter_ne by (intros ->; done).
Qed.
End move.
