(* ===== verification/Ops.v ===== *)
(** * Operations and the lists that hold them

    [basic_op_model] and [predicate_op_model] (heap operations), the stack
    operations [lock_op_t], [acquire_op_t] and [arrive_op_t], the virtual calls
    [complete] and [shutdown], and the holders [basic_bilist_holder] and
    [predicate_bilist_holder] ([detail/basic_op.hpp],
    [detail/basic_op_model.hpp], [detail/predicate_op.hpp],
    [detail/predicate_op_model.hpp] and their [impl] files). *)
From S2P Require Import Prelude Machine Bilist.

(** ** The code *)

Section code.
Context {ASIO : Asio} {St : Type}.

(** [get_cancellation_slot().clear()]. *)
Definition clear_slot (sl : option positive) : M St unit :=
  modify_world (set_slots (match sl with Some n => delete n | None => id end)).

(** [slot.is_connected()] and [slot.assign(...)]. *)
Definition is_connected (sl : option positive) : bool := bool_decide (is_Some sl).
Definition slot_assign (sl : option positive) (c : cancel_handler) : M St unit :=
  modify_world (set_slots (match sl with Some n => <[n := c]> | None => id end)).

Definition get_op (p : addr) : M St op := w ← get_world; of_option (ops w !! p).
Definition put_op (p : addr) (o : op) : M St unit := modify_world (set_ops <[p := o]>).

(** [basic_op_model::construct]: an allocation failure is thrown on, before
    anything was built. *)
Definition basic_op_model_construct (e : executor) (h : handler) : M St addr :=
  w ← get_world;
  match allocate h (dom (nodes w)) with
  | None => throw bad_alloc
  | Some p => bilist_node_ctor p;; put_op p (basic_op_model e h);; mret p
  end.

(** [basic_op_model::destroy]: the destructor, with the handler it still
    holds, then the deallocation. *)
Definition basic_op_model_destroy (self : addr) (held : option handler) : M St unit :=
  modify_world (set_ops (delete self));;
  (match held with Some h => modify_world (log (ev_destroy h)) | None => mret tt end);;
  free_node self;;
  modify_world (log (ev_deallocate self)).

Definition basic_op_model_complete (self : addr) (g : executor) (h : handler) (ec : error_code) : M St unit :=
  clear_slot (associated_slot h);;
  unlink self;;
  basic_op_model_destroy self None;;
  modify_world (log (ev_post g h ec)).

Definition basic_op_model_shutdown (self : addr) (h : handler) : M St unit :=
  clear_slot (associated_slot h);;
  unlink self;;
  basic_op_model_destroy self (Some h).

(** The same for [predicate_op_model]. *)
Definition predicate_op_model_construct (e : executor) (h : handler) (pr : predicate_fn) : M St addr :=
  w ← get_world;
  match allocate h (dom (nodes w)) with
  | None => throw bad_alloc
  | Some p => bilist_node_ctor p;; put_op p (predicate_op_model e h pr);; mret p
  end.

Definition predicate_op_model_destroy (self : addr) (held : option handler) : M St unit :=
  modify_world (set_ops (delete self));;
  (match held with Some h => modify_world (log (ev_destroy h)) | None => mret tt end);;
  free_node self;;
  modify_world (log (ev_deallocate self)).

Definition predicate_op_model_complete (self : addr) (g : executor) (h : handler) (ec : error_code) : M St unit :=
  clear_slot (associated_slot h);;
  unlink self;;
  predicate_op_model_destroy self None;;
  modify_world (log (ev_post g h ec)).

Definition predicate_op_model_shutdown (self : addr) (h : handler) : M St unit :=
  clear_slot (associated_slot h);;
  unlink self;;
  predicate_op_model_destroy self (Some h).

(** [lock_op_t], [acquire_op_t], [arrive_op_t]: an operation on the stack of a
    thread, built on the caller's [error_code]. Its node is freed when the
    function returns. *)
Definition sync_op_ctor (ec : addr) : M St addr :=
  p ← stack_node;
  bilist_node_ctor p;; put_op p (sync_op ec false);; mret p.
Definition sync_op_dtor (self : addr) : M St unit :=
  modify_world (set_ops (delete self));; free_node self.

(** Assigning through an [error_code &]. *)
Definition assign_ec (r : addr) (ec : error_code) : M St unit :=
  w ← get_world; _ ← of_option (ecs w !! r); modify_world (set_ecs <[r := ec]>).

Definition sync_op_complete (self r : addr) (ec : error_code) : M St unit :=
  put_op self (sync_op r true);;
  assign_ec r ec;;
  unlink self;;
  modify_world (log (ev_notify self)).

Definition sync_op_shutdown (self r : addr) : M St unit :=
  put_op self (sync_op r true);;
  assign_ec r shut_down;;
  unlink self;;
  modify_world (log (ev_notify self)).

(** The virtual calls. *)
Definition op_complete (p : addr) (ec : error_code) : M St unit :=
  o ← get_op p;
  match o with
  | basic_op_model g h => basic_op_model_complete p g h ec
  | predicate_op_model g h _ => predicate_op_model_complete p g h ec
  | sync_op r _ => sync_op_complete p r ec
  end.

Definition op_shutdown (p : addr) : M St unit :=
  o ← get_op p;
  match o with
  | basic_op_model g h => basic_op_model_shutdown p h
  | predicate_op_model g h _ => predicate_op_model_shutdown p h
  | sync_op r _ => sync_op_shutdown p r
  end.

(** [waiters_.next_ == &waiters_]. *)
Definition is_empty (this : addr) : M St bool := nx ← read_next this; mret (bool_decide (nx = this)).

(** [basic_bilist_holder::complete_all]. *)
Definition holder_complete_all (this : addr) (ec : error_code) : M St unit :=
  fuel ← loop_fuel;
  while_ fuel (b ← is_empty this; mret (negb b)) (nx ← read_next this; op_complete nx ec).

(** [~basic_bilist_holder]. *)
Definition holder_dtor (this : addr) : M St unit :=
  fuel ← loop_fuel;
  while_ fuel (b ← is_empty this; mret (negb b)) (nx ← read_next this; op_complete nx operation_aborted);;
  free_node this.

(** [basic_bilist_holder::shutdown]: the list is moved to the local root [bn]
    first; [nx] is a reference to [bn.next_], so [nx = nx2] writes it. *)
Definition holder_shutdown (this : addr) : M St unit :=
  bn ← stack_node;
  bilist_move_ctor bn this;;
  fuel ← loop_fuel;
  while_ fuel (b ← is_empty bn; mret (negb b))
    (nx ← read_next bn;
     nx2 ← read_next nx;
     op_shutdown nx;;
     write_next bn nx2);;
  free_node bn.

(** The body of every implementation's [shutdown] once it has unlocked:
    [auto w = std::move(waiters_)] and, later, [w.shutdown()] and [~w]. *)
Definition holder_move_ctor (this : addr) : M St addr :=
  w ← stack_node; bilist_move_ctor w this;; mret w.

(** [std::swap(a, b)] on two holders: the move constructor of the temporary,
    two move assignments, the destructor of the temporary. *)
Definition holder_swap (a b : addr) : M St unit :=
  tmp ← holder_move_ctor a;
  bilist_move_assign a b;;
  bilist_move_assign b tmp;;
  holder_dtor tmp.
End code.

(** ** What completing and shutting down leave behind *)

Section effects.
Context {ASIO : Asio}.
Implicit Types (w : world) (p r : addr) (o : op).

Definition op_slot o : option positive :=
  match o with
  | basic_op_model _ h | predicate_op_model _ h _ => associated_slot h
  | sync_op _ _ => None
  end.

Definition slot_cleared (sl : option positive) (m : gmap positive cancel_handler) : gmap positive cancel_handler :=
  match sl with Some n => delete n m | None => m end.

(** The world, list nodes apart, after [op_complete p ec] of an [o]. *)
Definition finish (ec : error_code) (w : world) (po : addr * op) : world :=
  match po.2 with
  | basic_op_model g h | predicate_op_model g h _ =>
      World (nodes w) (delete po.1 (ops w)) (ecs w) (slot_cleared (associated_slot h) (slots w))
        (services w) (trace w ++ [ev_deallocate po.1; ev_post g h ec])
  | sync_op r _ =>
      World (nodes w) (<[po.1 := sync_op r true]> (ops w)) (<[r := ec]> (ecs w)) (slots w)
        (services w) (trace w ++ [ev_notify po.1])
  end.

(** The same for [op_shutdown p]. *)
Definition abort (w : world) (po : addr * op) : world :=
  match po.2 with
  | basic_op_model _ h | predicate_op_model _ h _ =>
      World (nodes w) (delete po.1 (ops w)) (ecs w) (slot_cleared (associated_slot h) (slots w))
        (services w) (trace w ++ [ev_destroy h; ev_deallocate po.1])
  | sync_op r _ =>
      World (nodes w) (<[po.1 := sync_op r true]> (ops w)) (<[r := shut_down]> (ecs w)) (slots w)
        (services w) (trace w ++ [ev_notify po.1])
  end.

Definition finish_all (ec : error_code) (q : list (addr * op)) (w : world) : world :=
  foldl (finish ec) w q.
Definition abort_all (q : list (addr * op)) (w : world) : world := foldl abort w q.

(** The calls made for one completed or aborted operation. *)
Definition completion (ec : error_code) (po : addr * op) : list event :=
  match po.2 with
  | basic_op_model g h | predicate_op_model g h _ => [ev_deallocate po.1; ev_post g h ec]
  | sync_op _ _ => [ev_notify po.1]
  end.
Definition abortion (po : addr * op) : list event :=
  match po.2 with
  | basic_op_model _ h | predicate_op_model _ h _ => [ev_destroy h; ev_deallocate po.1]
  | sync_op _ _ => [ev_notify po.1]
  end.

Lemma trace_finish ec w po : trace (finish ec w po) = trace w ++ completion ec po.
Proof. by destruct po as [p []]. Qed.
Lemma trace_abort w po : trace (abort w po) = trace w ++ abortion po.
Proof. by destruct po as [p []]. Qed.

Lemma finish_all_cons ec po q w : finish_all ec (po :: q) w = finish_all ec q (finish ec w po).
Proof. done. Qed.
Lemma abort_all_cons po q w : abort_all (po :: q) w = abort_all q (abort w po).
Proof. done. Qed.

Lemma trace_finish_all ec q w : trace (finish_all ec q w) = trace w ++ (q ≫= completion ec).
Proof.
  revert w. induction q as [|po q IH]; intros w; [by rewrite app_nil_r|].
  by rewrite finish_all_cons, IH, trace_finish, <- app_assoc.
Qed.
Lemma trace_abort_all q w : trace (abort_all q w) = trace w ++ (q ≫= abortion).
Proof.
  revert w. induction q as [|po q IH]; intros w; [by rewrite app_nil_r|].
  by rewrite abort_all_cons, IH, trace_abort, <- app_assoc.
Qed.

Lemma finish_all_app ec q1 q2 w : finish_all ec (q1 ++ q2) w = finish_all ec q2 (finish_all ec q1 w).
Proof. unfold finish_all. by rewrite foldl_app. Qed.
Lemma abort_all_app q1 q2 w : abort_all (q1 ++ q2) w = abort_all q2 (abort_all q1 w).
Proof. unfold abort_all. by rewrite foldl_app. Qed.

Lemma ops_finish_ne ec w po p : p ≠ po.1 → ops (finish ec w po) !! p = ops w !! p.
Proof. intros ?. destruct po as [p' []]; simpl in *; by rewrite ?lookup_delete_ne, ?lookup_insert_ne. Qed.
Lemma ops_abort_ne w po p : p ≠ po.1 → ops (abort w po) !! p = ops w !! p.
Proof. intros ?. destruct po as [p' []]; simpl in *; by rewrite ?lookup_delete_ne, ?lookup_insert_ne. Qed.
Lemma ops_finish_all_ne ec q w p : p ∉ q.*1 → ops (finish_all ec q w) !! p = ops w !! p.
Proof.
  revert w. induction q as [|po q IH]; intros w Hp; [done|].
  apply not_elem_of_cons in Hp as [? ?]. rewrite finish_all_cons, IH by done. by apply ops_finish_ne.
Qed.
Lemma ops_abort_all_ne q w p : p ∉ q.*1 → ops (abort_all q w) !! p = ops w !! p.
Proof.
  revert w. induction q as [|po q IH]; intros w Hp; [done|].
  apply not_elem_of_cons in Hp as [? ?]. rewrite abort_all_cons, IH by done. by apply ops_abort_ne.
Qed.

Lemma services_finish_all ec q w : services (finish_all ec q w) = services w.
Proof.
  revert w. induction q as [|[p []] q IH]; intros w; rewrite ?finish_all_cons; [done|..]; by rewrite IH.
Qed.
Lemma services_abort_all q w : services (abort_all q w) = services w.
Proof.
  revert w. induction q as [|[p []] q IH]; intros w; rewrite ?abort_all_cons; [done|..]; by rewrite IH.
Qed.

Lemma finish_with_nodes ec N w po : finish ec (with_nodes N w) po = with_nodes N (finish ec w po).
Proof. by destruct po as [p []]. Qed.
Lemma abort_with_nodes N w po : abort (with_nodes N w) po = with_nodes N (abort w po).
Proof. by destruct po as [p []]. Qed.
Lemma finish_all_with_nodes ec N q w : finish_all ec q (with_nodes N w) = with_nodes N (finish_all ec q w).
Proof.
  revert w. induction q as [|po q IH]; intros w; [done|]. by rewrite !finish_all_cons, finish_with_nodes, IH.
Qed.
Lemma abort_all_with_nodes N q w : abort_all q (with_nodes N w) = with_nodes N (abort_all q w).
Proof.
  revert w. induction q as [|po q IH]; intros w; [done|]. by rewrite !abort_all_cons, abort_with_nodes, IH.
Qed.

(** An operation that is not among those completed does not matter. *)
Lemma finish_insert_ne ec p o w po : p ≠ po.1 → finish ec (set_ops <[p := o]> w) po = set_ops <[p := o]> (finish ec w po).
Proof.
  intros Hne. destruct po as [p' []]; unfold finish, set_ops; simpl in *; f_equal;
    first [by apply delete_insert_ne|by apply insert_insert_ne].
Qed.
Lemma finish_all_insert_ne ec p o q w :
  p ∉ q.*1 → finish_all ec q (set_ops <[p := o]> w) = set_ops <[p := o]> (finish_all ec q w).
Proof.
  revert w. induction q as [|po q IH]; intros w Hp; [done|].
  apply not_elem_of_cons in Hp as [? ?]. by rewrite !finish_all_cons, finish_insert_ne, IH by done.
Qed.

(** Two worlds that differ in their list nodes only. *)
Definition same_but_nodes (w1 w2 : world) : Prop := ∃ N, w1 = with_nodes N w2.

#[export] Instance same_but_nodes_equiv : Equivalence same_but_nodes.
Proof.
  split.
  - intros w. exists (nodes w). by rewrite with_nodes_id.
  - intros w1 w2 [N ->]. exists (nodes w2). by destruct w2.
  - intros w1 w2 w3 [N ->] [N' ->]. by exists N.
Qed.
Lemma same_with_nodes N w : same_but_nodes (with_nodes N w) w.
Proof. by exists N. Qed.
#[export] Instance finish_proper ec : Proper (same_but_nodes ==> (=) ==> same_but_nodes) (finish ec).
Proof. intros w1 w2 [N ->] po ? <-. exists N. by destruct po as [p []]. Qed.
#[export] Instance abort_proper : Proper (same_but_nodes ==> (=) ==> same_but_nodes) abort.
Proof. intros w1 w2 [N ->] po ? <-. exists N. by destruct po as [p []]. Qed.
End effects.

(** ** Well-formed worlds

    [world_ok w L]: the lists [L] are what memory holds; every operation object
    lives in a node and is no root; every queued operation is pending; and
    every closure in a slot captures an operation that is queued and whose slot
    it is. *)

Section inv.
Context {ASIO : Asio}.
Implicit Types (w : world) (p r : addr) (o : op) (L : gmap addr (list addr)).

Definition op_pending w o : Prop :=
  match o with
  | sync_op r d => d = false ∧ is_Some (ecs w !! r)
  | _ => True
  end.

Record world_ok w L : Prop := {
  wo_heap : heap_rep (nodes w) L;
  wo_ops p : is_Some (ops w !! p) → is_Some (nodes w !! p);
  wo_roots r : is_Some (L !! r) → ops w !! r = None;
  wo_pending p o : ops w !! p = Some o → listed L p → op_pending w o;
  wo_slots n c : slots w !! n = Some c →
    ∃ o, ops w !! ch_model c = Some o ∧ op_slot o = Some n ∧ listed L (ch_model c)
}.

(** The list at [r] holds exactly the operations [q], in this order. *)
Definition queue w L r (q : list (addr * op)) : Prop :=
  L !! r = Some q.*1 ∧ Forall (λ po, ops w !! po.1 = Some po.2) q.

Lemma listed_member L r xs p : L !! r = Some xs → p ∈ xs → listed L p.
Proof. intros ? ?. exists r, xs. split; [done|by right]. Qed.
Lemma listed_root L r xs : L !! r = Some xs → listed L r.
Proof. intros ?. exists r, xs. split; [done|by left]. Qed.
Hint Resolve listed_member listed_root : sam.

(** Membership after one list has shrunk by [p]. *)
Lemma listed_remove L r xs ys p a :
  L !! r = Some (xs ++ p :: ys) → listed (<[r := xs ++ ys]> L) a → listed L a.
Proof.
  intros Hr (r2 & xs2 & [[<- <-]|[? ?]]%lookup_insert_Some & Ha).
  - exists r, (xs ++ p :: ys). split; [done|]. set_solver.
  - by exists r2, xs2.
Qed.
Lemma listed_kept L r xs ys p a :
  L !! r = Some (xs ++ p :: ys) → listed L a → a ≠ p → listed (<[r := xs ++ ys]> L) a.
Proof.
  intros Hr (r2 & xs2 & Hr2 & Ha) Hne. destruct (decide (r2 = r)) as [->|Hr2r].
  - simplify_eq. exists r, (xs ++ ys). split; [by rewrite lookup_insert_eq|]. set_solver.
  - exists r2, xs2. by rewrite lookup_insert_ne.
Qed.
Lemma unlisted_removed N L r xs ys p :
  heap_rep N L → L !! r = Some (xs ++ p :: ys) → ¬ listed (<[r := xs ++ ys]> L) p.
Proof.
  intros HL Hr (r2 & xs2 & Hr2 & Ha).
  pose proof (heap_rep_NoDup _ _ _ _ HL Hr) as [Hrx (Hpx & Hpy & _)%NoDup_app_mid]%NoDup_cons.
  apply lookup_insert_Some in Hr2 as [[<- <-]|[Hne Hr2]].
  - set_solver.
  - apply Hne. eapply (hr_disjoint _ _ HL r r2 _ xs2 p); try done. set_solver.
Qed.
Lemma is_Some_insert_root L r xs ys r2 :
  L !! r = Some xs → is_Some (<[r := ys]> L !! r2) → is_Some (L !! r2).
Proof. intros Hr Hi. destruct (decide (r = r2)) as [->|?]; [by eexists|]. by rewrite lookup_insert_ne in Hi. Qed.

(** What [finish] and [abort] do to operations, slots and error codes keeps the
    world well formed, provided the list has shrunk accordingly. [upd] is the
    world after the call. *)
Record removes (w upd : world) (po : addr * op) : Prop := {
  rm_ops_ne p : p ≠ po.1 → ops upd !! p = ops w !! p;
  rm_self o : ops upd !! po.1 = Some o → ∃ r, po.2 = sync_op r false ∧ o = sync_op r true;
  rm_slots n c : slots upd !! n = Some c → slots w !! n = Some c ∧ op_slot po.2 ≠ Some n;
  rm_ecs r : is_Some (ecs w !! r) → is_Some (ecs upd !! r)
}.

Lemma removes_finish ec w po : op_pending w po.2 → removes w (finish ec w po) po.
Proof.
  intros Hpend. destruct po as [p o]; simpl in *. split; simpl.
  - intros p' ?. by rewrite ops_finish_ne.
  - intros o'. destruct o; simpl; rewrite ?lookup_delete_eq, ?lookup_insert_eq; try done.
    intros ?; simplify_eq. destruct Hpend as [-> _]. by eexists.
  - intros n c. destruct o; simpl; [destruct (associated_slot handler_) eqn:E..|]; simpl;
      try (intros [? ?]%lookup_delete_Some); naive_solver.
  - intros r ?. destruct o; simpl; try done. apply lookup_insert_is_Some'. by right.
Qed.

Lemma removes_abort w po : op_pending w po.2 → removes w (abort w po) po.
Proof.
  intros Hpend. destruct po as [p o]; simpl in *. split; simpl.
  - intros p' ?. by rewrite ops_abort_ne.
  - intros o'. destruct o; simpl; rewrite ?lookup_delete_eq, ?lookup_insert_eq; try done.
    intros ?; simplify_eq. destruct Hpend as [-> _]. by eexists.
  - intros n c. destruct o; simpl; [destruct (associated_slot handler_) eqn:E..|]; simpl;
      try (intros [? ?]%lookup_delete_Some); naive_solver.
  - intros r ?. destruct o; simpl; try done. apply lookup_insert_is_Some'. by right.
Qed.

Lemma world_ok_remove w upd L r xs p o ys N' :
  world_ok w L → L !! r = Some (xs ++ p :: ys) → ops w !! p = Some o →
  removes w upd (p, o) → heap_rep N' (<[r := xs ++ ys]> L) →
  (∀ a, is_Some (nodes w !! a) → a ≠ p ∨ is_Some (ops upd !! a) → is_Some (N' !! a)) →
  world_ok (with_nodes N' upd) (<[r := xs ++ ys]> L).
Proof.
  intros Hok Hr Hp Hrm HL' Hdom. split; simpl; [done|..].
  - intros a Ha. destruct (decide (a = p)) as [->|Hne].
    + apply Hdom; [apply (wo_ops _ _ Hok); by eexists|by right].
    + apply Hdom; [|by left]. apply (wo_ops _ _ Hok). by rewrite <- (rm_ops_ne _ _ _ Hrm).
  - intros a Ha. eapply is_Some_insert_root in Ha; [|done].
    pose proof (wo_roots _ _ Hok a Ha). rewrite (rm_ops_ne _ _ _ Hrm); [done|]. simpl. congruence.
  - intros a o' Ho' Hl. assert (a ≠ p).
    { intros ->. by eapply unlisted_removed in Hl; [|apply Hok|]. }
    rewrite (rm_ops_ne _ _ _ Hrm) in Ho' by done. eapply listed_remove in Hl; [|done].
    pose proof (wo_pending _ _ Hok _ _ Ho' Hl) as Hpend. destruct o'; simpl in *; try done.
    destruct Hpend. split; [done|]. by apply (rm_ecs _ _ _ Hrm).
  - intros n c [Hc Hn]%(rm_slots _ _ _ Hrm).
    destruct (wo_slots _ _ Hok _ _ Hc) as (o' & Ho' & Hs & Hl). exists o'.
    assert (ch_model c ≠ p) by (intros E; simpl in *; congruence).
    rewrite (rm_ops_ne _ _ _ Hrm) by done. split_and!; [done..|]. by eapply listed_kept.
Qed.

(** A heap operation is freed, a stack operation stays in memory. *)
Lemma world_ok_freed w upd L r xs p o ys N' :
  world_ok w L → L !! r = Some (xs ++ p :: ys) → ops w !! p = Some o →
  removes w upd (p, o) → ops upd !! p = None →
  heap_rep N' (<[r := xs ++ ys]> L) → dom N' = dom (nodes w) →
  world_ok (with_nodes (delete p N') upd) (<[r := xs ++ ys]> L).
Proof.
  intros Hok Hr Hp Hrm Hnone HL' Hdom. eapply world_ok_remove; [done..| |].
  - apply heap_rep_free; [done|]. eapply unlisted_removed; [apply Hok|done].
  - intros a Ha Hne. assert (p ≠ a) by (intros ->; rewrite Hnone in Hne; destruct Hne as [?|[]]; done).
    rewrite lookup_delete_ne by done. apply elem_of_dom. rewrite Hdom. by apply elem_of_dom.
Qed.
Lemma world_ok_kept w upd L r xs p o ys N' :
  world_ok w L → L !! r = Some (xs ++ p :: ys) → ops w !! p = Some o →
  removes w upd (p, o) → heap_rep N' (<[r := xs ++ ys]> L) → dom N' = dom (nodes w) →
  world_ok (with_nodes N' upd) (<[r := xs ++ ys]> L).
Proof.
  intros Hok Hr Hp Hrm HL' Hdom. eapply world_ok_remove; [done..|].
  intros a Ha _. apply elem_of_dom. rewrite Hdom. by apply elem_of_dom.
Qed.

(** The other queues keep their operations. *)
Lemma queue_remove w upd L r r2 xs ys p o q N' :
  world_ok w L → L !! r = Some (xs ++ p :: ys) → removes w upd (p, o) → r2 ≠ r →
  queue w L r2 q → queue (with_nodes N' upd) (<[r := xs ++ ys]> L) r2 q.
Proof.
  intros Hok Hr Hrm Hne [Hr2 Hq]. split; [by rewrite lookup_insert_ne|].
  rewrite Forall_forall in *. intros [p' o'] Hin. simpl. rewrite (rm_ops_ne _ _ _ Hrm); [by apply (Hq (p', o'))|].
  simpl. intros ->. apply Hne. eapply (hr_disjoint _ _ (wo_heap _ _ Hok) r2 r _ _ p); [done..| |set_solver].
  right. apply list_elem_of_fmap. by exists (p, o').
Qed.
End inv.
#[export] Hint Resolve listed_member listed_root : sam.

(** ** Rules for the virtual calls *)

Section rules.
Context {ASIO : Asio} {St : Type}.
Implicit Types (w : world) (p r : addr) (o : op) (L : gmap addr (list addr)) (m : St).

Lemma wp_get_op p o (s : machine St) (Φ : res op → machine St → Prop) :
  ops (wld s) !! p = Some o → Φ (Ok o) s → wp (get_op p) s Φ.
Proof. intros E ?. apply wp_bind, wp_get_world. by apply (wp_of_option o). Qed.

Lemma wp_is_empty r L xs (s : machine St) (Φ : res bool → machine St → Prop) :
  heap_rep (nodes (wld s)) L → L !! r = Some xs →
  Φ (Ok (bool_decide (xs = []))) s → wp (is_empty r) s Φ.
Proof.
  intros HL Hr HΦ. pose proof (hr_dlist _ _ HL _ _ Hr) as [Hnd Hs].
  apply wp_bind. eapply wp_read_next; [by eapply seg_first|]. apply wp_ret.
  destruct xs as [|x xs]; simpl; [by rewrite bool_decide_eq_true_2|].
  rewrite bool_decide_eq_false_2 in HΦ |- *; [done..|].
  intros ->. apply NoDup_cons in Hnd as [Hr0 _]. apply Hr0. by left.
Qed.

Lemma wp_holder_first r L x xs (s : machine St) (Φ : res addr → machine St → Prop) :
  heap_rep (nodes (wld s)) L → L !! r = Some (x :: xs) →
  Φ (Ok x) s → wp (read_next r) s Φ.
Proof. intros HL Hr HΦ. pose proof (hr_dlist _ _ HL _ _ Hr) as [_ (Hn & _)]. by eapply wp_read_next. Qed.

Lemma wp_assign_ec r ec (s : machine St) (Φ : res unit → machine St → Prop) :
  is_Some (ecs (wld s) !! r) →
  Φ (Ok tt) (Machine (obj s) (set_ecs <[r := ec]> (wld s))) → wp (assign_ec r ec) s Φ.
Proof. intros [e E] ?. apply wp_bind, wp_get_world, wp_bind. by apply (wp_of_option e). Qed.

Lemma wp_basic_op_model_complete p g h ec m w L r xs ys (Φ : res unit → machine St → Prop) :
  heap_rep (nodes w) L → L !! r = Some (xs ++ p :: ys) →
  (∀ N', heap_rep N' (<[r := xs ++ ys]> L) → dom N' = dom (nodes w) →
     Φ (Ok tt) (Machine m (with_nodes (delete p N') (finish ec w (p, basic_op_model g h))))) →
  wp (basic_op_model_complete p g h ec) (Machine m w) Φ.
Proof.
  intros HL Hr HΦ. apply wp_bind, wp_modify_world.
  eapply wp_bind, wp_unlink; [done..|]. intros N' HL' Hdom _ _.
  assert (is_Some (N' !! p)) as Hpn.
  { apply elem_of_dom. rewrite Hdom. apply elem_of_dom.
    eapply heap_rep_listed; [done|]. eapply listed_member; [done|]. set_solver. }
  apply wp_bind, wp_bind, wp_modify_world, wp_bind, wp_ret, wp_bind, wp_free_node; [done|].
  apply wp_modify_world, wp_modify_world. specialize (HΦ N' HL' Hdom).
  unfold finish, log in *. simpl in *. rewrite <- app_assoc. by destruct (associated_slot h).
Qed.

Lemma wp_basic_op_model_shutdown p g h m w L r xs ys (Φ : res unit → machine St → Prop) :
  heap_rep (nodes w) L → L !! r = Some (xs ++ p :: ys) →
  (∀ N', heap_rep N' (<[r := xs ++ ys]> L) → dom N' = dom (nodes w) →
     framed L (nodes w) (delete p N') →
     Φ (Ok tt) (Machine m (with_nodes (delete p N') (abort w (p, basic_op_model g h))))) →
  wp (basic_op_model_shutdown p h) (Machine m w) Φ.
Proof.
  intros HL Hr HΦ. apply wp_bind, wp_modify_world.
  eapply wp_bind, wp_unlink; [done..|]. intros N' HL' Hdom _ Hfr.
  assert (listed L p) as Hl by (eapply listed_member; [done|set_solver]).
  assert (is_Some (N' !! p)) as Hpn.
  { apply elem_of_dom. rewrite Hdom. apply elem_of_dom.
    by eapply heap_rep_listed. }
  apply wp_bind, wp_modify_world, wp_bind, wp_modify_world, wp_bind, wp_free_node; [done|].
  apply wp_modify_world. specialize (HΦ N' HL' Hdom ltac:(by apply framed_delete)).
  unfold abort, log in *. simpl in *. rewrite <- app_assoc. by destruct (associated_slot h).
Qed.

Lemma wp_sync_op_complete p r0 d ec m w L r xs ys (Φ : res unit → machine St → Prop) :
  heap_rep (nodes w) L → L !! r = Some (xs ++ p :: ys) → is_Some (ecs w !! r0) →
  (∀ N', heap_rep N' (<[r := xs ++ ys]> L) → dom N' = dom (nodes w) → N' !! p = nodes w !! p →
     framed L (nodes w) N' →
     Φ (Ok tt) (Machine m (with_nodes N' (finish ec w (p, sync_op r0 d))))) →
  wp (sync_op_complete p r0 ec) (Machine m w) Φ.
Proof.
  intros HL Hr He HΦ. apply wp_bind, wp_modify_world, wp_bind, wp_assign_ec; [done|].
  eapply wp_bind, wp_unlink; [done..|]. intros N' HL' Hdom Hself Hfr.
  apply wp_modify_world. by apply HΦ.
Qed.

(** Completing a queued operation removes it from its list, and from memory
    when it is a heap operation. A stack operation keeps its own pointers. *)
Lemma wp_op_complete p ec m w L r xs ys o (Φ : res unit → machine St → Prop) :
  world_ok w L → L !! r = Some (xs ++ p :: ys) → ops w !! p = Some o →
  (∀ N', world_ok (with_nodes N' (finish ec w (p, o))) (<[r := xs ++ ys]> L) →
     (is_Some (ops (finish ec w (p, o)) !! p) → N' !! p = nodes w !! p) →
     Φ (Ok tt) (Machine m (with_nodes N' (finish ec w (p, o))))) →
  wp (op_complete p ec) (Machine m w) Φ.
Proof.
  intros Hok Hr Hp HΦ. assert (listed L p) as Hl by (eapply listed_member; [done|set_solver]).
  pose proof (wo_pending _ _ Hok _ _ Hp Hl) as Hpend.
  pose proof (removes_finish ec w (p, o) Hpend) as Hrm.
  apply wp_bind, (wp_get_op p o); [done|]. destruct o as [g h|g h pr|ec0 done0].
  - eapply wp_basic_op_model_complete; [apply Hok|done|]. intros N' HL' Hdom.
    assert (ops (finish ec w (p, basic_op_model g h)) !! p = None) as Hn by apply lookup_delete_eq.
    apply HΦ; [by eapply world_ok_freed|]. rewrite Hn. by intros [].
  - apply (wp_basic_op_model_complete p g h ec m w L r xs ys); [apply Hok|done|]. intros N' HL' Hdom.
    assert (ops (finish ec w (p, predicate_op_model g h pr)) !! p = None) as Hn by apply lookup_delete_eq.
    apply HΦ; [by eapply world_ok_freed|]. rewrite Hn. by intros [].
  - destruct Hpend as [-> He]. eapply wp_sync_op_complete; [apply Hok|done..|].
    intros N' HL' Hdom Hself _. apply HΦ; [|done]. by eapply world_ok_kept.
Qed.

Lemma wp_op_shutdown p m w L r xs ys o (Φ : res unit → machine St → Prop) :
  world_ok w L → L !! r = Some (xs ++ p :: ys) → ops w !! p = Some o →
  (∀ N', world_ok (with_nodes N' (abort w (p, o))) (<[r := xs ++ ys]> L) → framed L (nodes w) N' →
     Φ (Ok tt) (Machine m (with_nodes N' (abort w (p, o))))) →
  wp (op_shutdown p) (Machine m w) Φ.
Proof.
  intros Hok Hr Hp HΦ. assert (listed L p) as Hl by (eapply listed_member; [done|set_solver]).
  pose proof (wo_pending _ _ Hok _ _ Hp Hl) as Hpend.
  pose proof (removes_abort w (p, o) Hpend) as Hrm.
  apply wp_bind, (wp_get_op p o); [done|]. destruct o as [g h|g h pr|ec0 done0].
  - eapply wp_basic_op_model_shutdown; [apply Hok|done|]. intros N' HL' Hdom Hfr.
    apply HΦ; [|done]. eapply world_ok_freed; try done. apply lookup_delete_eq.
  - apply (wp_basic_op_model_shutdown p g h m w L r xs ys); [apply Hok|done|]. intros N' HL' Hdom Hfr.
    apply HΦ; [|done]. eapply world_ok_freed; try done. apply lookup_delete_eq.
  - destruct Hpend as [-> He].
    apply (wp_sync_op_complete p ec0 false shut_down m w L r xs ys); [apply Hok|done..|].
    intros N' HL' Hdom Hself Hfr. apply HΦ; [|done]. by eapply world_ok_kept.
Qed.
End rules.

(** ** Rules for the holders *)

Section holders.
Context {ASIO : Asio} {St : Type}.
Implicit Types (w : world) (p r : addr) (o : op) (L : gmap addr (list addr)) (m : St).
Implicit Types (q : list (addr * op)).

Lemma queue_member w L r q p o : queue w L r q → (p, o) ∈ q → ops w !! p = Some o.
Proof. intros [_ Hq] Hin. rewrite Forall_forall in Hq. by apply (Hq (p, o)). Qed.

Lemma queue_NoDup w L r q : world_ok w L → queue w L r q → NoDup q.*1.
Proof. intros Hok [Hr _]. by apply (heap_rep_NoDup _ _ _ _ (wo_heap _ _ Hok)), NoDup_cons in Hr as [_ ?]. Qed.

(** A part of a queue once the operations before it are gone. *)
Lemma queue_tail w w' L r q1 po q2 N' :
  NoDup (q1 ++ po :: q2).*1 → Forall (λ po, ops w !! po.1 = Some po.2) (q1 ++ po :: q2) →
  (∀ p, p ∉ q1.*1 ++ [po.1] → ops w' !! p = ops w !! p) →
  queue (with_nodes N' w') (<[r := q2.*1]> L) r q2.
Proof.
  intros Hnd Hq Hops. split; [by rewrite lookup_insert_eq|].
  rewrite fmap_app in Hnd. simpl in Hnd. apply NoDup_app in Hnd as (_ & Hd & [Hpo _]%NoDup_cons).
  apply Forall_app in Hq as [_ [_ Hq]%Forall_cons]. rewrite Forall_forall in *.
  intros [p o] Hin. simpl. assert (p ∈ q2.*1) as Hp by (apply list_elem_of_fmap; by exists (p, o)).
  rewrite Hops; [by apply (Hq (p, o))|]. intros [Hp1| ->%list_elem_of_singleton]%elem_of_app; [|done].
  apply (Hd p Hp1). by right.
Qed.

Lemma queue_length_fuel w L r q : world_ok w L → queue w L r q → length q < S (size (nodes w)).
Proof.
  intros Hok [Hr _]. pose proof (heap_rep_NoDup _ _ _ _ (wo_heap _ _ Hok) Hr) as Hnd.
  assert (length (r :: q.*1) ≤ size (nodes w)) as Hl.
  { apply NoDup_length_dom; [done|]. eapply dlist_nodes. eapply hr_dlist; [apply Hok|done]. }
  simpl in Hl. rewrite length_fmap in Hl. lia.
Qed.

(** The pointers of the operation completed last, when it is still in memory:
    they both lead to the root. *)
Definition last_alone (N : gmap addr bilist_node) w r q : Prop :=
  ∀ p o, last q = Some (p, o) → is_Some (ops w !! p) → next_at N p = Some r ∧ prev_at N p = Some r.

(** The loop [while (nx != this) nx->complete(ec)]: it completes every queued
    operation once, in order, and stops. *)
Lemma wp_complete_loop r ec m w L q (Φ : res unit → machine St → Prop) :
  world_ok w L → queue w L r q →
  (∀ N', let w' := with_nodes N' (finish_all ec q w) in
     world_ok w' (<[r := []]> L) → last_alone N' w' r q → Φ (Ok tt) (Machine m w')) →
  wp (while_ (S (size (nodes w))) (b ← is_empty r; mret (negb b)) (nx ← read_next r; op_complete nx ec))
    (Machine m w) Φ.
Proof.
  intros Hok Hq HΦ. pose proof (queue_NoDup _ _ _ _ Hok Hq) as Hnd.
  set (I := λ k s, ∃ q1 q2 N', q = q1 ++ q2 ∧ k = length q2 ∧
    s = Machine m (with_nodes N' (finish_all ec q1 w)) ∧ world_ok (wld s) (<[r := q2.*1]> L) ∧
    (q2 = [] → last_alone N' (finish_all ec q1 w) r q)).
  apply (wp_while I) with (n := length q); [|by eapply queue_length_fuel|].
  { exists [], q, (nodes w). rewrite with_nodes_id. split_and!; try done.
    - by rewrite insert_id by apply Hq.
    - by intros ->. }
  intros k s (q1 & q2 & N' & -> & -> & -> & Hok' & Hlast). simpl in Hok'.
  apply wp_bind. eapply wp_is_empty; [apply Hok'|by rewrite lookup_insert_eq|].
  apply wp_ret. destruct q2 as [|[p o] q2]; simpl.
  { rewrite app_nil_r in *. apply HΦ; auto. }
  apply wp_bind. eapply wp_holder_first; [apply Hok'|by rewrite lookup_insert_eq|].
  assert (ops (with_nodes N' (finish_all ec q1 w)) !! p = Some o) as Hp.
  { simpl. rewrite ops_finish_all_ne; [eapply queue_member; [done|set_solver]|].
    rewrite fmap_app in Hnd. apply NoDup_app in Hnd as (_ & Hd & _). intros Hin. apply (Hd p Hin). by left. }
  eapply (wp_op_complete p ec m _ _ r []); [done|by rewrite lookup_insert_eq|done|].
  intros N2 Hok2 Hself. split; [done|]. eexists. split; [done|].
  exists (q1 ++ [(p, o)]), q2, N2. split_and!; [by rewrite <- app_assoc|done|..].
  - f_equal. by rewrite finish_all_app, finish_with_nodes.
  - by rewrite insert_insert_eq in Hok2.
  - intros -> p' o'. rewrite last_snoc. intros [= <- <-] Hp'.
    rewrite finish_all_app, finish_with_nodes in *. simpl in *. specialize (Hself Hp').
    destruct (hr_dlist _ _ (wo_heap _ _ Hok') r [p]) as [_ (Hn & Hpv & Hn2 & _)]; [by rewrite lookup_insert_eq|].
    unfold next_at, prev_at in *. simpl in *. by rewrite Hself.
Qed.

Lemma wp_holder_complete_all r ec m w L q (Φ : res unit → machine St → Prop) :
  world_ok w L → queue w L r q →
  (∀ N', let w' := with_nodes N' (finish_all ec q w) in
     world_ok w' (<[r := []]> L) → last_alone N' w' r q → Φ (Ok tt) (Machine m w')) →
  wp (holder_complete_all r ec) (Machine m w) Φ.
Proof. intros. by apply wp_bind, wp_loop_fuel, (wp_complete_loop r ec m w L q). Qed.

(** A root that holds nothing can be freed. *)
Lemma world_ok_drop_root w L r :
  world_ok w L → L !! r = Some [] → world_ok (with_nodes (delete r (nodes w)) w) (delete r L).
Proof.
  intros Hok Hr. pose proof (wo_roots _ _ Hok r ltac:(by eexists)) as Hrop. split; simpl.
  - apply heap_rep_free; [by apply heap_rep_delete, Hok|].
    intros (r2 & xs2 & [Hne Hr2]%lookup_delete_Some & Ha). apply Hne.
    eapply (hr_disjoint _ _ (wo_heap _ _ Hok) r r2 _ _ r); [done..|by left|done].
  - intros a Ha. rewrite lookup_delete_ne; [by apply Hok|]. intros ->. rewrite Hrop in Ha. by destruct Ha.
  - intros r2 [xs [_ Hr2]%lookup_delete_Some]. apply Hok. by eexists.
  - intros p o Hp Hl%listed_delete. by apply (wo_pending _ _ Hok p).
  - intros n c Hc. destruct (wo_slots _ _ Hok _ _ Hc) as (o & Ho & Hs & r2 & xs2 & Hr2 & Ha).
    exists o. split_and!; [done..|]. exists r2, xs2. split; [|done]. apply lookup_delete_Some.
    split; [|done]. intros ->. rewrite Hr in Hr2. simplify_eq.
    apply list_elem_of_singleton in Ha. congruence.
Qed.

(** Moving a list to a fresh root. *)
Lemma listed_moved L r r' xs a :
  L !! r = Some xs → L !! r' = None →
  listed (<[r' := xs]> (<[r := []]> L)) a ↔ a = r' ∨ listed L a.
Proof.
  intros Hr Hr'. split.
  - intros [Ha|[Ha|Ha]%listed_insert]%listed_insert.
    + apply elem_of_cons in Ha as [->|Ha]; [by left|right]. by eapply listed_member.
    + right. apply list_elem_of_singleton in Ha as ->. by eapply listed_root.
    + by right.
  - intros [->|(r2 & xs2 & Hr2 & Ha)].
    + exists r', xs. split; [by rewrite lookup_insert_eq|by left].
    + destruct (decide (r2 = r)) as [->|Hne].
      * simplify_eq. apply elem_of_cons in Ha as [->|Ha].
        -- exists r, []. split; [|by left]. rewrite lookup_insert_ne, lookup_insert_eq; congruence.
        -- eexists r', _. split; [by rewrite lookup_insert_eq|by right].
      * exists r2, xs2. split; [|done]. rewrite !lookup_insert_ne; congruence.
Qed.

Lemma world_ok_moved w L r r' xs N' :
  world_ok w L → L !! r = Some xs → nodes w !! r' = None →
  heap_rep N' (<[r' := xs]> (<[r := []]> L)) → dom N' = {[r']} ∪ dom (nodes w) →
  world_ok (with_nodes N' w) (<[r' := xs]> (<[r := []]> L)).
Proof.
  intros Hok Hr Hr' HL' Hdom.
  assert (ops w !! r' = None) as Hop.
  { destruct (ops w !! r') eqn:E; [|done]. destruct (wo_ops _ _ Hok r') as [? ?]; [by eexists|congruence]. }
  assert (L !! r' = None) as Hfresh.
  { destruct (L !! r') eqn:E; [|done]. eapply unlisted in Hr'; [|apply Hok].
    destruct Hr'. by eapply listed_root. }
  split; simpl; [done|..].
  - intros a Ha. apply elem_of_dom. rewrite Hdom. apply elem_of_union_r, elem_of_dom. by apply Hok.
  - intros r2 Hr2. destruct (decide (r2 = r')) as [->|Hne]; [done|].
    rewrite lookup_insert_ne in Hr2 by done. apply (wo_roots _ _ Hok). by eapply is_Some_insert_root.
  - intros p o Hp [->|Hl]%listed_moved; [congruence| |done..]. by apply (wo_pending _ _ Hok p).
  - intros n c Hc. destruct (wo_slots _ _ Hok _ _ Hc) as (o & Ho & Hs & Hl).
    exists o. split_and!; [done..|]. apply listed_moved; auto.
Qed.

(** [auto w = std::move(waiters_)]. *)
Lemma wp_holder_move_ctor r m w L xs (Φ : res addr → machine St → Prop) :
  world_ok w L → L !! r = Some xs →
  (∀ r' N', nodes w !! r' = None → L !! r' = None →
     world_ok (with_nodes N' w) (<[r' := xs]> (<[r := []]> L)) → framed L (nodes w) N' →
     Φ (Ok r') (Machine m (with_nodes N' w))) →
  wp (holder_move_ctor r) (Machine m w) Φ.
Proof.
  intros Hok Hr HΦ. apply wp_bind, wp_stack_node. intros r' Hr'. simpl in Hr'.
  pose proof (unlisted _ _ _ (wo_heap _ _ Hok) Hr') as Hun.
  eapply wp_bind, wp_bilist_move_ctor; [apply Hok|done..|]. intros N' HL' Hdom Hfr. apply wp_ret.
  apply HΦ; [done| |by apply world_ok_moved|by apply Hfr].
  destruct (L !! r') eqn:E; [|done]. destruct Hun. by eapply listed_root.
Qed.

Lemma queue_moved w L r r' q N' :
  queue w L r q → queue (with_nodes N' w) (<[r' := q.*1]> (<[r := []]> L)) r' q.
Proof. intros [_ Hq]. split; [by rewrite lookup_insert_eq|done]. Qed.

(** The loop of [holder.shutdown()], at the local root [bn]. *)
Lemma wp_shutdown_loop bn m w L q fuel (Φ : res unit → machine St → Prop) :
  world_ok w L → queue w L bn q → length q < fuel →
  (∀ N', world_ok (with_nodes N' (abort_all q w)) (<[bn := []]> L) → framed L (nodes w) N' →
     Φ (Ok tt) (Machine m (with_nodes N' (abort_all q w)))) →
  wp (while_ fuel (b ← is_empty bn; mret (negb b))
        (nx ← read_next bn; nx2 ← read_next nx; op_shutdown nx;; write_next bn nx2))
    (Machine m w) Φ.
Proof.
  intros Hok Hq Hfuel HΦ. pose proof (queue_NoDup _ _ _ _ Hok Hq) as Hnd.
  set (I := λ k s, ∃ q1 q2 N', q = q1 ++ q2 ∧ k = length q2 ∧
    s = Machine m (with_nodes N' (abort_all q1 w)) ∧ world_ok (wld s) (<[bn := q2.*1]> L) ∧
    framed L (nodes w) N').
  apply (wp_while I) with (n := length q); [|done|].
  { exists [], q, (nodes w). rewrite with_nodes_id. split_and!; try done.
    by rewrite insert_id by apply Hq. }
  intros k s (q1 & q2 & N' & -> & -> & -> & Hok' & Hfr). simpl in Hok'.
  apply wp_bind. eapply wp_is_empty; [apply Hok'|by rewrite lookup_insert_eq|].
  apply wp_ret. destruct q2 as [|[p o] q2]; simpl.
  { rewrite app_nil_r in HΦ. by apply HΦ. }
  apply wp_bind. eapply wp_holder_first; [apply Hok'|by rewrite lookup_insert_eq|].
  assert (ops (with_nodes N' (abort_all q1 w)) !! p = Some o) as Hp.
  { simpl. rewrite ops_abort_all_ne; [eapply queue_member; [done|set_solver]|].
    rewrite fmap_app in Hnd. apply NoDup_app in Hnd as (_ & Hd & _). intros Hin. apply (Hd p Hin). by left. }
  apply wp_bind. eapply wp_read_next.
  { pose proof (hr_dlist _ _ (wo_heap _ _ Hok') bn _ ltac:(by rewrite lookup_insert_eq)) as [_ (_ & _ & Hs)].
    by eapply seg_first. }
  eapply wp_bind, (wp_op_shutdown p m _ _ bn []); [done|by rewrite lookup_insert_eq|done|].
  intros N2 Hok2 Hfr2. simpl in Hok2. rewrite insert_insert_eq in Hok2.
  pose proof (hr_dlist _ _ (wo_heap _ _ Hok2) bn _ ltac:(by rewrite lookup_insert_eq)) as [_ Hs%seg_first].
  apply wp_write_next; [by eapply next_at_is_Some|]. simpl in *.
  rewrite set_next_id by done. split; [done|]. eexists. split; [done|].
  exists (q1 ++ [(p, o)]), q2, N2. split_and!; [by rewrite <- app_assoc|done| |done|].
  - f_equal. by rewrite abort_all_app, abort_with_nodes.
  - eapply framed_trans; [done..|]. intros a _ [Ha|Ha]%listed_insert; [|done].
    exists bn, (q1 ++ (p, o) :: q2).*1. split; [apply Hq|]. rewrite fmap_app. set_solver.
Qed.

(** [holder.shutdown()]: every queued operation is shut down once, in order;
    no handler is posted. *)
Lemma wp_holder_shutdown r m w L q (Φ : res unit → machine St → Prop) :
  world_ok w L → queue w L r q →
  (∀ N', world_ok (with_nodes N' (abort_all q w)) (<[r := []]> L) → framed L (nodes w) N' →
     Φ (Ok tt) (Machine m (with_nodes N' (abort_all q w)))) →
  wp (holder_shutdown r) (Machine m w) Φ.
Proof.
  intros Hok Hq HΦ. apply wp_bind, wp_stack_node. intros bn Hbn. simpl in Hbn.
  pose proof (unlisted _ _ _ (wo_heap _ _ Hok) Hbn) as Hun.
  assert (L !! bn = None) as HLbn.
  { destruct (L !! bn) eqn:E; [|done]. destruct Hun. by eapply listed_root. }
  eapply wp_bind, wp_bilist_move_ctor; [apply Hok|apply Hq|done|]. intros N1 HL1 Hdom1 Hfr1.
  pose proof (world_ok_moved _ _ _ _ _ _ Hok (proj1 Hq) Hbn HL1 Hdom1) as Hok1.
  pose proof (queue_moved w L r bn q N1 Hq) as Hq1.
  apply wp_bind, wp_loop_fuel, wp_bind. eapply wp_shutdown_loop; [done..| |].
  { by eapply queue_length_fuel. }
  intros N2 Hok2 Hfr2. rewrite insert_insert_eq in Hok2.
  assert (framed L (nodes w) (delete bn N2)) as Hfr.
  { apply framed_delete; [|rewrite Hbn; by intros []]. eapply framed_trans; [by apply Hfr1|exact Hfr2|].
    intros a Ha [->|?]%listed_moved; [rewrite Hbn in Ha; by destruct Ha|done|apply Hq|done]. }
  pose proof (world_ok_drop_root _ _ bn Hok2 ltac:(by rewrite lookup_insert_eq)) as Hok3.
  apply wp_free_node.
  { eapply dlist_nodes; [eapply hr_dlist; [apply Hok2|by rewrite lookup_insert_eq]|by left]. }
  rewrite delete_insert_id in Hok3; [by rewrite abort_all_with_nodes; apply HΦ; [rewrite abort_all_with_nodes in Hok3|]|].
  rewrite lookup_insert_ne; [done|]. intros ->. destruct Hq. congruence.
Qed.

(** [~basic_bilist_holder]: every queued operation is completed with
    [operation_aborted], and the root is gone. *)
Lemma wp_holder_dtor r m w L q (Φ : res unit → machine St → Prop) :
  world_ok w L → queue w L r q →
  (∀ N', world_ok (with_nodes N' (finish_all operation_aborted q w)) (delete r L) →
     Φ (Ok tt) (Machine m (with_nodes N' (finish_all operation_aborted q w)))) →
  wp (holder_dtor r) (Machine m w) Φ.
Proof.
  intros Hok Hq HΦ. apply wp_bind, wp_loop_fuel, wp_bind. eapply wp_complete_loop; [done..|].
  intros N1 w1 Hok1 _. subst w1. pose proof (world_ok_drop_root _ _ r Hok1 ltac:(by rewrite lookup_insert_eq)) as Hok2.
  rewrite delete_insert_eq in Hok2. apply wp_free_node; [|by apply HΦ].
  eapply dlist_nodes; [eapply hr_dlist; [apply Hok1|by rewrite lookup_insert_eq]|by left].
Qed.

(** The destructor of an empty holder only frees its root. *)
Lemma wp_holder_dtor_nil r m w L (Φ : res unit → machine St → Prop) :
  world_ok w L → L !! r = Some [] →
  (let N' := delete r (nodes w) in
     world_ok (with_nodes N' w) (delete r L) → Φ (Ok tt) (Machine m (with_nodes N' w))) →
  wp (holder_dtor r) (Machine m w) Φ.
Proof.
  intros Hok Hr HΦ. apply wp_bind, wp_loop_fuel, wp_bind. cbn [while_].
  apply wp_bind, wp_bind. eapply wp_is_empty; [apply Hok|done|]. apply wp_ret, wp_ret.
  apply wp_free_node; [|by apply HΦ, world_ok_drop_root].
  eapply dlist_nodes; [by eapply hr_dlist; [apply Hok|]|by left].
Qed.
End holders.

(** ** Enqueueing *)

Section enqueue.
Context {ASIO : Asio} {St : Type}.
Implicit Types (w : world) (p r : addr) (o : op) (L : gmap addr (list addr)) (m : St).
Implicit Types (q : list (addr * op)).

(** The world, list nodes apart, once the operation is in a queue of the
    implementation object at [impl]. *)
Definition enqueued (impl : addr) (po : addr * op) w : world :=
  World (nodes w) (<[po.1 := po.2]> (ops w)) (ecs w)
    (match op_slot po.2 with
     | Some n => <[n := CancelHandler po.1 impl]> (slots w)
     | None => slots w
     end) (services w) (trace w).

(** The world with the new, unlinked operation [o] at [p]. *)
Definition built (p : addr) (o : op) w : world :=
  World (<[p := BilistNode p p]> (nodes w)) (<[p := o]> (ops w)) (ecs w) (slots w) (services w) (trace w).

Lemma fresh_op w L p : world_ok w L → nodes w !! p = None → ops w !! p = None.
Proof.
  intros Hok Hp. destruct (ops w !! p) eqn:E; [|done].
  destruct (wo_ops _ _ Hok p) as [? ?]; [by eexists|congruence].
Qed.
Lemma fresh_unlisted w L p : world_ok w L → nodes w !! p = None → ¬ listed L p.
Proof. intros Hok Hp. by eapply unlisted; [apply Hok|]. Qed.

Lemma world_ok_nodes w L N' :
  world_ok w L → heap_rep N' L → (∀ a, is_Some (ops w !! a) → is_Some (N' !! a)) →
  world_ok (with_nodes N' w) L.
Proof. intros [] ? ?. by split. Qed.

(** Lists that hold no operation (roots, members of a service) may change
    freely. *)
Lemma world_ok_relist w L L' N' :
  world_ok w L → heap_rep N' L' → (∀ a, is_Some (ops w !! a) → is_Some (N' !! a)) →
  (∀ r, is_Some (L' !! r) → ops w !! r = None) →
  (∀ p, is_Some (ops w !! p) → listed L' p ↔ listed L p) →
  world_ok (with_nodes N' w) L'.
Proof.
  intros [] HL' Hdom Hroots Hiff. split; simpl; [done..| |].
  - intros p o Hp Hl. apply (wo_pending0 p o Hp). by apply Hiff; [by eexists|].
  - intros n c (o & Ho & Hs & Hl)%wo_slots0. exists o. split_and!; [done..|]. by apply Hiff; [by eexists|].
Qed.

(** A new, empty root. *)
Lemma wp_root_ctor p m w L (Φ : res unit → machine St → Prop) :
  world_ok w L → nodes w !! p = None →
  (∀ N', world_ok (with_nodes N' w) (<[p := []]> L) → dom N' = {[p]} ∪ dom (nodes w) →
     Φ (Ok tt) (Machine m (with_nodes N' w))) →
  wp (bilist_node_ctor p) (Machine m w) Φ.
Proof.
  intros Hok Hp HΦ. pose proof (fresh_unlisted _ _ _ Hok Hp) as Hun.
  pose proof (fresh_op _ _ _ Hok Hp) as Hop.
  eapply wp_bilist_ctor; [apply Hok|done|]. intros N' HL' Hdom. apply HΦ; [|done].
  assert (L !! p = None) as HLp.
  { destruct (L !! p) eqn:E; [|done]. destruct Hun. by eapply listed_root. }
  apply (world_ok_relist w L); [done..| | |].
  - intros a Ha. apply elem_of_dom. rewrite Hdom. apply elem_of_union_r, elem_of_dom. by apply Hok.
  - intros r Hr. destruct (decide (r = p)) as [->|Hne]; [done|].
    rewrite lookup_insert_ne in Hr by done. by apply Hok.
  - intros a Ha. split.
    + intros [->%list_elem_of_singleton|Hl]%listed_insert; [|done]. rewrite Hop in Ha. by destruct Ha.
    + intros (r & xs & Hr & Hin). exists r, xs. split; [|done]. rewrite lookup_insert_ne; congruence.
Qed.

Lemma listed_snoc L r xs p a :
  L !! r = Some xs → listed (<[r := xs ++ [p]]> L) a ↔ a = p ∨ listed L a.
Proof.
  intros Hr. split.
  - intros [Ha|Ha]%listed_insert; [|by right].
    apply elem_of_cons in Ha as [->|[Ha| ->%list_elem_of_singleton]%elem_of_app]; [right|right|by left].
    + by eapply listed_root.
    + by eapply listed_member.
  - intros [->|(r2 & xs2 & Hr2 & Ha)].
    + exists r, (xs ++ [p]). split; [by rewrite lookup_insert_eq|]. set_solver.
    + destruct (decide (r2 = r)) as [->|Hne].
      * simplify_eq. eexists r, _. split; [by rewrite lookup_insert_eq|]. set_solver.
      * exists r2, xs2. by rewrite lookup_insert_ne.
Qed.

Lemma world_ok_enqueued impl w L r xs p o N' :
  world_ok w L → L !! r = Some xs → nodes w !! p = None → op_pending w o →
  heap_rep N' (<[r := xs ++ [p]]> L) → dom N' = {[p]} ∪ dom (nodes w) →
  world_ok (with_nodes N' (enqueued impl (p, o) w)) (<[r := xs ++ [p]]> L).
Proof.
  intros Hok Hr Hp Hpend HL' Hdom.
  pose proof (fresh_op _ _ _ Hok Hp) as Hop. pose proof (fresh_unlisted _ _ _ Hok Hp) as Hun.
  split; simpl; [done|..].
  - intros a Ha. apply elem_of_dom. rewrite Hdom. destruct (decide (a = p)) as [->|?]; [set_solver|].
    rewrite lookup_insert_ne in Ha by done. apply elem_of_union_r, elem_of_dom. by apply Hok.
  - intros r2 Hr2. eapply is_Some_insert_root in Hr2; [|done].
    rewrite lookup_insert_ne; [by apply (wo_roots _ _ Hok)|].
    intros ->. destruct Hr2. destruct Hun. by eapply listed_root.
  - intros a o' Ho' Hl. apply lookup_insert_Some in Ho' as [[<- <-]|[Hne Ho']]; [by destruct o|].
    apply (listed_snoc _ _ _ _ _ Hr) in Hl as [->|Hl]; [done|].
    by apply (wo_pending _ _ Hok a).
  - intros n c Hc. destruct (decide (op_slot o = Some n)) as [Hn|Hn].
    + rewrite Hn, lookup_insert_eq in Hc. simplify_eq. simpl. exists o.
      rewrite lookup_insert_eq. split_and!; [done..|]. apply (listed_snoc _ _ _ _ _ Hr). by left.
    + assert (slots w !! n = Some c) as Hc'.
      { destruct (op_slot o); [|done]. rewrite lookup_insert_ne in Hc by congruence. done. }
      destruct (wo_slots _ _ Hok _ _ Hc') as (o' & Ho' & Hs & Hl). exists o'.
      rewrite lookup_insert_ne by congruence. split_and!; [done..|].
      apply (listed_snoc _ _ _ _ _ Hr). by right.
Qed.

Lemma queue_enqueued impl w L r q p o N' :
  world_ok w L → queue w L r q → nodes w !! p = None →
  queue (with_nodes N' (enqueued impl (p, o) w)) (<[r := q.*1 ++ [p]]> L) r (q ++ [(p, o)]).
Proof.
  intros Hok [Hr Hq] Hp. pose proof (fresh_op _ _ _ Hok Hp) as Hop.
  split; [by rewrite lookup_insert_eq, fmap_app|]. simpl. apply Forall_app. split.
  - eapply Forall_impl; [exact Hq|]. intros [p' o'] H'. simpl in *. rewrite lookup_insert_ne; [done|congruence].
  - apply Forall_singleton. simpl. by rewrite lookup_insert_eq.
Qed.

(** The other queues are untouched. *)
Lemma queue_enqueued_ne impl w L r r2 xs q p o N' :
  world_ok w L → queue w L r2 q → nodes w !! p = None → r2 ≠ r →
  queue (with_nodes N' (enqueued impl (p, o) w)) (<[r := xs]> L) r2 q.
Proof.
  intros Hok [Hr Hq] Hp Hne. pose proof (fresh_op _ _ _ Hok Hp) as Hop.
  split; [by rewrite lookup_insert_ne|]. eapply Forall_impl; [exact Hq|]. intros [p' o'] H'.
  simpl in *. rewrite lookup_insert_ne; [done|congruence].
Qed.

Lemma wp_basic_op_model_construct e h m w (Φ : res addr → machine St → Prop) :
  (allocate h (dom (nodes w)) = None → Φ (Exn bad_alloc) (Machine m w)) →
  (∀ p, allocate h (dom (nodes w)) = Some p → nodes w !! p = None →
     Φ (Ok p) (Machine m (built p (basic_op_model e h) w))) →
  wp (basic_op_model_construct e h) (Machine m w) Φ.
Proof.
  intros Hn Hs. apply wp_bind, wp_get_world. simpl.
  destruct (allocate h (dom (nodes w))) as [p|] eqn:E; [|by apply wp_throw, Hn].
  apply wp_bind, wp_modify_world, wp_bind, wp_modify_world, wp_ret. apply Hs; [done|].
  apply allocate_fresh in E. by apply not_elem_of_dom.
Qed.

(** The same for an operation with a predicate. *)
Lemma wp_predicate_op_model_construct e h pr m w (Φ : res addr → machine St → Prop) :
  (allocate h (dom (nodes w)) = None → Φ (Exn bad_alloc) (Machine m w)) →
  (∀ p, allocate h (dom (nodes w)) = Some p → nodes w !! p = None →
     Φ (Ok p) (Machine m (built p (predicate_op_model e h pr) w))) →
  wp (predicate_op_model_construct e h pr) (Machine m w) Φ.
Proof.
  intros Hn Hs. apply wp_bind, wp_get_world. simpl.
  destruct (allocate h (dom (nodes w))) as [p|] eqn:E; [|by apply wp_throw, Hn].
  apply wp_bind, wp_modify_world, wp_bind, wp_modify_world, wp_ret. apply Hs; [done|].
  apply allocate_fresh in E. by apply not_elem_of_dom.
Qed.

Lemma wp_sync_op_ctor ec m w (Φ : res addr → machine St → Prop) :
  (∀ p, nodes w !! p = None → Φ (Ok p) (Machine m (built p (sync_op ec false) w))) →
  wp (sync_op_ctor ec) (Machine m w) Φ.
Proof.
  intros HΦ. apply wp_bind, wp_stack_node. intros p Hp.
  by apply wp_bind, wp_modify_world, wp_bind, wp_modify_world, wp_ret, HΦ.
Qed.

(** Appending a new operation whose slot is armed already, if it has one. *)
Lemma wp_link_built impl p o m w w1 L r xs (Φ : res unit → machine St → Prop) :
  world_ok w L → L !! r = Some xs → nodes w !! p = None → op_pending w o →
  nodes w1 = <[p := BilistNode p p]> (nodes w) → (∀ N', with_nodes N' w1 = with_nodes N' (enqueued impl (p, o) w)) →
  (∀ N', world_ok (with_nodes N' (enqueued impl (p, o) w)) (<[r := xs ++ [p]]> L) →
     Φ (Ok tt) (Machine m (with_nodes N' (enqueued impl (p, o) w)))) →
  wp (link_before p r) (Machine m w1) Φ.
Proof.
  intros Hok Hr Hp Hpend Hn Heq HΦ. pose proof (fresh_unlisted _ _ _ Hok Hp) as Hun.
  eapply wp_link_before; simpl; rewrite ?Hn; [by apply heap_rep_insert, Hun; apply Hok|done|done| |].
  - rewrite lookup_insert_eq. by eexists.
  - intros N' HL' Hdom. rewrite Heq. apply HΦ. eapply world_ok_enqueued; try done.
    by rewrite Hdom, dom_insert_L.
Qed.

(** The tail of every initiating function of a heap operation: arm the slot,
    append to the list at [r]. *)
Lemma wp_arm_and_link impl p o m w L r xs (add : M St unit) (Φ : res unit → machine St → Prop) :
  world_ok w L → L !! r = Some xs → nodes w !! p = None → op_pending w o →
  (∀ w1, add (Machine m w1) = link_before p r (Machine m w1)) →
  (∀ N', world_ok (with_nodes N' (enqueued impl (p, o) w)) (<[r := xs ++ [p]]> L) →
     Φ (Ok tt) (Machine m (with_nodes N' (enqueued impl (p, o) w)))) →
  wp ((if is_connected (op_slot o) then slot_assign (op_slot o) (CancelHandler p impl) else mret tt);; add)
    (Machine m (built p o w)) Φ.
Proof.
  intros Hok Hr Hp Hpend Hadd HΦ. apply wp_bind. unfold is_connected.
  destruct (op_slot o) as [n|] eqn:E.
  - rewrite bool_decide_eq_true_2 by (by eexists). apply wp_modify_world. unfold wp; simpl; rewrite Hadd.
    eapply (wp_link_built impl); try done. intros N'. unfold enqueued, with_nodes. simpl. by rewrite E.
  - rewrite bool_decide_eq_false_2 by (by intros []). apply wp_ret. unfold wp; rewrite Hadd.
    eapply (wp_link_built impl); try done. intros N'. unfold enqueued, with_nodes. simpl. by rewrite E.
Qed.

(** The end of a stack operation that is in no list. *)
Lemma wp_sync_op_dtor p m w L (Φ : res unit → machine St → Prop) :
  world_ok w L → is_Some (ops w !! p) → ¬ listed L p →
  (∀ N', world_ok (with_nodes N' (set_ops (delete p) w)) L →
     Φ (Ok tt) (Machine m (with_nodes N' (set_ops (delete p) w)))) →
  wp (sync_op_dtor p) (Machine m w) Φ.
Proof.
  intros Hok Hp Hun HΦ. apply wp_bind, wp_modify_world, wp_free_node; [by apply Hok|].
  simpl. apply HΦ. split; simpl.
  - apply heap_rep_free; [apply Hok|done].
  - intros a [o [Hne Ho]%lookup_delete_Some]. rewrite lookup_delete_ne by done. apply Hok. by eexists.
  - intros r Hr. apply lookup_delete_None. right. by apply Hok.
  - intros a o [Hne Ho]%lookup_delete_Some Hl. pose proof (wo_pending _ _ Hok a o Ho Hl). by destruct o.
  - intros n c Hc. destruct (wo_slots _ _ Hok _ _ Hc) as (o & Ho & Hs & Hl). exists o.
    rewrite lookup_delete_ne; [done|]. by intros ->.
Qed.
End enqueue.

(** ** Queues and closures across calls *)

Section closures.
Context {ASIO : Asio}.
Implicit Types (w : world) (p r impl : addr) (o : op) (L : gmap addr (list addr)).
Implicit Types (q : list (addr * op)) (ps : list addr).

(** The queue a removal was made from. *)
Lemma queue_removed w upd L r q1 po q2 N' :
  world_ok w L → queue w L r (q1 ++ po :: q2) → removes w upd po →
  queue (with_nodes N' upd) (<[r := (q1 ++ q2).*1]> L) r (q1 ++ q2).
Proof.
  intros Hok Hq Hrm. pose proof (queue_NoDup _ _ _ _ Hok Hq) as Hnd.
  split; [by rewrite lookup_insert_eq|]. destruct Hq as [_ Hq].
  rewrite fmap_app in Hnd. simpl in Hnd. apply NoDup_app_mid in Hnd as (H1 & H2 & _).
  apply Forall_elem_of_mid in Hq as [_ Hq]. rewrite Forall_forall in *.
  intros [p o] Hin. simpl. rewrite (rm_ops_ne _ _ _ Hrm); [by apply (Hq (p, o))|].
  intros ->. apply elem_of_app in Hin as [Hin|Hin]; [apply H1|apply H2];
    apply list_elem_of_fmap; by exists (po.1, o).
Qed.

(** The closures that captured [&impl] point to operations among [ps]. *)
Definition closures w impl ps : Prop :=
  ∀ n c, slots w !! n = Some c → ch_impl c = impl → ch_model c ∈ ps.

Definition slots_within w' w : Prop := ∀ n c, slots w' !! n = Some c → slots w !! n = Some c.

Lemma slots_within_finish ec w po : slots_within (finish ec w po) w.
Proof.
  intros n c. destruct po as [p [g h|g h pr|]]; simpl; [destruct (associated_slot h)..|done];
    simpl; try done; by intros [? ?]%lookup_delete_Some.
Qed.
Lemma slots_within_abort w po : slots_within (abort w po) w.
Proof.
  intros n c. destruct po as [p [g h|g h pr|]]; simpl; [destruct (associated_slot h)..|done];
    simpl; try done; by intros [? ?]%lookup_delete_Some.
Qed.
Lemma slots_within_finish_all ec q w : slots_within (finish_all ec q w) w.
Proof.
  revert w. induction q as [|po q IH]; intros w n c; [done|]. rewrite finish_all_cons.
  intros H%IH. by eapply slots_within_finish.
Qed.
Lemma slots_within_abort_all q w : slots_within (abort_all q w) w.
Proof.
  revert w. induction q as [|po q IH]; intros w n c; [done|]. rewrite abort_all_cons.
  intros H%IH. by eapply slots_within_abort.
Qed.

Lemma closures_shrink w w' L' impl ps ps' :
  closures w impl ps → slots_within w' w → world_ok w' L' →
  (∀ p, p ∈ ps → listed L' p → p ∈ ps') → closures w' impl ps'.
Proof.
  intros Hc Hsub Hok Hps n c Hn Himpl. destruct (wo_slots _ _ Hok _ _ Hn) as (o & _ & _ & Hl).
  apply Hps; [|done]. eapply Hc; [by apply Hsub|done].
Qed.

(** A closure of this object survives the removal of another operation only. *)
Lemma closures_removed w w' L r impl ps1 p ps2 N' :
  heap_rep N' L → L !! r = Some (ps1 ++ p :: ps2) →
  closures w impl (ps1 ++ p :: ps2) → slots_within w' w →
  world_ok w' (<[r := ps1 ++ ps2]> L) → closures w' impl (ps1 ++ ps2).
Proof.
  intros HL Hr Hc Hsub Hok. eapply closures_shrink; [done..|]. intros a Ha Hl.
  assert (a ≠ p) by (intros ->; by eapply unlisted_removed in Hl). set_solver.
Qed.

Lemma closures_enqueued w impl ps ps' p o :
  closures w impl ps → (∀ a, a = p ∨ a ∈ ps → a ∈ ps') → closures (enqueued impl (p, o) w) impl ps'.
Proof.
  intros Hc Hps n c. unfold enqueued. simpl.
  destruct (op_slot o) as [n'|]; [|intros ? ?; apply Hps; right; by eapply Hc].
  intros [[<- <-]|[? ?]]%lookup_insert_Some ?; [apply Hps; by left|]. apply Hps; right. by eapply Hc.
Qed.
End closures.
