(* ===== verification/Service.v ===== *)
(** * Service members and the service that owns them

    [conditionally_enabled_mutex], [is_single_threaded], [service_member] and
    [op_list_service] ([detail/conditionally_enabled_mutex.hpp],
    [detail/concurrency_hint.hpp], [detail/service.hpp],
    [detail/impl/service.ipp]).

    Every implementation object derives from [service_member]; the class
    [Member] is that inheritance, and what this file proves for a [Member] holds
    for the mutex, the semaphore, the barrier and the others. *)
From S2P Require Import Prelude Machine Bilist Ops.

(** ** Threading mode *)

Section hint.
Context {ASIO : Asio}.

(** [config] is [net::config(ctx).get("scheduler", "concurrency_hint", _)]:
    what the context was configured with, or the default it is given. *)
Definition is_single_threaded (config : Z → Z) (concurrency_hint : Z) : bool :=
  if bool_decide (concurrency_hint ≠ CONCURRENCY_HINT_DEFAULT)
  then bool_decide (CONCURRENCY_HINT_1 = concurrency_hint)
  else bool_decide (config CONCURRENCY_HINT_DEFAULT = CONCURRENCY_HINT_1).
End hint.

(** ** The conditionally enabled mutex *)

Section cem.
Implicit Types (c : conditionally_enabled_mutex).

Definition cem_ctor (enabled : bool) : conditionally_enabled_mutex := CEMutex enabled false false.

(** [lock()] by a thread that runs alone between the two locks it takes: a
    mutex that is held is held by the thread itself, and has no outcome. *)
Definition cem_lock c : option conditionally_enabled_mutex :=
  if enabled_ c then if held_ c then None else Some (CEMutex (enabled_ c) true true)
  else Some (CEMutex (enabled_ c) true (held_ c)).

Definition cem_unlock c : option conditionally_enabled_mutex :=
  if enabled_ c then if held_ c then Some (CEMutex (enabled_ c) false false) else None
  else Some (CEMutex (enabled_ c) false (held_ c)).

(** Nobody is inside. *)
Definition idle c : Prop := locked_flag_ c = false ∧ held_ c = false.
(** The owner is inside. *)
Definition inside c : conditionally_enabled_mutex := CEMutex (enabled_ c) true (enabled_ c).

Lemma cem_lock_idle c : idle c → cem_lock c = Some (inside c).
Proof. destruct c as [[] ? ?]; intros [? ?]; simpl in *; subst; done. Qed.
Lemma cem_unlock_inside c : idle c → cem_unlock (inside c) = Some c.
Proof. destruct c as [[] ? ?]; intros [? ?]; simpl in *; subst; done. Qed.
Lemma idle_ctor b : idle (cem_ctor b).
Proof. done. Qed.
End cem.
#[export] Hint Resolve idle_ctor : sam.

(** ** Members *)

(** The [service_member] base: the address of its node (the address of the
    object), the service it is registered with, and its mutex. *)
Record service_member := ServiceMember {
  this_ : addr;
  service : option addr;
  mtx_ : conditionally_enabled_mutex
}.

(** [St] derives from [service_member]. *)
Class Member (St : Type) := {
  get_sm : St → service_member;
  set_sm : service_member → St → St;
  get_set_sm sm m : get_sm (set_sm sm m) = sm;
  set_set_sm sm sm' m : set_sm sm (set_sm sm' m) = set_sm sm m;
  set_get_sm m : set_sm (get_sm m) m = m
}.

#[export] Program Instance member_self : Member service_member := {|
  get_sm sm := sm;
  set_sm sm _ := sm
|}.
Solve All Obligations with done.

Section locking.
Context {ASIO : Asio} `{!Member St}.

Definition get_mtx (m : St) : conditionally_enabled_mutex := mtx_ (get_sm m).
Definition set_mtx (c : conditionally_enabled_mutex) (m : St) : St :=
  set_sm (ServiceMember (this_ (get_sm m)) (service (get_sm m)) c) m.

Definition lock_mtx : M St unit :=
  m ← get_obj; c ← of_option (cem_lock (get_mtx m)); modify_obj (set_mtx c).
Definition unlock_mtx : M St unit :=
  m ← get_obj; c ← of_option (cem_unlock (get_mtx m)); modify_obj (set_mtx c).

(** [lock_type l{mtx_}; body]: the destructor of [l] unlocks however the body
    ends. *)
Definition with_lock {A} (body : M St A) : M St A := λ s,
  match lock_mtx s with
  | Some (Ok _, s1) =>
      match body s1 with
      | Some (r, s2) =>
          match unlock_mtx s2 with
          | Some (Ok _, s3) => Some (r, s3)
          | _ => None
          end
      | None => None
      end
  | _ => None
  end.

Lemma get_set_mtx c m : get_mtx (set_mtx c m) = c.
Proof. unfold get_mtx, set_mtx. by rewrite get_set_sm. Qed.
Lemma set_set_mtx c c' m : set_mtx c (set_mtx c' m) = set_mtx c m.
Proof. unfold set_mtx. by rewrite !get_set_sm, set_set_sm. Qed.
Lemma set_get_mtx m : set_mtx (get_mtx m) m = m.
Proof.
  transitivity (set_sm (get_sm m) m); [|apply set_get_sm].
  unfold set_mtx, get_mtx. by destruct (get_sm m).
Qed.

Lemma wp_lock_mtx (s : machine St) (Φ : res unit → machine St → Prop) :
  idle (get_mtx (obj s)) →
  Φ (Ok tt) (Machine (set_mtx (inside (get_mtx (obj s))) (obj s)) (wld s)) → wp lock_mtx s Φ.
Proof.
  intros Hi HΦ. apply wp_bind, wp_get_obj, wp_bind.
  eapply wp_of_option; [by apply cem_lock_idle|]. by apply wp_modify_obj.
Qed.

Lemma wp_unlock_mtx c (s : machine St) (Φ : res unit → machine St → Prop) :
  idle c → get_mtx (obj s) = inside c →
  Φ (Ok tt) (Machine (set_mtx c (obj s)) (wld s)) → wp unlock_mtx s Φ.
Proof.
  intros Hi Hc HΦ. apply wp_bind, wp_get_obj, wp_bind.
  eapply wp_of_option; [rewrite Hc; by apply cem_unlock_inside|]. by apply wp_modify_obj.
Qed.

(** A critical section entered with the mutex free is left with it free. *)
Lemma wp_with_lock {A} c (body : M St A) (s : machine St) (Φ : res A → machine St → Prop) :
  get_mtx (obj s) = c → idle c →
  wp body (Machine (set_mtx (inside c) (obj s)) (wld s))
    (λ r s2, get_mtx (obj s2) = inside c ∧ Φ r (Machine (set_mtx c (obj s2)) (wld s2))) →
  wp (with_lock body) s Φ.
Proof.
  intros <- Hi Hb. apply wp_run in Hb as (r & s2 & Hb & Hc & HΦ).
  unfold wp, with_lock.
  pose proof (wp_lock_mtx s (λ r s', r = Ok tt ∧ s' = Machine (set_mtx (inside (get_mtx (obj s))) (obj s)) (wld s)) Hi
    ltac:(done)) as Hl. apply wp_run in Hl as (? & ? & -> & -> & ->). rewrite Hb.
  pose proof (wp_unlock_mtx _ s2 (λ r s', r = Ok tt ∧ s' = Machine (set_mtx (get_mtx (obj s)) (obj s2)) (wld s2)) Hi Hc
    ltac:(done)) as Hu. apply wp_run in Hu as (? & ? & -> & -> & ->). done.
Qed.
End locking.
Global Arguments get_mtx {_ _} _ : simpl never.
Global Arguments set_mtx {_ _} _ _ : simpl never.

(** ** Registration *)

Section service.
Context {ASIO : Asio} {St : Type}.

(** [lock_type lock{mtx_}] on the mutex of the service at [svc]. *)
Definition with_service_lock (svc : addr) (body : M St unit) : M St unit :=
  w ← get_world;
  c ← of_option (services w !! svc);
  c1 ← of_option (cem_lock c);
  modify_world (set_services <[svc := c1]>);;
  body;;
  w ← get_world;
  c2 ← of_option (services w !! svc);
  c3 ← of_option (cem_unlock c2);
  modify_world (set_services <[svc := c3]>).

Definition register_queue (svc sm : addr) : M St unit := with_service_lock svc (link_before sm svc).
Definition unregister_queue (svc sm : addr) : M St unit := with_service_lock svc (unlink sm).

(** [op_list_service(ctx)]: the address is that of [entries]. *)
Definition op_list_service_ctor (entries : addr) (config : Z → Z) : M St unit :=
  bilist_node_ctor entries;;
  modify_world (set_services <[entries := cem_ctor (negb (is_single_threaded config CONCURRENCY_HINT_DEFAULT))]>).

(** [service_member(ctx, hint)]; [svc] is [use_service<op_list_service>(ctx)]. *)
Definition service_member_ctor (this svc : addr) (config : Z → Z) (hint : Z) : M St service_member :=
  bilist_node_ctor this;;
  register_queue svc this;;
  mret (ServiceMember this (Some svc) (cem_ctor (negb (is_single_threaded config hint)))).

(** [service_member(service_member &&sm)]: registered with the same service;
    a null service is dereferenced. *)
Definition service_member_move_ctor (this : addr) (sm : service_member) : M St service_member :=
  bilist_node_ctor this;;
  svc ← of_option (service sm);
  register_queue svc this;;
  mret (ServiceMember this (service sm) (cem_ctor (enabled_ (mtx_ sm)))).

(** [operator=(service_member &&sm)]: the new [*this] and the new [sm]. *)
Definition service_member_move_assign (self sm : service_member) : M St (service_member * service_member) :=
  if bool_decide (service sm ≠ service self) then
    svc ← of_option (service self);
    unregister_queue svc (this_ self);;
    register_queue svc (this_ self);;
    mret (self, ServiceMember (this_ sm) (service self) (mtx_ sm))
  else mret (self, sm).
End service.

Section dtor.
Context {ASIO : Asio} `{!Member St}.

(** [~service_member()], and the end of the node. *)
Definition service_member_dtor : M St unit :=
  with_lock (
    m ← get_obj;
    match service (get_sm m) with
    | Some svc => unregister_queue svc (this_ (get_sm m))
    | None => mret tt
    end);;
  m ← get_obj;
  free_node (this_ (get_sm m)).
End dtor.

(** ** Blocking *)

(** What a synchronous call does: it returns, or leaves its operation in a
    queue and the thread asleep in [op.wait(lock)]. *)
Inductive sync_result :=
  | Returned
  | Blocked (op : addr).

Section wait.
Context {ASIO : Asio} `{!Member St}.

(** The sleeping thread is woken and takes the lock: [var.wait] returns when
    [done], and the function returns; otherwise the thread sleeps on. *)
Definition sync_wait (p : addr) : M St bool := with_lock (
  o ← get_op p;
  match o with
  | sync_op _ true => sync_op_dtor p;; mret true
  | sync_op _ false => mret false
  | _ => ub
  end).

(** A closure that captured [&impl] locks [impl.mtx_]. When [impl] is not this
    object, the mutex of another object is locked, which must be alive. *)
Definition lock_captured (impl : addr) (body : M St unit) : M St unit :=
  m ← get_obj;
  if bool_decide (impl = this_ (get_sm m)) then with_lock body
  else _ ← get_node impl; body.

(** The local [error_code ec] of a throwing overload, and what it does when
    the call has returned. *)
Definition local_ec : M St addr :=
  w ← get_world;
  let r := fresh (dom (ecs w)) in
  modify_world (set_ecs <[r := no_error]>);; mret r.
Definition throw_if_failed (r : addr) : M St unit :=
  w ← get_world;
  ec ← of_option (ecs w !! r);
  modify_world (set_ecs (delete r));;
  if ec_failed ec then throw (system_error ec) else mret tt.
End wait.

(** ** Rules *)

Section rules.
Context {ASIO : Asio} {St : Type}.
Implicit Types (L : gmap addr (list addr)) (w : world) (m : St) (ms xs ys : list addr).

(** The service at [svc] is alive, nobody is inside its critical sections, and
    its members are [ms]; none of them is an operation. *)
Record service_ok w L (svc : addr) ms : Prop := {
  so_members : L !! svc = Some ms;
  so_mtx : ∃ c, services w !! svc = Some c ∧ idle c;
  so_plain : Forall (λ a, ops w !! a = None) ms
}.

(** A critical section of the service. *)
Lemma wp_with_service_lock svc body m w c (Φ : res unit → machine St → Prop) :
  services w !! svc = Some c → idle c →
  wp body (Machine m (set_services <[svc := inside c]> w))
    (λ r s2, r = Ok tt ∧ services (wld s2) = <[svc := inside c]> (services w) ∧
       Φ (Ok tt) (Machine (obj s2) (set_services (λ _, services w) (wld s2)))) →
  wp (with_service_lock svc body) (Machine m w) Φ.
Proof.
  intros Hc Hi Hb. apply wp_bind, wp_get_world, wp_bind. eapply wp_of_option; [exact Hc|].
  apply wp_bind. eapply wp_of_option; [by apply cem_lock_idle|].
  apply wp_bind, wp_modify_world, wp_bind. eapply wp_mono; [exact Hb|].
  intros r s2 (-> & Hs & HΦ). apply wp_bind, wp_get_world, wp_bind.
  eapply wp_of_option; [by rewrite Hs, lookup_insert_eq|]. apply wp_bind.
  eapply wp_of_option; [by apply cem_unlock_inside|]. apply wp_modify_world.
  destruct s2 as [m2 w2]. simpl in *. unfold set_services in *. rewrite Hs.
  by rewrite insert_insert_eq, insert_id.
Qed.

Lemma wp_register_queue svc sm m w L ms (Φ : res unit → machine St → Prop) :
  world_ok w L → service_ok w L svc ms → is_Some (nodes w !! sm) → ¬ listed L sm → ops w !! sm = None →
  (∀ N', let w' := with_nodes N' w in let L' := <[svc := ms ++ [sm]]> L in
     world_ok w' L' → service_ok w' L' svc (ms ++ [sm]) → dom N' = dom (nodes w) →
     Φ (Ok tt) (Machine m w')) →
  wp (register_queue svc sm) (Machine m w) Φ.
Proof.
  intros Hok [Hms (c & Hc & Hi) Hpl] Hn Hun Hop HΦ.
  eapply wp_with_service_lock; [done..|].
  eapply wp_link_before; [apply Hok|done|done|done|]. intros N' HL' Hdom. split_and!; [done..|].
  unfold set_services, with_nodes. simpl. apply (HΦ N'); [|split|done].
  - apply (world_ok_relist w L); [done..| | |].
    + intros a Ha. apply elem_of_dom. rewrite Hdom. apply elem_of_dom. by apply Hok.
    + intros r Hr. eapply is_Some_insert_root in Hr; [|done]. by apply Hok.
    + intros a Ha. rewrite listed_snoc by done. split; [|tauto]. intros [->|?]; [|done].
      rewrite Hop in Ha. by destruct Ha.
  - by rewrite lookup_insert_eq.
  - by exists c.
  - apply Forall_app; split; [done|by apply Forall_singleton].
Qed.

Lemma wp_unregister_queue svc sm m w L xs ys (Φ : res unit → machine St → Prop) :
  world_ok w L → service_ok w L svc (xs ++ sm :: ys) →
  (∀ N', let w' := with_nodes N' w in let L' := <[svc := xs ++ ys]> L in
     world_ok w' L' → service_ok w' L' svc (xs ++ ys) → dom N' = dom (nodes w) →
     Φ (Ok tt) (Machine m w')) →
  wp (unregister_queue svc sm) (Machine m w) Φ.
Proof.
  intros Hok [Hms (c & Hc & Hi) [Hop Hpl]%Forall_elem_of_mid] HΦ.
  eapply wp_with_service_lock; [done..|].
  eapply wp_unlink; [apply Hok|done|]. intros N' HL' Hdom _ _. split_and!; [done..|].
  unfold set_services, with_nodes. simpl. apply (HΦ N'); [|split|done].
  - apply (world_ok_relist w L); [done..| | |].
    + intros a Ha. apply elem_of_dom. rewrite Hdom. apply elem_of_dom. by apply Hok.
    + intros r Hr. eapply is_Some_insert_root in Hr; [|done]. by apply Hok.
    + intros a Ha. split; [by eapply listed_remove|]. intros Hl. eapply listed_kept; [done..|].
      intros ->. rewrite Hop in Ha. by destruct Ha.
  - by rewrite lookup_insert_eq.
  - by exists c.
  - done.
Qed.

(** A new member is registered last. *)
Lemma wp_service_member_ctor this svc config hint m w L ms (Φ : res service_member → machine St → Prop) :
  world_ok w L → service_ok w L svc ms → nodes w !! this = None →
  (∀ N', let w' := with_nodes N' w in let L' := <[svc := ms ++ [this]]> L in
     world_ok w' L' → service_ok w' L' svc (ms ++ [this]) → dom N' = {[this]} ∪ dom (nodes w) →
     Φ (Ok (ServiceMember this (Some svc) (cem_ctor (negb (is_single_threaded config hint))))) (Machine m w')) →
  wp (service_member_ctor this svc config hint) (Machine m w) Φ.
Proof.
  intros Hok Hs Hp HΦ. pose proof (fresh_unlisted _ _ _ Hok Hp) as Hun.
  apply wp_bind, wp_modify_world, wp_bind. simpl.
  set (w1 := set_nodes <[this := BilistNode this this]> w).
  eapply (wp_register_queue svc this m w1 L ms).
  - apply (world_ok_nodes w L); [done|apply heap_rep_insert; [apply Hok|done]|].
    intros a Ha. apply lookup_insert_is_Some'. right. by apply Hok.
  - destruct Hs. by split.
  - simpl. rewrite lookup_insert_eq. by eexists.
  - done.
  - exact (fresh_op _ _ _ Hok Hp).
  - intros N' w' L' H1 H2 Hdom. apply wp_ret. apply (HΦ N'); [done..|].
    rewrite Hdom. simpl. by rewrite dom_insert_L.
Qed.

(** The same for an object that is moved into place. *)
Lemma wp_service_member_move_ctor this sm svc m w L ms (Φ : res service_member → machine St → Prop) :
  world_ok w L → service sm = Some svc → service_ok w L svc ms → nodes w !! this = None →
  (∀ N', let w' := with_nodes N' w in let L' := <[svc := ms ++ [this]]> L in
     world_ok w' L' → service_ok w' L' svc (ms ++ [this]) → dom N' = {[this]} ∪ dom (nodes w) →
     Φ (Ok (ServiceMember this (Some svc) (cem_ctor (enabled_ (mtx_ sm))))) (Machine m w')) →
  wp (service_member_move_ctor this sm) (Machine m w) Φ.
Proof.
  intros Hok Hsm Hs Hp HΦ.
  assert (wp (service_member_ctor this svc (λ _, 0%Z) 0 : M St service_member) (Machine m w) (λ r s',
    ∃ N', s' = Machine m (with_nodes N' w) ∧ world_ok (with_nodes N' w) (<[svc := ms ++ [this]]> L) ∧
      service_ok (with_nodes N' w) (<[svc := ms ++ [this]]> L) svc (ms ++ [this]) ∧
      dom N' = {[this]} ∪ dom (nodes w) ∧ is_Some (match r with Ok a => Some a | Exn _ => None end))) as H.
  { eapply wp_service_member_ctor; [done..|]. intros N' w' L' H1 H2 H3. exists N'. split_and!; [done..|by eexists]. }
  unfold service_member_move_ctor. rewrite Hsm. revert H. unfold wp, service_member_ctor, mbind, M_bind. simpl.
  destruct (register_queue svc this _) as [[[[]|e] s1]|]; intros (N' & E & H1 & H2 & H3 & [? E2]) || intros [].
  - simpl in E. subst s1. by apply (HΦ N').
  - simplify_eq.
Qed.
End rules.

Section dtor_rule.
Context {ASIO : Asio} `{!Member St}.
Implicit Types (L : gmap addr (list addr)) (w : world) (m : St) (ms xs ys : list addr).

(** [~service_member()] unregisters the object and frees it. *)
Lemma wp_service_member_dtor_freed m w L svc xs ys (Φ : res unit → machine St → Prop) :
  world_ok w L → idle (get_mtx m) → service (get_sm m) = Some svc →
  service_ok w L svc (xs ++ this_ (get_sm m) :: ys) →
  (∀ N', let w' := with_nodes N' w in let L' := <[svc := xs ++ ys]> L in
     world_ok w' L' → service_ok w' L' svc (xs ++ ys) → N' !! this_ (get_sm m) = None →
     Φ (Ok tt) (Machine m w')) →
  wp service_member_dtor (Machine m w) Φ.
Proof.
  intros Hok Hi Hsvc Hs HΦ. apply wp_bind. eapply wp_with_lock; [done..|].
  apply wp_bind, wp_get_obj. cbn [obj]. unfold set_mtx at 1 2. rewrite get_set_sm. cbn [service this_]. rewrite Hsvc.
  eapply wp_unregister_queue; [done..|]. intros N1 w1 L1 H1 H2 Hdom. cbn [obj wld].
  rewrite get_set_mtx, set_set_mtx, set_get_mtx. split; [done|].
  apply wp_bind, wp_get_obj. cbn [obj].
  assert (is_Some (N1 !! this_ (get_sm m))) as Hn.
  { apply elem_of_dom. rewrite Hdom. apply elem_of_dom. eapply heap_rep_listed; [apply Hok|].
    eapply listed_member; [apply Hs|]. set_solver. }
  apply wp_free_node; [done|]. cbn [obj wld]. apply (HΦ (delete (this_ (get_sm m)) N1)); simpl.
  - apply (world_ok_nodes w1 L1); [done|apply heap_rep_free; [apply H1|]|].
    + eapply unlisted_removed; [apply Hok|apply Hs].
    + intros a Ha. rewrite lookup_delete_ne; [by apply H1|]. intros <-.
      destruct Hs as [_ _ [Hop _]%Forall_elem_of_mid]. simpl in Ha. rewrite Hop in Ha. by destruct Ha.
  - destruct H2. by split.
  - apply lookup_delete_eq.
Qed.

Lemma wp_service_member_dtor m w L svc xs ys (Φ : res unit → machine St → Prop) :
  world_ok w L → idle (get_mtx m) → service (get_sm m) = Some svc →
  service_ok w L svc (xs ++ this_ (get_sm m) :: ys) →
  (∀ N', let w' := with_nodes N' w in let L' := <[svc := xs ++ ys]> L in
     world_ok w' L' → service_ok w' L' svc (xs ++ ys) → Φ (Ok tt) (Machine m w')) →
  wp service_member_dtor (Machine m w) Φ.
Proof.
  intros Hok Hi Hsvc Hs HΦ. eapply wp_service_member_dtor_freed; [done..|].
  intros N' w' L' H1 H2 _. by apply (HΦ N').
Qed.
End dtor_rule.

(** ** A context to start from *)

Section start.
Context {ASIO : Asio}.

Lemma world_ok_empty : world_ok empty_world ∅.
Proof.
  split; simpl.
  - split; intros; by rewrite lookup_empty in *.
  - intros p. rewrite lookup_empty. by intros [].
  - done.
  - intros p o. by rewrite lookup_empty.
  - intros n c. by rewrite lookup_empty.
Qed.

(** [op_list_service(ctx)]: a service without members. *)
Lemma wp_op_list_service_ctor {St} entries config (m : St) w L (Φ : res unit → machine St → Prop) :
  world_ok w L → nodes w !! entries = None →
  (∀ N', let c := cem_ctor (negb (is_single_threaded config CONCURRENCY_HINT_DEFAULT)) in
     let w' := set_services <[entries := c]> (with_nodes N' w) in
     let L' := <[entries := []]> L in
     world_ok w' L' → service_ok w' L' entries [] → dom N' = {[entries]} ∪ dom (nodes w) →
     Φ (Ok tt) (Machine m w')) →
  wp (op_list_service_ctor entries config) (Machine m w) Φ.
Proof.
  intros Hok Hp HΦ. apply wp_bind. eapply wp_root_ctor; [done..|]. intros N' Hok' Hdom.
  apply wp_modify_world. apply (HΦ N'); simpl.
  - destruct Hok'. by split.
  - split; [by rewrite lookup_insert_eq| |done]. eexists. split; [apply lookup_insert_eq|done].
  - done.
Qed.
End start.

(** The examples of the development run in a context whose service has its list
    at address 1, and whose client has one [error_code], at address 1. *)
Definition demo_config (b : bool) : Z → Z := λ _, if b then (-1)%Z else 1%Z.
Definition demo_lists : gmap addr (list addr) := {[1%positive := []]}.
Definition demo_world (threads : bool) : world :=
  match op_list_service_ctor 1 (demo_config threads) (Machine tt empty_world) with
  | Some (_, s) => set_ecs <[1%positive := no_error]> (wld s)
  | None => empty_world
  end.

Lemma demo_world_ok b : world_ok (demo_world b) demo_lists ∧ service_ok (demo_world b) demo_lists 1 [].
Proof.
  assert (wp (op_list_service_ctor 1 (demo_config b)) (Machine tt empty_world) (λ r s,
    world_ok (wld s) demo_lists ∧ service_ok (wld s) demo_lists 1 [])) as H.
  { eapply wp_op_list_service_ctor; [apply world_ok_empty|done|]. intros N' c w' L' H1 H2 _. done. }
  unfold demo_world. unfold wp in H. destruct (op_list_service_ctor _ _ _) as [[r s]|]; [|done].
  destruct H as [[? ? ? Hp ?] []]. split; [|by split]. split; try done.
  intros p o Ho Hl. pose proof (Hp p o Ho Hl) as H. destruct o; [done..|]. destruct H as [-> H].
  split; [done|]. apply lookup_insert_is_Some'. by right.
Qed.
