(* ===== verification/Impl.v ===== *)
(** * What the implementation objects share

    [mutex_impl], [shared_mutex_impl], [semaphore_impl], [barrier_impl] and
    [condition_variable_impl] are service members that keep operations in
    lists of waiters and touch them inside critical sections of their own
    mutex. [impl_ok L m w ps] is the invariant they share, for an object [m]
    whose lists hold the operations [ps]; the rules below prove its
    preservation once for the steps the five classes have in common: a critical
    section, handing an operation out, appending one, a cancellation handler,
    the shutdown of a list and the wake-up of a sleeping thread. *)
From S2P Require Import Prelude Machine Bilist Ops Service.

Section impl.
Context {ASIO : Asio} `{!Member St}.
Implicit Types (w : world) (p : addr) (o : op) (L : gmap addr (list addr)) (m : St).
Implicit Types (q : list (addr * op)) (ps : list addr).

Record impl_ok L m w ps : Prop := {
  io_world : world_ok w L;
  io_idle : idle (get_mtx m);
  io_closures : closures w (this_ (get_sm m)) ps
}.

(** The object inside its critical section. *)
Definition entered m : St := set_mtx (inside (get_mtx m)) m.

Lemma get_mtx_entered m : get_mtx (entered m) = inside (get_mtx m).
Proof. unfold entered. by rewrite get_set_mtx. Qed.
Lemma leave_entered m : set_mtx (get_mtx m) (entered m) = m.
Proof. unfold entered. by rewrite set_set_mtx, set_get_mtx. Qed.
Lemma this_entered m : this_ (get_sm (entered m)) = this_ (get_sm m).
Proof. unfold entered, set_mtx. by rewrite get_set_sm. Qed.

(** A critical section whose body updates the object by [f]: [f] does not look
    at the mutex. *)
Lemma wp_critical {A} (body : M St A) m w (Φ : res A → machine St → Prop) :
  idle (get_mtx m) →
  wp body (Machine (entered m) w)
    (λ r s2, get_mtx (obj s2) = inside (get_mtx m) ∧ Φ r (Machine (set_mtx (get_mtx m) (obj s2)) (wld s2))) →
  wp (with_lock body) (Machine m w) Φ.
Proof. intros Hi Hb. by eapply wp_with_lock. Qed.

(** Two objects that share their address and their mutex. *)
Definition same_member m m' : Prop := get_sm m' = get_sm m.

#[global] Instance same_member_equiv : Equivalence same_member.
Proof. unfold same_member. split; intros ?; congruence. Qed.

Lemma same_member_mtx m m' : same_member m m' → get_mtx m' = get_mtx m.
Proof. unfold same_member, get_mtx. by intros ->. Qed.

(** A call may change the lists at [rs] only. *)
Definition same_lists (rs : list addr) L L' : Prop := ∀ r, r ∉ rs → L' !! r = L !! r.

Lemma same_lists_refl rs L : same_lists rs L L.
Proof. done. Qed.
Lemma same_lists_insert r rs L xs : same_lists (r :: rs) L (<[r := xs]> L).
Proof. intros r' Hr. apply not_elem_of_cons in Hr as [??]. by rewrite lookup_insert_ne. Qed.
Lemma same_lists_insert2 r0 r rs L xs : same_lists (r0 :: r :: rs) L (<[r := xs]> L).
Proof. intros r' Hr. apply not_elem_of_cons in Hr as [? [??]%not_elem_of_cons]. by rewrite lookup_insert_ne. Qed.
Lemma same_lists_trans rs L1 L2 L3 : same_lists rs L1 L2 → same_lists rs L2 L3 → same_lists rs L1 L3.
Proof. intros H1 H2 r Hr. by rewrite H2, H1. Qed.

(** What a call on the object [m] of the lists [root m] keeps: its address,
    its service and mutex, where its lists are, and every other list. *)
Record local (root : St → list addr) L m L' m' : Prop := {
  lo_member : same_member m m';
  lo_roots : root m' = root m;
  lo_lists : same_lists (root m) L L'
}.

Lemma impl_ok_member L m m' w ps : same_member m m' → impl_ok L m w ps → impl_ok L m' w ps.
Proof.
  intros E []. split; [done|by rewrite (same_member_mtx _ _ E)|]. by rewrite E.
Qed.
#[global] Instance impl_ok_proper L : Proper (same_member ==> eq ==> eq ==> iff) (impl_ok L).
Proof. intros m m' E w ? <- ps ? <-. split; apply impl_ok_member; [done|by symmetry]. Qed.

(** Handing out the operation [p]. *)
Lemma impl_ok_removed L m w ps ps' r xs p ys upd N' :
  impl_ok L m w ps → L !! r = Some (xs ++ p :: ys) → slots_within upd w →
  world_ok (with_nodes N' upd) (<[r := xs ++ ys]> L) →
  (∀ a, a ∈ ps → a ≠ p → a ∈ ps') →
  impl_ok (<[r := xs ++ ys]> L) m (with_nodes N' upd) ps'.
Proof.
  intros [Hok Hi Hc] Hr Hsub Hok' Hps. split; [done..|].
  eapply closures_shrink; [done|exact Hsub|done|]. intros a Ha Hl. apply Hps; [done|].
  intros ->. by eapply unlisted_removed in Hl; [|apply Hok|].
Qed.

(** Calls that leave no trace in memory. *)
Lemma impl_ok_log L m w ps e : impl_ok L m w ps → impl_ok L m (log e w) ps.
Proof. intros [[] ? ?]. by split; [split|..]. Qed.

(** Assigning an [error_code]. *)
Lemma impl_ok_ecs L m w ps r ec : impl_ok L m w ps → impl_ok L m (set_ecs <[r := ec]> w) ps.
Proof.
  intros [[? ? ? Hp ?] ? ?]. split; [split; try done|done..].
  intros p o Ho Hl. pose proof (Hp p o Ho Hl) as H. destruct o; [done..|]. destruct H as [-> H].
  split; [done|]. apply lookup_insert_is_Some'. by right.
Qed.

(** Every closure is about a member of the lists. *)
Lemma closure_member L m w ps n c :
  impl_ok L m w ps → slots w !! n = Some c → ch_impl c = this_ (get_sm m) → ch_model c ∈ ps.
Proof. intros [_ _ Hc] Hn Hi. by eapply Hc. Qed.

Lemma queue_split w L r q p :
  queue w L r q → p ∈ q.*1 → ∃ q1 o q2, q = q1 ++ (p, o) :: q2 ∧ ops w !! p = Some o.
Proof.
  intros Hq ([p' o] & -> & (q1 & q2 & ->)%list_elem_of_split)%list_elem_of_fmap.
  exists q1, o, q2. split; [done|]. eapply queue_member; [done|]. set_solver.
Qed.

(** Completing the operation [p] in the middle of the list at [r], on behalf
    of the object [m] (which is [m'] while it is inside a critical section). *)
Lemma wp_complete_queued m m' r q1 p o q2 ec w L ps ps' (Φ : res unit → machine St → Prop) :
  impl_ok L m w ps → queue w L r (q1 ++ (p, o) :: q2) →
  (∀ a, a ∈ ps → a ≠ p → a ∈ ps') →
  (∀ N', let w' := with_nodes N' (finish ec w (p, o)) in
     let L' := <[r := (q1 ++ q2).*1]> L in
     impl_ok L' m w' ps' → queue w' L' r (q1 ++ q2) →
     (∀ r2 q', r2 ≠ r → queue w L r2 q' → queue w' L' r2 q') →
     Φ (Ok tt) (Machine m' w')) →
  wp (op_complete p ec) (Machine m' w) Φ.
Proof.
  intros Hok Hq Hps HΦ. pose proof (io_world _ _ _ _ Hok) as Hw.
  assert (ops w !! p = Some o) as Hp by (eapply queue_member; [done|set_solver]).
  pose proof (proj1 Hq) as Hr. rewrite fmap_app in Hr. simpl in Hr.
  assert (removes w (finish ec w (p, o)) (p, o)) as Hrm.
  { apply removes_finish. eapply (wo_pending _ _ Hw p); [done|].
    eapply listed_member; [done|set_solver]. }
  eapply wp_op_complete; [done..|]. intros N' Hw' _. rewrite <- fmap_app in Hw'. apply HΦ.
  - rewrite fmap_app in *. eapply impl_ok_removed; [done..|apply slots_within_finish|done|done].
  - by eapply queue_removed.
  - intros r2 q' Hne Hq'. rewrite fmap_app. by eapply queue_remove.
Qed.

(** ** Appending *)

Lemma impl_ok_enqueued L m w ps ps' r xs p o N' :
  impl_ok L m w ps →
  world_ok (with_nodes N' (enqueued (this_ (get_sm m)) (p, o) w)) (<[r := xs ++ [p]]> L) →
  (∀ a, a = p ∨ a ∈ ps → a ∈ ps') →
  impl_ok (<[r := xs ++ [p]]> L) m (with_nodes N' (enqueued (this_ (get_sm m)) (p, o) w)) ps'.
Proof.
  intros [Hok Hi Hc] Hok' Hps. split; [done..|]. eapply (closures_enqueued w); [exact Hc|done].
Qed.

(** ** Cancellation *)

(** The body the cancellation handlers share once they have passed their
    tests: inside a critical section of this object the captured operation is
    completed with [operation_aborted]. *)
Lemma wp_lock_captured r q1 o q2 c m w L ps ps' (Φ : res unit → machine St → Prop) :
  impl_ok L m w ps → ch_impl c = this_ (get_sm m) →
  queue w L r (q1 ++ (ch_model c, o) :: q2) →
  (∀ a, a ∈ ps → a ≠ ch_model c → a ∈ ps') →
  (∀ N', let w' := with_nodes N' (finish operation_aborted w (ch_model c, o)) in
     let L' := <[r := (q1 ++ q2).*1]> L in
     impl_ok L' m w' ps' → queue w' L' r (q1 ++ q2) →
     (∀ r2 q', r2 ≠ r → queue w L r2 q' → queue w' L' r2 q') →
     Φ (Ok tt) (Machine m w')) →
  wp (lock_captured (ch_impl c) (op_complete (ch_model c) operation_aborted)) (Machine m w) Φ.
Proof.
  intros Hok Hi Hq Hps HΦ. apply wp_bind, wp_get_obj. simpl. rewrite bool_decide_eq_true_2 by done.
  apply wp_critical; [apply Hok|].
  eapply (wp_complete_queued m); [done..|]. intros N' w' L' H1 H2 H3. simpl.
  rewrite get_mtx_entered, leave_entered. split; [done|]. by apply HΦ.
Qed.

(** ** Stack operations *)

(** The thread need not wait: its operation is unlinked and gone, and memory
    is what it was. *)
Lemma wp_discard {A} m w L r xs p ec N1 (k : M St A) (Φ : res A → machine St → Prop) impl :
  world_ok w L → L !! r = Some xs → nodes w !! p = None →
  world_ok (with_nodes N1 (enqueued impl (p, sync_op ec false) w)) (<[r := xs ++ [p]]> L) →
  (∀ N', world_ok (with_nodes N' w) L → wp k (Machine m (with_nodes N' w)) Φ) →
  wp (unlink p;; sync_op_dtor p;; k) (Machine m (with_nodes N1 (enqueued impl (p, sync_op ec false) w))) Φ.
Proof.
  intros Hok Hr Hp Hok1 HΦ. pose proof (fresh_op _ _ _ Hok Hp) as Hop.
  pose proof (fresh_unlisted _ _ _ Hok Hp) as Hun.
  eapply wp_bind, (wp_unlink p _ r xs []); [apply Hok1|by rewrite lookup_insert_eq|].
  rewrite insert_insert_eq, app_nil_r, insert_id by done. intros N2 HL2 Hdom2 _ _.
  assert (is_Some (N2 !! p)) as Hp2.
  { apply elem_of_dom. rewrite Hdom2. apply elem_of_dom. apply (wo_ops _ _ Hok1).
    simpl. rewrite lookup_insert_eq. by eexists. }
  apply wp_bind, wp_bind, wp_modify_world. simpl. apply wp_free_node; [done|]. simpl.
  unfold with_nodes, set_ops. simpl. rewrite delete_insert_id by done.
  apply (HΦ (delete p N2)). apply world_ok_nodes; [done|by apply heap_rep_free|].
  intros a Ha. rewrite lookup_delete_ne by (intros ->; rewrite Hop in Ha; by destruct Ha).
  apply elem_of_dom. rewrite Hdom2. apply elem_of_dom. apply (wo_ops _ _ Hok1). simpl.
  by rewrite lookup_insert_ne by (intros ->; rewrite Hop in Ha; by destruct Ha).
Qed.

(** An operation that is done is in no list. *)
Lemma done_unlisted w L p ec : world_ok w L → ops w !! p = Some (sync_op ec true) → ¬ listed L p.
Proof. intros Hok Hp Hl. by destruct (wo_pending _ _ Hok _ _ Hp Hl). Qed.

Lemma queue_without w L r q p :
  queue w L r q → p ∉ q.*1 → ∀ N', queue (with_nodes N' (set_ops (delete p) w)) L r q.
Proof.
  intros [Hr Hq] Hp N'. split; [done|]. rewrite Forall_forall in *. intros [p' o] Hin. simpl.
  rewrite lookup_delete_ne; [by apply (Hq (p', o))|]. intros ->. apply Hp.
  apply list_elem_of_fmap. by exists (p', o).
Qed.

(** The sleeping thread looks at its operation: it sleeps on while the
    operation is pending, and returns once it is done. *)
Lemma wp_sync_wait m w L ps p ec d (Φ : res bool → machine St → Prop) :
  impl_ok L m w ps → ops w !! p = Some (sync_op ec d) →
  (if d then
     ∀ N', let w' := with_nodes N' (set_ops (delete p) w) in
       impl_ok L m w' ps → (∀ r q, queue w L r q → queue w' L r q) → Φ (Ok true) (Machine m w')
   else Φ (Ok false) (Machine m w)) →
  wp (sync_wait p) (Machine m w) Φ.
Proof.
  intros Hok Hp HΦ. apply wp_critical; [apply Hok|]. apply wp_bind. eapply wp_get_op; [done|].
  destruct d.
  - pose proof (done_unlisted _ _ _ _ (io_world _ _ _ _ Hok) Hp) as Hun.
    apply wp_bind. eapply wp_sync_op_dtor; [apply Hok|by rewrite Hp|done|]. intros N' Hok'.
    apply wp_ret. simpl. rewrite get_mtx_entered, leave_entered. split; [done|]. apply HΦ.
    + destruct Hok as [? ? Hc]. by split.
    + intros r q Hq. apply queue_without; [done|]. intros Hin. apply Hun.
      eapply listed_member; [apply Hq|done].
  - apply wp_ret. simpl. rewrite get_mtx_entered, leave_entered. done.
Qed.

(** ** Shutdown *)

(** Several lists of one object. *)
Lemma lines_lookup w L rs qs r : Forall2 (queue w L) rs qs → r ∈ rs → ∃ q, q ∈ qs ∧ queue w L r q.
Proof.
  induction 1 as [|r0 q0 rs qs Hq _ IH]; intros Hr; [by apply not_elem_of_nil in Hr|].
  apply elem_of_cons in Hr as [->|Hr]; [exists q0; split; [by left|done]|].
  destruct (IH Hr) as (q & ? & ?). exists q. split; [by right|done].
Qed.
Lemma lines_queue w L rs qs q : Forall2 (queue w L) rs qs → q ∈ qs → ∃ r, r ∈ rs ∧ queue w L r q.
Proof.
  induction 1 as [|r0 q0 rs qs Hq _ IH]; intros Hr; [by apply not_elem_of_nil in Hr|].
  apply elem_of_cons in Hr as [->|Hr]; [exists r0; split; [by left|done]|].
  destruct (IH Hr) as (r & ? & ?). exists r. split; [by right|done].
Qed.

(** A queue and the operations of other queues have nothing in common. *)
Lemma lines_disjoint w L rs qs r q p :
  world_ok w L → Forall2 (queue w L) rs qs → queue w L r q → r ∉ rs → p ∈ q.*1 → p ∉ (concat qs).*1.
Proof.
  intros Hok Hqs [Hr _] Hne Hp Hin.
  apply list_elem_of_fmap in Hin as (po & -> & (q' & Hq' & Hin)%list_elem_of_In%in_concat).
  apply list_elem_of_In in Hq', Hin. destruct (lines_queue _ _ _ _ _ Hqs Hq') as (r' & Hr' & Hq2 & _).
  apply Hne. rewrite (hr_disjoint _ _ (wo_heap _ _ Hok) r r' _ _ po.1 Hr Hq2); [done|by right|right].
  apply list_elem_of_fmap. by exists po.
Qed.

(** [w.shutdown()] and the destructor of the local [w]. *)
Lemma wp_holder_finish m w L r q (Φ : res unit → machine St → Prop) :
  world_ok w L → queue w L r q →
  (∀ N', world_ok (with_nodes N' (abort_all q w)) (delete r L) → framed L (nodes w) N' →
     Φ (Ok tt) (Machine m (with_nodes N' (abort_all q w)))) →
  wp (holder_shutdown r;; holder_dtor r) (Machine m w) Φ.
Proof.
  intros Hok Hq HΦ. eapply wp_bind, wp_holder_shutdown; [done..|]. intros N1 Hok1 Hfr1.
  eapply wp_holder_dtor_nil; [done|by rewrite lookup_insert_eq|].
  simpl. rewrite delete_insert_eq. intros Hok2. apply HΦ; [done|].
  apply framed_delete; [done|]. intros _. by eapply listed_root, Hq.
Qed.

Lemma queue_abort_ne L r r2 q q2 w N' L' :
  r2 ≠ r → world_ok w L → queue w L r q → queue w L r2 q2 → L' !! r2 = L !! r2 →
  queue (with_nodes N' (abort_all q w)) L' r2 q2.
Proof.
  intros Hne Hok [Hr Hq] [Hr2 Hq2] HL'. split; [congruence|]. rewrite Forall_forall in *.
  intros [p o] Hin. simpl. rewrite ops_abort_all_ne; [by apply (Hq2 (p, o))|].
  intros Hp. apply Hne. eapply (hr_disjoint _ _ (wo_heap _ _ Hok) r2 r _ _ p); [done..|right|by right].
  apply list_elem_of_fmap. by exists (p, o).
Qed.

(** The members of a list that has been emptied are in no list. *)
Lemma emptied_unlisted w L r q a :
  world_ok w L → queue w L r q → a ∈ q.*1 → ¬ listed (<[r := []]> L) a.
Proof.
  intros Hw Hq Ha (r2 & xs2 & Hr2 & Ha2). apply lookup_insert_Some in Hr2 as [[<- <-]|[Hne Hr2]].
  - apply list_elem_of_singleton in Ha2 as ->.
    pose proof (heap_rep_NoDup _ _ _ _ (wo_heap _ _ Hw) (proj1 Hq)) as [? _]%NoDup_cons. done.
  - apply Hne. eapply (hr_disjoint _ _ (wo_heap _ _ Hw) _ r2 _ _ a); [apply Hq|done|by right|done].
Qed.

(** [shutdown()] of an object with the single list at [root m]. The object may
    be a member of a service whose list is broken: the nodes that are in no list
    are left alone. *)
Lemma wp_line_shutdown (root : St → addr) m w L q (Φ : res unit → machine St → Prop) :
  world_ok w L → idle (get_mtx m) → (∀ m c, root (set_mtx c m) = root m) → queue w L (root m) q →
  (∀ N', let w' := with_nodes N' (abort_all q w) in
     world_ok w' (<[root m := []]> L) → framed L (nodes w) N' → Φ (Ok tt) (Machine m w')) →
  wp (w ← with_lock (m ← get_obj; holder_move_ctor (root m)); holder_shutdown w;; holder_dtor w)
    (Machine m w) Φ.
Proof.
  intros Hw Hi Hroot Hq HΦ. apply wp_bind, wp_critical; [done|].
  apply wp_bind, wp_get_obj. simpl. unfold entered at 1. rewrite Hroot.
  eapply wp_holder_move_ctor; [done|apply Hq|]. intros r' N1 Hr' HLr' Hok1 Hfr1. simpl.
  rewrite get_mtx_entered, leave_entered. split; [done|].
  eapply (wp_holder_finish m _ _ r' q); [done|by apply queue_moved|]. intros N2 Hok2 Hfr2.
  rewrite abort_all_with_nodes in *.
  assert (delete r' (<[r' := q.*1]> (<[root m := []]> L)) = <[root m := []]> L) as E.
  { rewrite delete_insert_eq, delete_id; [done|]. rewrite lookup_insert_ne; [done|].
    intros E. destruct Hq. congruence. }
  rewrite E in Hok2. apply HΦ; [done|]. eapply framed_trans; [exact Hfr1|exact Hfr2|].
  intros a Ha [->|?]%listed_moved; [rewrite Hr' in Ha; by destruct Ha|done|apply Hq|done].
Qed.

Lemma wp_impl_shutdown (root : St → addr) m w L ps q (Φ : res unit → machine St → Prop) :
  impl_ok L m w ps → (∀ m c, root (set_mtx c m) = root m) → queue w L (root m) q →
  (∀ a, a ∈ ps → a ∈ q.*1) →
  (∀ N', let w' := with_nodes N' (abort_all q w) in
     impl_ok (<[root m := []]> L) m w' [] → queue w' (<[root m := []]> L) (root m) [] →
     Φ (Ok tt) (Machine m w')) →
  wp (w ← with_lock (m ← get_obj; holder_move_ctor (root m)); holder_shutdown w;; holder_dtor w)
    (Machine m w) Φ.
Proof.
  intros [Hw Hi Hc] Hroot Hq Hps HΦ. eapply wp_line_shutdown; [done..|]. intros N' w' Hok _.
  apply HΦ; [|split; [by rewrite lookup_insert_eq|done]].
  split; [done..|]. eapply closures_shrink; [done|apply slots_within_abort_all|done|].
  intros a Ha Hl. destruct (emptied_unlisted w L (root m) q a Hw Hq (Hps a Ha) Hl).
Qed.
End impl.
Global Arguments entered {_ _} _ : simpl never.
#[export] Hint Resolve same_lists_refl same_lists_insert same_lists_insert2 : core.

(** ** Construction and destruction *)

Section life.
Context {ASIO : Asio}.
Implicit Types (L : gmap addr (list addr)) (w : world) (q : list (addr * op)).

(** No closure refers to an object at [a]. *)
Definition unreferenced w (a : addr) : Prop := ∀ n c, slots w !! n = Some c → ch_impl c ≠ a.

Lemma closures_unreferenced w a : unreferenced w a → closures w a [].
Proof. intros Hu n c Hn Hi. by destruct (Hu n c Hn). Qed.

(** The list of waiters of an object that has just been registered. *)
Lemma wp_new_root {St} waiters this svc (m : St) w w1 L L1 N1 ms ms1 (Φ : res unit → machine St → Prop) :
  world_ok w L → service_ok w L svc ms → nodes w !! waiters = None → this ≠ waiters →
  w1 = with_nodes N1 w → dom N1 = {[this]} ∪ dom (nodes w) → world_ok w1 L1 → service_ok w1 L1 svc ms1 →
  (∀ N', let w' := with_nodes N' w in let L' := <[waiters := []]> L1 in
     world_ok w' L' → service_ok w' L' svc ms1 → Φ (Ok tt) (Machine m w')) →
  wp (bilist_node_ctor waiters) (Machine m w1) Φ.
Proof.
  intros Hok Hs Hwait Hne -> Hdom Hok1 [Hms1 Hc1 Hpl1] HΦ. eapply wp_root_ctor; [exact Hok1| |].
  { simpl. apply not_elem_of_dom. rewrite Hdom. apply not_elem_of_dom in Hwait. set_solver. }
  intros N2 Hok2 _. apply (HΦ N2); [done|]. split; [|done..].
  rewrite lookup_insert_ne; [done|]. intros ->. destruct Hs as [Hms0 _ _].
  destruct (heap_rep_listed _ _ svc (wo_heap _ _ Hok)) as [? ?]; [by eapply listed_root|congruence].
Qed.

(** The destructor of an object with the single list at [r]. *)
Lemma wp_impl_dtor_freed `{!Member St} r (m : St) L w q svc xs ys (Φ : res unit → machine St → Prop) :
  world_ok w L → idle (get_mtx m) → queue w L r q → service (get_sm m) = Some svc →
  service_ok w L svc (xs ++ this_ (get_sm m) :: ys) → svc ≠ r →
  (∀ N', let w' := with_nodes N' (finish_all operation_aborted q w) in
     let L' := <[svc := xs ++ ys]> (delete r L) in
     world_ok w' L' → service_ok w' L' svc (xs ++ ys) → N' !! this_ (get_sm m) = None →
     Φ (Ok tt) (Machine m w')) →
  wp (holder_dtor r;; service_member_dtor) (Machine m w) Φ.
Proof.
  intros Hok Hi Hq Hsvc Hs Hne HΦ. apply wp_bind. eapply wp_holder_dtor; [done..|]. intros N1 Hok1.
  eapply wp_service_member_dtor_freed; [exact Hok1|done..| |].
  - destruct Hs as [Hms Hc' Hpl]. split.
    + by rewrite lookup_delete_ne.
    + simpl. by rewrite services_finish_all.
    + rewrite Forall_forall in *. intros a Ha. simpl. rewrite ops_finish_all_ne; [by apply Hpl|].
      intros Hin. apply Hne. eapply (hr_disjoint _ _ (wo_heap _ _ Hok)); [apply Hms|apply Hq|right; exact Ha|by right].
  - intros N2 w2 L2 H1 H2 H3. by apply HΦ.
Qed.

Lemma wp_impl_dtor `{!Member St} r (m : St) L w q svc xs ys (Φ : res unit → machine St → Prop) :
  world_ok w L → idle (get_mtx m) → queue w L r q → service (get_sm m) = Some svc →
  service_ok w L svc (xs ++ this_ (get_sm m) :: ys) → svc ≠ r →
  (∀ N', let w' := with_nodes N' (finish_all operation_aborted q w) in
     let L' := <[svc := xs ++ ys]> (delete r L) in
     world_ok w' L' → service_ok w' L' svc (xs ++ ys) → Φ (Ok tt) (Machine m w')) →
  wp (holder_dtor r;; service_member_dtor) (Machine m w) Φ.
Proof.
  intros Hok Hi Hq Hsvc Hs Hne HΦ. eapply wp_impl_dtor_freed; [done..|].
  intros N' w' L' H1 H2 _. by apply (HΦ N').
Qed.
End life.

(** ** Observing calls *)

(** What a call answers. *)
Inductive reply :=
  | r_unit
  | r_bool (b : bool)
  | r_int (z : Z)
  | r_addr (p : addr)
  | r_sync (r : sync_result).

Section observe.
Context {ASIO : Asio}.
Implicit Types (w : world).

(** The calls made to asio and to the standard library between two worlds. *)
Definition events_since w w' : list event := drop (length (trace w)) (trace w').

Lemma events_since_app w w' es : trace w' = trace w ++ es → events_since w w' = es.
Proof. intros E. unfold events_since. by rewrite E, drop_app_length. Qed.

Lemma events_since_same w w' : trace w' = trace w → events_since w w' = [].
Proof. intros E. apply events_since_app. by rewrite app_nil_r. Qed.

(** Several calls of asio. *)
Definition logs (es : list event) w : world := foldl (λ w e, log e w) w es.
Lemma trace_logs es w : trace (logs es w) = trace w ++ es.
Proof.
  revert w. induction es as [|e es IH]; intros w; [by rewrite app_nil_r|].
  unfold logs in *. simpl. rewrite IH. simpl. by rewrite <- app_assoc.
Qed.

(** The events that tell somebody that what it waited for is granted. *)
Definition is_grant (e : event) : bool :=
  match e with
  | ev_post _ _ ec | ev_dispatch _ _ ec => negb (ec_failed ec)
  | ev_notify _ => true
  | _ => false
  end.
Definition granted (es : list event) : nat := length (filter is_grant es).

(** What is told about a handler: the calls of handlers that are handed to asio. *)
Definition told_one (e : event) : option (handler * error_code) :=
  match e with
  | ev_post _ h ec | ev_dispatch _ h ec => Some (h, ec)
  | _ => None
  end.
Definition told_of (es : list event) : list (handler * error_code) := omap told_one es.
Lemma told_of_app es1 es2 : told_of (es1 ++ es2) = told_of es1 ++ told_of es2.
Proof. apply omap_app. Qed.

Lemma granted_completion po : granted (completion no_error po) = 1.
Proof. by destruct po as [p []]. Qed.

Lemma trace_same w w' : same_but_nodes w w' → trace w = trace w'.
Proof. by intros [N ->]. Qed.
Lemma ecs_same w w' : same_but_nodes w w' → ecs w = ecs w'.
Proof. by intros [N ->]. Qed.
End observe.

Section locals.
Context {ASIO : Asio} `{!Member St}.

(** A client declares an [error_code] variable. *)
Lemma wp_local_ec (m : St) w L ps (Φ : res addr → machine St → Prop) :
  impl_ok L m w ps →
  (∀ r, ecs w !! r = None → let w' := set_ecs <[r := no_error]> w in
     impl_ok L m w' ps → (∀ r0 q, queue w L r0 q → queue w' L r0 q) → Φ (Ok r) (Machine m w')) →
  wp local_ec (Machine m w) Φ.
Proof.
  intros Hok HΦ. apply wp_bind, wp_get_world, wp_bind, wp_modify_world, wp_ret.
  apply HΦ; [apply not_elem_of_dom, is_fresh|by apply impl_ok_ecs|done].
Qed.
End locals.
