(* ===== verification/Mutex.v ===== *)
(** * The mutex

    [detail::mutex_impl], the initiating function of [basic_mutex::async_lock]
    and its cancellation handler ([detail/mutex_impl.hpp],
    [detail/impl/mutex_impl.ipp], [basic_mutex.hpp], [impl/basic_mutex.hpp]). *)
From S2P Require Import Prelude Machine Bilist Ops Service Impl.

(** ** The code *)

Record mutex_impl := MutexImpl {
  mi_sm : service_member;
  locked_ : bool;
  waiters_ : addr
}.

#[export] Program Instance mutex_member : Member mutex_impl := {|
  get_sm := mi_sm;
  set_sm sm m := MutexImpl sm (locked_ m) (waiters_ m)
|}.
Solve All Obligations with by intros; destruct_all mutex_impl.

Definition set_locked (b : bool) (m : mutex_impl) : mutex_impl :=
  MutexImpl (mi_sm m) b (waiters_ m).

Section code.
Context {ASIO : Asio}.

Definition mutex_impl_ctor {St} (this waiters svc : addr) (config : Z → Z) (hint : Z) : M St mutex_impl :=
  sm ← service_member_ctor this svc config hint;
  bilist_node_ctor waiters;;
  mret (MutexImpl sm false waiters).

Definition add_waiter (waiter : addr) : M mutex_impl unit :=
  m ← get_obj; link_before waiter (waiters_ m).

Definition try_lock : M mutex_impl bool := with_lock (
  m ← get_obj;
  if locked_ m then mret false
  else modify_obj (set_locked true);; mret true).

Definition lock (ec : addr) : M mutex_impl sync_result :=
  m ← get_obj;
  if negb (enabled_ (get_mtx m)) then
    b ← try_lock;
    if (b : bool) then mret Returned
    else assign_ec ec in_progress;; mret Returned
  else with_lock (
    op ← sync_op_ctor ec;
    add_waiter op;;
    m ← get_obj;
    if negb (locked_ m) then
      modify_obj (set_locked true);;
      unlink op;;
      sync_op_dtor op;;
      mret Returned
    else mret (Blocked op)).

Definition unlock : M mutex_impl unit := with_lock (
  m ← get_obj;
  b ← is_empty (waiters_ m);
  if (b : bool) then modify_obj (set_locked false)
  else
    nx ← read_next (waiters_ m);
    op_complete nx no_error).

Definition shutdown : M mutex_impl unit :=
  w ← with_lock (m ← get_obj; holder_move_ctor (waiters_ m));
  holder_shutdown w;;
  holder_dtor w.

(** [mutex_impl(mutex_impl &&mi)]: the new object and the new [mi]. *)
Definition mutex_impl_move_ctor {St} (this waiters : addr) (mi : mutex_impl) : M St (mutex_impl * mutex_impl) :=
  sm ← service_member_move_ctor this (mi_sm mi);
  bilist_move_ctor waiters (waiters_ mi);;
  mret (MutexImpl sm (locked_ mi) waiters, set_locked false mi).

(** [operator=(mutex_impl &&lhs)]: the new [*this] and the new [lhs]. *)
Definition mutex_impl_move_assign {St} (self lhs : mutex_impl) : M St (mutex_impl * mutex_impl) :=
  c ← of_option (cem_lock (get_mtx lhs));
  let lhs := set_mtx c lhs in
  let self := set_locked (locked_ lhs) self in
  let lhs := set_locked false lhs in
  bilist_move_assign (waiters_ lhs) (waiters_ self);;
  c ← of_option (cem_unlock (get_mtx lhs));
  mret (self, set_mtx c lhs).

(** [~mutex_impl()]: the members, then the base. *)
Definition mutex_impl_dtor : M mutex_impl unit :=
  m ← get_obj;
  holder_dtor (waiters_ m);;
  service_member_dtor.

(** [basic_mutex::async_lock_op::operator()]; [exec] is the mutex's
    [get_executor()], and [dispatch] what [net::dispatch] does with a handler
    ([Immediate] is about those that run at once). *)
Definition async_lock_with (dispatch : executor → handler → M mutex_impl unit) (exec : executor) (h : handler) :
    M mutex_impl unit :=
  let e := get_associated_executor h exec in
  with_lock (
    m ← get_obj;
    if negb (locked_ m) then
      modify_obj (set_locked true);;
      let ie := get_associated_immediate_executor h exec in
      dispatch ie h
    else
      model ← basic_op_model_construct e h;
      let slot := associated_slot h in
      (if is_connected slot then slot_assign slot (CancelHandler model (this_ (get_sm m))) else mret tt);;
      add_waiter model).
Definition async_lock : executor → handler → M mutex_impl unit := async_lock_with net_dispatch.

(** The closure that [async_lock] puts into the slot; [type] tells whether the
    cancellation type is not [none]. *)
Definition async_lock_cancel (c : cancel_handler) (type : bool) : M mutex_impl unit :=
  if type then lock_captured (ch_impl c) (op_complete (ch_model c) operation_aborted)
  else mret tt.

(** The signal of slot [n] is emitted. *)
Definition mutex_emit (n : positive) (type : bool) : M mutex_impl unit :=
  w ← get_world;
  match slots w !! n with
  | Some c => async_lock_cancel c type
  | None => mret tt
  end.

(** The throwing [basic_mutex::lock()], up to the point where it blocks, and
    from there on. *)
Definition lock_throwing : M mutex_impl sync_result :=
  ec ← local_ec;
  r ← lock ec;
  match r with
  | Returned => throw_if_failed ec;; mret Returned
  | Blocked op => mret (Blocked op)
  end.
Definition lock_throwing_resume (ec op : addr) : M mutex_impl bool :=
  b ← sync_wait op;
  if (b : bool) then throw_if_failed ec;; mret true else mret false.
End code.

(** ** Representation

    [mutex_rep L m w q]: the mutex [m] lives in the well-formed world [w], its
    list holds the operations [q], nobody is inside its critical sections, and
    an operation waits only while the mutex is locked. *)

Section rep.
Context {ASIO : Asio}.
Implicit Types (L : gmap addr (list addr)) (m : mutex_impl) (w : world) (q : list (addr * op)).

Record mutex_rep L m w q : Prop := {
  mr_impl : impl_ok L m w q.*1;
  mr_queue : queue w L (waiters_ m) q;
  mr_held : q ≠ [] → locked_ m = true
}.

Lemma mutex_rep_world L m w q : mutex_rep L m w q → world_ok w L.
Proof. by intros [[]]. Qed.
Lemma mutex_rep_idle L m w q : mutex_rep L m w q → idle (get_mtx m).
Proof. by intros [[]]. Qed.
Hint Resolve mutex_rep_world mutex_rep_idle : sam.

Lemma locked_entered m : locked_ (entered m) = locked_ m.
Proof. done. Qed.
Lemma waiters_entered m : waiters_ (entered m) = waiters_ m.
Proof. done. Qed.
Lemma leave_locked m b : set_mtx (get_mtx m) (set_locked b (entered m)) = set_locked b m.
Proof. by destruct m as [[? ? []] ? ?]. Qed.
Lemma mtx_locked m b : get_mtx (set_locked b m) = get_mtx m.
Proof. done. Qed.

Lemma mutex_rep_locked L m w b : mutex_rep L m w [] → mutex_rep L (set_locked b m) w [].
Proof. intros [Hi Hq _]. split; [by apply (impl_ok_member _ m)|done..]. Qed.

Lemma mutex_rep_log L m w q e : mutex_rep L m w q → mutex_rep L m (log e w) q.
Proof. intros []. split; try done. by apply impl_ok_log. Qed.
Lemma mutex_rep_ecs L m w q r ec : mutex_rep L m w q → mutex_rep L m (set_ecs <[r := ec]> w) q.
Proof. intros []. split; try done. by apply impl_ok_ecs. Qed.

Lemma set_locked_id m b : locked_ m = b → set_locked b m = m.
Proof. by destruct m; simpl; intros ->. Qed.

(** ** The operations *)

Lemma wp_try_lock L m w q (Φ : res bool → machine mutex_impl → Prop) :
  mutex_rep L m w q →
  (if locked_ m then Φ (Ok false) (Machine m w) else Φ (Ok true) (Machine (set_locked true m) w)) →
  wp try_lock (Machine m w) Φ.
Proof.
  intros Hr HΦ. apply wp_critical; [by eauto with sam|].
  apply wp_bind, wp_get_obj. cbn [obj]. rewrite locked_entered. destruct (locked_ m).
  - apply wp_ret. simpl. rewrite get_mtx_entered, leave_entered. done.
  - apply wp_bind, wp_modify_obj, wp_ret. cbn [obj wld].
    rewrite mtx_locked, get_mtx_entered, leave_locked. done.
Qed.

Lemma wp_unlock L m w q (Φ : res unit → machine mutex_impl → Prop) :
  mutex_rep L m w q →
  match q with
  | [] => Φ (Ok tt) (Machine (set_locked false m) w)
  | po :: q' => ∀ N', let w' := with_nodes N' (finish no_error w po) in
      mutex_rep (<[waiters_ m := q'.*1]> L) m w' q' → Φ (Ok tt) (Machine m w')
  end →
  wp unlock (Machine m w) Φ.
Proof.
  intros Hr HΦ. pose proof Hr as [Hi Hq Hh]. pose proof (io_world _ _ _ _ Hi) as Hw.
  apply wp_critical; [apply Hi|].
  apply wp_bind, wp_get_obj. cbn [obj]. rewrite waiters_entered.
  apply wp_bind. eapply wp_is_empty; [apply Hw|apply Hq|]. destruct q as [|[p o] q]; simpl.
  - apply wp_modify_obj. cbn [obj wld]. rewrite mtx_locked, get_mtx_entered, leave_locked. done.
  - apply wp_bind. eapply wp_holder_first; [apply Hw|apply Hq|].
    eapply (wp_complete_queued m _ _ [] p o q _ _ _ _ q.*1); [done..|set_solver|].
    intros N' w' L' H1 H2 _. cbn [obj wld]. rewrite get_mtx_entered, leave_entered.
    split; [done|]. apply HΦ. split; [done..|]. intros _. by apply Hh.
Qed.

(** What a waiter appended to the list of a locked mutex changes. *)
Lemma mutex_rep_enqueued L m w q p o N' :
  mutex_rep L m w q → locked_ m = true → nodes w !! p = None →
  let w' := with_nodes N' (enqueued (this_ (get_sm m)) (p, o) w) in
  world_ok w' (<[waiters_ m := q.*1 ++ [p]]> L) →
  mutex_rep (<[waiters_ m := q.*1 ++ [p]]> L) m w' (q ++ [(p, o)]).
Proof.
  intros [Hi Hq Hh] Hl Hp w' Hok'. split; [|by apply queue_enqueued; [apply Hi|..]|done].
  eapply impl_ok_enqueued; [done..|]. rewrite fmap_app. set_solver.
Qed.

(** [lock(ec)] of a context with threads. *)
Lemma wp_lock_mt L m w q ec (Φ : res sync_result → machine mutex_impl → Prop) :
  mutex_rep L m w q → is_Some (ecs w !! ec) → enabled_ (get_mtx m) = true →
  (if locked_ m then
     ∀ p N', nodes w !! p = None →
       let po := (p, sync_op ec false) in
       let w' := with_nodes N' (enqueued (this_ (get_sm m)) po w) in
       mutex_rep (<[waiters_ m := q.*1 ++ [p]]> L) m w' (q ++ [po]) →
       Φ (Ok (Blocked p)) (Machine m w')
   else ∀ N', mutex_rep L (set_locked true m) (with_nodes N' w) [] →
       Φ (Ok Returned) (Machine (set_locked true m) (with_nodes N' w))) →
  wp (lock ec) (Machine m w) Φ.
Proof.
  intros Hr He Hen HΦ. pose proof Hr as [Hi Hq Hh]. pose proof (io_world _ _ _ _ Hi) as Hw.
  apply wp_bind, wp_get_obj. cbn [obj]. rewrite Hen. simpl.
  apply wp_critical; [apply Hi|].
  apply wp_bind. apply wp_sync_op_ctor. intros p Hp.
  apply wp_bind, wp_bind, wp_get_obj. cbn [obj]. rewrite waiters_entered.
  eapply (wp_link_built (this_ (get_sm m)) p (sync_op ec false) _ w); [done|apply Hq|done|by split|done..|].
  intros N1 Hok1. apply wp_bind, wp_get_obj. cbn [obj]. rewrite locked_entered.
  destruct (locked_ m) eqn:Hl; simpl.
  - apply wp_ret. cbn [obj wld]. rewrite get_mtx_entered, leave_entered. split; [done|].
    apply (HΦ p N1); [done|]. by apply mutex_rep_enqueued.
  - assert (q = []) as -> by (destruct q; [done|]; by specialize (Hh ltac:(done))).
    apply wp_bind, wp_modify_obj.
    eapply wp_discard; [done|apply Hq|done..|]. intros N' HN'. apply wp_ret. cbn [obj wld].
    rewrite mtx_locked, get_mtx_entered, leave_locked. split; [done|].
    apply HΦ, mutex_rep_locked. destruct Hi. split; [by split|by destruct Hq|done].
Qed.

(** [lock(ec)] of a context without threads: [try_lock], or an error. *)
Lemma wp_lock_st L m w q ec (Φ : res sync_result → machine mutex_impl → Prop) :
  mutex_rep L m w q → is_Some (ecs w !! ec) → enabled_ (get_mtx m) = false →
  (if locked_ m then Φ (Ok Returned) (Machine m (set_ecs <[ec := in_progress]> w))
   else Φ (Ok Returned) (Machine (set_locked true m) w)) →
  wp (lock ec) (Machine m w) Φ.
Proof.
  intros Hr He Hen HΦ. apply wp_bind, wp_get_obj. cbn [obj]. rewrite Hen. simpl.
  apply wp_bind. eapply wp_try_lock; [done|]. destruct (locked_ m); [|by apply wp_ret].
  apply wp_bind, wp_assign_ec; [done|]. by apply wp_ret.
Qed.

(** [async_lock]: an unlocked mutex is locked and the handler dispatched; an
    allocation failure changes nothing; otherwise the operation waits. *)
Lemma wp_async_lock L m w q exec h (Φ : res unit → machine mutex_impl → Prop) :
  mutex_rep L m w q →
  (locked_ m = false →
     Φ (Ok tt) (Machine (set_locked true m) (log (ev_dispatch (get_associated_immediate_executor h exec) h no_error) w))) →
  (locked_ m = true → allocate h (dom (nodes w)) = None → Φ (Exn bad_alloc) (Machine m w)) →
  (locked_ m = true → ∀ p N', allocate h (dom (nodes w)) = Some p → nodes w !! p = None →
     let po := (p, basic_op_model (get_associated_executor h exec) h) in
     let w' := with_nodes N' (enqueued (this_ (get_sm m)) po w) in
     mutex_rep (<[waiters_ m := q.*1 ++ [p]]> L) m w' (q ++ [po]) →
     Φ (Ok tt) (Machine m w')) →
  wp (async_lock exec h) (Machine m w) Φ.
Proof.
  intros Hr Hnow Hfail Hwait. pose proof Hr as [Hi Hq Hh]. pose proof (io_world _ _ _ _ Hi) as Hw.
  apply wp_critical; [apply Hi|]. apply wp_bind, wp_get_obj. cbn [obj]. rewrite locked_entered.
  destruct (locked_ m) eqn:Hl; simpl.
  - apply wp_bind, wp_basic_op_model_construct.
    + intros Ha. simpl. rewrite get_mtx_entered, leave_entered. auto.
    + intros p Ha Hp. change (this_ (mi_sm (entered m))) with (this_ (get_sm m)).
      eapply (wp_arm_and_link (this_ (mi_sm m)) p (basic_op_model _ h)); [done|apply Hq|done..|].
      intros N' Hok'. cbn [obj wld]. rewrite get_mtx_entered, leave_entered. split; [done|].
      apply Hwait; [done..|]. by apply mutex_rep_enqueued.
  - apply wp_bind, wp_modify_obj, wp_modify_world. cbn [obj wld].
    rewrite mtx_locked, get_mtx_entered, leave_locked. auto.
Qed.

(** A signal that is emitted completes the operation its slot was armed for
    with [operation_aborted], wherever it stands in the line. *)
Lemma wp_mutex_emit L m w q n type (Φ : res unit → machine mutex_impl → Prop) :
  mutex_rep L m w q → (∀ c, slots w !! n = Some c → ch_impl c = this_ (get_sm m)) →
  (type = false ∨ slots w !! n = None → Φ (Ok tt) (Machine m w)) →
  (type = true → ∀ q1 p o q2 N', q = q1 ++ (p, o) :: q2 → slots w !! n = Some (CancelHandler p (this_ (get_sm m))) →
     let w' := with_nodes N' (finish operation_aborted w (p, o)) in
     mutex_rep (<[waiters_ m := (q1 ++ q2).*1]> L) m w' (q1 ++ q2) →
     Φ (Ok tt) (Machine m w')) →
  wp (mutex_emit n type) (Machine m w) Φ.
Proof.
  intros Hr Hmine Hnone Hsome. pose proof Hr as [Hi Hq Hh].
  apply wp_bind, wp_get_world. simpl. destruct (slots w !! n) as [[p i]|] eqn:Hn; [|apply wp_ret; auto].
  unfold async_lock_cancel. destruct type; [|apply wp_ret; auto].
  specialize (Hmine _ eq_refl). simpl in Hmine. subst i.
  destruct (queue_split _ _ _ _ _ Hq (closure_member _ _ _ _ _ _ Hi Hn eq_refl)) as (q1 & o & q2 & -> & Hp).
  eapply (wp_lock_captured _ q1 o q2 _ _ _ _ _ (q1 ++ q2).*1); [done|done|done| |].
  - rewrite !fmap_app. set_solver.
  - intros N' w' L' H1 H2 _. eapply Hsome; [done..|]. split; [done..|]. intros _. apply Hh. by destruct q1.
Qed.

(** A sleeping thread that is woken. *)
Lemma wp_mutex_resume L m w q p ec d (Φ : res bool → machine mutex_impl → Prop) :
  mutex_rep L m w q → ops w !! p = Some (sync_op ec d) →
  (if d then ∀ N', let w' := with_nodes N' (set_ops (delete p) w) in
     mutex_rep L m w' q → Φ (Ok true) (Machine m w')
   else Φ (Ok false) (Machine m w)) →
  wp (sync_wait p) (Machine m w) Φ.
Proof.
  intros [Hi Hq Hh] Hp HΦ. eapply wp_sync_wait; [done..|]. destruct d; [|done].
  intros N' w' Hi' Hq'. apply HΦ. split; auto.
Qed.

Lemma wp_mutex_shutdown L m w q (Φ : res unit → machine mutex_impl → Prop) :
  mutex_rep L m w q →
  (∀ N', let w' := with_nodes N' (abort_all q w) in
     mutex_rep (<[waiters_ m := []]> L) m w' [] → Φ (Ok tt) (Machine m w')) →
  wp shutdown (Machine m w) Φ.
Proof.
  intros [Hi Hq Hh] HΦ. eapply (wp_impl_shutdown waiters_ m w L q.*1 q); try done.
  intros N' w' H1 H2. apply HΦ. by split.
Qed.
End rep.

(** ** Construction and destruction *)

Section life.
Context {ASIO : Asio}.
Implicit Types (L : gmap addr (list addr)) (w : world) (q : list (addr * op)).

Lemma wp_mutex_impl_ctor {St} this waiters svc config hint (m : St) w L ms
    (Φ : res mutex_impl → machine St → Prop) :
  world_ok w L → service_ok w L svc ms → nodes w !! this = None → nodes w !! waiters = None →
  this ≠ waiters → unreferenced w this →
  (∀ N', let w' := with_nodes N' w in let L' := <[waiters := []]> (<[svc := ms ++ [this]]> L) in
     let c := cem_ctor (negb (is_single_threaded config hint)) in
     let mi := MutexImpl (ServiceMember this (Some svc) c) false waiters in
     mutex_rep L' mi w' [] → service_ok w' L' svc (ms ++ [this]) → Φ (Ok mi) (Machine m w')) →
  wp (mutex_impl_ctor this waiters svc config hint) (Machine m w) Φ.
Proof.
  intros Hok Hs Hthis Hwait Hne Hun HΦ. apply wp_bind.
  eapply wp_service_member_ctor; [done..|]. intros N1 w1 L1 Hok1 Hs1 Hdom.
  apply wp_bind. eapply (wp_new_root waiters this svc m w _ L L1 N1 ms); [done..|]. intros N2 w2 L2 Hok2 Hs2.
  apply wp_ret. apply (HΦ N2); [|done].
  split; [|split; [by rewrite lookup_insert_eq|done]|done].
  split; [done|done|]. by apply closures_unreferenced.
Qed.

(** [~mutex_impl]: every waiter is aborted, the object leaves its service. *)
Lemma wp_mutex_impl_dtor L m w q svc xs ys (Φ : res unit → machine mutex_impl → Prop) :
  mutex_rep L m w q → service (get_sm m) = Some svc →
  service_ok w L svc (xs ++ this_ (get_sm m) :: ys) → svc ≠ waiters_ m →
  (∀ N', let w' := with_nodes N' (finish_all operation_aborted q w) in
     let L' := <[svc := xs ++ ys]> (delete (waiters_ m) L) in
     world_ok w' L' → service_ok w' L' svc (xs ++ ys) → Φ (Ok tt) (Machine m w')) →
  wp mutex_impl_dtor (Machine m w) Φ.
Proof.
  intros [[Hok Hi Hc] Hq Hh] Hsvc Hs Hne HΦ. apply wp_bind, wp_get_obj. cbn [obj].
  eapply (wp_impl_dtor (waiters_ m)); done.
Qed.

(** The move constructor registers the new object and moves the whole line to
    it; closures and operations stay as they are. *)
Lemma wp_mutex_impl_move_ctor {St} this waiters mi q svc (m : St) w L ms
    (Φ : res (mutex_impl * mutex_impl) → machine St → Prop) :
  world_ok w L → queue w L (waiters_ mi) q → service (mi_sm mi) = Some svc → service_ok w L svc ms →
  svc ≠ waiters_ mi → nodes w !! this = None → nodes w !! waiters = None → this ≠ waiters →
  (∀ N', let w' := with_nodes N' w in
     let L' := <[waiters := q.*1]> (<[waiters_ mi := []]> (<[svc := ms ++ [this]]> L)) in
     let new := MutexImpl (ServiceMember this (Some svc) (cem_ctor (enabled_ (get_mtx mi)))) (locked_ mi) waiters in
     world_ok w' L' → service_ok w' L' svc (ms ++ [this]) → queue w' L' waiters q → queue w' L' (waiters_ mi) [] →
     Φ (Ok (new, set_locked false mi)) (Machine m w')) →
  wp (mutex_impl_move_ctor this waiters mi) (Machine m w) Φ.
Proof.
  intros Hok [Hq Hqo] Hsvc Hs Hne Hthis Hwait Htw HΦ. apply wp_bind.
  eapply wp_service_member_move_ctor; [done..|]. intros N1 w1 L1 Hok1 Hs1 Hdom.
  assert (L1 !! waiters_ mi = Some q.*1) as Hq1 by (unfold L1; by rewrite lookup_insert_ne).
  assert (nodes w1 !! waiters = None) as Hw1.
  { simpl. apply not_elem_of_dom. rewrite Hdom. apply not_elem_of_dom in Hwait. set_solver. }
  apply wp_bind. pose proof (unlisted _ _ _ (wo_heap _ _ Hok1) Hw1) as Hun.
  assert (waiters_ mi ≠ waiters) as Hww by (intros E; apply Hun; exists (waiters_ mi), q.*1; split; [done|rewrite E; left]).
  assert (svc ≠ waiters) as Hsw by (intros E; apply Hun; exists svc, (ms ++ [this]); split; [apply Hs1|rewrite E; left]).
  eapply wp_bilist_move_ctor; [apply Hok1|done|done|]. intros N2 HL2 Hdom2 _. apply wp_ret. apply (HΦ N2).
  - by apply (world_ok_moved w1).
  - destruct Hs1 as [Hms ? ?]. split; [|done|done]. rewrite 2!lookup_insert_ne by done. exact Hms.
  - split; [by rewrite lookup_insert_eq|done].
  - split; [|done]. by rewrite lookup_insert_ne, lookup_insert_eq.
Qed.
End life.

(** ** The throwing overload and the assignment *)

Section more.
Context {ASIO : Asio}.
Implicit Types (L : gmap addr (list addr)) (m : mutex_impl) (w : world) (q : list (addr * op)).

Lemma wp_throw_if_failed {St} r ec (s : machine St) (Φ : res unit → machine St → Prop) :
  ecs (wld s) !! r = Some ec →
  Φ (if ec_failed ec then Exn (system_error ec) else Ok tt) (Machine (obj s) (set_ecs (delete r) (wld s))) →
  wp (throw_if_failed r) s Φ.
Proof.
  intros Hr HΦ. apply wp_bind, wp_get_world, wp_bind. eapply wp_of_option; [exact Hr|].
  apply wp_bind, wp_modify_world. by destruct (ec_failed ec).
Qed.

(** [lock()] without threads: the local [error_code] is gone, and so is every
    trace of the call when the mutex was locked. *)
Lemma wp_lock_throwing_st L m w q (Φ : res sync_result → machine mutex_impl → Prop) :
  mutex_rep L m w q → enabled_ (get_mtx m) = false →
  (if locked_ m then Φ (Exn (system_error in_progress)) (Machine m w)
   else Φ (Ok Returned) (Machine (set_locked true m) w)) →
  wp lock_throwing (Machine m w) Φ.
Proof.
  intros Hr Hen HΦ. apply wp_bind, wp_bind, wp_get_world, wp_bind, wp_modify_world, wp_ret.
  cbn [obj wld]. set (r := fresh (dom (ecs w))).
  assert (ecs w !! r = None) as Hfr by apply not_elem_of_dom, is_fresh.
  assert (∀ w', w' = set_ecs <[r := no_error]> w → set_ecs (delete r) w' = w) as Hback.
  { intros w' ->. unfold set_ecs. simpl. rewrite delete_insert_id by done. by destruct w. }
  apply wp_bind. eapply wp_lock_st; [by apply mutex_rep_ecs|simpl; rewrite lookup_insert_eq; by eexists|done|].
  destruct (locked_ m); apply wp_bind; (eapply wp_throw_if_failed; [simpl; apply lookup_insert_eq|]); simpl.
  - replace (set_ecs (delete r) _) with w; [done|].
    unfold set_ecs. simpl. rewrite insert_insert_eq, delete_insert_id by done. by destruct w.
  - apply wp_ret. by rewrite Hback.
Qed.

(** [a = std::move(b)], for an [a] without waiters: the waiters of [b] end up
    in no list at all. *)
Lemma wp_mutex_impl_move_assign_nil {St} L self lhs w q (s : St)
    (Φ : res (mutex_impl * mutex_impl) → machine St → Prop) :
  world_ok w L → queue w L (waiters_ self) [] → queue w L (waiters_ lhs) q → idle (get_mtx lhs) →
  (∀ N', let L' := <[waiters_ lhs := []]> L in
     heap_rep N' L' → (∀ p, p ∈ q.*1 → ¬ listed L' p) →
     Φ (Ok (set_locked (locked_ lhs) self, set_locked false lhs)) (Machine s (with_nodes N' w))) →
  wp (mutex_impl_move_assign self lhs) (Machine s w) Φ.
Proof.
  intros Hok Hself Hlhs Hi HΦ. apply wp_bind. eapply wp_of_option; [by apply cem_lock_idle|].
  apply wp_bind. eapply wp_bilist_move_assign_nil; [apply Hok|apply Hlhs|apply Hself|].
  intros N' HL' Hdom Hsame. apply wp_bind.
  eapply wp_of_option; [change (get_mtx _) with (inside (get_mtx lhs)); by apply cem_unlock_inside|].
  apply wp_ret. simpl.
  replace (set_mtx (get_mtx lhs) (set_locked false (set_mtx (inside (get_mtx lhs)) lhs)))
    with (set_locked false lhs) by (by destruct lhs as [[? ? []] ? ?]).
  replace (locked_ (set_mtx (inside (get_mtx lhs)) lhs)) with (locked_ lhs) by done.
  apply HΦ; [done|].
  intros p Hp (r2 & xs2 & Hr2 & Ha).
  pose proof (heap_rep_NoDup _ _ _ _ (wo_heap _ _ Hok) (proj1 Hlhs)) as [Hroot _]%NoDup_cons.
  apply lookup_insert_Some in Hr2 as [[<- <-]|[Hne Hr2]].
  - apply list_elem_of_singleton in Ha as ->. done.
  - apply Hne. eapply (hr_disjoint _ _ (wo_heap _ _ Hok)); [apply Hlhs|exact Hr2|right; exact Hp|exact Ha].
Qed.
End more.

(** ** Example mutexes *)

Definition demo_mutex (threads : bool) : machine mutex_impl :=
  match mutex_impl_ctor 2 3 1 (demo_config threads) (-1) (Machine tt (demo_world threads)) with
  | Some (Ok m, s) => Machine m (wld s)
  | _ => Machine (MutexImpl (ServiceMember 2 None (cem_ctor false)) false 3) (demo_world threads)
  end.
Definition demo_mutex_lists : gmap addr (list addr) := <[3%positive := []]> (<[1%positive := [2%positive]]> demo_lists).

Lemma demo_mutex_rep b :
  mutex_rep demo_mutex_lists (obj (demo_mutex b)) (wld (demo_mutex b)) [] ∧
  service_ok (wld (demo_mutex b)) demo_mutex_lists 1 [2%positive].
Proof.
  destruct (demo_world_ok b) as [Hok Hs].
  assert (wp (mutex_impl_ctor 2 3 1 (demo_config b) (-1)) (Machine tt (demo_world b)) (λ r s,
    match r with
    | Ok m => mutex_rep demo_mutex_lists m (wld s) [] ∧ service_ok (wld s) demo_mutex_lists 1 [2%positive]
    | Exn _ => False end)) as H.
  { eapply wp_mutex_impl_ctor; [exact Hok|exact Hs|by destruct b..|done| |].
    - intros n c. by destruct b.
    - intros N' w' L' c mi H1 H2. done. }
  unfold demo_mutex. unfold wp in H. destruct (mutex_impl_ctor _ _ _ _ _ _) as [[[m|] s]|]; done.
Qed.

(** Handlers 4 and 6 wait for the locked mutex; handler [n] has slot [n]. *)
Definition demo_locked (threads : bool) : machine mutex_impl :=
  let s := demo_mutex threads in Machine (set_locked true (obj s)) (wld s).
Definition demo_waiting1 (threads : bool) : machine mutex_impl :=
  after (async_lock 0 4 (demo_locked threads)) (demo_locked threads).
Definition demo_waiting2 (threads : bool) : machine mutex_impl :=
  after (async_lock 0 6 (demo_waiting1 threads)) (demo_waiting1 threads).

Lemma demo_locked_rep b : mutex_rep demo_mutex_lists (obj (demo_locked b)) (wld (demo_locked b)) [].
Proof. apply mutex_rep_locked, demo_mutex_rep. Qed.

Lemma demo_locked_service b : service_ok (wld (demo_locked b)) demo_mutex_lists 1 [2%positive].
Proof. unfold demo_locked. cbn [wld]. apply demo_mutex_rep. Qed.
Lemma demo_locked_this b : this_ (get_sm (obj (demo_locked b))) = 2%positive.
Proof. by destruct b. Qed.

(** One more handler in line. *)
Lemma demo_async_lock L s q (h : nat) p :
  mutex_rep L (obj s) (wld s) q → locked_ (obj s) = true → h ≠ 13 → fresh (dom (nodes (wld s))) = p →
  mutex_rep (<[waiters_ (obj s) := q.*1 ++ [p]]> L) (obj s)
    (wld (after (async_lock 0 h s) s)) (q ++ [(p, basic_op_model (get_associated_executor h 0) h)]) ∧
  obj (after (async_lock 0 h s) s) = obj s.
Proof.
  intros Hr Hl H13 Hp. destruct s as [m w]. apply wp_after. simpl in *.
  eapply wp_async_lock; [done|congruence|intros _ Ha; simpl in Ha; by rewrite (proj2 (Nat.eqb_neq h 13) H13) in Ha|].
  intros _ p' N' Ha Hfr po w' Hr'. simpl in Ha. rewrite (proj2 (Nat.eqb_neq h 13) H13) in Ha.
  simplify_eq. done.
Qed.

Lemma demo_waiting1_rep b :
  mutex_rep (<[3%positive := [4%positive]]> demo_mutex_lists) (obj (demo_waiting1 b)) (wld (demo_waiting1 b))
    [(4%positive, basic_op_model 4 4)] ∧ obj (demo_waiting1 b) = obj (demo_locked b).
Proof.
  destruct (demo_async_lock _ (demo_locked b) [] 4 4 (demo_locked_rep b)) as [H1 H2];
    [done|done|by destruct b; vm_compute|].
  unfold demo_waiting1. rewrite H2 at 1. split; [|exact H2].
  replace 3%positive with (waiters_ (obj (demo_locked b))) by by destruct b. exact H1.
Qed.

Lemma demo_waiting2_rep b :
  mutex_rep (<[3%positive := [4%positive; 5%positive]]> demo_mutex_lists) (obj (demo_waiting2 b)) (wld (demo_waiting2 b))
    [(4%positive, basic_op_model 4 4); (5%positive, basic_op_model 6 6)] ∧
  obj (demo_waiting2 b) = obj (demo_locked b).
Proof.
  destruct (demo_waiting1_rep b) as [Hr Ho].
  destruct (demo_async_lock _ (demo_waiting1 b) _ 6 5 Hr) as [H1 H2];
    [by rewrite Ho|done|by destruct b; vm_compute|].
  unfold demo_waiting2. rewrite H2 at 1. split; [|by rewrite H2].
  replace (<[3%positive := [4%positive; 5%positive]]> demo_mutex_lists)
    with (<[waiters_ (obj (demo_waiting1 b)) := [4%positive; 5%positive]]> (<[3%positive := [4%positive]]> demo_mutex_lists));
    [exact H1|]. rewrite Ho. destruct b; apply insert_insert_eq.
Qed.
