(* ===== verification/MutexSpec.v ===== *)
(** * The mutex: abstract specification, refinement and properties

    [mutex_step] is what a mutex promises: who owns it, who waits in line, and
    what each call answers and does to the rest of the world. [mutex_refines]
    shows that every call of [detail::mutex_impl] and [basic_mutex] is one such
    step. Every call is one critical section of the mutex, so an interleaving
    of threads is a sequence of calls ([mutex_run]): the properties of the runs
    hold for every interleaving. *)
From S2P Require Import Prelude Machine Bilist Ops Service Impl Mutex.

(** ** Commands *)

Section commands.
Context {ASIO : Asio}.

Inductive mutex_cmd :=
  | cmd_declare_ec
  | cmd_try_lock
  | cmd_lock (ec : addr)
  | cmd_unlock
  | cmd_async_lock (exec : executor) (h : handler)
  | cmd_emit (n : positive) (type : bool)
  | cmd_resume (p : addr)
  | cmd_shutdown.

Definition mutex_exec (c : mutex_cmd) : M mutex_impl reply :=
  match c with
  | cmd_declare_ec => r ← local_ec; mret (r_addr r)
  | cmd_try_lock => b ← try_lock; mret (r_bool b)
  | cmd_lock ec => r ← lock ec; mret (r_sync r)
  | cmd_unlock => unlock;; mret r_unit
  | cmd_async_lock exec h => async_lock exec h;; mret r_unit
  | cmd_emit n type => mutex_emit n type;; mret r_unit
  | cmd_resume p => b ← sync_wait p; mret (r_bool b)
  | cmd_shutdown => shutdown;; mret r_unit
  end.

(** What a call relies on: the [error_code] passed to [lock] is alive, the
    closure in an emitted slot belongs to this mutex, and a thread that wakes
    up has an operation. *)
Definition mutex_pre (c : mutex_cmd) (s : machine mutex_impl) : Prop :=
  match c with
  | cmd_lock ec => is_Some (ecs (wld s) !! ec)
  | cmd_emit n _ => ∀ c, slots (wld s) !! n = Some c → ch_impl c = this_ (get_sm (obj s))
  | cmd_resume p => ∃ ec d, ops (wld s) !! p = Some (sync_op ec d)
  | _ => True
  end.

(** ** The abstract mutex *)

Record mutex_spec := MutexSpec { owned : bool; line : list (addr * op) }.

(** [mutex_step enabled impl sp w c r sp' w']: in the world [w] the call [c] on
    the mutex at [impl] takes [sp] to [sp'], answers [r], and leaves [w']. *)
Inductive mutex_step (enabled : bool) (impl : addr) :
    mutex_spec → world → mutex_cmd → res reply → mutex_spec → world → Prop :=
  | ms_declare_ec sp w r : ecs w !! r = None →
      mutex_step enabled impl sp w cmd_declare_ec (Ok (r_addr r)) sp (set_ecs <[r := no_error]> w)
  | ms_try_free w :
      mutex_step enabled impl (MutexSpec false []) w cmd_try_lock (Ok (r_bool true)) (MutexSpec true []) w
  | ms_try_busy q w :
      mutex_step enabled impl (MutexSpec true q) w cmd_try_lock (Ok (r_bool false)) (MutexSpec true q) w
  | ms_lock_free ec w :
      mutex_step enabled impl (MutexSpec false []) w (cmd_lock ec) (Ok (r_sync Returned)) (MutexSpec true []) w
  | ms_lock_error ec q w : enabled = false →
      mutex_step enabled impl (MutexSpec true q) w (cmd_lock ec) (Ok (r_sync Returned))
        (MutexSpec true q) (set_ecs <[ec := in_progress]> w)
  | ms_lock_wait ec q w p : enabled = true → ops w !! p = None →
      mutex_step enabled impl (MutexSpec true q) w (cmd_lock ec) (Ok (r_sync (Blocked p)))
        (MutexSpec true (q ++ [(p, sync_op ec false)])) (enqueued impl (p, sync_op ec false) w)
  | ms_unlock_free b w :
      mutex_step enabled impl (MutexSpec b []) w cmd_unlock (Ok r_unit) (MutexSpec false []) w
  | ms_unlock_next po q w :
      mutex_step enabled impl (MutexSpec true (po :: q)) w cmd_unlock (Ok r_unit)
        (MutexSpec true q) (finish no_error w po)
  | ms_async_free exec h w :
      mutex_step enabled impl (MutexSpec false []) w (cmd_async_lock exec h) (Ok r_unit)
        (MutexSpec true []) (log (ev_dispatch (get_associated_immediate_executor h exec) h no_error) w)
  | ms_async_fail exec h q w X : allocate h X = None →
      mutex_step enabled impl (MutexSpec true q) w (cmd_async_lock exec h) (Exn bad_alloc) (MutexSpec true q) w
  | ms_async_wait exec h q w p : ops w !! p = None →
      let po := (p, basic_op_model (get_associated_executor h exec) h) in
      mutex_step enabled impl (MutexSpec true q) w (cmd_async_lock exec h) (Ok r_unit)
        (MutexSpec true (q ++ [po])) (enqueued impl po w)
  | ms_emit_nothing n type sp w : type = false ∨ slots w !! n = None →
      mutex_step enabled impl sp w (cmd_emit n type) (Ok r_unit) sp w
  | ms_emit_abort n q1 p o q2 w : slots w !! n = Some (CancelHandler p impl) →
      mutex_step enabled impl (MutexSpec true (q1 ++ (p, o) :: q2)) w (cmd_emit n true) (Ok r_unit)
        (MutexSpec true (q1 ++ q2)) (finish operation_aborted w (p, o))
  | ms_resume_asleep p ec sp w : ops w !! p = Some (sync_op ec false) →
      mutex_step enabled impl sp w (cmd_resume p) (Ok (r_bool false)) sp w
  | ms_resume_done p ec sp w : ops w !! p = Some (sync_op ec true) →
      mutex_step enabled impl sp w (cmd_resume p) (Ok (r_bool true)) sp (set_ops (delete p) w)
  | ms_shutdown b q w :
      mutex_step enabled impl (MutexSpec b q) w cmd_shutdown (Ok r_unit) (MutexSpec b []) (abort_all q w).

(** The object at [impl] with the mutex [c] implements [sp]. *)
Definition mutex_implements (L : gmap addr (list addr)) (s : machine mutex_impl) (sp : mutex_spec) : Prop :=
  mutex_rep L (obj s) (wld s) (line sp) ∧ locked_ (obj s) = owned sp.
End commands.

(** ** Refinement *)

Section refinement.
Context {ASIO : Asio}.
Implicit Types (L : gmap addr (list addr)) (m : mutex_impl) (w : world) (q : list (addr * op)).
Implicit Types (s : machine mutex_impl) (sp : mutex_spec).

(** The outcome of a call on [s] that implements [sp]. *)
Definition mutex_roots m : list addr := [waiters_ m].

Definition refined L s sp (c : mutex_cmd) (r : res reply) s' : Prop :=
  ∃ L' sp' w', mutex_step (enabled_ (get_mtx (obj s))) (this_ (get_sm (obj s))) sp (wld s) c r sp' w' ∧
    same_but_nodes (wld s') w' ∧ mutex_implements L' s' sp' ∧ local mutex_roots L (obj s) L' (obj s').

Lemma refined_intro L' sp' w' L s sp c r s' :
  mutex_step (enabled_ (get_mtx (obj s))) (this_ (get_sm (obj s))) sp (wld s) c r sp' w' →
  same_but_nodes (wld s') w' → mutex_rep L' (obj s') (wld s') (line sp') → locked_ (obj s') = owned sp' →
  same_member (obj s) (obj s') → mutex_roots (obj s') = mutex_roots (obj s) →
  same_lists [waiters_ (obj s)] L L' → refined L s sp c r s'.
Proof. intros. by exists L', sp', w'. Qed.

(** The lock is owned whenever somebody is in line. *)
Lemma rep_owned L m w q : mutex_rep L m w q → locked_ m = false → q = [].
Proof. intros [_ _ Hh] Hl. destruct q; [done|]. specialize (Hh ltac:(done)). congruence. Qed.

(** [lock(ec)], with threads and without. *)
Lemma mutex_lock_refines L m w q ec :
  mutex_rep L m w q → is_Some (ecs w !! ec) →
  wp (mutex_exec (cmd_lock ec)) (Machine m w) (refined L (Machine m w) (MutexSpec (locked_ m) q) (cmd_lock ec)).
Proof.
  intros Hr Hpre. simpl. apply wp_bind. destruct (enabled_ (get_mtx m)) eqn:Hen.
  - eapply wp_lock_mt; [done..|]. destruct (locked_ m) eqn:Hl.
    + intros p N' Hp po w' Hr'. apply wp_ret.
      eapply refined_intro; [apply ms_lock_wait; [done|]|apply same_with_nodes|done..].
      eapply fresh_op; [apply Hr|done].
    + intros N' Hr'. pose proof (rep_owned _ _ _ _ Hr Hl) as ->. apply wp_ret.
      eapply refined_intro; [apply ms_lock_free|apply same_with_nodes|done..].
  - eapply wp_lock_st; [done..|]. destruct (locked_ m) eqn:Hl; apply wp_ret.
    + eapply (refined_intro L); [by apply ms_lock_error|reflexivity|by apply mutex_rep_ecs|done..].
    + pose proof (rep_owned _ _ _ _ Hr Hl) as ->.
      eapply (refined_intro L); [apply ms_lock_free|reflexivity|by apply mutex_rep_locked|done..].
Qed.

Lemma mutex_exec_refines c L s sp :
  mutex_implements L s sp → mutex_pre c s → wp (mutex_exec c) s (refined L s sp c).
Proof.
  destruct s as [m w], sp as [b q]. intros [Hr Hb] Hpre. simpl in *. subst b.
  destruct c as [| |ec| |exec h|n type|p|]; try (by apply mutex_lock_refines); simpl in *; apply wp_bind.
  - eapply wp_local_ec; [apply Hr|]. intros r Hfr w' Hi Hq. apply wp_ret.
    eapply (refined_intro L); [by apply ms_declare_ec|reflexivity| |done..].
    destruct Hr as [? ? ?]. split; [done|by apply Hq|done].
  - eapply wp_try_lock; [done|]. destruct (locked_ m) eqn:Hl; apply wp_ret.
    + eapply refined_intro; [apply ms_try_busy|reflexivity|done..].
    + pose proof (rep_owned _ _ _ _ Hr Hl) as ->.
      eapply (refined_intro L); [apply ms_try_free|reflexivity|by apply mutex_rep_locked|done..].
  - eapply wp_unlock; [done|]. destruct q as [|po q].
    + apply wp_ret. eapply (refined_intro L); [apply ms_unlock_free|reflexivity|by apply mutex_rep_locked|done..].
    + intros N' w' Hr'. apply wp_ret. assert (locked_ m = true) as Hl by (by apply Hr). rewrite Hl.
      eapply refined_intro; [apply ms_unlock_next|apply same_with_nodes|done..].
  - eapply wp_async_lock; [done|..].
    + intros Hl. pose proof (rep_owned _ _ _ _ Hr Hl) as ->. rewrite Hl. apply wp_ret.
      eapply (refined_intro L); [apply ms_async_free|reflexivity| |done..].
      by apply mutex_rep_locked, mutex_rep_log.
    + intros Hl Ha. rewrite Hl. eapply refined_intro; [by eapply ms_async_fail|reflexivity|done..].
    + intros Hl p N' Ha Hp po w' Hr'. rewrite Hl. apply wp_ret.
      eapply refined_intro; [apply ms_async_wait|apply same_with_nodes|done..].
      eapply fresh_op; [apply Hr|done].
  - eapply wp_mutex_emit; [done..| |].
    + intros Hn. apply wp_ret. eapply refined_intro; [by apply ms_emit_nothing|reflexivity|done..].
    + intros -> q1 p o q2 N' -> Hn w' Hr'. apply wp_ret.
      assert (locked_ m = true) as Hl by (apply Hr; by destruct q1). rewrite Hl.
      eapply refined_intro; [by apply ms_emit_abort|apply same_with_nodes|done..].
  - destruct Hpre as (ec & d & Hp). eapply wp_mutex_resume; [done..|]. destruct d.
    + intros N' w' Hr'. apply wp_ret.
      eapply refined_intro; [by eapply ms_resume_done|apply same_with_nodes|done..].
    + apply wp_ret. eapply refined_intro; [by eapply ms_resume_asleep|reflexivity|done..].
  - eapply wp_mutex_shutdown; [done|]. intros N' w' Hr'. apply wp_ret.
    eapply refined_intro; [apply ms_shutdown|apply same_with_nodes|done..].
Qed.
End refinement.

(** ** Runs *)

Section runs.
Context {ASIO : Asio}.
Implicit Types (L : gmap addr (list addr)) (w : world) (q : list (addr * op)).
Implicit Types (s : machine mutex_impl) (sp : mutex_spec).

(** How many callers a call tells that they own the mutex: the one whose
    [try_lock] answers [true], whose [lock] returns with its [error_code] still
    clear, or for whom a handler is queued or a thread woken by an [unlock] or
    an [async_lock]. *)
Definition grants s (c : mutex_cmd) (r : res reply) s' : nat :=
  match c, r with
  | cmd_try_lock, Ok (r_bool true) => 1
  | cmd_lock ec, Ok (r_sync Returned) =>
      if bool_decide (ecs (wld s') !! ec = Some no_error) then 1 else 0
  | cmd_unlock, _ | cmd_async_lock _ _, _ => granted (events_since (wld s) (wld s'))
  | _, _ => 0
  end.

Definition releases (c : mutex_cmd) : nat := match c with cmd_unlock => 1 | _ => 0 end.

(** A client that plays by the rules, while [h] callers own the mutex. *)
Definition mutex_client (h : nat) (c : mutex_cmd) s : Prop :=
  mutex_pre c s ∧
  match c with
  | cmd_unlock => 0 < h
  | cmd_lock ec => ecs (wld s) !! ec = Some no_error
  | _ => True
  end.

(** Any interleaving of calls; the index counts the owners. *)
Inductive mutex_run s0 : nat → machine mutex_impl → Prop :=
  | run_start : mutex_run s0 0 s0
  | run_call h s c r s' : mutex_run s0 h s → mutex_client h c s → mutex_exec c s = Some (r, s') →
      mutex_run s0 (h - releases c + grants s c r s') s'.

Definition owners (b : bool) : nat := if b then 1 else 0.

Lemma step_owners enabled impl s sp c r s' sp' w' :
  mutex_step enabled impl sp (wld s) c r sp' w' → same_but_nodes (wld s') w' →
  mutex_client (owners (owned sp)) c s →
  owners (owned sp) - releases c + grants s c r s' = owners (owned sp').
Proof.
  intros Hstep Hsame [_ Hcl].
  apply trace_same in Hsame as Htr. apply ecs_same in Hsame as Hec. clear Hsame.
  destruct s as [m w0], s' as [m' w1]. unfold grants. cbn [wld obj] in *.
  destruct Hstep; simpl in *; try lia.
  - rewrite Hec. by rewrite bool_decide_eq_true_2.
  - rewrite Hec. simpl. by rewrite lookup_insert_eq, bool_decide_eq_false_2.
  - destruct b; simpl in *; [|lia]. by rewrite (events_since_same _ _ Htr).
  - rewrite trace_finish in Htr. rewrite (events_since_app _ _ _ Htr), granted_completion. done.
  - rewrite (events_since_app _ _ _ Htr). done.
  - by rewrite (events_since_same _ _ Htr).
  - by rewrite (events_since_same _ _ Htr).
Qed.

Lemma run_invariant L m w h s :
  mutex_rep L m w [] → locked_ m = false → mutex_run (Machine m w) h s →
  ∃ L' sp, mutex_implements L' s sp ∧ h = owners (owned sp).
Proof.
  intros Hr Hl. induction 1 as [|h s c r s' _ (L' & sp & Himp & ->) Hcl Hex].
  - exists L, (MutexSpec false []). by repeat split; try apply Hr.
  - pose proof (mutex_exec_refines _ _ _ _ Himp (proj1 Hcl)) as Hwp.
    unfold wp in Hwp. rewrite Hex in Hwp.
    destruct Hwp as (L2 & sp' & w' & Hstep & Hsame & Himp' & _). exists L2, sp'. split; [done|].
    by eapply step_owners.
Qed.

(** [k] calls of [unlock], one after the other. *)
Fixpoint unlock_times (k : nat) : M mutex_impl unit :=
  match k with
  | O => mret tt
  | S k => unlock;; unlock_times k
  end.

Lemma wp_unlock_times L m w q k :
  mutex_rep L m w q → k ≤ length q →
  wp (unlock_times k) (Machine m w) (λ r s', r = Ok tt ∧ obj s' = m ∧
    same_but_nodes (wld s') (finish_all no_error (take k q) w) ∧
    ∃ L', mutex_rep L' m (wld s') (drop k q)).
Proof.
  revert L w q. induction k as [|k IH]; intros L w q Hr Hk; simpl.
  - apply wp_ret. split_and!; [done..|]. by exists L.
  - destruct q as [|po q]; simpl in *; [lia|]. apply wp_bind. eapply wp_unlock; [done|].
    intros N' w' Hr'. eapply wp_mono; [apply (IH _ w' q Hr'); lia|].
    intros r s' (-> & E & Hs & HL). split_and!; [done..| |done].
    etransitivity; [exact Hs|]. exists N'. unfold w'. by rewrite finish_all_with_nodes.
Qed.
End runs.

(** ** Properties *)

Section properties.
Context {ASIO : Asio}.
Implicit Types (L : gmap addr (list addr)) (m : mutex_impl) (w : world) (q : list (addr * op)).
Implicit Types (s : machine mutex_impl) (sp : mutex_spec).

(** C1: mutual exclusion. Whatever calls are made in whatever order on a mutex
    that starts unlocked, as long as only owners call [unlock] and the
    [error_code] that [lock] gets is clear, there is at most one owner, and
    there is one exactly while [locked_] is set. *)
Theorem mutex_mutual_exclusion L m w h s :
  mutex_rep L m w [] → locked_ m = false → mutex_run (Machine m w) h s →
  h ≤ 1 ∧ (h = 1 ↔ locked_ (obj s) = true).
Proof.
  intros Hr Hl Hrun. destruct (run_invariant _ _ _ _ _ Hr Hl Hrun) as (L' & sp & [_ ->] & ->).
  destruct (owned sp); simpl; split; [lia|done|lia|split; [lia|done]].
Qed.

(** C24: no call is ever stuck. After any run every call whose precondition
    holds has an outcome: no dangling pointer is followed, no mutex is locked
    twice and every loop ends within its fuel. *)
Theorem mutex_never_stuck L m w h s c :
  mutex_rep L m w [] → locked_ m = false → mutex_run (Machine m w) h s → mutex_pre c s →
  ∃ r s', mutex_exec c s = Some (r, s').
Proof.
  intros Hr Hl Hrun Hpre. destruct (run_invariant _ _ _ _ _ Hr Hl Hrun) as (L' & sp & Himp & _).
  pose proof (mutex_exec_refines _ _ _ _ Himp Hpre) as (r & s' & Hex & _)%wp_run. by exists r, s'.
Qed.

(** C2: refinement. Every call of the pointer implementation is a step of the
    abstract mutex, with the abstract answer and the abstract effects (list
    nodes aside), and leaves an object that implements the abstract successor. *)
Theorem mutex_refines L s sp c :
  mutex_implements L s sp → mutex_pre c s →
  wp (mutex_exec c) s (λ r s', ∃ L' sp' w',
    mutex_step (enabled_ (get_mtx (obj s))) (this_ (get_sm (obj s))) sp (wld s) c r sp' w' ∧
    same_but_nodes (wld s') w' ∧ mutex_implements L' s' sp').
Proof.
  intros Himp Hpre. eapply wp_mono; [by apply (mutex_exec_refines c L s sp)|].
  intros r s' (L' & sp' & w' & H1 & H2 & H3 & _). by exists L', sp', w'.
Qed.

(** First come, first served. [k] unlocks complete the [k] operations that
    have waited longest, in the order they came and with no error, and leave
    the others in line; the mutex stays locked for the last one served. *)
Theorem mutex_fifo L m w q k :
  mutex_rep L m w q → 0 < k ≤ length q →
  wp (unlock_times k) (Machine m w) (λ r s', r = Ok tt ∧ locked_ (obj s') = true ∧
    events_since w (wld s') = (take k q ≫= completion no_error) ∧
    ∃ L', mutex_rep L' (obj s') (wld s') (drop k q)).
Proof.
  intros Hr Hk. eapply wp_mono; [apply (wp_unlock_times L m w q k Hr); lia|].
  intros r s' (-> & -> & Hs & HL). split_and!; [done|apply Hr; intros ->; simpl in *; lia| |done].
  apply events_since_app. rewrite (trace_same _ _ Hs). apply trace_finish_all.
Qed.

(** Without threads [lock] never blocks. On a locked mutex the overload
    with an [error_code] stores [in_progress] and the throwing overload throws
    it, and neither enqueues anything; on an unlocked mutex both lock it. *)
Theorem mutex_lock_st_error L m w q ec :
  mutex_rep L m w q → enabled_ (get_mtx m) = false → is_Some (ecs w !! ec) →
  lock ec (Machine m w) = Some (Ok Returned,
    if locked_ m then Machine m (set_ecs <[ec := in_progress]> w) else Machine (set_locked true m) w) ∧
  lock_throwing (Machine m w) = Some (
    if locked_ m then (Exn (system_error in_progress), Machine m w)
    else (Ok Returned, Machine (set_locked true m) w)).
Proof.
  intros Hr Hen He.
  assert (wp (lock ec) (Machine m w) (λ r s, (r, s) = (Ok Returned,
    if locked_ m then Machine m (set_ecs <[ec := in_progress]> w) else Machine (set_locked true m) w))) as H1.
  { eapply wp_lock_st; [done..|]. by destruct (locked_ m). }
  assert (wp lock_throwing (Machine m w) (λ r s, (r, s) =
    if locked_ m then (Exn (system_error in_progress), Machine m w)
    else (Ok Returned, Machine (set_locked true m) w))) as H2.
  { eapply wp_lock_throwing_st; [done..|]. by destruct (locked_ m). }
  apply wp_run in H1 as (r1 & s1 & -> & <-). apply wp_run in H2 as (r2 & s2 & -> & <-). done.
Qed.

(** A blocked [lock] does return. A thread that [lock] has put to sleep
    behind [q] is woken by the unlock that follows those that serve [q]: its
    next look at its operation returns, and its [error_code] is clear. *)
Theorem mutex_blocked_lock_returns L m w q ec :
  mutex_rep L m w q → enabled_ (get_mtx m) = true → locked_ m = true → is_Some (ecs w !! ec) →
  wp (lock ec) (Machine m w) (λ r s1, ∃ p, r = Ok (Blocked p) ∧
    wp (unlock_times (S (length q))) s1 (λ _ s2, ecs (wld s2) !! ec = Some no_error ∧
      wp (sync_wait p) s2 (λ r3 s3, r3 = Ok true ∧ ops (wld s3) !! p = None))).
Proof.
  intros Hr Hen Hl He. eapply wp_lock_mt; [done..|]. rewrite Hl. intros p N' Hp po w' Hr'.
  exists p. split; [done|].
  eapply wp_mono; [apply (wp_unlock_times _ _ _ _ _ Hr'); rewrite length_app; simpl; lia|].
  intros r2 s2 (-> & E & Hs & L2 & Hr2). rewrite take_ge in Hs by (rewrite length_app; simpl; lia).
  rewrite finish_all_app in Hs. destruct Hs as [N2 Hs]. rewrite Hs. simpl.
  split; [apply lookup_insert_eq|]. destruct s2 as [m2 w2]. simpl in *. subst m2.
  eapply wp_mutex_resume; [exact Hr2|rewrite Hs; apply lookup_insert_eq|]. simpl.
  intros N3 _. split; [done|]. apply lookup_delete_eq.
Qed.

(** Cancellation. Emitting the signal of a waiting operation removes that
    operation from the line, whatever its place, posts its handler with
    [operation_aborted] after its memory is freed, disarms its slot, and leaves
    the owner and the order of the others alone. *)
Theorem mutex_cancel L m w q1 p g h q2 n :
  mutex_rep L m w (q1 ++ (p, basic_op_model g h) :: q2) →
  slots w !! n = Some (CancelHandler p (this_ (get_sm m))) →
  wp (mutex_emit n true) (Machine m w) (λ r s', r = Ok tt ∧ obj s' = m ∧
    events_since w (wld s') = [ev_deallocate p; ev_post g h operation_aborted] ∧
    slots (wld s') !! n = None ∧ ops (wld s') !! p = None ∧
    ∃ L', mutex_rep L' m (wld s') (q1 ++ q2)).
Proof.
  intros Hr Hn. pose proof (mr_queue _ _ _ _ Hr) as Hq.
  pose proof (queue_NoDup _ _ _ _ (io_world _ _ _ _ (mr_impl _ _ _ _ Hr)) Hq) as Hnd.
  assert (associated_slot h = Some n) as Hslot.
  { destruct (wo_slots _ _ (io_world _ _ _ _ (mr_impl _ _ _ _ Hr)) _ _ Hn) as (o & Ho & Hs & _). simpl in Ho.
    rewrite (queue_member _ _ _ _ p (basic_op_model g h) Hq) in Ho by set_solver. by simplify_eq. }
  eapply wp_mutex_emit; [done|by rewrite Hn; intros c [= <-]|intros [?|?]; congruence|].
  intros _ q1' p' o' q2' N' Hsplit Hn' w' Hr'. rewrite Hn in Hn'. simplify_eq.
  assert (q1' = q1 ∧ o' = basic_op_model g h ∧ q2' = q2) as (-> & -> & ->).
  { by eapply split_at_key. }
  split_and!; [done|done|by apply events_since_app| | |by eexists]; unfold w'; simpl.
  - rewrite Hslot. apply lookup_delete_eq.
  - apply lookup_delete_eq.
Qed.

(** Shutdown. Every waiting operation is shut down once, in order: handlers
    are destroyed and freed but never posted, sleeping threads are woken with
    [shut_down]; nobody is left in line and the mutex stays in the state it was
    in. *)
Theorem mutex_shutdown_posts_nothing L m w q :
  mutex_rep L m w q →
  wp shutdown (Machine m w) (λ r s', r = Ok tt ∧ obj s' = m ∧
    events_since w (wld s') = (q ≫= abortion) ∧
    (∀ g h ec, ev_post g h ec ∉ events_since w (wld s')) ∧
    ∃ L', mutex_rep L' m (wld s') []).
Proof.
  intros Hr. eapply wp_mutex_shutdown; [done|]. intros N' w' Hr'. cbn [wld obj].
  assert (events_since w w' = q ≫= abortion) as -> by (apply events_since_app, trace_abort_all).
  split_and!; [done..| |by eexists]. intros g h ec Hin.
  apply list_elem_of_bind in Hin as ([p []] & Hin & _); set_solver.
Qed.

(** Destruction. Every waiting operation is completed with
    [operation_aborted], in order, and the mutex leaves the members of its
    service. *)
Theorem mutex_dtor_aborts L m w q svc xs ys :
  mutex_rep L m w q → service (get_sm m) = Some svc →
  service_ok w L svc (xs ++ this_ (get_sm m) :: ys) → svc ≠ waiters_ m →
  wp mutex_impl_dtor (Machine m w) (λ r s', r = Ok tt ∧
    events_since w (wld s') = (q ≫= completion operation_aborted) ∧
    ∃ L', world_ok (wld s') L' ∧ service_ok (wld s') L' svc (xs ++ ys)).
Proof.
  intros Hr Hs Hok Hne. eapply wp_mutex_impl_dtor; [done..|]. intros N' w' L' H1 H2.
  split_and!; [done| |by eexists]. apply events_since_app, trace_finish_all.
Qed.

(** Move assignment loses waiters. Assigning from a mutex with waiters to
    one without copies [locked_] and empties the source's list, but puts its
    waiters in no list: they are still in memory, nobody is told, and no later
    [unlock] or [shutdown] can reach them. *)
Theorem mutex_move_assign_loses_waiters L self lhs w q :
  world_ok w L → queue w L (waiters_ self) [] → queue w L (waiters_ lhs) q → idle (get_mtx lhs) →
  wp (mutex_impl_move_assign self lhs) (Machine tt w) (λ r t, ∃ L',
    r = Ok (set_locked (locked_ lhs) self, set_locked false lhs) ∧
    heap_rep (nodes (wld t)) L' ∧ trace (wld t) = trace w ∧
    ∀ p o, (p, o) ∈ q → ops (wld t) !! p = Some o ∧ ¬ listed L' p).
Proof.
  intros Hok Hself Hlhs Hi. eapply wp_mutex_impl_move_assign_nil; [done..|].
  intros N' L' HL' Hun. exists L'. split_and!; [done..|]. intros p o Hin. split.
  - by eapply queue_member.
  - apply Hun, list_elem_of_fmap. by exists (p, o).
Qed.
End properties.

(** ** The properties at work *)

Section witnesses.

Lemma demo_run : mutex_run (Machine (obj (demo_mutex true)) (wld (demo_mutex true))) 1 (demo_locked true).
Proof.
  eapply (run_call _ 0 _ cmd_try_lock (Ok (r_bool true)) (demo_locked true)); [apply run_start|by split|].
  vm_compute. reflexivity.
Qed.

Lemma mutex_mutual_exclusion_witness : 1 ≤ 1 ∧ (1 = 1 ↔ locked_ (obj (demo_locked true)) = true).
Proof.
  apply (mutex_mutual_exclusion demo_mutex_lists (obj (demo_mutex true)) (wld (demo_mutex true))).
  - apply demo_mutex_rep.
  - vm_compute. reflexivity.
  - exact demo_run.
Defined.

Lemma mutex_never_stuck_witness : ∃ r s', mutex_exec (cmd_async_lock 0 4) (demo_locked true) = Some (r, s').
Proof.
  apply (mutex_never_stuck demo_mutex_lists (obj (demo_mutex true)) (wld (demo_mutex true)) 1).
  - apply demo_mutex_rep.
  - vm_compute. reflexivity.
  - exact demo_run.
  - exact I.
Defined.

Lemma mutex_refines_witness :
  wp (mutex_exec cmd_unlock) (demo_waiting2 true) (λ r s', ∃ L' sp' w',
    mutex_step true 2 (MutexSpec true [(4%positive, @basic_op_model test_asio 4 4); (5%positive, @basic_op_model test_asio 6 6)])
      (wld (demo_waiting2 true)) cmd_unlock r sp' w' ∧
    same_but_nodes (wld s') w' ∧ mutex_implements L' s' sp').
Proof.
  apply (mutex_refines (<[3%positive := [4%positive; 5%positive]]> demo_mutex_lists) (demo_waiting2 true)).
  - split; [apply demo_waiting2_rep|vm_compute; reflexivity].
  - exact I.
Defined.

Lemma mutex_fifo_witness :
  wp (unlock_times 2) (Machine (obj (demo_waiting2 true)) (wld (demo_waiting2 true))) (λ r s',
    r = Ok tt ∧ locked_ (obj s') = true ∧
    events_since (wld (demo_waiting2 true)) (wld s') =
      [@ev_deallocate test_asio 4; @ev_post test_asio 4 4 no_error; @ev_deallocate test_asio 5; @ev_post test_asio 6 6 no_error] ∧
    ∃ L', mutex_rep L' (obj s') (wld s') []).
Proof.
  apply (mutex_fifo (<[3%positive := [4%positive; 5%positive]]> demo_mutex_lists) _ _
    [(4%positive, @basic_op_model test_asio 4 4); (5%positive, @basic_op_model test_asio 6 6)] 2).
  - rewrite (proj2 (demo_waiting2_rep true)), <- (proj2 (demo_waiting2_rep true)). apply demo_waiting2_rep.
  - simpl. lia.
Defined.

Lemma mutex_lock_st_error_witness :
  lock 1 (Machine (obj (demo_locked false)) (wld (demo_locked false))) =
    Some (Ok Returned, Machine (obj (demo_locked false)) (set_ecs <[1%positive := in_progress]> (wld (demo_locked false)))) ∧
  lock_throwing (Machine (obj (demo_locked false)) (wld (demo_locked false))) =
    Some (Exn (system_error in_progress), Machine (obj (demo_locked false)) (wld (demo_locked false))).
Proof.
  apply (mutex_lock_st_error demo_mutex_lists (obj (demo_locked false)) (wld (demo_locked false)) [] 1).
  - apply demo_locked_rep.
  - vm_compute. reflexivity.
  - exists no_error. vm_compute. reflexivity.
Defined.

Lemma mutex_blocked_lock_returns_witness :
  wp (lock 1) (Machine (obj (demo_locked true)) (wld (demo_locked true))) (λ r s1, ∃ p, r = Ok (Blocked p) ∧
    wp (unlock_times 1) s1 (λ _ s2, ecs (wld s2) !! 1%positive = Some no_error ∧
      wp (sync_wait p) s2 (λ r3 s3, r3 = Ok true ∧ ops (wld s3) !! p = None))).
Proof.
  apply (mutex_blocked_lock_returns demo_mutex_lists (obj (demo_locked true)) (wld (demo_locked true)) [] 1).
  - apply demo_locked_rep.
  - vm_compute. reflexivity.
  - reflexivity.
  - exists no_error. vm_compute. reflexivity.
Defined.

Lemma mutex_cancel_witness :
  wp (mutex_emit 4 true) (Machine (obj (demo_waiting2 true)) (wld (demo_waiting2 true))) (λ r s', r = Ok tt ∧
    obj s' = obj (demo_waiting2 true) ∧
    events_since (wld (demo_waiting2 true)) (wld s') = [@ev_deallocate test_asio 4; @ev_post test_asio 4 4 operation_aborted] ∧
    slots (wld s') !! 4%positive = None ∧ ops (wld s') !! 4%positive = None ∧
    ∃ L', mutex_rep L' (obj (demo_waiting2 true)) (wld s') [(5%positive, @basic_op_model test_asio 6 6)]).
Proof.
  apply (mutex_cancel (ASIO := test_asio) (<[3%positive := [4%positive; 5%positive]]> demo_mutex_lists) _ _ [] 4 4 4
    [(5%positive, @basic_op_model test_asio 6 6)] 4).
  - apply demo_waiting2_rep.
  - vm_compute. reflexivity.
Defined.

Lemma mutex_shutdown_posts_nothing_witness :
  wp shutdown (Machine (obj (demo_waiting1 true)) (wld (demo_waiting1 true))) (λ r s', r = Ok tt ∧
    obj s' = obj (demo_waiting1 true) ∧
    events_since (wld (demo_waiting1 true)) (wld s') = [@ev_destroy test_asio 4; @ev_deallocate test_asio 4] ∧
    (∀ g h ec, ev_post g h ec ∉ events_since (wld (demo_waiting1 true)) (wld s')) ∧
    ∃ L', mutex_rep L' (obj (demo_waiting1 true)) (wld s') []).
Proof.
  apply (mutex_shutdown_posts_nothing (<[3%positive := [4%positive]]> demo_mutex_lists) _ _
    [(4%positive, @basic_op_model test_asio 4 4)]).
  apply demo_waiting1_rep.
Defined.

Lemma mutex_dtor_aborts_witness :
  wp mutex_impl_dtor (Machine (obj (demo_locked true)) (wld (demo_locked true))) (λ r s', r = Ok tt ∧
    events_since (wld (demo_locked true)) (wld s') = [] ∧
    ∃ L', world_ok (wld s') L' ∧ service_ok (wld s') L' 1 []).
Proof.
  apply (mutex_dtor_aborts demo_mutex_lists (obj (demo_locked true)) (wld (demo_locked true)) [] 1 [] []).
  - apply demo_locked_rep.
  - vm_compute. reflexivity.
  - rewrite demo_locked_this.
    exact (demo_locked_service true).
  - done.
Defined.

(** A second mutex in the world where handler 4 waits for the first. *)
Definition demo_second : mutex_impl * world :=
  match mutex_impl_ctor 10 11 1 (demo_config true) (-1) (Machine tt (wld (demo_waiting1 true))) with
  | Some (Ok m, s) => (m, wld s)
  | _ => (obj (demo_mutex true), wld (demo_mutex true))
  end.
Definition demo_second_lists : gmap addr (list addr) :=
  <[11%positive := []]> (<[1%positive := [2%positive; 10%positive]]>
    (<[3%positive := [4%positive]]> demo_mutex_lists)).

Lemma demo_second_ok : world_ok demo_second.2 demo_second_lists.
Proof.
  assert (wp (mutex_impl_ctor 10 11 1 (demo_config true) (-1)) (Machine tt (wld (demo_waiting1 true)))
    (λ r s, match r with Ok _ => world_ok (wld s) demo_second_lists | Exn _ => False end)) as H.
  { destruct (demo_waiting1_rep true) as [Hr _].
    eapply (wp_mutex_impl_ctor 10 11 1 _ _ _ _ _ [2%positive]);
      [apply Hr| |by vm_compute|by vm_compute|done| |].
    - split; [by vm_compute|eexists; split; [by vm_compute|done]|by repeat constructor].
    - intros n c Hn Hc. pose proof (mr_impl _ _ _ _ Hr) as Hi.
      assert (map_Forall (λ _ c, ch_impl c ≠ 10%positive) (slots (wld (demo_waiting1 true)))) as Hall.
      { eapply (bool_decide_eq_true_1 _). vm_compute. reflexivity. }
      by apply (Hall _ _ Hn).
    - intros N' w' L' c mi Hmi _. apply Hmi. }
  unfold demo_second. unfold wp in H. destruct (mutex_impl_ctor _ _ _ _ _ _) as [[[m|] s]|]; done.
Qed.

Lemma mutex_move_assign_loses_waiters_witness :
  wp (mutex_impl_move_assign demo_second.1 (obj (demo_waiting1 true))) (Machine tt demo_second.2) (λ r t, ∃ L',
    r = Ok (set_locked true demo_second.1, set_locked false (obj (demo_waiting1 true))) ∧
    heap_rep (nodes (wld t)) L' ∧ trace (wld t) = trace demo_second.2 ∧
    ∀ p o, (p, o) ∈ [(4%positive, @basic_op_model test_asio 4 4)] → ops (wld t) !! p = Some o ∧ ¬ listed L' p).
Proof.
  apply (mutex_move_assign_loses_waiters demo_second_lists demo_second.1 (obj (demo_waiting1 true))).
  - exact demo_second_ok.
  - split; [vm_compute; reflexivity|constructor].
  - split; [vm_compute; reflexivity|repeat constructor].
  - split; vm_compute; reflexivity.
Defined.
End witnesses.
