(* ===== verification/Semaphore.v ===== *)
(** * The semaphore

    [detail::semaphore_impl], the initiating function of
    [basic_semaphore::async_acquire] and its cancellation handler
    ([detail/semaphore_impl.hpp], [detail/impl/semaphore_impl.ipp],
    [basic_semaphore.hpp], [impl/basic_semaphore.hpp]). The counter is an [int]:
    every increment and decrement is checked for overflow. *)
From S2P Require Import Prelude Machine Bilist Ops Service Impl.

(** ** The code *)

Record semaphore_impl := SemaphoreImpl {
  se_sm : service_member;
  count_ : Z;
  se_waiters : addr
}.

#[export] Program Instance semaphore_member : Member semaphore_impl := {|
  get_sm := se_sm;
  set_sm sm m := SemaphoreImpl sm (count_ m) (se_waiters m)
|}.
Solve All Obligations with by intros; destruct_all semaphore_impl.

Definition set_count (z : Z) (m : semaphore_impl) : semaphore_impl :=
  SemaphoreImpl (se_sm m) z (se_waiters m).

Section code.
Context {ASIO : Asio}.

Definition semaphore_impl_ctor {St} (this waiters svc : addr) (config : Z → Z) (initial_count hint : Z) :
    M St semaphore_impl :=
  sm ← service_member_ctor this svc config hint;
  bilist_node_ctor waiters;;
  mret (SemaphoreImpl sm initial_count waiters).

Definition add_waiter (waiter : addr) : M semaphore_impl unit :=
  m ← get_obj; link_before waiter (se_waiters m).

Definition count : M semaphore_impl Z := m ← get_obj; mret (count_ m).

Definition decrement : M semaphore_impl Z :=
  m ← get_obj;
  assert_ (bool_decide (count_ m > 0)%Z);;
  z ← int_ (count_ m - 1);
  modify_obj (set_count z);;
  mret z.

Definition release : M semaphore_impl unit := with_lock (
  m ← get_obj;
  z ← int_ (count_ m + 1);
  modify_obj (set_count z);;
  b ← is_empty (se_waiters m);
  if (b : bool) then mret tt
  else
    decrement;;
    nx ← read_next (se_waiters m);
    op_complete nx no_error).

Definition try_acquire : M semaphore_impl bool := with_lock (
  m ← get_obj;
  if bool_decide (count_ m > 0)%Z then
    z ← int_ (count_ m - 1);
    modify_obj (set_count z);;
    mret true
  else mret false).

Definition acquire (ec : addr) : M semaphore_impl sync_result :=
  m ← get_obj;
  if negb (enabled_ (get_mtx m)) then
    b ← try_acquire;
    if (b : bool) then mret Returned
    else assign_ec ec in_progress;; mret Returned
  else with_lock (
    op ← sync_op_ctor ec;
    add_waiter op;;
    m ← get_obj;
    if bool_decide (count_ m > 0)%Z then
      decrement;;
      unlink op;;
      sync_op_dtor op;;
      mret Returned
    else mret (Blocked op)).

(** [count() - static_cast<int>(waiters_.size())]. *)
Definition value : M semaphore_impl Z := with_lock (
  m ← get_obj;
  b ← is_empty (se_waiters m);
  if (b : bool) then count
  else
    c ← count;
    sz ← bilist_size (se_waiters m);
    int_ (c - int_of_u64 sz)).

Definition shutdown : M semaphore_impl unit :=
  w ← with_lock (m ← get_obj; holder_move_ctor (se_waiters m));
  holder_shutdown w;;
  holder_dtor w.

(** [semaphore_impl(semaphore_impl &&mi)]: the source keeps its count. *)
Definition semaphore_impl_move_ctor {St} (this waiters : addr) (mi : semaphore_impl) :
    M St (semaphore_impl * semaphore_impl) :=
  sm ← service_member_move_ctor this (se_sm mi);
  bilist_move_ctor waiters (se_waiters mi);;
  mret (SemaphoreImpl sm (count_ mi) waiters, mi).

(** [operator=(semaphore_impl &&lhs)]. *)
Definition semaphore_impl_move_assign (lhs : semaphore_impl) : M semaphore_impl unit := with_lock (
  modify_obj (set_count (count_ lhs));;
  m ← get_obj;
  holder_swap (se_waiters lhs) (se_waiters m)).

(** The implicit destructor: the members, then the base. *)
Definition semaphore_impl_dtor : M semaphore_impl unit :=
  m ← get_obj;
  holder_dtor (se_waiters m);;
  service_member_dtor.

(** [basic_semaphore::async_aquire_op::operator()]. *)
Definition async_acquire_with (dispatch : executor → handler → M semaphore_impl unit) (exec : executor) (h : handler) :
    M semaphore_impl unit :=
  let e := get_associated_executor h exec in
  with_lock (
    c ← count;
    if bool_decide (c > 0)%Z then
      decrement;;
      let ie := get_associated_immediate_executor h exec in
      dispatch ie h
    else
      model ← basic_op_model_construct e h;
      m ← get_obj;
      let slot := associated_slot h in
      (if is_connected slot then slot_assign slot (CancelHandler model (this_ (get_sm m))) else mret tt);;
      add_waiter model).
Definition async_acquire : executor → handler → M semaphore_impl unit := async_acquire_with net_dispatch.

(** The closure in slot [sl]; it captured the slot too, and tests it. *)
Definition async_acquire_cancel (sl : option positive) (c : cancel_handler) (type : bool) : M semaphore_impl unit :=
  if type then
    lock_captured (ch_impl c)
      (if negb (is_connected sl) then mret tt else op_complete (ch_model c) operation_aborted)
  else mret tt.

Definition semaphore_emit (n : positive) (type : bool) : M semaphore_impl unit :=
  w ← get_world;
  match slots w !! n with
  | Some c => async_acquire_cancel (Some n) c type
  | None => mret tt
  end.

(** The throwing [basic_semaphore::acquire()]. *)
Definition acquire_throwing : M semaphore_impl sync_result :=
  ec ← local_ec;
  r ← acquire ec;
  match r with
  | Returned => throw_if_failed ec;; mret Returned
  | Blocked op => mret (Blocked op)
  end.
End code.

(** ** Representation

    An operation waits only while no permit is left, and the counter is a
    non-negative [int]. *)

Section rep.
Context {ASIO : Asio}.
Implicit Types (L : gmap addr (list addr)) (m : semaphore_impl) (w : world) (q : list (addr * op)).

Record semaphore_rep L m w q : Prop := {
  sr_impl : impl_ok L m w q.*1;
  sr_queue : queue w L (se_waiters m) q;
  sr_count : (0 ≤ count_ m ≤ INT_MAX)%Z;
  sr_busy : q ≠ [] → count_ m = 0%Z
}.

Lemma count_entered m : count_ (entered m) = count_ m.
Proof. done. Qed.
Lemma se_waiters_entered m : se_waiters (entered m) = se_waiters m.
Proof. done. Qed.
Lemma leave_count m z : set_mtx (get_mtx m) (set_count z (entered m)) = set_count z m.
Proof. by destruct m as [[? ? []] ? ?]. Qed.
Lemma mtx_count m z : get_mtx (set_count z m) = get_mtx m.
Proof. done. Qed.
Lemma set_count_count m z z' : set_count z (set_count z' m) = set_count z m.
Proof. done. Qed.
Lemma set_count_id m : set_count (count_ m) m = m.
Proof. by destruct m. Qed.

(** A counter in range, for a semaphore nobody waits for. *)
Lemma semaphore_rep_count L m w z :
  semaphore_rep L m w [] → (0 ≤ z ≤ INT_MAX)%Z → semaphore_rep L (set_count z m) w [].
Proof. intros [Hi Hq _ _] ?. split; [by apply (impl_ok_member _ m)|done..]. Qed.

Lemma semaphore_rep_log L m w q e : semaphore_rep L m w q → semaphore_rep L m (log e w) q.
Proof. intros []. split; try done. by apply impl_ok_log. Qed.
Lemma semaphore_rep_ecs L m w q r ec : semaphore_rep L m w q → semaphore_rep L m (set_ecs <[r := ec]> w) q.
Proof. intros []. split; try done. by apply impl_ok_ecs. Qed.

Lemma rep_available L m w q : semaphore_rep L m w q → (count_ m > 0)%Z → q = [].
Proof. intros [_ _ _ Hb] Hc. destruct q; [done|]. specialize (Hb ltac:(done)). lia. Qed.

(** [decrement()] while a permit is left. *)
Lemma wp_decrement m w (Φ : res Z → machine semaphore_impl → Prop) :
  (0 < count_ m ≤ INT_MAX)%Z →
  Φ (Ok (count_ m - 1)%Z) (Machine (set_count (count_ m - 1) m) w) → wp decrement (Machine m w) Φ.
Proof.
  intros Hc HΦ. apply wp_bind, wp_get_obj. cbn [obj].
  apply wp_bind, wp_assert; [apply bool_decide_eq_true_2; lia|].
  apply wp_bind, wp_int; [unfold INT_MIN, INT_MAX in *; lia|].
  by apply wp_bind, wp_modify_obj, wp_ret.
Qed.

Lemma wp_try_acquire L m w q (Φ : res bool → machine semaphore_impl → Prop) :
  semaphore_rep L m w q →
  (if bool_decide (count_ m > 0)%Z then Φ (Ok true) (Machine (set_count (count_ m - 1) m) w)
   else Φ (Ok false) (Machine m w)) →
  wp try_acquire (Machine m w) Φ.
Proof.
  intros Hr HΦ. apply wp_critical; [apply Hr|].
  apply wp_bind, wp_get_obj. cbn [obj]. rewrite count_entered. case_bool_decide.
  - destruct Hr as [_ _ Hc _]. apply wp_bind, wp_int; [unfold INT_MIN, INT_MAX in *; lia|].
    apply wp_bind, wp_modify_obj, wp_ret. cbn [obj wld].
    rewrite mtx_count, get_mtx_entered, leave_count. done.
  - apply wp_ret. simpl. rewrite get_mtx_entered, leave_entered. done.
Qed.

(** [release()] hands the permit to the head of the line, or keeps it. *)
Lemma wp_release L m w q (Φ : res unit → machine semaphore_impl → Prop) :
  semaphore_rep L m w q → (count_ m < INT_MAX)%Z →
  match q with
  | [] => Φ (Ok tt) (Machine (set_count (count_ m + 1) m) w)
  | po :: q' => ∀ N', let w' := with_nodes N' (finish no_error w po) in
      semaphore_rep (<[se_waiters m := q'.*1]> L) m w' q' → Φ (Ok tt) (Machine m w')
  end →
  wp release (Machine m w) Φ.
Proof.
  intros Hr Hmax HΦ. pose proof Hr as [Hi Hq Hc Hb]. pose proof (io_world _ _ _ _ Hi) as Hw.
  apply wp_critical; [apply Hi|].
  apply wp_bind, wp_get_obj. cbn [obj]. rewrite se_waiters_entered, count_entered.
  apply wp_bind, wp_int; [unfold INT_MIN, INT_MAX in *; lia|].
  apply wp_bind, wp_modify_obj. cbn [obj wld].
  apply wp_bind. eapply wp_is_empty; [apply Hw|apply Hq|]. destruct q as [|[p o] q]; simpl.
  - apply wp_ret. cbn [obj wld]. rewrite mtx_count, get_mtx_entered, leave_count. done.
  - specialize (Hb ltac:(done)). apply wp_bind, wp_decrement; simpl; [lia|].
    rewrite set_count_count. replace (count_ m + 1 - 1)%Z with (count_ (entered m)) by (rewrite count_entered; lia).
    rewrite set_count_id.
    apply wp_bind. eapply wp_holder_first; [apply Hw|apply Hq|].
    eapply (wp_complete_queued m _ _ [] p o q _ _ _ _ q.*1); [done..|set_solver|].
    intros N' w' L' H1 H2 _. cbn [obj wld]. rewrite get_mtx_entered, leave_entered.
    split; [done|]. apply HΦ. by split.
Qed.

Lemma semaphore_rep_enqueued L m w q p o N' :
  semaphore_rep L m w q → count_ m = 0%Z → nodes w !! p = None →
  let w' := with_nodes N' (enqueued (this_ (get_sm m)) (p, o) w) in
  world_ok w' (<[se_waiters m := q.*1 ++ [p]]> L) →
  semaphore_rep (<[se_waiters m := q.*1 ++ [p]]> L) m w' (q ++ [(p, o)]).
Proof.
  intros [Hi Hq Hc Hb] Hz Hp w' Hok'. split; [|by apply queue_enqueued; [apply Hi|..]|done|done].
  eapply impl_ok_enqueued; [done..|]. rewrite fmap_app. set_solver.
Qed.

(** [acquire(ec)] with threads. *)
Lemma wp_acquire_mt L m w q ec (Φ : res sync_result → machine semaphore_impl → Prop) :
  semaphore_rep L m w q → is_Some (ecs w !! ec) → enabled_ (get_mtx m) = true →
  (if bool_decide (count_ m > 0)%Z then
     ∀ N', let m' := set_count (count_ m - 1) m in
       semaphore_rep L m' (with_nodes N' w) [] → Φ (Ok Returned) (Machine m' (with_nodes N' w))
   else ∀ p N', nodes w !! p = None →
     let po := (p, sync_op ec false) in
     let w' := with_nodes N' (enqueued (this_ (get_sm m)) po w) in
     semaphore_rep (<[se_waiters m := q.*1 ++ [p]]> L) m w' (q ++ [po]) →
     Φ (Ok (Blocked p)) (Machine m w')) →
  wp (acquire ec) (Machine m w) Φ.
Proof.
  intros Hr He Hen HΦ. pose proof Hr as [Hi Hq Hc Hb]. pose proof (io_world _ _ _ _ Hi) as Hw.
  apply wp_bind, wp_get_obj. cbn [obj]. rewrite Hen. simpl.
  apply wp_critical; [apply Hi|].
  apply wp_bind, wp_sync_op_ctor. intros p Hp.
  apply wp_bind, wp_bind, wp_get_obj. cbn [obj]. rewrite se_waiters_entered.
  eapply (wp_link_built (this_ (get_sm m)) p (sync_op ec false) _ w); [done|apply Hq|done|by split|done..|].
  intros N1 Hok1. apply wp_bind, wp_get_obj. cbn [obj]. rewrite count_entered.
  case_bool_decide as Hz.
  - pose proof (rep_available _ _ _ _ Hr Hz) as ->.
    apply wp_bind, wp_decrement; rewrite count_entered; [lia|].
    eapply wp_discard; [done|apply Hq|done..|]. intros N' HN'. apply wp_ret. cbn [obj wld].
    rewrite mtx_count, get_mtx_entered, leave_count. split; [done|].
    apply HΦ, semaphore_rep_count; [|unfold INT_MAX in *; lia].
    destruct Hi. split; [by split|by destruct Hq|done..].
  - apply wp_ret. cbn [obj wld]. rewrite get_mtx_entered, leave_entered. split; [done|].
    apply (HΦ p N1); [done|]. apply semaphore_rep_enqueued; [done|lia|done..].
Qed.

(** [acquire(ec)] without threads. *)
Lemma wp_acquire_st L m w q ec (Φ : res sync_result → machine semaphore_impl → Prop) :
  semaphore_rep L m w q → is_Some (ecs w !! ec) → enabled_ (get_mtx m) = false →
  (if bool_decide (count_ m > 0)%Z then Φ (Ok Returned) (Machine (set_count (count_ m - 1) m) w)
   else Φ (Ok Returned) (Machine m (set_ecs <[ec := in_progress]> w))) →
  wp (acquire ec) (Machine m w) Φ.
Proof.
  intros Hr He Hen HΦ. apply wp_bind, wp_get_obj. cbn [obj]. rewrite Hen. simpl.
  apply wp_bind. eapply wp_try_acquire; [done|]. case_bool_decide; [by apply wp_ret|].
  apply wp_bind, wp_assign_ec; [done|]. by apply wp_ret.
Qed.

(** [async_acquire]. *)
Lemma wp_async_acquire L m w q exec h (Φ : res unit → machine semaphore_impl → Prop) :
  semaphore_rep L m w q →
  ((count_ m > 0)%Z →
     Φ (Ok tt) (Machine (set_count (count_ m - 1) m)
       (log (ev_dispatch (get_associated_immediate_executor h exec) h no_error) w))) →
  (count_ m = 0%Z → allocate h (dom (nodes w)) = None → Φ (Exn bad_alloc) (Machine m w)) →
  (count_ m = 0%Z → ∀ p N', allocate h (dom (nodes w)) = Some p → nodes w !! p = None →
     let po := (p, basic_op_model (get_associated_executor h exec) h) in
     let w' := with_nodes N' (enqueued (this_ (get_sm m)) po w) in
     semaphore_rep (<[se_waiters m := q.*1 ++ [p]]> L) m w' (q ++ [po]) →
     Φ (Ok tt) (Machine m w')) →
  wp (async_acquire exec h) (Machine m w) Φ.
Proof.
  intros Hr Hnow Hfail Hwait. pose proof Hr as [Hi Hq Hc Hb]. pose proof (io_world _ _ _ _ Hi) as Hw.
  apply wp_critical; [apply Hi|]. apply wp_bind, wp_bind, wp_get_obj, wp_ret. cbn [obj]. rewrite count_entered.
  case_bool_decide as Hz.
  - apply wp_bind, wp_decrement; rewrite count_entered; [lia|]. apply wp_modify_world. cbn [obj wld].
    rewrite mtx_count, get_mtx_entered, leave_count. auto.
  - assert (count_ m = 0%Z) as H0 by lia. apply wp_bind, wp_basic_op_model_construct.
    + intros Ha. simpl. rewrite get_mtx_entered, leave_entered. auto.
    + intros p Ha Hp. apply wp_bind, wp_get_obj. cbn [obj].
      eapply (wp_arm_and_link (this_ (se_sm m)) p (basic_op_model _ h)); [done|apply Hq|done..|].
      intros N' Hok'. cbn [obj wld]. rewrite get_mtx_entered, leave_entered. split; [done|].
      apply Hwait; [done..|]. by apply semaphore_rep_enqueued.
Qed.

Lemma wp_semaphore_emit L m w q n type (Φ : res unit → machine semaphore_impl → Prop) :
  semaphore_rep L m w q → (∀ c, slots w !! n = Some c → ch_impl c = this_ (get_sm m)) →
  (type = false ∨ slots w !! n = None → Φ (Ok tt) (Machine m w)) →
  (type = true → ∀ q1 p o q2 N', q = q1 ++ (p, o) :: q2 → slots w !! n = Some (CancelHandler p (this_ (get_sm m))) →
     let w' := with_nodes N' (finish operation_aborted w (p, o)) in
     semaphore_rep (<[se_waiters m := (q1 ++ q2).*1]> L) m w' (q1 ++ q2) →
     Φ (Ok tt) (Machine m w')) →
  wp (semaphore_emit n type) (Machine m w) Φ.
Proof.
  intros Hr Hmine Hnone Hsome. pose proof Hr as [Hi Hq Hc Hb].
  apply wp_bind, wp_get_world. simpl. destruct (slots w !! n) as [[p i]|] eqn:Hn; [|apply wp_ret; auto].
  unfold async_acquire_cancel. destruct type; [|apply wp_ret; auto].
  specialize (Hmine _ eq_refl). simpl in Hmine. subst i.
  destruct (queue_split _ _ _ _ _ Hq (closure_member _ _ _ _ _ _ Hi Hn eq_refl)) as (q1 & o & q2 & -> & Hp).
  eapply (wp_lock_captured _ q1 o q2 _ _ _ _ _ (q1 ++ q2).*1); [done|done|done| |].
  - rewrite !fmap_app. set_solver.
  - intros N' w' L' H1 H2 _. eapply Hsome; [done..|]. split; [done..|]. intros _. apply Hb. by destruct q1.
Qed.

Lemma wp_semaphore_resume L m w q p ec d (Φ : res bool → machine semaphore_impl → Prop) :
  semaphore_rep L m w q → ops w !! p = Some (sync_op ec d) →
  (if d then ∀ N', let w' := with_nodes N' (set_ops (delete p) w) in
     semaphore_rep L m w' q → Φ (Ok true) (Machine m w')
   else Φ (Ok false) (Machine m w)) →
  wp (sync_wait p) (Machine m w) Φ.
Proof.
  intros [Hi Hq Hc Hb] Hp HΦ. eapply wp_sync_wait; [done..|]. destruct d; [|done].
  intros N' w' Hi' Hq'. apply HΦ. split; auto.
Qed.

Lemma wp_semaphore_shutdown L m w q (Φ : res unit → machine semaphore_impl → Prop) :
  semaphore_rep L m w q →
  (∀ N', let w' := with_nodes N' (abort_all q w) in
     semaphore_rep (<[se_waiters m := []]> L) m w' [] → Φ (Ok tt) (Machine m w')) →
  wp shutdown (Machine m w) Φ.
Proof.
  intros [Hi Hq Hc Hb] HΦ. eapply (wp_impl_shutdown se_waiters m w L q.*1 q); try done.
  intros N' w' H1 H2. apply HΦ. by split.
Qed.

(** [value()] is the count minus the length of the line, provided the line is
    not longer than an [int] can say. *)
Lemma wp_value L m w q (Φ : res Z → machine semaphore_impl → Prop) :
  semaphore_rep L m w q → (Z.of_nat (size (nodes w)) ≤ INT_MAX)%Z →
  Φ (Ok (count_ m - Z.of_nat (length q))%Z) (Machine m w) → wp value (Machine m w) Φ.
Proof.
  intros [Hi Hq Hc Hb] Hsz HΦ. pose proof (io_world _ _ _ _ Hi) as Hw.
  pose proof (queue_length_fuel _ _ _ _ Hw Hq) as Hlen.
  apply wp_critical; [apply Hi|]. apply wp_bind, wp_get_obj. cbn [obj]. rewrite se_waiters_entered.
  apply wp_bind. eapply wp_is_empty; [apply Hw|apply Hq|].
  destruct q as [|po q]; [rewrite bool_decide_eq_true_2 by done|rewrite bool_decide_eq_false_2 by done].
  - apply wp_bind, wp_get_obj, wp_ret. cbn [obj wld]. rewrite get_mtx_entered, leave_entered, count_entered.
    simpl in HΦ. by rewrite Z.sub_0_r in HΦ.
  - apply wp_bind, wp_bind, wp_get_obj, wp_ret. cbn [obj]. rewrite count_entered.
    apply wp_bind. eapply wp_bilist_size; [apply Hw|apply Hq|unfold INT_MAX in *; simpl; lia|].
    rewrite length_fmap, int_of_u64_small by lia.
    apply wp_int; [unfold INT_MIN, INT_MAX in *; lia|]. cbn [obj wld].
    rewrite get_mtx_entered, leave_entered. done.
Qed.
End rep.

(** ** Construction and destruction *)

Section life.
Context {ASIO : Asio}.
Implicit Types (L : gmap addr (list addr)) (w : world) (q : list (addr * op)).

Lemma wp_semaphore_impl_ctor {St} this waiters svc config initial_count hint (m : St) w L ms
    (Φ : res semaphore_impl → machine St → Prop) :
  world_ok w L → service_ok w L svc ms → nodes w !! this = None → nodes w !! waiters = None →
  this ≠ waiters → unreferenced w this → (0 ≤ initial_count ≤ INT_MAX)%Z →
  (∀ N', let w' := with_nodes N' w in let L' := <[waiters := []]> (<[svc := ms ++ [this]]> L) in
     let c := cem_ctor (negb (is_single_threaded config hint)) in
     let se := SemaphoreImpl (ServiceMember this (Some svc) c) initial_count waiters in
     semaphore_rep L' se w' [] → service_ok w' L' svc (ms ++ [this]) → Φ (Ok se) (Machine m w')) →
  wp (semaphore_impl_ctor this waiters svc config initial_count hint) (Machine m w) Φ.
Proof.
  intros Hok Hs Hthis Hwait Hne Hun Hinit HΦ. apply wp_bind.
  eapply wp_service_member_ctor; [done..|]. intros N1 w1 L1 Hok1 Hs1 Hdom.
  apply wp_bind. eapply (wp_new_root waiters this svc m w _ L L1 N1 ms); [done..|]. intros N2 w2 L2 Hok2 Hs2.
  apply wp_ret. apply (HΦ N2); [|done].
  split; [|split; [by rewrite lookup_insert_eq|done]|done|done].
  split; [done|done|]. by apply closures_unreferenced.
Qed.

(** The implicit destructor aborts every waiter and leaves the service. *)
Lemma wp_semaphore_impl_dtor L m w q svc xs ys (Φ : res unit → machine semaphore_impl → Prop) :
  semaphore_rep L m w q → service (get_sm m) = Some svc →
  service_ok w L svc (xs ++ this_ (get_sm m) :: ys) → svc ≠ se_waiters m →
  (∀ N', let w' := with_nodes N' (finish_all operation_aborted q w) in
     let L' := <[svc := xs ++ ys]> (delete (se_waiters m) L) in
     world_ok w' L' → service_ok w' L' svc (xs ++ ys) → Φ (Ok tt) (Machine m w')) →
  wp semaphore_impl_dtor (Machine m w) Φ.
Proof.
  intros [[Hok Hi Hc] Hq _ _] Hsvc Hs Hne HΦ. apply wp_bind, wp_get_obj. cbn [obj].
  eapply (wp_impl_dtor (se_waiters m)); done.
Qed.
End life.

(** ** Example semaphores *)

Definition demo_semaphore (threads : bool) : machine semaphore_impl :=
  match semaphore_impl_ctor 2 3 1 (demo_config threads) 1 (-1) (Machine tt (demo_world threads)) with
  | Some (Ok m, s) => Machine m (wld s)
  | _ => Machine (SemaphoreImpl (ServiceMember 2 None (cem_ctor false)) 0 3) (demo_world threads)
  end.
Definition demo_semaphore_lists : gmap addr (list addr) := <[3%positive := []]> (<[1%positive := [2%positive]]> demo_lists).

Lemma demo_semaphore_rep b :
  semaphore_rep demo_semaphore_lists (obj (demo_semaphore b)) (wld (demo_semaphore b)) [] ∧
  service_ok (wld (demo_semaphore b)) demo_semaphore_lists 1 [2%positive].
Proof.
  destruct (demo_world_ok b) as [Hok Hs].
  assert (wp (semaphore_impl_ctor 2 3 1 (demo_config b) 1 (-1)) (Machine tt (demo_world b)) (λ r s,
    match r with
    | Ok m => semaphore_rep demo_semaphore_lists m (wld s) [] ∧ service_ok (wld s) demo_semaphore_lists 1 [2%positive]
    | Exn _ => False end)) as H.
  { eapply wp_semaphore_impl_ctor; [exact Hok|exact Hs|by destruct b..|done| |done|].
    - intros n c. by destruct b.
    - intros N' w' L' c se H1 H2. done. }
  unfold demo_semaphore. unfold wp in H. destruct (semaphore_impl_ctor _ _ _ _ _ _ _) as [[[m|] s]|]; done.
Qed.

(** The permit is gone; handlers 4 and 6 wait for it. *)
Definition demo_taken (threads : bool) : machine semaphore_impl :=
  let s := demo_semaphore threads in Machine (set_count 0 (obj s)) (wld s).
Definition demo_sem_waiting1 (threads : bool) : machine semaphore_impl :=
  after (async_acquire 0 4 (demo_taken threads)) (demo_taken threads).
Definition demo_sem_waiting2 (threads : bool) : machine semaphore_impl :=
  after (async_acquire 0 6 (demo_sem_waiting1 threads)) (demo_sem_waiting1 threads).

Lemma demo_taken_rep b : semaphore_rep demo_semaphore_lists (obj (demo_taken b)) (wld (demo_taken b)) [].
Proof. apply semaphore_rep_count; [apply demo_semaphore_rep|done]. Qed.

Lemma demo_async_acquire L s q (h : nat) p :
  semaphore_rep L (obj s) (wld s) q → count_ (obj s) = 0%Z → h ≠ 13 → fresh (dom (nodes (wld s))) = p →
  semaphore_rep (<[se_waiters (obj s) := q.*1 ++ [p]]> L) (obj s)
    (wld (after (async_acquire 0 h s) s)) (q ++ [(p, basic_op_model (get_associated_executor h 0) h)]) ∧
  obj (after (async_acquire 0 h s) s) = obj s.
Proof.
  intros Hr Hl H13 Hp. destruct s as [m w]. apply wp_after. simpl in *.
  eapply wp_async_acquire; [done|lia|intros _ Ha; simpl in Ha; by rewrite (proj2 (Nat.eqb_neq h 13) H13) in Ha|].
  intros _ p' N' Ha Hfr po w' Hr'. simpl in Ha. rewrite (proj2 (Nat.eqb_neq h 13) H13) in Ha.
  simplify_eq. done.
Qed.

Lemma demo_sem_waiting1_rep b :
  semaphore_rep (<[3%positive := [4%positive]]> demo_semaphore_lists) (obj (demo_sem_waiting1 b))
    (wld (demo_sem_waiting1 b)) [(4%positive, basic_op_model 4 4)] ∧ obj (demo_sem_waiting1 b) = obj (demo_taken b).
Proof.
  destruct (demo_async_acquire _ (demo_taken b) [] 4 4 (demo_taken_rep b)) as [H1 H2];
    [done|done|by destruct b; vm_compute|].
  unfold demo_sem_waiting1. rewrite H2 at 1. split; [|exact H2].
  replace 3%positive with (se_waiters (obj (demo_taken b))) by by destruct b. exact H1.
Qed.

Lemma demo_sem_waiting2_rep b :
  semaphore_rep (<[3%positive := [4%positive; 5%positive]]> demo_semaphore_lists) (obj (demo_sem_waiting2 b))
    (wld (demo_sem_waiting2 b)) [(4%positive, basic_op_model 4 4); (5%positive, basic_op_model 6 6)] ∧
  obj (demo_sem_waiting2 b) = obj (demo_taken b).
Proof.
  destruct (demo_sem_waiting1_rep b) as [Hr Ho].
  destruct (demo_async_acquire _ (demo_sem_waiting1 b) _ 6 5 Hr) as [H1 H2];
    [by rewrite Ho|done|by destruct b; vm_compute|].
  unfold demo_sem_waiting2. rewrite H2 at 1. split; [|by rewrite H2].
  replace (<[3%positive := [4%positive; 5%positive]]> demo_semaphore_lists)
    with (<[se_waiters (obj (demo_sem_waiting1 b)) := [4%positive; 5%positive]]>
      (<[3%positive := [4%positive]]> demo_semaphore_lists));
    [exact H1|]. rewrite Ho. destruct b; apply insert_insert_eq.
Qed.
