(* ===== verification/SemaphoreSpec.v ===== *)
(** * The semaphore: abstract specification, refinement and properties

    [semaphore_step] is the abstract semaphore: a number of permits and a line
    of operations. [semaphore_refines] shows that every call of
    [detail::semaphore_impl] and [basic_semaphore] is one of its steps;
    [semaphore_run] counts permits over arbitrary interleavings of calls. *)
From S2P Require Import Prelude Machine Bilist Ops Service Impl Semaphore.

(** ** Commands *)

Section commands.
Context {ASIO : Asio}.

Inductive semaphore_cmd :=
  | sem_declare_ec
  | sem_try_acquire
  | sem_acquire (ec : addr)
  | sem_release
  | sem_value
  | sem_async_acquire (exec : executor) (h : handler)
  | sem_emit (n : positive) (type : bool)
  | sem_resume (p : addr)
  | sem_shutdown.

Definition semaphore_exec (c : semaphore_cmd) : M semaphore_impl reply :=
  match c with
  | sem_declare_ec => r ← local_ec; mret (r_addr r)
  | sem_try_acquire => b ← try_acquire; mret (r_bool b)
  | sem_acquire ec => r ← acquire ec; mret (r_sync r)
  | sem_release => release;; mret r_unit
  | sem_value => z ← value; mret (r_int z)
  | sem_async_acquire exec h => async_acquire exec h;; mret r_unit
  | sem_emit n type => semaphore_emit n type;; mret r_unit
  | sem_resume p => b ← sync_wait p; mret (r_bool b)
  | sem_shutdown => shutdown;; mret r_unit
  end.

(** What a call relies on. A [release] must not overflow the [int] counter, and
    [value] needs a memory whose lists an [int] can count. *)
Definition semaphore_pre (c : semaphore_cmd) (s : machine semaphore_impl) : Prop :=
  match c with
  | sem_acquire ec => is_Some (ecs (wld s) !! ec)
  | sem_release => (count_ (obj s) < INT_MAX)%Z
  | sem_value => (Z.of_nat (size (nodes (wld s))) ≤ INT_MAX)%Z
  | sem_emit n _ => ∀ c, slots (wld s) !! n = Some c → ch_impl c = this_ (get_sm (obj s))
  | sem_resume p => ∃ ec d, ops (wld s) !! p = Some (sync_op ec d)
  | _ => True
  end.

(** ** The abstract semaphore *)

Record semaphore_spec := SemaphoreSpec { permits : Z; sem_line : list (addr * op) }.

Inductive semaphore_step (enabled : bool) (impl : addr) :
    semaphore_spec → world → semaphore_cmd → res reply → semaphore_spec → world → Prop :=
  | ss_declare_ec sp w r : ecs w !! r = None →
      semaphore_step enabled impl sp w sem_declare_ec (Ok (r_addr r)) sp (set_ecs <[r := no_error]> w)
  | ss_try_taken z w : (z > 0)%Z →
      semaphore_step enabled impl (SemaphoreSpec z []) w sem_try_acquire (Ok (r_bool true))
        (SemaphoreSpec (z - 1) []) w
  | ss_try_none q w :
      semaphore_step enabled impl (SemaphoreSpec 0 q) w sem_try_acquire (Ok (r_bool false)) (SemaphoreSpec 0 q) w
  | ss_acquire_taken ec z w : (z > 0)%Z →
      semaphore_step enabled impl (SemaphoreSpec z []) w (sem_acquire ec) (Ok (r_sync Returned))
        (SemaphoreSpec (z - 1) []) w
  | ss_acquire_error ec q w : enabled = false →
      semaphore_step enabled impl (SemaphoreSpec 0 q) w (sem_acquire ec) (Ok (r_sync Returned))
        (SemaphoreSpec 0 q) (set_ecs <[ec := in_progress]> w)
  | ss_acquire_wait ec q w p : enabled = true → ops w !! p = None →
      semaphore_step enabled impl (SemaphoreSpec 0 q) w (sem_acquire ec) (Ok (r_sync (Blocked p)))
        (SemaphoreSpec 0 (q ++ [(p, sync_op ec false)])) (enqueued impl (p, sync_op ec false) w)
  | ss_release_kept z w :
      semaphore_step enabled impl (SemaphoreSpec z []) w sem_release (Ok r_unit) (SemaphoreSpec (z + 1) []) w
  | ss_release_next po q w :
      semaphore_step enabled impl (SemaphoreSpec 0 (po :: q)) w sem_release (Ok r_unit)
        (SemaphoreSpec 0 q) (finish no_error w po)
  | ss_value z q w :
      semaphore_step enabled impl (SemaphoreSpec z q) w sem_value (Ok (r_int (z - Z.of_nat (length q))))
        (SemaphoreSpec z q) w
  | ss_async_taken exec h z w : (z > 0)%Z →
      semaphore_step enabled impl (SemaphoreSpec z []) w (sem_async_acquire exec h) (Ok r_unit)
        (SemaphoreSpec (z - 1) []) (log (ev_dispatch (get_associated_immediate_executor h exec) h no_error) w)
  | ss_async_fail exec h q w X : allocate h X = None →
      semaphore_step enabled impl (SemaphoreSpec 0 q) w (sem_async_acquire exec h) (Exn bad_alloc)
        (SemaphoreSpec 0 q) w
  | ss_async_wait exec h q w p : ops w !! p = None →
      let po := (p, basic_op_model (get_associated_executor h exec) h) in
      semaphore_step enabled impl (SemaphoreSpec 0 q) w (sem_async_acquire exec h) (Ok r_unit)
        (SemaphoreSpec 0 (q ++ [po])) (enqueued impl po w)
  | ss_emit_nothing n type sp w : type = false ∨ slots w !! n = None →
      semaphore_step enabled impl sp w (sem_emit n type) (Ok r_unit) sp w
  | ss_emit_abort n q1 p o q2 w : slots w !! n = Some (CancelHandler p impl) →
      semaphore_step enabled impl (SemaphoreSpec 0 (q1 ++ (p, o) :: q2)) w (sem_emit n true) (Ok r_unit)
        (SemaphoreSpec 0 (q1 ++ q2)) (finish operation_aborted w (p, o))
  | ss_resume_asleep p ec sp w : ops w !! p = Some (sync_op ec false) →
      semaphore_step enabled impl sp w (sem_resume p) (Ok (r_bool false)) sp w
  | ss_resume_done p ec sp w : ops w !! p = Some (sync_op ec true) →
      semaphore_step enabled impl sp w (sem_resume p) (Ok (r_bool true)) sp (set_ops (delete p) w)
  | ss_shutdown z q w :
      semaphore_step enabled impl (SemaphoreSpec z q) w sem_shutdown (Ok r_unit) (SemaphoreSpec z []) (abort_all q w).

Definition semaphore_implements (L : gmap addr (list addr)) (s : machine semaphore_impl) (sp : semaphore_spec) : Prop :=
  semaphore_rep L (obj s) (wld s) (sem_line sp) ∧ count_ (obj s) = permits sp.
End commands.

(** ** Refinement *)

Section refinement.
Context {ASIO : Asio}.
Implicit Types (L : gmap addr (list addr)) (m : semaphore_impl) (w : world) (q : list (addr * op)).
Implicit Types (s : machine semaphore_impl) (sp : semaphore_spec).

Definition semaphore_roots m : list addr := [se_waiters m].

Definition sem_refined L s sp (c : semaphore_cmd) (r : res reply) s' : Prop :=
  ∃ L' sp' w', semaphore_step (enabled_ (get_mtx (obj s))) (this_ (get_sm (obj s))) sp (wld s) c r sp' w' ∧
    same_but_nodes (wld s') w' ∧ semaphore_implements L' s' sp' ∧ local semaphore_roots L (obj s) L' (obj s').

Lemma sem_refined_intro L' sp' w' L s sp c r s' :
  semaphore_step (enabled_ (get_mtx (obj s))) (this_ (get_sm (obj s))) sp (wld s) c r sp' w' →
  same_but_nodes (wld s') w' → semaphore_rep L' (obj s') (wld s') (sem_line sp') → count_ (obj s') = permits sp' →
  same_member (obj s) (obj s') → semaphore_roots (obj s') = semaphore_roots (obj s) →
  same_lists [se_waiters (obj s)] L L' → sem_refined L s sp c r s'.
Proof. intros. by exists L', sp', w'. Qed.

(** [acquire(ec)], with threads and without. *)
Lemma semaphore_acquire_refines L m w q ec :
  semaphore_rep L m w q → is_Some (ecs w !! ec) →
  wp (semaphore_exec (sem_acquire ec)) (Machine m w)
    (sem_refined L (Machine m w) (SemaphoreSpec (count_ m) q) (sem_acquire ec)).
Proof.
  intros Hr Hpre. simpl. pose proof (sr_count _ _ _ _ Hr) as Hc.
  assert (¬ (count_ m > 0)%Z → count_ m = 0%Z) as Hz by lia. apply wp_bind. destruct (enabled_ (get_mtx m)) eqn:Hen.
  - eapply wp_acquire_mt; [done..|]. case_bool_decide as Hp.
    + intros N' m' Hr'. pose proof (rep_available _ _ _ _ Hr Hp) as ->. apply wp_ret.
      eapply sem_refined_intro; [by apply ss_acquire_taken|apply same_with_nodes|done..].
    + intros p N' Hfr po w' Hr'. rewrite (Hz Hp) at 1. apply wp_ret.
      eapply sem_refined_intro; [apply ss_acquire_wait; [done|]|apply same_with_nodes|done|by apply Hz|done..].
      eapply fresh_op; [apply Hr|done].
  - eapply wp_acquire_st; [done..|]. case_bool_decide as Hp; apply wp_ret.
    + pose proof (rep_available _ _ _ _ Hr Hp) as ->.
      eapply (sem_refined_intro L); [by apply ss_acquire_taken|reflexivity|apply semaphore_rep_count; [done|lia]|done..].
    + rewrite (Hz Hp) at 1.
      eapply (sem_refined_intro L); [by apply ss_acquire_error|reflexivity|by apply semaphore_rep_ecs|by apply Hz|done..].
Qed.

Lemma semaphore_exec_refines c L s sp :
  semaphore_implements L s sp → semaphore_pre c s → wp (semaphore_exec c) s (sem_refined L s sp c).
Proof.
  destruct s as [m w], sp as [z q]. intros [Hr Hb] Hpre. simpl in *. subst z.
  pose proof (sr_count _ _ _ _ Hr) as Hc.
  assert (¬ (count_ m > 0)%Z → count_ m = 0%Z) as Hz by lia.
  destruct c as [| |ec| | |exec h|n type|p|]; try (by apply semaphore_acquire_refines); simpl in *; apply wp_bind.
  - eapply wp_local_ec; [apply Hr|]. intros r Hfr w' Hi Hq. apply wp_ret.
    eapply (sem_refined_intro L); [by apply ss_declare_ec|reflexivity| |done..].
    destruct Hr as [? ? ? ?]. split; [done|by apply Hq|done..].
  - eapply wp_try_acquire; [done|]. case_bool_decide as Hp; apply wp_ret.
    + pose proof (rep_available _ _ _ _ Hr Hp) as ->.
      eapply (sem_refined_intro L); [by apply ss_try_taken|reflexivity|apply semaphore_rep_count; [done|lia]|done..].
    + rewrite (Hz Hp) at 1. eapply (sem_refined_intro L); [apply ss_try_none|reflexivity|done|by apply Hz|done..].
  - eapply wp_release; [done..|]. destruct q as [|po q].
    + apply wp_ret. eapply (sem_refined_intro L); [apply ss_release_kept|reflexivity| |done..].
      apply semaphore_rep_count; [done|lia].
    + intros N' w' Hr'. apply wp_ret.
      assert (count_ m = 0%Z) as H0 by (by apply Hr). rewrite H0.
      eapply sem_refined_intro; [apply ss_release_next|apply same_with_nodes|done..].
  - eapply wp_value; [done..|]. apply wp_ret.
    eapply (sem_refined_intro L); [apply ss_value|reflexivity|done..].
  - eapply wp_async_acquire; [done|..].
    + intros Hp. pose proof (rep_available _ _ _ _ Hr Hp) as ->. apply wp_ret.
      eapply (sem_refined_intro L); [by apply ss_async_taken|reflexivity| |done..].
      by apply semaphore_rep_count; [apply semaphore_rep_log|lia].
    + intros Hp Ha. rewrite Hp at 1. eapply (sem_refined_intro L); [by eapply ss_async_fail|reflexivity|done..].
    + intros H0 p N' Ha Hp po w' Hr'. rewrite H0 at 1. apply wp_ret.
      eapply sem_refined_intro; [apply ss_async_wait|apply same_with_nodes|done..].
      eapply fresh_op; [apply Hr|done].
  - eapply wp_semaphore_emit; [done..| |].
    + intros Hn. apply wp_ret. eapply (sem_refined_intro L); [by apply ss_emit_nothing|reflexivity|done..].
    + intros -> q1 p o q2 N' -> Hn w' Hr'. apply wp_ret.
      assert (count_ m = 0%Z) as H0 by (apply Hr; by destruct q1). rewrite H0 at 1.
      eapply sem_refined_intro; [by apply ss_emit_abort|apply same_with_nodes|done..].
  - destruct Hpre as (ec & d & Hp). eapply wp_semaphore_resume; [done..|]. destruct d.
    + intros N' w' Hr'. apply wp_ret.
      eapply sem_refined_intro; [by eapply ss_resume_done|apply same_with_nodes|done..].
    + apply wp_ret. eapply (sem_refined_intro L); [by eapply ss_resume_asleep|reflexivity|done..].
  - eapply wp_semaphore_shutdown; [done|]. intros N' w' Hr'. apply wp_ret.
    eapply sem_refined_intro; [apply ss_shutdown|apply same_with_nodes|done..].
Qed.
End refinement.

(** ** Runs *)

Section runs.
Context {ASIO : Asio}.
Implicit Types (L : gmap addr (list addr)) (m : semaphore_impl) (w : world) (q : list (addr * op)).
Implicit Types (s : machine semaphore_impl) (sp : semaphore_spec).

(** How many callers a call hands a permit to. *)
Definition permits_granted s (c : semaphore_cmd) (r : res reply) s' : nat :=
  match c, r with
  | sem_try_acquire, Ok (r_bool true) => 1
  | sem_acquire ec, Ok (r_sync Returned) =>
      if bool_decide (ecs (wld s') !! ec = Some no_error) then 1 else 0
  | sem_release, _ | sem_async_acquire _ _, _ => granted (events_since (wld s) (wld s'))
  | _, _ => 0
  end.
Definition permits_released (c : semaphore_cmd) : nat := match c with sem_release => 1 | _ => 0 end.

(** Clients pass [acquire] a clear [error_code]. *)
Definition semaphore_client (c : semaphore_cmd) s : Prop :=
  semaphore_pre c s ∧ match c with sem_acquire ec => ecs (wld s) !! ec = Some no_error | _ => True end.

(** Any interleaving of calls; the indices count the permits handed out and
    given back. *)
Inductive semaphore_run s0 : nat → nat → machine semaphore_impl → Prop :=
  | sem_run_start : semaphore_run s0 0 0 s0
  | sem_run_call g f s c r s' : semaphore_run s0 g f s → semaphore_client c s →
      semaphore_exec c s = Some (r, s') →
      semaphore_run s0 (g + permits_granted s c r s') (f + permits_released c) s'.

Lemma step_permits L s sp c r s' :
  sem_refined L s sp c r s' → semaphore_client c s →
  ∃ L' sp', semaphore_implements L' s' sp' ∧
    (permits sp' + Z.of_nat (permits_granted s c r s') = permits sp + Z.of_nat (permits_released c))%Z.
Proof.
  intros (L' & sp' & w' & Hstep & Hsame & Himp & _) [_ Hcl]. exists L', sp'. split; [done|].
  apply trace_same in Hsame as Htr. apply ecs_same in Hsame as Hec. clear Hsame Himp.
  destruct s as [m w0], s' as [m' w1]. unfold permits_granted. cbn [wld obj] in *.
  destruct Hstep; simpl in *; try lia.
  - rewrite Hec. rewrite bool_decide_eq_true_2 by done. lia.
  - rewrite Hec. simpl. by rewrite lookup_insert_eq, bool_decide_eq_false_2.
  - rewrite (events_since_same _ _ Htr). unfold granted. simpl. lia.
  - rewrite trace_finish in Htr. by rewrite (events_since_app _ _ _ Htr), granted_completion.
  - rewrite (events_since_app _ _ _ Htr). unfold granted. simpl. lia.
  - by rewrite (events_since_same _ _ Htr).
  - by rewrite (events_since_same _ _ Htr).
Qed.

Lemma sem_run_invariant L m w g f s :
  semaphore_rep L m w [] → semaphore_run (Machine m w) g f s →
  ∃ L' sp, semaphore_implements L' s sp ∧ (permits sp + Z.of_nat g = count_ m + Z.of_nat f)%Z.
Proof.
  intros Hr. induction 1 as [|g f s c r s' _ (L' & sp & Himp & E) Hcl Hex].
  - exists L, (SemaphoreSpec (count_ m) []). by repeat split; try apply Hr.
  - pose proof (semaphore_exec_refines _ _ _ _ Himp (proj1 Hcl)) as Hwp.
    unfold wp in Hwp. rewrite Hex in Hwp.
    destruct (step_permits _ _ _ _ _ _ Hwp Hcl) as (L2 & sp' & Himp' & E'). exists L2, sp'. split; [done|]. lia.
Qed.

(** [k] calls of [release]. *)
Fixpoint release_times (k : nat) : M semaphore_impl unit :=
  match k with
  | O => mret tt
  | S k => release;; release_times k
  end.

Lemma wp_release_times L m w q k :
  semaphore_rep L m w q → k ≤ length q →
  wp (release_times k) (Machine m w) (λ r s', r = Ok tt ∧ obj s' = m ∧
    same_but_nodes (wld s') (finish_all no_error (take k q) w) ∧
    ∃ L', semaphore_rep L' m (wld s') (drop k q)).
Proof.
  revert L w q. induction k as [|k IH]; intros L w q Hr Hk; simpl.
  - apply wp_ret. split_and!; [done..|]. by exists L.
  - destruct q as [|po q]; simpl in *; [lia|]. apply wp_bind. eapply wp_release; [done| |].
    { rewrite (sr_busy _ _ _ _ Hr) by done. done. }
    intros N' w' Hr'. eapply wp_mono; [apply (IH _ w' q Hr'); lia|].
    intros r s' (-> & E & Hs & HL). split_and!; [done..| |done].
    etransitivity; [exact Hs|]. exists N'. unfold w'. by rewrite finish_all_with_nodes.
Qed.
End runs.

(** ** Properties *)

Section properties.
Context {ASIO : Asio}.
Implicit Types (L : gmap addr (list addr)) (m : semaphore_impl) (w : world) (q : list (addr * op)).
Implicit Types (s : machine semaphore_impl) (sp : semaphore_spec).

(** C6: permits are conserved. After any interleaving of calls in which the
    [error_code] that [acquire] gets is clear and [release] does not overflow,
    the permits handed out and the permits left add up to the initial count and
    the permits given back; the counter never goes below zero, and while anybody
    waits it is zero. *)
Theorem semaphore_conservation L m w g f s :
  semaphore_rep L m w [] → semaphore_run (Machine m w) g f s →
  (Z.of_nat g + count_ (obj s) = count_ m + Z.of_nat f)%Z ∧ (0 ≤ count_ (obj s))%Z ∧
  ∃ L' q, semaphore_rep L' (obj s) (wld s) q ∧ (q ≠ [] → count_ (obj s) = 0%Z).
Proof.
  intros Hr Hrun. destruct (sem_run_invariant _ _ _ _ _ _ Hr Hrun) as (L' & sp & [Hr' E'] & E).
  split_and!; [lia|apply Hr'|]. exists L', (sem_line sp). split; [done|apply Hr'].
Qed.

(** No call on a semaphore is ever stuck, as long as [release] does not
    take the counter past [INT_MAX]. *)
Theorem semaphore_never_stuck L m w g f s c :
  semaphore_rep L m w [] → semaphore_run (Machine m w) g f s → semaphore_pre c s →
  ∃ r s', semaphore_exec c s = Some (r, s').
Proof.
  intros Hr Hrun Hpre. destruct (sem_run_invariant _ _ _ _ _ _ Hr Hrun) as (L' & sp & Himp & _).
  pose proof (semaphore_exec_refines _ _ _ _ Himp Hpre) as (r & s' & Hex & _)%wp_run. by exists r, s'.
Qed.

(** C25: refinement of the abstract semaphore. *)
Theorem semaphore_refines L s sp c :
  semaphore_implements L s sp → semaphore_pre c s →
  wp (semaphore_exec c) s (λ r s', ∃ L' sp' w',
    semaphore_step (enabled_ (get_mtx (obj s))) (this_ (get_sm (obj s))) sp (wld s) c r sp' w' ∧
    same_but_nodes (wld s') w' ∧ semaphore_implements L' s' sp').
Proof.
  intros. eapply wp_mono; [by apply (semaphore_exec_refines c L s sp)|].
  intros r s' (L' & sp' & w' & H1 & H2 & H3 & _). by exists L', sp', w'.
Qed.

(** C38: a [release] beyond [INT_MAX] is a signed overflow: it is undefined
    exactly when the counter holds [INT_MAX]. *)
Theorem semaphore_release_overflow L m w q :
  semaphore_rep L m w q → (release (Machine m w) = None ↔ count_ m = INT_MAX).
Proof.
  intros Hr. pose proof (sr_count _ _ _ _ Hr) as Hc. split.
  - intros Hn. destruct (decide (count_ m = INT_MAX)) as [|Hne]; [done|exfalso].
    assert (wp release (Machine m w) (λ _ _, True)) as H.
    { eapply wp_release; [done|lia|]. by destruct q. }
    unfold wp in H. by rewrite Hn in H.
  - intros E. unfold release, with_lock, lock_mtx. unfold mbind, M_bind at 1. simpl.
    rewrite cem_lock_idle by apply Hr. simpl.
    unfold mbind, M_bind. simpl. unfold set_mtx. simpl. rewrite E.
    unfold int_. rewrite bool_decide_eq_false_2; [done|]. unfold INT_MIN, INT_MAX. lia.
Qed.

(** [value()] answers the permits minus the waiting operations, negative
    when somebody waits, and changes nothing. *)
Theorem semaphore_value_spec L m w q :
  semaphore_rep L m w q → (Z.of_nat (size (nodes w)) ≤ INT_MAX)%Z →
  value (Machine m w) = Some (Ok (count_ m - Z.of_nat (length q))%Z, Machine m w) ∧
  (q ≠ [] → (count_ m - Z.of_nat (length q) < 0)%Z).
Proof.
  intros Hr Hsz. split.
  - assert (wp value (Machine m w) (λ r s, r = Ok (count_ m - Z.of_nat (length q))%Z ∧ s = Machine m w))
      as (r & s & -> & -> & ->)%wp_run; [|done]. by eapply wp_value.
  - intros Hq. rewrite (sr_busy _ _ _ _ Hr Hq). destruct q; [done|]. simpl. lia.
Qed.

(** Released permits go to the operations that have waited longest, in
    the order they came, before anybody else can take one. *)
Theorem semaphore_fifo L m w q k :
  semaphore_rep L m w q → 0 < k ≤ length q →
  wp (release_times k) (Machine m w) (λ r s', r = Ok tt ∧ count_ (obj s') = 0%Z ∧
    events_since w (wld s') = (take k q ≫= completion no_error) ∧
    ∃ L', semaphore_rep L' (obj s') (wld s') (drop k q)).
Proof.
  intros Hr Hk. eapply wp_mono; [apply (wp_release_times L m w q k Hr); lia|].
  intros r s' (-> & -> & Hs & HL). split_and!; [done|apply Hr; intros ->; simpl in *; lia| |done].
  apply events_since_app. rewrite (trace_same _ _ Hs). apply trace_finish_all.
Qed.
End properties.

(** ** The properties at work *)

Section witnesses.

Lemma demo_sem_run :
  semaphore_run (Machine (obj (demo_semaphore true)) (wld (demo_semaphore true))) 1 0 (demo_taken true).
Proof.
  eapply (sem_run_call _ 0 0 _ sem_try_acquire (Ok (r_bool true)) (demo_taken true));
    [apply sem_run_start|by split|]. vm_compute. reflexivity.
Qed.

Lemma semaphore_conservation_witness :
  (Z.of_nat 1 + count_ (obj (demo_taken true)) = count_ (obj (demo_semaphore true)) + Z.of_nat 0)%Z ∧
  (0 ≤ count_ (obj (demo_taken true)))%Z ∧
  ∃ L' q, semaphore_rep L' (obj (demo_taken true)) (wld (demo_taken true)) q ∧
    (q ≠ [] → count_ (obj (demo_taken true)) = 0%Z).
Proof.
  apply (semaphore_conservation demo_semaphore_lists (obj (demo_semaphore true)) (wld (demo_semaphore true))).
  - apply demo_semaphore_rep.
  - exact demo_sem_run.
Defined.

Lemma semaphore_never_stuck_witness : ∃ r s', semaphore_exec sem_release (demo_taken true) = Some (r, s').
Proof.
  apply (semaphore_never_stuck demo_semaphore_lists (obj (demo_semaphore true)) (wld (demo_semaphore true)) 1 0).
  - apply demo_semaphore_rep.
  - exact demo_sem_run.
  - vm_compute. reflexivity.
Defined.

Lemma semaphore_refines_witness :
  wp (semaphore_exec sem_value) (demo_sem_waiting2 true) (λ r s', ∃ L' sp' w',
    semaphore_step true 2
      (SemaphoreSpec 0 [(4%positive, @basic_op_model test_asio 4 4); (5%positive, @basic_op_model test_asio 6 6)])
      (wld (demo_sem_waiting2 true)) sem_value r sp' w' ∧
    same_but_nodes (wld s') w' ∧ semaphore_implements L' s' sp').
Proof.
  apply (semaphore_refines (<[3%positive := [4%positive; 5%positive]]> demo_semaphore_lists) (demo_sem_waiting2 true)).
  - split; [apply demo_sem_waiting2_rep|vm_compute; reflexivity].
  - vm_compute. discriminate.
Defined.

Lemma semaphore_release_overflow_witness :
  release (Machine (set_count INT_MAX (obj (demo_semaphore true))) (wld (demo_semaphore true))) = None ↔
  INT_MAX = INT_MAX.
Proof.
  apply (semaphore_release_overflow demo_semaphore_lists (set_count INT_MAX (obj (demo_semaphore true)))
    (wld (demo_semaphore true)) []).
  apply semaphore_rep_count; [apply demo_semaphore_rep|done].
Defined.

Lemma semaphore_value_spec_witness :
  value (Machine (obj (demo_sem_waiting2 true)) (wld (demo_sem_waiting2 true))) =
    Some (Ok (count_ (obj (demo_sem_waiting2 true)) - 2)%Z,
      Machine (obj (demo_sem_waiting2 true)) (wld (demo_sem_waiting2 true))) ∧
  ([(4%positive, @basic_op_model test_asio 4 4); (5%positive, @basic_op_model test_asio 6 6)] ≠ [] →
   (count_ (obj (demo_sem_waiting2 true)) - 2 < 0)%Z).
Proof.
  apply (semaphore_value_spec (<[3%positive := [4%positive; 5%positive]]> demo_semaphore_lists)
    (obj (demo_sem_waiting2 true)) (wld (demo_sem_waiting2 true))
    [(4%positive, @basic_op_model test_asio 4 4); (5%positive, @basic_op_model test_asio 6 6)]).
  - apply demo_sem_waiting2_rep.
  - vm_compute. discriminate.
Defined.

Lemma semaphore_fifo_witness :
  wp (release_times 1) (Machine (obj (demo_sem_waiting2 true)) (wld (demo_sem_waiting2 true))) (λ r s',
    r = Ok tt ∧ count_ (obj s') = 0%Z ∧
    events_since (wld (demo_sem_waiting2 true)) (wld s') =
      [@ev_deallocate test_asio 4; @ev_post test_asio 4 4 no_error] ∧
    ∃ L', semaphore_rep L' (obj s') (wld s') [(5%positive, @basic_op_model test_asio 6 6)]).
Proof.
  apply (semaphore_fifo (<[3%positive := [4%positive; 5%positive]]> demo_semaphore_lists)
    (obj (demo_sem_waiting2 true)) (wld (demo_sem_waiting2 true))
    [(4%positive, @basic_op_model test_asio 4 4); (5%positive, @basic_op_model test_asio 6 6)] 1).
  - apply demo_sem_waiting2_rep.
  - simpl. lia.
Defined.
End witnesses.
