(* ===== verification/Barrier.v ===== *)
(** * The barrier

    [detail::barrier_impl], the initiating function of
    [basic_barrier::async_arrive] and its cancellation handler
    ([detail/barrier_impl.hpp], [detail/impl/barrier_impl.ipp],
    [basic_barrier.hpp], [impl/basic_barrier.hpp]).

    [async_arrive] is the only operation of the library made of two critical
    sections: [async_arrive_try] and [async_arrive_enqueue]. *)
From S2P Require Import Prelude Machine Bilist Ops Service Impl.

(** ** The code *)

Record barrier_impl := BarrierImpl {
  ba_sm : service_member;
  init_ : Z;
  counter_ : Z;
  ba_waiters : addr
}.

#[export] Program Instance barrier_member : Member barrier_impl := {|
  get_sm := ba_sm;
  set_sm sm m := BarrierImpl sm (init_ m) (counter_ m) (ba_waiters m)
|}.
Solve All Obligations with by intros; destruct_all barrier_impl.

Definition set_counter (z : Z) (m : barrier_impl) : barrier_impl :=
  BarrierImpl (ba_sm m) (init_ m) z (ba_waiters m).

Section code.
Context {ASIO : Asio}.

Definition barrier_impl_ctor {St} (this waiters svc : addr) (config : Z → Z) (init hint : Z) : M St barrier_impl :=
  sm ← service_member_ctor this svc config hint;
  bilist_node_ctor waiters;;
  mret (BarrierImpl sm init init waiters).

Definition add_waiter (waiter : addr) : M barrier_impl unit :=
  m ← get_obj; link_before waiter (ba_waiters m).

(** [counter_--] and [counter_++]. *)
Definition decrement : M barrier_impl unit :=
  m ← get_obj; z ← ptrdiff_ (counter_ m - 1); modify_obj (set_counter z).
Definition increment : M barrier_impl unit :=
  m ← get_obj; z ← ptrdiff_ (counter_ m + 1); modify_obj (set_counter z).

Definition try_arrive : M barrier_impl bool := with_lock (
  decrement;;
  m ← get_obj;
  if bool_decide (counter_ m = 0%Z) then
    holder_complete_all (ba_waiters m) no_error;;
    modify_obj (set_counter (init_ m));;
    mret true
  else
    increment;;
    mret false).

Definition arrive (ec : addr) : M barrier_impl sync_result :=
  m ← get_obj;
  if negb (enabled_ (get_mtx m)) then
    b ← try_arrive;
    if (b : bool) then mret Returned
    else assign_ec ec in_progress;; mret Returned
  else with_lock (
    op ← sync_op_ctor ec;
    add_waiter op;;
    decrement;;
    m ← get_obj;
    if bool_decide (counter_ m = 0%Z) then
      holder_complete_all (ba_waiters m) no_error;;
      modify_obj (set_counter (init_ m));;
      unlink op;;
      sync_op_dtor op;;
      mret Returned
    else mret (Blocked op)).

Definition shutdown : M barrier_impl unit :=
  w ← with_lock (m ← get_obj; holder_move_ctor (ba_waiters m));
  holder_shutdown w;;
  holder_dtor w.

(** [barrier_impl(barrier_impl &&rhs)]. *)
Definition barrier_impl_move_ctor {St} (this waiters : addr) (rhs : barrier_impl) : M St (barrier_impl * barrier_impl) :=
  sm ← service_member_move_ctor this (ba_sm rhs);
  bilist_move_ctor waiters (ba_waiters rhs);;
  mret (BarrierImpl sm (init_ rhs) (counter_ rhs) waiters, rhs).

(** [operator=(barrier_impl &&rhs)]: the new [*this] and the new [rhs]. *)
Definition barrier_impl_move_assign {St} (self rhs : barrier_impl) : M St (barrier_impl * barrier_impl) :=
  sms ← service_member_move_assign (ba_sm self) (ba_sm rhs);
  bilist_move_assign (ba_waiters self) (ba_waiters rhs);;
  mret (BarrierImpl sms.1 (init_ rhs) (counter_ rhs) (ba_waiters self),
        BarrierImpl sms.2 (init_ rhs) (counter_ rhs) (ba_waiters rhs)).

(** The implicit destructor. *)
Definition barrier_impl_dtor : M barrier_impl unit :=
  m ← get_obj;
  holder_dtor (ba_waiters m);;
  service_member_dtor.

(** [basic_barrier::async_arrive_op::operator()], in its two halves. *)
Definition async_arrive_try_with (dispatch : executor → handler → M barrier_impl unit) (exec : executor) (h : handler) :
    M barrier_impl bool :=
  b ← try_arrive;
  if (b : bool) then
    let ie := get_associated_immediate_executor h exec in
    dispatch ie h;;
    mret true
  else mret false.
Definition async_arrive_try : executor → handler → M barrier_impl bool := async_arrive_try_with net_dispatch.

Definition async_arrive_enqueue (exec : executor) (h : handler) : M barrier_impl unit :=
  let e := get_associated_executor h exec in
  with_lock (
    decrement;;
    model ← basic_op_model_construct e h;
    m ← get_obj;
    let slot := associated_slot h in
    (if is_connected slot then slot_assign slot (CancelHandler model (this_ (get_sm m))) else mret tt);;
    add_waiter model).

Definition async_arrive (exec : executor) (h : handler) : M barrier_impl unit :=
  b ← async_arrive_try exec h;
  if (b : bool) then mret tt else async_arrive_enqueue exec h.

(** The closure in slot [sl]. *)
Definition async_arrive_cancel (sl : option positive) (c : cancel_handler) (type : bool) : M barrier_impl unit :=
  if type then
    lock_captured (ch_impl c)
      (if negb (is_connected sl) then mret tt else op_complete (ch_model c) operation_aborted)
  else mret tt.

Definition barrier_emit (n : positive) (type : bool) : M barrier_impl unit :=
  w ← get_world;
  match slots w !! n with
  | Some c => async_arrive_cancel (Some n) c type
  | None => mret tt
  end.

(** The throwing [basic_barrier::arrive()]. *)
Definition arrive_throwing : M barrier_impl sync_result :=
  ec ← local_ec;
  r ← arrive ec;
  match r with
  | Returned => throw_if_failed ec;; mret Returned
  | Blocked op => mret (Blocked op)
  end.
End code.

(** ** Representation

    [barrier_rep L m w q]: [counter_] arrivals are missing, at least one, and
    everybody in line has arrived. (An arrival may be missing from the line:
    when it is cancelled, or when the allocation of its operation failed.) *)

Section rep.
Context {ASIO : Asio}.
Implicit Types (L : gmap addr (list addr)) (m : barrier_impl) (w : world) (q : list (addr * op)).

Record barrier_rep L m w q : Prop := {
  br_impl : impl_ok L m w q.*1;
  br_queue : queue w L (ba_waiters m) q;
  br_counter : (0 < counter_ m ≤ PTRDIFF_MAX)%Z;
  br_init : (0 < init_ m ≤ PTRDIFF_MAX)%Z;
  br_arrived : (counter_ m + Z.of_nat (length q) ≤ init_ m)%Z
}.

Lemma counter_entered m : counter_ (entered m) = counter_ m.
Proof. done. Qed.
Lemma init_entered m : init_ (entered m) = init_ m.
Proof. done. Qed.
Lemma ba_waiters_entered m : ba_waiters (entered m) = ba_waiters m.
Proof. done. Qed.
Lemma leave_counter m z : set_mtx (get_mtx m) (set_counter z (entered m)) = set_counter z m.
Proof. by destruct m as [[? ? []] ? ? ?]. Qed.
Lemma mtx_counter m z : get_mtx (set_counter z m) = get_mtx m.
Proof. done. Qed.
Lemma set_counter_counter m z z' : set_counter z (set_counter z' m) = set_counter z m.
Proof. done. Qed.
Lemma set_counter_id m : set_counter (counter_ m) m = m.
Proof. by destruct m. Qed.

Lemma barrier_rep_counter L m w q z :
  barrier_rep L m w q → (0 < z ≤ PTRDIFF_MAX)%Z → (z + Z.of_nat (length q) ≤ init_ m)%Z →
  barrier_rep L (set_counter z m) w q.
Proof. intros [Hi Hq _ ? _] ? ?. split; [by apply (impl_ok_member _ m)|done..]. Qed.

Lemma barrier_rep_log L m w q e : barrier_rep L m w q → barrier_rep L m (log e w) q.
Proof. intros []. split; try done. by apply impl_ok_log. Qed.
Lemma barrier_rep_ecs L m w q r ec : barrier_rep L m w q → barrier_rep L m (set_ecs <[r := ec]> w) q.
Proof. intros []. split; try done. by apply impl_ok_ecs. Qed.

Lemma wp_barrier_decrement m w (Φ : res unit → machine barrier_impl → Prop) :
  (0 < counter_ m ≤ PTRDIFF_MAX)%Z →
  Φ (Ok tt) (Machine (set_counter (counter_ m - 1) m) w) → wp decrement (Machine m w) Φ.
Proof.
  intros Hc HΦ. apply wp_bind, wp_get_obj, wp_bind, wp_ptrdiff.
  - cbn [obj]. unfold PTRDIFF_MIN, PTRDIFF_MAX in *. lia.
  - by apply wp_modify_obj.
Qed.

(** The last arrival: everybody in line is told, and the count starts over. *)
Lemma barrier_rep_completed L m w q N' :
  barrier_rep L m w q →
  let w' := with_nodes N' (finish_all no_error q w) in
  world_ok w' (<[ba_waiters m := []]> L) →
  barrier_rep (<[ba_waiters m := []]> L) (set_counter (init_ m) m) w' [].
Proof.
  intros [[Hw Hi Hc] Hq Hcnt Hinit _] w' Hok'. split; [|by split; [rewrite lookup_insert_eq|]|done|done|simpl; lia].
  split; [done|done|]. eapply closures_shrink; [exact Hc|apply slots_within_finish_all|exact Hok'|].
  intros a Ha Hl. destruct (emptied_unlisted w L _ q a Hw Hq Ha Hl).
Qed.

Lemma barrier_rep_enqueued L m w q p o N' :
  barrier_rep L m w q → nodes w !! p = None → (1 < counter_ m)%Z →
  let w' := with_nodes N' (enqueued (this_ (get_sm m)) (p, o) w) in
  world_ok w' (<[ba_waiters m := q.*1 ++ [p]]> L) →
  barrier_rep (<[ba_waiters m := q.*1 ++ [p]]> L) (set_counter (counter_ m - 1) m) w' (q ++ [(p, o)]).
Proof.
  intros [Hi Hq Hc Hinit Ha] Hp H1 w' Hok'.
  split; [|by apply queue_enqueued; [apply Hi|..]|simpl; lia|done|rewrite length_app; simpl; lia].
  apply (impl_ok_member _ m); [done|]. eapply impl_ok_enqueued; [done..|]. rewrite fmap_app. set_solver.
Qed.

Lemma wp_try_arrive L m w q (Φ : res bool → machine barrier_impl → Prop) :
  barrier_rep L m w q →
  (if bool_decide (counter_ m = 1%Z) then
     ∀ N', let w' := with_nodes N' (finish_all no_error q w) in let m' := set_counter (init_ m) m in
       barrier_rep (<[ba_waiters m := []]> L) m' w' [] → Φ (Ok true) (Machine m' w')
   else Φ (Ok false) (Machine m w)) →
  wp try_arrive (Machine m w) Φ.
Proof.
  intros Hr HΦ. pose proof Hr as [Hi Hq Hc Hinit Ha]. apply wp_critical; [apply Hi|].
  apply wp_bind, wp_barrier_decrement; [by rewrite counter_entered|]. rewrite counter_entered.
  apply wp_bind, wp_get_obj. cbn [obj]. simpl (counter_ (set_counter _ _)).
  change (ba_waiters (set_counter _ _)) with (ba_waiters m). change (init_ (set_counter _ _)) with (init_ m).
  case_bool_decide as H1.
  - rewrite bool_decide_eq_true_2 by lia. apply wp_bind.
    eapply wp_holder_complete_all; [apply Hi|done|]. intros N' w' Hok' _.
    apply wp_bind, wp_modify_obj, wp_ret. cbn [obj wld].
    rewrite set_counter_counter, mtx_counter, get_mtx_entered, leave_counter. split; [done|].
    apply HΦ. by apply barrier_rep_completed.
  - rewrite bool_decide_eq_false_2 by lia. apply wp_bind, wp_bind, wp_get_obj, wp_bind, wp_ptrdiff.
    + simpl. unfold PTRDIFF_MIN, PTRDIFF_MAX in *. lia.
    + apply wp_modify_obj, wp_ret. cbn [obj wld]. rewrite set_counter_counter.
      replace (counter_ (set_counter (counter_ m - 1) (entered m)) + 1)%Z with (counter_ (entered m))
        by (simpl; lia).
      rewrite set_counter_id, get_mtx_entered, leave_entered. done.
Qed.

(** What the last arrival leaves behind when it is a blocking call: the line
    [q] is completed, and the call's own [error_code] is assigned through the
    operation [p] it had put in line. *)
Definition arrived_last (ec p : addr) q w : world :=
  log (ev_notify p) (set_ecs <[ec := no_error]> (finish_all no_error q w)).

Lemma arrived_last_eq impl ec p q w :
  ops w !! p = None → p ∉ q.*1 →
  set_ops (delete p) (finish_all no_error (q ++ [(p, sync_op ec false)]) (enqueued impl (p, sync_op ec false) w)) =
  arrived_last ec p q w.
Proof.
  intros Hp Hq. rewrite finish_all_app. change (enqueued impl _ w) with (set_ops <[p := sync_op ec false]> w).
  rewrite finish_all_insert_ne by done. unfold arrived_last, set_ops, set_ecs, log. simpl.
  rewrite insert_insert_eq, delete_insert_id; [done|]. by rewrite ops_finish_all_ne.
Qed.

(** The second [op.unlink()]: the operation is in no list any more, and its
    pointers lead to the root, which is alone. *)
Lemma wp_unlink_again p r m w L (Φ : res unit → machine barrier_impl → Prop) :
  world_ok w L → L !! r = Some [] → next_at (nodes w) p = Some r → prev_at (nodes w) p = Some r →
  Φ (Ok tt) (Machine m w) → wp (unlink p) (Machine m w) Φ.
Proof.
  intros Hok Hr Hn Hp HΦ. destruct (hr_dlist _ _ (wo_heap _ _ Hok) _ _ Hr) as [_ [Hrn Hrp]].
  eapply wp_unlink_raw; [done..|by eapply next_at_is_Some|by eapply next_at_is_Some|].
  unfold unlinked. simpl. by rewrite (set_prev_id r r), (set_next_id r r), with_nodes_id by done.
Qed.

(** [arrive(ec)] with threads. *)
Lemma wp_arrive_mt L m w q ec (Φ : res sync_result → machine barrier_impl → Prop) :
  barrier_rep L m w q → is_Some (ecs w !! ec) → enabled_ (get_mtx m) = true →
  (if bool_decide (counter_ m = 1%Z) then
     ∀ p N', let w' := with_nodes N' (arrived_last ec p q w) in let m' := set_counter (init_ m) m in
       ops w !! p = None → barrier_rep (<[ba_waiters m := []]> L) m' w' [] → Φ (Ok Returned) (Machine m' w')
   else ∀ p N', nodes w !! p = None →
     let po := (p, sync_op ec false) in
     let w' := with_nodes N' (enqueued (this_ (get_sm m)) po w) in
     let m' := set_counter (counter_ m - 1) m in
     barrier_rep (<[ba_waiters m := q.*1 ++ [p]]> L) m' w' (q ++ [po]) →
     Φ (Ok (Blocked p)) (Machine m' w')) →
  wp (arrive ec) (Machine m w) Φ.
Proof.
  intros Hr He Hen HΦ. pose proof Hr as [Hi Hq Hc Hinit Ha]. pose proof (io_world _ _ _ _ Hi) as Hw.
  apply wp_bind, wp_get_obj. cbn [obj]. rewrite Hen. simpl.
  apply wp_critical; [apply Hi|].
  apply wp_bind, wp_sync_op_ctor. intros p Hp.
  pose proof (fresh_op _ _ _ Hw Hp) as Hop. pose proof (fresh_unlisted _ _ _ Hw Hp) as Hun.
  apply wp_bind, wp_bind, wp_get_obj. cbn [obj]. rewrite ba_waiters_entered.
  eapply (wp_link_built (this_ (get_sm m)) p (sync_op ec false) _ w); [done|apply Hq|done|by split|done..|].
  intros N1 Hok1. apply wp_bind, wp_barrier_decrement; [by rewrite counter_entered|].
  rewrite counter_entered. apply wp_bind, wp_get_obj. cbn [obj]. simpl (counter_ (set_counter _ _)).
  change (ba_waiters (set_counter _ _)) with (ba_waiters m). change (init_ (set_counter _ _)) with (init_ m).
  pose proof (queue_enqueued (this_ (get_sm m)) _ _ _ _ p (sync_op ec false) N1 Hw Hq Hp) as Hq1.
  case_bool_decide as H1.
  - rewrite bool_decide_eq_true_2 by lia. apply wp_bind.
    eapply wp_holder_complete_all; [exact Hok1|exact Hq1|]. intros N2 w2 Hok2 Hlast.
    rewrite insert_insert_eq in Hok2. subst w2. rewrite finish_all_with_nodes in *.
    set (w2 := finish_all no_error _ _) in *.
    assert (ops w2 !! p = Some (sync_op ec true)) as Hp2.
    { unfold w2. rewrite finish_all_app. simpl. apply lookup_insert_eq. }
    destruct (Hlast p (sync_op ec false)) as [Hn2 Hpv2]; [by rewrite last_snoc|by exists (sync_op ec true)|].
    apply wp_bind, wp_modify_obj, wp_bind. cbn [obj wld].
    eapply wp_unlink_again; [exact Hok2|by rewrite lookup_insert_eq|done..|].
    apply wp_bind. eapply wp_sync_op_dtor; [exact Hok2|by exists (sync_op ec true)|by eapply done_unlisted|].
    intros N3 Hok3. apply wp_ret. cbn [obj wld].
    rewrite set_counter_counter, mtx_counter, get_mtx_entered, leave_counter. split; [done|].
    assert (p ∉ q.*1) as Hpq by (intros ?; apply Hun; by eapply listed_member; [apply Hq|]).
    replace (with_nodes N3 (set_ops _ _)) with (with_nodes N3 (arrived_last ec p q w)) in *
      by (unfold w2; rewrite <- (arrived_last_eq (this_ (get_sm m))) by done; done).
    apply (HΦ p N3); [done|].
    split; [|by split; [rewrite lookup_insert_eq|]|done|done|simpl; lia].
    split; [done|apply Hi|]. eapply (closures_shrink w); [apply Hi| |exact Hok3|].
    + intros n c Hn. simpl in Hn. by eapply slots_within_finish_all.
    + intros a Hain Hl. destruct (emptied_unlisted w L _ q a Hw Hq Hain Hl).
  - rewrite bool_decide_eq_false_2 by lia. apply wp_ret. cbn [obj wld].
    rewrite mtx_counter, get_mtx_entered, leave_counter. split; [done|].
    apply (HΦ p N1); [done|]. apply barrier_rep_enqueued; [done..|lia|done].
Qed.

(** [arrive(ec)] without threads. *)
Lemma wp_arrive_st L m w q ec (Φ : res sync_result → machine barrier_impl → Prop) :
  barrier_rep L m w q → is_Some (ecs w !! ec) → enabled_ (get_mtx m) = false →
  (if bool_decide (counter_ m = 1%Z) then
     ∀ N', let w' := with_nodes N' (finish_all no_error q w) in let m' := set_counter (init_ m) m in
       barrier_rep (<[ba_waiters m := []]> L) m' w' [] → Φ (Ok Returned) (Machine m' w')
   else Φ (Ok Returned) (Machine m (set_ecs <[ec := in_progress]> w))) →
  wp (arrive ec) (Machine m w) Φ.
Proof.
  intros Hr He Hen HΦ. apply wp_bind, wp_get_obj. cbn [obj]. rewrite Hen. simpl.
  apply wp_bind. eapply wp_try_arrive; [done|]. case_bool_decide.
  - intros N' w' m' Hr'. apply wp_ret. by apply HΦ.
  - apply wp_bind, wp_assign_ec; [done|]. by apply wp_ret.
Qed.

(** The first half of [async_arrive]. *)
Lemma wp_async_arrive_try L m w q exec h (Φ : res bool → machine barrier_impl → Prop) :
  barrier_rep L m w q →
  (if bool_decide (counter_ m = 1%Z) then
     ∀ N', let w' := with_nodes N' (log (ev_dispatch (get_associated_immediate_executor h exec) h no_error)
                       (finish_all no_error q w)) in
       let m' := set_counter (init_ m) m in
       barrier_rep (<[ba_waiters m := []]> L) m' w' [] → Φ (Ok true) (Machine m' w')
   else Φ (Ok false) (Machine m w)) →
  wp (async_arrive_try exec h) (Machine m w) Φ.
Proof.
  intros Hr HΦ. apply wp_bind. eapply wp_try_arrive; [done|]. case_bool_decide.
  - intros N' w' m' Hr'. apply wp_bind, wp_modify_world, wp_ret. apply (HΦ N').
    exact (barrier_rep_log _ _ _ _ (ev_dispatch (get_associated_immediate_executor h exec) h no_error) Hr').
  - by apply wp_ret.
Qed.

(** The second half counts one more arrival, whose operation waits. When its
    allocation fails the arrival stays counted. Nothing here depends on how many
    arrivals are missing. *)
Lemma wp_async_arrive_enqueue_raw L m w q exec h (Φ : res unit → machine barrier_impl → Prop) :
  impl_ok L m w q.*1 → queue w L (ba_waiters m) q → (PTRDIFF_MIN < counter_ m ≤ PTRDIFF_MAX)%Z →
  let m' := set_counter (counter_ m - 1) m in
  (allocate h (dom (nodes w)) = None → Φ (Exn bad_alloc) (Machine m' w)) →
  (∀ p N', allocate h (dom (nodes w)) = Some p → nodes w !! p = None →
     let po := (p, basic_op_model (get_associated_executor h exec) h) in
     let w' := with_nodes N' (enqueued (this_ (get_sm m)) po w) in
     let L' := <[ba_waiters m := q.*1 ++ [p]]> L in
     impl_ok L' m' w' (q ++ [po]).*1 → queue w' L' (ba_waiters m) (q ++ [po]) →
     Φ (Ok tt) (Machine m' w')) →
  wp (async_arrive_enqueue exec h) (Machine m w) Φ.
Proof.
  intros Hi Hq Hc m' Hfail Hwait. pose proof (io_world _ _ _ _ Hi) as Hw.
  apply wp_critical; [apply Hi|]. apply wp_bind, wp_bind, wp_get_obj. cbn [obj]. rewrite counter_entered.
  apply wp_bind, wp_ptrdiff; [unfold PTRDIFF_MIN, PTRDIFF_MAX in *; lia|]. apply wp_modify_obj.
  apply wp_bind, wp_basic_op_model_construct.
  - intros Hal. cbn [obj wld]. split; [by rewrite mtx_counter, get_mtx_entered|].
    rewrite leave_counter. auto.
  - intros p Hal Hp. apply wp_bind, wp_get_obj. cbn [obj].
    eapply (wp_arm_and_link (this_ (ba_sm m)) p (basic_op_model _ h)); [done|apply Hq|done..|].
    intros N' Hok'. cbn [obj wld]. rewrite mtx_counter, get_mtx_entered, leave_counter. split; [done|].
    apply Hwait; [done..| |by apply queue_enqueued].
    apply (impl_ok_member _ m); [done|]. eapply impl_ok_enqueued; [done..|]. rewrite fmap_app. set_solver.
Qed.

Lemma wp_async_arrive_enqueue L m w q exec h (Φ : res unit → machine barrier_impl → Prop) :
  barrier_rep L m w q → (1 < counter_ m)%Z →
  let m' := set_counter (counter_ m - 1) m in
  (allocate h (dom (nodes w)) = None → barrier_rep L m' w q → Φ (Exn bad_alloc) (Machine m' w)) →
  (∀ p N', allocate h (dom (nodes w)) = Some p → nodes w !! p = None →
     let po := (p, basic_op_model (get_associated_executor h exec) h) in
     let w' := with_nodes N' (enqueued (this_ (get_sm m)) po w) in
     barrier_rep (<[ba_waiters m := q.*1 ++ [p]]> L) m' w' (q ++ [po]) →
     Φ (Ok tt) (Machine m' w')) →
  wp (async_arrive_enqueue exec h) (Machine m w) Φ.
Proof.
  intros Hr H1 m' Hfail Hwait. pose proof Hr as [Hi Hq Hc Hinit Ha].
  eapply wp_async_arrive_enqueue_raw; [done..|unfold PTRDIFF_MIN in *; lia| |].
  - intros Hal. apply Hfail; [done|]. apply barrier_rep_counter; [done|lia..].
  - intros p N' Hal Hp po w' L' H2 H3. apply Hwait; [done..|].
    split; [done|done|simpl; lia|done|rewrite length_app; simpl; lia].
Qed.

Lemma wp_barrier_emit L m w q n type (Φ : res unit → machine barrier_impl → Prop) :
  barrier_rep L m w q → (∀ c, slots w !! n = Some c → ch_impl c = this_ (get_sm m)) →
  (type = false ∨ slots w !! n = None → Φ (Ok tt) (Machine m w)) →
  (type = true → ∀ q1 p o q2 N', q = q1 ++ (p, o) :: q2 → slots w !! n = Some (CancelHandler p (this_ (get_sm m))) →
     let w' := with_nodes N' (finish operation_aborted w (p, o)) in
     barrier_rep (<[ba_waiters m := (q1 ++ q2).*1]> L) m w' (q1 ++ q2) →
     Φ (Ok tt) (Machine m w')) →
  wp (barrier_emit n type) (Machine m w) Φ.
Proof.
  intros Hr Hmine Hnone Hsome. pose proof Hr as [Hi Hq Hc Hinit Ha].
  apply wp_bind, wp_get_world. simpl. destruct (slots w !! n) as [[p i]|] eqn:Hn; [|apply wp_ret; auto].
  unfold async_arrive_cancel. destruct type; [|apply wp_ret; auto].
  specialize (Hmine _ eq_refl). simpl in Hmine. subst i.
  destruct (queue_split _ _ _ _ _ Hq (closure_member _ _ _ _ _ _ Hi Hn eq_refl)) as (q1 & o & q2 & -> & Hp).
  eapply (wp_lock_captured _ q1 o q2 _ _ _ _ _ (q1 ++ q2).*1); [done|done|done| |].
  - rewrite !fmap_app. set_solver.
  - intros N' w' L' H1 H2 _. eapply Hsome; [done..|]. split; [done..|].
    rewrite length_app in *. simpl in *. lia.
Qed.

Lemma wp_barrier_resume L m w q p ec d (Φ : res bool → machine barrier_impl → Prop) :
  barrier_rep L m w q → ops w !! p = Some (sync_op ec d) →
  (if d then ∀ N', let w' := with_nodes N' (set_ops (delete p) w) in
     barrier_rep L m w' q → Φ (Ok true) (Machine m w')
   else Φ (Ok false) (Machine m w)) →
  wp (sync_wait p) (Machine m w) Φ.
Proof.
  intros [Hi Hq Hc Hinit Ha] Hp HΦ. eapply wp_sync_wait; [done..|]. destruct d; [|done].
  intros N' w' Hi' Hq'. apply HΦ. split; auto.
Qed.

Lemma wp_barrier_shutdown L m w q (Φ : res unit → machine barrier_impl → Prop) :
  barrier_rep L m w q →
  (∀ N', let w' := with_nodes N' (abort_all q w) in
     barrier_rep (<[ba_waiters m := []]> L) m w' [] → Φ (Ok tt) (Machine m w')) →
  wp shutdown (Machine m w) Φ.
Proof.
  intros [Hi Hq Hc Hinit Ha] HΦ. eapply (wp_impl_shutdown ba_waiters m w L q.*1 q); try done.
  intros N' w' H1 H2. apply HΦ. split; [done..|]. simpl. lia.
Qed.
End rep.

(** ** Construction and destruction *)

Section life.
Context {ASIO : Asio}.
Implicit Types (L : gmap addr (list addr)) (w : world) (q : list (addr * op)).

Lemma wp_barrier_impl_ctor {St} this waiters svc config init hint (m : St) w L ms
    (Φ : res barrier_impl → machine St → Prop) :
  world_ok w L → service_ok w L svc ms → nodes w !! this = None → nodes w !! waiters = None →
  this ≠ waiters → unreferenced w this → (0 < init ≤ PTRDIFF_MAX)%Z →
  (∀ N', let w' := with_nodes N' w in let L' := <[waiters := []]> (<[svc := ms ++ [this]]> L) in
     let c := cem_ctor (negb (is_single_threaded config hint)) in
     let ba := BarrierImpl (ServiceMember this (Some svc) c) init init waiters in
     barrier_rep L' ba w' [] → service_ok w' L' svc (ms ++ [this]) → Φ (Ok ba) (Machine m w')) →
  wp (barrier_impl_ctor this waiters svc config init hint) (Machine m w) Φ.
Proof.
  intros Hok Hs Hthis Hwait Hne Hun Hinit HΦ. apply wp_bind.
  eapply wp_service_member_ctor; [done..|]. intros N1 w1 L1 Hok1 Hs1 Hdom.
  apply wp_bind. eapply (wp_new_root waiters this svc m w _ L L1 N1 ms); [done..|]. intros N2 w2 L2 Hok2 Hs2.
  apply wp_ret. apply (HΦ N2); [|done].
  split; [|split; [by rewrite lookup_insert_eq|done]|done|done|simpl; lia].
  split; [done|done|]. by apply closures_unreferenced.
Qed.

Lemma wp_barrier_impl_dtor L m w q svc xs ys (Φ : res unit → machine barrier_impl → Prop) :
  barrier_rep L m w q → service (get_sm m) = Some svc →
  service_ok w L svc (xs ++ this_ (get_sm m) :: ys) → svc ≠ ba_waiters m →
  (∀ N', let w' := with_nodes N' (finish_all operation_aborted q w) in
     let L' := <[svc := xs ++ ys]> (delete (ba_waiters m) L) in
     world_ok w' L' → service_ok w' L' svc (xs ++ ys) → Φ (Ok tt) (Machine m w')) →
  wp barrier_impl_dtor (Machine m w) Φ.
Proof.
  intros [[Hok Hi Hc] Hq _ _ _] Hsvc Hs Hne HΦ. apply wp_bind, wp_get_obj. cbn [obj].
  eapply (wp_impl_dtor (ba_waiters m)); done.
Qed.
End life.

(** ** Example barriers *)

Definition demo_barrier (threads : bool) (init : Z) : machine barrier_impl :=
  match barrier_impl_ctor 2 3 1 (demo_config threads) init (-1) (Machine tt (demo_world threads)) with
  | Some (Ok m, s) => Machine m (wld s)
  | _ => Machine (BarrierImpl (ServiceMember 2 None (cem_ctor false)) 0 0 3) (demo_world threads)
  end.
Definition demo_barrier_lists : gmap addr (list addr) := <[3%positive := []]> (<[1%positive := [2%positive]]> demo_lists).

Lemma demo_barrier_rep b init :
  (0 < init ≤ PTRDIFF_MAX)%Z →
  barrier_rep demo_barrier_lists (obj (demo_barrier b init)) (wld (demo_barrier b init)) [].
Proof.
  intros Hinit. destruct (demo_world_ok b) as [Hok Hs].
  assert (wp (barrier_impl_ctor 2 3 1 (demo_config b) init (-1)) (Machine tt (demo_world b)) (λ r s,
    match r with
    | Ok m => barrier_rep demo_barrier_lists m (wld s) []
    | Exn _ => False end)) as H.
  { eapply wp_barrier_impl_ctor; [exact Hok|exact Hs|by destruct b..|done| |done|].
    - intros n c. by destruct b.
    - intros N' w' L' c ba H1 H2. done. }
  unfold demo_barrier. unfold wp in H. destruct (barrier_impl_ctor _ _ _ _ _ _ _) as [[[m|] s]|]; done.
Qed.
