(* ===== verification/BarrierSpec.v ===== *)
(** * The barrier: abstract specification, refinement and properties

    [barrier_step] is the abstract barrier: how many arrivals a round has, how
    many are missing, and who waits. [barrier_refines] holds for calls that do
    not overlap. [async_arrive] takes the mutex of the barrier twice, so two
    overlapping calls are four critical sections: the theorem
    [barrier_async_arrive_race] shows an interleaving that the abstract barrier
    does not have. *)
From S2P Require Import Prelude Machine Bilist Ops Service Impl Barrier.

(** ** Commands *)

Section commands.
Context {ASIO : Asio}.

Inductive barrier_cmd :=
  | bar_declare_ec
  | bar_try_arrive
  | bar_arrive (ec : addr)
  | bar_async_arrive (exec : executor) (h : handler)
  | bar_emit (n : positive) (type : bool)
  | bar_resume (p : addr)
  | bar_shutdown.

Definition barrier_exec (c : barrier_cmd) : M barrier_impl reply :=
  match c with
  | bar_declare_ec => r ← local_ec; mret (r_addr r)
  | bar_try_arrive => b ← try_arrive; mret (r_bool b)
  | bar_arrive ec => r ← arrive ec; mret (r_sync r)
  | bar_async_arrive exec h => async_arrive exec h;; mret r_unit
  | bar_emit n type => barrier_emit n type;; mret r_unit
  | bar_resume p => b ← sync_wait p; mret (r_bool b)
  | bar_shutdown => shutdown;; mret r_unit
  end.

Definition barrier_pre (c : barrier_cmd) (s : machine barrier_impl) : Prop :=
  match c with
  | bar_arrive ec => is_Some (ecs (wld s) !! ec)
  | bar_emit n _ => ∀ c, slots (wld s) !! n = Some c → ch_impl c = this_ (get_sm (obj s))
  | bar_resume p => ∃ ec d, ops (wld s) !! p = Some (sync_op ec d)
  | _ => True
  end.

(** ** The abstract barrier *)

Record barrier_spec := BarrierSpec { parties : Z; missing : Z; bar_line : list (addr * op) }.

Inductive barrier_step (enabled : bool) (impl : addr) :
    barrier_spec → world → barrier_cmd → res reply → barrier_spec → world → Prop :=
  | bs_declare_ec sp w r : ecs w !! r = None →
      barrier_step enabled impl sp w bar_declare_ec (Ok (r_addr r)) sp (set_ecs <[r := no_error]> w)
  | bs_try_last n q w :
      barrier_step enabled impl (BarrierSpec n 1 q) w bar_try_arrive (Ok (r_bool true))
        (BarrierSpec n n []) (finish_all no_error q w)
  | bs_try_early n z q w : (1 < z)%Z →
      barrier_step enabled impl (BarrierSpec n z q) w bar_try_arrive (Ok (r_bool false)) (BarrierSpec n z q) w
  | bs_arrive_last ec p n q w : enabled = true → ops w !! p = None →
      barrier_step enabled impl (BarrierSpec n 1 q) w (bar_arrive ec) (Ok (r_sync Returned))
        (BarrierSpec n n []) (arrived_last ec p q w)
  | bs_arrive_wait ec p n z q w : enabled = true → (1 < z)%Z → ops w !! p = None →
      barrier_step enabled impl (BarrierSpec n z q) w (bar_arrive ec) (Ok (r_sync (Blocked p)))
        (BarrierSpec n (z - 1) (q ++ [(p, sync_op ec false)])) (enqueued impl (p, sync_op ec false) w)
  | bs_arrive_last_st ec n q w : enabled = false →
      barrier_step enabled impl (BarrierSpec n 1 q) w (bar_arrive ec) (Ok (r_sync Returned))
        (BarrierSpec n n []) (finish_all no_error q w)
  | bs_arrive_error ec n z q w : enabled = false → (1 < z)%Z →
      barrier_step enabled impl (BarrierSpec n z q) w (bar_arrive ec) (Ok (r_sync Returned))
        (BarrierSpec n z q) (set_ecs <[ec := in_progress]> w)
  | bs_async_last exec h n q w :
      barrier_step enabled impl (BarrierSpec n 1 q) w (bar_async_arrive exec h) (Ok r_unit)
        (BarrierSpec n n []) (log (ev_dispatch (get_associated_immediate_executor h exec) h no_error)
          (finish_all no_error q w))
  | bs_async_fail exec h n z q w X : (1 < z)%Z → allocate h X = None →
      barrier_step enabled impl (BarrierSpec n z q) w (bar_async_arrive exec h) (Exn bad_alloc)
        (BarrierSpec n (z - 1) q) w
  | bs_async_wait exec h n z q w p : (1 < z)%Z → ops w !! p = None →
      let po := (p, basic_op_model (get_associated_executor h exec) h) in
      barrier_step enabled impl (BarrierSpec n z q) w (bar_async_arrive exec h) (Ok r_unit)
        (BarrierSpec n (z - 1) (q ++ [po])) (enqueued impl po w)
  | bs_emit_nothing n type sp w : type = false ∨ slots w !! n = None →
      barrier_step enabled impl sp w (bar_emit n type) (Ok r_unit) sp w
  | bs_emit_abort sl n z q1 p o q2 w : slots w !! sl = Some (CancelHandler p impl) →
      barrier_step enabled impl (BarrierSpec n z (q1 ++ (p, o) :: q2)) w (bar_emit sl true) (Ok r_unit)
        (BarrierSpec n z (q1 ++ q2)) (finish operation_aborted w (p, o))
  | bs_resume_asleep p ec sp w : ops w !! p = Some (sync_op ec false) →
      barrier_step enabled impl sp w (bar_resume p) (Ok (r_bool false)) sp w
  | bs_resume_done p ec sp w : ops w !! p = Some (sync_op ec true) →
      barrier_step enabled impl sp w (bar_resume p) (Ok (r_bool true)) sp (set_ops (delete p) w)
  | bs_shutdown n z q w :
      barrier_step enabled impl (BarrierSpec n z q) w bar_shutdown (Ok r_unit) (BarrierSpec n z []) (abort_all q w).

Definition barrier_implements (L : gmap addr (list addr)) (s : machine barrier_impl) (sp : barrier_spec) : Prop :=
  barrier_rep L (obj s) (wld s) (bar_line sp) ∧ counter_ (obj s) = missing sp ∧ init_ (obj s) = parties sp.
End commands.

(** ** Refinement *)

Section refinement.
Context {ASIO : Asio}.
Implicit Types (L : gmap addr (list addr)) (m : barrier_impl) (w : world) (q : list (addr * op)).
Implicit Types (s : machine barrier_impl) (sp : barrier_spec).

Definition barrier_roots m : list addr := [ba_waiters m].

Definition bar_refined L s sp (c : barrier_cmd) (r : res reply) s' : Prop :=
  ∃ L' sp' w', barrier_step (enabled_ (get_mtx (obj s))) (this_ (get_sm (obj s))) sp (wld s) c r sp' w' ∧
    same_but_nodes (wld s') w' ∧ barrier_implements L' s' sp' ∧ local barrier_roots L (obj s) L' (obj s').

Lemma bar_refined_intro L' sp' w' L s sp c r s' :
  barrier_step (enabled_ (get_mtx (obj s))) (this_ (get_sm (obj s))) sp (wld s) c r sp' w' →
  same_but_nodes (wld s') w' → barrier_rep L' (obj s') (wld s') (bar_line sp') →
  counter_ (obj s') = missing sp' → init_ (obj s') = parties sp' →
  same_member (obj s) (obj s') → barrier_roots (obj s') = barrier_roots (obj s) →
  same_lists [ba_waiters (obj s)] L L' → bar_refined L s sp c r s'.
Proof. intros. by exists L', sp', w'. Qed.

(** [arrive(ec)], with threads and without. *)
Lemma barrier_arrive_refines L m w q ec :
  barrier_rep L m w q → is_Some (ecs w !! ec) →
  wp (barrier_exec (bar_arrive ec)) (Machine m w)
    (bar_refined L (Machine m w) (BarrierSpec (init_ m) (counter_ m) q) (bar_arrive ec)).
Proof.
  intros Hr Hpre. simpl. pose proof (br_counter _ _ _ _ Hr) as Hc.
  assert (counter_ m ≠ 1%Z → (1 < counter_ m)%Z) as Hgt by lia. apply wp_bind. destruct (enabled_ (get_mtx m)) eqn:Hen.
  - eapply wp_arrive_mt; [done..|]. case_bool_decide as H1.
    + intros p N' w' m' Hp Hr'. apply wp_ret. rewrite H1.
      eapply bar_refined_intro; [by apply (bs_arrive_last _ _ ec p)|apply same_with_nodes|done..].
    + intros p N' Hp po w' m' Hr'. apply wp_ret.
      eapply bar_refined_intro; [apply (bs_arrive_wait _ _ ec p); [done|by apply Hgt|]|apply same_with_nodes|done..].
      eapply fresh_op; [apply Hr|done].
  - eapply wp_arrive_st; [done..|]. case_bool_decide as H1.
    + intros N' w' m' Hr'. apply wp_ret. rewrite H1.
      eapply bar_refined_intro; [by apply bs_arrive_last_st|apply same_with_nodes|done..].
    + apply wp_ret. eapply (bar_refined_intro L); [apply bs_arrive_error; [done|by apply Hgt]|reflexivity|by apply barrier_rep_ecs|done..].
Qed.

Lemma barrier_exec_refines c L s sp :
  barrier_implements L s sp → barrier_pre c s → wp (barrier_exec c) s (bar_refined L s sp c).
Proof.
  destruct s as [m w], sp as [n z q]. intros (Hr & Hz & Hn) Hpre. simpl in *. subst z n.
  pose proof (br_counter _ _ _ _ Hr) as Hc.
  assert (counter_ m ≠ 1%Z → (1 < counter_ m)%Z) as Hgt by lia.
  destruct c as [| |ec|exec h|n type|p|]; try (by apply barrier_arrive_refines); simpl in *; apply wp_bind.
  - eapply wp_local_ec; [apply Hr|]. intros r Hfr w' Hi Hq. apply wp_ret.
    eapply (bar_refined_intro L); [by apply bs_declare_ec|reflexivity| |done..].
    destruct Hr as [? ? ? ? ?]. split; [done|by apply Hq|done..].
  - eapply wp_try_arrive; [done|]. case_bool_decide as H1.
    + intros N' w' m' Hr'. apply wp_ret. rewrite H1.
      eapply bar_refined_intro; [apply bs_try_last|apply same_with_nodes|done..].
    + apply wp_ret. eapply (bar_refined_intro L); [by apply bs_try_early, Hgt|reflexivity|done..].
  - apply wp_bind. eapply wp_async_arrive_try; [done|]. case_bool_decide as H1.
    + intros N' w' m' Hr'. apply wp_ret, wp_ret. rewrite H1.
      eapply bar_refined_intro; [apply bs_async_last|apply same_with_nodes|done..].
    + eapply wp_async_arrive_enqueue; [done|by apply Hgt|..].
      * intros Ha Hr'. eapply (bar_refined_intro L); [eapply bs_async_fail; [by apply Hgt|done]|reflexivity|done..].
      * intros p N' Ha Hp po w' Hr'. apply wp_ret.
        eapply bar_refined_intro; [apply bs_async_wait; [by apply Hgt|]|apply same_with_nodes|done..].
        eapply fresh_op; [apply Hr|done].
  - eapply wp_barrier_emit; [done..| |].
    + intros Hn. apply wp_ret. eapply (bar_refined_intro L); [by apply bs_emit_nothing|reflexivity|done..].
    + intros -> q1 p o q2 N' -> Hn w' Hr'. apply wp_ret.
      eapply bar_refined_intro; [by apply bs_emit_abort|apply same_with_nodes|done..].
  - destruct Hpre as (ec & d & Hp). eapply wp_barrier_resume; [done..|]. destruct d.
    + intros N' w' Hr'. apply wp_ret.
      eapply bar_refined_intro; [by eapply bs_resume_done|apply same_with_nodes|done..].
    + apply wp_ret. eapply (bar_refined_intro L); [by eapply bs_resume_asleep|reflexivity|done..].
  - eapply wp_barrier_shutdown; [done|]. intros N' w' Hr'. apply wp_ret.
    eapply bar_refined_intro; [apply bs_shutdown|apply same_with_nodes|done..].
Qed.
End refinement.

(** ** Rounds *)

Section rounds.
Context {ASIO : Asio}.
Implicit Types (L : gmap addr (list addr)) (m : barrier_impl) (w : world) (q : list (addr * op)).
Implicit Types (s : machine barrier_impl) (sp : barrier_spec).

(** Calls that do not overlap. *)
Inductive barrier_run s0 : machine barrier_impl → Prop :=
  | bar_run_start : barrier_run s0 s0
  | bar_run_call s c r s' : barrier_run s0 s → barrier_pre c s → barrier_exec c s = Some (r, s') →
      barrier_run s0 s'.

Lemma bar_run_invariant L m w s :
  barrier_rep L m w [] → barrier_run (Machine m w) s →
  ∃ L' sp, barrier_implements L' s sp ∧ parties sp = init_ m.
Proof.
  intros Hr. induction 1 as [|s c r s' _ (L' & sp & Himp & E) Hpre Hex].
  - exists L, (BarrierSpec (init_ m) (counter_ m) []). by repeat split; try apply Hr.
  - pose proof (barrier_exec_refines _ _ _ _ Himp Hpre) as Hwp. unfold wp in Hwp. rewrite Hex in Hwp.
    destruct Hwp as (L2 & sp2 & w2 & Hstep & _ & Himp2 & _). exists L2, sp2. split; [done|].
    rewrite <- E. by destruct Hstep.
Qed.

(** The handlers that are told, in order, that the barrier has opened. *)
Definition opened_for (e : event) : option handler :=
  match e with
  | ev_post _ h no_error | ev_dispatch _ h no_error => Some h
  | _ => None
  end.
Definition op_handler (o : op) : option handler :=
  match o with
  | basic_op_model _ h | predicate_op_model _ h _ => Some h
  | sync_op _ _ => None
  end.

Lemma opened_completion q : omap opened_for (q ≫= completion no_error) = omap op_handler q.*2.
Proof.
  induction q as [|[p o] q IH]; [done|]. rewrite bind_cons, omap_app, IH. by destruct o.
Qed.

Fixpoint arrive_all (exec : executor) (hs : list handler) : M barrier_impl unit :=
  match hs with
  | [] => mret tt
  | h :: hs => async_arrive exec h;; arrive_all exec hs
  end.

(** Arrivals before the last one only join the line. *)
Lemma wp_arrive_all exec hs L m w q :
  barrier_rep L m w q → (Z.of_nat (length hs) < counter_ m)%Z → (∀ h X, h ∈ hs → allocate h X ≠ None) →
  wp (arrive_all exec hs) (Machine m w) (λ r s, r = Ok tt ∧ trace (wld s) = trace w ∧
    obj s = set_counter (counter_ m - Z.of_nat (length hs)) m ∧
    ∃ L' q', barrier_rep L' (obj s) (wld s) (q ++ q') ∧ omap op_handler q'.*2 = hs).
Proof.
  revert L m w q. induction hs as [|h hs IH]; intros L m w q Hr Hlen Hal; simpl in *.
  - apply wp_ret. rewrite Z.sub_0_r. cbn [obj wld]. rewrite set_counter_id. split_and!; [done..|].
    exists L, []. by rewrite app_nil_r.
  - apply wp_bind, wp_bind. eapply wp_async_arrive_try; [done|]. rewrite bool_decide_eq_false_2 by lia.
    eapply wp_async_arrive_enqueue; [done|lia| |].
    + intros Ha. destruct (Hal h (dom (nodes w))); [by left|done].
    + intros p N' Ha Hp po w' Hr'. eapply wp_mono; [apply (IH _ _ _ _ Hr')|].
      * simpl. lia.
      * intros h' X Hh. apply Hal. by right.
      * intros r s (-> & Ht & Ho & L' & q' & Hrep & Hq'). split_and!; [done|by rewrite Ht| |].
        -- rewrite Ho. rewrite set_counter_counter. f_equal. simpl. lia.
        -- exists L', (po :: q'). rewrite <- app_assoc in Hrep. split; [done|]. change (h :: omap op_handler q'.*2 = h :: hs). by rewrite Hq'.
Qed.

(** Arrivals that are cancelled at once, by the signal of the handler's slot. *)
Fixpoint cancelled_arrivals (exec : executor) (h : handler) (n : positive) (k : nat) : M barrier_impl unit :=
  match k with
  | O => mret tt
  | S k => async_arrive exec h;; barrier_emit n true;; cancelled_arrivals exec h n k
  end.

Lemma wp_cancelled_arrivals exec h n k L m w :
  barrier_rep L m w [] → (Z.of_nat k < counter_ m)%Z → associated_slot h = Some n → (∀ X, allocate h X ≠ None) →
  wp (cancelled_arrivals exec h n k) (Machine m w) (λ r s, r = Ok tt ∧
    obj s = set_counter (counter_ m - Z.of_nat k) m ∧
    (∃ es, trace (wld s) = trace w ++ es ∧ omap opened_for es = []) ∧ ∃ L', barrier_rep L' (obj s) (wld s) []).
Proof.
  revert L m w. induction k as [|k IH]; intros L m w Hr Hlt Hs Hal; cbn [cancelled_arrivals].
  - apply wp_ret. rewrite Z.sub_0_r. cbn [obj wld]. rewrite set_counter_id.
    split_and!; [done..|exists []; by rewrite app_nil_r|by exists L].
  - apply wp_bind, wp_bind. eapply wp_async_arrive_try; [done|]. rewrite bool_decide_eq_false_2 by lia.
    eapply wp_async_arrive_enqueue; [done|lia|intros Ha; by destruct (Hal (dom (nodes w)))|].
    intros p N' _ _ po w' Hr'. assert (slots w' !! n = Some (CancelHandler p (this_ (get_sm m)))) as Hn.
    { unfold w', enqueued. simpl. rewrite Hs. apply lookup_insert_eq. }
    apply wp_bind. eapply wp_barrier_emit; [exact Hr'|intros c Hc; by simplify_eq|intros [|?]; congruence|].
    intros _ q1 p' o q2 N2 Hq _ w2 Hr2. destruct q1 as [|? q1]; [|by destruct q1].
    injection Hq as <- <- <-. eapply wp_mono; [apply (IH _ _ _ Hr2); [simpl; lia|done..]|].
    intros r s (-> & Ho & (es & Ht & He) & Hrep). split_and!; [done| | |done].
    + rewrite Ho, set_counter_counter. f_equal. simpl. lia.
    + exists (completion operation_aborted (p, basic_op_model (get_associated_executor h exec) h) ++ es).
      rewrite omap_app, He. split; [|done]. rewrite Ht. unfold w2. cbn [trace with_nodes].
      by rewrite trace_finish, <- app_assoc.
Qed.
End rounds.

(** ** Properties *)

Section properties.
Context {ASIO : Asio}.
Implicit Types (L : gmap addr (list addr)) (m : barrier_impl) (w : world) (q : list (addr * op)).
Implicit Types (s : machine barrier_impl) (sp : barrier_spec).

(** C15: a round. On a barrier with nobody in line the arrivals before the last
    one wait and nobody is told anything; the last arrival opens the barrier for
    all of them, in the order they arrived and then for itself, and the barrier
    is ready for the next round of [init_] arrivals. *)
Theorem barrier_round L m w exec hs h :
  barrier_rep L m w [] → counter_ m = (Z.of_nat (length hs) + 1)%Z → (∀ h' X, h' ∈ hs → allocate h' X ≠ None) →
  wp (arrive_all exec hs) (Machine m w) (λ r1 s1, r1 = Ok tt ∧ events_since w (wld s1) = [] ∧
    wp (async_arrive exec h) s1 (λ r2 s2, r2 = Ok tt ∧
      omap opened_for (events_since w (wld s2)) = hs ++ [h] ∧
      counter_ (obj s2) = init_ m ∧ ∃ L', barrier_rep L' (obj s2) (wld s2) [])).
Proof.
  intros Hr Hc Hal. eapply wp_mono; [apply (wp_arrive_all _ _ L m w [] Hr); [lia|done]|].
  intros r s (-> & Ht & Ho & L' & q' & Hrep & Hq'). split_and!; [done|by apply events_since_same|].
  destruct s as [m1 w1]. simpl in *. subst m1. apply wp_bind. eapply wp_async_arrive_try; [done|].
  rewrite bool_decide_eq_true_2 by (simpl; lia).
  intros N' w' m' Hr'. apply wp_ret. cbn [obj wld]. split_and!; [done| |done|by eexists].
  erewrite events_since_app; [|unfold w'; simpl; by rewrite trace_finish_all, Ht, <- app_assoc].
  by rewrite omap_app, opened_completion, Hq'.
Qed.

(** C27: refinement of the abstract barrier by calls that do not overlap. *)
Theorem barrier_refines L s sp c :
  barrier_implements L s sp → barrier_pre c s →
  wp (barrier_exec c) s (λ r s', ∃ L' sp' w',
    barrier_step (enabled_ (get_mtx (obj s))) (this_ (get_sm (obj s))) sp (wld s) c r sp' w' ∧
    same_but_nodes (wld s') w' ∧ barrier_implements L' s' sp').
Proof.
  intros. eapply wp_mono; [by apply (barrier_exec_refines c L s sp)|].
  intros r s' (L' & sp' & w' & H1 & H2 & H3 & _). by exists L', sp', w'.
Qed.

(** As long as calls do not overlap no call is stuck, at least one arrival
    is missing, and no more operations wait than have arrived in the round. *)
Theorem barrier_never_stuck L m w s c :
  barrier_rep L m w [] → barrier_run (Machine m w) s → barrier_pre c s →
  (∃ r s', barrier_exec c s = Some (r, s')) ∧ (0 < counter_ (obj s))%Z ∧
  ∃ L' q, barrier_rep L' (obj s) (wld s) q ∧ (counter_ (obj s) + Z.of_nat (length q) ≤ init_ m)%Z.
Proof.
  intros Hr Hrun Hpre. destruct (bar_run_invariant _ _ _ _ Hr Hrun) as (L' & sp & Himp & E).
  pose proof (barrier_exec_refines _ _ _ _ Himp Hpre) as (r & s' & Hex & _)%wp_run.
  destruct Himp as (Hr' & Hc & Hi). split_and!; [by exists r, s'|apply Hr'|].
  exists L', (bar_line sp). split; [done|]. rewrite <- E, <- Hi. apply Hr'.
Qed.

(** [try_arrive] never waits. It opens the barrier and answers [true] when
    only one arrival is missing; otherwise it answers [false] and changes
    nothing at all. *)
Theorem barrier_try_arrive L m w q :
  barrier_rep L m w q →
  (counter_ m ≠ 1%Z → try_arrive (Machine m w) = Some (Ok false, Machine m w)) ∧
  (counter_ m = 1%Z → wp try_arrive (Machine m w) (λ r s', r = Ok true ∧
     events_since w (wld s') = (q ≫= completion no_error) ∧ counter_ (obj s') = init_ m)).
Proof.
  intros Hr. split; intros Hc.
  - assert (wp try_arrive (Machine m w) (λ r s, r = Ok false ∧ s = Machine m w)) as (r & s & -> & -> & ->)%wp_run;
      [|done]. eapply wp_try_arrive; [done|]. by rewrite bool_decide_eq_false_2.
  - eapply wp_try_arrive; [done|]. rewrite bool_decide_eq_true_2 by done. intros N' w' m' Hr'.
    split_and!; [done|by apply events_since_app, trace_finish_all|done].
Qed.

(** C34: the race of [async_arrive]. When two calls for the last two arrivals of
    a round, with nobody in line and memory for both, overlap, so that both have
    tried before either has put its operation in line, both operations wait, the
    counter is zero, nobody is told anything, and no later [try_arrive] opens
    the barrier. *)
Theorem barrier_async_arrive_race L m w exec h1 h2 :
  barrier_rep L m w [] → counter_ m = 2%Z → (∀ X, allocate h1 X ≠ None) → (∀ X, allocate h2 X ≠ None) →
  wp (b1 ← async_arrive_try exec h1;
      b2 ← async_arrive_try exec h2;
      async_arrive_enqueue exec h1;;
      async_arrive_enqueue exec h2;;
      mret (b1, b2)) (Machine m w) (λ r s,
    r = Ok (false, false) ∧ events_since w (wld s) = [] ∧ counter_ (obj s) = 0%Z ∧
    (∃ L' q, queue (wld s) L' (ba_waiters m) q ∧ omap op_handler q.*2 = [h1; h2]) ∧
    wp try_arrive s (λ r' s', r' = Ok false ∧ s' = s)).
Proof.
  intros Hr Hc Hal1 Hal2. pose proof Hr as [Hi Hq _ _ _].
  apply wp_bind. eapply wp_async_arrive_try; [done|]. rewrite bool_decide_eq_false_2 by lia.
  apply wp_bind. eapply wp_async_arrive_try; [done|]. rewrite bool_decide_eq_false_2 by lia.
  apply wp_bind. eapply wp_async_arrive_enqueue_raw; [done..|rewrite Hc; done| |].
  { intros Ha. by destruct (Hal1 (dom (nodes w))). }
  intros p1 N1 Ha1 Hp1 po1 w1 L1 Hi1 Hq1.
  apply wp_bind. eapply wp_async_arrive_enqueue_raw; [exact Hi1|exact Hq1|simpl; by rewrite Hc| |].
  { intros Ha. by destruct (Hal2 (dom (nodes w1))). }
  intros p2 N2 Ha2 Hp2 po2 w2 L2 Hi2 Hq2. apply wp_ret. cbn [obj wld].
  rewrite set_counter_counter in *. simpl (counter_ _) in *.
  split_and!; [done|by apply events_since_same|lia|exists L2; eexists; split; [exact Hq2|done]|].
  apply wp_critical; [apply Hi2|]. apply wp_bind, wp_bind, wp_get_obj, wp_bind, wp_ptrdiff.
  { simpl. rewrite Hc. done. }
  apply wp_modify_obj, wp_bind, wp_get_obj. cbn [obj]. simpl (counter_ _).
  rewrite bool_decide_eq_false_2 by lia. apply wp_bind, wp_bind, wp_get_obj, wp_bind, wp_ptrdiff.
  { simpl. rewrite Hc. done. }
  apply wp_modify_obj, wp_ret. cbn [obj wld]. rewrite set_counter_counter.
  replace (set_counter _ (entered _)) with (entered (set_counter (counter_ m - 1 - 1) m)).
  - rewrite get_mtx_entered, leave_entered. done.
  - unfold entered, set_mtx, set_counter. simpl. f_equal. lia.
Qed.

(** An arrival whose operation could not be allocated is not taken back:
    [async_arrive] throws [bad_alloc], and the barrier still misses one arrival
    less. *)
Theorem barrier_alloc_failure_counts L m w q exec h :
  barrier_rep L m w q → (1 < counter_ m)%Z → allocate h (dom (nodes w)) = None →
  async_arrive exec h (Machine m w) = Some (Exn bad_alloc, Machine (set_counter (counter_ m - 1) m) w).
Proof.
  intros Hr Hc Ha.
  assert (wp (async_arrive exec h) (Machine m w) (λ r s,
    r = Exn bad_alloc ∧ s = Machine (set_counter (counter_ m - 1) m) w)) as (r & s & -> & -> & ->)%wp_run; [|done].
  apply wp_bind. eapply wp_async_arrive_try; [done|]. rewrite bool_decide_eq_false_2 by lia.
  eapply wp_async_arrive_enqueue; [done|lia|done|]. intros p N' Ha'. congruence.
Qed.

(** C39: a cancelled arrival is not taken back either. A party whose wait is
    cancelled again and again, [k] times, opens a barrier that misses [k + 1]
    arrivals alone: its next [async_arrive] completes, the first in all of
    this, although nobody else has arrived. *)
Theorem barrier_cancel_counts L m w exec h n k :
  barrier_rep L m w [] → counter_ m = (Z.of_nat k + 1)%Z → associated_slot h = Some n → (∀ X, allocate h X ≠ None) →
  wp (cancelled_arrivals exec h n k;; async_arrive exec h) (Machine m w) (λ r s,
    r = Ok tt ∧ omap opened_for (events_since w (wld s)) = [h] ∧ counter_ (obj s) = init_ m).
Proof.
  intros Hr Hc Hs Hal. apply wp_bind. eapply wp_mono; [by apply (wp_cancelled_arrivals exec h n k L m w Hr); [lia|..]|].
  intros r [m1 w1] (-> & Ho & (es & Ht & He) & L' & Hr'). cbn [obj wld] in *. subst m1.
  apply wp_bind. eapply wp_async_arrive_try; [done|]. rewrite bool_decide_eq_true_2 by (simpl; lia).
  intros N' w' m' _. apply wp_ret. split_and!; [done| |done]. cbn [wld].
  rewrite (events_since_app w w' (es ++ [ev_dispatch (get_associated_immediate_executor h exec) h no_error])).
  - by rewrite omap_app, He.
  - unfold w'. simpl. by rewrite Ht, <- app_assoc.
Qed.
End properties.

(** ** The properties at work *)

Section witnesses.

Lemma demo_barrier2_rep :
  barrier_rep demo_barrier_lists (obj (demo_barrier true 2)) (wld (demo_barrier true 2)) [].
Proof. by apply demo_barrier_rep. Qed.

Lemma barrier_round_witness :
  wp (arrive_all 0 [4]) (Machine (obj (demo_barrier true 2)) (wld (demo_barrier true 2))) (λ r1 s1,
    r1 = Ok tt ∧ events_since (wld (demo_barrier true 2)) (wld s1) = [] ∧
    wp (async_arrive 0 6) s1 (λ r2 s2, r2 = Ok tt ∧
      omap opened_for (events_since (wld (demo_barrier true 2)) (wld s2)) = [4; 6] ∧
      counter_ (obj s2) = init_ (obj (demo_barrier true 2)) ∧ ∃ L', barrier_rep L' (obj s2) (wld s2) [])).
Proof.
  apply (barrier_round (ASIO := test_asio) demo_barrier_lists (obj (demo_barrier true 2)) (wld (demo_barrier true 2)) 0 [4] 6).
  - exact demo_barrier2_rep.
  - vm_compute. reflexivity.
  - intros h' X ->%list_elem_of_singleton. done.
Defined.

Lemma barrier_refines_witness :
  wp (barrier_exec (bar_async_arrive 0 4)) (demo_barrier true 2) (λ r s', ∃ L' sp' w',
    barrier_step true 2 (BarrierSpec 2 2 []) (wld (demo_barrier true 2)) (bar_async_arrive 0 4) r sp' w' ∧
    same_but_nodes (wld s') w' ∧ barrier_implements L' s' sp').
Proof.
  apply (barrier_refines demo_barrier_lists (demo_barrier true 2)).
  - split_and!; [exact demo_barrier2_rep|vm_compute; reflexivity..].
  - exact I.
Defined.

Lemma barrier_never_stuck_witness :
  let s := Machine (obj (demo_barrier true 2)) (wld (demo_barrier true 2)) in
  (∃ r s', barrier_exec (bar_arrive 1) s = Some (r, s')) ∧
  (0 < counter_ (obj s))%Z ∧
  ∃ L' q, barrier_rep L' (obj s) (wld s) q ∧
    (counter_ (obj s) + Z.of_nat (length q) ≤ init_ (obj (demo_barrier true 2)))%Z.
Proof.
  apply (barrier_never_stuck demo_barrier_lists (obj (demo_barrier true 2)) (wld (demo_barrier true 2))
    (Machine (obj (demo_barrier true 2)) (wld (demo_barrier true 2)))).
  - exact demo_barrier2_rep.
  - apply bar_run_start.
  - exists no_error. vm_compute. reflexivity.
Defined.

Lemma barrier_try_arrive_witness :
  (counter_ (obj (demo_barrier true 2)) ≠ 1%Z →
   try_arrive (Machine (obj (demo_barrier true 2)) (wld (demo_barrier true 2))) =
     Some (Ok false, Machine (obj (demo_barrier true 2)) (wld (demo_barrier true 2)))) ∧
  (counter_ (obj (demo_barrier true 2)) = 1%Z →
   wp try_arrive (Machine (obj (demo_barrier true 2)) (wld (demo_barrier true 2))) (λ r s', r = Ok true ∧
     events_since (wld (demo_barrier true 2)) (wld s') = [] ∧
     counter_ (obj s') = init_ (obj (demo_barrier true 2)))).
Proof.
  apply (barrier_try_arrive demo_barrier_lists (obj (demo_barrier true 2)) (wld (demo_barrier true 2)) []).
  exact demo_barrier2_rep.
Defined.

Lemma barrier_async_arrive_race_witness :
  wp (b1 ← async_arrive_try 0 4;
      b2 ← async_arrive_try 0 6;
      async_arrive_enqueue 0 4;;
      async_arrive_enqueue 0 6;;
      mret (b1, b2)) (Machine (obj (demo_barrier true 2)) (wld (demo_barrier true 2))) (λ r s,
    r = Ok (false, false) ∧ events_since (wld (demo_barrier true 2)) (wld s) = [] ∧ counter_ (obj s) = 0%Z ∧
    (∃ L' q, queue (wld s) L' (ba_waiters (obj (demo_barrier true 2))) q ∧ omap op_handler q.*2 = [4; 6]) ∧
    wp try_arrive s (λ r' s', r' = Ok false ∧ s' = s)).
Proof.
  apply (barrier_async_arrive_race (ASIO := test_asio) demo_barrier_lists (obj (demo_barrier true 2))
    (wld (demo_barrier true 2)) 0 4 6).
  - exact demo_barrier2_rep.
  - vm_compute. reflexivity.
  - done.
  - done.
Defined.

Lemma barrier_alloc_failure_counts_witness :
  async_arrive 0 13 (Machine (obj (demo_barrier true 2)) (wld (demo_barrier true 2))) =
  Some (Exn bad_alloc,
    Machine (set_counter (counter_ (obj (demo_barrier true 2)) - 1) (obj (demo_barrier true 2))) (wld (demo_barrier true 2))).
Proof.
  apply (barrier_alloc_failure_counts (ASIO := test_asio) demo_barrier_lists (obj (demo_barrier true 2))
    (wld (demo_barrier true 2)) [] 0 13).
  - exact demo_barrier2_rep.
  - vm_compute. reflexivity.
  - reflexivity.
Defined.

Lemma barrier_cancel_counts_witness :
  wp (cancelled_arrivals 0 4 4 2;; async_arrive 0 4) (Machine (obj (demo_barrier true 3)) (wld (demo_barrier true 3)))
    (λ r s, r = Ok tt ∧ omap opened_for (events_since (wld (demo_barrier true 3)) (wld s)) = [4] ∧
      counter_ (obj s) = init_ (obj (demo_barrier true 3))).
Proof.
  apply (barrier_cancel_counts (ASIO := test_asio) demo_barrier_lists (obj (demo_barrier true 3))
    (wld (demo_barrier true 3)) 0 4 4 2).
  - by apply demo_barrier_rep.
  - vm_compute. reflexivity.
  - reflexivity.
  - done.
Defined.
End witnesses.

