(* ===== verification/CondVar.v ===== *)
(** * The condition variable

    [detail::condition_variable_impl], the initiating functions of
    [basic_condition_variable::async_wait] and their cancellation handlers
    ([detail/condition_variable_impl.hpp],
    [detail/impl/condition_variable_impl.ipp], [basic_condition_variable.hpp],
    [impl/basic_condition_variable.hpp]).

    A predicate is a callable of the client. [notify_one] and [notify_all] take
    the values the predicates have during the call as an argument. *)
From S2P Require Import Prelude Machine Bilist Ops Service Impl.

(** ** The code *)

Record condition_variable_impl := CondVarImpl {
  cv_sm : service_member;
  cv_waiters : addr
}.

#[export] Program Instance condvar_member : Member condition_variable_impl := {|
  get_sm := cv_sm;
  set_sm sm m := CondVarImpl sm (cv_waiters m)
|}.
Solve All Obligations with by intros; destruct_all condition_variable_impl.

Section code.
Context {ASIO : Asio}.

Definition condition_variable_impl_ctor {St} (this waiters svc : addr) (config : Z → Z) (hint : Z) :
    M St condition_variable_impl :=
  sm ← service_member_ctor this svc config hint;
  bilist_node_ctor waiters;;
  mret (CondVarImpl sm waiters).

Definition add_waiter (waiter : addr) : M condition_variable_impl unit :=
  m ← get_obj; link_before waiter (cv_waiters m).

(** [predicate_op_model::done()]: the predicate is called. *)
Definition predicate_done (value : predicate → bool) (pr : predicate_fn) : bool :=
  match pr with
  | true_predicate => true
  | user_predicate p => value p
  end.

(** [op->done()] through [predicate_op *]: nothing else is ever in the list. *)
Definition op_done {St} (value : predicate → bool) (p : addr) : M St bool :=
  o ← get_op p;
  match o with
  | predicate_op_model _ _ pr => mret (predicate_done value pr)
  | _ => ub
  end.

Definition notify_one (value : predicate → bool) : M condition_variable_impl unit := with_lock (
  m ← get_obj;
  b ← is_empty (cv_waiters m);
  if (b : bool) then mret tt
  else
    op ← read_next (cv_waiters m);
    d ← op_done value op;
    if (d : bool) then op_complete op no_error else mret tt).

(** The loop of [notify_all], with [c] its variable. *)
Fixpoint notify_loop {St} (fuel : nat) (value : predicate → bool) (waiters c : addr) : M St unit :=
  match fuel with
  | O => ub
  | S n =>
      if bool_decide (c = waiters) then mret tt
      else
        let op := c in
        c ← read_next c;
        d ← op_done value op;
        (if (d : bool) then op_complete op no_error else mret tt);;
        notify_loop n value waiters c
  end.

Definition notify_all (value : predicate → bool) : M condition_variable_impl unit := with_lock (
  m ← get_obj;
  c ← read_next (cv_waiters m);
  fuel ← loop_fuel;
  notify_loop fuel value (cv_waiters m) c).

(** [~predicate_bilist_holder] and [predicate_bilist_holder::shutdown]: the same
    code as in [basic_bilist_holder], with the virtual calls of [predicate_op]. *)
Definition predicate_holder_dtor {St} (this : addr) : M St unit :=
  fuel ← loop_fuel;
  while_ fuel (b ← is_empty this; mret (negb b)) (nx ← read_next this; op_complete nx operation_aborted);;
  free_node this.

Definition predicate_holder_shutdown {St} (this : addr) : M St unit :=
  bn ← stack_node;
  bilist_move_ctor bn this;;
  fuel ← loop_fuel;
  while_ fuel (b ← is_empty bn; mret (negb b))
    (nx ← read_next bn;
     nx2 ← read_next nx;
     op_shutdown nx;;
     write_next bn nx2);;
  free_node bn.

Definition shutdown : M condition_variable_impl unit :=
  w ← with_lock (m ← get_obj; holder_move_ctor (cv_waiters m));
  predicate_holder_shutdown w;;
  predicate_holder_dtor w.

(** [condition_variable_impl(condition_variable_impl &&lhs)]. *)
Definition condition_variable_impl_move_ctor {St} (this waiters : addr) (lhs : condition_variable_impl) :
    M St (condition_variable_impl * condition_variable_impl) :=
  sm ← service_member_move_ctor this (cv_sm lhs);
  bilist_move_ctor waiters (cv_waiters lhs);;
  mret (CondVarImpl sm waiters, lhs).

(** [operator=(condition_variable_impl &&lhs)]: the new [*this] and [lhs]. *)
Definition condition_variable_impl_move_assign {St} (self lhs : condition_variable_impl) :
    M St (condition_variable_impl * condition_variable_impl) :=
  sms ← service_member_move_assign (cv_sm self) (cv_sm lhs);
  holder_swap (cv_waiters lhs) (cv_waiters self);;
  mret (CondVarImpl sms.1 (cv_waiters self), CondVarImpl sms.2 (cv_waiters lhs)).

(** The implicit destructor. *)
Definition condition_variable_impl_dtor : M condition_variable_impl unit :=
  m ← get_obj;
  predicate_holder_dtor (cv_waiters m);;
  service_member_dtor.

(** [async_predicate_wait_op::operator()]. *)
Definition async_predicate_wait (exec : executor) (pr : predicate) (h : handler) : M condition_variable_impl unit :=
  let e := get_associated_executor h exec in
  with_lock (
    model ← predicate_op_model_construct e h (user_predicate pr);
    m ← get_obj;
    let slot := associated_slot h in
    (if is_connected slot then slot_assign slot (CancelHandler model (this_ (get_sm m))) else mret tt);;
    add_waiter model).

(** [async_wait_op::operator()]. *)
Definition async_wait (exec : executor) (h : handler) : M condition_variable_impl unit :=
  let e := get_associated_executor h exec in
  with_lock (
    model ← predicate_op_model_construct e h true_predicate;
    m ← get_obj;
    let slot := associated_slot h in
    (if is_connected slot then slot_assign slot (CancelHandler model (this_ (get_sm m))) else mret tt);;
    add_waiter model).

(** The closure in slot [sl], the same for both. *)
Definition async_wait_cancel (sl : option positive) (c : cancel_handler) (type : bool) :
    M condition_variable_impl unit :=
  if type then
    lock_captured (ch_impl c)
      (if negb (is_connected sl) then mret tt else op_complete (ch_model c) operation_aborted)
  else mret tt.

Definition condvar_emit (n : positive) (type : bool) : M condition_variable_impl unit :=
  w ← get_world;
  match slots w !! n with
  | Some c => async_wait_cancel (Some n) c type
  | None => mret tt
  end.
End code.

(** ** Representation *)

Section rep.
Context {ASIO : Asio}.
Implicit Types (L : gmap addr (list addr)) (m : condition_variable_impl) (w : world) (q : list (addr * op)).

(** The predicate an operation waits for. *)
Definition op_predicate (o : op) : option predicate_fn :=
  match o with
  | predicate_op_model _ _ pr => Some pr
  | _ => None
  end.
Definition is_predicate_op (po : addr * op) : Prop := is_Some (op_predicate po.2).

(** Whether an operation is ready to be completed. *)
Definition ready (value : predicate → bool) (po : addr * op) : bool :=
  match op_predicate po.2 with
  | Some pr => predicate_done value pr
  | None => false
  end.

Record condvar_rep L m w q : Prop := {
  cr_impl : impl_ok L m w q.*1;
  cr_queue : queue w L (cv_waiters m) q;
  cr_predicates : Forall is_predicate_op q
}.

Lemma cv_waiters_entered m : cv_waiters (entered m) = cv_waiters m.
Proof. done. Qed.

Lemma wp_op_done {St} value p o (s : machine St) (Φ : res bool → machine St → Prop) :
  ops (wld s) !! p = Some o → is_predicate_op (p, o) → Φ (Ok (ready value (p, o))) s → wp (op_done value p) s Φ.
Proof.
  intros Hp [pr Hpr] HΦ. apply wp_bind. eapply wp_get_op; [done|].
  unfold ready in HΦ. simpl in *. destruct o; simplify_eq/=. by apply wp_ret.
Qed.

(** [notify_one] looks at the head of the line only. *)
Lemma wp_notify_one L m w q value (Φ : res unit → machine condition_variable_impl → Prop) :
  condvar_rep L m w q →
  match q with
  | po :: q' =>
      if ready value po then ∀ N', let w' := with_nodes N' (finish no_error w po) in
        condvar_rep (<[cv_waiters m := q'.*1]> L) m w' q' → Φ (Ok tt) (Machine m w')
      else Φ (Ok tt) (Machine m w)
  | [] => Φ (Ok tt) (Machine m w)
  end →
  wp (notify_one value) (Machine m w) Φ.
Proof.
  intros [Hi Hq Hp] HΦ. pose proof (io_world _ _ _ _ Hi) as Hw. apply wp_critical; [apply Hi|].
  apply wp_bind, wp_get_obj. cbn [obj]. rewrite cv_waiters_entered.
  apply wp_bind. eapply wp_is_empty; [apply Hw|apply Hq|]. destruct q as [|[p o] q]; simpl.
  - apply wp_ret. simpl. rewrite get_mtx_entered, leave_entered. done.
  - apply Forall_cons in Hp as [Hp Hps].
    apply wp_bind. eapply wp_holder_first; [apply Hw|apply Hq|].
    apply wp_bind. eapply (wp_op_done value p o); [eapply queue_member; [done|by left]|done|].
    destruct (ready value (p, o)).
    + eapply (wp_complete_queued m _ _ [] p o q _ _ _ _ q.*1); [done..|set_solver|].
      intros N' w' L' H1 H2 _. simpl. rewrite get_mtx_entered, leave_entered.
      split; [done|]. apply HΦ. by split.
    + apply wp_ret. simpl. rewrite get_mtx_entered, leave_entered. done.
Qed.

(** The loop of [notify_all] between the operations it leaves in line, [keep],
    and those it has not looked at, [q]. *)
Lemma wp_notify_loop value fuel r keep q m m' w L (Φ : res unit → machine condition_variable_impl → Prop) c :
  impl_ok L m w (keep ++ q).*1 → queue w L r (keep ++ q) → Forall is_predicate_op (keep ++ q) →
  length q < fuel → c = hd r q.*1 →
  (∀ N', let w' := with_nodes N' (finish_all no_error (filter (λ po, ready value po) q) w) in
     let rest := keep ++ filter (λ po, negb (ready value po)) q in
     let L' := <[r := rest.*1]> L in
     impl_ok L' m w' rest.*1 → queue w' L' r rest → Φ (Ok tt) (Machine m' w')) →
  wp (notify_loop fuel value r c) (Machine m' w) Φ.
Proof.
  revert keep w L fuel c. induction q as [|[p o] q IH]; intros keep w L [|fuel] c Hi Hq Hp Hf -> HΦ;
    cbn [notify_loop hd fmap list_fmap length] in *; try lia.
  - rewrite bool_decide_eq_true_2 by done. apply wp_ret. rewrite app_nil_r in *.
    specialize (HΦ (nodes w)). cbv zeta in HΦ. rewrite ?filter_nil, ?app_nil_r in HΦ.
    change (finish_all _ [] w) with w in HΦ. rewrite with_nodes_id, insert_id in HΦ by apply Hq. by apply HΦ.
  - pose proof (io_world _ _ _ _ Hi) as Hw. pose proof (hr_dlist _ _ (wo_heap _ _ Hw) _ _ (proj1 Hq)) as [Hnd Hs].
    rewrite fmap_app in Hnd, Hs. cbn [fst] in *. simpl in Hnd, Hs.
    rewrite bool_decide_eq_false_2 by (intros ->; apply NoDup_cons in Hnd as [Hn _]; set_solver).
    apply seg_app in Hs as [_ Hs]. apply wp_bind. eapply wp_read_next; [by eapply seg_first|].
    assert (is_predicate_op (p, o)) as Hpo.
    { apply Forall_app in Hp as [_ Hp]. by apply Forall_cons in Hp as [? _]. }
    apply wp_bind. eapply (wp_op_done value p o); [eapply queue_member; [done|set_solver]|done|].
    rewrite !filter_cons in HΦ. apply wp_bind. destruct (ready value (p, o)) eqn:Hrd.
    + eapply (wp_complete_queued m m' r keep p o q _ _ _ _ (keep ++ q).*1); [done..| |].
      { rewrite !fmap_app. set_solver. }
      intros N1 w1 L1 H1 H2 _. eapply IH; [exact H1|exact H2| |lia|done|].
      { by apply Forall_elem_of_mid in Hp as [_ ?]. }
      intros N2 H3 H4. unfold w1, L1 in *. rewrite finish_all_with_nodes in *.
      rewrite insert_insert_eq in *. rewrite decide_False in HΦ by (by intros ?). rewrite decide_True in HΦ by done.
      by apply (HΦ N2).
    + apply wp_ret. rewrite decide_True in HΦ by done. rewrite decide_False in HΦ by (by intros ?).
      eapply (IH (keep ++ [(p, o)])); rewrite <- ?app_assoc; [done..|lia|done|]. exact HΦ.
Qed.

(** [notify_all] completes every ready operation, in order; the others keep
    their places. *)
Lemma wp_notify_all L m w q value (Φ : res unit → machine condition_variable_impl → Prop) :
  condvar_rep L m w q →
  (∀ N', let w' := with_nodes N' (finish_all no_error (filter (λ po, ready value po) q) w) in
     let rest := filter (λ po, negb (ready value po)) q in
     condvar_rep (<[cv_waiters m := rest.*1]> L) m w' rest → Φ (Ok tt) (Machine m w')) →
  wp (notify_all value) (Machine m w) Φ.
Proof.
  intros [Hi Hq Hp] HΦ. pose proof (io_world _ _ _ _ Hi) as Hw. apply wp_critical; [apply Hi|].
  apply wp_bind, wp_get_obj. cbn [obj]. rewrite cv_waiters_entered.
  pose proof (hr_dlist _ _ (wo_heap _ _ Hw) _ _ (proj1 Hq)) as [_ Hs].
  apply wp_bind. eapply wp_read_next; [by eapply seg_first|]. apply wp_bind, wp_loop_fuel.
  eapply (wp_notify_loop value _ _ [] q m); [done..|by eapply queue_length_fuel|done|].
  intros N' w' rest L' H1 H2. cbn [obj wld]. rewrite get_mtx_entered, leave_entered. split; [done|].
  apply HΦ. split; [done..|]. simpl. apply Forall_forall. intros po [_ Hin]%list_elem_of_filter.
  rewrite Forall_forall in Hp. by apply Hp.
Qed.

Lemma condvar_rep_enqueued L m w q p o N' :
  condvar_rep L m w q → is_predicate_op (p, o) → nodes w !! p = None →
  let w' := with_nodes N' (enqueued (this_ (get_sm m)) (p, o) w) in
  world_ok w' (<[cv_waiters m := q.*1 ++ [p]]> L) →
  condvar_rep (<[cv_waiters m := q.*1 ++ [p]]> L) m w' (q ++ [(p, o)]).
Proof.
  intros [Hi Hq Hps] Hpo Hp w' Hok'.
  split; [|by apply queue_enqueued; [apply Hi|..]|by apply Forall_app; split; [|apply Forall_singleton]].
  eapply impl_ok_enqueued; [done..|]. rewrite fmap_app. set_solver.
Qed.

(** Both [async_wait]s put an operation in line, or throw and change nothing. *)
Lemma wp_async_predicate_wait L m w q exec pr h (Φ : res unit → machine condition_variable_impl → Prop) :
  condvar_rep L m w q →
  (allocate h (dom (nodes w)) = None → Φ (Exn bad_alloc) (Machine m w)) →
  (∀ p N', allocate h (dom (nodes w)) = Some p → nodes w !! p = None →
     let po := (p, predicate_op_model (get_associated_executor h exec) h (user_predicate pr)) in
     let w' := with_nodes N' (enqueued (this_ (get_sm m)) po w) in
     condvar_rep (<[cv_waiters m := q.*1 ++ [p]]> L) m w' (q ++ [po]) → Φ (Ok tt) (Machine m w')) →
  wp (async_predicate_wait exec pr h) (Machine m w) Φ.
Proof.
  intros Hr Hfail Hwait. pose proof Hr as [Hi Hq Hps]. pose proof (io_world _ _ _ _ Hi) as Hw.
  apply wp_critical; [apply Hi|]. apply wp_bind, wp_predicate_op_model_construct.
  - intros Ha. simpl. rewrite get_mtx_entered, leave_entered. auto.
  - intros p Ha Hp. apply wp_bind, wp_get_obj. cbn [obj].
    eapply (wp_arm_and_link (this_ (cv_sm m)) p (predicate_op_model _ h _)); [done|apply Hq|done..|].
    intros N' Hok'. cbn [obj wld]. rewrite get_mtx_entered, leave_entered. split; [done|].
    apply Hwait; [done..|]. apply condvar_rep_enqueued; [done|by eexists|done..].
Qed.

Lemma wp_async_wait L m w q exec h (Φ : res unit → machine condition_variable_impl → Prop) :
  condvar_rep L m w q →
  (allocate h (dom (nodes w)) = None → Φ (Exn bad_alloc) (Machine m w)) →
  (∀ p N', allocate h (dom (nodes w)) = Some p → nodes w !! p = None →
     let po := (p, predicate_op_model (get_associated_executor h exec) h true_predicate) in
     let w' := with_nodes N' (enqueued (this_ (get_sm m)) po w) in
     condvar_rep (<[cv_waiters m := q.*1 ++ [p]]> L) m w' (q ++ [po]) → Φ (Ok tt) (Machine m w')) →
  wp (async_wait exec h) (Machine m w) Φ.
Proof.
  intros Hr Hfail Hwait. pose proof Hr as [Hi Hq Hps]. pose proof (io_world _ _ _ _ Hi) as Hw.
  apply wp_critical; [apply Hi|]. apply wp_bind, wp_predicate_op_model_construct.
  - intros Ha. simpl. rewrite get_mtx_entered, leave_entered. auto.
  - intros p Ha Hp. apply wp_bind, wp_get_obj. cbn [obj].
    eapply (wp_arm_and_link (this_ (cv_sm m)) p (predicate_op_model _ h _)); [done|apply Hq|done..|].
    intros N' Hok'. cbn [obj wld]. rewrite get_mtx_entered, leave_entered. split; [done|].
    apply Hwait; [done..|]. apply condvar_rep_enqueued; [done|by eexists|done..].
Qed.

Lemma wp_condvar_emit L m w q n type (Φ : res unit → machine condition_variable_impl → Prop) :
  condvar_rep L m w q → (∀ c, slots w !! n = Some c → ch_impl c = this_ (get_sm m)) →
  (type = false ∨ slots w !! n = None → Φ (Ok tt) (Machine m w)) →
  (type = true → ∀ q1 p o q2 N', q = q1 ++ (p, o) :: q2 → slots w !! n = Some (CancelHandler p (this_ (get_sm m))) →
     let w' := with_nodes N' (finish operation_aborted w (p, o)) in
     condvar_rep (<[cv_waiters m := (q1 ++ q2).*1]> L) m w' (q1 ++ q2) →
     Φ (Ok tt) (Machine m w')) →
  wp (condvar_emit n type) (Machine m w) Φ.
Proof.
  intros Hr Hmine Hnone Hsome. pose proof Hr as [Hi Hq Hps].
  apply wp_bind, wp_get_world. simpl. destruct (slots w !! n) as [[p i]|] eqn:Hn; [|apply wp_ret; auto].
  unfold async_wait_cancel. destruct type; [|apply wp_ret; auto].
  specialize (Hmine _ eq_refl). simpl in Hmine. subst i.
  destruct (queue_split _ _ _ _ _ Hq (closure_member _ _ _ _ _ _ Hi Hn eq_refl)) as (q1 & o & q2 & -> & Hp).
  eapply (wp_lock_captured _ q1 o q2 _ _ _ _ _ (q1 ++ q2).*1); [done|done|done| |].
  - rewrite !fmap_app. set_solver.
  - intros N' w' L' H1 H2 _. eapply Hsome; [done..|]. split; [done..|].
    by apply Forall_elem_of_mid in Hps as [_ ?].
Qed.

Lemma wp_condvar_shutdown L m w q (Φ : res unit → machine condition_variable_impl → Prop) :
  condvar_rep L m w q →
  (∀ N', let w' := with_nodes N' (abort_all q w) in
     condvar_rep (<[cv_waiters m := []]> L) m w' [] → Φ (Ok tt) (Machine m w')) →
  wp shutdown (Machine m w) Φ.
Proof.
  intros [Hi Hq Hps] HΦ. eapply (wp_impl_shutdown cv_waiters m w L q.*1 q); try done.
  intros N' w' H1 H2. apply HΦ. by split.
Qed.
End rep.

(** ** Construction and destruction *)

Section life.
Context {ASIO : Asio}.
Implicit Types (L : gmap addr (list addr)) (w : world) (q : list (addr * op)).

Lemma wp_condition_variable_impl_ctor {St} this waiters svc config hint (m : St) w L ms
    (Φ : res condition_variable_impl → machine St → Prop) :
  world_ok w L → service_ok w L svc ms → nodes w !! this = None → nodes w !! waiters = None →
  this ≠ waiters → unreferenced w this →
  (∀ N', let w' := with_nodes N' w in let L' := <[waiters := []]> (<[svc := ms ++ [this]]> L) in
     let c := cem_ctor (negb (is_single_threaded config hint)) in
     let cv := CondVarImpl (ServiceMember this (Some svc) c) waiters in
     condvar_rep L' cv w' [] → service_ok w' L' svc (ms ++ [this]) → Φ (Ok cv) (Machine m w')) →
  wp (condition_variable_impl_ctor this waiters svc config hint) (Machine m w) Φ.
Proof.
  intros Hok Hs Hthis Hwait Hne Hun HΦ. apply wp_bind.
  eapply wp_service_member_ctor; [done..|]. intros N1 w1 L1 Hok1 Hs1 Hdom.
  apply wp_bind. eapply (wp_new_root waiters this svc m w _ L L1 N1 ms); [done..|]. intros N2 w2 L2 Hok2 Hs2.
  apply wp_ret. apply (HΦ N2); [|done].
  split; [|split; [by rewrite lookup_insert_eq|done]|done].
  split; [done|done|]. by apply closures_unreferenced.
Qed.

Lemma wp_condition_variable_impl_dtor L m w q svc xs ys (Φ : res unit → machine condition_variable_impl → Prop) :
  condvar_rep L m w q → service (get_sm m) = Some svc →
  service_ok w L svc (xs ++ this_ (get_sm m) :: ys) → svc ≠ cv_waiters m →
  (∀ N', let w' := with_nodes N' (finish_all operation_aborted q w) in
     let L' := <[svc := xs ++ ys]> (delete (cv_waiters m) L) in
     world_ok w' L' → service_ok w' L' svc (xs ++ ys) → Φ (Ok tt) (Machine m w')) →
  wp condition_variable_impl_dtor (Machine m w) Φ.
Proof.
  intros [[Hok Hi Hc] Hq _] Hsvc Hs Hne HΦ. apply wp_bind, wp_get_obj. cbn [obj].
  eapply (wp_impl_dtor (cv_waiters m)); done.
Qed.
End life.
