(* ===== verification/CondVarSpec.v ===== *)
(** * The condition variable: abstract specification, refinement and properties

    The abstract condition variable is the line of operations that wait, each
    with its predicate. *)
From S2P Require Import Prelude Machine Bilist Ops Service Impl CondVar.

Section commands.
Context {ASIO : Asio}.

Inductive condvar_cmd :=
  | cv_async_wait (exec : executor) (h : handler)
  | cv_async_wait_for (exec : executor) (pr : predicate) (h : handler)
  | cv_notify_one (value : predicate → bool)
  | cv_notify_all (value : predicate → bool)
  | cv_emit (n : positive) (type : bool)
  | cv_shutdown.

Definition condvar_exec (c : condvar_cmd) : M condition_variable_impl unit :=
  match c with
  | cv_async_wait exec h => async_wait exec h
  | cv_async_wait_for exec pr h => async_predicate_wait exec pr h
  | cv_notify_one value => notify_one value
  | cv_notify_all value => notify_all value
  | cv_emit n type => condvar_emit n type
  | cv_shutdown => shutdown
  end.

Definition condvar_pre (c : condvar_cmd) (s : machine condition_variable_impl) : Prop :=
  match c with
  | cv_emit n _ => ∀ c, slots (wld s) !! n = Some c → ch_impl c = this_ (get_sm (obj s))
  | _ => True
  end.

(** [condvar_step impl q w c r q' w']. *)
Inductive condvar_step (impl : addr) :
    list (addr * op) → world → condvar_cmd → res unit → list (addr * op) → world → Prop :=
  | cs_wait exec h q w p : ops w !! p = None →
      let po := (p, predicate_op_model (get_associated_executor h exec) h true_predicate) in
      condvar_step impl q w (cv_async_wait exec h) (Ok tt) (q ++ [po]) (enqueued impl po w)
  | cs_wait_fail exec h q w X : allocate h X = None →
      condvar_step impl q w (cv_async_wait exec h) (Exn bad_alloc) q w
  | cs_wait_for exec pr h q w p : ops w !! p = None →
      let po := (p, predicate_op_model (get_associated_executor h exec) h (user_predicate pr)) in
      condvar_step impl q w (cv_async_wait_for exec pr h) (Ok tt) (q ++ [po]) (enqueued impl po w)
  | cs_wait_for_fail exec pr h q w X : allocate h X = None →
      condvar_step impl q w (cv_async_wait_for exec pr h) (Exn bad_alloc) q w
  | cs_one_none value w : condvar_step impl [] w (cv_notify_one value) (Ok tt) [] w
  | cs_one_head value po q w : ready value po = true →
      condvar_step impl (po :: q) w (cv_notify_one value) (Ok tt) q (finish no_error w po)
  | cs_one_blocked value po q w : ready value po = false →
      condvar_step impl (po :: q) w (cv_notify_one value) (Ok tt) (po :: q) w
  | cs_all value q w :
      condvar_step impl q w (cv_notify_all value) (Ok tt) (filter (λ po, negb (ready value po)) q)
        (finish_all no_error (filter (λ po, ready value po) q) w)
  | cs_emit_nothing n type q w : type = false ∨ slots w !! n = None →
      condvar_step impl q w (cv_emit n type) (Ok tt) q w
  | cs_emit_abort n q1 p o q2 w : slots w !! n = Some (CancelHandler p impl) →
      condvar_step impl (q1 ++ (p, o) :: q2) w (cv_emit n true) (Ok tt) (q1 ++ q2) (finish operation_aborted w (p, o))
  | cs_shutdown q w : condvar_step impl q w cv_shutdown (Ok tt) [] (abort_all q w).

(** Any interleaving of calls. *)
Inductive condvar_run s0 : machine condition_variable_impl → Prop :=
  | cv_run_start : condvar_run s0 s0
  | cv_run_call s c r s' : condvar_run s0 s → condvar_pre c s → condvar_exec c s = Some (r, s') →
      condvar_run s0 s'.
End commands.

Section refinement.
Context {ASIO : Asio}.
Implicit Types (L : gmap addr (list addr)) (m : condition_variable_impl) (w : world) (q : list (addr * op)).

Definition condvar_roots m : list addr := [cv_waiters m].

Definition cv_refined L m w q (c : condvar_cmd) (r : res unit) (s' : machine condition_variable_impl) : Prop :=
  ∃ L' q' w', condvar_step (this_ (get_sm m)) q w c r q' w' ∧
    same_but_nodes (wld s') w' ∧ obj s' = m ∧ condvar_rep L' m (wld s') q' ∧ same_lists (condvar_roots m) L L'.

Lemma cv_refined_intro L' q' w' w2 L m w q c r :
  condvar_step (this_ (get_sm m)) q w c r q' w' → same_but_nodes w2 w' → condvar_rep L' m w2 q' →
  same_lists [cv_waiters m] L L' → cv_refined L m w q c r (Machine m w2).
Proof. intros. by exists L', q', w'. Qed.

Lemma condvar_exec_refines c L m w q :
  condvar_rep L m w q → condvar_pre c (Machine m w) → wp (condvar_exec c) (Machine m w) (cv_refined L m w q c).
Proof.
  intros Hr Hpre. destruct c as [exec h|exec pr h|value|value|n type|]; simpl in *.
  - eapply wp_async_wait; [done|..].
    + intros Ha. eapply (cv_refined_intro L); [by eapply cs_wait_fail|reflexivity|done..].
    + intros p N' Ha Hp po w' Hr'.
      eapply cv_refined_intro; [apply cs_wait; eapply fresh_op; [apply Hr|done]|apply same_with_nodes|done..].
  - eapply wp_async_predicate_wait; [done|..].
    + intros Ha. eapply (cv_refined_intro L); [by eapply cs_wait_for_fail|reflexivity|done..].
    + intros p N' Ha Hp po w' Hr'.
      eapply cv_refined_intro; [apply cs_wait_for; eapply fresh_op; [apply Hr|done]|apply same_with_nodes|done..].
  - eapply wp_notify_one; [done|]. destruct q as [|po q].
    + eapply (cv_refined_intro L); [apply cs_one_none|reflexivity|done..].
    + destruct (ready value po) eqn:Hrd.
      * intros N' w' Hr'. eapply cv_refined_intro; [by apply cs_one_head|apply same_with_nodes|done..].
      * eapply (cv_refined_intro L); [by apply cs_one_blocked|reflexivity|done..].
  - eapply wp_notify_all; [done|]. intros N' w' rest Hr'.
    eapply cv_refined_intro; [apply cs_all|apply same_with_nodes|done..].
  - eapply wp_condvar_emit; [done..| |].
    + intros Hn. eapply (cv_refined_intro L); [by apply cs_emit_nothing|reflexivity|done..].
    + intros -> q1 p o q2 N' -> Hn w' Hr'.
      eapply cv_refined_intro; [by apply cs_emit_abort|apply same_with_nodes|done..].
  - eapply wp_condvar_shutdown; [done|]. intros N' w' Hr'.
    eapply cv_refined_intro; [apply cs_shutdown|apply same_with_nodes|done..].
Qed.

Lemma cv_run_invariant L m w s :
  condvar_rep L m w [] → condvar_run (Machine m w) s → obj s = m ∧ ∃ L' q, condvar_rep L' m (wld s) q.
Proof.
  intros Hr. induction 1 as [|s c r s' _ (E & L' & q & Hr') Hpre Hex]; [split; [done|by exists L, []]|].
  destruct s as [m1 w1]. simpl in *. subst m1.
  pose proof (condvar_exec_refines _ _ _ _ _ Hr' Hpre) as Hwp. unfold wp in Hwp. rewrite Hex in Hwp.
  destruct Hwp as (L2 & q2 & w2 & _ & _ & E & Hr2 & _). split; [done|by exists L2, q2].
Qed.
End refinement.

(** ** Properties *)

Section properties.
Context {ASIO : Asio}.
Implicit Types (L : gmap addr (list addr)) (m : condition_variable_impl) (w : world) (q : list (addr * op)).

(** C20: [notify_all] completes exactly the operations whose predicate holds,
    each once, in the order they came and with no error; the others keep their
    places. *)
Theorem condvar_notify_all L m w q value :
  condvar_rep L m w q →
  wp (notify_all value) (Machine m w) (λ r s', r = Ok tt ∧
    events_since w (wld s') = (filter (λ po, ready value po) q ≫= completion no_error) ∧
    ∃ L', condvar_rep L' m (wld s') (filter (λ po, negb (ready value po)) q)).
Proof.
  intros Hr. eapply wp_notify_all; [done|]. intros N' w' rest Hr'.
  split_and!; [done|by apply events_since_app, trace_finish_all|by eexists].
Qed.

(** [notify_one] completes the operation at the head of the line when its
    predicate holds, and nothing otherwise: an operation that is ready behind
    one that is not stays asleep. *)
Theorem condvar_notify_one_head L m w po q value :
  condvar_rep L m w (po :: q) →
  wp (notify_one value) (Machine m w) (λ r s', r = Ok tt ∧
    if ready value po then events_since w (wld s') = completion no_error po ∧ ∃ L', condvar_rep L' m (wld s') q
    else s' = Machine m w).
Proof.
  intros Hr. eapply wp_notify_one; [done|]. cbv beta iota. destruct (ready value po) eqn:E; [|done].
  intros N' w' Hr'. split_and!; [done|by apply events_since_app, trace_finish|by eexists].
Qed.

(** A change that comes between a look at the condition and the wait. *)
Definition notify_then_wait (value : predicate → bool) (exec : executor) (pr : predicate) (h : handler) :
    M condition_variable_impl unit :=
  notify_all value;; async_predicate_wait exec pr h.

(** A notification is not remembered, and [async_wait] does not look at its
    predicate: a coroutine that waits for a condition which holds, after the
    [notify_all] that would have told it, is told nothing and stays in line, ready
    as it is. Only the next notification completes it. *)
Theorem condvar_forgets_notification L m w exec pr h value :
  condvar_rep L m w [] → value pr = true → (∀ X, allocate h X ≠ None) →
  wp (notify_then_wait value exec pr h) (Machine m w) (λ r s', r = Ok tt ∧ trace (wld s') = trace w ∧
    ∃ p, ready value (p, predicate_op_model (get_associated_executor h exec) h (user_predicate pr)) = true ∧
      wp (notify_all value) s' (λ r s'', r = Ok tt ∧
        events_since (wld s') (wld s'') = [ev_deallocate p; ev_post (get_associated_executor h exec) h no_error] ∧
        ∃ L', condvar_rep L' m (wld s'') [])).
Proof.
  intros Hr Hv Ha. apply wp_bind. eapply wp_notify_all; [exact Hr|]. intros N1 w1 rest Hr1.
  eapply wp_async_predicate_wait; [exact Hr1|by intros ?%Ha|]. intros p N2 _ Hp po w2 Hr2. split; [done|]. split; [done|].
  exists p. split; [exact Hv|]. eapply wp_notify_all; [exact Hr2|]. intros N3 w3 rest3 Hr3.
  assert (ready value po = true) as Hrd by exact Hv. split_and!; [done| |].
  - simpl. apply events_since_app. unfold w3. simpl.
    rewrite trace_finish_all, filter_cons_True by (by rewrite Hrd). by rewrite filter_nil.
  - eexists. unfold rest3 in Hr3. simpl app in Hr3. rewrite filter_cons_False, filter_nil in Hr3 by (rewrite Hrd; by intros ?). exact Hr3.
Qed.

(** C28: refinement. Every call on a condition variable in whose line the
    operations [q] wait, in this order and with their predicates, is a step of the
    abstract line from [q], with the abstract answer and the abstract effects
    (list nodes aside), and leaves the same object with the abstract successor in
    line. A signal that is emitted must belong to this condition variable. *)
Theorem condvar_refines L s q c :
  condvar_rep L (obj s) (wld s) q → condvar_pre c s →
  wp (condvar_exec c) s (λ r s', ∃ L' q' w',
    condvar_step (this_ (get_sm (obj s))) q (wld s) c r q' w' ∧ same_but_nodes (wld s') w' ∧
    obj s' = obj s ∧ condvar_rep L' (obj s') (wld s') q').
Proof.
  destruct s as [m w]. intros Hr Hpre. eapply wp_mono; [by apply (condvar_exec_refines c L m w q)|].
  intros r s' (L' & q' & w' & H1 & H2 & E & H3 & _). exists L', q', w'. by rewrite E.
Qed.

(** After any interleaving of calls every call has an outcome. *)
Theorem condvar_never_stuck L m w s c :
  condvar_rep L m w [] → condvar_run (Machine m w) s → condvar_pre c s → ∃ r s', condvar_exec c s = Some (r, s').
Proof.
  intros Hr Hrun Hpre. destruct (cv_run_invariant _ _ _ _ Hr Hrun) as (E & L' & q & Hr').
  destruct s as [m1 w1]. simpl in *. subst m1.
  pose proof (condvar_exec_refines c L' m w1 q Hr' Hpre) as (r & s' & Hex & _)%wp_run. by exists r, s'.
Qed.
End properties.

(** ** The properties at work *)

Definition demo_condvar : machine condition_variable_impl :=
  match condition_variable_impl_ctor 2 3 1 (demo_config true) (-1) (Machine tt (demo_world true)) with
  | Some (Ok m, s) => Machine m (wld s)
  | _ => Machine (CondVarImpl (ServiceMember 2 None (cem_ctor false)) 3) (demo_world true)
  end.
Definition demo_condvar_lists : gmap addr (list addr) := <[3%positive := []]> (<[1%positive := [2%positive]]> demo_lists).
(** Handler 4 waits for predicate 1, handler 6 for predicate 2. *)
Definition demo_condvar1 : machine condition_variable_impl :=
  after (async_predicate_wait 0 1 4 demo_condvar) demo_condvar.
Definition demo_condvar2 : machine condition_variable_impl :=
  after (async_predicate_wait 0 2 6 demo_condvar1) demo_condvar1.
Definition demo_cv_op (h pr : nat) : op := @predicate_op_model test_asio h h (@user_predicate test_asio pr).

Section witnesses.

Lemma demo_condvar_rep : condvar_rep demo_condvar_lists (obj demo_condvar) (wld demo_condvar) [].
Proof.
  destruct (demo_world_ok true) as [Hok Hs].
  assert (wp (condition_variable_impl_ctor 2 3 1 (demo_config true) (-1)) (Machine tt (demo_world true)) (λ r s,
    match r with
    | Ok m => condvar_rep demo_condvar_lists m (wld s) []
    | Exn _ => False end)) as H.
  { eapply wp_condition_variable_impl_ctor; [exact Hok|exact Hs|done..| |].
    - by intros n c.
    - intros N' w' L' c cv H1 H2. done. }
  unfold demo_condvar. unfold wp in H. destruct (condition_variable_impl_ctor _ _ _ _ _ _) as [[[m|] s]|]; done.
Qed.

Lemma demo_condvar_wait L s q (h pr : nat) p :
  condvar_rep L (obj s) (wld s) q → h ≠ 13 → fresh (dom (nodes (wld s))) = p →
  condvar_rep (<[cv_waiters (obj s) := q.*1 ++ [p]]> L) (obj s)
    (wld (after (async_predicate_wait 0 pr h s) s))
    (q ++ [(p, predicate_op_model (get_associated_executor h 0) h (user_predicate pr))]) ∧
  obj (after (async_predicate_wait 0 pr h s) s) = obj s.
Proof.
  intros Hr H13 Hp. destruct s as [m w]. apply wp_after. simpl in *.
  eapply wp_async_predicate_wait; [done|intros Ha; simpl in Ha; by rewrite (proj2 (Nat.eqb_neq h 13) H13) in Ha|].
  intros p' N' Ha Hfr po w' Hr'. simpl in Ha. rewrite (proj2 (Nat.eqb_neq h 13) H13) in Ha. simplify_eq. done.
Qed.

Lemma demo_condvar2_rep :
  condvar_rep (<[3%positive := [4%positive; 5%positive]]> demo_condvar_lists) (obj demo_condvar2) (wld demo_condvar2)
    [(4%positive, demo_cv_op 4 1); (5%positive, demo_cv_op 6 2)].
Proof.
  destruct (demo_condvar_wait _ demo_condvar [] 4 1 4 demo_condvar_rep) as [H1 O1]; [done|by vm_compute|].
  fold demo_condvar1 in H1, O1. rewrite <- O1 in H1 at 2.
  destruct (demo_condvar_wait _ demo_condvar1 _ 6 2 5 H1) as [H2 O2]; [done|by vm_compute|].
  fold demo_condvar2 in H2, O2. rewrite <- O2 in H2 at 2.
  rewrite O1 in H2. replace (cv_waiters (obj demo_condvar)) with 3%positive in H2 by (vm_compute; reflexivity).
  rewrite insert_insert_eq in H2. exact H2.
Qed.

(** Predicate 2 holds, predicate 1 does not. *)
Definition demo_values : nat → bool := Nat.eqb 2.

Lemma condvar_notify_all_witness :
  wp (notify_all demo_values) (Machine (obj demo_condvar2) (wld demo_condvar2)) (λ r s', r = Ok tt ∧
    events_since (wld demo_condvar2) (wld s') = [@ev_deallocate test_asio 5; @ev_post test_asio 6 6 no_error] ∧
    ∃ L', condvar_rep L' (obj demo_condvar2) (wld s') [(4%positive, demo_cv_op 4 1)]).
Proof.
  apply (condvar_notify_all (ASIO := test_asio) (<[3%positive := [4%positive; 5%positive]]> demo_condvar_lists) _ _
    [(4%positive, demo_cv_op 4 1); (5%positive, demo_cv_op 6 2)] demo_values).
  exact demo_condvar2_rep.
Defined.

Lemma condvar_notify_one_head_witness :
  wp (notify_one demo_values) (Machine (obj demo_condvar2) (wld demo_condvar2)) (λ r s', r = Ok tt ∧
    s' = Machine (obj demo_condvar2) (wld demo_condvar2)).
Proof.
  apply (condvar_notify_one_head (ASIO := test_asio) (<[3%positive := [4%positive; 5%positive]]> demo_condvar_lists)
    _ _ (4%positive, demo_cv_op 4 1) [(5%positive, demo_cv_op 6 2)] demo_values).
  exact demo_condvar2_rep.
Defined.

Lemma condvar_forgets_notification_witness :
  wp (@notify_then_wait test_asio demo_values 0 2 4) (Machine (obj demo_condvar) (wld demo_condvar)) (λ r s', r = Ok tt ∧
    trace (wld s') = trace (wld demo_condvar) ∧
    ∃ p, ready demo_values (p, demo_cv_op 4 2) = true ∧
      wp (notify_all demo_values) s' (λ r s'', r = Ok tt ∧
        events_since (wld s') (wld s'') = [@ev_deallocate test_asio p; @ev_post test_asio 4 4 no_error] ∧
        ∃ L', condvar_rep L' (obj demo_condvar) (wld s'') [])).
Proof.
  apply (condvar_forgets_notification (ASIO := test_asio) demo_condvar_lists (obj demo_condvar) (wld demo_condvar) 0 2 4 demo_values).
  - exact demo_condvar_rep.
  - reflexivity.
  - by intros X.
Defined.

Lemma condvar_refines_witness :
  let q := [(4%positive, demo_cv_op 4 1); (5%positive, demo_cv_op 6 2)] in
  wp (condvar_exec (@cv_notify_one test_asio demo_values)) demo_condvar2 (λ r s', ∃ L' q' w',
    condvar_step (this_ (get_sm (obj demo_condvar2))) q (wld demo_condvar2) (@cv_notify_one test_asio demo_values) r q' w' ∧
    same_but_nodes (wld s') w' ∧ obj s' = obj demo_condvar2 ∧ condvar_rep L' (obj s') (wld s') q').
Proof.
  apply (condvar_refines (ASIO := test_asio) (<[3%positive := [4%positive; 5%positive]]> demo_condvar_lists) demo_condvar2
    [(4%positive, demo_cv_op 4 1); (5%positive, demo_cv_op 6 2)] (@cv_notify_one test_asio demo_values)).
  - exact demo_condvar2_rep.
  - exact I.
Defined.
End witnesses.
