(* ===== verification/SharedMutex.v ===== *)
(** * The shared mutex

    [detail::shared_mutex_impl] and the initiating functions of
    [basic_shared_mutex] ([detail/shared_mutex_impl.hpp],
    [detail/impl/shared_mutex_impl.ipp], [basic_shared_mutex.hpp],
    [impl/basic_shared_mutex.hpp]). The class derives from [mutex_impl]: its
    exclusive line is the base's [waiters_], the line of [async_lock_shared] is
    [shared_waiters_]. [locked_shared_] is a [std::uintptr_t] and wraps. *)
From S2P Require Import Prelude Machine Bilist Ops Service Impl Mutex.

(** ** The code *)

Record shared_mutex_impl := SharedMutexImpl {
  sh_mutex : mutex_impl;
  locked_shared_ : Z;
  shared_waiters_ : addr
}.

#[export] Program Instance shared_mutex_member : Member shared_mutex_impl := {|
  get_sm m := mi_sm (sh_mutex m);
  set_sm sm m := SharedMutexImpl (MutexImpl sm (locked_ (sh_mutex m)) (waiters_ (sh_mutex m)))
                   (locked_shared_ m) (shared_waiters_ m)
|}.
Solve All Obligations with by intros; destruct_all shared_mutex_impl; destruct_all mutex_impl.

Definition sh_locked (m : shared_mutex_impl) : bool := locked_ (sh_mutex m).
Definition sh_waiters (m : shared_mutex_impl) : addr := waiters_ (sh_mutex m).
Definition set_sh_locked (b : bool) (m : shared_mutex_impl) : shared_mutex_impl :=
  SharedMutexImpl (set_locked b (sh_mutex m)) (locked_shared_ m) (shared_waiters_ m).
Definition set_locked_shared (z : Z) (m : shared_mutex_impl) : shared_mutex_impl :=
  SharedMutexImpl (sh_mutex m) z (shared_waiters_ m).

Section code.
Context {ASIO : Asio}.

(** The inherited constructor and the member initialisers. *)
Definition shared_mutex_impl_ctor {St} (this waiters shared_waiters svc : addr) (config : Z → Z) (hint : Z) :
    M St shared_mutex_impl :=
  mi ← mutex_impl_ctor this waiters svc config hint;
  bilist_node_ctor shared_waiters;;
  mret (SharedMutexImpl mi 0 shared_waiters).

Definition add_waiter (waiter : addr) : M shared_mutex_impl unit :=
  m ← get_obj; link_before waiter (sh_waiters m).
Definition add_shared_waiter (waiter : addr) : M shared_mutex_impl unit :=
  m ← get_obj; link_before waiter (shared_waiters_ m).

(** [locked_shared_++] and [locked_shared_--]. *)
Definition inc_shared : M shared_mutex_impl unit :=
  modify_obj (λ m, set_locked_shared (wrap_u64 (locked_shared_ m + 1)) m).
Definition dec_shared : M shared_mutex_impl unit :=
  modify_obj (λ m, set_locked_shared (wrap_u64 (locked_shared_ m - 1)) m).

Definition try_lock : M shared_mutex_impl bool := with_lock (
  m ← get_obj;
  if sh_locked m || bool_decide (locked_shared_ m > 0)%Z then mret false
  else modify_obj (set_sh_locked true);; mret true).

Definition lock (ec : addr) : M shared_mutex_impl sync_result :=
  m ← get_obj;
  if negb (enabled_ (get_mtx m)) then
    b ← try_lock;
    if (b : bool) then mret Returned
    else assign_ec ec in_progress;; mret Returned
  else with_lock (
    op ← sync_op_ctor ec;
    add_waiter op;;
    m ← get_obj;
    if negb (sh_locked m) && bool_decide (locked_shared_ m = 0)%Z then
      modify_obj (set_sh_locked true);;
      unlink op;;
      sync_op_dtor op;;
      mret Returned
    else mret (Blocked op)).

Definition unlock : M shared_mutex_impl unit := with_lock (
  m ← get_obj;
  b ← is_empty (shared_waiters_ m);
  if negb b then
    modify_obj (set_sh_locked false);;
    fuel ← loop_fuel;
    while_ fuel (b ← is_empty (shared_waiters_ m); mret (negb b))
      (inc_shared;; nx ← read_next (shared_waiters_ m); op_complete nx no_error)
  else
    b ← is_empty (sh_waiters m);
    if (b : bool) then modify_obj (set_sh_locked false)
    else
      nx ← read_next (sh_waiters m);
      op_complete nx no_error).

Definition try_lock_shared : M shared_mutex_impl bool := with_lock (
  m ← get_obj;
  if sh_locked m then mret false
  else inc_shared;; mret true).

(** The waiting operation goes to [add_waiter], the line of [lock]. *)
Definition lock_shared (ec : addr) : M shared_mutex_impl sync_result :=
  m ← get_obj;
  if negb (enabled_ (get_mtx m)) then
    b ← try_lock_shared;
    if (b : bool) then mret Returned
    else assign_ec ec in_progress;; mret Returned
  else with_lock (
    op ← sync_op_ctor ec;
    add_waiter op;;
    m ← get_obj;
    if negb (sh_locked m) then
      inc_shared;;
      unlink op;;
      sync_op_dtor op;;
      mret Returned
    else mret (Blocked op)).

Definition unlock_shared : M shared_mutex_impl unit := with_lock (
  m ← get_obj;
  (if bool_decide (locked_shared_ m > 0)%Z then dec_shared else mret tt);;
  m ← get_obj;
  if bool_decide (locked_shared_ m = 0)%Z then
    b ← is_empty (sh_waiters m);
    if negb b then
      modify_obj (set_sh_locked true);;
      nx ← read_next (sh_waiters m);
      op_complete nx no_error
    else mret tt
  else mret tt).

Definition shutdown : M shared_mutex_impl unit :=
  ws ← with_lock (
    m ← get_obj;
    w ← holder_move_ctor (sh_waiters m);
    s ← holder_move_ctor (shared_waiters_ m);
    mret (w, s));
  holder_shutdown ws.1;;
  holder_shutdown ws.2;;
  holder_dtor ws.2;;
  holder_dtor ws.1.

(** [shared_mutex_impl(shared_mutex_impl &&mi)]: the new object and the new
    [mi], whose [locked_shared_] stays. *)
Definition shared_mutex_impl_move_ctor {St} (this waiters shared_waiters : addr) (mi : shared_mutex_impl) :
    M St (shared_mutex_impl * shared_mutex_impl) :=
  base ← mutex_impl_move_ctor this waiters (sh_mutex mi);
  bilist_move_ctor shared_waiters (shared_waiters_ mi);;
  mret (SharedMutexImpl base.1 (locked_shared_ mi) shared_waiters,
        SharedMutexImpl (set_locked false base.2) (locked_shared_ mi) (shared_waiters_ mi)).

(** [operator=(shared_mutex_impl &&lhs)]. *)
Definition shared_mutex_impl_move_assign {St} (self lhs : shared_mutex_impl) :
    M St (shared_mutex_impl * shared_mutex_impl) :=
  c ← of_option (cem_lock (get_mtx lhs));
  let lhs := set_mtx c lhs in
  let self := set_sh_locked (sh_locked lhs) self in
  let self := set_locked_shared (locked_shared_ lhs) self in
  let lhs := set_sh_locked false lhs in
  let lhs := set_locked_shared 0 lhs in
  bilist_move_assign (sh_waiters lhs) (sh_waiters self);;
  bilist_move_assign (shared_waiters_ lhs) (shared_waiters_ self);;
  c ← of_option (cem_unlock (get_mtx lhs));
  mret (self, set_mtx c lhs).

(** The implicit destructor: [shared_waiters_], then [~mutex_impl]. *)
Definition shared_mutex_impl_dtor : M shared_mutex_impl unit :=
  m ← get_obj;
  holder_dtor (shared_waiters_ m);;
  holder_dtor (sh_waiters m);;
  service_member_dtor.

(** [basic_shared_mutex::async_lock_op::operator()]. *)
Definition async_lock_with (dispatch : executor → handler → M shared_mutex_impl unit) (exec : executor) (h : handler) :
    M shared_mutex_impl unit :=
  let e := get_associated_executor h exec in
  with_lock (
    m ← get_obj;
    if negb (sh_locked m) && bool_decide (locked_shared_ m = 0)%Z then
      modify_obj (set_sh_locked true);;
      let ie := get_associated_immediate_executor h exec in
      dispatch ie h
    else
      model ← basic_op_model_construct e h;
      let slot := associated_slot h in
      (if is_connected slot then slot_assign slot (CancelHandler model (this_ (get_sm m))) else mret tt);;
      add_waiter model).
Definition async_lock : executor → handler → M shared_mutex_impl unit := async_lock_with net_dispatch.

(** [basic_shared_mutex::async_lock_shared_op::operator()]. *)
Definition async_lock_shared_with (dispatch : executor → handler → M shared_mutex_impl unit) (exec : executor) (h : handler) :
    M shared_mutex_impl unit :=
  let e := get_associated_executor h exec in
  with_lock (
    m ← get_obj;
    if negb (sh_locked m) then
      inc_shared;;
      let ie := get_associated_immediate_executor h exec in
      dispatch ie h
    else
      model ← basic_op_model_construct e h;
      let slot := associated_slot h in
      (if is_connected slot then slot_assign slot (CancelHandler model (this_ (get_sm m))) else mret tt);;
      add_shared_waiter model).
Definition async_lock_shared : executor → handler → M shared_mutex_impl unit := async_lock_shared_with net_dispatch.

(** The closures of both. *)
Definition async_lock_cancel (c : cancel_handler) (type : bool) : M shared_mutex_impl unit :=
  if type then lock_captured (ch_impl c) (op_complete (ch_model c) operation_aborted)
  else mret tt.

Definition shared_emit (n : positive) (type : bool) : M shared_mutex_impl unit :=
  w ← get_world;
  match slots w !! n with
  | Some c => async_lock_cancel c type
  | None => mret tt
  end.
End code.

Create Rewrite HintDb shared.

(** ** Representation

    [shared_rep L m w qx qs]: [qx] waits for the exclusive lock, [qs] for a
    shared one. A writer excludes readers; writers wait only while somebody
    owns the lock, readers only while a writer does. *)

Section rep.
Context {ASIO : Asio}.
Implicit Types (L : gmap addr (list addr)) (m : shared_mutex_impl) (w : world) (qx qs : list (addr * op)).

Record shared_rep L m w qx qs : Prop := {
  hr_impl : impl_ok L m w (qx.*1 ++ qs.*1);
  hr_waiters : queue w L (sh_waiters m) qx;
  hr_shared : queue w L (shared_waiters_ m) qs;
  hr_roots : sh_waiters m ≠ shared_waiters_ m;
  hr_range : (0 ≤ locked_shared_ m)%Z ∧ (locked_shared_ m + Z.of_nat (length qs) < 2 ^ 64)%Z;
  hr_exclusive : sh_locked m = true → locked_shared_ m = 0%Z;
  hr_writers : qx ≠ [] → sh_locked m = true ∨ (0 < locked_shared_ m)%Z;
  hr_readers : qs ≠ [] → sh_locked m = true
}.

Lemma shared_rep_log L m w qx qs e : shared_rep L m w qx qs → shared_rep L m (log e w) qx qs.
Proof. intros []. split; try done. by apply impl_ok_log. Qed.
Lemma shared_rep_ecs L m w qx qs r ec : shared_rep L m w qx qs → shared_rep L m (set_ecs <[r := ec]> w) qx qs.
Proof. intros []. split; try done. by apply impl_ok_ecs. Qed.

Lemma sh_locked_entered m : sh_locked (entered m) = sh_locked m.
Proof. done. Qed.
Lemma locked_shared_entered m : locked_shared_ (entered m) = locked_shared_ m.
Proof. done. Qed.
Lemma sh_waiters_entered m : sh_waiters (entered m) = sh_waiters m.
Proof. done. Qed.
Lemma shared_waiters_entered m : shared_waiters_ (entered m) = shared_waiters_ m.
Proof. done. Qed.
Lemma leave_sh_locked m b : set_mtx (get_mtx m) (set_sh_locked b (entered m)) = set_sh_locked b m.
Proof. by destruct m as [[[? ? []] ? ?] ? ?]. Qed.
Lemma leave_locked_shared m z : set_mtx (get_mtx m) (set_locked_shared z (entered m)) = set_locked_shared z m.
Proof. by destruct m as [[[? ? []] ? ?] ? ?]. Qed.
Lemma mtx_sh_locked m b : get_mtx (set_sh_locked b m) = get_mtx m.
Proof. done. Qed.
Lemma mtx_locked_shared m z : get_mtx (set_locked_shared z m) = get_mtx m.
Proof. done. Qed.
#[local] Hint Rewrite @sh_locked_entered @locked_shared_entered @sh_waiters_entered @shared_waiters_entered
  @leave_sh_locked @leave_locked_shared @mtx_sh_locked @mtx_locked_shared
  @get_mtx_entered @leave_entered : shared.

(** A free mutex has nobody in line. *)
Lemma shared_free L m w qx qs :
  shared_rep L m w qx qs → sh_locked m = false → locked_shared_ m = 0%Z → qx = [] ∧ qs = [].
Proof.
  intros [_ _ _ _ _ _ Hw Hr] Hl Hs. split.
  - destruct qx; [done|]. destruct Hw; [done|congruence|lia].
  - destruct qs; [done|]. specialize (Hr ltac:(done)). congruence.
Qed.
Lemma shared_no_readers L m w qx qs : shared_rep L m w qx qs → sh_locked m = false → qs = [].
Proof. intros [_ _ _ _ _ _ _ Hr] Hl. destruct qs; [done|]. specialize (Hr ltac:(done)). congruence. Qed.

(** Locking a free mutex, and one more reader of an unlocked one. *)
Lemma shared_rep_lock L m w :
  shared_rep L m w [] [] → locked_shared_ m = 0%Z → shared_rep L (set_sh_locked true m) w [] [].
Proof. intros [Hi ? ? ? ? ? ? ?] ?. split; try done. by apply (impl_ok_member _ m). Qed.

Lemma shared_rep_reader L m w qx :
  shared_rep L m w qx [] → sh_locked m = false → (locked_shared_ m + 1 < 2 ^ 64)%Z →
  shared_rep L (set_locked_shared (locked_shared_ m + 1) m) w qx [].
Proof.
  intros [Hi ? ? ? [? ?] ? Hw ?] Hl ?. split; try done.
  - by apply (impl_ok_member _ m).
  - simpl. lia.
  - change (sh_locked (set_locked_shared _ m)) with (sh_locked m). congruence.
  - intros _. right. simpl. lia.
Qed.

Lemma wp_shared_try_lock L m w qx qs (Φ : res bool → machine shared_mutex_impl → Prop) :
  shared_rep L m w qx qs →
  (if sh_locked m || bool_decide (locked_shared_ m > 0)%Z then Φ (Ok false) (Machine m w)
   else Φ (Ok true) (Machine (set_sh_locked true m) w)) →
  wp try_lock (Machine m w) Φ.
Proof.
  intros Hr HΦ. apply wp_critical; [apply Hr|]. apply wp_bind, wp_get_obj. cbn [obj].
  autorewrite with shared. destruct (sh_locked m || _).
  - apply wp_ret. cbn [obj wld]. autorewrite with shared. done.
  - apply wp_bind, wp_modify_obj, wp_ret. cbn [obj wld]. autorewrite with shared. done.
Qed.

Lemma wp_try_lock_shared L m w qx qs (Φ : res bool → machine shared_mutex_impl → Prop) :
  shared_rep L m w qx qs → (locked_shared_ m + 1 < 2 ^ 64)%Z →
  (if sh_locked m then Φ (Ok false) (Machine m w)
   else Φ (Ok true) (Machine (set_locked_shared (locked_shared_ m + 1) m) w)) →
  wp try_lock_shared (Machine m w) Φ.
Proof.
  intros Hr Hb HΦ. apply wp_critical; [apply Hr|]. apply wp_bind, wp_get_obj. cbn [obj].
  autorewrite with shared. destruct (sh_locked m).
  - apply wp_ret. cbn [obj wld]. autorewrite with shared. done.
  - pose proof (hr_range _ _ _ _ _ Hr). apply wp_bind, wp_modify_obj, wp_ret. cbn [obj wld].
    autorewrite with shared. rewrite wrap_u64_small by lia. done.
Qed.

(** The lists after one operation has left one of them. *)
Lemma shared_rep_left_x L L' m w w' q1 po q2 qs :
  shared_rep L m w (q1 ++ po :: q2) qs →
  impl_ok L' m w' ((q1 ++ q2).*1 ++ qs.*1) → queue w' L' (sh_waiters m) (q1 ++ q2) →
  queue w' L' (shared_waiters_ m) qs → shared_rep L' m w' (q1 ++ q2) qs.
Proof.
  intros [Hi ? ? ? ? ? Hw ?] Hi' Hq Hs. split; try done. intros _. apply Hw. by destruct q1.
Qed.
Lemma shared_rep_left_s L L' m w w' qx q1 po q2 :
  shared_rep L m w qx (q1 ++ po :: q2) →
  impl_ok L' m w' (qx.*1 ++ (q1 ++ q2).*1) → queue w' L' (sh_waiters m) qx →
  queue w' L' (shared_waiters_ m) (q1 ++ q2) → shared_rep L' m w' qx (q1 ++ q2).
Proof.
  intros [Hi ? ? ? [? Hb] ? ? Hr] Hi' Hq Hs. split; try done.
  - split; [done|]. rewrite length_app in *. simpl in Hb. lia.
  - intros _. apply Hr. by destruct q1.
Qed.

(** The loop of [unlock]: everybody in the shared line becomes a reader. *)
Lemma wp_unlock_loop L m m' w qx qs z (Φ : res unit → machine shared_mutex_impl → Prop) :
  impl_ok L m w (qx.*1 ++ qs.*1) → queue w L (sh_waiters m) qx → queue w L (shared_waiters_ m) qs →
  sh_waiters m ≠ shared_waiters_ m → locked_shared_ m' = z → (0 ≤ z)%Z → (z + Z.of_nat (length qs) < 2 ^ 64)%Z →
  (∀ N' L', let w' := with_nodes N' (finish_all no_error qs w) in
     impl_ok L' m w' (qx.*1 ++ []) → queue w' L' (sh_waiters m) qx → queue w' L' (shared_waiters_ m) [] →
     same_lists [sh_waiters m; shared_waiters_ m] L L' →
     Φ (Ok tt) (Machine (set_locked_shared (z + Z.of_nat (length qs)) m') w')) →
  wp (while_ (S (size (nodes w))) (b ← is_empty (shared_waiters_ m); mret (negb b))
        (inc_shared;; nx ← read_next (shared_waiters_ m); op_complete nx no_error)) (Machine m' w) Φ.
Proof.
  intros Hi Hx Hs Hne Hz H0 Hb HΦ. pose proof (io_world _ _ _ _ Hi) as Hw.
  set (I := λ k s, ∃ q1 q2 N' L', qs = q1 ++ q2 ∧ k = length q2 ∧
    s = Machine (set_locked_shared (z + Z.of_nat (length q1)) m') (with_nodes N' (finish_all no_error q1 w)) ∧
    impl_ok L' m (wld s) (qx.*1 ++ q2.*1) ∧ queue (wld s) L' (sh_waiters m) qx ∧
    queue (wld s) L' (shared_waiters_ m) q2 ∧ same_lists [sh_waiters m; shared_waiters_ m] L L').
  apply (wp_while I) with (n := length qs); [|by eapply queue_length_fuel|].
  { exists [], qs, (nodes w), L. rewrite with_nodes_id. split_and!; try done.
    f_equal. simpl. rewrite Z.add_0_r, <- Hz. by destruct m'. }
  intros k s (q1 & q2 & N' & L' & -> & -> & -> & Hi' & Hx' & Hs' & HL'). cbn [wld] in *.
  pose proof (io_world _ _ _ _ Hi') as Hw'.
  apply wp_bind. eapply wp_is_empty; [apply Hw'|apply Hs'|]. apply wp_ret. destruct q2 as [|[p o] q2]; simpl.
  { rewrite (app_nil_r q1) in *. exact (HΦ N' L' Hi' Hx' Hs' HL'). }
  apply wp_bind, wp_modify_obj, wp_bind. cbn [obj wld].
  eapply wp_holder_first; [apply Hw'|apply Hs'|].
  eapply (wp_complete_queued m _ (shared_waiters_ m) [] p o q2 no_error _ _ _ (qx.*1 ++ q2.*1)); [exact Hi'|exact Hs'| |].
  { simpl. set_solver. }
  intros N2 w2 L2 H1 H2 H3. split; [done|]. eexists. split; [done|].
  exists (q1 ++ [(p, o)]), q2, N2, L2. split_and!; [by rewrite <- app_assoc|done| |done| |done|].
  - unfold w2. rewrite finish_all_app, finish_with_nodes.
    replace (z + Z.of_nat (length (q1 ++ [(p, o)])))%Z with (z + Z.of_nat (length q1) + 1)%Z
      by (rewrite length_app; simpl; lia).
    rewrite length_app in Hb. simpl in Hb. unfold set_locked_shared at 1. simpl.
    rewrite wrap_u64_small by lia. done.
  - by apply H3.
  - eapply same_lists_trans; [exact HL'|]. unfold L2. done.
Qed.

(** [unlock()], whoever calls it: waiting readers first, all of them; otherwise
    the first waiting writer; otherwise the flag is cleared. *)
Lemma wp_shared_unlock L m w qx qs (Φ : res unit → machine shared_mutex_impl → Prop) :
  shared_rep L m w qx qs →
  match qs, qx with
  | [], [] => shared_rep L (set_sh_locked false m) w [] [] → Φ (Ok tt) (Machine (set_sh_locked false m) w)
  | [], po :: qx' => ∀ N' L', let w' := with_nodes N' (finish no_error w po) in
      shared_rep L' m w' qx' [] → same_lists [sh_waiters m; shared_waiters_ m] L L' → Φ (Ok tt) (Machine m w')
  | _, _ => ∀ N' L', let w' := with_nodes N' (finish_all no_error qs w) in
      let m' := set_locked_shared (Z.of_nat (length qs)) (set_sh_locked false m) in
      shared_rep L' m' w' qx [] → same_lists [sh_waiters m; shared_waiters_ m] L L' → Φ (Ok tt) (Machine m' w')
  end →
  wp unlock (Machine m w) Φ.
Proof.
  intros Hr HΦ. pose proof Hr as [Hi Hx Hs Hne Hb He Hwr Hrd]. pose proof (io_world _ _ _ _ Hi) as Hw.
  apply wp_critical; [apply Hi|]. apply wp_bind, wp_get_obj. cbn [obj]. autorewrite with shared.
  apply wp_bind. eapply wp_is_empty; [apply Hw|apply Hs|]. destruct qs as [|pos qs]; simpl.
  - apply wp_bind. eapply wp_is_empty; [apply Hw|apply Hx|]. destruct qx as [|[p o] qx]; simpl.
    + apply wp_modify_obj. cbn [obj wld]. autorewrite with shared. split; [done|]. apply HΦ.
      split; try done. by apply (impl_ok_member _ m).
    + apply wp_bind. eapply wp_holder_first; [apply Hw|apply Hx|].
      eapply (wp_complete_queued m _ (sh_waiters m) [] p o qx no_error _ _ _ (qx.*1 ++ [])); [exact Hi|exact Hx| |].
      { simpl. set_solver. }
      intros N2 w2 L2 H1 H2 H3. cbn [obj wld]. autorewrite with shared. split; [done|].
      apply (HΦ N2 L2); [|by unfold L2]. eapply (shared_rep_left_x L L2 m w w2 [] (p, o) qx []); try done. by apply H3.
  - assert (sh_locked m = true) as Hl by by apply Hrd.
    apply wp_bind, wp_modify_obj, wp_bind, wp_loop_fuel. cbn [obj wld].
    eapply (wp_unlock_loop L m _ w qx (pos :: qs) 0); [done..|exact (He Hl)|lia| |].
    { rewrite (He Hl) in Hb. lia. }
    intros N' L' w' H1 H2 H3 H4. cbn [obj wld]. rewrite mtx_locked_shared, mtx_sh_locked, get_mtx_entered.
    split; [done|].
    replace (set_mtx (get_mtx m) (set_locked_shared _ (set_sh_locked false (entered m))))
      with (set_locked_shared (Z.of_nat (length (pos :: qs))) (set_sh_locked false m))
      by (by destruct m as [[[? ? []] ? ?] ? ?]).
    apply (HΦ N' L'); [|exact H4]. split; try done.
    + by apply (impl_ok_member _ m).
    + simpl. rewrite (He Hl) in Hb. simpl in Hb. lia.
    + intros _. right. simpl. lia.
Qed.

(** [unlock_shared()] by a reader: the last one hands the mutex to the first
    waiting writer. *)
Lemma wp_unlock_shared L m w qx qs (Φ : res unit → machine shared_mutex_impl → Prop) :
  shared_rep L m w qx qs → (0 < locked_shared_ m)%Z →
  let m1 := set_locked_shared (locked_shared_ m - 1) m in
  (if bool_decide (locked_shared_ m = 1%Z) then
     match qx with
     | [] => shared_rep L m1 w [] [] → Φ (Ok tt) (Machine m1 w)
     | po :: qx' => ∀ N' L', let w' := with_nodes N' (finish no_error w po) in
         let m' := set_sh_locked true m1 in
         shared_rep L' m' w' qx' [] → same_lists [sh_waiters m; shared_waiters_ m] L L' →
         Φ (Ok tt) (Machine m' w')
     end
   else shared_rep L m1 w qx qs → Φ (Ok tt) (Machine m1 w)) →
  wp unlock_shared (Machine m w) Φ.
Proof.
  intros Hr Hpos m1 HΦ. pose proof Hr as [Hi Hx Hs Hne Hb He Hwr Hrd]. pose proof (io_world _ _ _ _ Hi) as Hw.
  assert (sh_locked m = false) as Hl by (destruct (sh_locked m); [specialize (He eq_refl); lia|done]).
  assert (qs = []) as -> by by eapply shared_no_readers.
  apply wp_critical; [apply Hi|]. apply wp_bind, wp_get_obj. cbn [obj]. autorewrite with shared.
  apply wp_bind. rewrite bool_decide_eq_true_2 by lia. apply wp_modify_obj, wp_bind, wp_get_obj. cbn [obj].
  autorewrite with shared. rewrite wrap_u64_small by lia. simpl (locked_shared_ (set_locked_shared _ _)).
  change (sh_waiters (set_locked_shared _ _)) with (sh_waiters m). case_bool_decide as H1.
  - rewrite bool_decide_eq_true_2 by lia.
    apply wp_bind. eapply wp_is_empty; [apply Hw|apply Hx|]. destruct qx as [|[p o] qx]; simpl.
    + apply wp_ret. cbn [obj wld]. autorewrite with shared. split; [done|]. apply HΦ.
      split; try done; [by apply (impl_ok_member _ m)|simpl; lia|].
      change (sh_locked m1) with (sh_locked m). congruence.
    + apply wp_bind, wp_modify_obj, wp_bind. cbn [obj wld].
      eapply wp_holder_first; [apply Hw|apply Hx|].
      eapply (wp_complete_queued m _ (sh_waiters m) [] p o qx no_error _ _ _ (qx.*1 ++ [])); [exact Hi|exact Hx| |].
      { simpl. set_solver. }
      intros N2 w2 L2 H2 H3 H4. cbn [obj wld]. rewrite mtx_sh_locked, mtx_locked_shared, get_mtx_entered.
      split; [done|].
      replace (set_mtx (get_mtx m) (set_sh_locked true (set_locked_shared (locked_shared_ m - 1) (entered m))))
        with (set_sh_locked true m1) by (by destruct m as [[[? ? []] ? ?] ? ?]).
      apply (HΦ N2 L2); [|by unfold L2]. split; try done.
      * by apply (impl_ok_member _ m).
      * by apply H4.
      * simpl. lia.
      * simpl. lia.
      * by left.
  - rewrite bool_decide_eq_false_2 by lia. apply wp_ret. cbn [obj wld]. autorewrite with shared.
    split; [done|]. apply HΦ. split; try done.
    + by apply (impl_ok_member _ m).
    + simpl. lia.
    + change (sh_locked m1) with (sh_locked m). congruence.
    + intros _. right. simpl. lia.
Qed.

(** [unlock_shared()] while no reader owns the mutex: the first waiting writer
    is completed, although another one owns the mutex. *)
Lemma wp_unlock_shared_idle L m w qx qs (Φ : res unit → machine shared_mutex_impl → Prop) :
  shared_rep L m w qx qs → locked_shared_ m = 0%Z →
  match qx with
  | [] => Φ (Ok tt) (Machine m w)
  | po :: qx' => ∀ N' L', let w' := with_nodes N' (finish no_error w po) in
      shared_rep L' m w' qx' qs → same_lists [sh_waiters m; shared_waiters_ m] L L' → Φ (Ok tt) (Machine m w')
  end →
  wp unlock_shared (Machine m w) Φ.
Proof.
  intros Hr Hz HΦ. pose proof Hr as [Hi Hx Hs Hne _ _ Hwr _]. pose proof (io_world _ _ _ _ Hi) as Hw.
  apply wp_critical; [apply Hi|]. apply wp_bind, wp_get_obj. cbn [obj]. autorewrite with shared. rewrite Hz. simpl.
  apply wp_bind, wp_ret, wp_bind, wp_get_obj. cbn [obj]. autorewrite with shared. rewrite Hz. simpl.
  apply wp_bind. eapply wp_is_empty; [apply Hw|apply Hx|]. destruct qx as [|[p o] qx]; simpl.
  { apply wp_ret. cbn [obj wld]. by autorewrite with shared. }
  assert (sh_locked m = true) as Hl by (destruct Hwr; [done|done|lia]).
  apply wp_bind, wp_modify_obj, wp_bind. cbn [obj wld]. eapply wp_holder_first; [apply Hw|apply Hx|].
  eapply (wp_complete_queued m _ (sh_waiters m) [] p o qx no_error _ _ _ (qx.*1 ++ qs.*1)); [exact Hi|exact Hx| |].
  { simpl. set_solver. }
  intros N2 w2 L2 H1 H2 H3. cbn [obj wld]. autorewrite with shared. split; [done|].
  replace (set_sh_locked true m) with m by (destruct m as [[? ? ?] ? ?]; unfold sh_locked in Hl; simpl in Hl; by subst).
  apply (HΦ N2 L2); [|by unfold L2]. eapply (shared_rep_left_x L L2 m w w2 [] (p, o) qx qs); try done. by apply H3.
Qed.

(** One more operation in one of the lines. *)
Lemma shared_rep_enqueued_x L m w qx qs p o N' :
  shared_rep L m w qx qs → sh_locked m = true ∨ (0 < locked_shared_ m)%Z → nodes w !! p = None →
  let w' := with_nodes N' (enqueued (this_ (get_sm m)) (p, o) w) in
  world_ok w' (<[sh_waiters m := qx.*1 ++ [p]]> L) →
  shared_rep (<[sh_waiters m := qx.*1 ++ [p]]> L) m w' (qx ++ [(p, o)]) qs.
Proof.
  intros [Hi Hx Hs Hne ? ? ? ?] Hl Hp w' Hok'. pose proof (io_world _ _ _ _ Hi) as Hw. split; try done.
  - eapply impl_ok_enqueued; [done..|]. rewrite fmap_app. set_solver.
  - by apply queue_enqueued.
  - by apply queue_enqueued_ne.
Qed.
Lemma shared_rep_enqueued_s L m w qx qs p o N' :
  shared_rep L m w qx qs → sh_locked m = true → (Z.of_nat (length qs) + 1 < 2 ^ 64)%Z → nodes w !! p = None →
  let w' := with_nodes N' (enqueued (this_ (get_sm m)) (p, o) w) in
  world_ok w' (<[shared_waiters_ m := qs.*1 ++ [p]]> L) →
  shared_rep (<[shared_waiters_ m := qs.*1 ++ [p]]> L) m w' qx (qs ++ [(p, o)]).
Proof.
  intros [Hi Hx Hs Hne [? ?] He ? ?] Hl Hb Hp w' Hok'. pose proof (io_world _ _ _ _ Hi) as Hw. split; try done.
  - eapply impl_ok_enqueued; [done..|]. rewrite fmap_app. set_solver.
  - by apply queue_enqueued_ne.
  - by apply queue_enqueued.
  - rewrite (He Hl), length_app. simpl. lia.
Qed.

Lemma shared_rep_nodes L m w qx qs N' :
  shared_rep L m w qx qs → world_ok (with_nodes N' w) L → shared_rep L m (with_nodes N' w) qx qs.
Proof. intros [[] [? ?] [? ?] ? ? ? ? ?] ?. by split. Qed.

(** [lock(ec)] with threads. *)
Lemma wp_shared_lock_mt L m w qx qs ec (Φ : res sync_result → machine shared_mutex_impl → Prop) :
  shared_rep L m w qx qs → is_Some (ecs w !! ec) → enabled_ (get_mtx m) = true →
  (if negb (sh_locked m) && bool_decide (locked_shared_ m = 0)%Z then
     ∀ N', let m' := set_sh_locked true m in
       shared_rep L m' (with_nodes N' w) [] [] → Φ (Ok Returned) (Machine m' (with_nodes N' w))
   else ∀ p N', nodes w !! p = None →
     let po := (p, sync_op ec false) in
     let w' := with_nodes N' (enqueued (this_ (get_sm m)) po w) in
     shared_rep (<[sh_waiters m := qx.*1 ++ [p]]> L) m w' (qx ++ [po]) qs →
     Φ (Ok (Blocked p)) (Machine m w')) →
  wp (lock ec) (Machine m w) Φ.
Proof.
  intros Hr He Hen HΦ. pose proof Hr as [Hi Hx Hs Hne Hb Hex Hwr Hrd]. pose proof (io_world _ _ _ _ Hi) as Hw.
  apply wp_bind, wp_get_obj. cbn [obj]. rewrite Hen. simpl.
  apply wp_critical; [apply Hi|].
  apply wp_bind, wp_sync_op_ctor. intros p Hp.
  apply wp_bind, wp_bind, wp_get_obj. cbn [obj]. autorewrite with shared.
  eapply (wp_link_built (this_ (get_sm m)) p (sync_op ec false) _ w); [done|apply Hx|done|by split|done..|].
  intros N1 Hok1. apply wp_bind, wp_get_obj. cbn [obj]. autorewrite with shared.
  destruct (negb (sh_locked m) && _) eqn:Hfree.
  - apply andb_prop in Hfree as [Hl%negb_true_iff Hz%bool_decide_eq_true].
    destruct (shared_free _ _ _ _ _ Hr Hl Hz) as [-> ->].
    apply wp_bind, wp_modify_obj.
    eapply wp_discard; [done|apply Hx|done..|]. intros N' HN'. apply wp_ret. cbn [obj wld].
    autorewrite with shared. split; [done|]. apply HΦ, shared_rep_lock; [by apply shared_rep_nodes|done].
  - apply wp_ret. cbn [obj wld]. autorewrite with shared. split; [done|].
    apply (HΦ p N1); [done|]. apply shared_rep_enqueued_x; [done| |done..].
    destruct (sh_locked m); [by left|right]. simpl in Hfree. apply bool_decide_eq_false in Hfree. lia.
Qed.

Lemma wp_shared_lock_st L m w qx qs ec (Φ : res sync_result → machine shared_mutex_impl → Prop) :
  shared_rep L m w qx qs → is_Some (ecs w !! ec) → enabled_ (get_mtx m) = false →
  (if sh_locked m || bool_decide (locked_shared_ m > 0)%Z
   then Φ (Ok Returned) (Machine m (set_ecs <[ec := in_progress]> w))
   else Φ (Ok Returned) (Machine (set_sh_locked true m) w)) →
  wp (lock ec) (Machine m w) Φ.
Proof.
  intros Hr He Hen HΦ. apply wp_bind, wp_get_obj. cbn [obj]. rewrite Hen. simpl.
  apply wp_bind. eapply wp_shared_try_lock; [done|]. destruct (sh_locked m || _); [|by apply wp_ret].
  apply wp_bind, wp_assign_ec; [done|]. by apply wp_ret.
Qed.

(** [lock_shared(ec)] with threads: behind a writer it waits in the line of the
    writers. *)
Lemma wp_lock_shared_mt L m w qx qs ec (Φ : res sync_result → machine shared_mutex_impl → Prop) :
  shared_rep L m w qx qs → is_Some (ecs w !! ec) → enabled_ (get_mtx m) = true →
  (locked_shared_ m + 1 < 2 ^ 64)%Z →
  (if sh_locked m then ∀ p N', nodes w !! p = None →
     let po := (p, sync_op ec false) in
     let w' := with_nodes N' (enqueued (this_ (get_sm m)) po w) in
     shared_rep (<[sh_waiters m := qx.*1 ++ [p]]> L) m w' (qx ++ [po]) qs →
     Φ (Ok (Blocked p)) (Machine m w')
   else ∀ N', let m' := set_locked_shared (locked_shared_ m + 1) m in
     shared_rep L m' (with_nodes N' w) qx [] → Φ (Ok Returned) (Machine m' (with_nodes N' w))) →
  wp (lock_shared ec) (Machine m w) Φ.
Proof.
  intros Hr He Hen Hb1 HΦ. pose proof Hr as [Hi Hx Hs Hne Hb Hex Hwr Hrd]. pose proof (io_world _ _ _ _ Hi) as Hw.
  apply wp_bind, wp_get_obj. cbn [obj]. rewrite Hen. simpl.
  apply wp_critical; [apply Hi|].
  apply wp_bind, wp_sync_op_ctor. intros p Hp.
  apply wp_bind, wp_bind, wp_get_obj. cbn [obj]. autorewrite with shared.
  eapply (wp_link_built (this_ (get_sm m)) p (sync_op ec false) _ w); [done|apply Hx|done|by split|done..|].
  intros N1 Hok1. apply wp_bind, wp_get_obj. cbn [obj]. autorewrite with shared.
  destruct (sh_locked m) eqn:Hl; simpl.
  - apply wp_ret. cbn [obj wld]. autorewrite with shared. split; [done|].
    apply (HΦ p N1); [done|]. apply shared_rep_enqueued_x; [done|by left|done..].
  - assert (qs = []) as -> by by eapply shared_no_readers.
    apply wp_bind, wp_modify_obj.
    eapply wp_discard; [done|apply Hx|done..|]. intros N' HN'. apply wp_ret. cbn [obj wld].
    autorewrite with shared. rewrite wrap_u64_small by lia. split; [done|].
    apply HΦ, shared_rep_reader; [by apply shared_rep_nodes|done..].
Qed.

Lemma wp_lock_shared_st L m w qx qs ec (Φ : res sync_result → machine shared_mutex_impl → Prop) :
  shared_rep L m w qx qs → is_Some (ecs w !! ec) → enabled_ (get_mtx m) = false →
  (locked_shared_ m + 1 < 2 ^ 64)%Z →
  (if sh_locked m then Φ (Ok Returned) (Machine m (set_ecs <[ec := in_progress]> w))
   else Φ (Ok Returned) (Machine (set_locked_shared (locked_shared_ m + 1) m) w)) →
  wp (lock_shared ec) (Machine m w) Φ.
Proof.
  intros Hr He Hen Hb HΦ. apply wp_bind, wp_get_obj. cbn [obj]. rewrite Hen. simpl.
  apply wp_bind. eapply wp_try_lock_shared; [done..|]. destruct (sh_locked m); [|by apply wp_ret].
  apply wp_bind, wp_assign_ec; [done|]. by apply wp_ret.
Qed.

Lemma wp_shared_async_lock L m w qx qs exec h (Φ : res unit → machine shared_mutex_impl → Prop) :
  shared_rep L m w qx qs →
  (if negb (sh_locked m) && bool_decide (locked_shared_ m = 0)%Z then
     Φ (Ok tt) (Machine (set_sh_locked true m)
       (log (ev_dispatch (get_associated_immediate_executor h exec) h no_error) w))
   else
     (allocate h (dom (nodes w)) = None → Φ (Exn bad_alloc) (Machine m w)) ∧
     (∀ p N', allocate h (dom (nodes w)) = Some p → nodes w !! p = None →
        let po := (p, basic_op_model (get_associated_executor h exec) h) in
        let w' := with_nodes N' (enqueued (this_ (get_sm m)) po w) in
        shared_rep (<[sh_waiters m := qx.*1 ++ [p]]> L) m w' (qx ++ [po]) qs → Φ (Ok tt) (Machine m w'))) →
  wp (async_lock exec h) (Machine m w) Φ.
Proof.
  intros Hr HΦ. pose proof Hr as [Hi Hx Hs Hne Hb Hex Hwr Hrd]. pose proof (io_world _ _ _ _ Hi) as Hw.
  apply wp_critical; [apply Hi|]. apply wp_bind, wp_get_obj. cbn [obj]. autorewrite with shared.
  destruct (negb (sh_locked m) && _) eqn:Hfree.
  - apply wp_bind, wp_modify_obj, wp_modify_world. cbn [obj wld]. autorewrite with shared. done.
  - destruct HΦ as [Hfail Hwait]. apply wp_bind, wp_basic_op_model_construct.
    + intros Ha. simpl. autorewrite with shared. auto.
    + intros p Ha Hp.
      eapply (wp_arm_and_link (this_ (mi_sm (sh_mutex m))) p (basic_op_model _ h)); [done|apply Hx|done..|].
      intros N' Hok'. cbn [obj wld]. autorewrite with shared. split; [done|].
      apply Hwait; [done..|]. apply shared_rep_enqueued_x; [done| |done..].
      destruct (sh_locked m); [by left|right]. simpl in Hfree. apply bool_decide_eq_false in Hfree. lia.
Qed.

Lemma wp_async_lock_shared L m w qx qs exec h (Φ : res unit → machine shared_mutex_impl → Prop) :
  shared_rep L m w qx qs → (locked_shared_ m + Z.of_nat (length qs) + 1 < 2 ^ 64)%Z →
  (if sh_locked m then
     (allocate h (dom (nodes w)) = None → Φ (Exn bad_alloc) (Machine m w)) ∧
     (∀ p N', allocate h (dom (nodes w)) = Some p → nodes w !! p = None →
        let po := (p, basic_op_model (get_associated_executor h exec) h) in
        let w' := with_nodes N' (enqueued (this_ (get_sm m)) po w) in
        shared_rep (<[shared_waiters_ m := qs.*1 ++ [p]]> L) m w' qx (qs ++ [po]) → Φ (Ok tt) (Machine m w'))
   else Φ (Ok tt) (Machine (set_locked_shared (locked_shared_ m + 1) m)
       (log (ev_dispatch (get_associated_immediate_executor h exec) h no_error) w))) →
  wp (async_lock_shared exec h) (Machine m w) Φ.
Proof.
  intros Hr Hb1 HΦ. pose proof Hr as [Hi Hx Hs Hne Hb Hex Hwr Hrd]. pose proof (io_world _ _ _ _ Hi) as Hw.
  apply wp_critical; [apply Hi|]. apply wp_bind, wp_get_obj. cbn [obj]. autorewrite with shared.
  destruct (sh_locked m) eqn:Hl; simpl.
  - destruct HΦ as [Hfail Hwait]. apply wp_bind, wp_basic_op_model_construct.
    + intros Ha. simpl. autorewrite with shared. auto.
    + intros p Ha Hp.
      eapply (wp_arm_and_link (this_ (mi_sm (sh_mutex m))) p (basic_op_model _ h)); [done|apply Hs|done..|].
      intros N' Hok'. cbn [obj wld]. autorewrite with shared. split; [done|].
      apply Hwait; [done..|]. apply shared_rep_enqueued_s; [done..|lia|done|done].
  - apply wp_bind, wp_modify_obj, wp_modify_world. cbn [obj wld]. autorewrite with shared.
    rewrite wrap_u64_small by lia. done.
Qed.

(** An operation is cancelled in the line it is in. *)
Lemma wp_shared_emit L m w qx qs n type (Φ : res unit → machine shared_mutex_impl → Prop) :
  shared_rep L m w qx qs → (∀ c, slots w !! n = Some c → ch_impl c = this_ (get_sm m)) →
  (type = false ∨ slots w !! n = None → Φ (Ok tt) (Machine m w)) →
  (type = true → ∀ p o N' L', slots w !! n = Some (CancelHandler p (this_ (get_sm m))) →
     let w' := with_nodes N' (finish operation_aborted w (p, o)) in
     same_lists [sh_waiters m; shared_waiters_ m] L L' →
     (∀ q1 q2, qx = q1 ++ (p, o) :: q2 → shared_rep L' m w' (q1 ++ q2) qs → Φ (Ok tt) (Machine m w')) ∧
     (∀ q1 q2, qs = q1 ++ (p, o) :: q2 → shared_rep L' m w' qx (q1 ++ q2) → Φ (Ok tt) (Machine m w'))) →
  wp (shared_emit n type) (Machine m w) Φ.
Proof.
  intros Hr Hmine Hnone Hsome. pose proof Hr as [Hi Hx Hs Hne Hb Hex Hwr Hrd].
  apply wp_bind, wp_get_world. simpl. destruct (slots w !! n) as [[p i]|] eqn:Hn; [|apply wp_ret; auto].
  unfold async_lock_cancel. destruct type; [|apply wp_ret; auto].
  specialize (Hmine _ eq_refl). simpl in Hmine. subst i.
  pose proof (closure_member _ _ _ _ _ _ Hi Hn eq_refl) as [Hin|Hin]%elem_of_app; simpl in Hin.
  - destruct (queue_split _ _ _ _ _ Hx Hin) as (q1 & o & q2 & -> & Hp).
    eapply (wp_lock_captured _ q1 o q2 _ _ _ _ _ ((q1 ++ q2).*1 ++ qs.*1)); [done|done|done| |].
    + rewrite !fmap_app. set_solver.
    + intros N' w' L' H1 H2 H3. destruct (Hsome eq_refl p o N' L' eq_refl ltac:(by unfold L')) as [Hsx _].
      eapply (Hsx q1 q2); [done|]. eapply shared_rep_left_x; [done..|]. by apply H3.
  - destruct (queue_split _ _ _ _ _ Hs Hin) as (q1 & o & q2 & -> & Hp).
    eapply (wp_lock_captured _ q1 o q2 _ _ _ _ _ (qx.*1 ++ (q1 ++ q2).*1)); [done|done|done| |].
    + rewrite !fmap_app. set_solver.
    + intros N' w' L' H1 H2 H3. destruct (Hsome eq_refl p o N' L' eq_refl ltac:(by unfold L')) as [_ Hss].
      eapply (Hss q1 q2); [done|]. eapply shared_rep_left_s; [done..| |done]. by apply H3.
Qed.

Lemma wp_shared_resume L m w qx qs p ec d (Φ : res bool → machine shared_mutex_impl → Prop) :
  shared_rep L m w qx qs → ops w !! p = Some (sync_op ec d) →
  (if d then ∀ N', let w' := with_nodes N' (set_ops (delete p) w) in
     shared_rep L m w' qx qs → Φ (Ok true) (Machine m w')
   else Φ (Ok false) (Machine m w)) →
  wp (sync_wait p) (Machine m w) Φ.
Proof.
  intros [Hi Hx Hs Hne Hb Hex Hwr Hrd] Hp HΦ. eapply wp_sync_wait; [done..|]. destruct d; [|done].
  intros N' w' Hi' Hq'. apply HΦ. split; auto.
Qed.

(** The members of two lists that have been emptied are in no list. *)
Lemma emptied_both w L x s qx qs a :
  world_ok w L → queue w L x qx → queue w L s qs → x ≠ s → a ∈ qx.*1 ++ qs.*1 →
  ¬ listed (<[s := []]> (<[x := []]> L)) a.
Proof.
  intros Hw [Hx _] [Hs _] Hne Ha (r & xs & Hr & Hin).
  assert (∃ r0 xs0, L !! r0 = Some xs0 ∧ a ∈ xs0 ∧ (r0 = x ∨ r0 = s)) as (r0 & xs0 & Hr0 & Ha0 & Hor).
  { apply elem_of_app in Ha as [Ha|Ha]; [exists x, qx.*1|exists s, qs.*1]; auto. }
  pose proof (heap_rep_NoDup _ _ _ _ (wo_heap _ _ Hw) Hr0) as [Hroot _]%NoDup_cons.
  assert (∀ r1 xs1, L !! r1 = Some xs1 → a ∈ r1 :: xs1 → r1 = r0) as Huniq.
  { intros r1 xs1 Hr1 Ha1. eapply (hr_disjoint _ _ (wo_heap _ _ Hw)); [exact Hr1|exact Hr0|done|by right]. }
  apply lookup_insert_Some in Hr as [[<- <-]|[Hrs [[<- <-]|[Hrx Hr]]%lookup_insert_Some]].
  - apply list_elem_of_singleton in Hin as ->. apply Hroot. by rewrite <- (Huniq _ _ Hs) at 1 by by left.
  - apply list_elem_of_singleton in Hin as ->. apply Hroot. by rewrite <- (Huniq _ _ Hx) at 1 by by left.
  - specialize (Huniq _ _ Hr Hin) as ->. destruct Hor; congruence.
Qed.

(** [auto w = std::move(waiters_); auto s = std::move(shared_waiters_)]. *)
Definition moved_both x s rx rs (qx qs : list (addr * op)) L : gmap addr (list addr) :=
  <[rs := qs.*1]> (<[s := []]> (<[rx := qx.*1]> (<[x := []]> L))).

Lemma wp_move_both x s qx qs m w L (Φ : res (addr * addr) → machine shared_mutex_impl → Prop) :
  world_ok w L → queue w L x qx → queue w L s qs → x ≠ s →
  (∀ rx rs N', let w' := with_nodes N' w in let L' := moved_both x s rx rs qx qs L in
     L !! rx = None → L !! rs = None → rx ≠ rs →
     world_ok w' L' → queue w' L' rx qx → queue w' L' rs qs → framed L (nodes w) N' →
     (∀ a, is_Some (nodes w !! a) → listed L' a → listed L a) → Φ (Ok (rx, rs)) (Machine m w')) →
  wp (w ← holder_move_ctor x; s ← holder_move_ctor s; mret (w, s)) (Machine m w) Φ.
Proof.
  intros Hw [Hx Hxo] [Hs Hso] Hne HΦ.
  apply wp_bind. eapply wp_holder_move_ctor; [done|done|]. intros rx N1 Hrx HLrx Hok1 Hfr1.
  apply wp_bind. eapply (wp_holder_move_ctor s _ _ _ qs.*1); [exact Hok1| |].
  { by rewrite !lookup_insert_ne by congruence. }
  intros rs N2 Hrs HLrs Hok2 Hfr2. apply wp_ret.
  assert (rx ≠ rs) as Hrr by (intros ->; by rewrite lookup_insert_eq in HLrs).
  assert (rs ≠ x) as Hrx' by (intros ->; by rewrite lookup_insert_ne, lookup_insert_eq in HLrs).
  rewrite !lookup_insert_ne in HLrs by done.
  assert (is_Some (<[x := []]> L !! s)) as Hs'.
  { rewrite lookup_insert_ne by done. by eexists. }
  assert (∀ a, is_Some (nodes w !! a) → listed (<[rx := qx.*1]> (<[x := []]> L)) a → listed L a) as Hsub1.
  { intros a Ha [->|?]%listed_moved; [rewrite Hrx in Ha; by destruct Ha|done..]. }
  assert (nodes w !! rs = None) as Hrsw.
  { apply eq_None_not_Some. intros Ha. assert (¬ listed (<[rx := qx.*1]> (<[x := []]> L)) rs) as Hun.
    { intros Hl%(heap_rep_listed _ _ _ (wo_heap _ _ Hok1)). simpl in *. rewrite Hrs in Hl. by destruct Hl. }
    rewrite listed_moved in Hun by done. simpl in Hrs. rewrite Hfr1 in Hrs; [|done|tauto].
    rewrite Hrs in Ha. by destruct Ha. }
  apply HΦ; try done.
  - split; [|done]. unfold moved_both. rewrite lookup_insert_ne, lookup_insert_ne by congruence.
    by rewrite lookup_insert_eq.
  - split; [|done]. unfold moved_both. by rewrite lookup_insert_eq.
  - eapply framed_trans; [exact Hfr1|exact Hfr2|exact Hsub1].
  - intros a Ha [->|Hl]%listed_moved; [rewrite Hrsw in Ha; by destruct Ha|by apply Hsub1| |].
    + rewrite !lookup_insert_ne by congruence. by destruct Hs'.
    + by rewrite !lookup_insert_ne by congruence.
Qed.

(** The end of [shutdown()]: both moved lists are shut down and destroyed. *)
Lemma wp_finish_both x s rx rs qx qs m w L (Φ : res unit → machine shared_mutex_impl → Prop) :
  let L1 := moved_both x s rx rs qx qs L in
  L !! rx = None → L !! rs = None → is_Some (L !! x) → is_Some (L !! s) → rx ≠ rs →
  world_ok w L1 → queue w L1 rx qx → queue w L1 rs qs →
  (∀ N', let w' := with_nodes N' (abort_all (qx ++ qs) w) in
     world_ok w' (<[s := []]> (<[x := []]> L)) → framed L1 (nodes w) N' → Φ (Ok tt) (Machine m w')) →
  wp (holder_shutdown rx;; holder_shutdown rs;; holder_dtor rs;; holder_dtor rx) (Machine m w) Φ.
Proof.
  intros L1 Hrx Hrs Hx Hs Hne Hw Hqx Hqs HΦ.
  apply wp_bind. eapply wp_holder_shutdown; [done..|]. intros N3 Hok3 Hfr3.
  assert (queue (with_nodes N3 (abort_all qx w)) (<[rx := []]> L1) rs qs) as Hs3.
  { eapply (queue_abort_ne L1 rx); try done. by rewrite lookup_insert_ne by done. }
  apply wp_bind. eapply wp_holder_shutdown; [exact Hok3|exact Hs3|]. intros N4 Hok4 Hfr4.
  rewrite abort_all_with_nodes, <- abort_all_app in Hok4 |- *.
  apply wp_bind. eapply (wp_holder_dtor_nil rs); [exact Hok4|by rewrite lookup_insert_eq|].
  simpl. intros Hok5. eapply (wp_holder_dtor_nil rx); [exact Hok5|..].
  { rewrite lookup_delete_ne, lookup_insert_ne by done. apply lookup_insert_eq. }
  simpl. intros Hok6. apply (HΦ (delete rx (delete rs N4))); cycle 1.
  { apply framed_delete; [apply framed_delete|]; [|intros _; by eapply listed_root, Hqs|intros _; by eapply listed_root, Hqx].
    eapply framed_trans; [exact Hfr3|exact Hfr4|]. intros a _ [->%list_elem_of_singleton|?]%listed_insert; [|done].
    by eapply listed_root, Hqx. }
  replace (<[s := []]> (<[x := []]> L)) with (delete rx (delete rs (<[rs := []]> (<[rx := []]> L1)))); [exact Hok6|].
  assert (x ≠ rx ∧ x ≠ rs ∧ s ≠ rx ∧ s ≠ rs) as (? & ? & ? & ?).
  { split_and!; intros ->; destruct Hx, Hs; congruence. }
  unfold L1, moved_both. apply map_eq. intros i.
  rewrite !lookup_delete, !lookup_insert. repeat case_decide; congruence.
Qed.

(** [shutdown()] empties both lines: the writers' first. The nodes that are in
    no list are left alone. *)
Lemma wp_shared_lines_shutdown m w L qx qs (Φ : res unit → machine shared_mutex_impl → Prop) :
  world_ok w L → idle (get_mtx m) → queue w L (sh_waiters m) qx → queue w L (shared_waiters_ m) qs →
  sh_waiters m ≠ shared_waiters_ m →
  (∀ N', let w' := with_nodes N' (abort_all (qx ++ qs) w) in
     world_ok w' (<[shared_waiters_ m := []]> (<[sh_waiters m := []]> L)) → framed L (nodes w) N' →
     Φ (Ok tt) (Machine m w')) →
  wp shutdown (Machine m w) Φ.
Proof.
  intros Hw Hi Hx Hs Hne HΦ. apply wp_bind, wp_critical; [done|].
  apply wp_bind, wp_get_obj. cbn [obj]. autorewrite with shared.
  eapply wp_move_both; [done..|]. intros rx rs N1 w1 L1 Hrx Hrs Hrr Hok1 Hx1 Hs1 Hfr1 Hsub.
  cbn [obj wld fst snd]. autorewrite with shared. split; [done|].
  eapply (wp_finish_both (sh_waiters m) (shared_waiters_ m) rx rs qx qs); try done.
  { by destruct Hx as [-> _]. }
  { by destruct Hs as [-> _]. }
  intros N2 w2 Hok2 Hfr2. unfold w2, w1 in *. rewrite abort_all_with_nodes in *. apply (HΦ N2); [done|].
  eapply framed_trans; [exact Hfr1|exact Hfr2|exact Hsub].
Qed.

Lemma wp_shared_shutdown L m w qx qs (Φ : res unit → machine shared_mutex_impl → Prop) :
  shared_rep L m w qx qs →
  (∀ N' L', let w' := with_nodes N' (abort_all (qx ++ qs) w) in
     shared_rep L' m w' [] [] → same_lists [sh_waiters m; shared_waiters_ m] L L' → Φ (Ok tt) (Machine m w')) →
  wp shutdown (Machine m w) Φ.
Proof.
  intros [[Hw Hi Hc] Hx Hs Hne [? ?] Hex Hwr Hrd] HΦ.
  eapply wp_shared_lines_shutdown; [done..|]. intros N2 w2 Hok2 _.
  eapply HΦ; [|by eapply same_lists_trans; [apply (same_lists_insert _ _ L)|apply same_lists_insert2]]. split; try done.
  - split; [exact Hok2|done|]. eapply closures_shrink; [exact Hc|apply slots_within_abort_all|exact Hok2|].
    intros a Ha Hl. destruct (emptied_both w L _ _ qx qs a Hw Hx Hs Hne Ha Hl).
  - split; [|done]. by rewrite lookup_insert_ne, lookup_insert_eq by done.
  - split; [|done]. by rewrite lookup_insert_eq.
  - simpl. lia.
Qed.
End rep.

(** ** Construction and destruction *)

Section life.
Context {ASIO : Asio}.
Implicit Types (L : gmap addr (list addr)) (w : world) (qx qs : list (addr * op)).

Lemma wp_shared_mutex_impl_ctor {St} this waiters shared_waiters svc config hint (m : St) w L ms
    (Φ : res shared_mutex_impl → machine St → Prop) :
  world_ok w L → service_ok w L svc ms →
  nodes w !! this = None → nodes w !! waiters = None → nodes w !! shared_waiters = None →
  NoDup [this; waiters; shared_waiters] → unreferenced w this →
  (∀ N', let w' := with_nodes N' w in
     let L' := <[shared_waiters := []]> (<[waiters := []]> (<[svc := ms ++ [this]]> L)) in
     let c := cem_ctor (negb (is_single_threaded config hint)) in
     let sh := SharedMutexImpl (MutexImpl (ServiceMember this (Some svc) c) false waiters) 0 shared_waiters in
     shared_rep L' sh w' [] [] → service_ok w' L' svc (ms ++ [this]) → Φ (Ok sh) (Machine m w')) →
  wp (shared_mutex_impl_ctor this waiters shared_waiters svc config hint) (Machine m w) Φ.
Proof.
  intros Hok Hs Hthis Hwait Hshared Hnd Hun HΦ.
  assert (this ≠ waiters ∧ this ≠ shared_waiters ∧ waiters ≠ shared_waiters) as (? & ? & ?).
  { apply NoDup_cons in Hnd as [? [? _]%NoDup_cons]. set_solver. }
  apply wp_bind, wp_bind. eapply wp_service_member_ctor; [done..|]. intros N1 w1 L1 Hok1 Hs1 Hdom1.
  apply wp_bind. eapply wp_root_ctor; [exact Hok1| |].
  { simpl. apply not_elem_of_dom. rewrite Hdom1. apply not_elem_of_dom in Hwait. set_solver. }
  intros N2 Hok2 Hdom2. apply wp_ret, wp_bind. eapply wp_root_ctor; [exact Hok2| |].
  { simpl in *. apply not_elem_of_dom. rewrite Hdom2, Hdom1. apply not_elem_of_dom in Hshared. set_solver. }
  intros N3 Hok3 _. apply wp_ret. apply (HΦ N3); [split; try done|].
  - split; [exact Hok3|done|]. by apply closures_unreferenced.
  - split; [|done]. unfold sh_waiters. simpl. by rewrite lookup_insert_ne, lookup_insert_eq by done.
  - split; [|done]. by rewrite lookup_insert_eq.
  - destruct Hs1 as [Hms Hc Hpl]. split; [|done|done].
    destruct (heap_rep_listed _ _ svc (wo_heap _ _ Hok)) as [? ?]; [by eapply listed_root, Hs|].
    by rewrite !lookup_insert_ne by congruence.
Qed.

(** The destructor aborts the readers' line first, then the writers'. *)
Lemma wp_shared_mutex_impl_dtor L m w qx qs svc xs ys (Φ : res unit → machine shared_mutex_impl → Prop) :
  shared_rep L m w qx qs → service (get_sm m) = Some svc →
  service_ok w L svc (xs ++ this_ (get_sm m) :: ys) → svc ≠ sh_waiters m → svc ≠ shared_waiters_ m →
  (∀ N', let w' := with_nodes N' (finish_all operation_aborted (qs ++ qx) w) in
     let L' := <[svc := xs ++ ys]> (delete (sh_waiters m) (delete (shared_waiters_ m) L)) in
     world_ok w' L' → service_ok w' L' svc (xs ++ ys) → Φ (Ok tt) (Machine m w')) →
  wp shared_mutex_impl_dtor (Machine m w) Φ.
Proof.
  intros [[Hok Hi Hc] Hx Hs Hne _ _ _ _] Hsvc Hsv Hne1 Hne2 HΦ. apply wp_bind, wp_get_obj. cbn [obj].
  apply wp_bind. eapply wp_holder_dtor; [done|exact Hs|]. intros N1 Hok1.
  eapply (wp_impl_dtor (sh_waiters m) m _ _ qx svc xs ys); [exact Hok1|done| |done| |done|].
  - destruct Hx as [Hx Hxo]. split; [by rewrite lookup_delete_ne|]. rewrite Forall_forall in *.
    intros [p o] Hin. simpl. rewrite ops_finish_all_ne; [by apply (Hxo (p, o))|]. intros Hps. apply Hne.
    eapply (hr_disjoint _ _ (wo_heap _ _ Hok) _ _ _ _ p); [exact Hx|apply Hs|right|by right].
    apply list_elem_of_fmap. by exists (p, o).
  - destruct Hsv as [Hms Hc' Hpl]. split.
    + by rewrite lookup_delete_ne.
    + simpl. by rewrite services_finish_all.
    + rewrite Forall_forall in *. intros a Ha. simpl. rewrite ops_finish_all_ne; [by apply Hpl|].
      intros Hin. apply Hne2. eapply (hr_disjoint _ _ (wo_heap _ _ Hok)); [apply Hms|apply Hs|right; exact Ha|by right].
  - intros N2 w2 L2. unfold w2. rewrite finish_all_with_nodes, <- finish_all_app. intros H1 H2. by apply (HΦ N2).
Qed.
End life.
