(* ===== verification/SharedMutexSpec.v ===== *)
(** * The shared mutex: abstract specification, refinement and properties

    [shared_step] is the abstract shared mutex as the code implements it: an
    exclusive owner or a number of readers, and the two lines. Each step carries
    the number of exclusive and of shared requests it grants; [shared_run]
    counts the owners over arbitrary interleavings of calls. A thread that blocks
    in [lock_shared] waits in the line of the writers, and it is granted what
    they are granted: the exclusive lock. [shared_mutex_blocked_reader_stuck]
    shows what follows. *)
From S2P Require Import Prelude Machine Bilist Ops Service Impl Mutex SharedMutex.

Section commands.
Context {ASIO : Asio}.

Inductive shared_cmd :=
  | sh_declare_ec
  | sh_try_lock
  | sh_lock (ec : addr)
  | sh_unlock
  | sh_try_lock_shared
  | sh_lock_shared (ec : addr)
  | sh_unlock_shared
  | sh_async_lock (exec : executor) (h : handler)
  | sh_async_lock_shared (exec : executor) (h : handler)
  | sh_emit (n : positive) (type : bool)
  | sh_resume (p : addr)
  | sh_shutdown.

Definition shared_exec (c : shared_cmd) : M shared_mutex_impl reply :=
  match c with
  | sh_declare_ec => r ← local_ec; mret (r_addr r)
  | sh_try_lock => b ← try_lock; mret (r_bool b)
  | sh_lock ec => r ← lock ec; mret (r_sync r)
  | sh_unlock => unlock;; mret r_unit
  | sh_try_lock_shared => b ← try_lock_shared; mret (r_bool b)
  | sh_lock_shared ec => r ← lock_shared ec; mret (r_sync r)
  | sh_unlock_shared => unlock_shared;; mret r_unit
  | sh_async_lock exec h => async_lock exec h;; mret r_unit
  | sh_async_lock_shared exec h => async_lock_shared exec h;; mret r_unit
  | sh_emit n type => shared_emit n type;; mret r_unit
  | sh_resume p => b ← sync_wait p; mret (r_bool b)
  | sh_shutdown => shutdown;; mret r_unit
  end.

(** What a call relies on: the [error_code] that is passed to it is alive, the
    reader count and the memory stay below [2 ^ 64], the closure in an emitted
    slot belongs to this mutex, and a thread that wakes up has an operation.
    Nothing is asked of those who unlock. *)
Definition shared_pre (c : shared_cmd) (s : machine shared_mutex_impl) : Prop :=
  match c with
  | sh_lock ec => is_Some (ecs (wld s) !! ec)
  | sh_try_lock_shared | sh_async_lock_shared _ _ =>
      (locked_shared_ (obj s) + Z.of_nat (size (nodes (wld s))) + 1 < 2 ^ 64)%Z
  | sh_lock_shared ec => is_Some (ecs (wld s) !! ec) ∧ (locked_shared_ (obj s) + 1 < 2 ^ 64)%Z
  | sh_emit n _ => ∀ c, slots (wld s) !! n = Some c → ch_impl c = this_ (get_sm (obj s))
  | sh_resume p => ∃ ec d, ops (wld s) !! p = Some (sync_op ec d)
  | _ => True
  end.

(** ** The abstract shared mutex *)

Record shared_spec := SharedSpec {
  writer : bool;
  readers : Z;
  writers_line : list (addr * op);
  readers_line : list (addr * op)
}.

Definition spec_free (sp : shared_spec) : Prop := writer sp = false ∧ readers sp = 0%Z.

(** [shared_step enabled impl sp w c r gx gs sp' w']: [gx] exclusive and [gs]
    shared requests are granted. *)
Inductive shared_step (enabled : bool) (impl : addr) :
    shared_spec → world → shared_cmd → res reply → nat → nat → shared_spec → world → Prop :=
  | hs_declare_ec sp w r : ecs w !! r = None →
      shared_step enabled impl sp w sh_declare_ec (Ok (r_addr r)) 0 0 sp (set_ecs <[r := no_error]> w)
  | hs_try_free w :
      shared_step enabled impl (SharedSpec false 0 [] []) w sh_try_lock (Ok (r_bool true)) 1 0
        (SharedSpec true 0 [] []) w
  | hs_try_busy sp w : ¬ spec_free sp →
      shared_step enabled impl sp w sh_try_lock (Ok (r_bool false)) 0 0 sp w
  | hs_lock_free ec w :
      shared_step enabled impl (SharedSpec false 0 [] []) w (sh_lock ec) (Ok (r_sync Returned)) 1 0
        (SharedSpec true 0 [] []) w
  | hs_lock_error ec sp w : enabled = false → ¬ spec_free sp →
      shared_step enabled impl sp w (sh_lock ec) (Ok (r_sync Returned)) 0 0 sp (set_ecs <[ec := in_progress]> w)
  | hs_lock_wait ec b n qx qs w p : enabled = true → ¬ spec_free (SharedSpec b n qx qs) → ops w !! p = None →
      shared_step enabled impl (SharedSpec b n qx qs) w (sh_lock ec) (Ok (r_sync (Blocked p))) 0 0
        (SharedSpec b n (qx ++ [(p, sync_op ec false)]) qs) (enqueued impl (p, sync_op ec false) w)
  | hs_unlock_free w :
      shared_step enabled impl (SharedSpec true 0 [] []) w sh_unlock (Ok r_unit) 0 0 (SharedSpec false 0 [] []) w
  | hs_unlock_writer po qx w :
      shared_step enabled impl (SharedSpec true 0 (po :: qx) []) w sh_unlock (Ok r_unit) 1 0
        (SharedSpec true 0 qx []) (finish no_error w po)
  | hs_unlock_readers qx qs w : qs ≠ [] →
      shared_step enabled impl (SharedSpec true 0 qx qs) w sh_unlock (Ok r_unit) 0 (length qs)
        (SharedSpec false (Z.of_nat (length qs)) qx []) (finish_all no_error qs w)
  | hs_unlock_nobody n w :
      shared_step enabled impl (SharedSpec false n [] []) w sh_unlock (Ok r_unit) 0 0 (SharedSpec false n [] []) w
  | hs_unlock_readers_own n po qx w :
      shared_step enabled impl (SharedSpec false n (po :: qx) []) w sh_unlock (Ok r_unit) 1 0
        (SharedSpec false n qx []) (finish no_error w po)
  | hs_try_shared n qx w :
      shared_step enabled impl (SharedSpec false n qx []) w sh_try_lock_shared (Ok (r_bool true)) 0 1
        (SharedSpec false (n + 1) qx []) w
  | hs_try_shared_busy n qx qs w :
      shared_step enabled impl (SharedSpec true n qx qs) w sh_try_lock_shared (Ok (r_bool false)) 0 0
        (SharedSpec true n qx qs) w
  | hs_shared_free ec n qx w :
      shared_step enabled impl (SharedSpec false n qx []) w (sh_lock_shared ec) (Ok (r_sync Returned)) 0 1
        (SharedSpec false (n + 1) qx []) w
  | hs_shared_error ec n qx qs w : enabled = false →
      shared_step enabled impl (SharedSpec true n qx qs) w (sh_lock_shared ec) (Ok (r_sync Returned)) 0 0
        (SharedSpec true n qx qs) (set_ecs <[ec := in_progress]> w)
  | hs_shared_wait ec n qx qs w p : enabled = true → ops w !! p = None →
      shared_step enabled impl (SharedSpec true n qx qs) w (sh_lock_shared ec) (Ok (r_sync (Blocked p))) 0 0
        (SharedSpec true n (qx ++ [(p, sync_op ec false)]) qs) (enqueued impl (p, sync_op ec false) w)
  | hs_leave_nobody b qs w :
      shared_step enabled impl (SharedSpec b 0 [] qs) w sh_unlock_shared (Ok r_unit) 0 0 (SharedSpec b 0 [] qs) w
  | hs_leave_writer_owns po qx qs w :
      shared_step enabled impl (SharedSpec true 0 (po :: qx) qs) w sh_unlock_shared (Ok r_unit) 1 0
        (SharedSpec true 0 qx qs) (finish no_error w po)
  | hs_leave n qx w : (1 < n)%Z →
      shared_step enabled impl (SharedSpec false n qx []) w sh_unlock_shared (Ok r_unit) 0 0
        (SharedSpec false (n - 1) qx []) w
  | hs_leave_free w :
      shared_step enabled impl (SharedSpec false 1 [] []) w sh_unlock_shared (Ok r_unit) 0 0
        (SharedSpec false 0 [] []) w
  | hs_leave_writer po qx w :
      shared_step enabled impl (SharedSpec false 1 (po :: qx) []) w sh_unlock_shared (Ok r_unit) 1 0
        (SharedSpec true 0 qx []) (finish no_error w po)
  | hs_async_free exec h w :
      shared_step enabled impl (SharedSpec false 0 [] []) w (sh_async_lock exec h) (Ok r_unit) 1 0
        (SharedSpec true 0 [] []) (log (ev_dispatch (get_associated_immediate_executor h exec) h no_error) w)
  | hs_async_fail exec h sp w X : ¬ spec_free sp → allocate h X = None →
      shared_step enabled impl sp w (sh_async_lock exec h) (Exn bad_alloc) 0 0 sp w
  | hs_async_wait exec h b n qx qs w p : ¬ spec_free (SharedSpec b n qx qs) → ops w !! p = None →
      let po := (p, basic_op_model (get_associated_executor h exec) h) in
      shared_step enabled impl (SharedSpec b n qx qs) w (sh_async_lock exec h) (Ok r_unit) 0 0
        (SharedSpec b n (qx ++ [po]) qs) (enqueued impl po w)
  | hs_async_shared_free exec h n qx w :
      shared_step enabled impl (SharedSpec false n qx []) w (sh_async_lock_shared exec h) (Ok r_unit) 0 1
        (SharedSpec false (n + 1) qx []) (log (ev_dispatch (get_associated_immediate_executor h exec) h no_error) w)
  | hs_async_shared_fail exec h n qx qs w X : allocate h X = None →
      shared_step enabled impl (SharedSpec true n qx qs) w (sh_async_lock_shared exec h) (Exn bad_alloc) 0 0
        (SharedSpec true n qx qs) w
  | hs_async_shared_wait exec h n qx qs w p : ops w !! p = None →
      let po := (p, basic_op_model (get_associated_executor h exec) h) in
      shared_step enabled impl (SharedSpec true n qx qs) w (sh_async_lock_shared exec h) (Ok r_unit) 0 0
        (SharedSpec true n qx (qs ++ [po])) (enqueued impl po w)
  | hs_emit_nothing n type sp w : type = false ∨ slots w !! n = None →
      shared_step enabled impl sp w (sh_emit n type) (Ok r_unit) 0 0 sp w
  | hs_emit_writer sl b n q1 p o q2 qs w : slots w !! sl = Some (CancelHandler p impl) →
      shared_step enabled impl (SharedSpec b n (q1 ++ (p, o) :: q2) qs) w (sh_emit sl true) (Ok r_unit) 0 0
        (SharedSpec b n (q1 ++ q2) qs) (finish operation_aborted w (p, o))
  | hs_emit_reader sl b n qx q1 p o q2 w : slots w !! sl = Some (CancelHandler p impl) →
      shared_step enabled impl (SharedSpec b n qx (q1 ++ (p, o) :: q2)) w (sh_emit sl true) (Ok r_unit) 0 0
        (SharedSpec b n qx (q1 ++ q2)) (finish operation_aborted w (p, o))
  | hs_resume_asleep p ec sp w : ops w !! p = Some (sync_op ec false) →
      shared_step enabled impl sp w (sh_resume p) (Ok (r_bool false)) 0 0 sp w
  | hs_resume_done p ec sp w : ops w !! p = Some (sync_op ec true) →
      shared_step enabled impl sp w (sh_resume p) (Ok (r_bool true)) 0 0 sp (set_ops (delete p) w)
  | hs_shutdown b n qx qs w :
      shared_step enabled impl (SharedSpec b n qx qs) w sh_shutdown (Ok r_unit) 0 0
        (SharedSpec b n [] []) (abort_all (qx ++ qs) w).

Definition shared_implements (L : gmap addr (list addr)) (s : machine shared_mutex_impl) (sp : shared_spec) : Prop :=
  shared_rep L (obj s) (wld s) (writers_line sp) (readers_line sp) ∧
  sh_locked (obj s) = writer sp ∧ locked_shared_ (obj s) = readers sp.
End commands.

(** ** Refinement *)

Section refinement.
Context {ASIO : Asio}.
Implicit Types (L : gmap addr (list addr)) (m : shared_mutex_impl) (w : world).
Implicit Types (s : machine shared_mutex_impl) (sp : shared_spec) (qx qs : list (addr * op)).

Definition shared_roots m : list addr := [sh_waiters m; shared_waiters_ m].

Definition sh_refined L s sp (c : shared_cmd) (r : res reply) s' : Prop :=
  ∃ L' gx gs sp' w',
    shared_step (enabled_ (get_mtx (obj s))) (this_ (get_sm (obj s))) sp (wld s) c r gx gs sp' w' ∧
    same_but_nodes (wld s') w' ∧ shared_implements L' s' sp' ∧ local shared_roots L (obj s) L' (obj s').

Lemma sh_refined_intro L' gx gs sp' w' L s sp c r s' :
  shared_step (enabled_ (get_mtx (obj s))) (this_ (get_sm (obj s))) sp (wld s) c r gx gs sp' w' →
  same_but_nodes (wld s') w' → shared_rep L' (obj s') (wld s') (writers_line sp') (readers_line sp') →
  sh_locked (obj s') = writer sp' → locked_shared_ (obj s') = readers sp' →
  same_member (obj s) (obj s') → shared_roots (obj s') = shared_roots (obj s) →
  same_lists [sh_waiters (obj s); shared_waiters_ (obj s)] L L' → sh_refined L s sp c r s'.
Proof. intros. by exists L', gx, gs, sp', w'. Qed.

(** The exclusive calls ask whether the mutex is free; the two forms of the
    question. *)
Definition is_free m : bool := negb (sh_locked m) && bool_decide (locked_shared_ m = 0%Z).

Lemma is_free_spec L m w qx qs :
  shared_rep L m w qx qs →
  if is_free m then qx = [] ∧ qs = [] ∧ sh_locked m = false ∧ locked_shared_ m = 0%Z
  else ¬ spec_free (SharedSpec (sh_locked m) (locked_shared_ m) qx qs).
Proof.
  intros Hr. unfold is_free. destruct (sh_locked m) eqn:Hl, (decide (locked_shared_ m = 0%Z)) as [Hz|Hz]; simpl.
  - by intros [??].
  - by intros [??].
  - rewrite bool_decide_eq_true_2 by done. by destruct (shared_free _ _ _ _ _ Hr Hl Hz) as [-> ->].
  - rewrite bool_decide_eq_false_2 by done. by intros [??].
Qed.
Lemma is_busy L m w qx qs :
  shared_rep L m w qx qs → sh_locked m || bool_decide (locked_shared_ m > 0)%Z = negb (is_free m).
Proof.
  intros Hr. pose proof (hr_range _ _ _ _ _ Hr). unfold is_free.
  rewrite negb_andb, negb_involutive. f_equal. repeat case_bool_decide; try done; lia.
Qed.

(** The exclusive calls. *)
Lemma shared_exec_exclusive c L m w qx qs :
  shared_rep L m w qx qs → shared_pre c (Machine m w) →
  match c with
  | sh_try_lock | sh_lock _ | sh_unlock | sh_async_lock _ _ => True
  | _ => False
  end →
  wp (shared_exec c) (Machine m w) (sh_refined L (Machine m w) (SharedSpec (sh_locked m) (locked_shared_ m) qx qs) c).
Proof.
  intros Hr Hpre Hc. pose proof (is_free_spec _ _ _ _ _ Hr) as Hf. pose proof (is_busy _ _ _ _ _ Hr) as Eor.
  destruct c; try done; simpl in *; apply wp_bind.
  - eapply wp_shared_try_lock; [done|]. rewrite Eor.
    destruct (is_free m) eqn:E; simpl; apply wp_ret.
    + destruct Hf as (-> & -> & Hl & Hz). rewrite Hl, Hz.
      eapply (sh_refined_intro L); [apply hs_try_free|reflexivity|by apply shared_rep_lock|done..].
    + eapply (sh_refined_intro L); [by apply hs_try_busy|reflexivity|done..].
  - destruct (enabled_ (get_mtx m)) eqn:Hen.
    + eapply wp_shared_lock_mt; [done..|]. fold (is_free m). destruct (is_free m) eqn:E.
      * intros N' m' Hr'. destruct Hf as (-> & -> & Hl & Hz). rewrite Hl, Hz. apply wp_ret.
        eapply sh_refined_intro; [apply hs_lock_free|apply same_with_nodes|done..].
      * intros p N' Hp po w' Hr'. apply wp_ret.
        eapply sh_refined_intro; [apply hs_lock_wait; [done..|]|apply same_with_nodes|done..].
        eapply fresh_op; [apply Hr|done].
    + eapply wp_shared_lock_st; [done..|]. rewrite Eor. destruct (is_free m) eqn:E; simpl; apply wp_ret.
      * destruct Hf as (-> & -> & Hl & Hz). rewrite Hl, Hz.
        eapply (sh_refined_intro L); [apply hs_lock_free|reflexivity|by apply shared_rep_lock|done..].
      * eapply (sh_refined_intro L); [apply hs_lock_error; done|reflexivity|by apply shared_rep_ecs|done..].
  - eapply wp_shared_unlock; [done|]. destruct (sh_locked m) eqn:Hl.
    + rewrite (hr_exclusive _ _ _ _ _ Hr Hl). destruct qs as [|pos qs]; [destruct qx as [|po qx]|].
      * intros Hr'. apply wp_ret. eapply (sh_refined_intro L); [apply hs_unlock_free|reflexivity|done|done|by apply Hr|done..].
      * intros N' L' w' Hr' HL'. apply wp_ret.
        eapply sh_refined_intro; [apply hs_unlock_writer|apply same_with_nodes|done|done|by apply Hr|done..].
      * intros N' L' w' m' Hr' HL'. apply wp_ret.
        eapply sh_refined_intro; [by apply hs_unlock_readers|apply same_with_nodes|done..].
    + rewrite (shared_no_readers _ _ _ _ _ Hr Hl). destruct qx as [|po qx].
      * intros Hr'. apply wp_ret. eapply (sh_refined_intro L); [apply hs_unlock_nobody|reflexivity|done..].
      * intros N' L' w' Hr' HL'. apply wp_ret.
        eapply sh_refined_intro; [apply hs_unlock_readers_own|apply same_with_nodes|done..].
  - eapply wp_shared_async_lock; [done|]. fold (is_free m). destruct (is_free m) eqn:E.
    + destruct Hf as (-> & -> & Hl & Hz). rewrite Hl, Hz. apply wp_ret.
      eapply (sh_refined_intro L); [apply hs_async_free|reflexivity| |done..].
      by apply shared_rep_lock; [apply shared_rep_log|].
    + split.
      * intros Ha. eapply (sh_refined_intro L); [eapply hs_async_fail; done|reflexivity|done..].
      * intros p N' Ha Hp po w' Hr'. apply wp_ret.
        eapply sh_refined_intro; [apply hs_async_wait; [done|]|apply same_with_nodes|done..].
        eapply fresh_op; [apply Hr|done].
Qed.

(** The shared calls. *)
Lemma shared_exec_shared c L m w qx qs :
  shared_rep L m w qx qs → shared_pre c (Machine m w) →
  match c with
  | sh_try_lock_shared | sh_lock_shared _ | sh_unlock_shared | sh_async_lock_shared _ _ => True
  | _ => False
  end →
  wp (shared_exec c) (Machine m w) (sh_refined L (Machine m w) (SharedSpec (sh_locked m) (locked_shared_ m) qx qs) c).
Proof.
  intros Hr Hpre Hc. pose proof (hr_range _ _ _ _ _ Hr) as [Hb0 Hb1].
  pose proof (queue_length_fuel _ _ _ _ (io_world _ _ _ _ (hr_impl _ _ _ _ _ Hr)) (hr_shared _ _ _ _ _ Hr)) as Hlen.
  assert (sh_locked m = false → qs = []) as Hnor by (intros; by eapply shared_no_readers).
  destruct c; try done; simpl in *; apply wp_bind.
  - eapply wp_try_lock_shared; [done|lia|]. destruct (sh_locked m) eqn:Hl; apply wp_ret.
    + eapply (sh_refined_intro L); [apply hs_try_shared_busy|reflexivity|done..].
    + rewrite (Hnor eq_refl) in *. eapply (sh_refined_intro L); [apply hs_try_shared|reflexivity| |done..].
      apply shared_rep_reader; [done..|lia].
  - destruct Hpre as (He & Hb). destruct (enabled_ (get_mtx m)) eqn:Hen.
    + eapply wp_lock_shared_mt; [done..|]. destruct (sh_locked m) eqn:Hl.
      * intros p N' Hp po w' Hr'. apply wp_ret.
        eapply sh_refined_intro; [apply hs_shared_wait; [done|]|apply same_with_nodes|done..].
        eapply fresh_op; [apply Hr|done].
      * intros N' m' Hr'. rewrite (Hnor eq_refl). apply wp_ret.
        eapply sh_refined_intro; [apply hs_shared_free|apply same_with_nodes|done..].
    + eapply wp_lock_shared_st; [done..|]. destruct (sh_locked m) eqn:Hl; apply wp_ret.
      * eapply (sh_refined_intro L); [by apply hs_shared_error|reflexivity|by apply shared_rep_ecs|done..].
      * rewrite (Hnor eq_refl) in *. eapply (sh_refined_intro L); [by apply hs_shared_free|reflexivity| |done..].
        by apply shared_rep_reader.
  - destruct (decide (locked_shared_ m = 0%Z)) as [Hz|Hz].
    { eapply wp_unlock_shared_idle; [done..|]. rewrite Hz. destruct qx as [|po qx].
      - apply wp_ret. eapply (sh_refined_intro L); [apply hs_leave_nobody|reflexivity|done..].
      - intros N' L' w' Hr' HL'. assert (sh_locked m = true) as Hl by (destruct (hr_writers _ _ _ _ _ Hr ltac:(done)); [done|lia]).
        rewrite Hl. apply wp_ret. eapply sh_refined_intro; [apply hs_leave_writer_owns|apply same_with_nodes|done..]. }
    assert (0 < locked_shared_ m)%Z as Hpos by lia.
    assert (sh_locked m = false) as Hl.
    { destruct (sh_locked m) eqn:Hl; [|done]. by rewrite (hr_exclusive _ _ _ _ _ Hr Hl) in Hz. }
    rewrite (Hnor Hl) in *. eapply wp_unlock_shared; [done..|]. case_bool_decide as H1.
    + rewrite Hl, H1. destruct qx as [|po qx].
      * intros Hr'. apply wp_ret. eapply (sh_refined_intro L); [apply hs_leave_free|reflexivity|done|done|simpl; lia|done..].
      * intros N' L' w' m' Hr' HL'. apply wp_ret.
        eapply sh_refined_intro; [apply hs_leave_writer|apply same_with_nodes|done|done|simpl; lia|done..].
    + intros Hr'. apply wp_ret. rewrite Hl. eapply (sh_refined_intro L); [apply hs_leave; lia|reflexivity|done..].
  - eapply wp_async_lock_shared; [done|lia|]. destruct (sh_locked m) eqn:Hl.
    + split.
      * intros Ha. eapply (sh_refined_intro L); [by eapply hs_async_shared_fail|reflexivity|done..].
      * intros p N' Ha Hp po w' Hr'. apply wp_ret.
        eapply sh_refined_intro; [apply hs_async_shared_wait|apply same_with_nodes|done..].
        eapply fresh_op; [apply Hr|done].
    + rewrite (Hnor eq_refl) in *. apply wp_ret.
      eapply (sh_refined_intro L); [apply hs_async_shared_free|reflexivity| |done..].
      apply shared_rep_reader; [by apply shared_rep_log|done|lia].
Qed.

Lemma shared_exec_refines c L s sp :
  shared_implements L s sp → shared_pre c s → wp (shared_exec c) s (sh_refined L s sp c).
Proof.
  destruct s as [m w], sp as [b n qx qs]. intros (Hr & Hb & Hn) Hpre. simpl in *. subst b n.
  destruct c as [| |ec| | |ec| |exec h|exec h|n type|p|];
    try (by apply (shared_exec_exclusive _ L)); try (by apply (shared_exec_shared _ L)); simpl in *; apply wp_bind.
  - eapply wp_local_ec; [apply Hr|]. intros r Hfr w' Hi Hq. apply wp_ret.
    eapply (sh_refined_intro L); [by apply hs_declare_ec|reflexivity|by apply shared_rep_ecs|done..].
  - eapply wp_shared_emit; [done..| |].
    + intros Hn. apply wp_ret. eapply (sh_refined_intro L); [by apply hs_emit_nothing|reflexivity|done..].
    + intros -> p o N' L' Hn w' HL'. split; intros q1 q2 -> Hr'; apply wp_ret.
      * eapply sh_refined_intro; [by apply hs_emit_writer|apply same_with_nodes|done..].
      * eapply sh_refined_intro; [by apply hs_emit_reader|apply same_with_nodes|done..].
  - destruct Hpre as (ec & d & Hp). eapply wp_shared_resume; [done..|]. destruct d.
    + intros N' w' Hr'. apply wp_ret.
      eapply sh_refined_intro; [by eapply hs_resume_done|apply same_with_nodes|done..].
    + apply wp_ret. eapply (sh_refined_intro L); [by eapply hs_resume_asleep|reflexivity|done..].
  - eapply wp_shared_shutdown; [done|]. intros N' L' w' Hr' HL'. apply wp_ret.
    eapply sh_refined_intro; [apply hs_shutdown|apply same_with_nodes|done..].
Qed.
End refinement.

(** ** Runs *)

Section runs.
Context {ASIO : Asio}.
Implicit Types (L : gmap addr (list addr)) (m : shared_mutex_impl) (w : world).
Implicit Types (s : machine shared_mutex_impl) (sp : shared_spec) (qx qs : list (addr * op)).

(** The roots of the readers' line hold somebody. *)
Definition readers_waiting s : bool :=
  negb (bool_decide (next_at (nodes (wld s)) (shared_waiters_ (obj s)) = Some (shared_waiters_ (obj s)))).

(** How many callers learn that they own the mutex exclusively, and how many
    that they share it. The operations an [unlock] completes come from the
    readers' line when there is one. *)
Definition writer_grants s (c : shared_cmd) (r : res reply) s' : nat :=
  match c, r with
  | sh_try_lock, Ok (r_bool true) => 1
  | sh_lock ec, Ok (r_sync Returned) => if bool_decide (ecs (wld s') !! ec = Some no_error) then 1 else 0
  | sh_unlock, _ => if readers_waiting s then 0 else granted (events_since (wld s) (wld s'))
  | sh_unlock_shared, _ | sh_async_lock _ _, _ => granted (events_since (wld s) (wld s'))
  | _, _ => 0
  end.
Definition reader_grants s (c : shared_cmd) (r : res reply) s' : nat :=
  match c, r with
  | sh_try_lock_shared, Ok (r_bool true) => 1
  | sh_lock_shared ec, Ok (r_sync Returned) => if bool_decide (ecs (wld s') !! ec = Some no_error) then 1 else 0
  | sh_unlock, _ => if readers_waiting s then granted (events_since (wld s) (wld s')) else 0
  | sh_async_lock_shared _ _, _ => granted (events_since (wld s) (wld s'))
  | _, _ => 0
  end.
Definition writer_releases (c : shared_cmd) : nat := match c with sh_unlock => 1 | _ => 0 end.
Definition reader_releases (c : shared_cmd) : nat := match c with sh_unlock_shared => 1 | _ => 0 end.

(** A client that plays by the rules while [hx] callers own the mutex and [hs]
    share it: only an owner unlocks, only a sharer calls [unlock_shared]. *)
Definition shared_client (hx hs : nat) (c : shared_cmd) s : Prop :=
  match c with
  | sh_unlock => 0 < hx
  | sh_unlock_shared => 0 < hs
  | sh_lock ec => ecs (wld s) !! ec = Some no_error
  | sh_lock_shared ec => ecs (wld s) !! ec = Some no_error ∧ (locked_shared_ (obj s) + 1 < 2 ^ 64)%Z
  | _ => shared_pre c s
  end.

Inductive shared_run s0 : nat → nat → machine shared_mutex_impl → Prop :=
  | sh_run_start : shared_run s0 0 0 s0
  | sh_run_call hx hs s c r s' : shared_run s0 hx hs s → shared_client hx hs c s →
      shared_exec c s = Some (r, s') →
      shared_run s0 (hx - writer_releases c + writer_grants s c r s')
        (hs - reader_releases c + reader_grants s c r s') s'.

(** The owners a state accounts for. *)
Definition accounts (hx hs : nat) sp : Prop :=
  hx = (if writer sp then 1 else 0) ∧ readers sp = Z.of_nat hs.

Lemma client_pre hx hs c L s sp :
  shared_implements L s sp → accounts hx hs sp → shared_client hx hs c s → shared_pre c s.
Proof.
  intros (Hr & Hl & Hn) [Hx Hs] Hcl. destruct c; simpl in *; try done.
  destruct Hcl. split; [by eexists|done].
Qed.

Lemma readers_waiting_spec L s qx qs :
  shared_rep L (obj s) (wld s) qx qs → readers_waiting s = negb (bool_decide (qs = [])).
Proof.
  intros Hr. pose proof (hr_shared _ _ _ _ _ Hr) as Hq.
  pose proof (hr_dlist _ _ (wo_heap _ _ (io_world _ _ _ _ (hr_impl _ _ _ _ _ Hr))) _ _ (proj1 Hq)) as [Hnd Hs].
  unfold readers_waiting. rewrite (seg_first _ _ _ _ Hs). f_equal. apply bool_decide_ext.
  destruct qs as [|[p o] qs]; simpl; [done|]. split; [|done]. intros [= ->].
  apply NoDup_cons in Hnd as [Hn _]. destruct Hn. by left.
Qed.

Lemma granted_completions q : granted (q ≫= completion no_error) = length q.
Proof.
  induction q as [|[p o] q IH]; [done|]. rewrite bind_cons. unfold granted in *. rewrite filter_app, length_app, IH.
  by destruct o.
Qed.

Lemma step_accounts L hx hs s sp c r s' :
  shared_implements L s sp → accounts hx hs sp → shared_client hx hs c s → sh_refined L s sp c r s' →
  ∃ L' sp', shared_implements L' s' sp' ∧
    accounts (hx - writer_releases c + writer_grants s c r s') (hs - reader_releases c + reader_grants s c r s') sp'.
Proof.
  intros (Hr & _) [Hx Hs] Hcl (L' & gx & gs & sp' & w' & Hstep & Hsame & Himp & _). exists L', sp'. split; [done|].
  pose proof (readers_waiting_spec _ _ _ _ Hr) as Hrw. clear Hr Himp.
  apply trace_same in Hsame as Htr. apply ecs_same in Hsame as Hec. clear Hsame.
  unfold writer_grants, reader_grants, accounts. rewrite Hrw. clear Hrw.
  destruct s as [m w0], s' as [m' w1]. cbn [wld obj] in *.
  destruct Hstep; simpl in *; subst; try (split; [done|lia]);
    try (split; [rewrite (events_since_same _ _ Htr); unfold granted; simpl; lia|lia]).
  all: try (rewrite Hec; rewrite bool_decide_eq_true_2 by first [done|apply Hcl]; split; [done|lia]).
  all: try (rewrite Hec; simpl; rewrite lookup_insert_eq, bool_decide_eq_false_2 by done; split; [done|lia]).
  all: try (rewrite trace_finish in Htr; rewrite (events_since_app _ _ _ Htr), granted_completion; split; lia).
  all: try (rewrite (events_since_app _ _ _ Htr); unfold granted; simpl; split; lia).
  all: try (rewrite (events_since_same _ _ Htr); unfold granted; simpl; split; lia).
  all: try (rewrite Hec, lookup_insert_eq, bool_decide_eq_false_2 by done).
  all: try (rewrite ?Nat.sub_0_r, ?Nat.add_0_r; by split).
  rewrite bool_decide_eq_false_2 by done. simpl. rewrite trace_finish_all in Htr.
  rewrite (events_since_app _ _ _ Htr), granted_completions. split; lia.
Qed.

Lemma sh_run_invariant L m w hx hs s :
  shared_rep L m w [] [] → sh_locked m = false → locked_shared_ m = 0%Z → shared_run (Machine m w) hx hs s →
  ∃ L' sp, shared_implements L' s sp ∧ accounts hx hs sp.
Proof.
  intros Hr Hl Hz. induction 1 as [|hx hs s c r s' _ (L' & sp & Himp & Hacc) Hcl Hex].
  - exists L, (SharedSpec false 0 [] []). by split; [split|].
  - pose proof (shared_exec_refines _ _ _ _ Himp (client_pre _ _ _ _ _ _ Himp Hacc Hcl)) as Hwp.
    unfold wp in Hwp. rewrite Hex in Hwp. by eapply step_accounts.
Qed.
End runs.

(** ** The properties *)

Section properties.
Context {ASIO : Asio}.
Implicit Types (L : gmap addr (list addr)) (m : shared_mutex_impl) (w : world).
Implicit Types (s : machine shared_mutex_impl) (sp : shared_spec) (qx qs : list (addr * op)).

(** C5: one writer or any number of readers. From a free shared mutex, after any
    interleaving of calls in which only exclusive owners call [unlock], only
    sharers call [unlock_shared], the [error_code]s that [lock] and
    [lock_shared] get are clear, and counts and memory stay below [2 ^ 64]:
    there is at most one exclusive owner, there is one exactly when the flag is
    set, he excludes every sharer, and [locked_shared_] is the number of
    sharers. A thread that has blocked in [lock_shared] is given the exclusive
    lock and counts as an exclusive owner, not as a sharer. *)
Theorem shared_mutex_exclusion L m w hx hs s :
  shared_rep L m w [] [] → sh_locked m = false → locked_shared_ m = 0%Z → shared_run (Machine m w) hx hs s →
  hx ≤ 1 ∧ (hx = 1 ↔ sh_locked (obj s) = true) ∧ (hx = 1 → hs = 0) ∧ locked_shared_ (obj s) = Z.of_nat hs.
Proof.
  intros Hr Hl Hz Hrun.
  destruct (sh_run_invariant _ _ _ _ _ _ Hr Hl Hz Hrun) as (L' & sp & (Hr' & Hw & Hn) & [-> Hs]).
  pose proof (hr_exclusive _ _ _ _ _ Hr') as Hex. rewrite Hn, Hs, Hw in *.
  destruct (writer sp); split_and!; first [done|lia].
Qed.

(** No call is ever stuck. After any run every call whose precondition
    holds has an outcome; in particular the loop of [unlock] ends. *)
Theorem shared_mutex_never_stuck L m w hx hs s c :
  shared_rep L m w [] [] → sh_locked m = false → locked_shared_ m = 0%Z → shared_run (Machine m w) hx hs s →
  shared_pre c s → ∃ r s', shared_exec c s = Some (r, s').
Proof.
  intros Hr Hl Hz Hrun Hpre. destruct (sh_run_invariant _ _ _ _ _ _ Hr Hl Hz Hrun) as (L' & sp & Himp & _).
  pose proof (shared_exec_refines _ _ _ _ Himp Hpre) as (r & s' & Hex & _)%wp_run. by exists r, s'.
Qed.

(** C26: refinement. Every call of the pointer implementation, whoever makes it,
    is a step of the abstract shared mutex, with the abstract answer and the
    abstract effects (list nodes aside), and leaves an object that implements
    the successor. This includes [lock_shared] with threads, which waits in the
    line of the writers, and [unlock] and [unlock_shared] by callers who own
    nothing. What is relied on: the [error_code] passed to a call is alive,
    counts and memory stay below [2 ^ 64], an emitted closure belongs to this
    mutex, and a thread that looks has an operation. *)
Theorem shared_mutex_refines L s sp c :
  shared_implements L s sp → shared_pre c s →
  wp (shared_exec c) s (λ r s', ∃ L' gx gs sp' w',
    shared_step (enabled_ (get_mtx (obj s))) (this_ (get_sm (obj s))) sp (wld s) c r gx gs sp' w' ∧
    same_but_nodes (wld s') w' ∧ shared_implements L' s' sp').
Proof.
  intros Himp Hpre. eapply wp_mono; [by apply (shared_exec_refines c L s sp)|].
  intros r s' (L' & gx & gs & sp' & w' & H1 & H2 & H3 & _). by exists L', gx, gs, sp', w'.
Qed.

(** [unlock] prefers readers. Whoever came first, all waiting readers are
    completed, in order and with no error, the writers stay in line, and the
    mutex is shared by exactly those readers. *)
Theorem shared_mutex_readers_first L m w qx qs :
  shared_rep L m w qx qs → sh_locked m = true → qs ≠ [] →
  wp unlock (Machine m w) (λ r s', r = Ok tt ∧ sh_locked (obj s') = false ∧
    locked_shared_ (obj s') = Z.of_nat (length qs) ∧
    events_since w (wld s') = (qs ≫= completion no_error) ∧
    ∃ L', shared_rep L' (obj s') (wld s') qx []).
Proof.
  intros Hr Hl Hq. eapply wp_shared_unlock; [done..|].
  assert (∀ N' L', let w' := with_nodes N' (finish_all no_error qs w) in
    let m' := set_locked_shared (Z.of_nat (length qs)) (set_sh_locked false m) in
    shared_rep L' m' w' qx [] → same_lists [sh_waiters m; shared_waiters_ m] L L' → Ok tt = Ok tt ∧ sh_locked m' = false ∧ locked_shared_ m' = Z.of_nat (length qs) ∧
    events_since w w' = (qs ≫= completion no_error) ∧ ∃ L', shared_rep L' m' w' qx []) as H; [|by destruct qs].
  intros N' L' w' m' Hr' _. split_and!; [done..| |by eexists]. apply events_since_app, trace_finish_all.
Qed.

(** A reader blocks, the writer unlocks, and the reader, woken, reads and
    leaves; then others try the mutex. *)
Definition blocked_reader_session (ec : addr) : M shared_mutex_impl (bool * bool) :=
  lock_shared ec;; unlock;; unlock_shared;;
  a ← try_lock; b ← try_lock_shared; mret (a, b).

(** C29: a blocked reader wedges the mutex. [lock_shared] waits in the line of
    the exclusive lockers, so [unlock] hands the reader an exclusive lock that
    its [unlock_shared] does not return: with nobody owning or waiting any
    more, the mutex refuses every [try_lock] and [try_lock_shared]. *)
Theorem shared_mutex_blocked_reader_stuck L m w ec :
  shared_rep L m w [] [] → sh_locked m = true → enabled_ (get_mtx m) = true → is_Some (ecs w !! ec) →
  wp (blocked_reader_session ec) (Machine m w) (λ r s', r = Ok (false, false) ∧ obj s' = m ∧
    ecs (wld s') !! ec = Some no_error ∧ ∃ L', shared_rep L' m (wld s') [] []).
Proof.
  intros Hr Hl Hen He. pose proof (hr_exclusive _ _ _ _ _ Hr Hl) as Hz.
  apply wp_bind. eapply wp_lock_shared_mt; [done..|by rewrite Hz|]. rewrite Hl. intros p N1 Hp po w1 Hr1.
  apply wp_bind. eapply wp_shared_unlock; [exact Hr1|]. simpl. intros N2 L2 Hr2 _.
  apply wp_bind. eapply wp_unlock_shared_idle; [exact Hr2|done|].
  apply wp_bind. eapply wp_shared_try_lock; [exact Hr2|]. rewrite Hl. simpl.
  apply wp_bind. eapply wp_try_lock_shared; [exact Hr2|by rewrite Hz|]. rewrite Hl. apply wp_ret.
  split_and!; [done..| |by eexists]. apply lookup_insert_eq.
Qed.

(** Destruction. The waiting readers and then the waiting writers are
    completed with [operation_aborted], each line in order, and the shared mutex
    leaves the members of its service. *)
Theorem shared_mutex_dtor_aborts L m w qx qs svc xs ys :
  shared_rep L m w qx qs → service (get_sm m) = Some svc →
  service_ok w L svc (xs ++ this_ (get_sm m) :: ys) → svc ≠ sh_waiters m → svc ≠ shared_waiters_ m →
  wp shared_mutex_impl_dtor (Machine m w) (λ r s', r = Ok tt ∧
    events_since w (wld s') = ((qs ++ qx) ≫= completion operation_aborted) ∧
    ∃ L', world_ok (wld s') L' ∧ service_ok (wld s') L' svc (xs ++ ys)).
Proof.
  intros Hr Hs Hok Hx Hsh. eapply wp_shared_mutex_impl_dtor; [done..|]. intros N' w' L' H1 H2.
  split_and!; [done| |by eexists]. apply events_since_app, trace_finish_all.
Qed.
End properties.

(** ** The properties at work *)

Section witnesses.

(** A shared mutex at address 2, its lines at 3 and 4, in the demonstration
    context; a writer owns it; then handler 4 waits to write and handler 6 to
    read, at addresses 5 and 6. *)
Definition demo_shared (threads : bool) : machine shared_mutex_impl :=
  match shared_mutex_impl_ctor 2 3 4 1 (demo_config threads) (-1) (Machine tt (demo_world threads)) with
  | Some (Ok m, s) => Machine m (wld s)
  | _ => Machine (SharedMutexImpl (MutexImpl (ServiceMember 2 None (cem_ctor false)) false 3) 0 4) (demo_world threads)
  end.
Definition demo_shared_lists : gmap addr (list addr) :=
  <[4%positive := []]> (<[3%positive := []]> (<[1%positive := [2%positive]]> demo_lists)).

Lemma demo_shared_rep b :
  shared_rep demo_shared_lists (obj (demo_shared b)) (wld (demo_shared b)) [] [] ∧
  service_ok (wld (demo_shared b)) demo_shared_lists 1 [2%positive].
Proof.
  destruct (demo_world_ok b) as [Hok Hs].
  assert (wp (shared_mutex_impl_ctor 2 3 4 1 (demo_config b) (-1)) (Machine tt (demo_world b)) (λ r s,
    match r with
    | Ok m => shared_rep demo_shared_lists m (wld s) [] [] ∧ service_ok (wld s) demo_shared_lists 1 [2%positive]
    | Exn _ => False
    end)) as H.
  { eapply wp_shared_mutex_impl_ctor; [exact Hok|exact Hs|by destruct b..| | |].
    - repeat constructor; set_solver.
    - intros n c. by destruct b.
    - intros N' w' L' c sh H1 H2. done. }
  unfold demo_shared. unfold wp in H. destruct (shared_mutex_impl_ctor _ _ _ _ _ _ _) as [[[m|] s]|]; done.
Qed.

(** A writer owns it. *)
Definition demo_written (threads : bool) : machine shared_mutex_impl :=
  let s := demo_shared threads in Machine (set_sh_locked true (obj s)) (wld s).
Lemma demo_written_rep b :
  shared_rep demo_shared_lists (obj (demo_written b)) (wld (demo_written b)) [] [].
Proof. apply shared_rep_lock; [apply demo_shared_rep|by destruct b]. Qed.

(** Handler 4 waits to write and handler 6 to read, at addresses 5 and 6. *)
Definition demo_queued1 (threads : bool) : machine shared_mutex_impl :=
  after (async_lock 0 4 (demo_written threads)) (demo_written threads).
Definition demo_queued (threads : bool) : machine shared_mutex_impl :=
  after (async_lock_shared 0 6 (demo_queued1 threads)) (demo_queued1 threads).
Definition demo_queued_lists : gmap addr (list addr) :=
  <[4%positive := [6%positive]]> (<[3%positive := [5%positive]]> demo_shared_lists).

Lemma demo_queued1_rep b :
  shared_rep (<[3%positive := [5%positive]]> demo_shared_lists) (obj (demo_queued1 b)) (wld (demo_queued1 b))
    [(5%positive, basic_op_model 4 4)] [] ∧ obj (demo_queued1 b) = obj (demo_written b).
Proof.
  pose proof (demo_written_rep b) as Hr.
  assert (fresh (dom (nodes (wld (demo_written b)))) = 5%positive) as Hf by by destruct b; vm_compute.
  assert (sh_waiters (obj (demo_written b)) = 3%positive ∧ sh_locked (obj (demo_written b)) = true) as [Hw Hl]
    by by destruct b.
  unfold demo_queued1. destruct (demo_written b) as [m w]. apply wp_after. simpl in *.
  eapply wp_shared_async_lock; [done|]. rewrite Hl. simpl. split; [done|].
  intros p N' Ha Hp Hr'. rewrite Hf in Ha. injection Ha as <-. rewrite <- Hw. done.
Qed.

Lemma demo_queued_rep b :
  shared_rep demo_queued_lists (obj (demo_queued b)) (wld (demo_queued b))
    [(5%positive, basic_op_model 4 4)] [(6%positive, basic_op_model 6 6)] ∧
  obj (demo_queued b) = obj (demo_written b).
Proof.
  destruct (demo_queued1_rep b) as [Hr Ho].
  assert (fresh (dom (nodes (wld (demo_queued1 b)))) = 6%positive) as Hf by by destruct b; vm_compute.
  assert (shared_waiters_ (obj (demo_queued1 b)) = 4%positive ∧ sh_locked (obj (demo_queued1 b)) = true ∧
    locked_shared_ (obj (demo_queued1 b)) = 0%Z) as (Hw & Hl & Hz) by by rewrite Ho; destruct b.
  rewrite <- Ho. clear Ho. unfold demo_queued. destruct (demo_queued1 b) as [m w]. apply wp_after. simpl in *.
  eapply wp_async_lock_shared; [done|by rewrite Hz|]. rewrite Hl. split; [done|].
  intros p N' Ha Hp po w' Hr'. simpl in Ha. rewrite Hf in Ha. injection Ha as <-.
  unfold demo_queued_lists. rewrite <- Hw. done.
Qed.

Lemma demo_shared_run :
  shared_run (Machine (obj (demo_shared true)) (wld (demo_shared true))) 1 0 (demo_written true).
Proof.
  eapply (sh_run_call _ 0 0 _ sh_try_lock (Ok (r_bool true)) (demo_written true)); [apply sh_run_start|by split|].
  vm_compute. reflexivity.
Qed.

Lemma shared_mutex_exclusion_witness :
  1 ≤ 1 ∧ (1 = 1 ↔ sh_locked (obj (demo_written true)) = true) ∧ (1 = 1 → 0 = 0) ∧
  locked_shared_ (obj (demo_written true)) = 0%Z.
Proof.
  apply (shared_mutex_exclusion demo_shared_lists (obj (demo_shared true)) (wld (demo_shared true)) 1 0).
  - apply demo_shared_rep.
  - vm_compute. reflexivity.
  - vm_compute. reflexivity.
  - exact demo_shared_run.
Defined.

Lemma shared_mutex_never_stuck_witness : ∃ r s', shared_exec sh_unlock (demo_written true) = Some (r, s').
Proof.
  apply (shared_mutex_never_stuck demo_shared_lists (obj (demo_shared true)) (wld (demo_shared true)) 1 0).
  - apply demo_shared_rep.
  - vm_compute. reflexivity.
  - vm_compute. reflexivity.
  - exact demo_shared_run.
  - vm_compute. reflexivity.
Defined.

Lemma shared_mutex_refines_witness :
  wp (shared_exec (sh_lock_shared 1)) (demo_queued true) (λ r s', ∃ L' gx gs sp' w',
    shared_step true 2
      (SharedSpec true 0 [(5%positive, @basic_op_model test_asio 4 4)] [(6%positive, @basic_op_model test_asio 6 6)])
      (wld (demo_queued true)) (sh_lock_shared 1) r gx gs sp' w' ∧
    same_but_nodes (wld s') w' ∧ shared_implements L' s' sp').
Proof.
  apply (shared_mutex_refines demo_queued_lists (demo_queued true)).
  - split; [apply demo_queued_rep|split; vm_compute; reflexivity].
  - split; [exists no_error|]; vm_compute; reflexivity.
Defined.

Lemma shared_mutex_readers_first_witness :
  wp unlock (Machine (obj (demo_queued true)) (wld (demo_queued true))) (λ r s', r = Ok tt ∧
    sh_locked (obj s') = false ∧ locked_shared_ (obj s') = 1%Z ∧
    events_since (wld (demo_queued true)) (wld s') = [@ev_deallocate test_asio 6; @ev_post test_asio 6 6 no_error] ∧
    ∃ L', shared_rep L' (obj s') (wld s') [(5%positive, @basic_op_model test_asio 4 4)] []).
Proof.
  apply (shared_mutex_readers_first demo_queued_lists (obj (demo_queued true)) (wld (demo_queued true))
    [(5%positive, @basic_op_model test_asio 4 4)] [(6%positive, @basic_op_model test_asio 6 6)]).
  - apply demo_queued_rep.
  - vm_compute. reflexivity.
  - discriminate.
Defined.

Lemma shared_mutex_blocked_reader_stuck_witness :
  wp (blocked_reader_session 1) (Machine (obj (demo_written true)) (wld (demo_written true))) (λ r s',
    r = Ok (false, false) ∧ obj s' = obj (demo_written true) ∧
    ecs (wld s') !! 1%positive = Some no_error ∧
    ∃ L', shared_rep L' (obj (demo_written true)) (wld s') [] []).
Proof.
  apply (shared_mutex_blocked_reader_stuck demo_shared_lists).
  - apply demo_written_rep.
  - vm_compute. reflexivity.
  - vm_compute. reflexivity.
  - exists no_error. vm_compute. reflexivity.
Defined.

Lemma shared_mutex_dtor_aborts_witness :
  wp shared_mutex_impl_dtor (Machine (obj (demo_shared true)) (wld (demo_shared true))) (λ r s', r = Ok tt ∧
    events_since (wld (demo_shared true)) (wld s') = [] ∧
    ∃ L', world_ok (wld s') L' ∧ service_ok (wld s') L' 1 []).
Proof.
  apply (shared_mutex_dtor_aborts demo_shared_lists (obj (demo_shared true)) (wld (demo_shared true)) [] [] 1 [] []).
  - apply demo_shared_rep.
  - vm_compute. reflexivity.
  - replace (this_ (get_sm (obj (demo_shared true)))) with 2%positive by (vm_compute; reflexivity).
    apply demo_shared_rep.
  - vm_compute. discriminate.
  - vm_compute. discriminate.
Defined.
End witnesses.
