(* ===== verification/Immediate.v ===== *)
(** * Handlers that run at once

    An operation that can complete at once hands its handler to [net::dispatch]
    with the handler's associated immediate executor. asio's default is an executor
    that never runs a function object inside [dispatch]; a handler can have
    another one ([bind_immediate_executor]) that runs it at once, on the thread
    that made the call. [async_lock], [async_acquire] and [async_lock_shared]
    dispatch while they hold the lock of the implementation, [async_arrive] does
    not: what follows says what that means for a handler that uses the object. *)
From S2P Require Import Prelude Machine Bilist Ops Service Impl.
From S2P Require Mutex Semaphore SharedMutex SharedMutexSpec Barrier.

(** ** The dispatch *)

Section dispatch.
Context {ASIO : Asio} `{!Member St}.

(** [net::dispatch] to an executor that runs the handler at once; the handler
    calls [k]. *)
Definition immediately (k : M St unit) (ie : executor) (h : handler) : M St unit := net_dispatch ie h;; k.

(** A thread locks a [std::mutex] that it owns. *)
Lemma with_lock_again {A} (body : M St A) m w :
  enabled_ (get_mtx m) = true → held_ (get_mtx m) = true → with_lock body (Machine m w) = None.
Proof.
  intros He Hh. unfold with_lock, lock_mtx, mbind, M_bind. simpl. unfold cem_lock. by rewrite He, Hh.
Qed.

(** Inside a critical section. *)
Lemma with_lock_body_stuck {A} (body : M St A) m w :
  idle (get_mtx m) → body (Machine (entered m) w) = None → with_lock body (Machine m w) = None.
Proof.
  intros Hi Hb. unfold with_lock, lock_mtx, mbind, M_bind. simpl. rewrite cem_lock_idle by done. simpl.
  unfold entered in Hb. by rewrite Hb.
Qed.

(** Without threads the lock is a flag: a critical section inside another one
    runs as it does outside. *)
Lemma with_lock_inside {A} (body : M St A) m w :
  enabled_ (get_mtx m) = false → idle (get_mtx m) →
  with_lock body (Machine (entered m) w) = with_lock body (Machine m w).
Proof.
  intros He [Hl Hh]. unfold with_lock. replace (lock_mtx (Machine (entered m) w)) with (lock_mtx (Machine m w)); [done|].
  unfold lock_mtx, mbind, M_bind. simpl. rewrite get_mtx_entered. unfold cem_lock, inside. simpl. rewrite He, Hh. simpl.
  unfold entered, modify_obj. simpl. by rewrite set_set_mtx.
Qed.

(** The critical section of an object without threads whose body leaves the
    flag as it likes. *)
Lemma wp_critical_flag {A} (body : M St A) m w (Φ : res A → machine St → Prop) :
  enabled_ (get_mtx m) = false → idle (get_mtx m) →
  wp body (Machine (entered m) w)
    (λ r s2, get_mtx (obj s2) = get_mtx m ∧ Φ r (Machine (obj s2) (wld s2))) →
  wp (with_lock body) (Machine m w) Φ.
Proof.
  intros He Hi Hb. apply wp_run in Hb as (r & s2 & Hb & Hc & HΦ). unfold wp, with_lock, lock_mtx, mbind, M_bind. simpl.
  rewrite cem_lock_idle by done. simpl. unfold entered in Hb. rewrite Hb.
  unfold unlock_mtx, mbind, M_bind. simpl. rewrite Hc. unfold cem_unlock. rewrite He. simpl.
  replace (CEMutex false false (held_ (get_mtx m))) with (get_mtx m);
    [|destruct Hi as [Hl Hh]; destruct (get_mtx m); simpl in *; by subst].
  rewrite <- Hc, set_get_mtx. by destruct s2.
Qed.
End dispatch.

(** ** Locks *)

Module Exclusive.
Import Mutex.

Section mutex.
Context {ASIO : Asio}.
Implicit Types (L : gmap addr (list addr)) (m : mutex_impl) (w : world).

(** C31: a handler whose immediate executor runs it at once, and that unlocks the
    mutex it has just been given: with threads, [async_lock] on a free mutex runs
    it inside its own critical section and never returns; without threads the
    mutex is free again when [async_lock] returns. *)
Theorem mutex_immediate_handler L m w exec h :
  mutex_rep L m w [] → locked_ m = false →
  if enabled_ (get_mtx m) then async_lock_with (immediately unlock) exec h (Machine m w) = None
  else wp (async_lock_with (immediately unlock) exec h) (Machine m w) (λ r s', r = Ok tt ∧ obj s' = m ∧
    events_since w (wld s') = [ev_dispatch (get_associated_immediate_executor h exec) h no_error]).
Proof.
  intros Hr Hl. pose proof (io_idle _ _ _ _ (mr_impl _ _ _ _ Hr)) as Hi.
  destruct (enabled_ (get_mtx m)) eqn:He.
  - apply with_lock_body_stuck; [done|]. unfold mbind, M_bind. simpl. rewrite Hl. simpl.
    by apply with_lock_again; destruct m as [[? ? []]].
  - set (ev := ev_dispatch (get_associated_immediate_executor h exec) h no_error).
    apply wp_critical_flag; [done..|]. apply wp_bind, wp_get_obj. cbn [obj]. rewrite locked_entered, Hl. simpl.
    apply wp_bind, wp_modify_obj, wp_bind, wp_modify_world. cbn [obj wld].
    change (set_locked true (entered m)) with (entered (set_locked true m)).
    unfold unlock, wp. rewrite with_lock_inside by done.
    eapply (wp_unlock L (set_locked true m) _ []); [|]; cycle 1.
    + simpl. split; [done|]. split; [done|]. split; [destruct m; simpl in *; by subst|].
      by apply (events_since_app _ _ [ev]).
    + by apply mutex_rep_log, mutex_rep_locked.
Qed.
End mutex.

Lemma mutex_immediate_handler_witness :
  async_lock_with (immediately unlock) 0 4 (Machine (obj (demo_mutex true)) (wld (demo_mutex true))) = None.
Proof.
  assert (enabled_ (get_mtx (obj (demo_mutex true))) = true) as E by by vm_compute.
  pose proof (mutex_immediate_handler demo_mutex_lists (obj (demo_mutex true)) (wld (demo_mutex true)) 0 4) as H.
  rewrite E in H. apply H; [apply demo_mutex_rep|by vm_compute].
Defined.
End Exclusive.

Module Permits.
Import Semaphore.

Section semaphore.
Context {ASIO : Asio}.
Implicit Types (L : gmap addr (list addr)) (m : semaphore_impl) (w : world).

(** A handler that gives its permit back at once, with threads. *)
Theorem semaphore_immediate_handler L m w q exec h :
  semaphore_rep L m w q → (0 < count_ m)%Z → enabled_ (get_mtx m) = true →
  async_acquire_with (immediately release) exec h (Machine m w) = None.
Proof.
  intros Hr Hc He. pose proof (sr_count _ _ _ _ Hr) as Hrg. apply with_lock_body_stuck; [apply Hr|].
  unfold decrement, int_, mbind, M_bind. simpl. do 2 (rewrite bool_decide_eq_true_2 by (simpl; lia); simpl).
  rewrite bool_decide_eq_true_2 by (unfold INT_MIN, INT_MAX in *; simpl; lia). simpl.
  by apply with_lock_again; destruct m as [[? ? []]].
Qed.
End semaphore.

Lemma semaphore_immediate_handler_witness :
  async_acquire_with (immediately release) 0 4 (Machine (obj (demo_semaphore true)) (wld (demo_semaphore true))) = None.
Proof.
  apply (semaphore_immediate_handler demo_semaphore_lists _ _ []); [apply demo_semaphore_rep|by vm_compute..].
Defined.
End Permits.

Module Shared.
Import SharedMutex SharedMutexSpec.

Section shared.
Context {ASIO : Asio}.
Implicit Types (L : gmap addr (list addr)) (m : shared_mutex_impl) (w : world).

(** A writer and a reader whose handlers unlock at once, with threads. *)
Theorem shared_mutex_immediate_handler L m w qx qs exec h :
  shared_rep L m w qx qs → sh_locked m = false → enabled_ (get_mtx m) = true →
  (locked_shared_ m = 0%Z → async_lock_with (immediately unlock) exec h (Machine m w) = None) ∧
  async_lock_shared_with (immediately unlock_shared) exec h (Machine m w) = None.
Proof.
  intros Hr Hl He. split; [intros H0|]; (apply with_lock_body_stuck; [apply Hr|]); unfold mbind, M_bind; simpl;
    unfold sh_locked in *; simpl; rewrite Hl; [rewrite H0|]; simpl;
    by apply with_lock_again; destruct m as [[[? ? []]]].
Qed.
End shared.

Lemma shared_mutex_immediate_handler_witness :
  let s := Machine (obj (demo_shared true)) (wld (demo_shared true)) in
  async_lock_with (immediately unlock) 0 4 s = None ∧ async_lock_shared_with (immediately unlock_shared) 0 4 s = None.
Proof.
  destruct (shared_mutex_immediate_handler demo_shared_lists (obj (demo_shared true)) (wld (demo_shared true)) [] [] 0 4)
    as [H1 H2]; [apply demo_shared_rep|by vm_compute..|]. split; [by apply H1|exact H2].
Defined.
End Shared.

Module Arrivals.
Import Barrier.

Section barrier.
Context {ASIO : Asio}.
Implicit Types (L : gmap addr (list addr)) (m : barrier_impl) (w : world) (q : list (addr * op)).

(** [async_arrive] has left its critical section when it dispatches: the handler
    of the last arrival can use the barrier, whose next round has begun, with
    threads and without. *)
Theorem barrier_immediate_handler L m w q exec h :
  barrier_rep L m w q → counter_ m = 1%Z →
  wp (async_arrive_try_with (immediately (b ← try_arrive; assert_ (eqb b (bool_decide (init_ m = 1%Z))))) exec h)
    (Machine m w) (λ r s', r = Ok true ∧ obj s' = set_counter (init_ m) m).
Proof.
  intros Hr H1. apply wp_bind. eapply wp_try_arrive; [done|]. rewrite bool_decide_eq_true_2 by done.
  intros N' w' m' Hr'. apply wp_bind, wp_bind, wp_modify_world, wp_bind.
  eapply wp_try_arrive; [by apply barrier_rep_log|]. cbn [obj]. change (counter_ m') with (init_ m).
  case_bool_decide; [intros N'' _|]; (apply wp_assert; [done|]); by apply wp_ret.
Qed.
End barrier.

Lemma barrier_immediate_handler_witness :
  wp (async_arrive_try_with (immediately (b ← try_arrive; assert_ (eqb b true))) 0 4)
    (Machine (obj (demo_barrier true 1)) (wld (demo_barrier true 1)))
    (λ r s', r = Ok true ∧ obj s' = set_counter 1 (obj (demo_barrier true 1))).
Proof.
  assert (init_ (obj (demo_barrier true 1)) = 1%Z) as E by by vm_compute.
  pose proof (barrier_immediate_handler demo_barrier_lists (obj (demo_barrier true 1)) (wld (demo_barrier true 1)) [] 0 4)
    as H. rewrite E in H. apply H; [apply demo_barrier_rep; unfold PTRDIFF_MAX; lia|by vm_compute].
Defined.
End Arrivals.
