(* ===== verification/Component.v ===== *)
(** * The interface of an implementation object

    [Component St] lists what the five implementation classes have in common
    for a program that owns several of them: commands, an abstract state and
    its steps, the lists the object owns. [ComponentOk St] is the contract: a
    call is a step of the abstract object, it changes only the object's own
    lists, operations and closures ([effect], [local]), and the object does not
    notice what the others do ([co_frame]). [Context] composes objects against
    this interface; the instances at the end are what the five classes prove. *)
From S2P Require Import Prelude Machine Bilist Ops Service Impl.
From S2P Require Import Mutex MutexSpec Semaphore SemaphoreSpec Barrier BarrierSpec.
From S2P Require Import CondVar CondVarSpec SharedMutex SharedMutexSpec.

(** ** What a call may do to the world *)

Section effect.
Context {ASIO : Asio}.
Implicit Types (L : gmap addr (list addr)) (w : world) (q : list (addr * op)) (impl : addr).
Implicit Types (mine : list addr).

(** [effect L impl mine mine' w w']: the operations queued in [L] stay, except
    those among [mine], which belong to the object at [impl]; new operations are
    among [mine']; new closures refer to the object. *)
Record effect L impl mine mine' w w' : Prop := {
  ef_kept p o : ops w !! p = Some o → listed L p → p ∉ mine → ops w' !! p = Some o;
  ef_new p : is_Some (ops w' !! p) → is_Some (ops w !! p) ∨ p ∈ mine ∨ p ∈ mine';
  ef_slots n c : slots w' !! n = Some c → slots w !! n = Some c ∨ ch_impl c = impl;
  ef_services : services w' = services w
}.

Lemma effect_refl L impl mine mine' w : effect L impl mine mine' w w.
Proof. split; auto. Qed.
Lemma effect_ecs L impl mine mine' w w' r ec :
  effect L impl mine mine' w w' → effect L impl mine mine' w (set_ecs <[r := ec]> w').
Proof. intros []. by split. Qed.
Lemma effect_log L impl mine mine' w w' e :
  effect L impl mine mine' w w' → effect L impl mine mine' w (log e w').
Proof. intros []. by split. Qed.

Lemma effect_finish_all L impl mine mine' ec q w :
  (∀ p, p ∈ q.*1 → p ∈ mine) → effect L impl mine mine' w (finish_all ec q w).
Proof.
  intros Hq. split.
  - intros p o Hp _ Hm. rewrite ops_finish_all_ne; [done|]. by intros ?%Hq.
  - intros p Hp. destruct (decide (p ∈ q.*1)) as [?%Hq|Hne]; [by right; left|left].
    by rewrite ops_finish_all_ne in Hp.
  - intros n c Hn. left. by eapply slots_within_finish_all.
  - apply services_finish_all.
Qed.
Lemma effect_finish L impl mine mine' ec po w :
  po.1 ∈ mine → effect L impl mine mine' w (finish ec w po).
Proof.
  intros Hm. change (finish ec w po) with (finish_all ec [po] w). apply effect_finish_all.
  by intros p ->%list_elem_of_singleton.
Qed.
Lemma effect_abort_all L impl mine mine' q w :
  (∀ p, p ∈ q.*1 → p ∈ mine) → effect L impl mine mine' w (abort_all q w).
Proof.
  intros Hq. split.
  - intros p o Hp _ Hm. rewrite ops_abort_all_ne; [done|]. by intros ?%Hq.
  - intros p Hp. destruct (decide (p ∈ q.*1)) as [?%Hq|Hne]; [by right; left|left].
    by rewrite ops_abort_all_ne in Hp.
  - intros n c Hn. left. by eapply slots_within_abort_all.
  - apply services_abort_all.
Qed.
Lemma effect_enqueued L impl mine mine' po w :
  ops w !! po.1 = None → po.1 ∈ mine' → effect L impl mine mine' w (enqueued impl po w).
Proof.
  intros Hp Hm. destruct po as [p o]. simpl in *. split; simpl.
  - intros p' o' Hp' _ _. rewrite lookup_insert_ne; [done|congruence].
  - intros p' [<-|[_ ?]]%lookup_insert_is_Some; auto.
  - intros n c. destruct (op_slot o); [|auto]. intros [[_ <-]|[_ ?]]%lookup_insert_Some; auto.
  - done.
Qed.
(** An operation that is done is nobody's. *)
Lemma effect_resume L impl mine mine' p ec w :
  world_ok w L → ops w !! p = Some (sync_op ec true) → effect L impl mine mine' w (set_ops (delete p) w).
Proof.
  intros Hok Hp. split; simpl; auto.
  - intros p' o' Hp' Hl _. rewrite lookup_delete_ne; [done|]. intros <-. by eapply done_unlisted.
  - intros p' [o [_ ?]%lookup_delete_Some]. left. by eexists.
Qed.
End effect.
#[export] Hint Resolve effect_refl effect_ecs effect_log effect_finish_all effect_finish effect_abort_all
  effect_enqueued effect_resume : sam.

(** ** The interface *)

Section interface.
Context {ASIO : Asio}.
Implicit Types (L : gmap addr (list addr)) (w : world) (svc : addr).

(** [c_ctor i this roots svc config] is the constructor with the arguments [i],
    for an object at [this] whose lists have the roots [roots]; [c_emit m n type]
    is the command that runs the closure in slot [n], which captured [m]. *)
Class Component (St : Type) `{!Member St} := {
  c_cmd : Type;
  c_spec : Type;
  c_init : Type;
  c_ctor {X} : c_init → addr → list addr → addr → (Z → Z) → M X St;
  c_dtor : M St unit;
  c_emit : St → positive → bool → c_cmd;
  c_exec : c_cmd → M St reply;
  c_pre : c_cmd → machine St → Prop;
  c_step : bool → addr → c_spec → world → c_cmd → res reply → c_spec → world → Prop;
  c_roots : St → list addr;
  c_queues : c_spec → list (list (addr * op));
  c_init_ok : c_init → list addr → Prop;
  c_initial : c_init → c_spec;
  c_rep : gmap addr (list addr) → machine St → c_spec → Prop
}.

(** The operations of the object. *)
Definition c_mine {St} `{!Member St} `{!Component St} (sp : c_spec) : list addr := (concat (c_queues sp)).*1.

(** The lists once the object of the lists [roots] is gone from the service. *)
Definition without svc (roots : list addr) L L' : Prop :=
  (∀ r, r ∈ roots → L' !! r = None) ∧ same_lists (svc :: roots) L L'.

Class ComponentOk (St : Type) `{!Member St} `{!Component St} := {
  co_refines c L s sp : c_rep L s sp → c_pre c s →
    wp (c_exec c) s (λ r s', ∃ L' sp' w',
      c_step (enabled_ (get_mtx (obj s))) (this_ (get_sm (obj s))) sp (wld s) c r sp' w' ∧
      same_but_nodes (wld s') w' ∧ c_rep L' s' sp' ∧ local c_roots L (obj s) L' (obj s'));
  co_effect enabled impl c L s sp r sp' w' : c_rep L s sp →
    c_step enabled impl sp (wld s) c r sp' w' → effect L impl (c_mine sp) (c_mine sp') (wld s) w';
  co_impl L s sp : c_rep L s sp → impl_ok L (obj s) (wld s) (c_mine sp);
  co_queues L s sp : c_rep L s sp → Forall2 (queue (wld s) L) (c_roots (obj s)) (c_queues sp);
  co_nodup L s sp : c_rep L s sp → NoDup (c_roots (obj s));
  co_frame L L' s sp w' : c_rep L s sp → impl_ok L' (obj s) w' (c_mine sp) →
    Forall2 (queue w' L') (c_roots (obj s)) (c_queues sp) → c_rep L' (Machine (obj s) w') sp;
  co_emit m w n type :
    (∀ c, slots w !! n = Some c → ch_impl c = this_ (get_sm m)) → c_pre (c_emit m n type) (Machine m w);
  co_ctor {X} i this roots svc config (x : X) w L ms : world_ok w L → service_ok w L svc ms →
    nodes w !! this = None → (∀ r, r ∈ roots → nodes w !! r = None) → NoDup (this :: roots) →
    unreferenced w this → c_init_ok i roots →
    wp (c_ctor i this roots svc config) (Machine x w) (λ r s', ∃ m N' L', r = Ok m ∧
      s' = Machine x (with_nodes N' w) ∧ c_rep L' (Machine m (with_nodes N' w)) (c_initial i) ∧
      service_ok (with_nodes N' w) L' svc (ms ++ [this]) ∧ this_ (get_sm m) = this ∧
      service (get_sm m) = Some svc ∧ c_roots m = roots ∧ same_lists (svc :: roots) L L');
  co_dtor L s sp svc xs ys : c_rep L s sp → service (get_sm (obj s)) = Some svc →
    service_ok (wld s) L svc (xs ++ this_ (get_sm (obj s)) :: ys) → svc ∉ c_roots (obj s) →
    wp c_dtor s (λ r s', r = Ok tt ∧ ∃ N' L',
      wld s' = with_nodes N' (finish_all operation_aborted (concat (reverse (c_queues sp))) (wld s)) ∧
      world_ok (wld s') L' ∧ service_ok (wld s') L' svc (xs ++ ys) ∧ without svc (c_roots (obj s)) L L')
}.
End interface.
#[export] Hint Mode Component - + - : typeclass_instances.

(** ** The five classes *)

Section instances.
Context {ASIO : Asio}.
Implicit Types (L : gmap addr (list addr)) (w : world) (q : list (addr * op)).

Lemma concat1 q : concat [q] = q.
Proof. apply app_nil_r. Qed.
Lemma Forall2_queue1 w L r q : Forall2 (queue w L) [r] [q] ↔ queue w L r q.
Proof. rewrite Forall2_cons, Forall2_nil. tauto. Qed.
Lemma mem_mid q1 q2 p o : p ∈ (q1 ++ (p, o) :: q2).*1.
Proof. rewrite fmap_app. set_solver. Qed.
Lemma mem_last q p o : p ∈ (q ++ [(p, o)]).*1.
Proof. rewrite fmap_app. set_solver. Qed.

(** The lists after a constructor and after a destructor. *)
Lemma same_lists_ctor svc r ms L : same_lists [svc; r] L (<[r := []]> (<[svc := ms]> L)).
Proof. eapply same_lists_trans; [apply same_lists_insert|apply same_lists_insert2]. Qed.
Lemma without_dtor svc r ms L : svc ≠ r → without svc [r] L (<[svc := ms]> (delete r L)).
Proof.
  intros Hne. split.
  - intros r' ->%list_elem_of_singleton. by rewrite lookup_insert_ne, lookup_delete_eq.
  - intros r' [? [? _]%not_elem_of_cons]%not_elem_of_cons. by rewrite lookup_insert_ne, lookup_delete_ne.
Qed.
Lemma without_dtor2 svc r1 r2 ms L :
  svc ≠ r1 → svc ≠ r2 → without svc [r1; r2] L (<[svc := ms]> (delete r1 (delete r2 L))).
Proof.
  intros Hne1 Hne2. split.
  - intros r' Hr. assert (r' = r1 ∨ r' = r2) as Hor by set_solver.
    rewrite lookup_insert_ne by naive_solver. apply lookup_delete_None.
    destruct (decide (r1 = r')); [by left|right]. apply lookup_delete_None. naive_solver.
  - intros r' [? [? [? _]%not_elem_of_cons]%not_elem_of_cons]%not_elem_of_cons.
    by rewrite lookup_insert_ne, !lookup_delete_ne.
Qed.
Lemma not_elem_of_cons2 (r r1 r2 r3 : addr) : r ∉ [r1; r2; r3] → r ≠ r1 ∧ r ≠ r2 ∧ r ≠ r3.
Proof. set_solver. Qed.

#[export] Instance mutex_component : Component mutex_impl := {|
  c_cmd := mutex_cmd;
  c_spec := mutex_spec;
  c_init := Z;
  c_ctor X hint this roots svc config := match roots with [r] => mutex_impl_ctor this r svc config hint | _ => ub end;
  c_dtor := mutex_impl_dtor;
  c_emit _ := cmd_emit;
  c_exec := mutex_exec;
  c_pre := mutex_pre;
  c_step := mutex_step;
  c_roots := mutex_roots;
  c_queues sp := [line sp];
  c_init_ok _ roots := length roots = 1;
  c_initial _ := MutexSpec false [];
  c_rep := mutex_implements
|}.

(** The effect of a step, constructor by constructor. *)
Ltac step_effect :=
  simpl in *; eauto 6 using mem_mid, mem_last, list_elem_of_here with sam.

#[export] Instance mutex_component_ok : ComponentOk mutex_impl.
Proof.
  split.
  - intros c L s sp. apply mutex_exec_refines.
  - intros enabled impl c L s sp r sp' w' [Hr _] Hstep. unfold c_mine. simpl c_queues. rewrite !concat1.
    apply mutex_rep_world in Hr. destruct Hstep; step_effect.
  - intros L s sp [Hr _]. unfold c_mine. simpl c_queues. rewrite concat1. apply Hr.
  - intros L s sp [Hr _]. apply Forall2_queue1, Hr.
  - intros L s sp _. apply NoDup_singleton.
  - intros L L' s sp w' [[? ? Hh] Hl] Hi Hq. unfold c_mine in Hi. simpl c_queues in *. rewrite concat1 in Hi.
    apply Forall2_queue1 in Hq. by split; [split|].
  - done.
  - intros X hint this roots svc config x w L ms Hok Hs Hthis Hroots Hnd Hun Hi.
    destruct roots as [|r [|]]; try (simpl in Hi; lia). apply NoDup_cons in Hnd as [Hne _].
    eapply wp_mutex_impl_ctor; [done|done|done|by apply Hroots; left|by intros ->; apply Hne; left|done|].
    intros N' w' L' cm mi Hr Hs'. exists mi, N', L'. split_and!; try done. apply same_lists_ctor.
  - intros L [m w] sp svc xs ys [Hr Hb] Hs Hso Hne. cbn [obj wld] in *.
    eapply wp_mutex_impl_dtor; [done..|by intros ->; apply Hne; left|]. intros N' w' L' H1 H2. split; [done|].
    exists N', L'. split_and!; [by simpl; rewrite app_nil_r|done|done|apply without_dtor]. intros ->. apply Hne. by left.
Qed.

#[export] Instance semaphore_component : Component semaphore_impl := {|
  c_cmd := semaphore_cmd;
  c_spec := semaphore_spec;
  c_init := Z * Z;
  c_ctor X i this roots svc config := match roots with [r] => semaphore_impl_ctor this r svc config i.1 i.2 | _ => ub end;
  c_dtor := semaphore_impl_dtor;
  c_emit _ := sem_emit;
  c_exec := semaphore_exec;
  c_pre := semaphore_pre;
  c_step := semaphore_step;
  c_roots := semaphore_roots;
  c_queues sp := [sem_line sp];
  c_init_ok i roots := (length roots = 1 ∧ (0 ≤ i.1 ≤ INT_MAX)%Z);
  c_initial i := SemaphoreSpec i.1 [];
  c_rep := semaphore_implements
|}.

#[export] Instance semaphore_component_ok : ComponentOk semaphore_impl.
Proof.
  split.
  - intros c L s sp. apply semaphore_exec_refines.
  - intros enabled impl c L s sp r sp' w' [Hr _] Hstep. unfold c_mine. simpl c_queues. rewrite !concat1.
    destruct Hr as [[Hr _ _] _ _ _]. destruct Hstep; step_effect.
  - intros L s sp [Hr _]. unfold c_mine. simpl c_queues. rewrite concat1. apply Hr.
  - intros L s sp [Hr _]. apply Forall2_queue1, Hr.
  - intros L s sp _. apply NoDup_singleton.
  - intros L L' s sp w' [[? ? Hc Hb] Hl] Hi Hq. unfold c_mine in Hi. simpl c_queues in *. rewrite concat1 in Hi.
    apply Forall2_queue1 in Hq. by split; [split|].
  - done.
  - intros X i this roots svc config x w L ms Hok Hs Hthis Hroots Hnd Hun Hi.
    destruct roots as [|r [|]]; try (simpl in Hi; lia). apply NoDup_cons in Hnd as [Hne _].
    eapply wp_semaphore_impl_ctor; [done|done|done|by apply Hroots; left|by intros ->; apply Hne; left|done|apply Hi|].
    intros N' w' L' cm mi Hr Hs'. exists mi, N', L'. split_and!; try done. apply same_lists_ctor.
  - intros L [m w] sp svc xs ys [Hr Hb] Hs Hso Hne. cbn [obj wld] in *.
    eapply wp_semaphore_impl_dtor; [done..|by intros ->; apply Hne; left|]. intros N' w' L' H1 H2. split; [done|].
    exists N', L'. split_and!; [by simpl; rewrite app_nil_r|done|done|apply without_dtor]. intros ->. apply Hne. by left.
Qed.

#[export] Instance barrier_component : Component barrier_impl := {|
  c_cmd := barrier_cmd;
  c_spec := barrier_spec;
  c_init := Z * Z;
  c_ctor X i this roots svc config := match roots with [r] => barrier_impl_ctor this r svc config i.1 i.2 | _ => ub end;
  c_dtor := barrier_impl_dtor;
  c_emit _ := bar_emit;
  c_exec := barrier_exec;
  c_pre := barrier_pre;
  c_step := barrier_step;
  c_roots := barrier_roots;
  c_queues sp := [bar_line sp];
  c_init_ok i roots := (length roots = 1 ∧ (0 < i.1 ≤ PTRDIFF_MAX)%Z);
  c_initial i := BarrierSpec i.1 i.1 [];
  c_rep := barrier_implements
|}.

#[export] Instance barrier_component_ok : ComponentOk barrier_impl.
Proof.
  split.
  - intros c L s sp. apply barrier_exec_refines.
  - intros enabled impl c L s sp r sp' w' [Hr _] Hstep. unfold c_mine. simpl c_queues. rewrite !concat1.
    destruct Hr as [[Hr _ _] _ _ _ _]. destruct Hstep; unfold arrived_last; step_effect.
  - intros L s sp [Hr _]. unfold c_mine. simpl c_queues. rewrite concat1. apply Hr.
  - intros L s sp [Hr _]. apply Forall2_queue1, Hr.
  - intros L s sp _. apply NoDup_singleton.
  - intros L L' s sp w' [[] Hl] Hi Hq. unfold c_mine in Hi. simpl c_queues in *. rewrite concat1 in Hi.
    apply Forall2_queue1 in Hq. by split; [split|].
  - done.
  - intros X i this roots svc config x w L ms Hok Hs Hthis Hroots Hnd Hun Hi.
    destruct roots as [|r [|]]; try (simpl in Hi; lia). apply NoDup_cons in Hnd as [Hne _].
    eapply wp_barrier_impl_ctor; [done|done|done|by apply Hroots; left|by intros ->; apply Hne; left|done|apply Hi|].
    intros N' w' L' cm mi Hr Hs'. exists mi, N', L'. split_and!; try done. apply same_lists_ctor.
  - intros L [m w] sp svc xs ys [Hr Hb] Hs Hso Hne. cbn [obj wld] in *.
    eapply wp_barrier_impl_dtor; [done..|by intros ->; apply Hne; left|]. intros N' w' L' H1 H2. split; [done|].
    exists N', L'. split_and!; [by simpl; rewrite app_nil_r|done|done|apply without_dtor]. intros ->. apply Hne. by left.
Qed.

(** The calls of a condition variable answer nothing. *)
#[export] Instance condvar_component : Component condition_variable_impl := {|
  c_cmd := condvar_cmd;
  c_spec := list (addr * op);
  c_init := Z;
  c_ctor X hint this roots svc config := match roots with [r] => condition_variable_impl_ctor this r svc config hint | _ => ub end;
  c_dtor := condition_variable_impl_dtor;
  c_emit _ := cv_emit;
  c_exec c := condvar_exec c;; mret r_unit;
  c_pre := condvar_pre;
  c_step _ impl q w c r q' w' :=
    match r with
    | Ok rp => rp = r_unit ∧ condvar_step impl q w c (Ok tt) q' w'
    | Exn e => condvar_step impl q w c (Exn e) q' w'
    end;
  c_roots := condvar_roots;
  c_queues q := [q];
  c_init_ok _ roots := length roots = 1;
  c_initial _ := [];
  c_rep L s q := condvar_rep L (obj s) (wld s) q
|}.

#[export] Instance condvar_component_ok : ComponentOk condition_variable_impl.
Proof.
  split.
  - intros c L [m w] q Hr Hpre. apply wp_bind. eapply wp_mono; [by apply (condvar_exec_refines c L m w q)|].
    intros r [m' w'] (L' & q' & w2 & Hstep & Hsame & E & Hr' & HL). simpl in *. subst m'.
    destruct r as [[]|e]; [apply wp_ret|]; exists L', q', w2; split_and!; try done; by split.
  - intros enabled impl c L s q r q' w' Hr Hstep. unfold c_mine. simpl c_queues. rewrite !concat1.
    assert (∃ r0, condvar_step impl q (wld s) c r0 q' w') as [r0 Hst].
    { simpl in Hstep. destruct r; [destruct Hstep as [_ ?]|]; eauto. }
    destruct Hr as [[Hr _ _] _ _]. destruct Hst; step_effect.
    apply effect_finish_all. intros p (po & -> & Hp)%list_elem_of_fmap. apply list_elem_of_filter in Hp as [_ ?].
    apply list_elem_of_fmap. by exists po.
  - intros L s sp Hr. unfold c_mine. simpl c_queues. rewrite concat1. apply Hr.
  - intros L s sp Hr. apply Forall2_queue1, Hr.
  - intros L s sp _. apply NoDup_singleton.
  - intros L L' s sp w' [] Hi Hq. unfold c_mine in Hi. simpl c_queues in *. rewrite concat1 in Hi.
    apply Forall2_queue1 in Hq. by split.
  - done.
  - intros X hint this roots svc config x w L ms Hok Hs Hthis Hroots Hnd Hun Hi.
    destruct roots as [|r [|]]; try (simpl in Hi; lia). apply NoDup_cons in Hnd as [Hne _].
    eapply wp_condition_variable_impl_ctor; [done|done|done|by apply Hroots; left|by intros ->; apply Hne; left|done|].
    intros N' w' L' cm mi Hr Hs'. exists mi, N', L'. split_and!; try done. apply same_lists_ctor.
  - intros L [m w] sp svc xs ys Hr Hs Hso Hne. cbn [obj wld] in *.
    eapply wp_condition_variable_impl_dtor; [exact Hr|done|done|by intros ->; apply Hne; left|]. intros N' w' L' H1 H2. split; [done|].
    exists N', L'. split_and!; [by simpl; rewrite app_nil_r|done|done|apply without_dtor]. intros ->. apply Hne. by left.
Qed.

#[export] Instance shared_component : Component shared_mutex_impl := {|
  c_cmd := shared_cmd;
  c_spec := shared_spec;
  c_init := Z;
  c_ctor X hint this roots svc config := match roots with [r1; r2] => shared_mutex_impl_ctor this r1 r2 svc config hint | _ => ub end;
  c_dtor := shared_mutex_impl_dtor;
  c_emit _ := sh_emit;
  c_exec := shared_exec;
  c_pre := shared_pre;
  c_step enabled impl sp w c r sp' w' := ∃ gx gs, shared_step enabled impl sp w c r gx gs sp' w';
  c_roots := shared_roots;
  c_queues sp := [writers_line sp; readers_line sp];
  c_init_ok _ roots := length roots = 2;
  c_initial _ := SharedSpec false 0 [] [];
  c_rep := shared_implements
|}.

Lemma concat2 q1 q2 : concat [q1; q2] = q1 ++ q2.
Proof. simpl. by rewrite app_nil_r. Qed.
Lemma Forall2_queue2 w L r1 q1 r2 q2 :
  Forall2 (queue w L) [r1; r2] [q1; q2] ↔ queue w L r1 q1 ∧ queue w L r2 q2.
Proof. rewrite Forall2_cons, Forall2_queue1. tauto. Qed.

#[export] Instance shared_component_ok : ComponentOk shared_mutex_impl.
Proof.
  split.
  - intros c L s sp Hr Hpre. eapply wp_mono; [by apply (shared_exec_refines c L s sp)|].
    intros r s' (L' & gx & gs & sp' & w' & Hstep & H). exists L', sp', w'. split; [by exists gx, gs|done].
  - intros enabled impl c L s sp r sp' w' [Hr _] (gx & gs & Hstep). unfold c_mine. simpl c_queues.
    rewrite !concat2, !fmap_app. destruct Hr as [[Hr _ _] _ _ _ _ _ _ _]. destruct Hstep; step_effect.
    all: first [apply effect_enqueued; [done|]|apply effect_finish_all; intros ?|apply effect_finish
      |apply effect_abort_all; intros ?]; rewrite ?fmap_app; set_solver.
  - intros L s sp [Hr _]. unfold c_mine. simpl c_queues. rewrite concat2, fmap_app. apply Hr.
  - intros L s sp [Hr _]. apply Forall2_queue2. split; apply Hr.
  - intros L s sp [Hr _]. simpl. apply NoDup_cons. split; [|apply NoDup_singleton].
    intros E%list_elem_of_singleton. by apply (hr_roots _ _ _ _ _ Hr).
  - intros L L' s sp w' [[] Hl] Hi Hq. unfold c_mine in Hi. simpl c_queues in *. rewrite concat2, fmap_app in Hi.
    apply Forall2_queue2 in Hq as [? ?]. by split; [split|].
  - done.
  - intros X hint this roots svc config x w L ms Hok Hs Hthis Hroots Hnd Hun Hi.
    destruct roots as [|r1 [|r2 [|]]]; try (simpl in Hi; lia).
    eapply wp_shared_mutex_impl_ctor; [done|done|done|by apply Hroots; left|by apply Hroots; right; left|done|done|].
    intros N' w' L' cm mi Hr Hs'. exists mi, N', L'. split_and!; try done.
    intros r (? & ? & ?)%not_elem_of_cons2. unfold L'. by rewrite !lookup_insert_ne by done.
  - intros L [m w] sp svc xs ys [Hr Hb] Hs Hso Hne. cbn [obj wld] in *.
    eapply wp_shared_mutex_impl_dtor; [done..|by intros ->; apply Hne; left|by intros ->; apply Hne; right; left|].
    intros N' w' L' H1 H2. split; [done|]. exists N', L'. split_and!; [by simpl; rewrite app_nil_r|done|done|].
    apply without_dtor2; intros ->; apply Hne; [by left|by right; left].
Qed.
End instances.
