(* ===== verification/Objects.v ===== *)
(** * The objects of a program

    A program owns any number of synchronisation objects, of all five classes.
    [any_impl] is the sum of the classes that derive from [service_member]; it
    is a [Component] itself, whose commands and steps are those of the class of
    the object. The objects of a program are a finite map from addresses to
    components ([on_object]), and what is said about them in [Context] only uses
    the interface. *)
From S2P Require Import Prelude Machine Bilist Ops Service Impl.
From S2P Require Import Mutex MutexSpec Semaphore SemaphoreSpec Barrier BarrierSpec.
From S2P Require Import CondVar CondVarSpec SharedMutex SharedMutexSpec Component.

(** ** Many objects *)

Section objects.
Context {ASIO : Asio} {St : Type}.

(** A member function of the object at [p]. *)
Definition on_object {A} (p : addr) (body : M St A) : M (gmap addr St) A := λ s,
  match obj s !! p with
  | Some m =>
      match body (Machine m (wld s)) with
      | Some (r, s') => Some (r, Machine (<[p := obj s']> (obj s)) (wld s'))
      | None => None
      end
  | None => None
  end.

Lemma wp_on_object {A} p m (body : M St A) objs w (Φ : res A → machine (gmap addr St) → Prop) :
  objs !! p = Some m →
  wp body (Machine m w) (λ r s', Φ r (Machine (<[p := obj s']> objs) (wld s'))) →
  wp (on_object p body) (Machine objs w) Φ.
Proof. intros Hm (r & s' & E & HΦ)%wp_run. unfold wp, on_object. simpl. by rewrite Hm, E. Qed.
End objects.

(** ** The sum of the classes *)

(** The classes that derive from [service_member]. *)
Inductive any_impl :=
  | a_mutex (m : mutex_impl)
  | a_semaphore (m : semaphore_impl)
  | a_barrier (m : barrier_impl)
  | a_condition_variable (m : condition_variable_impl)
  | a_shared_mutex (m : shared_mutex_impl).

(** The [service_member] base of an object. *)
Definition any_sm (im : any_impl) : service_member :=
  match im with
  | a_mutex m => get_sm m
  | a_semaphore m => get_sm m
  | a_barrier m => get_sm m
  | a_condition_variable m => get_sm m
  | a_shared_mutex m => get_sm m
  end.
Definition any_set_sm (sm : service_member) (im : any_impl) : any_impl :=
  match im with
  | a_mutex m => a_mutex (set_sm sm m)
  | a_semaphore m => a_semaphore (set_sm sm m)
  | a_barrier m => a_barrier (set_sm sm m)
  | a_condition_variable m => a_condition_variable (set_sm sm m)
  | a_shared_mutex m => a_shared_mutex (set_sm sm m)
  end.

#[export, refine] Instance any_member : Member any_impl := {| get_sm := any_sm; set_sm := any_set_sm |}.
Proof.
  - intros sm []; exact (get_set_sm _ _).
  - intros sm sm' []; exact (f_equal _ (set_set_sm _ _ _)).
  - intros []; exact (f_equal _ (set_get_sm _)).
Defined.

Section any.
Context {ASIO : Asio}.

(** A member function of a class, called through the base. *)
Definition lift_impl {St A} (wrap : St → any_impl) (m : St) (body : M St A) : M any_impl A := λ s,
  match body (Machine m (wld s)) with
  | Some (r, s') => Some (r, Machine (wrap (obj s')) (wld s'))
  | None => None
  end.

Lemma wp_lift_impl {St A} wrap (m : St) (body : M St A) im w (Φ : res A → machine any_impl → Prop) :
  wp body (Machine m w) (λ r s', Φ r (Machine (wrap (obj s')) (wld s'))) →
  wp (lift_impl wrap m body) (Machine im w) Φ.
Proof. intros (r & s' & E & HΦ)%wp_run. unfold wp, lift_impl. simpl. by rewrite E. Qed.

(** The virtual call [shutdown()]. *)
Definition any_shutdown : M any_impl unit :=
  im ← get_obj;
  match im with
  | a_mutex m => lift_impl a_mutex m Mutex.shutdown
  | a_semaphore m => lift_impl a_semaphore m Semaphore.shutdown
  | a_barrier m => lift_impl a_barrier m Barrier.shutdown
  | a_condition_variable m => lift_impl a_condition_variable m CondVar.shutdown
  | a_shared_mutex m => lift_impl a_shared_mutex m SharedMutex.shutdown
  end.

Inductive any_cmd :=
  | on_mutex (c : mutex_cmd)
  | on_semaphore (c : semaphore_cmd)
  | on_barrier (c : barrier_cmd)
  | on_condition_variable (c : condvar_cmd)
  | on_shared_mutex (c : shared_cmd).

Inductive any_spec :=
  | s_mutex (sp : mutex_spec)
  | s_semaphore (sp : semaphore_spec)
  | s_barrier (sp : barrier_spec)
  | s_condition_variable (q : list (addr * op))
  | s_shared_mutex (sp : shared_spec).

(** A command of another class has no meaning. *)
Definition any_exec (c : any_cmd) : M any_impl reply :=
  im ← get_obj;
  match im, c with
  | a_mutex m, on_mutex c => lift_impl a_mutex m (c_exec (St := mutex_impl) c)
  | a_semaphore m, on_semaphore c => lift_impl a_semaphore m (c_exec (St := semaphore_impl) c)
  | a_barrier m, on_barrier c => lift_impl a_barrier m (c_exec (St := barrier_impl) c)
  | a_condition_variable m, on_condition_variable c => lift_impl a_condition_variable m (c_exec (St := condition_variable_impl) c)
  | a_shared_mutex m, on_shared_mutex c => lift_impl a_shared_mutex m (c_exec (St := shared_mutex_impl) c)
  | _, _ => ub
  end.

Definition any_pre (c : any_cmd) (s : machine any_impl) : Prop :=
  match obj s, c with
  | a_mutex m, on_mutex c => c_pre (St := mutex_impl) c (Machine m (wld s))
  | a_semaphore m, on_semaphore c => c_pre (St := semaphore_impl) c (Machine m (wld s))
  | a_barrier m, on_barrier c => c_pre (St := barrier_impl) c (Machine m (wld s))
  | a_condition_variable m, on_condition_variable c => c_pre (St := condition_variable_impl) c (Machine m (wld s))
  | a_shared_mutex m, on_shared_mutex c => c_pre (St := shared_mutex_impl) c (Machine m (wld s))
  | _, _ => False
  end.

Inductive any_step (enabled : bool) (impl : addr) :
    any_spec → world → any_cmd → res reply → any_spec → world → Prop :=
  | as_mutex sp w c r sp' w' : mutex_step enabled impl sp w c r sp' w' →
      any_step enabled impl (s_mutex sp) w (on_mutex c) r (s_mutex sp') w'
  | as_semaphore sp w c r sp' w' : semaphore_step enabled impl sp w c r sp' w' →
      any_step enabled impl (s_semaphore sp) w (on_semaphore c) r (s_semaphore sp') w'
  | as_barrier sp w c r sp' w' : barrier_step enabled impl sp w c r sp' w' →
      any_step enabled impl (s_barrier sp) w (on_barrier c) r (s_barrier sp') w'
  | as_condition_variable q w c r q' w' : c_step (St := condition_variable_impl) enabled impl q w c r q' w' →
      any_step enabled impl (s_condition_variable q) w (on_condition_variable c) r (s_condition_variable q') w'
  | as_shared_mutex sp w c r gx gs sp' w' : shared_step enabled impl sp w c r gx gs sp' w' →
      any_step enabled impl (s_shared_mutex sp) w (on_shared_mutex c) r (s_shared_mutex sp') w'.

(** ** Construction, destruction, cancellation *)

(** The class of a new object and the arguments of its constructor. *)
Inductive any_init :=
  | i_mutex (i : c_init (St := mutex_impl))
  | i_semaphore (i : c_init (St := semaphore_impl))
  | i_barrier (i : c_init (St := barrier_impl))
  | i_condition_variable (i : c_init (St := condition_variable_impl))
  | i_shared_mutex (i : c_init (St := shared_mutex_impl)).

Definition any_ctor {X} (i : any_init) (this : addr) (roots : list addr) (svc : addr) (config : Z → Z) : M X any_impl :=
  match i with
  | i_mutex i => m ← c_ctor (St := mutex_impl) i this roots svc config; mret (a_mutex m)
  | i_semaphore i => m ← c_ctor (St := semaphore_impl) i this roots svc config; mret (a_semaphore m)
  | i_barrier i => m ← c_ctor (St := barrier_impl) i this roots svc config; mret (a_barrier m)
  | i_condition_variable i => m ← c_ctor (St := condition_variable_impl) i this roots svc config; mret (a_condition_variable m)
  | i_shared_mutex i => m ← c_ctor (St := shared_mutex_impl) i this roots svc config; mret (a_shared_mutex m)
  end.

(** The destructor of the object's class. *)
Definition any_dtor : M any_impl unit :=
  im ← get_obj;
  match im with
  | a_mutex m => lift_impl a_mutex m mutex_impl_dtor
  | a_semaphore m => lift_impl a_semaphore m semaphore_impl_dtor
  | a_barrier m => lift_impl a_barrier m barrier_impl_dtor
  | a_condition_variable m => lift_impl a_condition_variable m condition_variable_impl_dtor
  | a_shared_mutex m => lift_impl a_shared_mutex m shared_mutex_impl_dtor
  end.

(** The closure in slot [n], which captured the object. *)
Definition any_emit (im : any_impl) (n : positive) (type : bool) : any_cmd :=
  match im with
  | a_mutex m => on_mutex (c_emit m n type)
  | a_semaphore m => on_semaphore (c_emit m n type)
  | a_barrier m => on_barrier (c_emit m n type)
  | a_condition_variable m => on_condition_variable (c_emit m n type)
  | a_shared_mutex m => on_shared_mutex (c_emit m n type)
  end.

Definition any_init_ok (i : any_init) (roots : list addr) : Prop :=
  match i with
  | i_mutex i => c_init_ok i roots
  | i_semaphore i => c_init_ok i roots
  | i_barrier i => c_init_ok i roots
  | i_condition_variable i => c_init_ok i roots
  | i_shared_mutex i => c_init_ok i roots
  end.
Definition any_initial (i : any_init) : any_spec :=
  match i with
  | i_mutex i => s_mutex (c_initial i)
  | i_semaphore i => s_semaphore (c_initial i)
  | i_barrier i => s_barrier (c_initial i)
  | i_condition_variable i => s_condition_variable (c_initial (St := condition_variable_impl) i)
  | i_shared_mutex i => s_shared_mutex (c_initial i)
  end.

(** The roots of the lists an object owns, in the order [shutdown] empties
    them, and what they hold. *)
Definition lines (im : any_impl) : list addr :=
  match im with
  | a_mutex m => c_roots m
  | a_semaphore m => c_roots m
  | a_barrier m => c_roots m
  | a_condition_variable m => c_roots m
  | a_shared_mutex m => c_roots m
  end.
Definition any_queues (sp : any_spec) : list (list (addr * op)) :=
  match sp with
  | s_mutex sp => c_queues (St := mutex_impl) sp
  | s_semaphore sp => c_queues (St := semaphore_impl) sp
  | s_barrier sp => c_queues (St := barrier_impl) sp
  | s_condition_variable q => c_queues (St := condition_variable_impl) q
  | s_shared_mutex sp => c_queues (St := shared_mutex_impl) sp
  end.

Definition any_rep (L : gmap addr (list addr)) (s : machine any_impl) (sp : any_spec) : Prop :=
  match obj s, sp with
  | a_mutex m, s_mutex sp => c_rep (St := mutex_impl) L (Machine m (wld s)) sp
  | a_semaphore m, s_semaphore sp => c_rep (St := semaphore_impl) L (Machine m (wld s)) sp
  | a_barrier m, s_barrier sp => c_rep (St := barrier_impl) L (Machine m (wld s)) sp
  | a_condition_variable m, s_condition_variable q => c_rep (St := condition_variable_impl) L (Machine m (wld s)) q
  | a_shared_mutex m, s_shared_mutex sp => c_rep (St := shared_mutex_impl) L (Machine m (wld s)) sp
  | _, _ => False
  end.

#[export] Instance any_component : Component any_impl := {|
  c_cmd := any_cmd;
  c_spec := any_spec;
  c_init := any_init;
  c_ctor X := any_ctor;
  c_dtor := any_dtor;
  c_emit := any_emit;
  c_exec := any_exec;
  c_pre := any_pre;
  c_step := any_step;
  c_roots := lines;
  c_queues := any_queues;
  c_init_ok := any_init_ok;
  c_initial := any_initial;
  c_rep := any_rep
|}.

(** [impl_ok] only looks at the base. *)
Lemma impl_ok_any {St} `{!Member St} (wrap : St → any_impl) L m w ps :
  get_sm (wrap m) = get_sm m → impl_ok L (wrap m) w ps ↔ impl_ok L m w ps.
Proof. intros E. split; intros [? Hi Hc]; (split; [done|revert Hi|revert Hc]); unfold get_mtx; by rewrite E. Qed.

(** A call through the base is the call of the class. *)
Lemma wp_lift_component {St} `{!Member St} `{C : !Component St} `{!ComponentOk St} (wrap : St → any_impl) (wrap_sp : c_spec → any_spec)
    (wrap_c : c_cmd → any_cmd) c L m w sp im :
  (∀ m, any_sm (wrap m) = get_sm m) → (∀ m, lines (wrap m) = c_roots m) →
  (∀ L s sp, c_rep L s sp → any_rep L (Machine (wrap (obj s)) (wld s)) (wrap_sp sp)) →
  (∀ e i sp w c r sp' w', c_step e i sp w c r sp' w' → any_step e i (wrap_sp sp) w (wrap_c c) r (wrap_sp sp') w') →
  c_rep L (Machine m w) sp → c_pre c (Machine m w) →
  wp (lift_impl wrap m (c_exec c)) (Machine im w) (λ r s', ∃ L' sp' w',
    any_step (enabled_ (get_mtx (wrap m))) (this_ (get_sm (wrap m))) (wrap_sp sp) w (wrap_c c) r sp' w' ∧
    same_but_nodes (wld s') w' ∧ any_rep L' s' sp' ∧ local lines L (wrap m) L' (obj s')).
Proof.
  intros Hsm Hl Hrep Hstep Hr Hpre. apply wp_lift_impl. eapply wp_mono; [by apply (co_refines c L _ sp)|].
  intros r [m' w'] (L' & sp' & w2 & H1 & H2 & H3 & [H4 H5 H6]). cbn [obj wld] in *.
  exists L', (wrap_sp sp'), w2. unfold get_mtx in *. simpl get_sm in *. rewrite Hsm. split_and!; [by apply Hstep|done|by apply (Hrep L' (Machine m' w'))|].
  split; [|by rewrite !Hl|by rewrite Hl]. unfold same_member in *. simpl. by rewrite !Hsm.
Qed.

Lemma wp_lift_ctor {St} `{!Member St} `{C : !Component St} `{!ComponentOk St} (wrap : St → any_impl) (wrap_sp : c_spec → any_spec)
    {X} i this roots svc config (x : X) w L ms :
  (∀ m, any_sm (wrap m) = get_sm m) → (∀ m, lines (wrap m) = c_roots m) →
  (∀ L m w sp, c_rep L (Machine m w) sp → any_rep L (Machine (wrap m) w) (wrap_sp sp)) →
  world_ok w L → service_ok w L svc ms → nodes w !! this = None → (∀ r, r ∈ roots → nodes w !! r = None) →
  NoDup (this :: roots) → unreferenced w this → c_init_ok i roots →
  wp (m ← c_ctor i this roots svc config; mret (wrap m)) (Machine x w) (λ r s', ∃ im N' L', r = Ok im ∧
    s' = Machine x (with_nodes N' w) ∧ any_rep L' (Machine im (with_nodes N' w)) (wrap_sp (c_initial i)) ∧
    service_ok (with_nodes N' w) L' svc (ms ++ [this]) ∧ this_ (any_sm im) = this ∧
    service (any_sm im) = Some svc ∧ lines im = roots ∧ same_lists (svc :: roots) L L').
Proof.
  intros Hsm Hl Hrep Hok Hs Ht Hr Hnd Hun Hi. apply wp_bind.
  eapply wp_mono; [by eapply (co_ctor i this roots svc config x w L ms)|].
  intros r s' (m & N' & L' & -> & -> & H1 & H2 & H3 & H4 & H5 & H6). apply wp_ret.
  exists (wrap m), N', L'. rewrite Hsm, Hl. split_and!; try done. by apply Hrep.
Qed.

Lemma wp_lift_dtor {St} `{!Member St} `{C : !Component St} `{!ComponentOk St} (wrap : St → any_impl) L m w sp svc xs ys im :
  (∀ m, any_sm (wrap m) = get_sm m) → (∀ m, lines (wrap m) = c_roots m) →
  c_rep L (Machine m w) sp → service (any_sm (wrap m)) = Some svc →
  service_ok w L svc (xs ++ this_ (any_sm (wrap m)) :: ys) → svc ∉ lines (wrap m) →
  wp (lift_impl wrap m c_dtor) (Machine im w) (λ r s', r = Ok tt ∧ ∃ N' L',
    wld s' = with_nodes N' (finish_all operation_aborted (concat (reverse (c_queues sp))) w) ∧
    world_ok (wld s') L' ∧ service_ok (wld s') L' svc (xs ++ ys) ∧ without svc (lines (wrap m)) L L').
Proof.
  intros Hsm Hl Hr Hs Hso Hne. rewrite Hl in *. rewrite !Hsm in *. apply wp_lift_impl.
  by apply (co_dtor L (Machine m w) sp svc xs ys).
Qed.

#[export] Program Instance any_component_ok : ComponentOk any_impl.
Next Obligation.
  intros c L [im w] sp Hr Hpre. apply wp_bind, wp_get_obj. simpl.
  destruct im, sp, c; try done.
  - by apply (wp_lift_component (C := mutex_component) a_mutex s_mutex on_mutex); [..|constructor| |].
  - by apply (wp_lift_component (C := semaphore_component) a_semaphore s_semaphore on_semaphore); [..|constructor| |].
  - by apply (wp_lift_component (C := barrier_component) a_barrier s_barrier on_barrier); [..|constructor| |].
  - by apply (wp_lift_component (C := condvar_component) a_condition_variable s_condition_variable on_condition_variable); [..|constructor| |].
  - apply (wp_lift_component (C := shared_component) a_shared_mutex s_shared_mutex on_shared_mutex); try done.
    intros e i sp0 w0 c0 r0 sp1 w1 (gx & gs & Hst). by econstructor.
Qed.
Next Obligation.
  intros enabled impl c L [im w] sp r sp' w' Hr Hstep. simpl in *.
  destruct Hstep, im; try done.
  - exact (co_effect (St := mutex_impl) _ _ _ L (Machine m w) _ _ _ _ Hr H).
  - exact (co_effect (St := semaphore_impl) _ _ _ L (Machine m w) _ _ _ _ Hr H).
  - exact (co_effect (St := barrier_impl) _ _ _ L (Machine m w) _ _ _ _ Hr H).
  - exact (co_effect (St := condition_variable_impl) _ _ _ L (Machine m w) _ _ _ _ Hr H).
  - exact (co_effect (St := shared_mutex_impl) _ _ _ L (Machine m w) _ _ _ _ Hr
      (ex_intro _ gx (ex_intro _ gs H))).
Qed.
Next Obligation.
  intros L [im w] sp Hr. destruct im, sp; try done; simpl in *.
  - by apply (impl_ok_any a_mutex), (co_impl L (Machine m w)).
  - by apply (impl_ok_any a_semaphore), (co_impl L (Machine m w)).
  - by apply (impl_ok_any a_barrier), (co_impl L (Machine m w)).
  - by apply (impl_ok_any a_condition_variable), (co_impl L (Machine m w)).
  - by apply (impl_ok_any a_shared_mutex), (co_impl L (Machine m w)).
Qed.
Next Obligation. intros L [im w] sp Hr. destruct im, sp; try done; by apply (co_queues L (Machine m w)). Qed.
Next Obligation.
  intros L [im w] sp Hr. destruct im, sp; try done.
  - exact (co_nodup (St := mutex_impl) L (Machine m w) _ Hr).
  - exact (co_nodup (St := semaphore_impl) L (Machine m w) _ Hr).
  - exact (co_nodup (St := barrier_impl) L (Machine m w) _ Hr).
  - exact (co_nodup (St := condition_variable_impl) L (Machine m w) _ Hr).
  - exact (co_nodup (St := shared_mutex_impl) L (Machine m w) _ Hr).
Qed.
Next Obligation.
  intros L L' [im w] sp w' Hr Hi Hq. destruct im, sp; try done; simpl in *.
  - by apply (co_frame L L' (Machine m w)); [|apply (impl_ok_any a_mutex)|].
  - by apply (co_frame L L' (Machine m w)); [|apply (impl_ok_any a_semaphore)|].
  - by apply (co_frame L L' (Machine m w)); [|apply (impl_ok_any a_barrier)|].
  - by apply (co_frame L L' (Machine m w)); [|apply (impl_ok_any a_condition_variable)|].
  - by apply (co_frame L L' (Machine m w)); [|apply (impl_ok_any a_shared_mutex)|].
Qed.
Next Obligation. intros [m|m|m|m|m] w n type Hc; exact (co_emit m w n type Hc). Qed.
Next Obligation.
  intros X [i|i|i|i|i] this roots svc config x w L ms Hok Hs Ht Hr Hnd Hun Hi.
  - by apply (wp_lift_ctor (C := mutex_component) a_mutex s_mutex).
  - by apply (wp_lift_ctor (C := semaphore_component) a_semaphore s_semaphore).
  - by apply (wp_lift_ctor (C := barrier_component) a_barrier s_barrier).
  - by apply (wp_lift_ctor (C := condvar_component) a_condition_variable s_condition_variable).
  - by apply (wp_lift_ctor (C := shared_component) a_shared_mutex s_shared_mutex).
Qed.
Next Obligation.
  intros L [im w] sp svc xs ys Hr Hs Hso Hne. apply wp_bind, wp_get_obj. cbn [obj wld] in *.
  destruct im, sp; try done.
  - by apply (wp_lift_dtor (C := mutex_component) a_mutex L _ _ _ _ _ _ _).
  - by apply (wp_lift_dtor (C := semaphore_component) a_semaphore L _ _ _ _ _ _ _).
  - by apply (wp_lift_dtor (C := barrier_component) a_barrier L _ _ _ _ _ _ _).
  - by apply (wp_lift_dtor (C := condvar_component) a_condition_variable L _ _ _ _ _ _ _).
  - by apply (wp_lift_dtor (C := shared_component) a_shared_mutex L _ _ _ _ _ _ _).
Qed.
End any.
