(* ===== verification/Context.v ===== *)
(** * Programs with many objects

    A context owns one [op_list_service] and any number of objects registered
    with it. [context_ok] is the invariant of the whole: every object implements
    its abstract object, the objects share the heap, the slots and the list of
    the service, and do not interfere. Everything in this file is proved against
    [ComponentOk]; [any_impl] is the instance with the five classes. *)
From S2P Require Import Prelude Machine Bilist Ops Service Impl Component Objects.

Section context.
Context {ASIO : Asio} {St : Type} `{!Member St} `{!Component St} `{!ComponentOk St}.
Implicit Types (L : gmap addr (list addr)) (w : world) (m : St) (sp : c_spec).
Implicit Types (objs : gmap addr St) (sps : gmap addr c_spec) (p svc : addr) (ms : list addr).

(** The object [m] at [p] is registered with the service at [svc] and
    implements [sp]. *)
Record object_ok svc L w p m sp : Prop := {
  ob_this : this_ (get_sm m) = p;
  ob_service : service (get_sm m) = Some svc;
  ob_rep : c_rep L (Machine m w) sp
}.

(** [context_ok svc ms L w objs sps]: the service at [svc] has the members
    [ms], which are the objects [objs]; they implement [sps]; no list belongs to
    two of them, or to the service; every armed closure refers to one of them. *)
Record context_ok svc ms L w objs sps : Prop := {
  cx_world : world_ok w L;
  cx_service : service_ok w L svc ms;
  cx_members p : p ∈ ms ↔ is_Some (objs !! p);
  cx_objects p m : objs !! p = Some m → ∃ sp, sps !! p = Some sp ∧ object_ok svc L w p m sp;
  cx_specs p sp : sps !! p = Some sp → is_Some (objs !! p);
  cx_svc p m : objs !! p = Some m → svc ∉ c_roots m;
  cx_disjoint p1 p2 m1 m2 r :
    objs !! p1 = Some m1 → objs !! p2 = Some m2 → r ∈ c_roots m1 → r ∈ c_roots m2 → p1 = p2;
  cx_closures n c : slots w !! n = Some c → is_Some (objs !! ch_impl c)
}.

(** The object that implements [sp]. *)
Lemma context_at svc ms L w objs sps p sp :
  context_ok svc ms L w objs sps → sps !! p = Some sp → ∃ m, objs !! p = Some m ∧ object_ok svc L w p m sp.
Proof.
  intros Hcx Hsp. destruct (cx_specs _ _ _ _ _ _ Hcx _ _ Hsp) as [m Hm]. exists m. split; [done|].
  destruct (cx_objects _ _ _ _ _ _ Hcx _ _ Hm) as (sp' & Hsp' & Hob). by simplify_eq.
Qed.

(** ** Commands *)

(** What a program does: it calls an object, emits the signal of a slot, makes
    a new object or destroys one. [this] and [roots] are the memory the new
    object and its lists occupy. *)
Inductive context_cmd :=
  | do_call (p : addr) (c : c_cmd (St := St))
  | do_emit (n : positive) (type : bool)
  | do_new (this : addr) (roots : list addr) (i : c_init (St := St))
  | do_delete (p : addr).

(** The closure in a slot runs on the object whose address it captured. *)
Definition context_emit (n : positive) (type : bool) : M (gmap addr St) reply :=
  w ← get_world;
  match slots w !! n with
  | Some c => on_object (ch_impl c) (m ← get_obj; c_exec (c_emit m n type))
  | None => mret r_unit
  end.
Definition context_new this roots i svc (config : Z → Z) : M (gmap addr St) reply :=
  m ← c_ctor i this roots svc config;
  modify_obj <[this := m]>;;
  mret r_unit.
Definition context_delete p : M (gmap addr St) reply :=
  on_object p c_dtor;;
  modify_obj (delete p);;
  mret r_unit.

Definition context_exec svc (config : Z → Z) (c : context_cmd) : M (gmap addr St) reply :=
  match c with
  | do_call p c => on_object p (c_exec c)
  | do_emit n type => context_emit n type
  | do_new this roots i => context_new this roots i svc config
  | do_delete p => context_delete p
  end.

(** What a command relies on: the object exists and the call's own precondition
    holds; new objects are made in memory that is not in use. Signals may be
    emitted at any time. *)
Definition context_pre (c : context_cmd) (s : machine (gmap addr St)) : Prop :=
  match c with
  | do_call p c => ∃ m, obj s !! p = Some m ∧ c_pre c (Machine m (wld s))
  | do_emit _ _ => True
  | do_new this roots i => c_init_ok i roots ∧ NoDup (this :: roots) ∧ ∀ a, a ∈ this :: roots → nodes (wld s) !! a = None
  | do_delete p => is_Some (obj s !! p)
  end.

(** The abstract program: its objects take their steps independently. [objs]
    only says of which class an object is and whether it has threads. *)
Inductive context_step objs (sps : gmap addr c_spec) w :
    context_cmd → res reply → gmap addr (c_spec (St := St)) → world → Prop :=
  | cs_call p m c r sp sp' w' : objs !! p = Some m → sps !! p = Some sp →
      c_step (enabled_ (get_mtx m)) p sp w c r sp' w' →
      context_step objs sps w (do_call p c) r (<[p := sp']> sps) w'
  | cs_emit_nobody n type : slots w !! n = None →
      context_step objs sps w (do_emit n type) (Ok r_unit) sps w
  | cs_emit n type cl m r sp sp' w' :
      slots w !! n = Some cl → objs !! ch_impl cl = Some m → sps !! ch_impl cl = Some sp →
      c_step (enabled_ (get_mtx m)) (ch_impl cl) sp w (c_emit m n type) r sp' w' →
      context_step objs sps w (do_emit n type) r (<[ch_impl cl := sp']> sps) w'
  | cs_new this roots i : objs !! this = None →
      context_step objs sps w (do_new this roots i) (Ok r_unit) (<[this := c_initial i]> sps) w
  | cs_delete p sp : sps !! p = Some sp →
      context_step objs sps w (do_delete p) (Ok r_unit) (delete p sps)
        (finish_all operation_aborted (concat (reverse (c_queues sp))) w).

(** ** Frames *)

Lemma effect_same L impl mine mine' w w1 w' :
  same_but_nodes w' w1 → effect L impl mine mine' w w1 → effect L impl mine mine' w w'.
Proof. intros [N ->] []. by split. Qed.

Lemma mine_listed L m w sp a : c_rep L (Machine m w) sp → a ∈ c_mine sp →
  ∃ r xs, r ∈ c_roots m ∧ L !! r = Some xs ∧ a ∈ xs.
Proof.
  intros Hr Ha. pose proof (co_queues _ _ _ Hr) as Hq. cbn [obj wld] in Hq.
  apply list_elem_of_fmap in Ha as (po & -> & (q & Hqin & Hin)%list_elem_of_In%in_concat).
  apply list_elem_of_In in Hqin, Hin. destruct (lines_queue _ _ _ _ _ Hq Hqin) as (r & Hrr & HL & _).
  exists r, q.*1. split_and!; [done..|]. apply list_elem_of_fmap. by exists po.
Qed.

(** The operations of an object are not members of a list it does not own. *)
Lemma mine_disjoint L m w sp r xs a : c_rep L (Machine m w) sp → L !! r = Some xs → r ∉ c_roots m →
  a ∈ r :: xs → a ∉ c_mine sp.
Proof.
  intros Hr HL Hne Ha (r' & xs' & Hr' & HL' & Ha')%(mine_listed _ _ _ _ _ Hr).
  apply Hne. rewrite (hr_disjoint _ _ (wo_heap _ _ (io_world _ _ _ _ (co_impl _ _ _ Hr))) r r' xs xs' a); try done.
  by right.
Qed.

(** The service does not notice a call on an object. *)
Lemma service_ok_call svc ms L L' w w' m m' sp sp' impl :
  service_ok w L svc ms → c_rep L (Machine m w) sp → c_rep L' (Machine m' w') sp' →
  local c_roots L m L' m' → effect L impl (c_mine sp) (c_mine sp') w w' → svc ∉ c_roots m →
  service_ok w' L' svc ms.
Proof.
  intros [Hms Hc Hpl] Hr Hr' [_ Hroots Hlists] Heff Hsvc.
  assert (L' !! svc = Some ms) as Hms' by (by rewrite Hlists).
  split; [done|by rewrite (ef_services _ _ _ _ _ _ Heff)|]. rewrite Forall_forall in *. intros a Ha.
  destruct (ops w' !! a) eqn:E; [|done]. exfalso.
  destruct (ef_new _ _ _ _ _ _ Heff a ltac:(by rewrite E)) as [Hs|[Hm|Hm]].
  - rewrite (Hpl a Ha) in Hs. by destruct Hs.
  - revert Hm. eapply mine_disjoint; [done..|by right].
  - revert Hm. eapply (mine_disjoint L' m'); [done|exact Hms'|by rewrite Hroots|by right].
Qed.

(** Nor does an object whose lists, operations and closures are left alone. *)
Lemma object_ok_frame svc L L' w w' rs p m sp :
  object_ok svc L w p m sp → same_lists rs L L' → (∀ r, r ∈ c_roots m → r ∉ rs) → world_ok w' L' →
  (∀ a o, a ∈ c_mine sp → ops w !! a = Some o → ops w' !! a = Some o) →
  (∀ n c, slots w' !! n = Some c → slots w !! n = Some c ∨ ch_impl c ≠ p) →
  object_ok svc L' w' p m sp.
Proof.
  intros [Ht Hs Hr] Hlists Hdisj Hok' Hops' Hslots. split; [done..|].
  pose proof (co_impl _ _ _ Hr) as [Hok Hi Hc]. pose proof (co_queues _ _ _ Hr) as Hq. cbn [obj wld] in *.
  apply (co_frame L L' (Machine m w)); [done|split; [done..|]|].
  - intros n c [Hn|Hne]%Hslots Hc2; [by eapply Hc|]. simpl in Hc2. congruence.
  - cbn [obj wld]. apply Forall2_same_length_lookup in Hq as [Hlen Hlook].
    apply Forall2_same_length_lookup. split; [done|]. intros i r q Hri Hqi.
    destruct (Hlook i r q Hri Hqi) as [HL Hops]. apply list_elem_of_lookup_2 in Hri, Hqi.
    split; [by rewrite Hlists by auto|]. rewrite Forall_forall in *. intros [a o] Hin.
    apply Hops'; [|by apply (Hops (a, o))]. apply list_elem_of_fmap. exists (a, o). split; [done|].
    apply list_elem_of_In, in_concat. exists q. by split; apply list_elem_of_In.
Qed.

(** Nor does it notice a call on another one. *)
Lemma object_ok_effect svc L L' w w' rs m impl mine' sp p2 m2 sp2 :
  object_ok svc L w p2 m2 sp2 → c_rep L (Machine m w) sp → world_ok w' L' → same_lists rs L L' →
  effect L impl (c_mine sp) mine' w w' → impl ≠ p2 →
  (∀ r, r ∈ c_roots m2 → r ∉ c_roots m ∧ r ∉ rs) → object_ok svc L' w' p2 m2 sp2.
Proof.
  intros Hob Hr Hok' Hlists Heff Hne Hdisj. pose proof (ob_rep _ _ _ _ _ _ Hob) as Hr2.
  eapply (object_ok_frame svc L L' w w' rs); [done|done|by intros r Hrr; apply (Hdisj r Hrr)|done|..].
  - intros a o Ha Ho. destruct (mine_listed _ _ _ _ _ Hr2 Ha) as (r2 & xs & Hrr & HL & Hin).
    eapply (ef_kept _ _ _ _ _ _ Heff); [done|by eapply listed_member|].
    eapply (mine_disjoint L m); [done|exact HL|by apply Hdisj|by right].
  - intros n c [?|?]%(ef_slots _ _ _ _ _ _ Heff); [by left|right; congruence].
Qed.

(** ** The invariant *)

(** A call on one object is a step of its abstract object; the rest of the
    context is as it was. *)
Lemma context_call svc ms L w objs sps p m c :
  context_ok svc ms L w objs sps → objs !! p = Some m → c_pre c (Machine m w) →
  wp (on_object p (c_exec c)) (Machine objs w) (λ r s', ∃ sp L' sp' w' m',
    sps !! p = Some sp ∧ c_step (enabled_ (get_mtx m)) p sp w c r sp' w' ∧
    same_but_nodes (wld s') w' ∧ obj s' = <[p := m']> objs ∧ same_member m m' ∧ c_rep L' (Machine m' (wld s')) sp' ∧
    context_ok svc ms L' (wld s') (obj s') (<[p := sp']> sps)).
Proof.
  intros Hcx Hm Hpre. destruct (cx_objects _ _ _ _ _ _ Hcx _ _ Hm) as (sp & Hsp & Hob).
  pose proof Hob as [Ht Hs Hr]. eapply wp_on_object; [done|].
  eapply wp_mono; [by apply (co_refines c L _ sp)|].
  intros r [m' w'] (L' & sp' & w2 & Hstep & Hsame & Hr' & Hloc). cbn [obj wld] in *. rewrite Ht in Hstep.
  exists sp, L', sp', w2, m'. split_and!; [done..|by apply Hloc|done|].
  pose proof (effect_same _ _ _ _ _ _ _ Hsame (co_effect _ _ _ _ (Machine m w) _ _ _ _ Hr Hstep)) as Heff.
  pose proof (io_world _ _ _ _ (co_impl _ _ _ Hr')) as Hok'. pose proof Hloc as [Hsm Hroots Hlists].
  unfold same_member in Hsm.
  destruct Hcx as [Hw Hsvc Hmem Hobjs Hsps Hns Hdis Hcl]. split.
  - done.
  - by eapply service_ok_call; eauto.
  - intros p2. rewrite lookup_insert_is_Some', Hmem. split; [by right|]. intros [<-|?]; [by rewrite Hm|done].
  - intros p2 m2 [[<- <-]|[Hne Hm2]]%lookup_insert_Some.
    + exists sp'. split; [by rewrite lookup_insert_eq|]. split; [by rewrite Hsm|by rewrite Hsm|done].
    + destruct (Hobjs _ _ Hm2) as (sp2 & Hsp2 & Hob2). exists sp2. split; [by rewrite lookup_insert_ne|].
      eapply (object_ok_effect svc L L' w w'); [done..|].
      intros r2 Hr2. assert (r2 ∉ c_roots m); [|done]. intros Hr1. by apply Hne, (Hdis p p2 m m2 r2).
  - intros p2 sp2. rewrite lookup_insert_is_Some'. intros [[<- _]|[_ H2]]%lookup_insert_Some; [by left|right; eauto].
  - intros p2 m2 [[<- <-]|[Hne Hm2]]%lookup_insert_Some; [rewrite Hroots|]; eauto.
  - intros p1 p2 m1 m2 r2 [[<- <-]|[Hne1 Hm1]]%lookup_insert_Some [[<- <-]|[Hne2 Hm2]]%lookup_insert_Some;
      rewrite ?Hroots; eauto.
  - intros n c0 Hn. apply lookup_insert_is_Some'.
    destruct (ef_slots _ _ _ _ _ _ Heff _ _ Hn) as [?| ->]; [right; by eapply Hcl|by left].
Qed.

(** Emitting a signal is a call on the object whose closure it reaches. *)
Lemma context_emit_ok svc ms L w objs sps n type :
  context_ok svc ms L w objs sps →
  wp (context_emit n type) (Machine objs w) (λ r s', ∃ L' sps' w',
    context_step objs sps w (do_emit n type) r sps' w' ∧ same_but_nodes (wld s') w' ∧
    context_ok svc ms L' (wld s') (obj s') sps').
Proof.
  intros Hcx. apply wp_bind, wp_get_world. cbn [wld]. destruct (slots w !! n) as [cl|] eqn:Hn.
  - destruct (cx_closures _ _ _ _ _ _ Hcx _ _ Hn) as [m Hm].
    destruct (cx_objects _ _ _ _ _ _ Hcx _ _ Hm) as (sp0 & _ & [Ht _ _]).
    eapply wp_on_object; [exact Hm|]. apply wp_bind, wp_get_obj. cbn [obj].
    assert (c_pre (c_emit m n type) (Machine m w)) as Hpre.
    { apply co_emit. intros c. rewrite Hn. by intros [= <-]. }
    pose proof (context_call _ _ _ _ _ _ _ _ _ Hcx Hm Hpre) as (r & s' & E & H)%wp_run.
    unfold on_object in E. cbn [obj wld] in E. rewrite Hm in E.
    destruct (c_exec (c_emit m n type) (Machine m w)) as [[r1 s1]|] eqn:E1; [|done]. simplify_eq. unfold wp. rewrite E1.
    destruct H as (sp & L' & sp' & w' & m' & Hsp & Hst & Hsame & _ & _ & _ & Hcx').
    exists L', (<[ch_impl cl := sp']> sps), w'. split; [|done]. by eapply cs_emit.
  - apply wp_ret. exists L, sps, w. split; [by apply cs_emit_nobody|]. by split.
Qed.

(** Memory that is not in use belongs to no object. *)
Lemma context_fresh svc ms L w objs sps a :
  context_ok svc ms L w objs sps → nodes w !! a = None →
  a ≠ svc ∧ objs !! a = None ∧ ∀ p m, objs !! p = Some m → a ∉ c_roots m.
Proof.
  intros Hcx Ha. pose proof (unlisted _ _ _ (wo_heap _ _ (cx_world _ _ _ _ _ _ Hcx)) Ha) as Hun.
  pose proof (so_members _ _ _ _ (cx_service _ _ _ _ _ _ Hcx)) as Hms. split_and!.
  - intros ->. apply Hun. by eapply listed_root.
  - destruct (objs !! a) eqn:E; [|done]. destruct Hun. eapply listed_member; [exact Hms|].
    by apply (cx_members _ _ _ _ _ _ Hcx).
  - intros p m Hm Hin. destruct (cx_objects _ _ _ _ _ _ Hcx _ _ Hm) as (sp & _ & [_ _ Hr]).
    destruct (lines_lookup _ _ _ _ _ (co_queues _ _ _ Hr) Hin) as (q & _ & HL & _).
    apply Hun. by eapply listed_root.
Qed.

(** A new object joins the service; the others do not notice. *)
Lemma context_new_ok svc ms L w objs sps this roots i config :
  context_ok svc ms L w objs sps → c_init_ok i roots → NoDup (this :: roots) →
  (∀ a, a ∈ this :: roots → nodes w !! a = None) →
  wp (context_new this roots i svc config) (Machine objs w) (λ r s', ∃ L', r = Ok r_unit ∧
    same_but_nodes (wld s') w ∧
    context_ok svc (ms ++ [this]) L' (wld s') (obj s') (<[this := c_initial i]> sps)).
Proof.
  intros Hcx Hi Hnd Hfr. pose proof (λ a H, context_fresh _ _ _ _ _ _ a Hcx (Hfr a H)) as Hout.
  destruct Hcx as [Hw Hsvc Hmem Hobjs Hsps Hns Hdis Hcl].
  destruct (Hout this ltac:(by left)) as (_ & Hno & _).
  apply wp_bind. eapply wp_mono; [apply (co_ctor i this roots svc config objs w L ms); try done|].
  { apply Hfr. by left. }
  { intros r Hr. apply Hfr. by right. }
  { intros n c Hn Hc. apply Hcl in Hn. rewrite Hc, Hno in Hn. by destruct Hn. }
  intros r s' (m & N' & L' & -> & -> & Hrep & Hs' & Ht & Hserv & Hroots & Hlists).
  apply wp_bind, wp_modify_obj, wp_ret. cbn [obj wld]. exists L'. split; [done|]. split; [by exists N'|].
  pose proof (io_world _ _ _ _ (co_impl _ _ _ Hrep)) as Hok'. cbn [obj wld] in Hok'. split; [done|done|..].
  - intros p. rewrite elem_of_app, list_elem_of_singleton, lookup_insert_is_Some', Hmem. naive_solver.
  - intros p2 m2 [[<- <-]|[Hne Hm2]]%lookup_insert_Some.
    + exists (c_initial i). by rewrite lookup_insert_eq.
    + destruct (Hobjs _ _ Hm2) as (sp2 & Hsp2 & Hob2). exists sp2. split; [by rewrite lookup_insert_ne|].
      eapply (object_ok_frame svc L L' w); [done|exact Hlists| |done|done|by left].
      intros r Hr [->|Hin]%elem_of_cons; [by eapply Hns|].
      by apply (proj2 (proj2 (Hout r ltac:(by right))) p2 m2 Hm2).
  - intros p2 sp2. rewrite lookup_insert_is_Some'. intros [[<- _]|[_ H2]]%lookup_insert_Some; [by left|right; eauto].
  - intros p2 m2 [[<- <-]|[Hne Hm2]]%lookup_insert_Some; [|by eauto]. rewrite Hroots. intros Hin.
    by apply (Hout svc ltac:(by right)).
  - intros p1 p2 m1 m2 r [[<- <-]|[Hne1 Hm1]]%lookup_insert_Some [[<- <-]|[Hne2 Hm2]]%lookup_insert_Some; eauto;
      rewrite ?Hroots; intros H1 H2; exfalso.
    + by apply (proj2 (proj2 (Hout r ltac:(by right))) _ _ Hm2).
    + by apply (proj2 (proj2 (Hout r ltac:(by right))) _ _ Hm1).
  - intros n c Hn. apply lookup_insert_is_Some'. right. by eapply Hcl.
Qed.

(** The lists after the object [m] is gone. *)
Lemma without_listed svc L L' xs p ys m w sp a :
  c_rep L (Machine m w) sp → L !! svc = Some (xs ++ p :: ys) → L' !! svc = Some (xs ++ ys) → svc ∉ c_roots m →
  without svc (c_roots m) L L' → a ∈ c_mine sp → ¬ listed L' a.
Proof.
  intros Hr Hms Hms' Hsvc [Hgone Hlists] Ha (r & zs & HL' & Hin).
  destruct (mine_listed _ _ _ _ _ Hr Ha) as (r0 & zs0 & Hr0 & HL0 & Ha0).
  pose proof (hr_disjoint _ _ (wo_heap _ _ (io_world _ _ _ _ (co_impl _ _ _ Hr)))) as Hdis. cbn [obj wld] in Hdis.
  destruct (decide (r = svc)) as [->|Hne].
  - rewrite Hms' in HL'. simplify_eq. apply Hsvc.
    rewrite (Hdis svc r0 _ _ a Hms HL0) by set_solver. done.
  - destruct (decide (r ∈ c_roots m)) as [Hrm|Hrm]; [by rewrite Hgone in HL'|].
    rewrite Hlists in HL' by set_solver. apply Hrm. by rewrite (Hdis r r0 _ _ a HL' HL0) by set_solver.
Qed.

(** Destroying an object completes its operations; the others keep theirs. *)
Lemma context_delete_ok svc ms L w objs sps p :
  context_ok svc ms L w objs sps → is_Some (objs !! p) →
  wp (context_delete p) (Machine objs w) (λ r s', ∃ sp ms' L', r = Ok r_unit ∧ sps !! p = Some sp ∧
    same_but_nodes (wld s') (finish_all operation_aborted (concat (reverse (c_queues sp))) w) ∧
    context_ok svc ms' L' (wld s') (obj s') (delete p sps)).
Proof.
  intros Hcx [m Hm]. destruct (cx_objects _ _ _ _ _ _ Hcx _ _ Hm) as (sp & Hsp & Hob).
  pose proof Hob as [Ht Hs Hr]. destruct Hcx as [Hw Hsvc Hmem Hobjs Hsps Hns Hdis Hcl].
  assert (p ∈ ms) as (xs & ys & ->)%list_elem_of_split by (apply Hmem; by rewrite Hm).
  pose proof (so_members _ _ _ _ Hsvc) as Hms.
  pose proof (heap_rep_NoDup _ _ _ _ (wo_heap _ _ Hw) Hms) as [_ Hnd]%NoDup_cons.
  apply NoDup_app_mid in Hnd as (Hpx & Hpy & _).
  apply wp_bind. eapply wp_on_object; [exact Hm|].
  eapply wp_mono; [apply (co_dtor L (Machine m w) sp svc xs ys); try done; cbn [obj wld]; [by rewrite Ht|by eapply Hns]|].
  cbn [obj wld]. intros r [m' w'] (-> & N' & L' & Hw' & Hok' & Hs' & Hwo). cbn [obj wld] in *.
  apply wp_bind, wp_modify_obj, wp_ret. cbn [obj wld]. exists sp, (xs ++ ys), L'.
  split; [done|]. split; [done|]. split; [by exists N'|]. rewrite delete_insert_eq.
  assert (effect L p (c_mine sp) [] w w') as Heff.
  { eapply effect_same; [by exists N'|]. apply effect_finish_all. intros a (po & -> & Ha)%list_elem_of_fmap.
    apply list_elem_of_fmap. exists po. split; [done|].
    apply list_elem_of_In, in_concat in Ha as (q & Hq & Ha). apply list_elem_of_In, in_concat. exists q.
    split; [|done]. by apply list_elem_of_In, elem_of_reverse, list_elem_of_In. }
  assert (∀ a, a ∈ c_mine sp → ¬ listed L' a) as Hgone.
  { intros a. eapply (without_listed svc L L'); [exact Hr|exact Hms|by apply Hs'|by eapply Hns|done]. }
  split; [done|done|..].
  - intros p2. rewrite lookup_delete_is_Some, <- Hmem. set_solver.
  - intros p2 m2 [Hne Hm2]%lookup_delete_Some.
    destruct (Hobjs _ _ Hm2) as (sp2 & Hsp2 & Hob2). exists sp2. split; [by rewrite lookup_delete_ne|].
    eapply (object_ok_effect svc L L' w w'); [done|exact Hr|done|apply Hwo|exact Heff|done|].
    intros r Hr2. assert (r ∉ c_roots m) as Hrm; [|split; [done|]].
    + intros Hrm. by apply Hne, (Hdis p p2 m m2 r).
    + intros [->|?]%elem_of_cons; [by eapply Hns|done].
  - intros p2 sp2 [? H2]%lookup_delete_Some. apply lookup_delete_is_Some. eauto.
  - intros p2 m2 [_ Hm2]%lookup_delete_Some. by eapply Hns.
  - intros p1 p2 m1 m2 r [_ Hm1]%lookup_delete_Some [_ Hm2]%lookup_delete_Some. by eapply Hdis.
  - intros n c Hn. destruct (wo_slots _ _ Hok' _ _ Hn) as (_ & _ & _ & Hl).
    assert (slots w !! n = Some c) as Hn0.
    { rewrite Hw' in Hn. simpl in Hn. exact (slots_within_finish_all _ _ _ n c Hn). }
    apply lookup_delete_is_Some. split; [|by eapply Hcl]. intros E. apply (Hgone (ch_model c)); [|done].
    pose proof (co_impl _ _ _ Hr) as Him. eapply (closure_member _ _ _ _ _ _ Him); [exact Hn0|]. simpl. congruence.
Qed.

(** ** Runs *)

(** Every command of the program is a step of the abstract program. *)
Lemma context_exec_ok svc config ms L w objs sps c :
  context_ok svc ms L w objs sps → context_pre c (Machine objs w) →
  wp (context_exec svc config c) (Machine objs w) (λ r s', ∃ ms' L' sps' w',
    context_step objs sps w c r sps' w' ∧ same_but_nodes (wld s') w' ∧
    context_ok svc ms' L' (wld s') (obj s') sps').
Proof.
  intros Hcx Hpre. destruct c as [p c|n type|this roots i|p]; simpl.
  - destruct Hpre as (m & Hm & Hpre). eapply wp_mono; [by eapply context_call|].
    intros r s' (sp & L' & sp' & w' & m' & Hsp & Hst & Hsame & _ & _ & _ & Hcx').
    exists ms, L', (<[p := sp']> sps), w'. split; [|done]. by eapply cs_call.
  - eapply wp_mono; [by eapply context_emit_ok|].
    intros r s' (L' & sps' & w' & H). by exists ms, L', sps', w'.
  - destruct Hpre as (Hi & Hnd & Hfr). eapply wp_mono; [by eapply context_new_ok|].
    intros r s' (L' & -> & Hsame & Hcx'). eexists _, L', _, w. split; [|done]. apply cs_new.
    apply (context_fresh _ _ _ _ _ _ this Hcx). apply Hfr. by left.
  - eapply wp_mono; [by eapply context_delete_ok|].
    intros r s' (sp & ms' & L' & -> & Hsp & Hsame & Hcx'). eexists ms', L', _, _. split; [|done].
    by apply cs_delete.
Qed.

(** Any interleaving of commands. *)
Inductive context_run svc config s0 : machine (gmap addr St) → Prop :=
  | cx_run_start : context_run svc config s0 s0
  | cx_run_step s c r s' : context_run svc config s0 s → context_pre c s →
      context_exec svc config c s = Some (r, s') → context_run svc config s0 s'.

Lemma context_run_ok svc config ms L w objs sps s :
  context_ok svc ms L w objs sps → context_run svc config (Machine objs w) s →
  ∃ ms' L' sps', context_ok svc ms' L' (wld s) (obj s) sps'.
Proof.
  intros Hcx. induction 1 as [|s c r s' _ (ms1 & L1 & sps1 & Hcx1) Hpre Hex]; [by exists ms, L, sps|].
  destruct s as [objs1 w1]. cbn [obj wld] in *.
  pose proof (context_exec_ok svc config _ _ _ _ _ _ Hcx1 Hpre) as Hwp. unfold wp in Hwp. rewrite Hex in Hwp.
  destruct Hwp as (ms2 & L2 & sps2 & w2 & _ & _ & Hcx2). by exists ms2, L2, sps2.
Qed.

(** A service without members, to start from. *)
Lemma context_ok_empty svc L w :
  world_ok w L → service_ok w L svc [] → slots w = ∅ → context_ok svc [] L w ∅ ∅.
Proof.
  intros Hok Hs Hsl. split; [done..| |by intros ? ?; rewrite lookup_empty| | | |].
  - intros p. rewrite lookup_empty, elem_of_nil. split; [done|by intros []].
  - intros p sp. by rewrite lookup_empty.
  - intros p m. by rewrite lookup_empty.
  - intros p1 p2 m1 m2 r. by rewrite lookup_empty.
  - intros n c. by rewrite Hsl, lookup_empty.
Qed.

(** A program that is a list of commands. *)
Definition run_commands svc config (cs : list context_cmd) s : machine (gmap addr St) :=
  foldl (λ s c, after (context_exec svc config c s) s) s cs.
Fixpoint legal svc config (cs : list context_cmd) s : Prop :=
  match cs with
  | [] => True
  | c :: cs => context_pre c s ∧ legal svc config cs (after (context_exec svc config c s) s)
  end.

Lemma context_run_trans svc config s1 s2 s3 :
  context_run svc config s1 s2 → context_run svc config s2 s3 → context_run svc config s1 s3.
Proof. intros H12. induction 1; [done|by eapply cx_run_step]. Qed.

Lemma context_run_commands svc config ms L w objs sps cs :
  context_ok svc ms L w objs sps → legal svc config cs (Machine objs w) →
  context_run svc config (Machine objs w) (run_commands svc config cs (Machine objs w)).
Proof.
  revert ms L w objs sps. induction cs as [|c cs IH]; intros ms L w objs sps Hcx; [intros _; apply cx_run_start|].
  intros [Hpre Hleg]. simpl in *.
  pose proof (context_exec_ok svc config _ _ _ _ _ _ Hcx Hpre) as (r & [objs1 w1] & Hex & H)%wp_run.
  destruct H as (ms' & L' & sps' & w' & _ & _ & Hcx'). rewrite Hex in *. simpl in *.
  eapply context_run_trans; [|by eapply IH]. by eapply cx_run_step; [apply cx_run_start|..].
Qed.
End context.
