(* ===== verification/ContextSpec.v ===== *)
(** * Programs: type safety, refinement, exclusion

    The properties of programs that own objects of all five classes
    ([any_impl]): no command is ever stuck and objects keep their class, every
    command is a step of the abstract program, and a mutex excludes its callers
    whatever the rest of the program does. *)
From S2P Require Import Prelude Machine Bilist Ops Service Impl Mutex MutexSpec Component Objects Context.
From S2P Require Import Semaphore SemaphoreSpec Barrier BarrierSpec CondVar CondVarSpec SharedMutex SharedMutexSpec.

(** A call and a construction in a program with objects of all classes. *)
Abbreviation program_call := (@do_call _ any_impl any_member any_component).
Abbreviation program_new := (@do_new _ any_impl any_member any_component).

(** ** Classes *)

Inductive impl_class := k_mutex | k_semaphore | k_barrier | k_condition_variable | k_shared_mutex.

Definition class_of (im : any_impl) : impl_class :=
  match im with
  | a_mutex _ => k_mutex
  | a_semaphore _ => k_semaphore
  | a_barrier _ => k_barrier
  | a_condition_variable _ => k_condition_variable
  | a_shared_mutex _ => k_shared_mutex
  end.

Section classes.
Context {ASIO : Asio}.
Implicit Types (L : gmap addr (list addr)) (w : world) (objs : gmap addr any_impl) (sps : gmap addr any_spec).

Definition spec_class (sp : any_spec) : impl_class :=
  match sp with
  | s_mutex _ => k_mutex
  | s_semaphore _ => k_semaphore
  | s_barrier _ => k_barrier
  | s_condition_variable _ => k_condition_variable
  | s_shared_mutex _ => k_shared_mutex
  end.

Lemma rep_class L s sp : any_rep L s sp → class_of (obj s) = spec_class sp.
Proof. destruct s as [[] w], sp; done. Qed.
Lemma step_class enabled impl sp w c r sp' w' :
  any_step enabled impl sp w c r sp' w' → spec_class sp' = spec_class sp.
Proof. by destruct 1. Qed.

(** The abstract object at [p] has the class of the object at [p]. *)
Lemma context_class svc ms L w objs sps p sp :
  context_ok svc ms L w objs sps → sps !! p = Some sp →
  ∃ m, objs !! p = Some m ∧ class_of m = spec_class sp ∧ any_rep L (Machine m w) sp.
Proof.
  intros Hcx Hsp. destruct (context_at _ _ _ _ _ _ _ _ Hcx Hsp) as (m & Hm & [_ _ Hr]).
  exists m. split_and!; [done|exact (rep_class _ _ _ Hr)|exact Hr].
Qed.

(** What a step does to the abstract object at [p]. *)
Lemma context_step_at objs sps w c r sps' w' p sp :
  context_step objs sps w c r sps' w' → sps !! p = Some sp → is_Some (objs !! p) → c ≠ do_delete p →
  (sps' !! p = Some sp ∧ ∀ c', c ≠ do_call p c') ∨
  ∃ (m : any_impl) (c' : any_cmd) sp', objs !! p = Some m ∧ sps' !! p = Some sp' ∧
    any_step (enabled_ (get_mtx m)) p sp w c' r sp' w' ∧
    (c = program_call p c' ∨ ∃ n type, c = do_emit n type ∧ c' = any_emit m n type).
Proof.
  intros Hst Hsp Ho Hne.
  destruct Hst as [p1 m c r sp1 sp' w' Hm Hsp1 Hst|n type Hn|n type cl m r sp1 sp' w' Hn Hm Hsp1 Hst|this roots i Hno|p1 sp1 Hsp1].
  - destruct (decide (p1 = p)) as [->|Hp]; [|left; split; [by rewrite lookup_insert_ne|congruence]].
    assert (sp1 = sp) as -> by (apply (inj Some); by etransitivity; [symmetry; exact Hsp1|]).
    right. exists m, c, sp'. rewrite lookup_insert_eq. auto.
  - by left.
  - destruct (decide (ch_impl cl = p)) as [<-|Hp]; [|left; split; [by rewrite lookup_insert_ne|done]].
    assert (sp1 = sp) as -> by (apply (inj Some); by etransitivity; [symmetry; exact Hsp1|]).
    right. exists m, (any_emit m n type), sp'. rewrite lookup_insert_eq. split_and!; [done..|]. right. by exists n, type.
  - left. split; [|done]. rewrite lookup_insert_ne; [done|]. intros ->. rewrite Hno in Ho. by destruct Ho.
  - left. split; [|done]. rewrite lookup_delete_ne; [done|congruence].
Qed.

(** Objects keep their class until they are destroyed. *)
Lemma context_step_class objs sps w c r sps' w' p sp :
  context_step objs sps w c r sps' w' → sps !! p = Some sp → is_Some (objs !! p) → c ≠ do_delete p →
  ∃ sp', sps' !! p = Some sp' ∧ spec_class sp' = spec_class sp.
Proof.
  intros Hst Hsp Ho Hne.
  destruct (context_step_at _ _ _ _ _ _ _ _ _ Hst Hsp Ho Hne) as [[? _]|(m & c' & sp' & _ & ? & Hst' & _)]; [by exists sp|].
  exists sp'. split; [done|]. by eapply step_class.
Qed.
End classes.

(** ** The owners of a mutex *)

Section owners.
Context {ASIO : Asio}.
Implicit Types (L : gmap addr (list addr)) (w : world) (objs : gmap addr any_impl) (sps : gmap addr any_spec).
Implicit Types (s : machine (gmap addr any_impl)) (c : context_cmd (St := any_impl)).

(** A command that calls the object at [p], or destroys it. *)
Definition targets (p : addr) c : Prop :=
  match c with do_call p' _ | do_delete p' => p' = p | _ => False end.

(** Runs of a program in which callers of the mutex at [p] play by its rules;
    the index counts the owners of that mutex. *)
Inductive owners_run (svc : addr) (config : Z → Z) (p : addr) s0 : nat → machine (gmap addr any_impl) → Prop :=
  | or_start : owners_run svc config p s0 0 s0
  | or_mutex h s m mc r s' : owners_run svc config p s0 h s → obj s !! p = Some (a_mutex m) →
      mutex_client h mc (Machine m (wld s)) →
      context_exec (St := any_impl) svc config (program_call p (on_mutex mc)) s = Some (r, s') →
      owners_run svc config p s0 (h - releases mc + grants (Machine m (wld s)) mc r (Machine m (wld s'))) s'
  | or_other h s c r s' : owners_run svc config p s0 h s → ¬ targets p c → context_pre c s →
      context_exec (St := any_impl) svc config c s = Some (r, s') → owners_run svc config p s0 h s'.

(** The mutex at [p] is there and implements [sp]. *)
Definition mutex_at svc (p : addr) s (sp : mutex_spec) : Prop :=
  ∃ ms L sps, context_ok svc ms L (wld s) (obj s) sps ∧ sps !! p = Some (s_mutex sp).

Lemma mutex_at_locked svc p s sp :
  mutex_at svc p s sp → ∃ m, obj s !! p = Some (a_mutex m) ∧ locked_ m = owned sp.
Proof.
  intros (ms & L & sps & Hcx & Hsp).
  destruct (context_class _ _ _ _ _ _ _ _ Hcx Hsp) as ([m| | | |] & Hm & _ & Hr); try done.
  exists m. split; [done|]. apply Hr.
Qed.

Lemma emit_keeps_owner enabled impl sp w m n type r sp' w' :
  any_step enabled impl (s_mutex sp) w (any_emit m n type) r (s_mutex sp') w' → owned sp' = owned sp.
Proof.
  intros Hst. inversion Hst as [sp1 w1 c1 r1 sp2 w2 Hms| | | |]. destruct m; simpl in *; simplify_eq.
  by inversion Hms.
Qed.

(** A command other than a destruction leaves the mutex there; only a call on
    it changes whether it is owned. *)
Lemma mutex_at_step svc config p s sp c r s' :
  mutex_at svc p s sp → context_pre c s → context_exec (St := any_impl) svc config c s = Some (r, s') → c ≠ do_delete p →
  ∃ sp', mutex_at svc p s' sp' ∧
    (owned sp' = owned sp ∧ (∀ ac, c ≠ program_call p ac) ∨ ∃ enabled mc w', c = program_call p (on_mutex mc) ∧
       mutex_step enabled p sp (wld s) mc r sp' w' ∧ same_but_nodes (wld s') w').
Proof.
  intros (ms & L & sps & Hcx & Hsp) Hpre Hex Hne. destruct s as [objs w]. cbn [obj wld] in *.
  pose proof (context_exec_ok (St := any_impl) svc config _ _ _ _ _ _ Hcx Hpre) as Hwp. unfold wp in Hwp. rewrite Hex in Hwp.
  destruct Hwp as (ms' & L' & sps' & w' & Hst & Hsame & Hcx').
  destruct (context_step_at _ _ _ _ _ _ _ p _ Hst Hsp (cx_specs _ _ _ _ _ _ Hcx _ _ Hsp) Hne)
    as [[Hsp' Hno]|(m & c' & sp' & Hm & Hsp' & Hst' & Hc)].
  - exists sp. split; [|by left]. by exists ms', L', sps'.
  - assert (∃ sp1, sp' = s_mutex sp1) as [sp1 ->] by (inversion Hst'; eauto).
    exists sp1. split; [by exists ms', L', sps'|].
    destruct Hc as [->|(n & type & -> & ->)]; [right|left; split; [by eapply emit_keeps_owner|done]].
    inversion Hst' as [sp2 w2 mc r2 sp3 w3 Hms| | | |]; simplify_eq. by exists (enabled_ (get_mtx m)), mc, w'.
Qed.

Lemma owners_run_invariant svc config p s0 h s :
  mutex_at svc p s0 (MutexSpec false []) → owners_run svc config p s0 h s →
  ∃ sp, mutex_at svc p s sp ∧ h = owners (owned sp).
Proof.
  intros H0. induction 1 as [|h s m mc0 r s' _ (sp & Hat & ->) Hm Hcl Hex|h s c r s' _ (sp & Hat & ->) Ht Hpre Hex].
  - by exists (MutexSpec false []).
  - destruct (mutex_at_step svc config p s sp (program_call p (on_mutex mc0)) r s' Hat) as (sp' & Hat' & Hst); [|exact Hex|done|].
    { exists (a_mutex m). split; [done|]. apply Hcl. }
    exists sp'. split; [done|].
    destruct Hst as [[_ Hno]|(e & mc & w' & E & Hst & Hsame)]; [by destruct (Hno (on_mutex mc0))|]. simplify_eq.
    by eapply (step_owners e p (Machine m (wld s)) sp _ r (Machine m (wld s'))).
  - destruct (mutex_at_step svc config p s sp c r s' Hat Hpre Hex) as (sp' & Hat' & Hst).
    { intros ->. by apply Ht. }
    exists sp'. split; [done|]. destruct Hst as [[-> _]|(e & mc & w' & -> & _)]; [done|by destruct Ht].
Qed.
End owners.

(** ** Properties *)

Section properties.
Context {ASIO : Asio}.
Implicit Types (L : gmap addr (list addr)) (w : world) (objs : gmap addr any_impl) (sps : gmap addr any_spec).
Implicit Types (s : machine (gmap addr any_impl)) (c : context_cmd (St := any_impl)).

(** C3: type safety of programs. In a context with any number of objects of the
    five classes, take any sequence of constructions, destructions, calls and
    cancellations ([async_arrive] is one call) that keeps to these
    preconditions: the object is alive and of the class of the call; a new
    object gets memory that is not in use, and a semaphore or barrier a count in
    the range of its type, a barrier's not zero; the [error_code] passed to a
    call is alive, a thread that looks has an operation, and a signal that is
    emitted through an object belongs to it; a semaphore is released below
    [INT_MAX] permits and asked for its value while memory is below [INT_MAX];
    fewer than [2 ^ 64] share a mutex. Nothing is asked about who owns what.
    Then every next command that keeps to them has an outcome, so nothing
    dangles, nothing overflows and no loop runs away; and every object that is
    not destroyed keeps its class. *)
Theorem context_type_safe svc config ms L w objs sps s c :
  context_ok svc ms L w objs sps → context_run svc config (Machine objs w) s → context_pre c s →
  ∃ r s', context_exec svc config c s = Some (r, s') ∧
    (∃ ms' L' sps', context_ok svc ms' L' (wld s') (obj s') sps') ∧
    ∀ p m, obj s !! p = Some m → c ≠ do_delete p → ∃ m', obj s' !! p = Some m' ∧ class_of m' = class_of m.
Proof.
  intros Hcx Hrun Hpre. destruct s as [objs1 w1].
  destruct (context_run_ok _ _ _ _ _ _ _ _ Hcx Hrun) as (ms1 & L1 & sps1 & Hcx1). cbn [obj wld] in *.
  pose proof (context_exec_ok svc config _ _ _ _ _ _ Hcx1 Hpre) as (r & s' & Hex & H)%wp_run.
  destruct H as (ms' & L' & sps' & w' & Hst & _ & Hcx'). exists r, s'. split; [done|].
  split; [by exists ms', L', sps'|]. intros p m Hm Hne.
  destruct (cx_objects _ _ _ _ _ _ Hcx1 _ _ Hm) as (sp & Hsp & [_ _ Hr]).
  destruct (context_step_class _ _ _ _ _ _ _ p sp Hst Hsp) as (sp' & Hsp' & E); [by exists m|done|].
  destruct (context_class _ _ _ _ _ _ _ _ Hcx' Hsp') as (m' & Hm' & E' & _). exists m'. split; [done|].
  rewrite E', E. symmetry. exact (rep_class _ _ _ Hr).
Qed.

(** C4: composition. Whatever objects a program owns, each of its commands that
    keeps to the preconditions of the classes (what it names is alive, and
    neither [release] nor sharing overflows a counter) is a step of one abstract
    object, made, called, cancelled or destroyed, with the abstract answer and
    effects; the abstract states of all the others, and the agreement of the
    heap with all of them, stay. *)
Theorem context_refines svc config ms L w objs sps c :
  context_ok svc ms L w objs sps → context_pre c (Machine objs w) →
  wp (context_exec svc config c) (Machine objs w) (λ r s', ∃ ms' L' sps' w',
    context_step objs sps w c r sps' w' ∧ same_but_nodes (wld s') w' ∧
    context_ok svc ms' L' (wld s') (obj s') sps').
Proof. intros Hcx Hpre. exact (context_exec_ok svc config ms L w objs sps c Hcx Hpre). Qed.

(** C9: exclusion in programs. A mutex made by a program has at most one owner,
    and one exactly while [locked_] is set, whatever the program does with its
    other objects in between, as long as only owners call its [unlock] and the
    [error_code] that its [lock] gets is clear. *)
Theorem program_mutex_exclusion svc config ms L w objs sps p roots hint r s1 h s :
  context_ok svc ms L w objs sps → context_pre (program_new p roots (i_mutex hint)) (Machine objs w) →
  context_exec svc config (program_new p roots (i_mutex hint)) (Machine objs w) = Some (r, s1) →
  owners_run svc config p s1 h s →
  h ≤ 1 ∧ ∃ m, obj s !! p = Some (a_mutex m) ∧ (h = 1 ↔ locked_ m = true).
Proof.
  intros Hcx (Hi & Hnd & Hfr) Hex Hrun.
  pose proof (context_new_ok svc ms L w objs sps p roots _ config Hcx Hi Hnd Hfr) as Hwp.
  cbn [context_exec] in Hex. unfold wp in Hwp. rewrite Hex in Hwp. destruct Hwp as (L1 & _ & _ & Hcx1).
  destruct (owners_run_invariant svc config p s1 h s) as (sp & Hat & ->); [|done|].
  { exists (ms ++ [p]), L1, (<[p := s_mutex (MutexSpec false [])]> sps). by rewrite lookup_insert_eq. }
  destruct (mutex_at_locked _ _ _ _ Hat) as (m & Hm & Hl).
  split; [destruct (owned sp); simpl; lia|]. exists m. rewrite Hl. by destruct (owned sp).
Qed.
End properties.

(** ** The properties at work *)

(** A program with a mutex, a semaphore and a shared mutex, each of which has
    somebody in line. *)
Section witnesses.
#[local] Existing Instance test_asio.

Definition demo_start : machine (gmap addr any_impl) := Machine ∅ (demo_world true).
Definition demo_news : list (context_cmd (St := any_impl)) :=
  [program_new 2 [3%positive] (i_mutex (-1)%Z); program_new 4 [5%positive] (i_semaphore (0, -1)%Z);
   program_new 6 [7%positive; 8%positive] (i_shared_mutex (-1)%Z)].
Definition demo_calls : list (context_cmd (St := any_impl)) :=
  [program_call 2 (on_mutex cmd_try_lock); program_call 2 (on_mutex (cmd_async_lock 0 4));
   program_call 4 (on_semaphore (sem_async_acquire (ASIO := test_asio) 0 6));
   program_call 6 (on_shared_mutex sh_try_lock); program_call 6 (on_shared_mutex (sh_async_lock 0 8))].
Definition demo_ready : machine (gmap addr any_impl) := run_commands (St := any_impl) 1 (demo_config true) demo_news demo_start.
Definition demo_program : machine (gmap addr any_impl) :=
  run_commands (St := any_impl) 1 (demo_config true) (demo_news ++ demo_calls) demo_start.

Lemma demo_start_ok : context_ok 1 [] demo_lists (wld demo_start) (obj demo_start) ∅.
Proof. apply context_ok_empty; [apply demo_world_ok|apply demo_world_ok|vm_compute; reflexivity]. Qed.

Lemma pre_call p c s k : class_of <$> obj s !! p = Some k →
  (∀ m, class_of m = k → any_pre c (Machine m (wld s))) → context_pre (program_call p c) s.
Proof. intros (m & Hm & E)%fmap_Some H. exists m. split; [done|]. by apply H. Qed.
Lemma pre_new this roots i s : any_init_ok i roots → NoDup (this :: roots) →
  forallb (λ a, bool_decide (nodes (wld s) !! a = None)) (this :: roots) = true →
  context_pre (program_new this roots i) s.
Proof.
  intros Hi Hnd Hfr. split_and!; [done..|]. intros a Ha%list_elem_of_In.
  rewrite forallb_forall in Hfr. by eapply bool_decide_eq_true_1, Hfr.
Qed.

Ltac solve_call k := apply (pre_call _ _ _ k); [vm_compute; reflexivity|by intros []].
Ltac solve_new := apply pre_new; [try (by split); done|by apply (bool_decide_unpack _)|vm_compute; reflexivity].

Lemma demo_legal : legal 1 (demo_config true) (demo_news ++ demo_calls) demo_start.
Proof.
  unfold demo_news, demo_calls. cbn [legal app].
  do 3 (split; [solve_new|]).
  do 2 (split; [solve_call k_mutex|]).
  split; [solve_call k_semaphore|].
  do 2 (split; [solve_call k_shared_mutex|]).
  exact I.
Qed.

Lemma demo_program_run : context_run 1 (demo_config true) demo_start demo_program.
Proof. by apply (context_run_commands _ _ _ _ _ _ _ _ demo_start_ok), demo_legal. Qed.

Lemma context_type_safe_witness :
  ∃ r s', context_exec (St := any_impl) 1 (demo_config true) (do_emit 4 true) demo_program = Some (r, s') ∧
    (∃ ms' L' sps', context_ok 1 ms' L' (wld s') (obj s') sps') ∧
    ∀ p m, obj demo_program !! p = Some m → do_emit (St := any_impl) 4 true ≠ do_delete p →
      ∃ m', obj s' !! p = Some m' ∧ class_of m' = class_of m.
Proof.
  apply (context_type_safe 1 (demo_config true) [] demo_lists (wld demo_start) (obj demo_start) ∅).
  - exact demo_start_ok.
  - exact demo_program_run.
  - exact I.
Defined.

Lemma context_refines_witness :
  wp (context_exec 1 (demo_config true) (program_new 2 [3%positive] (i_mutex (-1)%Z))) demo_start (λ r s', ∃ ms' L' sps' w',
    context_step ∅ ∅ (wld demo_start) (program_new 2 [3%positive] (i_mutex (-1)%Z)) r sps' w' ∧
    same_but_nodes (wld s') w' ∧ context_ok 1 ms' L' (wld s') (obj s') sps').
Proof.
  apply (context_refines 1 (demo_config true) [] demo_lists (wld demo_start) (obj demo_start) ∅).
  - exact demo_start_ok.
  - solve_new.
Defined.

(** A mutex is made, then a semaphore; the mutex is locked, and an operation
    waits for the semaphore. *)
Definition demo_owned1 : machine (gmap addr any_impl) := run_commands (St := any_impl) 1 (demo_config true) (take 1 demo_news) demo_start.
Definition demo_owned2 : machine (gmap addr any_impl) := run_commands (St := any_impl) 1 (demo_config true) (take 2 demo_news) demo_start.
Definition demo_owned3 : machine (gmap addr any_impl) :=
  run_commands (St := any_impl) 1 (demo_config true) [program_call 2 (on_mutex cmd_try_lock)] demo_owned2.
Definition demo_owned4 : machine (gmap addr any_impl) :=
  run_commands (St := any_impl) 1 (demo_config true) [program_call 4 (on_semaphore (sem_async_acquire (ASIO := test_asio) 0 6))] demo_owned3.

Lemma demo_owners_run : owners_run 1 (demo_config true) 2 demo_owned1 1 demo_owned4.
Proof.
  assert (owners_run 1 (demo_config true) 2 demo_owned1 0 demo_owned2) as H2.
  { eapply (or_other _ _ _ _ _ _ (program_new 4 [5%positive] (i_semaphore (0, -1)%Z)) (Ok r_unit));
      [apply or_start|by intros []|solve_new|vm_compute; reflexivity]. }
  assert (owners_run 1 (demo_config true) 2 demo_owned1 1 demo_owned3) as H3.
  { eapply (or_mutex _ _ _ _ 0 _ _ cmd_try_lock (Ok (r_bool true)) demo_owned3 H2);
      [vm_compute; reflexivity|by split|vm_compute; reflexivity]. }
  eapply (or_other _ _ _ _ _ _ (program_call 4 (on_semaphore (sem_async_acquire (ASIO := test_asio) 0 6))) (Ok r_unit));
    [exact H3|done|solve_call k_semaphore|vm_compute; reflexivity].
Qed.

Lemma program_mutex_exclusion_witness :
  1 ≤ 1 ∧ ∃ m, obj demo_owned4 !! 2%positive = Some (a_mutex m) ∧ (1 = 1 ↔ locked_ m = true).
Proof.
  eapply (program_mutex_exclusion 1 (demo_config true) [] demo_lists (wld demo_start) (obj demo_start) ∅ 2 [3%positive] (-1)%Z
    (Ok r_unit) demo_owned1).
  - exact demo_start_ok.
  - solve_new.
  - vm_compute. reflexivity.
  - exact demo_owners_run.
Defined.
End witnesses.
