(* ===== verification/Shutdown.v ===== *)
(** * The end of an execution context

    [op_list_service::shutdown] ([detail/impl/service.ipp]): when a context is
    destroyed, asio calls it, and it calls the virtual [shutdown] of every
    member of the service. The objects of the program are a finite map from the
    address of their [service_member] to one of the five implementations; the
    loop leaves the members' own nodes as they are, linked to one another and to
    a local root that is gone, so that the rules for the members' [shutdown] are
    used with the list of the service broken ([framed]). *)
From S2P Require Import Prelude Machine Bilist Ops Service Impl.
From S2P Require Import Mutex Semaphore Barrier CondVar SharedMutex Component Objects.

(** ** The code *)

(** [member->service = nullptr]. *)
Definition detach (im : any_impl) : any_impl :=
  set_sm (ServiceMember (this_ (get_sm im)) None (mtx_ (get_sm im))) im.

(** The implementation objects of the program, by the address of their
    [service_member]: [static_cast<service_member *>(p)] is a lookup. *)
Abbreviation impls := (gmap addr any_impl).

Section code.
Context {ASIO : Asio}.

(** The loop: [nx] is a copy of the pointer [e.next_]. *)
Fixpoint shutdown_members (fuel : nat) (e nx : addr) : M impls unit :=
  match fuel with
  | O => ub
  | S n =>
      if bool_decide (nx = e) then mret tt
      else
        nnx ← read_next nx;
        on_object nx (modify_obj detach);;
        on_object nx any_shutdown;;
        write_next e nnx;;
        shutdown_members n e nnx
  end.

Definition op_list_service_shutdown (entries : addr) : M impls unit :=
  e ← stack_node;
  bilist_move_ctor e entries;;
  nx ← read_next e;
  fuel ← loop_fuel;
  shutdown_members fuel e nx;;
  free_node e.
End code.

(** ** The virtual call *)

Section member.
Context {ASIO : Asio}.
Implicit Types (L : gmap addr (list addr)) (w : world) (objs : impls) (im : any_impl).
Implicit Types (q : list (addr * op)) (qs : list (list (addr * op))).

(** The lists [rs] emptied. *)
Definition emptied_lines (rs : list addr) L : gmap addr (list addr) := foldl (λ L r, <[r := []]> L) L rs.

Lemma emptied_lines_ne rs L r : r ∉ rs → emptied_lines rs L !! r = L !! r.
Proof.
  revert L. induction rs as [|r0 rs IH]; intros L Hr; [done|]. apply not_elem_of_cons in Hr as [??].
  simpl. by rewrite IH, lookup_insert_ne by done.
Qed.
Lemma emptied_lines_in rs L r : r ∈ rs → emptied_lines rs L !! r = Some [].
Proof.
  revert L. induction rs as [|r0 rs IH]; intros L Hr; [by apply not_elem_of_nil in Hr|]. simpl.
  destruct (decide (r ∈ rs)) as [Hin|Hin]; [by apply IH|].
  apply elem_of_cons in Hr as [->|?]; [|done]. by rewrite emptied_lines_ne, lookup_insert_eq.
Qed.
Lemma emptied_lines_app rs1 rs2 L : emptied_lines (rs1 ++ rs2) L = emptied_lines rs2 (emptied_lines rs1 L).
Proof. unfold emptied_lines. by rewrite foldl_app. Qed.
Lemma listed_emptied_lines rs L a :
  (∀ r, r ∈ rs → is_Some (L !! r)) → listed (emptied_lines rs L) a → listed L a.
Proof.
  intros Hrs (r & xs & Hr & Ha). destruct (decide (r ∈ rs)) as [Hin|Hin].
  - rewrite emptied_lines_in in Hr by done. simplify_eq. apply list_elem_of_singleton in Ha as ->.
    destruct (Hrs r Hin). by eapply listed_root.
  - rewrite emptied_lines_ne in Hr by done. by exists r, xs.
Qed.

(** A list that is not emptied keeps its operations. *)
Lemma queue_other_lines w L rs qs r q N' :
  world_ok w L → Forall2 (queue w L) rs qs → queue w L r q → r ∉ rs →
  queue (with_nodes N' (abort_all (concat qs) w)) (emptied_lines rs L) r q.
Proof.
  intros Hok Hqs Hrq Hne. pose proof Hrq as [Hr Hq]. split; [by rewrite emptied_lines_ne|].
  rewrite Forall_forall in *. intros [p o] Hin. simpl. rewrite ops_abort_all_ne; [by apply (Hq (p, o))|].
  eapply lines_disjoint; [done..|]. apply list_elem_of_fmap. by exists (p, o).
Qed.

Lemma lines_detach im : lines (detach im) = lines im.
Proof. by destruct im. Qed.
Lemma this_detach im : this_ (get_sm (detach im)) = this_ (get_sm im).
Proof. by destruct im. Qed.
Lemma mtx_detach im : get_mtx (detach im) = get_mtx im.
Proof. by destruct im. Qed.

(** Every class's [shutdown] shuts the operations of its lists down, in order,
    and leaves the nodes that are in no list alone. *)
Lemma wp_any_shutdown im w L qs (Φ : res unit → machine any_impl → Prop) :
  world_ok w L → idle (get_mtx im) → Forall2 (queue w L) (lines im) qs → NoDup (lines im) →
  (∀ N', let w' := with_nodes N' (abort_all (concat qs) w) in
     world_ok w' (emptied_lines (lines im) L) → framed L (nodes w) N' → Φ (Ok tt) (Machine im w')) →
  wp any_shutdown (Machine im w) Φ.
Proof.
  intros Hok Hi Hqs Hnd HΦ. apply wp_bind, wp_get_obj. cbn [obj].
  destruct im as [m|m|m|m|m]; apply wp_lift_impl; simpl lines in *;
    apply Forall2_cons_inv_l in Hqs as (q & qs1 & Hq & Hqs & ->).
  1-4: apply Forall2_nil_inv_l in Hqs as ->;
    eapply (wp_line_shutdown _ m w L q); [done..|]; intros N' w' Hok' Hfr; cbn [obj wld];
    specialize (HΦ N'); rewrite concat1 in HΦ; by apply HΦ.
  apply Forall2_cons_inv_l in Hqs as (q2 & qs2 & Hq2 & Hqs & ->). apply Forall2_nil_inv_l in Hqs as ->.
  eapply (wp_shared_lines_shutdown m w L q q2); [done..| |].
  { apply NoDup_cons in Hnd as [Hne _]. set_solver. }
  intros N' w' Hok' Hfr. cbn [obj wld]. specialize (HΦ N'). rewrite concat2 in HΦ. by apply HΦ.
Qed.
End member.

(** ** The loop *)

Section loop.
Context {ASIO : Asio}.
Implicit Types (L : gmap addr (list addr)) (w : world) (objs : impls) (im : any_impl).
Implicit Types (mem : any_impl * list (list (addr * op))).

(** A member of the service, with the operations of its lists. *)
Record member_ok w L objs mem : Prop := {
  mo_object : objs !! this_ (get_sm mem.1) = Some mem.1;
  mo_idle : idle (get_mtx mem.1);
  mo_queues : Forall2 (queue w L) (lines mem.1) mem.2
}.

Definition member_addrs (mems : list (any_impl * list (list (addr * op)))) : list addr :=
  (λ mem, this_ (get_sm mem.1)) <$> mems.
Definition member_lines (mems : list (any_impl * list (list (addr * op)))) : list addr :=
  mems ≫= (λ mem, lines mem.1).
(** All the operations that wait, in the order in which they are shut down. *)
Definition member_ops (mems : list (any_impl * list (list (addr * op)))) : list (addr * op) :=
  mems ≫= (λ mem, concat mem.2).

(** The members once their [service] is null. *)
Definition detach_all (mems : list (any_impl * list (list (addr * op)))) objs : impls :=
  foldl (λ objs mem, <[this_ (get_sm mem.1) := detach mem.1]> objs) objs mems.

Lemma detach_all_ne mems objs a : a ∉ member_addrs mems → detach_all mems objs !! a = objs !! a.
Proof.
  revert objs. induction mems as [|mem mems IH]; intros objs Ha; [done|].
  apply not_elem_of_cons in Ha as [??]. simpl. by rewrite IH, lookup_insert_ne by done.
Qed.
Lemma detach_all_in mems objs mem :
  NoDup (member_addrs mems) → mem ∈ mems → detach_all mems objs !! this_ (get_sm mem.1) = Some (detach mem.1).
Proof.
  revert objs. induction mems as [|mem0 mems IH]; intros objs Hnd Hm; [by apply not_elem_of_nil in Hm|].
  apply NoDup_cons in Hnd as [Hne Hnd]. apply elem_of_cons in Hm as [->|Hm]; [|by apply IH].
  simpl. by rewrite detach_all_ne, lookup_insert_eq by done.
Qed.

(** The nodes [xs] are chained by their [next_] pointers to [e]. *)
Fixpoint chain (N : gmap addr bilist_node) (xs : list addr) (e : addr) : Prop :=
  match xs with
  | [] => True
  | x :: xs' => next_at N x = Some (hd e xs') ∧ chain N xs' e
  end.

Lemma chain_seg N p xs q : seg N p xs q → chain N xs q.
Proof.
  revert p. induction xs as [|x xs IH]; intros p; [done|]. intros (_ & _ & Hs).
  split; [by eapply seg_first|by eapply IH].
Qed.
Lemma chain_nodes N xs e a : chain N xs e → a ∈ xs → is_Some (N !! a).
Proof.
  induction xs as [|x xs IH]; intros Hc Ha; [by apply not_elem_of_nil in Ha|]. destruct Hc as [Hx Hc].
  apply elem_of_cons in Ha as [->|Ha]; [by eapply next_at_is_Some|by apply IH].
Qed.
Lemma chain_agree N N' xs e : (∀ a, a ∈ xs → N' !! a = N !! a) → chain N xs e → chain N' xs e.
Proof.
  induction xs as [|x xs IH]; intros Ha; [done|]. intros [Hx Hs]. split.
  - unfold next_at. rewrite Ha by (by left). done.
  - apply IH; [|done]. intros a ?. apply Ha. by right.
Qed.

(** Another member is untouched by the shutdown of [mem0]. *)
Lemma member_ok_step w L objs mem0 mem N' :
  world_ok w L → Forall2 (queue w L) (lines mem0.1) mem0.2 →
  (∀ r, r ∈ lines mem.1 → r ∉ lines mem0.1) → this_ (get_sm mem.1) ≠ this_ (get_sm mem0.1) →
  member_ok w L objs mem →
  member_ok (with_nodes N' (abort_all (concat mem0.2) w)) (emptied_lines (lines mem0.1) L)
    (<[this_ (get_sm mem0.1) := detach mem0.1]> objs) mem.
Proof.
  intros Hok H0 Hdisj Hne [Ho Hi Hq]. split; [by rewrite lookup_insert_ne|done|].
  apply Forall2_same_length_lookup in Hq as Hq'. destruct Hq' as [Hlen Hlook].
  apply Forall2_same_length_lookup. split; [done|]. intros i r q Hr Hqi.
  eapply queue_other_lines; [done..|by eapply Hlook|]. apply Hdisj. by eapply list_elem_of_lookup_2.
Qed.

(** A node in no list may point anywhere. *)
Lemma set_next_ne e x (N : gmap addr bilist_node) b : b ≠ e → set_next e x N !! b = N !! b.
Proof. intros ?. unfold set_next. by rewrite lookup_alter_ne. Qed.
Lemma world_ok_set_next w L e x : world_ok w L → ¬ listed L e → world_ok (with_nodes (set_next e x (nodes w)) w) L.
Proof.
  intros Hok He. apply world_ok_nodes; [exact Hok|..].
  - apply (heap_rep_agree (nodes w)); [|apply Hok]. intros b Hb. unfold next_at, prev_at.
    rewrite set_next_ne; [done|]. by intros ->.
  - intros b Hb. apply is_Some_set_next. by apply (wo_ops _ _ Hok).
Qed.

Lemma listed_emptied_queues w L rs qs b :
  Forall2 (queue w L) rs qs → listed (emptied_lines rs L) b → listed L b.
Proof.
  intros Hq. apply listed_emptied_lines. intros r Hr.
  destruct (lines_lookup _ _ _ _ _ Hq Hr) as (q & _ & E & _). by rewrite E.
Qed.

(** The members are shut down in the order of the list, which is followed
    although the root [e] no longer belongs to it. *)
Lemma wp_shutdown_members mems fuel e objs w L (Φ : res unit → machine impls → Prop) :
  world_ok w L → is_Some (nodes w !! e) → ¬ listed L e → e ∉ member_addrs mems →
  chain (nodes w) (member_addrs mems) e → (∀ a, a ∈ member_addrs mems → ¬ listed L a) →
  NoDup (member_addrs mems) → NoDup (member_lines mems) → Forall (member_ok w L objs) mems →
  length mems < fuel →
  (∀ N', let w' := with_nodes N' (abort_all (member_ops mems) w) in
     world_ok w' (emptied_lines (member_lines mems) L) → is_Some (N' !! e) →
     (∀ a, is_Some (nodes w !! a) → ¬ listed L a → is_Some (N' !! a)) →
     Φ (Ok tt) (Machine (detach_all mems objs) w')) →
  wp (shutdown_members fuel e (hd e (member_addrs mems))) (Machine objs w) Φ.
Proof.
  revert fuel objs w L. induction mems as [|mem mems IH];
    intros [|fuel] objs w L Hok He Hel Hem Hch Hun Hnd Hndl Hmem Hf HΦ; simpl in Hf; try lia; cbn [shutdown_members].
  { rewrite bool_decide_eq_true_2 by done. apply wp_ret. specialize (HΦ (nodes w)).
    unfold abort_all in HΦ. simpl in HΦ. rewrite with_nodes_id in HΦ. by apply HΦ. }
  simpl in Hem, Hch, Hun, Hnd. apply not_elem_of_cons in Hem as [Hne Hem]. destruct Hch as [Hnx Hch].
  apply NoDup_cons in Hnd as [Hnin Hnd]. apply Forall_cons in Hmem as [[Ho Hi Hq] Hmem].
  unfold member_lines in Hndl. simpl in Hndl. apply NoDup_app in Hndl as (Hndl0 & Hdisj & Hndl).
  rewrite bool_decide_eq_false_2 by (simpl; congruence). simpl.
  set (a := this_ (get_sm mem.1)) in *.
  apply wp_bind. eapply wp_read_next; [exact Hnx|].
  apply wp_bind. eapply wp_on_object; [exact Ho|]. apply wp_modify_obj. cbn [obj wld].
  apply wp_bind. eapply wp_on_object; [by rewrite lookup_insert_eq|].
  eapply (wp_any_shutdown (detach mem.1)); [done|by rewrite mtx_detach|..].
  { rewrite lines_detach. exact Hq. }
  { by rewrite lines_detach. }
  rewrite lines_detach. intros N1 w1 Hok1 Hfr. cbn [obj wld]. rewrite insert_insert_eq.
  assert (∀ b, is_Some (nodes w !! b) → ¬ listed L b → is_Some (N1 !! b)) as Hkeep.
  { intros b Hb Hl. by rewrite Hfr. }
  pose proof (λ b, listed_emptied_queues _ _ _ _ b Hq) as Hsub.
  assert (is_Some (N1 !! e)) as He1 by auto.
  apply wp_bind, wp_write_next; [exact He1|]. cbn [obj wld].
  set (nnx := hd e _). set (N2 := set_next e nnx (nodes w1)).
  eapply (IH fuel _ (with_nodes N2 w1)).
  - apply world_ok_set_next; [exact Hok1|]. by intros ?%Hsub.
  - by apply is_Some_set_next.
  - by intros Hl%Hsub.
  - done.
  - eapply chain_agree; [|exact Hch]. intros b Hb. simpl. unfold N2. rewrite set_next_ne by (intros ->; done).
    apply Hfr; [by eapply chain_nodes|]. apply Hun. by right.
  - intros b Hb Hl%Hsub. revert Hl. apply Hun. by right.
  - done.
  - done.
  - apply Forall_forall. intros mem' Hm. rewrite Forall_forall in Hmem.
    apply (member_ok_step w L objs mem mem'); [done|done| |by intros E; apply Hnin, list_elem_of_fmap; exists mem'|by apply Hmem].
    intros r Hr Hr0. apply (Hdisj r Hr0). apply list_elem_of_bind. by exists mem'.
  - lia.
  - intros N' w' Hok' He' Hk. unfold w', member_ops, member_lines, w1 in *. simpl.
    rewrite !abort_all_with_nodes, <- abort_all_app in *. rewrite <- emptied_lines_app in Hok'.
    apply (HΦ N'); [done..|]. intros b Hb Hl. apply Hk; [|by intros ?%Hsub]. simpl.
    apply is_Some_set_next. by apply Hkeep.
Qed.
End loop.

(** ** The service *)

Section service.
Context {ASIO : Asio}.
Implicit Types (L : gmap addr (list addr)) (w : world) (objs : impls).

(** The members of a service whose list has been emptied are in no list. *)
Lemma members_unlisted w L svc ms a :
  world_ok w L → L !! svc = Some ms → a ∈ ms → ¬ listed (<[svc := []]> L) a.
Proof.
  intros Hok Hms Ha (r & xs & Hr & Hin).
  apply lookup_insert_Some in Hr as [[<- <-]|[Hne Hr]].
  - apply list_elem_of_singleton in Hin as ->.
    by apply (heap_rep_NoDup _ _ _ _ (wo_heap _ _ Hok)), NoDup_cons in Hms as [? _].
  - apply Hne. eapply (hr_disjoint _ _ (wo_heap _ _ Hok) svc r _ _ a); [done..|by right|done].
Qed.

(** The list of the service is taken apart: the members are left in no list. *)
Lemma world_ok_members_gone w L svc ms N' :
  world_ok w L → service_ok w L svc ms → heap_rep N' (<[svc := []]> L) →
  (∀ a, is_Some (nodes w !! a) → is_Some (N' !! a)) → world_ok (with_nodes N' w) (<[svc := []]> L).
Proof.
  intros Hok [Hms _ Hpl] HN' Hdom. apply (world_ok_relist w L); [done..| | |].
  - intros a Ha. by apply Hdom, Hok.
  - intros r Hr. eapply is_Some_insert_root in Hr; [|done]. by apply Hok.
  - intros a Ha. split.
    + intros [->%list_elem_of_singleton|?]%listed_insert; [by eapply listed_root|done].
    + intros (r & xs & Hr & Hin). destruct (decide (r = svc)) as [->|Hne].
      * simplify_eq. apply elem_of_cons in Hin as [->|Hin].
        -- exists svc, []. split; [by rewrite lookup_insert_eq|by left].
        -- rewrite Forall_forall in Hpl. rewrite (Hpl a Hin) in Ha. by destruct Ha.
      * exists r, xs. by rewrite lookup_insert_ne.
Qed.

Lemma member_ok_gone w L svc objs mem N' :
  svc ∉ lines mem.1 → member_ok w L objs mem → member_ok (with_nodes N' w) (<[svc := []]> L) objs mem.
Proof.
  intros Hne [Ho Hi Hq]. split; [done..|].
  apply Forall2_same_length_lookup in Hq as [Hlen Hlook].
  apply Forall2_same_length_lookup. split; [done|]. intros i r q Hr Hqi.
  destruct (Hlook i r q Hr Hqi) as [HLr Ho']. split; [|done]. rewrite lookup_insert_ne; [done|].
  intros <-. apply Hne. by eapply list_elem_of_lookup_2.
Qed.

Lemma member_ops_listed w L objs mems p svc :
  Forall (member_ok w L objs) mems → svc ∉ member_lines mems → p ∈ (member_ops mems).*1 →
  listed (<[svc := []]> L) p.
Proof.
  intros Hmem Hsvc ([p' o] & -> & (mem & Hp & Hm)%list_elem_of_bind)%list_elem_of_fmap.
  rewrite Forall_forall in Hmem. destruct (Hmem mem Hm) as [_ _ Hq].
  apply list_elem_of_In, in_concat in Hp as (q & Hqin & Hp). apply list_elem_of_In in Hqin, Hp.
  destruct (lines_queue _ _ _ _ _ Hq Hqin) as (r & Hr & HLr & _). exists r, q.*1. split.
  - rewrite lookup_insert_ne; [done|]. intros <-. apply Hsvc, list_elem_of_bind. by exists mem.
  - right. apply list_elem_of_fmap. by exists (p', o).
Qed.

(** [op_list_service::shutdown]: every member loses its service and is shut
    down, in the order of registration. *)
Lemma wp_op_list_service_shutdown svc mems objs w L (Φ : res unit → machine impls → Prop) :
  world_ok w L → service_ok w L svc (member_addrs mems) → Forall (member_ok w L objs) mems →
  NoDup (svc :: member_lines mems) →
  (∀ N', let w' := with_nodes N' (abort_all (member_ops mems) w) in
     world_ok w' (emptied_lines (member_lines mems) (<[svc := []]> L)) →
     (∀ a, a ∈ member_addrs mems → is_Some (N' !! a)) →
     Φ (Ok tt) (Machine (detach_all mems objs) w')) →
  wp (op_list_service_shutdown svc) (Machine objs w) Φ.
Proof.
  intros Hok Hs Hmem [Hsvc Hndl]%NoDup_cons HΦ. pose proof (so_members _ _ _ _ Hs) as Hms.
  set (ms := member_addrs mems) in *.
  pose proof (heap_rep_NoDup _ _ _ _ (wo_heap _ _ Hok) Hms) as [_ Hnd]%NoDup_cons.
  apply wp_bind, wp_stack_node. intros e He. simpl in He.
  pose proof (unlisted _ _ _ (wo_heap _ _ Hok) He) as Hun.
  apply wp_bind. eapply wp_bilist_move_ctor; [apply Hok|exact Hms|exact Hun|]. intros N1 HL1 Hdom1 _. cbn [obj wld].
  pose proof (hr_dlist _ _ HL1 e ms ltac:(by rewrite lookup_insert_eq)) as Hd.
  destruct Hd as [[Hem _]%NoDup_cons Hseg].
  assert (L !! e = None) as HLe by (destruct (L !! e) eqn:E; [destruct Hun; by eapply listed_root|done]).
  assert (e ≠ svc) as Hes by congruence.
  assert (heap_rep N1 (<[svc := []]> L)) as HL2.
  { apply (heap_rep_delete _ _ e) in HL1. by rewrite delete_insert_id in HL1 by (by rewrite lookup_insert_ne). }
  assert (world_ok (with_nodes N1 w) (<[svc := []]> L)) as Hok1.
  { eapply world_ok_members_gone; [done..|]. intros a Ha. apply elem_of_dom. rewrite Hdom1.
    apply elem_of_union_r. by apply elem_of_dom. }
  assert (¬ listed (<[svc := []]> L) e) as Hel.
  { intros [->%list_elem_of_singleton|?]%listed_insert; [done|]. by apply Hun. }
  apply wp_bind. eapply wp_read_next; [by eapply seg_first|]. apply wp_bind, wp_loop_fuel.
  apply wp_bind. eapply (wp_shutdown_members mems _ e objs (with_nodes N1 w)); try done.
  - simpl. apply elem_of_dom. rewrite Hdom1. set_solver.
  - by eapply chain_seg.
  - intros a. by eapply members_unlisted.
  - rewrite Forall_forall in Hmem |- *. intros mem Hin. apply member_ok_gone; [|by apply Hmem].
    intros Hr. apply Hsvc, list_elem_of_bind. by exists mem.
  - change (length mems) with (length mems). rewrite <- (length_fmap (λ mem, this_ (get_sm mem.1)) mems).
    change (length (member_addrs mems) < S (size N1)). fold ms.
    assert (length ms ≤ size N1); [|lia]. apply NoDup_length_dom; [done|].
    intros a Ha. eapply seg_nodes; [exact Hseg|]. set_solver.
  - intros N2 w2 Hok2 He2 Hk. apply wp_free_node; [exact He2|]. cbn [obj wld]. unfold w2 in *.
    rewrite abort_all_with_nodes in *. apply (HΦ (delete e N2)).
    + apply (world_ok_nodes _ _ (delete e N2)) in Hok2; [exact Hok2|..].
      * apply heap_rep_free; [apply Hok2|]. intros Hl. apply Hel. revert Hl. apply listed_emptied_lines.
        intros r (mem & Hr & Hm)%list_elem_of_bind. rewrite Forall_forall in Hmem.
        destruct (lines_lookup _ _ _ _ _ (mo_queues _ _ _ _ (Hmem mem Hm)) Hr) as (q & _ & E & _).
        apply lookup_insert_is_Some'. right. by rewrite E.
      * intros a Ha. rewrite lookup_delete_ne; [by apply (wo_ops _ _ Hok2)|]. intros <-.
        apply Hel, (member_ops_listed w L objs mems); [done|done|]. simpl in Ha.
        apply dec_stable. intros Hin. rewrite ops_abort_all_ne in Ha by done.
        rewrite (fresh_op _ _ _ Hok He) in Ha. by destruct Ha.
    + intros a Ha. rewrite lookup_delete_ne by (intros <-; done).
      apply Hk; [|by eapply members_unlisted]. simpl. eapply seg_nodes; [exact Hseg|]. set_solver.
Qed.
End service.
