(* ===== verification/ShutdownSpec.v ===== *)
(** * The end of a program

    [op_list_service::shutdown] in a context with objects of all five classes:
    every operation that waits is shut down, in order, and afterwards the objects
    can still be destroyed, although their list nodes point to members that are
    gone. *)
From S2P Require Import Prelude Machine Bilist Ops Service Impl.
From S2P Require Import Mutex Semaphore Barrier CondVar SharedMutex Component Objects Context ContextSpec Shutdown.
From S2P Require Import MutexSpec SemaphoreSpec SharedMutexSpec.

(** ** Objects without a service *)

Section detached.
Context {ASIO : Asio}.
Implicit Types (L : gmap addr (list addr)) (w : world) (objs : impls) (im : any_impl).

(** [~service_member()] when [service] is null: only the node goes. *)
Lemma wp_service_member_dtor_detached `{!Member St} (m : St) w L (Φ : res unit → machine St → Prop) :
  world_ok w L → idle (get_mtx m) → service (get_sm m) = None →
  is_Some (nodes w !! this_ (get_sm m)) → ¬ listed L (this_ (get_sm m)) → ops w !! this_ (get_sm m) = None →
  (let w' := with_nodes (delete (this_ (get_sm m)) (nodes w)) w in world_ok w' L → Φ (Ok tt) (Machine m w')) →
  wp service_member_dtor (Machine m w) Φ.
Proof.
  intros Hok Hi Hs Hn Hl Ho HΦ. apply wp_bind. eapply wp_with_lock; [done..|].
  apply wp_bind, wp_get_obj. cbn [obj]. unfold set_mtx at 1 2. rewrite get_set_sm. cbn [service this_]. rewrite Hs.
  apply wp_ret. cbn [obj wld]. rewrite get_set_mtx, set_set_mtx, set_get_mtx. split; [done|].
  apply wp_bind, wp_get_obj. cbn [obj]. apply wp_free_node; [done|]. apply HΦ. cbn [obj wld].
  apply world_ok_nodes; [done|by apply heap_rep_free; [apply Hok|]|].
  intros a Ha. rewrite lookup_delete_ne; [by apply Hok|]. intros <-. rewrite Ho in Ha. by destruct Ha.
Qed.

(** An object whose service is gone, at [p]: nobody waits in its lists, and its
    node is in no list. *)
Record detached_object L w (p : addr) im : Prop := {
  do_this : this_ (get_sm im) = p;
  do_service : service (get_sm im) = None;
  do_idle : idle (get_mtx im);
  do_node : is_Some (nodes w !! p);
  do_unlisted : ¬ listed L p;
  do_plain : ops w !! p = None;
  do_nodup : NoDup (lines im);
  do_lines r : r ∈ lines im → L !! r = Some []
}.

(** What the destructor of such an object leaves. *)
Definition forgotten L w p im L' N' : Prop :=
  world_ok (with_nodes N' w) L' ∧ (∀ a, a ∉ p :: lines im → N' !! a = nodes w !! a) ∧
  same_lists (lines im) L L' ∧ ∀ a, listed L' a → listed L a.

(** One list and the member. *)
Lemma wp_line_dtor_detached `{!Member St} (m : St) r w L (Φ : res unit → machine St → Prop) :
  world_ok w L → idle (get_mtx m) → service (get_sm m) = None →
  is_Some (nodes w !! this_ (get_sm m)) → ¬ listed L (this_ (get_sm m)) → ops w !! this_ (get_sm m) = None →
  L !! r = Some [] →
  (let w' := with_nodes (delete (this_ (get_sm m)) (delete r (nodes w))) w in
     world_ok w' (delete r L) → Φ (Ok tt) (Machine m w')) →
  wp (holder_dtor r;; service_member_dtor) (Machine m w) Φ.
Proof.
  intros Hok Hi Hs Hn Hl Ho Hr HΦ. apply wp_bind. eapply wp_holder_dtor_nil; [done..|]. intros N1 Hok1.
  apply wp_service_member_dtor_detached with (L := delete r L); [done|done|done| | |done|done].
  - simpl. unfold N1. rewrite lookup_delete_ne; [done|]. intros E. apply Hl. rewrite <- E. by eapply listed_root.
  - by intros ?%listed_delete.
Qed.

Lemma wp_any_dtor_detached p im w L (Φ : res unit → machine any_impl → Prop) :
  world_ok w L → detached_object L w p im →
  (∀ N' L', forgotten L w p im L' N' → Φ (Ok tt) (Machine im (with_nodes N' w))) →
  wp any_dtor (Machine im w) Φ.
Proof.
  intros Hok [Ht Hs Hi Hn Hl Ho Hnd Hr] HΦ. subst p. apply wp_bind, wp_get_obj. cbn [obj].
  destruct im as [m|m|m|m|m]; apply wp_lift_impl, wp_bind, wp_get_obj; cbn [obj]; simpl lines in *.
  1-4: eapply wp_line_dtor_detached; [done..|apply Hr; by left|]; intros w' Hok'; cbn [obj wld]; eapply HΦ;
    split; [exact Hok'|]; split_and!; [|by intros r' Hr'; rewrite lookup_delete_ne by set_solver|by intros a ?%listed_delete];
    intros a Ha; rewrite !lookup_delete_ne by set_solver; done.
  apply wp_bind. eapply wp_holder_dtor_nil; [done|apply Hr; by right; left|]. intros N1 Hok1.
  assert (shared_waiters_ m ≠ sh_waiters m) as Hne by (apply NoDup_cons in Hnd as [? _]; set_solver).
  eapply wp_line_dtor_detached; [done|done|done| | |done| |].
  - simpl. unfold N1. rewrite lookup_delete_ne; [done|]. intros E. apply Hl. simpl. rewrite <- E.
    eapply listed_root, Hr. by right; left.
  - by intros ?%listed_delete.
  - rewrite lookup_delete_ne by done. apply Hr. by left.
  - intros w' Hok'. cbn [obj wld]. eapply HΦ. split; [exact Hok'|]. split_and!.
    + intros a Ha. simpl. unfold N1. rewrite !lookup_delete_ne by set_solver. done.
    + intros r' Hr'. rewrite !lookup_delete_ne by set_solver. done.
    + by intros a ?%listed_delete%listed_delete.
Qed.
End detached.

(** ** Programs without a service *)

Section program.
Context {ASIO : Asio}.
Implicit Types (L : gmap addr (list addr)) (w : world) (objs : impls) (im : any_impl).
Implicit Types (sps : gmap addr any_spec) (ms : list addr).

Record detached_ok L w objs : Prop := {
  dt_world : world_ok w L;
  dt_objects p im : objs !! p = Some im → detached_object L w p im;
  dt_disjoint p1 p2 m1 m2 r :
    objs !! p1 = Some m1 → objs !! p2 = Some m2 → r ∈ lines m1 → r ∈ lines m2 → p1 = p2
}.

(** The objects are destroyed one after the other. *)
Fixpoint destroy_all (ps : list addr) : M impls unit :=
  match ps with
  | [] => mret tt
  | p :: ps => context_delete (St := any_impl) p;; destroy_all ps
  end.

(** Destroying one object leaves the others destructible. *)
Lemma detached_ok_delete L w objs p im L' N' :
  detached_ok L w objs → objs !! p = Some im → forgotten L w p im L' N' →
  detached_ok L' (with_nodes N' w) (delete p objs).
Proof.
  intros [Hok Hobjs Hdis] Hp (Hok' & HN & HL & Hsub). split; [done| |].
  - intros p2 im2 [Hne Hp2]%lookup_delete_Some. destruct (Hobjs _ _ Hp2) as [Ht Hs Hi Hn Hl Ho Hnd Hr].
    split; try done.
    + simpl. rewrite HN; [done|]. intros [->|Hin]%elem_of_cons; [done|]. apply Hl. eapply listed_root.
      by apply (do_lines _ _ _ _ (Hobjs _ _ Hp)).
    + by intros ?%Hsub.
    + intros r Hin. rewrite HL; [by apply Hr|]. intros Hin'. by apply Hne, (Hdis p p2 im im2 r).
  - intros p1 p2 m1 m2 r [_ ?]%lookup_delete_Some [_ ?]%lookup_delete_Some. by eapply Hdis.
Qed.

Lemma wp_destroy_all ps L w objs :
  detached_ok L w objs → NoDup ps → (∀ p, p ∈ ps → is_Some (objs !! p)) →
  wp (destroy_all ps) (Machine objs w) (λ r s', r = Ok tt ∧ same_but_nodes (wld s') w ∧
    ∀ p, obj s' !! p = if decide (p ∈ ps) then None else objs !! p).
Proof.
  revert L w objs. induction ps as [|p ps IH]; intros L w objs Hdt Hnd Hin.
  { apply wp_ret. split_and!; [done..|]. intros p. by rewrite decide_False by set_solver. }
  apply NoDup_cons in Hnd as [Hp Hnd]. destruct (Hin p ltac:(by left)) as [im Him].
  apply wp_bind, wp_bind. eapply wp_on_object; [exact Him|].
  apply (wp_any_dtor_detached p im w L); [apply Hdt|by apply Hdt|]. intros N' L' Hfg. cbn [obj wld].
  apply wp_bind, wp_modify_obj, wp_ret. cbn [obj wld]. rewrite delete_insert_eq.
  eapply wp_mono; [apply (IH L' (with_nodes N' w)); [by eapply detached_ok_delete|done|]|].
  - intros p2 Hp2. rewrite lookup_delete_ne by (intros <-; done). apply Hin. by right.
  - intros r s' (-> & Hs & Ho). split_and!; [done|by etransitivity; [exact Hs|exists N']|].
    intros p2. rewrite Ho. destruct (decide (p2 ∈ ps)); [by rewrite decide_True by (by right)|].
    destruct (decide (p2 = p)) as [->|]; [by rewrite lookup_delete_eq, decide_True by (by left)|].
    rewrite lookup_delete_ne by done. by rewrite decide_False by set_solver.
Qed.

(** ** The members of a context *)

(** The objects at [ms] with the operations in their lists. *)
Fixpoint members objs sps ms : list (any_impl * list (list (addr * op))) :=
  match ms with
  | [] => []
  | p :: ms =>
      match objs !! p, sps !! p with
      | Some im, Some sp => (im, any_queues sp) :: members objs sps ms
      | _, _ => members objs sps ms
      end
  end.

(** All the operations that wait for the objects at [ms], in order. *)
Definition waiting sps ms : list (addr * op) :=
  ms ≫= (λ p, match sps !! p with Some sp => concat (any_queues sp) | None => [] end).

Lemma members_in objs sps ms p im sp :
  p ∈ ms → objs !! p = Some im → sps !! p = Some sp → (im, any_queues sp) ∈ members objs sps ms.
Proof.
  intros Hp Him Hsp. induction ms as [|p0 ms IH]; [by apply not_elem_of_nil in Hp|]. cbn [members].
  apply elem_of_cons in Hp as [<-|Hp]; [rewrite Him, Hsp; by left|].
  destruct (objs !! p0), (sps !! p0); try right; by apply IH.
Qed.

Lemma context_members svc ms0 L w objs sps ms :
  context_ok svc ms0 L w objs sps → NoDup ms → (∀ p, p ∈ ms → is_Some (objs !! p)) →
  let mems := members objs sps ms in
  member_addrs mems = ms ∧ Forall (member_ok w L objs) mems ∧ member_ops mems = waiting sps ms ∧
  NoDup (member_lines mems) ∧ ∀ r, r ∈ member_lines mems → ∃ p im, p ∈ ms ∧ objs !! p = Some im ∧ r ∈ lines im.
Proof.
  intros Hcx. induction ms as [|p ms IH]; intros Hnd Hin.
  { split_and!; [done|constructor|done|constructor|]. intros r Hr. by apply not_elem_of_nil in Hr. }
  apply NoDup_cons in Hnd as [Hp Hnd]. destruct (Hin p ltac:(by left)) as [im Him].
  destruct (cx_objects _ _ _ _ _ _ Hcx _ _ Him) as (sp & Hsp & [Ht Hs Hr]).
  destruct IH as (E & Hf & Eo & Hndl & Hl); [done|by intros p' ?; apply Hin; right|].
  cbn [members]. rewrite Him. simpl in Hsp. rewrite Hsp.
  unfold member_addrs, member_ops, member_lines, waiting in *. simpl. rewrite Hsp. split_and!.
  - f_equal; [exact Ht|exact E].
  - apply Forall_cons. split; [|done]. split; [simpl in *; by rewrite Ht|apply (co_impl _ _ _ Hr)|exact (co_queues _ _ _ Hr)].
  - f_equal. exact Eo.
  - apply NoDup_app. split_and!; [exact (co_nodup _ _ _ Hr)| |done].
    intros r Hr1 (p2 & im2 & Hp2 & Him2 & Hr2)%Hl.
    assert (p = p2) as <- by (eapply (cx_disjoint _ _ _ _ _ _ Hcx); [exact Him|exact Him2|exact Hr1|exact Hr2]). done.
  - intros r [Hr1|(p2 & im2 & ? & ? & ?)%Hl]%elem_of_app; 
      [exists p, im; split_and!; [by left|done|done]|exists p2, im2; split_and!; [by right|done|done]].
Qed.
End program.

(** ** Properties *)

Section properties.
Context {ASIO : Asio}.
Implicit Types (L : gmap addr (list addr)) (w : world) (objs : impls) (sps : gmap addr any_spec).

Lemma service_detach im : service (get_sm (detach im)) = None.
Proof. by destruct im. Qed.

(** After the shutdown every object is detached. *)
Lemma detached_ok_shutdown svc ms L w objs sps N' :
  context_ok svc ms L w objs sps → let mems := members objs sps ms in
  let w' := with_nodes N' (abort_all (waiting sps ms) w) in
  let L' := emptied_lines (member_lines mems) (<[svc := []]> L) in
  world_ok w' L' → (∀ a, a ∈ ms → is_Some (N' !! a)) →
  detached_ok L' w' (detach_all mems objs) ∧ ∀ p, detach_all mems objs !! p = detach <$> objs !! p.
Proof.
  intros Hcx mems w' L' Hok' HN.
  pose proof (so_members _ _ _ _ (cx_service _ _ _ _ _ _ Hcx)) as Hms.
  pose proof (heap_rep_NoDup _ _ _ _ (wo_heap _ _ (cx_world _ _ _ _ _ _ Hcx)) Hms) as [_ Hnd]%NoDup_cons.
  destruct (context_members svc ms L w objs sps ms Hcx Hnd) as (Ea & Hf & Eo & Hndl & Hl).
  { intros p. apply (cx_members _ _ _ _ _ _ Hcx). }
  fold mems in Ea, Hf, Eo, Hndl, Hl.
  assert (∀ p, detach_all mems objs !! p = detach <$> objs !! p) as Hobjs.
  { intros p. destruct (decide (p ∈ ms)) as [Hp|Hp].
    - rewrite <- Ea in Hp. apply list_elem_of_fmap in Hp as (mem & -> & Hmem).
      rewrite detach_all_in by (by rewrite ?Ea). rewrite Forall_forall in Hf. by rewrite (mo_object _ _ _ _ (Hf mem Hmem)).
    - rewrite detach_all_ne by (by rewrite Ea). destruct (objs !! p) eqn:E; [|done]. destruct Hp.
      by apply (cx_members _ _ _ _ _ _ Hcx). }
  assert (svc ∉ member_lines mems) as Hsvc.
  { intros (p & im & _ & Him & Hr)%Hl. exact (cx_svc _ _ _ _ _ _ Hcx _ _ Him Hr). }
  assert (∀ a, a ∈ ms → ¬ listed (<[svc := []]> L) a) as Hun.
  { intros a. by eapply members_unlisted; [apply Hcx|]. }
  assert (∀ r, r ∈ member_lines mems → is_Some ((<[svc := []]> L) !! r)) as Hlook.
  { intros r (p & im & _ & Him & Hin)%Hl. destruct (cx_objects _ _ _ _ _ _ Hcx _ _ Him) as (sp & _ & [_ _ Hr]).
    destruct (lines_lookup _ _ _ _ _ (co_queues _ _ _ Hr) Hin) as (q & _ & E & _).
    apply lookup_insert_is_Some'. right. by rewrite E. }
  split; [|done]. split; [done| |].
  - intros p im' Hp. rewrite Hobjs in Hp. apply fmap_Some in Hp as (im & Him & ->).
    assert (p ∈ ms) as Hpms by (by apply (cx_members _ _ _ _ _ _ Hcx); rewrite Him).
    destruct (cx_objects _ _ _ _ _ _ Hcx _ _ Him) as (sp & Hsp & [Ht Hs Hr]).
    assert (∀ r, r ∈ lines im → r ∈ member_lines mems) as Hsub.
    { intros r Hin. apply list_elem_of_bind. exists (im, any_queues sp). split; [exact Hin|].
      exact (members_in objs sps ms p im sp Hpms Him Hsp). }
    split.
    + by rewrite this_detach.
    + apply service_detach.
    + rewrite mtx_detach. apply (co_impl _ _ _ Hr).
    + by apply HN.
    + intros Hli. apply Hun with p; [done|]. revert Hli. apply listed_emptied_lines. exact Hlook.
    + simpl. rewrite ops_abort_all_ne.
      * pose proof (so_plain _ _ _ _ (cx_service _ _ _ _ _ _ Hcx)) as Hpl. rewrite Forall_forall in Hpl. by apply Hpl.
      * rewrite <- Eo. intros Hin. apply (Hun p Hpms). by eapply member_ops_listed.
    + rewrite lines_detach. exact (co_nodup _ _ _ Hr).
    + intros r Hin. rewrite lines_detach in Hin. by apply emptied_lines_in, Hsub.
  - intros p1 p2 m1 m2 r H1 H2. rewrite Hobjs in H1, H2.
    apply fmap_Some in H1 as (im1 & H1 & ->). apply fmap_Some in H2 as (im2 & H2 & ->).
    rewrite !lines_detach. by eapply (cx_disjoint _ _ _ _ _ _ Hcx).
Qed.

(** C7: the end of a context. [op_list_service::shutdown] succeeds in every state
    a program reaches: all operations that wait for any of its objects are shut
    down, object by object in the order of registration, and nothing is posted;
    every object loses its service and keeps the rest of its state; and the
    objects can then be destroyed in any order, which tells nobody anything. *)
Theorem context_shutdown svc ms L w objs sps :
  context_ok svc ms L w objs sps →
  wp (op_list_service_shutdown svc) (Machine objs w) (λ r s', r = Ok tt ∧
    events_since w (wld s') = (waiting sps ms ≫= abortion) ∧
    (∀ g h ec, ev_post g h ec ∉ events_since w (wld s')) ∧
    (∀ p, obj s' !! p = detach <$> objs !! p) ∧
    ∀ ps, (∀ p, p ∈ ps ↔ is_Some (objs !! p)) → NoDup ps →
      wp (destroy_all ps) s' (λ r2 s2, r2 = Ok tt ∧ (∀ p, obj s2 !! p = None) ∧ same_but_nodes (wld s2) (wld s'))).
Proof.
  intros Hcx. pose proof (cx_world _ _ _ _ _ _ Hcx) as Hok. pose proof (cx_service _ _ _ _ _ _ Hcx) as Hs.
  pose proof (heap_rep_NoDup _ _ _ _ (wo_heap _ _ Hok) (so_members _ _ _ _ Hs)) as [_ Hnd]%NoDup_cons.
  destruct (context_members svc ms L w objs sps ms Hcx Hnd) as (Ea & Hf & Eo & Hndl & Hl).
  { intros p. apply (cx_members _ _ _ _ _ _ Hcx). }
  apply (wp_op_list_service_shutdown svc (members objs sps ms) objs w L); [done|by rewrite Ea|done| |].
  { apply NoDup_cons. split; [|done]. intros (p & im & _ & Him & Hr)%Hl.
    exact (cx_svc _ _ _ _ _ _ Hcx _ _ Him Hr). }
  rewrite Ea, Eo. intros N' w' Hok' HN. cbn [obj wld].
  destruct (detached_ok_shutdown svc ms L w objs sps N' Hcx Hok' HN) as [Hdt Hobjs].
  assert (events_since w w' = waiting sps ms ≫= abortion) as Hev by (apply events_since_app, trace_abort_all).
  split_and!; [done|exact Hev| |done|].
  - rewrite Hev. intros g h ec Hin. apply list_elem_of_bind in Hin as ([p []] & Hin & _); set_solver.
  - intros ps Hps Hndp. eapply wp_mono; [eapply (wp_destroy_all ps); [exact Hdt|done|]|].
    + intros p Hp%Hps. rewrite Hobjs. by apply fmap_is_Some.
    + intros r s2 (-> & Hs2 & Ho). split_and!; [done| |exact Hs2]. intros p. rewrite Ho.
      case_decide as Hp; [done|]. rewrite Hobjs. destruct (objs !! p) eqn:E; [|done].
      destruct Hp. apply Hps. by rewrite E.
Qed.
End properties.

(** ** The properties at work *)

Section witnesses.
#[local] Existing Instance test_asio.

Lemma context_shutdown_witness : ∃ ms sps,
  wp (op_list_service_shutdown 1) (Machine (obj demo_program) (wld demo_program)) (λ r s', r = Ok tt ∧
    events_since (wld demo_program) (wld s') = (waiting sps ms ≫= abortion) ∧
    (∀ g h ec, ev_post g h ec ∉ events_since (wld demo_program) (wld s')) ∧
    (∀ p, obj s' !! p = detach <$> obj demo_program !! p) ∧
    ∀ ps, (∀ p, p ∈ ps ↔ is_Some (obj demo_program !! p)) → NoDup ps →
      wp (destroy_all ps) s' (λ r2 s2, r2 = Ok tt ∧ (∀ p, obj s2 !! p = None) ∧ same_but_nodes (wld s2) (wld s'))).
Proof.
  destruct (context_run_ok _ _ _ _ _ _ _ _ demo_start_ok demo_program_run) as (ms & L & sps & Hcx).
  exists ms, sps. exact (context_shutdown 1 ms L (wld demo_program) (obj demo_program) sps Hcx).
Defined.

(** The operations that wait for the mutex, the semaphore and the shared mutex
    are destroyed and freed, in this order, and the three objects can go. *)
Example demo_shutdown :
  (λ s, (events_since (wld demo_program) (wld s), run_result (destroy_all [4; 2; 6]%positive s))) <$>
    (snd <$> op_list_service_shutdown 1 demo_program) =
  Some ([@ev_destroy test_asio 4; @ev_deallocate test_asio 9; @ev_destroy test_asio 6; @ev_deallocate test_asio 10;
      @ev_destroy test_asio 8; @ev_deallocate test_asio 11],
    Some (Ok tt)).
Proof. vm_compute. reflexivity. Qed.
End witnesses.
