(* ===== verification/Relational.v ===== *)
(** * Comparing two programs

    [sim P R x y]: run on objects related by [P] in the same world, [x] and [y]
    do the same: neither has an outcome, or both have the same answer, leave the
    same world, and objects related by [R]. The code that the classes share does
    not look at the object ([sim_auto] proves this from its text), and critical
    sections respect relations between objects with the same base. *)
From S2P Require Import Prelude Machine Bilist Ops Service Impl.

Create HintDb sim.

Section sim.
Context {ASIO : Asio} {St St' : Type}.
Implicit Types (P Q R : St → St' → Prop) (w : world).

(** Two outcomes. *)
Definition agree {A} R (o : option (res A * machine St)) (o' : option (res A * machine St')) : Prop :=
  match o, o' with
  | Some (r, s), Some (r', s') => r = r' ∧ wld s = wld s' ∧ R (obj s) (obj s')
  | None, None => True
  | _, _ => False
  end.

Definition sim {A} P R (x : M St A) (y : M St' A) : Prop :=
  ∀ m m' w, P m m' → agree R (x (Machine m w)) (y (Machine m' w)).

Lemma sim_weaken {A} P Q R (x : M St A) (y : M St' A) :
  (∀ m m', P m m' → Q m m') → sim Q R x y → sim P R x y.
Proof. intros HP H m m' w Hm. by apply H, HP. Qed.

Lemma sim_ret {A} R (a : A) : sim R R (mret a) (mret a).
Proof. done. Qed.
Lemma sim_throw {A} R e : sim R R (throw e : M St A) (throw e : M St' A).
Proof. done. Qed.
Lemma sim_ub {A} P R : sim P R (ub : M St A) (ub : M St' A).
Proof. done. Qed.
Lemma sim_get_world R : sim R R get_world get_world.
Proof. done. Qed.
Lemma sim_modify_world R f : sim R R (modify_world f) (modify_world f).
Proof. done. Qed.
Lemma sim_modify_obj P R f g : (∀ m m', P m m' → R (f m) (g m')) → sim P R (modify_obj f) (modify_obj g).
Proof. intros H m m' w Hm. split_and!; [done..|]. by apply H. Qed.
Lemma sim_of_option {A} R (o : option A) : sim R R (of_option o) (of_option o).
Proof. by destruct o. Qed.

Lemma sim_bind {A B} P Q R (x : M St A) (y : M St' A) (k : A → M St B) (k' : A → M St' B) :
  sim P Q x y → (∀ m m', Q m m' → R m m') → (∀ a, sim Q R (k a) (k' a)) → sim P R (x ≫= k) (y ≫= k').
Proof.
  intros Hx HQ Hk m m' w Hm. specialize (Hx m m' w Hm). unfold mbind, M_bind. unfold agree in Hx |- *.
  destruct (x (Machine m w)) as [[r [n w1]]|], (y (Machine m' w)) as [[r' [n' w1']]|]; try done.
  destruct Hx as (<- & E & HR). simpl in *. subst w1'. destruct r as [a|e]; [by apply Hk|]. split_and!; [done..|by apply HQ].
Qed.

(** The objects at hand. *)
Lemma sim_get_obj {A} P R (k : St → M St A) (k' : St' → M St' A) :
  (∀ m m', P m m' → sim (λ n n', n = m ∧ n' = m') R (k m) (k' m')) → sim P R (get_obj ≫= k) (get_obj ≫= k').
Proof. intros H m m' w Hm. by apply (H m m' Hm). Qed.

Lemma sim_get_obj_r {A} P R m' (x : M St A) (k' : St' → M St' A) :
  (∀ n n', P n n' → n' = m') → sim P R x (k' m') → sim P R x (get_obj ≫= k').
Proof. intros HP H n n' w Hn. pose proof (HP _ _ Hn). subst n'. exact (H n m' w Hn). Qed.

Lemma sim_while R fuel c c' (b : M St unit) (b' : M St' unit) :
  sim R R c c' → sim R R b b' → sim R R (while_ fuel c b) (while_ fuel c' b').
Proof.
  intros Hc Hb. induction fuel as [|fuel IH]; [done|]. simpl.
  eapply sim_bind; [done..|]. intros []; [|done]. by eapply sim_bind.
Qed.
End sim.

(** The outcome of a checked operation that succeeds. *)
Lemma int_in_range {ASIO : Asio} {St} z : (INT_MIN ≤ z ≤ INT_MAX)%Z → (int_ z : M St Z) = mret z.
Proof. intros H. unfold int_. by rewrite bool_decide_eq_true_2. Qed.
Lemma bind_ret {ASIO : Asio} {St A B} (a : A) (k : A → M St B) : mret a ≫= k = k a.
Proof. reflexivity. Qed.

Ltac sim_step :=
  first [ apply sim_ret | apply sim_throw | apply sim_ub | apply sim_get_world | apply sim_modify_world
        | apply sim_of_option | solve [eauto 2 with sim nocore] | apply sim_while
        | eapply sim_bind; [|done|intros ?]
        | progress cbv zeta
        | match goal with |- sim _ _ (match ?x with _ => _ end) _ => destruct x end ].
Ltac sim_auto := repeat sim_step.

(** ** The shared code *)

Section shared.
Context {ASIO : Asio} {St St' : Type}.
Implicit Types (R : St → St' → Prop).

Lemma sim_get_node R p : sim R R (get_node p) (get_node p).
Proof. unfold get_node. sim_auto. Qed.
Hint Resolve sim_get_node : sim.
Lemma sim_read_next R p : sim R R (read_next p) (read_next p).
Proof. unfold read_next. sim_auto. Qed.
Lemma sim_read_prev R p : sim R R (read_prev p) (read_prev p).
Proof. unfold read_prev. sim_auto. Qed.
Lemma sim_write_next R p v : sim R R (write_next p v) (write_next p v).
Proof. unfold write_next. sim_auto. Qed.
Lemma sim_write_prev R p v : sim R R (write_prev p v) (write_prev p v).
Proof. unfold write_prev. sim_auto. Qed.
Lemma sim_bilist_node_ctor R p : sim R R (bilist_node_ctor p) (bilist_node_ctor p).
Proof. unfold bilist_node_ctor. sim_auto. Qed.
Lemma sim_free_node R p : sim R R (free_node p) (free_node p).
Proof. unfold free_node. sim_auto. Qed.
Lemma sim_stack_node R : sim R R stack_node stack_node.
Proof. unfold stack_node. sim_auto. Qed.
Hint Resolve sim_read_next sim_read_prev sim_write_next sim_write_prev sim_bilist_node_ctor sim_free_node sim_stack_node : sim.
Lemma sim_unlink R p : sim R R (unlink p) (unlink p).
Proof. unfold unlink. sim_auto. Qed.
Lemma sim_link_before R p r : sim R R (link_before p r) (link_before p r).
Proof. unfold link_before. sim_auto. Qed.
Lemma sim_bilist_move_ctor R p r : sim R R (bilist_move_ctor p r) (bilist_move_ctor p r).
Proof. unfold bilist_move_ctor. sim_auto. Qed.
Lemma sim_loop_fuel R : sim R R loop_fuel loop_fuel.
Proof. unfold loop_fuel. sim_auto. Qed.
Hint Resolve sim_unlink sim_link_before sim_bilist_move_ctor sim_loop_fuel : sim.

Lemma sim_get_op R p : sim R R (get_op p) (get_op p).
Proof. unfold get_op. sim_auto. Qed.
Lemma sim_put_op R p o : sim R R (put_op p o) (put_op p o).
Proof. unfold put_op. sim_auto. Qed.
Lemma sim_assign_ec R r ec : sim R R (assign_ec r ec) (assign_ec r ec).
Proof. unfold assign_ec. sim_auto. Qed.
Lemma sim_slot_assign R sl c : sim R R (slot_assign sl c) (slot_assign sl c).
Proof. unfold slot_assign. sim_auto. Qed.
Hint Resolve sim_get_op sim_put_op sim_assign_ec sim_slot_assign : sim.
Lemma sim_basic_op_model_construct R e h : sim R R (basic_op_model_construct e h) (basic_op_model_construct e h).
Proof. unfold basic_op_model_construct. sim_auto. Qed.
Lemma sim_sync_op_ctor R ec : sim R R (sync_op_ctor ec) (sync_op_ctor ec).
Proof. unfold sync_op_ctor. sim_auto. Qed.
Lemma sim_sync_op_dtor R p : sim R R (sync_op_dtor p) (sync_op_dtor p).
Proof. unfold sync_op_dtor. sim_auto. Qed.
Lemma sim_op_complete R p ec : sim R R (op_complete p ec) (op_complete p ec).
Proof.
  unfold op_complete, basic_op_model_complete, predicate_op_model_complete, sync_op_complete,
    basic_op_model_destroy, predicate_op_model_destroy, clear_slot. sim_auto.
Qed.
Lemma sim_op_shutdown R p : sim R R (op_shutdown p) (op_shutdown p).
Proof.
  unfold op_shutdown, basic_op_model_shutdown, predicate_op_model_shutdown, sync_op_shutdown,
    basic_op_model_destroy, predicate_op_model_destroy, clear_slot. sim_auto.
Qed.
Lemma sim_is_empty R p : sim R R (is_empty p) (is_empty p).
Proof. unfold is_empty. sim_auto. Qed.
Hint Resolve sim_basic_op_model_construct sim_sync_op_ctor sim_sync_op_dtor sim_op_complete sim_op_shutdown sim_is_empty : sim.
Lemma sim_holder_dtor R p : sim R R (holder_dtor p) (holder_dtor p).
Proof. unfold holder_dtor. sim_auto. Qed.
Lemma sim_holder_shutdown R p : sim R R (holder_shutdown p) (holder_shutdown p).
Proof. unfold holder_shutdown. sim_auto. Qed.
Lemma sim_holder_move_ctor R p : sim R R (holder_move_ctor p) (holder_move_ctor p).
Proof. unfold holder_move_ctor. sim_auto. Qed.

Lemma sim_with_service_lock R svc b b' :
  sim R R b b' → sim R R (with_service_lock svc b) (with_service_lock svc b').
Proof. intros Hb. unfold with_service_lock. sim_auto. Qed.
Lemma sim_service_member_ctor R this svc config hint :
  sim R R (service_member_ctor this svc config hint) (service_member_ctor this svc config hint).
Proof.
  unfold service_member_ctor, register_queue. sim_auto.
Qed.
Lemma sim_local_ec R : sim R R local_ec local_ec.
Proof. unfold local_ec. sim_auto. Qed.
End shared.
#[export] Hint Resolve sim_get_node sim_read_next sim_read_prev sim_write_next sim_write_prev sim_bilist_node_ctor
  sim_free_node sim_stack_node sim_unlink sim_link_before sim_bilist_move_ctor sim_loop_fuel sim_get_op sim_put_op
  sim_assign_ec sim_slot_assign sim_basic_op_model_construct sim_sync_op_ctor sim_sync_op_dtor sim_op_complete
  sim_op_shutdown sim_is_empty sim_holder_dtor sim_holder_shutdown sim_holder_move_ctor sim_service_member_ctor
  sim_local_ec : sim.

(** ** Critical sections *)

Section members.
Context {ASIO : Asio} {St St' : Type} `{!Member St} `{!Member St'}.
Implicit Types (P R : St → St' → Prop).

(** Related objects have the same base, and stay related when it changes. *)
Record respects P : Prop := {
  rs_sm m m' : P m m' → get_sm m = get_sm m';
  rs_set sm m m' : P m m' → P (set_sm sm m) (set_sm sm m')
}.

Lemma sim_with_lock {A} P R (x : M St A) (y : M St' A) :
  respects P → respects R → sim P R x y → sim P R (with_lock x) (with_lock y).
Proof.
  intros HP HR Hx m m' w Hm. unfold with_lock, lock_mtx, unlock_mtx, get_mtx, set_mtx, mbind, M_bind, agree. simpl.
  rewrite <- (rs_sm _ HP m m' Hm). destruct (cem_lock _) as [c|]; [|done]. simpl.
  rewrite <- (rs_sm _ HP m m' Hm).
  specialize (Hx _ _ w (rs_set _ HP (ServiceMember (this_ (get_sm m)) (service (get_sm m)) c) m m' Hm)).
  unfold agree in Hx.
  destruct (x _) as [[r [n w1]]|], (y _) as [[r' [n' w1']]|]; try done.
  destruct Hx as (<- & E & Hn). simpl in *. subst w1'. rewrite <- (rs_sm _ HR n n' Hn).
  destruct (cem_unlock _) as [c'|]; [|done]. simpl. split_and!; [done..|].
  rewrite <- (rs_sm _ HR n n' Hn). by apply (rs_set _ HR).
Qed.

Lemma sim_lock_captured R impl (x : M St unit) (y : M St' unit) :
  respects R → sim R R x y → sim R R (lock_captured impl x) (lock_captured impl y).
Proof.
  intros HR Hx. unfold lock_captured. apply sim_get_obj. intros m m' Hm. rewrite <- (rs_sm _ HR m m' Hm).
  apply (sim_weaken _ R); [by intros ? ? [-> ->]|]. destruct (bool_decide _); [by apply sim_with_lock|]. sim_auto.
Qed.

Lemma sim_sync_wait R p : respects R → sim R R (sync_wait p) (sync_wait p).
Proof. intros HR. unfold sync_wait. apply sim_with_lock; [done..|]. sim_auto. Qed.

Lemma sim_service_member_dtor R : respects R → sim R R service_member_dtor service_member_dtor.
Proof.
  intros HR. unfold service_member_dtor. eapply sim_bind; [|done|intros _].
  - apply sim_with_lock; [done..|]. apply sim_get_obj. intros m m' Hm. rewrite <- (rs_sm _ HR m m' Hm).
    apply (sim_weaken _ R); [by intros ? ? [-> ->]|]. destruct (service _); [|sim_auto].
    unfold unregister_queue. apply sim_with_service_lock. sim_auto.
  - apply sim_get_obj. intros m m' Hm. rewrite <- (rs_sm _ HR m m' Hm).
    apply (sim_weaken _ R); [by intros ? ? [-> ->]|]. sim_auto.
Qed.
End members.
