(* ===== verification/Equiv.v ===== *)
(** * A mutex is a semaphore with one permit

    [detail::mutex_impl] and [detail::semaphore_impl] are two pieces of code
    with two states, a flag and a counter. On a semaphore made with one permit,
    [acquire] and [release] do exactly what [lock] and [unlock] do on a mutex, in
    every world and down to the last list node, as long as [unlock] is only
    called on a locked mutex. *)
From S2P Require Import Prelude Machine Bilist Ops Service Impl Relational Mutex MutexSpec Semaphore SemaphoreSpec.

(** ** The correspondence *)

(** The semaphore's counter is 0 while the mutex is locked, and 1 otherwise. *)
Record binary (m : mutex_impl) (se : semaphore_impl) : Prop := {
  bi_sm : mi_sm m = se_sm se;
  bi_waiters : waiters_ m = se_waiters se;
  bi_count : count_ se = if locked_ m then 0%Z else 1%Z
}.

Definition as_semaphore {ASIO : Asio} (c : mutex_cmd) : semaphore_cmd :=
  match c with
  | cmd_declare_ec => sem_declare_ec
  | cmd_try_lock => sem_try_acquire
  | cmd_lock ec => sem_acquire ec
  | cmd_unlock => sem_release
  | cmd_async_lock exec h => sem_async_acquire exec h
  | cmd_emit n type => sem_emit n type
  | cmd_resume p => sem_resume p
  | cmd_shutdown => sem_shutdown
  end.

Section equiv.
Context {ASIO : Asio}.
Implicit Types (w : world) (m : mutex_impl) (se : semaphore_impl).

Lemma respects_binary : respects binary.
Proof. split; [by intros m se []|]. intros sm m se []. by split. Qed.
Hint Resolve respects_binary : core.

(** The guards of the two classes agree. *)
Lemma binary_guard m se : binary m se → bool_decide (count_ se > 0)%Z = negb (locked_ m).
Proof. intros [_ _ ->]. by destruct (locked_ m). Qed.
Lemma binary_taken m se : binary m se → locked_ m = false → binary (set_locked true m) (set_count (count_ se - 1) se).
Proof. intros [? ? Hc] Hl. rewrite Hl in Hc. split; simpl; [done..|lia]. Qed.

(** A taken permit is a set flag. *)
Lemma sim_take {A} m se (k : M mutex_impl A) (k' : M semaphore_impl A) :
  binary m se → locked_ m = false → sim binary binary k k' →
  sim (λ n n', n = m ∧ n' = se) binary (modify_obj (set_locked true);; k)
    (z ← int_ (count_ se - 1); modify_obj (set_count z);; k').
Proof.
  intros Hb Hl Hk. pose proof (bi_count _ _ Hb) as Hc. rewrite Hl in Hc.
  rewrite int_in_range, bind_ret by (rewrite Hc; unfold INT_MIN, INT_MAX; lia).
  eapply (sim_bind _ binary); [apply sim_modify_obj|done|by intros _].
  intros n n' [-> ->]. by apply binary_taken.
Qed.
Lemma decrement_one se w : count_ se = 1%Z → decrement (Machine se w) = Some (Ok 0%Z, Machine (set_count 0 se) w).
Proof. by destruct se as [? c ?]; simpl; intros ->. Qed.
Lemma sim_decrement {A} m se (k : M mutex_impl A) (k' : M semaphore_impl A) :
  binary m se → locked_ m = false → sim binary binary k k' →
  sim (λ n n', n = m ∧ n' = se) binary (modify_obj (set_locked true);; k) (decrement;; k').
Proof.
  intros Hb Hl Hk n n' w [-> ->]. pose proof (bi_count _ _ Hb) as Hc. rewrite Hl in Hc.
  unfold mbind, M_bind. rewrite decrement_one by done. apply Hk. simpl.
  pose proof (binary_taken _ _ Hb Hl) as H. by rewrite Hc in H.
Qed.

Lemma sim_try_lock : sim binary binary Mutex.try_lock try_acquire.
Proof.
  apply sim_with_lock; [done..|]. apply sim_get_obj. intros m se Hb. rewrite (binary_guard _ _ Hb).
  destruct (locked_ m) eqn:Hl; simpl; [by apply (sim_weaken _ binary); [intros ? ? [-> ->]|]|].
  by apply sim_take.
Qed.

Lemma sim_add_waiter p : sim binary binary (Mutex.add_waiter p) (Semaphore.add_waiter p).
Proof.
  unfold Mutex.add_waiter, Semaphore.add_waiter. apply sim_get_obj. intros m se Hb. rewrite (bi_waiters _ _ Hb).
  apply (sim_weaken _ binary); [by intros ? ? [-> ->]|]. sim_auto.
Qed.
Hint Resolve sim_add_waiter sim_try_lock : sim.

Lemma sim_lock ec : sim binary binary (lock ec) (acquire ec).
Proof.
  unfold lock, acquire. apply sim_get_obj. intros m se Hb. unfold get_mtx. simpl get_sm. rewrite <- (bi_sm _ _ Hb).
  apply (sim_weaken _ binary); [by intros ? ? [-> ->]|]. destruct (negb _); [sim_auto|].
  apply sim_with_lock; [done..|]. eapply sim_bind; [sim_auto|done|intros p].
  eapply sim_bind; [sim_auto|done|intros []]. apply sim_get_obj. intros m1 se1 Hb1. rewrite (binary_guard _ _ Hb1).
  destruct (locked_ m1) eqn:Hl; simpl; [by apply (sim_weaken _ binary); [intros ? ? [-> ->]|]|].
  apply sim_decrement; [done..|]. sim_auto.
Qed.

Lemma sim_async_lock exec h : sim binary binary (async_lock exec h) (async_acquire exec h).
Proof.
  unfold async_lock, async_acquire, async_lock_with, async_acquire_with, net_dispatch. apply sim_with_lock; [done..|].
  change (count ≫= ?k) with (get_obj ≫= λ se, k (count_ se)).
  apply sim_get_obj. intros m se Hb. rewrite (binary_guard _ _ Hb).
  destruct (locked_ m) eqn:Hl; simpl negb; cbn [negb]; [|apply sim_decrement; [done..|]; sim_auto].
  eapply sim_bind; [apply sim_basic_op_model_construct|by intros ? ? [-> ->]|intros p].
  eapply (sim_get_obj_r _ _ se); [by intros ? ? [_ ->]|]. simpl get_sm. rewrite (bi_sm _ _ Hb).
  apply (sim_weaken _ binary); [by intros ? ? [-> ->]|]. sim_auto.
Qed.

Lemma sim_emit n type : sim binary binary (mutex_emit n type) (semaphore_emit n type).
Proof.
  unfold mutex_emit, semaphore_emit. eapply sim_bind; [sim_auto|done|intros w].
  destruct (slots w !! n) as [c|]; [|sim_auto]. unfold async_lock_cancel, async_acquire_cancel.
  destruct type; [|sim_auto]. apply sim_lock_captured; [done|]. simpl. sim_auto.
Qed.

Lemma sim_shutdown : sim binary binary Mutex.shutdown Semaphore.shutdown.
Proof.
  unfold Mutex.shutdown, Semaphore.shutdown. eapply sim_bind; [|done|intros r; sim_auto].
  apply sim_with_lock; [done..|]. apply sim_get_obj. intros m se Hb. rewrite (bi_waiters _ _ Hb).
  apply (sim_weaken _ binary); [by intros ? ? [-> ->]|]. sim_auto.
Qed.

Lemma sim_dtor : sim binary binary mutex_impl_dtor semaphore_impl_dtor.
Proof.
  unfold mutex_impl_dtor, semaphore_impl_dtor. apply sim_get_obj. intros m se Hb. rewrite (bi_waiters _ _ Hb).
  apply (sim_weaken _ binary); [by intros ? ? [-> ->]|]. eapply sim_bind; [sim_auto|done|intros _].
  by apply sim_service_member_dtor.
Qed.

Lemma bind_is_empty {St A} p (k : bool → M St A) s :
  (is_empty p ≫= k) s = nodes (wld s) !! p ≫= λ nd, k (bool_decide (next_ nd = p)) s.
Proof.
  unfold is_empty, read_next, get_node, mbind, M_bind. simpl. by destruct (nodes (wld s) !! p).
Qed.
Lemma sim_unlock_next r :
  sim binary binary (nx ← read_next r; op_complete nx no_error) (nx ← read_next r; op_complete nx no_error).
Proof. sim_auto. Qed.

(** [release] on a semaphore whose permit is taken. *)
Lemma sim_unlock : sim (λ m se, binary m se ∧ locked_ m = true) binary unlock release.
Proof.
  apply sim_with_lock; [|done|].
  { split; [by intros m se [[] _]|]. intros sm m se [[] ?]. by split. }
  apply sim_get_obj. intros m se [Hb Hl]. pose proof (bi_count _ _ Hb) as Hc. rewrite Hl in Hc.
  rewrite Hc, int_in_range, bind_ret by (unfold INT_MIN, INT_MAX; lia). rewrite (bi_waiters _ _ Hb).
  intros n n' w [-> ->].
  change ((modify_obj ?f ≫= ?k) (Machine se w)) with (k tt (Machine (f se) w)). cbv beta.
  rewrite !bind_is_empty. cbn [wld]. destruct (nodes w !! se_waiters se) as [nd|]; [|done]. simpl.
  destruct (bool_decide _); [split_and!; [done..|]; by destruct Hb|].
  unfold mbind at 2, M_bind at 2. rewrite decrement_one by done.
  apply (sim_unlock_next (se_waiters se)). simpl. destruct Hb. split; simpl; [done..|by rewrite Hl].
Qed.

(** ** Programs *)

(** The answers of a sequence of calls, and where it ends. *)
Fixpoint exec_all {Cmd St} (exec : Cmd → M St reply) (cs : list Cmd) (s : machine St) :
    option (list (res reply) * machine St) :=
  match cs with
  | [] => Some ([], s)
  | c :: cs =>
      '(r, s') ← exec c s;
      '(rs, s'') ← exec_all exec cs s';
      Some (r :: rs, s'')
  end.

(** [unlock] is only called on a locked mutex. *)
Fixpoint obeys (cs : list mutex_cmd) (s : machine mutex_impl) : Prop :=
  match cs with
  | [] => True
  | c :: cs => (c = cmd_unlock → locked_ (obj s) = true) ∧ (∀ r s', mutex_exec c s = Some (r, s') → obeys cs s')
  end.

Lemma sim_exec c :
  sim (λ m se, binary m se ∧ (c = cmd_unlock → locked_ m = true)) binary (mutex_exec c) (semaphore_exec (as_semaphore c)).
Proof.
  destruct c as [| |ec| |exec h|n type|p|]; simpl.
  4: eapply (sim_bind _ binary); [|done|intros _; sim_auto];
     apply (sim_weaken _ (λ m se, binary m se ∧ locked_ m = true)); [by intros m se [? H]; split; [|apply H]|apply sim_unlock].
  all: apply (sim_weaken _ binary); [by intros m se []|]; (eapply sim_bind; [|done|intros ?; sim_auto]).
  - sim_auto.
  - apply sim_try_lock.
  - apply sim_lock.
  - apply sim_async_lock.
  - apply sim_emit.
  - by apply sim_sync_wait.
  - apply sim_shutdown.
Qed.

Lemma sim_exec_all cs m se w :
  binary m se → obeys cs (Machine m w) →
  match exec_all mutex_exec cs (Machine m w), exec_all semaphore_exec (as_semaphore <$> cs) (Machine se w) with
  | Some (rs, s1), Some (rs', s2) => rs = rs' ∧ wld s1 = wld s2 ∧ binary (obj s1) (obj s2)
  | None, None => True
  | _, _ => False
  end.
Proof.
  revert m se w. induction cs as [|c cs IH]; intros m se w Hb Hob; [done|]. destruct Hob as [Hu Hob]. simpl.
  pose proof (sim_exec c m se w (conj Hb Hu)) as Hs. unfold agree in Hs.
  destruct (mutex_exec c (Machine m w)) as [[r [m1 w1]]|] eqn:E, (semaphore_exec (as_semaphore c) (Machine se w)) as [[r' [se1 w1']]|]; try done.
  destruct Hs as (<- & Ew & Hb1). simpl in *. subst w1'. specialize (IH m1 se1 w1 Hb1 (Hob _ _ eq_refl)).
  destruct (exec_all mutex_exec cs _) as [[rs s1]|], (exec_all semaphore_exec _ _) as [[rs' s2]|]; try done.
  simpl in *. destruct IH as (-> & ? & ?). by split_and!.
Qed.

(** C8: equivalence. A mutex and a semaphore made with one permit, at the same
    addresses in the same world, cannot be told apart: any sequence of calls of
    one and of the corresponding calls of the other gives the same answers and
    the same exceptions and leaves the same memory and the same trace, or is
    undefined for both, and so do their destructors afterwards, as long as
    [unlock] is only called on a locked mutex. *)
Theorem mutex_semaphore_equiv this waiters svc config hint w m w1 :
  mutex_impl_ctor this waiters svc config hint (Machine tt w) = Some (Ok m, Machine tt w1) →
  ∃ se, semaphore_impl_ctor this waiters svc config 1 hint (Machine tt w) = Some (Ok se, Machine tt w1) ∧
    ∀ cs, obeys cs (Machine m w1) →
      match exec_all mutex_exec cs (Machine m w1), exec_all semaphore_exec (as_semaphore <$> cs) (Machine se w1) with
      | Some (rs, s1), Some (rs', s2) =>
          rs = rs' ∧ wld s1 = wld s2 ∧ binary (obj s1) (obj s2) ∧ agree binary (mutex_impl_dtor s1) (semaphore_impl_dtor s2)
      | None, None => True
      | _, _ => False
      end.
Proof.
  intros Hc. unfold mutex_impl_ctor, semaphore_impl_ctor, mbind, M_bind in *.
  destruct (service_member_ctor _ _ _ _ _) as [[[sm|] s1]|]; [|done..].
  destruct (bilist_node_ctor _ _) as [[[[]|] s2]|]; [|done..]. injection Hc as <- ->.
  exists (SemaphoreImpl sm 1 waiters). split; [done|]. intros cs Hob.
  assert (binary (MutexImpl sm false waiters) (SemaphoreImpl sm 1 waiters)) as Hb by done.
  pose proof (sim_exec_all cs _ _ _ Hb Hob) as H.
  destruct (exec_all mutex_exec cs _) as [[rs [m3 w3]]|], (exec_all semaphore_exec _ _) as [[rs' [se3 w3']]|]; try done.
  destruct H as (-> & Ew & Hb3). simpl in *. subst w3'. split_and!; [done..|]. by apply sim_dtor.
Qed.
End equiv.

(** ** At work *)

Section witnesses.
#[local] Existing Instance test_asio.

(** The mutex is locked, somebody waits, cancels, somebody else waits and is
    served. *)
Definition demo_calls : list mutex_cmd :=
  [cmd_try_lock; cmd_async_lock 0 4; cmd_async_lock 0 6; cmd_emit 4 true; cmd_unlock; cmd_unlock; cmd_lock 1].

Abbreviation demo_new := (Machine (obj (demo_mutex true)) (wld (demo_mutex true))).

Lemma demo_calls_obey : obeys demo_calls demo_new.
Proof.
  unfold demo_calls. cbn [obeys].
  repeat (split; [by intros ?; vm_compute|]; intros ? ? E; vm_compute in E; injection E as <- <-). exact I.
Qed.

Lemma mutex_semaphore_equiv_witness : ∃ se,
  semaphore_impl_ctor 2 3 1 (demo_config true) 1 (-1) (Machine tt (demo_world true)) = Some (Ok se, Machine tt (wld (demo_mutex true))) ∧
  match exec_all mutex_exec demo_calls demo_new, exec_all semaphore_exec (as_semaphore <$> demo_calls) (Machine se (wld (demo_mutex true))) with
  | Some (rs, s1), Some (rs', s2) =>
      rs = rs' ∧ wld s1 = wld s2 ∧ binary (obj s1) (obj s2) ∧ agree binary (mutex_impl_dtor s1) (semaphore_impl_dtor s2)
  | None, None => True
  | _, _ => False
  end.
Proof.
  destruct (mutex_semaphore_equiv 2 3 1 (demo_config true) (-1) (demo_world true) (obj (demo_mutex true))
    (wld (demo_mutex true))) as (se & E & H).
  - vm_compute. reflexivity.
  - exists se. split; [exact E|]. exact (H demo_calls demo_calls_obey).
Defined.

Example demo_calls_answers :
  fst <$> exec_all mutex_exec demo_calls demo_new =
    Some [Ok (r_bool true); Ok r_unit; Ok r_unit; Ok r_unit; Ok r_unit; Ok r_unit; Ok (r_sync Returned)].
Proof. vm_compute. reflexivity. Qed.
End witnesses.
