(* ===== verification/Scheduler.v ===== *)
(** * Many parties and a scheduler

    What the closed systems of the development share: runs that get shorter
    ([Runs]), a list of parties and the events that reach them ([deliver],
    [hears]), sums over parties ([total]), which count owners and bound runs, the line of a
    synchronisation object as the parties that wait ([lined]), and what calls keep
    of threads that were woken ([kept]). *)
From S2P Require Import Prelude Machine Bilist Ops Service Impl.

(** ** Runs *)

Section runs.
Context {X : Type} (step : relation X) (ok : X → Prop) (weight : X → nat).

(** Every step keeps the invariant and makes what is left smaller. *)
Lemma nsteps_shrink k x y :
  (∀ x y, ok x → step x y → ok y ∧ weight y < weight x) →
  ok x → nsteps step k x y → ok y ∧ k + weight y ≤ weight x.
Proof.
  intros Hstep Hok Hst. induction Hst as [x|k x y z Hxy _ IH]; [by split|].
  destruct (Hstep x y Hok Hxy) as [Hy Hlt]. destruct (IH Hy) as [Hz Hle]. split; [done|lia].
Qed.

(** A schedule [us] whose turns are steps. *)
Context {U : Type} (turn : U → X → option X).
Definition play (us : list U) (x : X) : option X := foldl (λ o u, o ≫= turn u) (Some x) us.

Lemma play_nsteps us x y :
  (∀ u x y, turn u x = Some y → step x y) → play us x = Some y → nsteps step (length us) x y.
Proof.
  intros Hturn. revert y. induction us as [|u us IH] using rev_ind; intros y; [intros [= <-]; constructor|].
  unfold play. rewrite foldl_snoc, length_app, Nat.add_comm. simpl.
  intros (z & H1 & H2)%bind_Some. eapply nsteps_r; [by apply IH|by eapply Hturn].
Qed.
End runs.

(** ** Delivery *)

Section deliver.
Context {ASIO : Asio} {C : Type} (tell : event → nat → C → C).
Implicit Types (cl : list C) (c : C) (es : list event).

(** The events [es] happen: the party [i] in the state [c] hears each of them. *)
Definition heard es i c : C := foldl (λ c e, tell e i c) c es.
Definition deliver es cl : list C := imap (heard es) cl.

Lemma length_deliver es cl : length (deliver es cl) = length cl.
Proof. apply length_imap. Qed.
Lemma deliver_lookup es cl i : deliver es cl !! i = heard es i <$> cl !! i.
Proof. apply list_lookup_imap. Qed.
Lemma deliver_nothing cl : deliver [] cl = cl.
Proof. apply list_eq. intros i. rewrite deliver_lookup. by destruct (cl !! i). Qed.
Lemma deliver_none w w' cl : trace w' = trace w → deliver (events_since w w') cl = cl.
Proof. intros E. rewrite events_since_same by done. apply deliver_nothing. Qed.

Lemma deliver_app es1 es2 cl : deliver (es1 ++ es2) cl = deliver es2 (deliver es1 cl).
Proof.
  apply list_eq. intros i. rewrite !deliver_lookup. destruct (cl !! i); [|done]. simpl. unfold heard. by rewrite foldl_app.
Qed.

(** Events that concern one party. *)
Lemma deliver_only es cl j c :
  cl !! j = Some c → (∀ i d, i ≠ j → cl !! i = Some d → heard es i d = d) →
  deliver es cl = <[j := heard es j c]> cl.
Proof.
  intros Hj Hother. apply list_eq. intros i. rewrite deliver_lookup. destruct (decide (j = i)) as [<-|Hne].
  - rewrite Hj, list_lookup_insert_eq by (by eapply lookup_lt_Some). done.
  - rewrite list_lookup_insert_ne by done. destruct (cl !! i) as [d|] eqn:Hi; [|done].
    simpl. by rewrite (Hother i d).
Qed.
Lemma deliver_one w w' es cl j c :
  trace w' = trace w ++ es → cl !! j = Some c →
  (∀ i d, i ≠ j → cl !! i = Some d → heard es i d = d) →
  deliver (events_since w w') cl = <[j := heard es j c]> cl.
Proof. intros E. rewrite (events_since_app _ _ _ E). apply deliver_only. Qed.
End deliver.

(** ** Handlers *)

Section told.
Context {ASIO : Asio} `{!EqDecision handler} {C : Type} (hnd : nat → handler) (told : error_code → C → C).
Implicit Types (cl : list C) (c : C) (i j : nat).

(** A party whose handler is posted or dispatched is [told] the outcome. *)
Definition hears (e : event) i c : C :=
  match e with
  | ev_post _ h ec | ev_dispatch _ h ec => if decide (hnd i = h) then told ec c else c
  | _ => c
  end.

(** The handler an operation calls. *)
Definition op_handler (o : op) : option handler :=
  match o with basic_op_model _ h | predicate_op_model _ h _ => Some h | sync_op _ _ => None end.

Lemma heard_completion ec po i c :
  heard hears (completion ec po) i c = if decide (op_handler po.2 = Some (hnd i)) then told ec c else c.
Proof. destruct po as [p []]; unfold heard; simpl; repeat case_decide; congruence. Qed.

Lemma heard_completions ec q i c :
  (∀ c, told ec (told ec c) = told ec c) →
  heard hears (q ≫= completion ec) i c = if decide (Exists (λ po, op_handler po.2 = Some (hnd i)) q) then told ec c else c.
Proof.
  intros Hidem. revert c. induction q as [|po q IH]; intros c; [case_decide as H; [by apply Exists_nil in H|done]|].
  rewrite bind_cons. unfold heard. rewrite foldl_app.
  change (heard hears (q ≫= completion ec) i (heard hears (completion ec po) i c) = if decide (Exists (λ po, op_handler po.2 = Some (hnd i)) (po :: q)) then told ec c else c).
  rewrite heard_completion, IH. destruct (decide (op_handler po.2 = Some (hnd i))) as [E|E].
  - rewrite Hidem. rewrite (decide_True (P := Exists _ (po :: q))) by (by left). by case_decide.
  - apply decide_ext. rewrite Exists_cons. naive_solver.
Qed.

Context `{!Inj (=) (=) hnd}.

Lemma deliver_completion ec po cl j c :
  cl !! j = Some c → op_handler po.2 = Some (hnd j) → deliver hears (completion ec po) cl = <[j := told ec c]> cl.
Proof.
  intros Hj Hpo. rewrite (deliver_only _ _ _ j c Hj).
  - by rewrite heard_completion, decide_True.
  - intros i d Hne _. rewrite heard_completion, decide_False; [done|]. rewrite Hpo. by intros [= ?%(inj hnd)].
Qed.
Lemma deliver_dispatch w w' g ec cl j c :
  trace w' = trace w ++ [ev_dispatch g (hnd j) ec] → cl !! j = Some c →
  deliver hears (events_since w w') cl = <[j := told ec c]> cl.
Proof.
  intros E Hj. rewrite (events_since_app _ _ _ E), (deliver_only _ _ _ j c Hj); unfold heard; simpl.
  - by rewrite decide_True.
  - intros i d Hne _. rewrite decide_False; [done|]. by intros ?%(inj hnd).
Qed.
End told.

(** ** Sums *)

Section total.
Context {C : Type}.
Implicit Types (f : C → nat) (cl : list C) (c : C).

Definition total f cl : nat := sum_list (f <$> cl).

Lemma total_insert f cl i c c' : cl !! i = Some c → total f (<[i := c']> cl) + f c = total f cl + f c'.
Proof.
  unfold total. revert i. induction cl as [|c0 cl IH]; intros [|i] Hi; simpl in *; simplify_eq; [lia|].
  specialize (IH i Hi). unfold fmap in *. lia.
Qed.
Lemma total_le f cl i c : cl !! i = Some c → f c ≤ total f cl.
Proof.
  unfold total. revert i. induction cl as [|c0 cl IH]; intros [|i] Hi; simpl in *; simplify_eq; [lia|].
  specialize (IH i Hi). unfold fmap in *. lia.
Qed.
(** Two parties. *)
Lemma total_two f cl i j c d : cl !! i = Some c → cl !! j = Some d → i ≠ j → f c + f d ≤ total f cl.
Proof.
  unfold total. revert i j. induction cl as [|c0 cl IH]; intros [|i] [|j] Hi Hj Hne; simpl in *; simplify_eq.
  - pose proof (total_le f cl j d Hj). unfold total, fmap in *. lia.
  - pose proof (total_le f cl i c Hi). unfold total, fmap in *. lia.
  - assert (i ≠ j) as Hne' by congruence. specialize (IH i j Hi Hj Hne'). unfold fmap in *. lia.
Qed.
(** Somebody counts. *)
Lemma total_pos f cl : 0 < total f cl → ∃ i c, cl !! i = Some c ∧ 0 < f c.
Proof.
  unfold total. induction cl as [|c cl IH]; simpl; [lia|]. intros Hlt. destruct (decide (0 < f c)).
  - by exists 0, c.
  - destruct IH as (i & c' & Hi & Hc); [unfold fmap in *; lia|]. by exists (S i), c'.
Qed.
Lemma total_le_pointwise f g cl : (∀ c, f c ≤ g c) → total f cl ≤ total g cl.
Proof. intros H. unfold total. induction cl as [|c cl IH]; simpl; [done|]. specialize (H c). unfold fmap in *. lia. Qed.
Lemma total_zero f cl : (∀ c, c ∈ cl → f c = 0) → total f cl = 0.
Proof.
  unfold total. induction cl as [|c cl IH]; intros H; simpl; [done|]. unfold fmap in *.
  rewrite H, IH; [done| |by left]. intros d Hd. apply H. by right.
Qed.
Lemma total_plus f g cl : total (λ c, f c + g c) cl = total f cl + total g cl.
Proof. unfold total. induction cl as [|c cl IH]; simpl; [done|]. unfold fmap in *. lia. Qed.
Lemma total_length f cl : (∀ c, f c ≤ 1) → total f cl ≤ length cl.
Proof. intros H. unfold total. induction cl as [|c cl IH]; simpl; [done|]. specialize (H c). unfold fmap in *. lia. Qed.
Lemma total_ext f g cl : (∀ c, c ∈ cl → f c = g c) → total f cl = total g cl.
Proof.
  unfold total. induction cl as [|c cl IH]; intros H; simpl; [done|]. unfold fmap in *.
  rewrite H, IH; [done| |by left]. intros d Hd. apply H. by right.
Qed.
Lemma total_ones f cl : (∀ c, f c = 1) → total f cl = length cl.
Proof. intros H. unfold total. induction cl as [|c cl IH]; simpl; [done|]. rewrite H. unfold fmap in *. lia. Qed.
Lemma total_replicate f n c : total f (replicate n c) = f c * n.
Proof. unfold total. induction n as [|n IH]; simpl; [lia|]. unfold fmap in *. rewrite IH. lia. Qed.
Lemma total_imap_le f (g : nat → C → C) cl : (∀ i c, f (g i c) ≤ f c) → total f (imap g cl) ≤ total f cl.
Proof.
  revert g. unfold total, fmap. induction cl as [|c cl IH]; intros g H; simpl; [done|].
  specialize (IH (g ∘ S) (λ i, H (S i))). specialize (H 0 c). lia.
Qed.
Lemma total_fmap f (g : C → C) cl : (∀ c, f (g c) = f c) → total f (g <$> cl) = total f cl.
Proof. intros H. unfold total. induction cl as [|c cl IH]; simpl; [done|]. unfold fmap in *. by rewrite H, IH. Qed.
End total.

(** ** Lines *)

Section lined.
Context {ASIO : Asio} {C : Type} (stands : nat → C → addr * op → Prop) (waits : C → bool).
Implicit Types (cl : list C) (c : C) (q : list (addr * op)) (i j : nat).

Definition waits_at cl i : Prop := waits <$> cl !! i = Some true.

(** The operations [q] in a line are those of the parties that wait, one of
    each: [stands i c po] when [po] is the operation of the party [i] in the
    state [c]. *)
Definition lined cl q : Prop := ∃ js, NoDup js ∧
  Forall2 (λ po j, ∃ c, cl !! j = Some c ∧ stands j c po) q js ∧ ∀ i, i ∈ js ↔ waits_at cl i.

Lemma waits_insert cl i c c' j :
  cl !! i = Some c → waits_at (<[i := c']> cl) j ↔ if decide (i = j) then waits c' = true else waits_at cl j.
Proof.
  intros Hi. unfold waits_at. destruct (decide (i = j)) as [<-|Hne].
  - rewrite list_lookup_insert_eq by (by eapply lookup_lt_Some). simpl. by split; [intros [=]|intros ->].
  - by rewrite list_lookup_insert_ne.
Qed.
Lemma waits_here cl i c : cl !! i = Some c → waits_at cl i ↔ waits c = true.
Proof. intros Hi. unfold waits_at. rewrite Hi. simpl. by split; [intros [=]|intros ->]. Qed.

(** The others stand where they stood. *)
Lemma stands_insert cl i c' q js : i ∉ js →
  Forall2 (λ po j, ∃ c, cl !! j = Some c ∧ stands j c po) q js →
  Forall2 (λ po j, ∃ c, <[i := c']> cl !! j = Some c ∧ stands j c po) q js.
Proof.
  intros Hn Hl. induction Hl as [|po j q js (c & Hc & Hs) _ IH]; constructor; [|apply IH; set_solver].
  exists c. split; [|done]. rewrite list_lookup_insert_ne; [done|set_solver].
Qed.

Lemma lined_same cl q i c c' :
  lined cl q → cl !! i = Some c → waits c = false → waits c' = false → lined (<[i := c']> cl) q.
Proof.
  intros (js & Hnd & Hl & Hw) Hi E E'. exists js. split_and!; [done| |].
  - apply stands_insert; [|done]. rewrite Hw, (waits_here _ _ _ Hi). congruence.
  - intros j. rewrite Hw, (waits_insert _ _ _ _ _ Hi). destruct (decide (i = j)) as [<-|]; [|done].
    rewrite (waits_here _ _ _ Hi), E, E'. done.
Qed.

(** A party gets in line. *)
Lemma lined_queue cl q i c c' po :
  lined cl q → cl !! i = Some c → waits c = false → waits c' = true → stands i c' po →
  lined (<[i := c']> cl) (q ++ [po]).
Proof.
  intros (js & Hnd & Hl & Hw) Hi E E' Hs. exists (js ++ [i]).
  assert (i ∉ js) as Hn by (rewrite Hw, (waits_here _ _ _ Hi); congruence). split_and!.
  - by apply NoDup_snoc.
  - apply Forall2_app; [by apply stands_insert|]. constructor; [|done]. exists c'. split; [|done].
    apply list_lookup_insert_eq. by eapply lookup_lt_Some.
  - intros j. rewrite elem_of_app, list_elem_of_singleton, Hw, (waits_insert _ _ _ _ _ Hi).
    destruct (decide (i = j)) as [<-|]; [split; [done|by right]|]. split; [intros [?| ->]; done|by left].
Qed.

(** An operation leaves the line, and its party stops waiting. *)
Lemma lined_remove cl q1 po q2 : lined cl (q1 ++ po :: q2) →
  ∃ j c, cl !! j = Some c ∧ stands j c po ∧ waits c = true ∧
    ∀ c', waits c' = false → lined (<[j := c']> cl) (q1 ++ q2).
Proof.
  intros (js & Hnd & Hl & Hw).
  apply Forall2_app_inv_l in Hl as (js1 & js2 & H1 & H2 & ->).
  apply Forall2_cons_inv_l in H2 as (j & js3 & (c & Ec & Hs) & H2 & ->).
  apply NoDup_app_mid in Hnd as (Hn1 & Hn2 & Hnd).
  exists j, c. split_and!; [done..| |].
  { apply (waits_here _ _ _ Ec), Hw. set_solver. }
  intros c' Hc'. exists (js1 ++ js3). split_and!; [done|by apply Forall2_app; apply stands_insert|]. intros i.
  rewrite (waits_insert _ _ _ _ _ Ec). destruct (decide (j = i)) as [<-|Hne]; [split; [set_solver|congruence]|].
  rewrite <- Hw. set_solver.
Qed.

Lemma lined_member cl q po : lined cl q → po ∈ q → ∃ j c, cl !! j = Some c ∧ stands j c po ∧ waits c = true.
Proof.
  intros Hl (q1 & q2 & ->)%list_elem_of_split. destruct (lined_remove _ _ _ _ Hl) as (j & c & ? & ? & ? & _).
  by exists j, c.
Qed.
Lemma lined_at cl q i c : lined cl q → cl !! i = Some c → waits c = true → ∃ po, po ∈ q ∧ stands i c po.
Proof.
  intros (js & _ & Hl & Hw) Hi Hc. assert (i ∈ js) as [k Hk]%list_elem_of_lookup by (by apply Hw, (waits_here _ _ _ Hi)).
  destruct (Forall2_lookup_r _ _ _ _ _ Hl Hk) as (po & Hpo & d & Hd & Hs). simplify_eq.
  exists po. split; [by eapply list_elem_of_lookup_2|done].
Qed.
Lemma lined_nil cl i c : lined cl [] → cl !! i = Some c → waits c = false.
Proof.
  intros (js & _ & Hl & Hw) Hi. apply Forall2_nil_inv_l in Hl as ->.
  apply not_true_is_false. intros Hc. apply (not_elem_of_nil i), Hw. by apply (waits_here _ _ _ Hi).
Qed.
(** As many operations as parties that wait. *)
Lemma lined_length c0 cl q :
  waits c0 = false → lined cl q → length q = total (λ c, if waits c then 1 else 0) cl.
Proof.
  intros H0. revert cl. induction q as [|po q IH]; intros cl Hl; simpl.
  - symmetry. apply total_zero. intros c (i & Hi)%list_elem_of_lookup. by rewrite (lined_nil _ _ _ Hl Hi).
  - destruct (lined_remove cl [] po q Hl) as (j & c & Hj & _ & Hc & Hrem).
    rewrite (IH _ (Hrem c0 H0)). pose proof (total_insert (λ c, if waits c then 1 else 0) cl j c c0 Hj) as E.
    simpl in E. rewrite H0, Hc in E. lia.
Qed.
(** A line with all parties but one. *)
Lemma lined_all_but_one c0 cl q i c :
  waits c0 = false → lined cl q → cl !! i = Some c → waits c = false → length cl = S (length q) →
  ∀ j d, j ≠ i → cl !! j = Some d → waits d = true.
Proof.
  intros H0 Hl Hi Hc Hlen j d Hne Hj. apply not_false_is_true. intros Hd.
  set (f := λ c, if waits c then 1 else 0). set (g := λ c, if waits c then 0 else 1).
  pose proof (lined_length c0 cl q H0 Hl) as Hq. fold f in Hq.
  pose proof (total_plus f g cl) as Hp. rewrite total_ones in Hp by (intros c'; unfold f, g; by destruct (waits c')).
  pose proof (total_two g cl i j c d Hi Hj ltac:(congruence)) as H2. unfold g in H2 at 1 2. rewrite Hc, Hd in H2. lia.
Qed.
(** Many parties change at once: [h] is what becomes of a party; the operations
    that do not [keep] leave the line, and so do their parties. *)
Lemma lined_filter (h : C → C) (keep : addr * op → bool) cl q :
  lined cl q →
  (∀ i c po, stands i c po → waits c = true →
    if keep po then stands i (h c) po ∧ waits (h c) = true else waits (h c) = false) →
  (∀ c, waits c = false → waits (h c) = false) → lined (h <$> cl) (filter (λ po, keep po) q).
Proof.
  intros (js & Hnd & Hl & Hw) Hh H0.
  assert (∀ i c, cl !! i = Some c → waits_at (h <$> cl) i ↔ waits (h c) = true) as Hat.
  { intros i c Hi. apply waits_here. by rewrite list_lookup_fmap, Hi. }
  assert (∀ i, i ∉ js → ¬ waits_at (h <$> cl) i) as Hout.
  { intros i Hn Hi. destruct (cl !! i) as [c|] eqn:Hc; [|unfold waits_at in Hi; by rewrite list_lookup_fmap, Hc in Hi].
    apply (Hat i c Hc) in Hi. destruct (waits c) eqn:E; [|by rewrite H0 in Hi]. by apply Hn, Hw, (waits_here _ _ _ Hc). }
  assert (∀ i, i ∈ js → waits_at cl i) as Hin by (intros i; apply Hw). clear Hw.
  assert (∃ js', NoDup js' ∧ js' ⊆ js ∧
    Forall2 (λ po j, ∃ c, (h <$> cl) !! j = Some c ∧ stands j c po) (filter (λ po, keep po) q) js' ∧
    ∀ i, i ∈ js → i ∈ js' ↔ waits_at (h <$> cl) i) as (js' & H1 & Hsub & H2 & H3).
  - clear Hout. induction Hl as [|po j q js (c & Hc & Hs) Hl IH]; [by exists []; split_and!; [constructor|done|constructor|intros i ?%not_elem_of_nil]|].
    apply NoDup_cons in Hnd as [Hj Hnd]. destruct IH as (js' & H1 & Hsub & H2 & H3); [done|intros; apply Hin; by right|].
    specialize (Hh j c po Hs ltac:(apply (waits_here _ _ _ Hc), Hin; by left)). rewrite filter_cons. destruct (keep po) eqn:Hk.
    + rewrite decide_True by done. destruct Hh as [Hs' Hw']. exists (j :: js'). split_and!.
      * apply NoDup_cons. split; [set_solver|done].
      * set_solver.
      * constructor; [|done]. exists (h c). by rewrite list_lookup_fmap, Hc.
      * intros i. rewrite !elem_of_cons. intros [->|Hi]; [rewrite (Hat _ _ Hc), Hw'; naive_solver|rewrite <- H3 by done; set_solver].
    + rewrite decide_False by (by intros ?). exists js'. split_and!; [done|set_solver|done|].
      intros i. rewrite elem_of_cons. intros [->|Hi]; [|by apply H3]. rewrite (Hat _ _ Hc), Hh. set_solver.
  - exists js'. split_and!; [done..|]. intros i. destruct (decide (i ∈ js)) as [Hi|Hi]; [by apply H3|].
    split; [set_solver|]. by intros ?%Hout.
Qed.
Lemma lined_start cl : (∀ c, c ∈ cl → waits c = false) → lined cl [].
Proof.
  intros H. exists []. split_and!; [constructor|constructor|]. intros i. split; [by intros ?%not_elem_of_nil|].
  unfold waits_at. destruct (cl !! i) as [c|] eqn:E; [|done]. simpl. rewrite (H c); [done|]. by eapply list_elem_of_lookup_2.
Qed.
End lined.

(** ** Threads that were woken *)

Section kept.
Context {ASIO : Asio}.
Implicit Types (L : gmap addr (list addr)) (w : world) (q : list (addr * op)).

(** The calls of others leave alone what a woken thread still needs: its
    operation, which is done, and its [error_code]. *)
Definition kept w w' : Prop :=
  (∀ p ec, ops w !! p = Some (sync_op ec true) → ops w' !! p = Some (sync_op ec true)) ∧
  (∀ r, is_Some (ecs w !! r) → is_Some (ecs w' !! r)).

Lemma kept_same w w' : same_but_nodes w' w → kept w w'.
Proof. intros [N ->]. by split. Qed.
Lemma kept_enqueued impl po w w' :
  ops w !! po.1 = None → same_but_nodes w' (enqueued impl po w) → kept w w'.
Proof.
  intros Hp [N ->]. split; simpl; [|done]. intros p ec Hpe. rewrite lookup_insert_ne; [done|congruence].
Qed.
Lemma kept_finish L r q ec po w w' :
  world_ok w L → queue w L r q → po ∈ q → same_but_nodes w' (finish ec w po) → kept w w'.
Proof.
  intros Hok Hq Hin [N ->]. split; simpl.
  - intros p e Hp. rewrite ops_finish_ne; [done|]. intros ->. eapply done_unlisted; [done|exact Hp|].
    eapply listed_member; [apply Hq|]. by apply list_elem_of_fmap_2.
  - intros r' Hr'. destruct po as [p []]; simpl; [done..|]. apply lookup_insert_is_Some'. by right.
Qed.

Lemma finish_all_sync ec q w p r b :
  NoDup q.*1 → (p, sync_op r b) ∈ q → ops (finish_all ec q w) !! p = Some (sync_op r true).
Proof.
  revert w. induction q as [|po q IH]; intros w Hnd Hin; [by apply not_elem_of_nil in Hin|].
  rewrite fmap_cons in Hnd. apply NoDup_cons in Hnd as [Hn Hnd]. rewrite finish_all_cons.
  apply elem_of_cons in Hin as [<-|Hin]; [|by apply IH].
  rewrite ops_finish_all_ne by done. apply lookup_insert_eq.
Qed.
Lemma ecs_finish_all ec q w r : is_Some (ecs w !! r) → is_Some (ecs (finish_all ec q w) !! r).
Proof.
  revert w. induction q as [|[p []] q IH]; intros w Hr; [done|rewrite finish_all_cons; apply IH; simpl; try done..].
  apply lookup_insert_is_Some'. by right.
Qed.
Lemma kept_finish_all L r q ec w w' :
  world_ok w L → queue w L r q → same_but_nodes w' (finish_all ec q w) → kept w w'.
Proof.
  intros Hok Hq [N ->]. split; simpl; [|intros r'; apply ecs_finish_all].
  intros p e Hp. rewrite ops_finish_all_ne; [done|]. intros Hin. eapply done_unlisted; [done|exact Hp|].
  eapply listed_member; [apply Hq|done].
Qed.
End kept.
