(* ===== verification/SharedUsers.v ===== *)
(** * Readers and writers

    Any number of users of one shared mutex: coroutines, each with a list of
    accesses, shared or exclusive, that it makes with [async_lock_shared] and
    [async_lock], and threads that write with the blocking [lock]: [user_step] is
    the closed system, with cancellation, in which calls interleave in any order.
    Writers are alone, readers share, every run is short, and at its end everybody
    is done. (Threads that block in [lock_shared] are left out, and read with
    [async_lock_shared] here: [shared_mutex_blocked_reader_stuck] shows why.) *)
From S2P Require Import Prelude Machine Bilist Ops Service Impl SharedMutex SharedMutexSpec Scheduler.

(** ** The users *)

Inductive access := shared | exclusive.
#[export] Instance access_eq_dec : EqDecision access.
Proof. solve_decision. Defined.

(** Where a user is: before its next access, waiting for it, told the outcome of
    its wait, asleep in [lock] with its operation at [p], woken, or inside; it has
    the accesses [todo] to make after that. *)
Inductive user :=
  | us_ready (todo : list access)
  | us_waiting (a : access) (todo : list access)
  | us_told (a : access) (todo : list access) (ec : error_code)
  | us_asleep (todo : list access) (p : addr)
  | us_awake (todo : list access) (p : addr)
  | us_inside (a : access) (todo : list access).

(** The steps that are left, and what is held. *)
Definition user_weight (c : user) : nat :=
  match c with
  | us_ready todo => 4 * length todo
  | us_waiting _ todo | us_asleep todo _ => 4 * length todo + 3
  | us_told _ todo _ | us_awake todo _ => 4 * length todo + 2
  | us_inside _ todo => 4 * length todo + 1
  end.
Definition user_holds (a : access) (c : user) : nat :=
  match c with
  | us_told a' _ no_error | us_inside a' _ => if decide (a' = a) then 1 else 0
  | us_awake _ _ => if decide (exclusive = a) then 1 else 0
  | _ => 0
  end.
Definition waits_for (a : access) (c : user) : bool :=
  match c with
  | us_waiting a' _ => bool_decide (a' = a)
  | us_asleep _ _ => bool_decide (exclusive = a)
  | _ => false
  end.
Definition user_done (c : user) : bool := match c with us_ready [] => true | _ => false end.

(** What becomes of a user whose operation is completed. *)
Definition user_told (ec : error_code) (c : user) : user :=
  match c with us_waiting a todo => us_told a todo ec | _ => c end.
Definition granted_to (ec : error_code) (c : user) : user :=
  match c with us_asleep todo p => us_awake todo p | _ => user_told ec c end.

Lemma waits_for_granted a b c :
  waits_for a c = true →
  user_holds b c = 0 ∧ user_holds b (granted_to no_error c) = (if decide (a = b) then 1 else 0) ∧
  S (user_weight (granted_to no_error c)) = user_weight c ∧ waits_for b (granted_to no_error c) = false.
Proof. destruct c; try done; intros <-%bool_decide_eq_true; simpl; split_and!; try done; lia. Qed.

Section system.
Context {ASIO : Asio} `{!EqDecision handler} (exec : executor) (hnd : nat → handler).

(** Which users write with [lock], and the [error_code]s they pass to it. *)
Context (threads : nat → bool) (ecv : nat → addr).
Implicit Types (cl : list user) (c : user) (i j : nat) (a b : access) (w : world).
Implicit Types (m : shared_mutex_impl) (s : machine shared_mutex_impl) (q : list (addr * op)).
Implicit Types (L : gmap addr (list addr)).

(** The next call of the user [i]; an access that is cancelled is skipped. *)
Definition user_call i c : M shared_mutex_impl user :=
  match c with
  | us_ready (shared :: todo) => async_lock_shared exec (hnd i);; mret (us_waiting shared todo)
  | us_ready (exclusive :: todo) =>
      if threads i then
        r ← lock (ecv i); mret (match r with Returned => us_inside exclusive todo | Blocked p => us_asleep todo p end)
      else async_lock exec (hnd i);; mret (us_waiting exclusive todo)
  | us_told a todo ec => mret (if ec_failed ec then us_ready todo else us_inside a todo)
  | us_awake todo p => b ← sync_wait p; mret (if (b : bool) then us_inside exclusive todo else c)
  | us_inside shared todo => unlock_shared;; mret (us_ready todo)
  | us_inside exclusive todo => unlock;; mret (us_ready todo)
  | us_ready [] | us_waiting _ _ | us_asleep _ _ => ub
  end.

Definition user_hears (e : event) i c : user :=
  match c, e with
  | us_asleep todo p, ev_notify p' => if decide (p' = p) then us_awake todo p else c
  | _, _ => hears hnd user_told e i c
  end.
Abbreviation hear w w' cl := (deliver user_hears (events_since w w') cl).

Inductive user_step : relation (machine shared_mutex_impl * list user) :=
  | ust_call i c c' s s' cl : cl !! i = Some c → user_call i c s = Some (Ok c', s') →
      user_step (s, cl) (s', hear (wld s) (wld s') (<[i := c']> cl))
  | ust_cancel n p s s' cl : slots (wld s) !! n = Some (CancelHandler p (this_ (get_sm (obj s)))) →
      shared_emit n true s = Some (Ok tt, s') → user_step (s, cl) (s', hear (wld s) (wld s') cl).

(** A schedule, as in [Parties]. *)
Definition user_turn (u : nat + positive) (x : machine shared_mutex_impl * list user) :
    option (machine shared_mutex_impl * list user) :=
  match u with
  | inl i =>
      c ← x.2 !! i;
      match user_call i c x.1 with
      | Some (Ok c', s') => Some (s', hear (wld x.1) (wld s') (<[i := c']> x.2))
      | _ => None
      end
  | inr n =>
      c ← slots (wld x.1) !! n;
      if decide (ch_impl c = this_ (get_sm (obj x.1))) then
        match shared_emit n true x.1 with
        | Some (Ok tt, s') => Some (s', hear (wld x.1) (wld s') x.2)
        | _ => None
        end
      else None
  end.
Lemma user_turn_step u x y : user_turn u x = Some y → user_step x y.
Proof.
  destruct x as [s cl], u as [i|n]; simpl.
  - intros (c & Hi & H)%bind_Some. destruct (user_call i c s) as [[[c'|] s']|] eqn:E; try done.
    injection H as <-. by eapply ust_call.
  - intros ([p im] & Hn & H)%bind_Some. simpl in H. case_decide as Him; [|done].
    destruct (shared_emit n true s) as [[[[]|] s']|] eqn:E; try done. injection H as <-. subst im. by eapply ust_cancel.
Qed.

(** ** The invariant *)

Definition in_line i c (po : addr * op) : Prop :=
  match c with
  | us_waiting _ _ => ∃ g, po.2 = basic_op_model g (hnd i)
  | us_asleep _ p => po = (p, sync_op (ecv i) false)
  | _ => False
  end.
Abbreviation line_of a := (lined in_line (waits_for a)).

(** What holds of a user whatever the others do, as in [Rounds]. *)
Definition user_settled m w i c : Prop :=
  (threads i = true → enabled_ (get_mtx m) = true ∧ is_Some (ecs w !! ecv i)) ∧
  match c with us_awake _ p => ops w !! p = Some (sync_op (ecv i) true) | _ => True end.

Definition settled_at m w cl : Prop := ∀ i c, cl !! i = Some c → user_settled m w i c.

Record users_ok (x : machine shared_mutex_impl * list user) : Prop := {
  uo_rep : ∃ L qx qs, shared_rep L (obj x.1) (wld x.1) qx qs ∧ line_of exclusive x.2 qx ∧ line_of shared x.2 qs;
  uo_writer : total (user_holds exclusive) x.2 = if sh_locked (obj x.1) then 1 else 0;
  uo_readers : Z.of_nat (total (user_holds shared) x.2) = locked_shared_ (obj x.1);
  uo_small : (Z.of_nat (length x.2) < 2 ^ 64)%Z;
  uo_settled : settled_at (obj x.1) (wld x.1) x.2
}.

Lemma user_settled_kept m m' w w' i c : get_mtx m' = get_mtx m → kept w w' → user_settled m w i c → user_settled m' w' i c.
Proof. unfold user_settled. intros -> [H1 H2] [Ha Hb]. split; [naive_solver|]. destruct c; auto. Qed.
Lemma settled_at_kept m m' w w' cl : get_mtx m' = get_mtx m → kept w w' → settled_at m w cl → settled_at m' w' cl.
Proof. intros Hm Hk H i c Hi. eapply user_settled_kept; [done..|by apply H]. Qed.
Lemma settled_at_insert m w cl i c : settled_at m w cl → user_settled m w i c → settled_at m w (<[i := c]> cl).
Proof. intros H Hc j d [(<- & <- & _)|[_ Hj]]%list_lookup_insert_Some; auto. Qed.
(** A user who is not asleep after its call. *)
Lemma settled_at_step m m' w w' cl i c c' :
  settled_at m w cl → get_mtx m' = get_mtx m → kept w w' → cl !! i = Some c →
  match c' with us_awake _ _ => False | _ => True end → settled_at m' w' (<[i := c']> cl).
Proof.
  intros H Hm Hk Hi Hc'. apply settled_at_insert; [by eapply settled_at_kept|].
  destruct (user_settled_kept m m' w w' i c Hm Hk (H _ _ Hi)) as [Ht _]. split; [done|]. by destruct c'.
Qed.
(** A user whose operation has been completed. *)
Lemma settled_granted m m' w w' j c po ec cl :
  settled_at m w cl → cl !! j = Some c → in_line j c po → get_mtx m' = get_mtx m → kept w w' →
  same_but_nodes w' (finish ec w po) → settled_at m' w' (<[j := granted_to ec c]> cl).
Proof.
  intros H Hj Hs Hm Hk [N Hw']. apply settled_at_insert; [by eapply settled_at_kept|].
  destruct (user_settled_kept m m' w w' j c Hm Hk (H _ _ Hj)) as [Ht _]. split; [done|].
  destruct c; try done. simpl in *. subst po w'. apply lookup_insert_eq.
Qed.

Context `{!Inj (=) (=) hnd, !Inj (=) (=) ecv} (memory : ∀ i X, allocate (hnd i) X ≠ None).

(** ** What is heard *)

Lemma heard_grant ec po j c : in_line j c po → heard user_hears (completion ec po) j c = granted_to ec c.
Proof.
  destruct po as [p o], c; try done.
  - intros [g Hg]. simpl in Hg. subst o. unfold heard. simpl. by rewrite decide_True.
  - intros [= -> ->]. unfold heard. simpl. by rewrite decide_True.
Qed.
(** Two operations are not at one address. *)
Lemma heard_elsewhere ec po j c i d a cl q :
  NoDup q.*1 → line_of a cl q → po ∈ q → in_line j c po → waits_for a c = true → cl !! i = Some d → i ≠ j →
  heard user_hears (completion ec po) i d = d.
Proof.
  intros Hnd Hl Hpo Hs Hw Hi Hne. destruct po as [p o], c as [|a' todo| |todo p'| |]; try done.
  - destruct Hs as [g Hg]. simpl in Hg. subst o. assert (hnd i ≠ hnd j) as Hh by (by intros ?%(inj hnd)).
    unfold heard. destruct d; simpl; rewrite ?decide_False by done; done.
  - injection Hs as -> ->. apply bool_decide_eq_true in Hw as <-. destruct d as [| | |todo' p''| |]; try done. unfold heard. simpl.
    case_decide as E; [|done]. subst p''. destruct (lined_at _ _ _ _ _ _ Hl Hi eq_refl) as (po & Hpo' & Hs'). simpl in Hs'. subst po.
    exfalso. apply Hne, (inj ecv). pose proof (elem_of_list_to_map_1 (M := gmap addr) _ _ _ Hnd Hpo) as E1.
    pose proof (elem_of_list_to_map_1 (M := gmap addr) _ _ _ Hnd Hpo') as E2. congruence.
Qed.

(** An operation in line is completed, with whatever error. *)
Lemma hear_one a ec cl q1 po q2 :
  NoDup (q1 ++ po :: q2).*1 → line_of a cl (q1 ++ po :: q2) →
  ∃ j c, cl !! j = Some c ∧ waits_for a c = true ∧ in_line j c po ∧
    deliver user_hears (completion ec po) cl = <[j := granted_to ec c]> cl ∧
    line_of a (<[j := granted_to ec c]> cl) (q1 ++ q2) ∧
    ∀ b q, b ≠ a → line_of b cl q → line_of b (<[j := granted_to ec c]> cl) q.
Proof.
  intros Hnd Hl. destruct (lined_remove _ _ _ _ _ _ Hl) as (j & c & Hj & Hs & Hc & Hrem). exists j, c.
  assert (∀ b, waits_for b (granted_to ec c) = false) as Hw by (by intros b; destruct c).
  split_and!; [done..| |by apply Hrem|].
  - rewrite (deliver_only _ _ _ j c Hj); [by rewrite (heard_grant _ _ _ _ Hs)|]. intros i d Hne Hi.
    eapply heard_elsewhere; [exact Hnd|exact Hl|set_solver|exact Hs|exact Hc|exact Hi|done].
  - intros b q Hne Hb. eapply lined_same; [done|exact Hj| |done].
    destruct c; try done; apply bool_decide_eq_true in Hc as <-; by apply bool_decide_eq_false.
Qed.

(** All of a line of readers at once. *)
Lemma hear_all cl q :
  NoDup q.*1 → line_of shared cl q →
  let cl' := deliver user_hears (q ≫= completion no_error) cl in
  line_of shared cl' [] ∧ (∀ q', line_of exclusive cl q' → line_of exclusive cl' q') ∧ length cl' = length cl ∧
  total user_weight cl' + length q = total user_weight cl ∧
  total (user_holds shared) cl' = total (user_holds shared) cl + length q ∧
  total (user_holds exclusive) cl' = total (user_holds exclusive) cl ∧
  ∀ i d, cl' !! i = Some d → ∃ c, cl !! i = Some c ∧ ∀ m w, user_settled m w i c → user_settled m w i d.
Proof.
  revert cl. induction q as [|po q IH]; intros cl Hnd Hl cl'.
  - unfold cl'. simpl. rewrite deliver_nothing. split_and!; auto. intros i d Hd. by exists d.
  - destruct (hear_one shared no_error cl [] po q Hnd Hl) as (j & c & Hj & Hw & Hs & E & Hla & Hlb).
    unfold cl'. rewrite bind_cons, deliver_app, E. apply NoDup_cons in Hnd as [_ Hnd].
    destruct (IH _ Hnd Hla) as (H1 & H2 & H3 & H4 & H5 & H6 & H7).
    destruct (waits_for_granted shared shared c Hw) as (W1 & W2 & W3 & _).
    destruct (waits_for_granted shared exclusive c Hw) as (W4 & W5 & _).
    pose proof (total_insert user_weight _ _ _ (granted_to no_error c) Hj).
    pose proof (total_insert (user_holds shared) _ _ _ (granted_to no_error c) Hj).
    pose proof (total_insert (user_holds exclusive) _ _ _ (granted_to no_error c) Hj).
    rewrite decide_True in W2 by done. rewrite decide_False in W5 by done.
    split_and!; [done| |by rewrite H3, length_insert|simpl; lia|simpl; lia|simpl; lia|].
    + intros q' Hq'. by apply H2, Hlb.
    + intros i d Hd. destruct (H7 i d Hd) as (c1 & Hc1 & Hset).
      apply list_lookup_insert_Some in Hc1 as [(<- & <- & _)|[_ Hc1]]; [|by exists c1].
      exists c. split; [done|]. intros m w Hc. apply Hset. by destruct c.
Qed.

(** ** The calls *)

Definition improves cl (y : machine shared_mutex_impl * list user) : Prop :=
  users_ok y ∧ total user_weight y.2 < total user_weight cl.

(** A step that changes the user [i] only. *)
Lemma improves_one L qx qs m m' w w' cl i c c' :
  users_ok (Machine m w, cl) → cl !! i = Some c → shared_rep L m' w' qx qs →
  line_of exclusive (<[i := c']> cl) qx → line_of shared (<[i := c']> cl) qs → settled_at m' w' (<[i := c']> cl) →
  user_weight c' < user_weight c →
  user_holds exclusive c' + (if sh_locked m then 1 else 0) = user_holds exclusive c + (if sh_locked m' then 1 else 0) →
  (Z.of_nat (user_holds shared c') + locked_shared_ m = Z.of_nat (user_holds shared c) + locked_shared_ m')%Z →
  improves cl (Machine m' w', <[i := c']> cl).
Proof.
  intros [_ Hx Hs Hsm _] Hi Hr Hlx Hls Hset Hlt Hxc Hsc. cbn [fst snd obj] in *.
  pose proof (total_insert (user_holds exclusive) cl i c c' Hi). pose proof (total_insert (user_holds shared) cl i c c' Hi).
  pose proof (total_insert user_weight cl i c c' Hi). split; [|simpl; lia]. split; cbn [fst snd obj wld].
  - by exists L, qx, qs.
  - destruct (sh_locked m), (sh_locked m'); lia.
  - lia.
  - by rewrite length_insert.
  - done.
Qed.

Lemma lined_same_both cl i c c' qx qs :
  line_of exclusive cl qx → line_of shared cl qs → cl !! i = Some c → (∀ a, waits_for a c = false) →
  (∀ a, waits_for a c' = false) → line_of exclusive (<[i := c']> cl) qx ∧ line_of shared (<[i := c']> cl) qs.
Proof. intros Hx Hs Hi Hc Hc'. split; by eapply lined_same. Qed.

(** There is room for one more reader. *)
Lemma room cl i todo q :
  line_of shared cl q → cl !! i = Some (us_ready todo) → total (user_holds shared) cl + length q + 1 ≤ length cl.
Proof.
  intros Hl Hi. rewrite (lined_length _ _ (us_ready []) _ _ eq_refl Hl), <- total_plus.
  set (f := λ c, user_holds shared c + if waits_for shared c then 1 else 0).
  pose proof (total_insert f cl i _ (us_inside shared []) Hi) as T.
  assert (total f (<[i := us_inside shared []]> cl) ≤ length (<[i := us_inside shared []]> cl)) as Hle.
  { apply total_length. intros [todo'|[] todo'|[] todo' []|todo' p|todo' p|[] todo']; unfold f; simpl; lia. }
  rewrite length_insert in Hle. unfold f in T, Hle |- *. simpl in T. lia.
Qed.

(** A handler that is dispatched at once. *)
Lemma hear_dispatch cl i a todo g c w w' :
  cl !! i = Some c → trace w' = trace w ++ [ev_dispatch g (hnd i) no_error] →
  hear w w' (<[i := us_waiting a todo]> cl) = <[i := us_told a todo no_error]> cl.
Proof.
  intros Hi Htr. assert (<[i := us_waiting a todo]> cl !! i = Some (us_waiting a todo)) as Hi'.
  { rewrite list_lookup_insert_eq; [done|by eapply lookup_lt_Some]. }
  rewrite (deliver_one user_hears _ _ _ _ i _ Htr Hi'); unfold heard.
  - simpl. by rewrite decide_True, list_insert_insert_eq.
  - intros j d Hne _. assert (hnd j ≠ hnd i) as Hh by (by intros ?%(inj hnd)).
    destruct d; simpl; by rewrite decide_False.
Qed.

Lemma wp_read_moves s cl i todo :
  users_ok (s, cl) → cl !! i = Some (us_ready (shared :: todo)) →
  wp (async_lock_shared exec (hnd i)) s (λ r s', r = Ok tt ∧
    improves cl (s', hear (wld s) (wld s') (<[i := us_waiting shared todo]> cl))).
Proof.
  intros Hok Hi. destruct s as [m w]. pose proof (uo_rep _ Hok) as (L & qx & qs & Hr & Hlx & Hls).
  pose proof (room _ _ _ _ Hls Hi) as Hroom. pose proof (uo_readers _ Hok) as Hrd. pose proof (uo_small _ Hok) as Hsm.
  pose proof (uo_settled _ Hok) as Hset. cbn [fst snd obj wld] in *. eapply wp_async_lock_shared; [exact Hr|lia|].
  destruct (sh_locked m) eqn:Hl.
  - split; [by intros ?%memory|]. intros p N' _ Hp po w' Hr'. split; [done|]. rewrite deliver_none by done.
    eapply improves_one; [done|done|exact Hr'|by eapply lined_same|eapply lined_queue; try done; simpl; by eexists| |simpl; lia|done|done].
    eapply settled_at_step; [done|done| |done|done].
    apply (kept_enqueued (this_ (get_sm m)) po); [by eapply fresh_op; [apply Hr|]|by eexists].
  - split; [done|]. erewrite hear_dispatch by done. pose proof (shared_no_readers _ _ _ _ _ Hr Hl) as ->.
    destruct (lined_same_both cl i _ (us_told shared todo no_error) _ _ Hlx Hls Hi) as [Hlx' Hls']; try done.
    eapply improves_one; [done|done| |exact Hlx'|exact Hls'| |simpl; lia|done|simpl; lia].
    + apply shared_rep_reader; [by apply shared_rep_log|done|lia].
    + by eapply settled_at_step; [..|split|done|].
Qed.

Lemma wp_write_moves s cl i todo :
  users_ok (s, cl) → cl !! i = Some (us_ready (exclusive :: todo)) →
  wp (async_lock exec (hnd i)) s (λ r s', r = Ok tt ∧
    improves cl (s', hear (wld s) (wld s') (<[i := us_waiting exclusive todo]> cl))).
Proof.
  intros Hok Hi. destruct s as [m w]. pose proof (uo_rep _ Hok) as (L & qx & qs & Hr & Hlx & Hls).
  pose proof (uo_settled _ Hok) as Hset. cbn [fst snd obj wld] in *. eapply wp_shared_async_lock; [exact Hr|].
  destruct (negb (sh_locked m) && bool_decide (locked_shared_ m = 0%Z)) eqn:Hfree.
  - apply andb_true_iff in Hfree as [Hl%negb_true_iff Hz%bool_decide_eq_true].
    split; [done|]. erewrite hear_dispatch by done. destruct (shared_free _ _ _ _ _ Hr Hl Hz) as [-> ->].
    destruct (lined_same_both cl i _ (us_told exclusive todo no_error) _ _ Hlx Hls Hi) as [Hlx' Hls']; try done.
    eapply improves_one; [done|done| |exact Hlx'|exact Hls'| |simpl; lia|simpl; rewrite Hl; lia|simpl; lia].
    + by apply shared_rep_lock; [apply shared_rep_log|].
    + by eapply settled_at_step; [..|split|done|].
  - split; [by intros ?%memory|]. intros p N' _ Hp po w' Hr'. split; [done|]. rewrite deliver_none by done.
    eapply improves_one; [done|done|exact Hr'|eapply lined_queue; try done; simpl; by eexists|by eapply lined_same| |simpl; lia|done|done].
    eapply settled_at_step; [done|done| |done|done].
    apply (kept_enqueued (this_ (get_sm m)) po); [by eapply fresh_op; [apply Hr|]|by eexists].
Qed.

(** A thread writes, or falls asleep. *)
Lemma wp_lock_moves s cl i todo :
  users_ok (s, cl) → cl !! i = Some (us_ready (exclusive :: todo)) → threads i = true →
  wp (lock (ecv i)) s (λ r s', ∃ ret, r = Ok ret ∧
    improves cl (s', hear (wld s) (wld s')
      (<[i := match ret with Returned => us_inside exclusive todo | Blocked p => us_asleep todo p end]> cl))).
Proof.
  intros Hok Hi Ht. destruct s as [m w]. pose proof (uo_rep _ Hok) as (L & qx & qs & Hr & Hlx & Hls).
  pose proof (uo_settled _ Hok) as Hset. cbn [fst snd obj wld] in *. destruct (Hset _ _ Hi) as [[Hen He] _]; [done|].
  eapply wp_shared_lock_mt; [exact Hr|done|done|].
  destruct (negb (sh_locked m) && bool_decide (locked_shared_ m = 0%Z)) eqn:Hfree.
  - apply andb_true_iff in Hfree as [Hl%negb_true_iff Hz%bool_decide_eq_true]. intros N' m' Hr'. exists Returned.
    split; [done|]. rewrite deliver_none by done. destruct (shared_free _ _ _ _ _ Hr Hl Hz) as [-> ->].
    destruct (lined_same_both cl i _ (us_inside exclusive todo) _ _ Hlx Hls Hi) as [Hlx' Hls']; try done.
    eapply improves_one; [done|done|exact Hr'|exact Hlx'|exact Hls'| |simpl; lia|simpl; rewrite Hl; lia|simpl; lia].
    by eapply settled_at_step; [..|apply kept_same; eexists|done|].
  - intros p N' Hp po w' Hr'. exists (Blocked p). split; [done|]. rewrite deliver_none by done.
    eapply improves_one; [done|done|exact Hr'|by eapply lined_queue|by eapply lined_same| |simpl; lia|done|done].
    eapply settled_at_step; [done|done| |done|done].
    apply (kept_enqueued (this_ (get_sm m)) po); [by eapply fresh_op; [apply Hr|]|by eexists].
Qed.

(** A thread that was woken goes on. *)
Lemma wp_awake_moves s cl i todo p :
  users_ok (s, cl) → cl !! i = Some (us_awake todo p) →
  wp (sync_wait p) s (λ r s', r = Ok true ∧
    improves cl (s', hear (wld s) (wld s') (<[i := us_inside exclusive todo]> cl))).
Proof.
  intros Hok Hi. destruct s as [m w]. pose proof (uo_rep _ Hok) as (L & qx & qs & Hr & Hlx & Hls).
  pose proof (uo_settled _ Hok) as Hset. cbn [fst snd obj wld] in *. destruct (Hset _ _ Hi) as [Ht Hp].
  eapply wp_shared_resume; [exact Hr|exact Hp|]. intros N' w' Hr'. split; [done|]. rewrite deliver_none by done.
  destruct (lined_same_both cl i _ (us_inside exclusive todo) _ _ Hlx Hls Hi) as [Hlx' Hls']; try done.
  eapply improves_one; [done|done|exact Hr'|exact Hlx'|exact Hls'| |simpl; lia|simpl; lia|simpl; lia].
  intros j d [(<- & <- & _)|[Hne Hj]]%list_lookup_insert_Some; [by split|].
  destruct (Hset _ _ Hj) as [Hd1 Hd2]. split; [done|]. destruct d; try done.
  simpl. rewrite lookup_delete_ne; [done|]. intros ->. rewrite Hp in Hd2. injection Hd2 as ?%(inj ecv). congruence.
Qed.

(** A waiting user is served, in a state that others have made [cl1] of [cl]. *)
Lemma improves_served L qx qs m w cl cl1 j c ec :
  (Z.of_nat (length cl1) < 2 ^ 64)%Z → cl1 !! j = Some c → user_weight (granted_to ec c) < user_weight c →
  (∀ a, user_holds a c = 0) → shared_rep L m w qx qs →
  line_of exclusive (<[j := granted_to ec c]> cl1) qx → line_of shared (<[j := granted_to ec c]> cl1) qs →
  total (user_holds exclusive) cl1 + user_holds exclusive (granted_to ec c) = (if sh_locked m then 1 else 0) →
  (Z.of_nat (total (user_holds shared) cl1 + user_holds shared (granted_to ec c)) = locked_shared_ m)%Z →
  settled_at m w (<[j := granted_to ec c]> cl1) →
  total user_weight cl1 ≤ total user_weight cl → improves cl (Machine m w, <[j := granted_to ec c]> cl1).
Proof.
  intros Hsm Hj Hlt Hz Hr Hlx Hls Hx Hs Hset Hw.
  pose proof (total_insert (user_holds exclusive) _ _ _ (granted_to ec c) Hj) as Tx.
  pose proof (total_insert (user_holds shared) _ _ _ (granted_to ec c) Hj) as Ts.
  pose proof (total_insert user_weight _ _ _ (granted_to ec c) Hj) as Tw. rewrite Hz in Tx, Ts.
  split; [|simpl; lia]. split; cbn [fst snd obj wld]; [by exists L, qx, qs|lia|lia|by rewrite length_insert|done].
Qed.

(** The first writer in line gets the mutex, when nobody has it any more. *)
Lemma hand_over L L' m m' w w' cl cl1 po qx :
  (Z.of_nat (length cl1) < 2 ^ 64)%Z → shared_rep L m w (po :: qx) [] → same_but_nodes w' (finish no_error w po) →
  shared_rep L' m' w' qx [] → get_mtx m' = get_mtx m → sh_locked m' = true → locked_shared_ m' = 0%Z →
  line_of exclusive cl1 (po :: qx) → line_of shared cl1 [] → settled_at m w cl1 →
  total (user_holds exclusive) cl1 = 0 → total (user_holds shared) cl1 = 0 → total user_weight cl1 ≤ total user_weight cl →
  improves cl (Machine m' w', hear w w' cl1).
Proof.
  intros Hsm Hr Hsame Hr' Hm Hl' Hz' Hlx Hls Hset Hx Hs Hw. pose proof (io_world _ _ _ _ (hr_impl _ _ _ _ _ Hr)) as Hok.
  pose proof (hr_waiters _ _ _ _ _ Hr) as Hq. pose proof (queue_NoDup _ _ _ _ Hok Hq) as Hnd.
  destruct (hear_one exclusive no_error cl1 [] po qx Hnd Hlx) as (j & c & Hj & Hc & Hst & E & Hla & Hlb).
  rewrite (events_since_app w w' (completion no_error po)) by (by rewrite (trace_same _ _ Hsame), trace_finish). rewrite E.
  destruct (waits_for_granted exclusive exclusive c Hc) as (H0 & H1 & H2 & _).
  destruct (waits_for_granted exclusive shared c Hc) as (H3 & H4 & _).
  eapply improves_served; [done|done|lia|by intros []|exact Hr'|exact Hla|by apply Hlb|by rewrite Hx, H1, Hl'|by rewrite Hs, H4, Hz'| |done].
  eapply settled_granted; [done|done|exact Hst|done| |done]. eapply kept_finish; [exact Hok|exact Hq|by left|done].
Qed.

Lemma wp_leave_writer s cl i todo :
  users_ok (s, cl) → cl !! i = Some (us_inside exclusive todo) →
  wp unlock s (λ r s', r = Ok tt ∧ improves cl (s', hear (wld s) (wld s') (<[i := us_ready todo]> cl))).
Proof.
  intros Hok Hi. destruct s as [m w]. pose proof (uo_rep _ Hok) as (L & qx & qs & Hr & Hlx & Hls).
  pose proof (uo_writer _ Hok) as Hwr. pose proof (uo_readers _ Hok) as Hrd. pose proof (uo_small _ Hok) as Hsm.
  pose proof (uo_settled _ Hok) as Hset.
  pose proof (total_le (user_holds exclusive) cl i _ Hi) as Hge. cbn [fst snd obj wld] in *. simpl in Hge.
  destruct (sh_locked m) eqn:Hl; [|lia]. pose proof (hr_exclusive _ _ _ _ _ Hr Hl) as Hz.
  destruct (lined_same_both cl i _ (us_ready todo) _ _ Hlx Hls Hi) as [Hlx' Hls']; try done.
  pose proof (total_insert (user_holds exclusive) cl i _ (us_ready todo) Hi) as Tx.
  pose proof (total_insert (user_holds shared) cl i _ (us_ready todo) Hi) as Ts.
  pose proof (total_insert user_weight cl i _ (us_ready todo) Hi) as Tw. simpl in Tx, Ts, Tw.
  assert (Z.of_nat (length (<[i := us_ready todo]> cl)) < 2 ^ 64)%Z as Hsm' by (by rewrite length_insert).
  assert (settled_at m w (<[i := us_ready todo]> cl)) as Hset'.
  { eapply settled_at_step; [exact Hset|done|by split|done|done]. }
  eapply wp_shared_unlock; [exact Hr|]. destruct qs as [|pos qs]; [destruct qx as [|po qx]|].
  - intros Hr'. split; [done|]. rewrite deliver_none by done.
    eapply improves_one; [done|done|exact Hr'|done|done|exact Hset'|simpl; lia|simpl; rewrite Hl; lia|simpl; lia].
  - intros N' L' w' Hr' _. split; [done|]. cbn [wld].
    eapply hand_over; [done|exact Hr|apply same_with_nodes|exact Hr'|done|done|done|done|done|done|lia|lia|lia].
  - pose proof (io_world _ _ _ _ (hr_impl _ _ _ _ _ Hr)) as Hwok. pose proof (hr_shared _ _ _ _ _ Hr) as Hq.
    pose proof (queue_NoDup _ _ _ _ Hwok Hq) as Hnd.
    assert (∀ N' L', let w' := with_nodes N' (finish_all no_error (pos :: qs) w) in
      let m' := set_locked_shared (Z.of_nat (length (pos :: qs))) (set_sh_locked false m) in
      shared_rep L' m' w' qx [] →
      improves cl (Machine m' w', hear w w' (<[i := us_ready todo]> cl))) as H.
    { intros N' L' w' m' Hr'. destruct (hear_all _ _ Hnd Hls') as (H1 & H2 & H3 & H4 & H5 & H6 & H7).
      rewrite (events_since_app w w' ((pos :: qs) ≫= completion no_error)) by apply trace_finish_all.
      split; [split; cbn [fst snd obj wld]|].
      - exists L', qx, []. split_and!; [done|by apply H2|done].
      - rewrite H6. simpl. lia.
      - rewrite H5. simpl. lia.
      - by rewrite H3.
      - intros j d Hd. destruct (H7 j d Hd) as (c & Hc & Hcd). apply Hcd.
        eapply user_settled_kept; [done| |by apply Hset']. eapply kept_finish_all; [exact Hwok|exact Hq|apply same_with_nodes].
      - simpl in *. lia. }
    destruct qx as [|po qx]; intros N' L' w' m' Hr' _; (split; [done|by eapply H]).
Qed.

Lemma wp_leave_reader s cl i todo :
  users_ok (s, cl) → cl !! i = Some (us_inside shared todo) →
  wp unlock_shared s (λ r s', r = Ok tt ∧ improves cl (s', hear (wld s) (wld s') (<[i := us_ready todo]> cl))).
Proof.
  intros Hok Hi. destruct s as [m w]. pose proof (uo_rep _ Hok) as (L & qx & qs & Hr & Hlx & Hls).
  pose proof (uo_writer _ Hok) as Hwr. pose proof (uo_readers _ Hok) as Hrd. pose proof (uo_small _ Hok) as Hsm.
  pose proof (uo_settled _ Hok) as Hset.
  pose proof (total_le (user_holds shared) cl i _ Hi) as Hge. cbn [fst snd obj wld] in *. simpl in Hge.
  assert (sh_locked m = false) as Hl.
  { destruct (sh_locked m) eqn:Hl; [|done]. pose proof (hr_exclusive _ _ _ _ _ Hr Hl). lia. }
  pose proof (shared_no_readers _ _ _ _ _ Hr Hl) as ->.
  destruct (lined_same_both cl i _ (us_ready todo) _ _ Hlx Hls Hi) as [Hlx' Hls']; try done.
  pose proof (total_insert (user_holds exclusive) cl i _ (us_ready todo) Hi) as Tx.
  pose proof (total_insert (user_holds shared) cl i _ (us_ready todo) Hi) as Ts.
  pose proof (total_insert user_weight cl i _ (us_ready todo) Hi) as Tw. simpl in Tx, Ts, Tw. rewrite Hl in Hwr.
  assert (Z.of_nat (length (<[i := us_ready todo]> cl)) < 2 ^ 64)%Z as Hsm' by (by rewrite length_insert).
  assert (settled_at m w (<[i := us_ready todo]> cl)) as Hset'.
  { eapply settled_at_step; [exact Hset|done|by split|done|done]. }
  eapply wp_unlock_shared; [exact Hr|lia|]. case_bool_decide as H1; [destruct qx as [|po qx]|].
  - intros Hr'. split; [done|]. rewrite deliver_none by done.
    eapply improves_one; [done|done|exact Hr'|done|done|by eapply settled_at_kept; [..|exact Hset']|simpl; lia|done|simpl; lia].
  - intros N' L' w' m' Hr' _. split; [done|]. cbn [wld].
    eapply hand_over; [done|exact Hr|apply same_with_nodes|exact Hr'|done|done|simpl; lia|done|done|done|lia|lia|lia].
  - intros Hr'. split; [done|]. rewrite deliver_none by done.
    eapply improves_one; [done|done|exact Hr'|done|done|by eapply settled_at_kept; [..|exact Hset']|simpl; lia|done|simpl; lia].
Qed.

Definition moving c : bool := match c with us_ready [] | us_waiting _ _ | us_asleep _ _ => false | _ => true end.

Lemma wp_user_call s cl i c :
  users_ok (s, cl) → cl !! i = Some c → moving c = true →
  wp (user_call i c) s (λ r s', ∃ c', r = Ok c' ∧ improves cl (s', hear (wld s) (wld s') (<[i := c']> cl))).
Proof.
  intros Hok Hi Hc. destruct c as [[|[] todo]| |a todo ec|todo p|todo p|[] todo]; try done; cbn [user_call].
  2: destruct (threads i) eqn:Ht.
  1,3,6,7: apply wp_bind; eapply wp_mono;
    [first [by eapply wp_read_moves|by eapply wp_write_moves|by eapply wp_leave_writer|by eapply wp_leave_reader]|];
    intros r s' [-> H]; apply wp_ret; by eexists.
  - apply wp_bind. eapply wp_mono; [by eapply wp_lock_moves|]. intros r s' (ret & -> & H). apply wp_ret. by eexists.
  - destruct s as [m w]. pose proof (uo_rep _ Hok) as (L & qx & qs & Hr & Hlx & Hls). apply wp_ret. eexists. split; [done|].
    pose proof (uo_settled _ Hok) as Hset. rewrite deliver_none by done. unfold ec_failed. case_bool_decide as Hec.
    + destruct (lined_same_both cl i _ (us_ready todo) _ _ Hlx Hls Hi) as [Hlx' Hls']; try done.
      eapply improves_one; [done|done|exact Hr|done|done| |simpl; lia|by destruct ec|by destruct ec].
      eapply settled_at_step; [exact Hset|done|by split|done|done].
    + subst ec. destruct (lined_same_both cl i _ (us_inside a todo) _ _ Hlx Hls Hi) as [Hlx' Hls']; try done.
      eapply improves_one; [done|done|exact Hr|done|done| |simpl; lia|done|done].
      eapply settled_at_step; [exact Hset|done|by split|done|done].
  - apply wp_bind. eapply wp_mono; [by eapply wp_awake_moves|]. intros r s' [-> H]. apply wp_ret. by eexists.
Qed.
Lemma user_call_moving s i c r : user_call i c s = Some r → moving c = true.
Proof. by destruct c as [[|[] todo]| | | | |[] todo]. Qed.

(** ** Cancellation *)

(** An operation leaves the line [a], and the user is told. *)
Lemma improves_aborted a L L' m w cl n q1 q2 p o r N' qx qs qx' qs' :
  users_ok (Machine m w, cl) → shared_rep L m w qx qs → slots w !! n = Some (CancelHandler p (this_ (get_sm m))) →
  queue w L r (q1 ++ (p, o) :: q2) → line_of a cl (q1 ++ (p, o) :: q2) →
  let w' := with_nodes N' (finish operation_aborted w (p, o)) in
  shared_rep L' m w' qx' qs' →
  (∀ cl', line_of a cl' (q1 ++ q2) → (∀ b q, b ≠ a → line_of b cl q → line_of b cl' q) →
    line_of exclusive cl' qx' ∧ line_of shared cl' qs') →
  improves cl (Machine m w', hear w w' cl).
Proof.
  intros Hok Hr Hs Hq Hl w' Hr' Hlines. pose proof (io_world _ _ _ _ (hr_impl _ _ _ _ _ Hr)) as Hwok.
  pose proof (uo_writer _ Hok) as Hwr. pose proof (uo_readers _ Hok) as Hrd. pose proof (uo_small _ Hok) as Hsm.
  pose proof (uo_settled _ Hok) as Hset. cbn [fst snd obj wld] in *. pose proof (queue_NoDup _ _ _ _ Hwok Hq) as Hnd.
  destruct (hear_one a operation_aborted cl q1 (p, o) q2 Hnd Hl) as (j & c & Hj & Hc & Hst & E & Hla & Hlb).
  rewrite (events_since_app w w' (completion operation_aborted (p, o))) by apply trace_finish. rewrite E.
  destruct (Hlines _ Hla Hlb) as [Hlx' Hls'].
  assert (∃ todo, c = us_waiting a todo) as [todo ->].
  { destruct (wo_slots _ _ Hwok _ _ Hs) as (o' & Ho' & Hslot & _). simpl in Ho', Hslot.
    rewrite (queue_member _ _ _ _ p o Hq) in Ho' by set_solver. injection Ho' as <-.
    destruct c as [|a' todo| | | |]; try done; [exists todo; by apply bool_decide_eq_true in Hc as <-|].
    injection Hst as -> ->. done. }
  eapply improves_served; [done|done|simpl; lia|done|exact Hr'|exact Hlx'|exact Hls'|simpl; lia|simpl; lia| |done].
  eapply settled_granted; [done|done|exact Hst|done| |apply same_with_nodes].
  eapply kept_finish; [exact Hwok|exact Hq| |apply same_with_nodes]. set_solver.
Qed.

Lemma wp_cancel s cl n p :
  users_ok (s, cl) → slots (wld s) !! n = Some (CancelHandler p (this_ (get_sm (obj s)))) →
  wp (shared_emit n true) s (λ r s', r = Ok tt ∧ improves cl (s', hear (wld s) (wld s') cl)).
Proof.
  intros Hok Hn. destruct s as [m w]. pose proof (uo_rep _ Hok) as (L & qx & qs & Hr & Hlx & Hls). cbn [fst snd obj wld] in *.
  eapply wp_shared_emit; [exact Hr| | |].
  - intros c Hc. by simplify_eq.
  - intros [|?]; congruence.
  - intros _ p' o N' L' Hs w' _. split.
    + intros q1 q2 -> Hr'. split; [done|].
      eapply (improves_aborted exclusive); [done|exact Hr|exact Hs|apply Hr|exact Hlx|exact Hr'|]. intros cl' Ha Hb. split; [done|by apply Hb].
    + intros q1 q2 -> Hr'. split; [done|].
      eapply (improves_aborted shared); [done|exact Hr|exact Hs|apply Hr|exact Hls|exact Hr'|]. intros cl' Ha Hb. split; [by apply Hb|done].
Qed.

(** ** Runs *)

Lemma user_step_better x y : users_ok x → user_step x y → users_ok y ∧ total user_weight y.2 < total user_weight x.2.
Proof.
  intros Hok Hst. destruct Hst as [i c c' s s' cl Hi Hc|n p s s' cl Hn Hc].
  - pose proof (wp_user_call s cl i c Hok Hi (user_call_moving _ _ _ _ Hc)) as H. unfold wp in H. rewrite Hc in H.
    by destruct H as (? & [= <-] & ?).
  - pose proof (wp_cancel s cl n p Hok Hn) as H. unfold wp in H. rewrite Hc in H. by destruct H as [_ ?].
Qed.

(** Somebody who owns the mutex moves, and nobody waits for a free mutex. *)
Lemma users_stuck s cl :
  users_ok (s, cl) → (∀ y, ¬ user_step (s, cl) y) →
  forallb user_done cl = true ∧ sh_locked (obj s) = false ∧ locked_shared_ (obj s) = 0%Z.
Proof.
  intros Hok Hstuck. assert (∀ i c, cl !! i = Some c → moving c = false) as Hm.
  { intros i c Hi. apply not_true_is_false. intros Hc. pose proof (wp_user_call s cl i c Hok Hi Hc) as H.
    unfold wp in H. destruct (user_call i c s) as [[r s']|] eqn:E; [|done]. destruct H as (c' & -> & _).
    eapply Hstuck. by eapply ust_call. }
  assert (∀ a, total (user_holds a) cl = 0) as Hz.
  { intros a. apply total_zero. intros c (i & Hi)%list_elem_of_lookup. specialize (Hm i c Hi). by destruct c. }
  destruct Hok as [(L & qx & qs & Hr & Hlx & Hls) Hwr Hrd _ _]. cbn [fst snd] in *. rewrite Hz in Hwr, Hrd.
  assert (sh_locked (obj s) = false) as Hl by (by destruct (sh_locked (obj s))).
  assert (locked_shared_ (obj s) = 0%Z) as H0 by (simpl in Hrd; lia).
  destruct (shared_free _ _ _ _ _ Hr Hl H0) as [-> ->]. split_and!; [|done..].
  apply Is_true_true_1, forallb_True, Forall_lookup. intros i c Hi. specialize (Hm i c Hi).
  pose proof (lined_nil _ _ _ _ _ Hlx Hi). pose proof (lined_nil _ _ _ _ _ Hls Hi).
  by destruct c as [[|]|[]| | | |].
Qed.

Definition fresh_user c : bool := match c with us_ready _ => true | _ => false end.

Lemma users_ok_start L m w cl :
  shared_rep L m w [] [] → sh_locked m = false → locked_shared_ m = 0%Z →
  forallb fresh_user cl = true → (Z.of_nat (length cl) < 2 ^ 64)%Z →
  (∀ i, threads i = true → enabled_ (get_mtx m) = true ∧ is_Some (ecs w !! ecv i)) → users_ok (Machine m w, cl).
Proof.
  intros Hr Hl Hz Hf Hsm Ht. assert (∀ c, c ∈ cl → ∃ todo, c = us_ready todo) as Hc.
  { intros c Hin. apply Is_true_true_2, forallb_True in Hf. rewrite Forall_forall in Hf. specialize (Hf c Hin).
    destruct c as [todo| | | | |]; try done. by exists todo. }
  assert (∀ a, total (user_holds a) cl = 0) as H0 by (intros a; apply total_zero; by intros c [todo ->]%Hc).
  split; cbn [fst snd obj wld]; [|by rewrite H0, Hl|by rewrite H0, Hz|done|].
  2: { intros i c Hi. destruct (Hc c (list_elem_of_lookup_2 _ _ _ Hi)) as [todo ->]. split; [auto|done]. }
  exists L, [], []. split_and!; [done|..]; apply lined_start; by intros c [todo ->]%Hc.
Qed.

Lemma user_step_length k x y : nsteps user_step k x y → length y.2 = length x.2.
Proof.
  induction 1 as [|k x y z Hst _ IH]; [done|]. rewrite IH. destruct Hst; simpl; rewrite length_deliver; [|done].
  apply length_insert.
Qed.
End system.

(** Which users are inside, and how. *)
Definition inside_as (a : access) (c : user) : bool :=
  match c with us_inside a' _ => bool_decide (a' = a) | _ => false end.

Section property.
Context {ASIO : Asio} `{!EqDecision handler}.

(** C11: readers and writers. Let fewer than [2 ^ 64] users share one shared
    mutex, each for a list of accesses, shared or exclusive: coroutines, and
    threads that block in [lock(ec)] to write. In whatever order their calls come,
    and whichever waits of coroutines are cancelled, a user that is inside for
    writing is alone inside; at most [4 * n] steps are made for a user of [n]
    accesses, so nobody waits for ever; and a state in which nothing can happen any
    more is one in which every user has made all accesses and the mutex is free,
    with no reader counted. *)
Theorem shared_users_finish exec hnd threads ecv L m w k s cl0 cl :
  Inj (=) (=) hnd → Inj (=) (=) ecv → (∀ i X, allocate (hnd i) X ≠ None) →
  shared_rep L m w [] [] → sh_locked m = false → locked_shared_ m = 0%Z →
  forallb fresh_user cl0 = true → (Z.of_nat (length cl0) < 2 ^ 64)%Z →
  (∀ i, threads i = true → enabled_ (get_mtx m) = true ∧ is_Some (ecs w !! ecv i)) →
  nsteps (user_step exec hnd threads ecv) k (Machine m w, cl0) (s, cl) →
  length cl = length cl0 ∧
  (∀ i j c d a, cl !! i = Some c → cl !! j = Some d → inside_as exclusive c = true → inside_as a d = true → i = j) ∧
  k + total user_weight cl ≤ total user_weight cl0 ∧
  ((∀ y, ¬ user_step exec hnd threads ecv (s, cl) y) →
    forallb user_done cl = true ∧ sh_locked (obj s) = false ∧ locked_shared_ (obj s) = 0%Z).
Proof.
  intros Hinj Hecv Hmem Hr Hl Hz Hf Hsm Ht Hst. pose proof (users_ok_start hnd threads ecv _ _ _ _ Hr Hl Hz Hf Hsm Ht) as Hok.
  destruct (nsteps_shrink (user_step exec hnd threads ecv) (users_ok hnd threads ecv) (λ x, total user_weight x.2) _ _ _
    (user_step_better exec hnd threads ecv Hmem) Hok Hst) as [Hok' Hle].
  split_and!; [by apply (user_step_length _ _ _ _ _ _ _ Hst)| |done|by eapply users_stuck].
  intros i j c d a Hi Hj Hc Hd. destruct (decide (i = j)) as [|Hne]; [done|]. exfalso.
  destruct Hok' as [(L' & qx & qs & Hr' & _) Hwr Hrd _ _]. cbn [fst snd] in *.
  destruct c as [| | | | |b todo]; try done. apply bool_decide_eq_true in Hc as ->.
  destruct d as [| | | | |b todo']; try done. apply bool_decide_eq_true in Hd as ->.
  pose proof (total_le (user_holds exclusive) cl i _ Hi) as H1. simpl in H1.
  destruct (sh_locked (obj s)) eqn:Hs; [|lia]. destruct a.
  - pose proof (total_le (user_holds shared) cl j _ Hj) as H2. simpl in H2.
    pose proof (hr_exclusive _ _ _ _ _ Hr' Hs). lia.
  - pose proof (total_two (user_holds exclusive) cl i j _ _ Hi Hj Hne) as H2. simpl in H2. lia.
Qed.
End property.

(** ** At work *)

Section witness.
#[local] Existing Instance test_asio.

(** Two readers, then a writer, a third reader behind it, and a thread that
    writes; the writer comes back and its second wait is cancelled. *)
Definition demo_hnd (i : nat) : nat := 14 + i.
Definition demo_writers (i : nat) : bool := Nat.eqb i 4.
Definition demo_user_ecv (i : nat) : addr := match i with 4 => 1%positive | 0 => 5%positive | _ => Pos.of_succ_nat i end.
Definition demo_users : list user :=
  [us_ready [shared]; us_ready [shared; exclusive]; us_ready [exclusive; exclusive]; us_ready [shared]; us_ready [exclusive]].
Definition demo_free : machine shared_mutex_impl * list user :=
  (Machine (obj (demo_shared true)) (wld (demo_shared true)), demo_users).
Definition demo_schedule : list (nat + positive) :=
  [inl 0; inl 1; inl 2; inl 4; inl 0; inl 1; inl 0; inl 1; inl 2; inl 1; inl 2; inl 3; inl 4; inl 4; inl 3; inl 3;
   inl 1; inl 2; inr 16%positive; inl 2; inl 1].
Definition demo_last : machine shared_mutex_impl * list user :=
  default demo_free (play (user_turn (ASIO := test_asio) 0 demo_hnd demo_writers demo_user_ecv) demo_schedule demo_free).
Definition demo_user_step : relation (machine shared_mutex_impl * list user) :=
  user_step (ASIO := test_asio) 0 demo_hnd demo_writers demo_user_ecv.

Lemma demo_users_run : nsteps demo_user_step 21 demo_free (demo_last.1, demo_last.2).
Proof. eapply (play_nsteps demo_user_step _ demo_schedule); [apply user_turn_step|]. vm_compute. reflexivity. Qed.
Example demo_all_done : demo_last.2 = replicate 5 (us_ready []).
Proof. vm_compute. reflexivity. Qed.
Lemma demo_user_ecv_inj : Inj (=) (=) demo_user_ecv.
Proof. intros [|[|[|[|[|i]]]]] [|[|[|[|[|j]]]]]; simpl; lia. Qed.

Lemma shared_users_finish_witness :
  length demo_last.2 = 5 ∧
  (∀ i j c d a, demo_last.2 !! i = Some c → demo_last.2 !! j = Some d →
    inside_as exclusive c = true → inside_as a d = true → i = j) ∧
  21 + total user_weight demo_last.2 ≤ 28 ∧
  ((∀ y, ¬ demo_user_step (demo_last.1, demo_last.2) y) →
    forallb user_done demo_last.2 = true ∧ sh_locked (obj demo_last.1) = false ∧ locked_shared_ (obj demo_last.1) = 0%Z).
Proof.
  apply (shared_users_finish (ASIO := test_asio) 0 demo_hnd demo_writers demo_user_ecv demo_shared_lists
    (obj (demo_shared true)) (wld (demo_shared true)) 21 demo_last.1 demo_users demo_last.2).
  - intros i j. unfold demo_hnd. lia.
  - exact demo_user_ecv_inj.
  - intros [|i] X; done.
  - apply demo_shared_rep.
  - vm_compute. reflexivity.
  - vm_compute. reflexivity.
  - reflexivity.
  - simpl. lia.
  - intros [|[|[|[|[|i]]]]] Hi; done.
  - exact demo_users_run.
Defined.
End witness.
