(* ===== verification/Rounds.v ===== *)
(** * Rounds of a barrier

    Coroutines that call [async_arrive] and threads that call [arrive], as many as
    the barrier waits for, each going through the same number of rounds:
    [arriver_step] is the closed system, in which handlers that were posted run
    whenever the scheduler likes and calls interleave, the two critical sections
    of [async_arrive] with those of other calls too. One thing is excluded, which
    [barrier_async_arrive_race] shows must be: the last party of a round does not
    come while another one is between its two critical sections. Then nobody is a
    round ahead of anybody, every run is short, and at its end everybody has made
    all rounds. *)
From S2P Require Import Prelude Machine Bilist Ops Service Impl Barrier Scheduler.

(** ** The parties *)

(** Where a party is that has [n] more rounds to begin: between rounds, between
    the two critical sections of [async_arrive], suspended until its handler is
    called, told (its handler has been handed to its executor), asleep in
    [arrive] with its operation at [p], woken. *)
Inductive arriver :=
  | ar_ready (n : nat)
  | ar_between (n : nat)
  | ar_suspended (n : nat)
  | ar_told (n : nat)
  | ar_asleep (n : nat) (p : addr)
  | ar_awake (n : nat) (p : addr).

(** The steps that are left, and the rounds that have not opened. *)
Definition arriver_weight (c : arriver) : nat :=
  match c with
  | ar_ready n => 3 * n
  | ar_between n => 3 * n + 2
  | ar_suspended n | ar_told n | ar_asleep n _ | ar_awake n _ => 3 * n + 1
  end.
Definition closed_rounds (c : arriver) : nat :=
  match c with
  | ar_ready n | ar_told n | ar_awake n _ => n
  | ar_between n | ar_suspended n | ar_asleep n _ => S n
  end.
Definition at_barrier (c : arriver) : bool :=
  match c with ar_suspended _ | ar_asleep _ _ => true | _ => false end.
(** Parties that have seen that they are not the last and are not yet in line,
    and parties that have not come to the barrier in this round. *)
Definition between (c : arriver) : nat := match c with ar_between _ => 1 | _ => 0 end.
Definition outside (c : arriver) : nat := match c with ar_ready _ | ar_told _ | ar_awake _ _ => 1 | _ => 0 end.
Definition all_rounds_made (c : arriver) : bool := match c with ar_ready O => true | _ => false end.

(** A party whose round has opened. *)
Definition released (c : arriver) : arriver :=
  match c with
  | ar_suspended n => ar_told n
  | ar_asleep n p => ar_awake n p
  | _ => c
  end.

Section system.
Context {ASIO : Asio} `{!EqDecision handler}.

(** Which parties are threads; the coroutines' executor and handlers, and the
    [error_code]s the threads pass to [arrive]. *)
Context (threads : nat → bool) (exec : executor) (hnd : nat → handler) (ecv : nat → addr).
Implicit Types (cl : list arriver) (c : arriver) (i j : nat) (w : world) (L : gmap addr (list addr)).
Implicit Types (m : barrier_impl) (s : machine barrier_impl) (q : list (addr * op)) (e : event) (es : list event).

Definition arriver_call i c : M barrier_impl arriver :=
  match c with
  | ar_ready (S n) =>
      if threads i then
        r ← arrive (ecv i); mret (match r with Returned => ar_ready n | Blocked p => ar_asleep n p end)
      else b ← async_arrive_try exec (hnd i); mret (if (b : bool) then ar_suspended n else ar_between n)
  | ar_between n => async_arrive_enqueue exec (hnd i);; mret (ar_suspended n)
  | ar_told n => mret (ar_ready n)
  | ar_awake n p => b ← sync_wait p; mret (if (b : bool) then ar_ready n else ar_awake n p)
  | ar_ready O | ar_suspended _ | ar_asleep _ _ => ub
  end.

(** A party goes on only when it is told that the barrier has opened. *)
Definition arriver_hears e i c : arriver :=
  match c, e with
  | ar_suspended _, (ev_post _ h no_error | ev_dispatch _ h no_error) => if decide (hnd i = h) then released c else c
  | ar_asleep _ p, ev_notify p' => if decide (p' = p) then released c else c
  | _, _ => c
  end.
Abbreviation hear w w' cl := (deliver arriver_hears (events_since w w') cl).

(** A party comes to the barrier only if nobody is between two critical sections
    or somebody else has still to come (two are outside, with itself). *)
Definition may_call cl c : bool :=
  match c with ar_ready _ => (total between cl =? 0) || (2 <=? total outside cl) | _ => true end.

Inductive arriver_step : relation (machine barrier_impl * list arriver) :=
  | ars_call i c c' s s' cl : cl !! i = Some c → may_call cl c = true → arriver_call i c s = Some (Ok c', s') →
      arriver_step (s, cl) (s', hear (wld s) (wld s') (<[i := c']> cl)).

Definition arriver_turn i (x : machine barrier_impl * list arriver) : option (machine barrier_impl * list arriver) :=
  c ← x.2 !! i;
  if may_call x.2 c then
    match arriver_call i c x.1 with
    | Some (Ok c', s') => Some (s', hear (wld x.1) (wld s') (<[i := c']> x.2))
    | _ => None
    end
  else None.
Lemma arriver_turn_step i x y : arriver_turn i x = Some y → arriver_step x y.
Proof.
  destruct x as [s cl]. intros (c & Hi & H)%bind_Some. simpl in *. destruct (may_call cl c) eqn:Hm; [|done].
  destruct (arriver_call i c s) as [[[c'|] s']|] eqn:E; try done. injection H as <-. by eapply ars_call.
Qed.

(** ** What is heard *)

Lemma at_barrier_released c : at_barrier (released c) = false.
Proof. by destruct c. Qed.
Lemma released_past c : at_barrier c = false → released c = c.
Proof. by destruct c. Qed.

Lemma hears_cases e i c : arriver_hears e i c = c ∨ arriver_hears e i c = released c.
Proof. destruct c, e; simpl; auto; repeat (case_match; simpl; auto). Qed.
Lemma heard_past es i c : at_barrier c = false → heard arriver_hears es i c = c.
Proof.
  intros Hc. induction es as [|e es IH]; [done|]. unfold heard in *. simpl.
  by replace (arriver_hears e i c) with c by (destruct c, e; done).
Qed.

(** One event that releases a party is enough, whatever else happens. *)
Lemma heard_released es i c :
  (at_barrier c = true → ∃ e, e ∈ es ∧ arriver_hears e i c = released c) → heard arriver_hears es i c = released c.
Proof.
  destruct (at_barrier c) eqn:Hc; intros H; [|by rewrite heard_past, released_past].
  destruct (H eq_refl) as (e & Hin & He). clear H. induction es as [|e' es IH]; [by apply not_elem_of_nil in Hin|].
  unfold heard in *. simpl. assert (arriver_hears e' i c = released c →
    foldl (λ c e, arriver_hears e i c) (arriver_hears e' i c) es = released c) as Hrel.
  { intros ->. apply heard_past, at_barrier_released. }
  apply elem_of_cons in Hin as [<-|Hin]; [auto|]. destruct (hears_cases e' i c) as [E|E]; [rewrite E; auto|auto].
Qed.

(** The operation a party has in line. *)
Definition in_round i c (po : addr * op) : Prop :=
  match c with
  | ar_suspended _ => ∃ g, po.2 = basic_op_model g (hnd i)
  | ar_asleep _ p => po = (p, sync_op (ecv i) false)
  | _ => False
  end.
Abbreviation line := (lined in_round at_barrier).

Lemma in_round_released i c po : in_round i c po → ∃ e, e ∈ completion no_error po ∧ arriver_hears e i c = released c.
Proof.
  destruct po as [p o], c as [| | | |n p'|]; simpl; try done.
  - intros [g ->]. exists (ev_post g (hnd i) no_error). split; [set_solver|]. simpl. by rewrite decide_True.
  - intros [= -> ->]. exists (ev_notify p'). split; [set_solver|]. simpl. by rewrite decide_True.
Qed.

(** The barrier opens: all that are in line are released, and so is the party
    [i] that came last, when it is told too. *)
Lemma hear_opened w w' q es cl i c :
  line cl q → trace w' = trace w ++ (q ≫= completion no_error) ++ es → i < length cl →
  (at_barrier c = true → ∃ e, e ∈ es ∧ arriver_hears e i c = released c) →
  hear w w' (<[i := c]> cl) = released <$> <[i := c]> cl.
Proof.
  intros Hl Htr Hlt Hes. rewrite (events_since_app _ _ _ Htr). apply list_eq. intros j.
  rewrite deliver_lookup, list_lookup_fmap. destruct (decide (i = j)) as [<-|Hne].
  - rewrite list_lookup_insert_eq by done. simpl. f_equal. apply heard_released. intros Hc.
    destruct (Hes Hc) as (e & He & E). exists e. split; [|done]. apply elem_of_app. by right.
  - rewrite list_lookup_insert_ne by done. destruct (cl !! j) as [d|] eqn:Hj; [|done]. simpl. f_equal.
    apply heard_released. intros Hd. destruct (lined_at _ _ _ _ _ _ Hl Hj Hd) as (po & Hpo & Hs).
    destruct (in_round_released _ _ _ Hs) as (e & He & E). exists e. split; [|done].
    apply elem_of_app. left. apply list_elem_of_bind. by exists po.
Qed.

(** ** The invariant *)

(** Threads run where there are threads and pass an [error_code] that is alive;
    one that was woken finds its operation done. *)
Definition arriver_settled m w i c : Prop :=
  (threads i = true → enabled_ (get_mtx m) = true ∧ is_Some (ecs w !! ecv i)) ∧
  match c with ar_awake _ p => ops w !! p = Some (sync_op (ecv i) true) | _ => True end.

(** Everybody in line has arrived in this round and nobody else has, and all
    parties have the same rounds before them. *)
Record rounds_ok (x : machine barrier_impl * list arriver) : Prop := {
  ro_rep : ∃ L q, barrier_rep L (obj x.1) (wld x.1) q ∧ line x.2 q ∧
    (counter_ (obj x.1) + Z.of_nat (length q) = init_ (obj x.1))%Z;
  ro_parties : init_ (obj x.1) = Z.of_nat (length x.2);
  ro_round : ∃ r, ∀ i c, x.2 !! i = Some c → closed_rounds c = r;
  ro_between : 0 < total between x.2 → 0 < total outside x.2;
  ro_settled i c : x.2 !! i = Some c → arriver_settled (obj x.1) (wld x.1) i c
}.

Lemma settled_stays m m' w w' i c : get_mtx m' = get_mtx m → kept w w' → arriver_settled m w i c → arriver_settled m' w' i c.
Proof. unfold arriver_settled. intros -> [H1 H2] [Ha Hb]. split; [naive_solver|]. destruct c; auto. Qed.

Context `{!Inj (=) (=) hnd, !Inj (=) (=) ecv} (memory : ∀ i X, allocate (hnd i) X ≠ None).

Definition advances cl (y : machine barrier_impl * list arriver) : Prop :=
  rounds_ok y ∧ total arriver_weight y.2 < total arriver_weight cl.

(** The places the barrier waits for: parties that are between, and outside. *)
Lemma places m cl q :
  line cl q → (counter_ m + Z.of_nat (length q) = init_ m)%Z → init_ m = Z.of_nat (length cl) →
  counter_ m = Z.of_nat (total between cl + total outside cl).
Proof.
  intros Hl Hcnt Hn. rewrite (lined_length _ _ (ar_ready 0) _ _ eq_refl Hl) in Hcnt.
  assert (total (λ c, (if at_barrier c then 1 else 0) + (between c + outside c)) cl = length cl) as E
    by (apply total_ones; by intros []).
  rewrite total_plus, total_plus in E. lia.
Qed.

(** A party moves within its round. *)
Lemma advances_one L q m m' w w' cl i c c' :
  rounds_ok (Machine m w, cl) → cl !! i = Some c → barrier_rep L m' w' q → line (<[i := c']> cl) q →
  (counter_ m' + Z.of_nat (length q) = init_ m)%Z → init_ m' = init_ m →
  (0 < total between (<[i := c']> cl) → 0 < total outside (<[i := c']> cl)) →
  arriver_weight c' < arriver_weight c → closed_rounds c' = closed_rounds c → arriver_settled m' w' i c' →
  (∀ j d, j ≠ i → cl !! j = Some d → arriver_settled m' w' j d) →
  advances cl (Machine m' w', <[i := c']> cl).
Proof.
  intros [_ Hn [r Hrd] _ _] Hi Hr Hl Hcnt Hinit Hbt Hlt Heq Hc Hother. cbn [fst snd obj wld] in *.
  pose proof (total_insert arriver_weight cl i c c' Hi). split; [|simpl; lia]. split; cbn [fst snd obj wld].
  - exists L, q. split_and!; [done..|lia].
  - by rewrite Hinit, length_insert.
  - exists r. intros j d Hj. apply list_lookup_insert_Some in Hj as [(<- & <- & _)|[_ Hj]]; [rewrite Heq|]; by eapply Hrd.
  - exact Hbt.
  - intros j d Hj. apply list_lookup_insert_Some in Hj as [(<- & <- & _)|[Hne Hj]]; [done|]. by apply Hother.
Qed.

(** The last party opens the barrier. *)
Lemma advances_opened L L' q es m w w' cl i n c' :
  rounds_ok (Machine m w, cl) → cl !! i = Some (ar_ready (S n)) → barrier_rep L m w q → line cl q → counter_ m = 1%Z →
  (counter_ m + Z.of_nat (length q) = init_ m)%Z →
  let m' := set_counter (init_ m) m in
  barrier_rep L' m' w' [] → trace w' = trace w ++ (q ≫= completion no_error) ++ es →
  (at_barrier c' = true → ∃ e, e ∈ es ∧ arriver_hears e i c' = released c') →
  arriver_weight c' < arriver_weight (ar_ready (S n)) → between c' = 0 → closed_rounds (released c') = n →
  (∀ m w, arriver_settled m w i (ar_ready (S n)) → arriver_settled m w i (released c')) → kept w w' →
  (∀ p r, (p, sync_op r false) ∈ q → ops w' !! p = Some (sync_op r true)) →
  advances cl (Machine m' w', hear w w' (<[i := c']> cl)).
Proof.
  intros Hok Hi Hr Hl H1 Hcnt m' Hr' Htr Hes Hlt Hnb Hcl Hset Hk Hops.
  pose proof Hok as [_ Hn [r Hrd] _ Hs]. cbn [fst snd obj wld] in *.
  assert (∀ j d, j ≠ i → cl !! j = Some d → at_barrier d = true) as Hall.
  { eapply (lined_all_but_one _ _ (ar_ready 0)); [done|exact Hl|exact Hi|done|lia]. }
  rewrite (hear_opened _ _ _ _ _ _ _ Hl Htr) by (done || by eapply lookup_lt_Some).
  pose proof (total_insert arriver_weight cl i _ c' Hi) as Tw.
  assert (∀ c, arriver_weight (released c) = arriver_weight c) as Hrw by (by intros []).
  split; [|cbn [fst snd]; rewrite total_fmap by done; lia]. split; cbn [fst snd obj wld].
  - exists L', []. split_and!; [done| |simpl; lia]. apply lined_start.
    intros c (d & -> & _)%list_elem_of_fmap. apply at_barrier_released.
  - by rewrite length_fmap, length_insert.
  - exists n. intros j d'. rewrite list_lookup_fmap. intros (d & Hj & ->)%fmap_Some.
    apply list_lookup_insert_Some in Hj as [(<- & <- & _)|[Hne Hj]]; [done|].
    pose proof (Hrd _ _ Hi) as E1. pose proof (Hrd _ _ Hj) as E2. simpl in E1. subst r.
    pose proof (Hall j d ltac:(congruence) Hj). destruct d; simpl in *; try done; lia.
  - rewrite total_zero; [lia|]. intros d' (d & -> & (j & Hj)%list_elem_of_lookup)%list_elem_of_fmap.
    apply list_lookup_insert_Some in Hj as [(<- & <- & _)|[Hne Hj]].
    + clear - Hnb. by destruct c'.
    + pose proof (Hall j d ltac:(congruence) Hj). by destruct d.
  - intros j d'. rewrite list_lookup_fmap. intros (d & Hj & ->)%fmap_Some.
    apply list_lookup_insert_Some in Hj as [(<- & <- & _)|[Hne Hj]].
    + apply Hset. eapply settled_stays; [reflexivity|exact Hk|by apply Hs].
    + pose proof (settled_stays m m' w w' j d eq_refl Hk (Hs _ _ Hj)) as Hd.
      destruct d as [| | | |k p|]; try done. destruct Hd as [Hd _]. split; [done|]. simpl.
      destruct (lined_at _ _ _ _ _ _ Hl Hj eq_refl) as (po & Hpo & Hst). simpl in Hst. subst po. by apply Hops.
Qed.

(** ** The calls *)

Definition goes i s cl c' s' : Prop := advances cl (s', hear (wld s) (wld s') (<[i := c']> cl)).

(** The party [i] has come while two were outside, or is not the last. *)
Lemma goes_between s cl q i c c' :
  rounds_ok (s, cl) → line cl q → (counter_ (obj s) + Z.of_nat (length q) = init_ (obj s))%Z → cl !! i = Some c →
  outside c = 1 → may_call cl c = true → counter_ (obj s) ≠ 1%Z → outside c' = 0 →
  match c with ar_ready _ => True | _ => False end →
  0 < total between (<[i := c']> cl) → 0 < total outside (<[i := c']> cl).
Proof.
  intros Hok Hl Hcnt Hi Hc Hm H1 Hc' Hrd Hlt. pose proof (places _ _ _ Hl Hcnt (ro_parties _ Hok)) as E. cbn [snd] in E.
  pose proof (total_insert outside cl i c c' Hi). pose proof (total_le outside cl i c Hi).
  destruct c; try done. unfold may_call in Hm. apply orb_true_iff in Hm as [Hm%Nat.eqb_eq|Hm%Nat.leb_le]; lia.
Qed.

Lemma wp_async_arrive_try_goes s cl i n :
  rounds_ok (s, cl) → cl !! i = Some (ar_ready (S n)) → may_call cl (ar_ready (S n)) = true →
  wp (async_arrive_try exec (hnd i)) s (λ r s', ∃ b, r = Ok b ∧
    goes i s cl (if (b : bool) then ar_suspended n else ar_between n) s').
Proof.
  intros Hok Hi Hm. destruct s as [m w]. pose proof (ro_rep _ Hok) as (L & q & Hr & Hl & Hcnt).
  pose proof (ro_settled _ Hok) as Hs. pose proof Hr as [[Hw _ _] Hq Hc _ _]. cbn [fst snd obj wld] in *.
  eapply wp_async_arrive_try; [exact Hr|]. case_bool_decide as H1.
  - intros N' w' m' Hr'. exists true. split; [done|]. unfold goes. cbn [wld].
    destruct (kept_finish_all _ _ _ no_error _ _ Hw Hq (reflexivity _)) as [Hk1 Hk2].
    eapply (advances_opened L _ q [ev_dispatch _ (hnd i) no_error] m w w' cl i n); try done.
    + unfold w'. simpl. by rewrite trace_finish_all, <- app_assoc.
    + intros _. eexists. split; [by left|]. simpl. by rewrite decide_True.
    + simpl. lia.
    + intros p r Hin. apply (finish_all_sync _ _ _ _ _ false); [by eapply queue_NoDup|done].
  - exists false. split; [done|]. unfold goes. cbn [wld]. rewrite deliver_none by done.
    eapply advances_one; [done|done|exact Hr|by eapply lined_same|lia|done| |simpl; lia|done|by apply (Hs i (ar_ready (S n)))|].
    + by eapply (goes_between (Machine m w)).
    + intros j d _ Hj. by apply Hs.
Qed.

Lemma wp_async_arrive_enqueue_goes s cl i n :
  rounds_ok (s, cl) → cl !! i = Some (ar_between n) →
  wp (async_arrive_enqueue exec (hnd i)) s (λ r s', r = Ok tt ∧ goes i s cl (ar_suspended n) s').
Proof.
  intros Hok Hi. destruct s as [m w]. pose proof (ro_rep _ Hok) as (L & q & Hr & Hl & Hcnt).
  pose proof (ro_settled _ Hok) as Hs. pose proof Hr as [[Hw _ _] Hq Hc _ _]. cbn [fst snd obj wld] in *.
  pose proof (places _ _ _ Hl Hcnt (ro_parties _ Hok)) as E. pose proof (ro_between _ Hok) as Hbt. cbn [snd] in *.
  pose proof (total_le between cl i _ Hi) as Hle. simpl in Hle.
  eapply wp_async_arrive_enqueue; [exact Hr|lia| |].
  - intros Hm. by destruct (memory i (dom (nodes w))).
  - intros p N' _ Hp po w' Hr'. split; [done|]. unfold goes. cbn [wld]. rewrite deliver_none by done.
    assert (kept w w') as Hk.
    { apply (kept_enqueued (this_ (get_sm m)) po); [by apply (fresh_op _ _ _ Hw)|by eexists]. }
    eapply advances_one; [done|done|exact Hr'|eapply lined_queue; try done; simpl; by eexists| |done| |simpl; lia|done| |].
    + rewrite length_app. simpl. lia.
    + pose proof (total_insert outside cl i _ (ar_suspended n) Hi) as T. simpl in T. lia.
    + eapply settled_stays; [done|exact Hk|by apply (Hs i (ar_between n))].
    + intros j d _ Hj. eapply settled_stays; [done|exact Hk|by apply Hs].
Qed.

Lemma wp_arrive_goes s cl i n :
  rounds_ok (s, cl) → cl !! i = Some (ar_ready (S n)) → may_call cl (ar_ready (S n)) = true → threads i = true →
  wp (arrive (ecv i)) s (λ r s', ∃ b, r = Ok b ∧
    goes i s cl (match b with Returned => ar_ready n | Blocked p => ar_asleep n p end) s').
Proof.
  intros Hok Hi Hm Ht. destruct s as [m w]. pose proof (ro_rep _ Hok) as (L & q & Hr & Hl & Hcnt).
  pose proof (ro_settled _ Hok) as Hs. pose proof Hr as [[Hw _ _] Hq Hc _ _]. cbn [fst snd obj wld] in *.
  destruct (Hs _ _ Hi) as [[Hen He] _]; [done|].
  eapply wp_arrive_mt; [exact Hr|done|done|]. case_bool_decide as H1.
  - intros p N' w' m' Hp Hr'. exists Returned. split; [done|]. unfold goes. cbn [wld].
    destruct (kept_finish_all _ _ _ no_error _ _ Hw Hq (reflexivity _)) as [Hk1 Hk2].
    eapply (advances_opened L _ q [ev_notify p] m w w' cl i n); try done.
    + unfold w', arrived_last. simpl. by rewrite trace_finish_all, <- app_assoc.
    + simpl. lia.
    + split; [done|]. intros r' Hr2. apply lookup_insert_is_Some'. right. by apply Hk2.
    + intros p' r Hin. apply (finish_all_sync _ _ _ _ _ false); [by eapply queue_NoDup|done].
  - intros p N' Hp po w' m' Hr'. exists (Blocked p). split; [done|]. unfold goes. cbn [wld]. rewrite deliver_none by done.
    assert (kept w w') as Hk.
    { apply (kept_enqueued (this_ (get_sm m)) po); [by apply (fresh_op _ _ _ Hw)|by eexists]. }
    eapply advances_one; [done|done|exact Hr'|by eapply lined_queue| |done| |simpl; lia|done| |].
    + rewrite length_app. simpl. lia.
    + by eapply (goes_between (Machine m w)).
    + eapply settled_stays; [done|exact Hk|by apply (Hs i (ar_ready (S n)))].
    + intros j d _ Hj. eapply settled_stays; [done|exact Hk|by apply Hs].
Qed.

Lemma still_outside s cl i c c' :
  rounds_ok (s, cl) → cl !! i = Some c → outside c = 1 → outside c' = 1 →
  0 < total between (<[i := c']> cl) → 0 < total outside (<[i := c']> cl).
Proof. intros Hok Hi Hc Hc' _. pose proof (total_insert outside cl i c c' Hi). pose proof (total_le outside cl i c Hi). lia. Qed.

Lemma wp_awake_goes s cl i n p :
  rounds_ok (s, cl) → cl !! i = Some (ar_awake n p) →
  wp (sync_wait p) s (λ r s', r = Ok true ∧ goes i s cl (ar_ready n) s').
Proof.
  intros Hok Hi. destruct s as [m w]. pose proof (ro_rep _ Hok) as (L & q & Hr & Hl & Hcnt).
  pose proof (ro_settled _ Hok) as Hs. cbn [fst snd obj wld] in *. destruct (Hs _ _ Hi) as [Ht Hp].
  eapply wp_barrier_resume; [exact Hr|exact Hp|]. intros N' w' Hr'. split; [done|]. unfold goes. cbn [wld].
  rewrite deliver_none by done.
  eapply advances_one; [done|done|exact Hr'|by eapply lined_same|lia|done|by eapply still_outside|simpl; lia|done|by split|].
  intros j d Hne Hj. destruct (Hs _ _ Hj) as [Hd1 Hd2]. split; [done|]. destruct d; try done.
  simpl. rewrite lookup_delete_ne; [done|]. intros ->. rewrite Hp in Hd2. injection Hd2 as ?%(inj ecv). congruence.
Qed.

Definition underway c : bool := negb (at_barrier c || all_rounds_made c).

Lemma wp_arriver_call s cl i c :
  rounds_ok (s, cl) → cl !! i = Some c → may_call cl c = true → underway c = true →
  wp (arriver_call i c) s (λ r s', ∃ c', r = Ok c' ∧ goes i s cl c' s').
Proof.
  intros Hok Hi Hm Hc. destruct c as [[|n]|n|n|n|n p|n p]; try done; cbn [arriver_call].
  - destruct (threads i) eqn:Ht; apply wp_bind.
    + eapply wp_mono; [by eapply wp_arrive_goes|]. intros r s' (b & -> & H). apply wp_ret. by eexists.
    + eapply wp_mono; [by eapply wp_async_arrive_try_goes|]. intros r s' (b & -> & H). apply wp_ret. by eexists.
  - apply wp_bind. eapply wp_mono; [by eapply wp_async_arrive_enqueue_goes|]. intros r s' [-> H]. apply wp_ret. by eexists.
  - destruct s as [m w]. pose proof (ro_rep _ Hok) as (L & q & Hr & Hl & Hcnt). cbn [fst snd obj wld] in *.
    apply wp_ret. eexists. split; [done|]. unfold goes. rewrite deliver_none by done.
    eapply advances_one; [done|done|exact Hr|by eapply lined_same|lia|done|by eapply still_outside|simpl; lia|done| |].
    + destruct (ro_settled _ Hok _ _ Hi) as [H _]. by split.
    + intros j d _ Hj. by apply (ro_settled _ Hok).
  - apply wp_bind. eapply wp_mono; [by eapply wp_awake_goes|]. intros r s' [-> H]. apply wp_ret. by eexists.
Qed.

(** ** Steps and runs *)

Lemma arriver_call_underway i c s r : arriver_call i c s = Some r → underway c = true.
Proof. by destruct c as [[]| | | | |]. Qed.

Lemma arriver_step_advances x y : rounds_ok x → arriver_step x y → advances x.2 y.
Proof.
  intros Hok Hst. destruct Hst as [i c c' s s' cl Hi Hm Hc].
  pose proof (wp_arriver_call s cl i c Hok Hi Hm (arriver_call_underway _ _ _ _ Hc)) as H. unfold wp in H. rewrite Hc in H.
  by destruct H as (? & [= <-] & ?).
Qed.

(** When nobody can move, nobody is between rounds, and all at the barrier would
    have opened it. *)
Lemma arrivers_stuck s cl :
  rounds_ok (s, cl) → (∀ y, ¬ arriver_step (s, cl) y) → forallb all_rounds_made cl = true ∧ counter_ (obj s) = init_ (obj s).
Proof.
  intros Hok Hstuck. pose proof (ro_rep _ Hok) as (L & q & Hr & Hl & Hcnt). pose proof (ro_parties _ Hok) as Hn.
  pose proof (br_counter _ _ _ _ Hr) as Hpos. destruct (ro_round _ Hok) as [r Hrd]. cbn [fst snd obj wld] in *.
  assert (∀ i c, cl !! i = Some c → may_call cl c = true → underway c = false) as Hcall.
  { intros i c Hi Hm. apply not_true_is_false. intros Hc.
    pose proof (wp_arriver_call s cl i c Hok Hi Hm Hc) as (r' & s' & Hex & c' & -> & _)%wp_run.
    eapply Hstuck. by eapply ars_call. }
  assert (total between cl = 0) as Hb.
  { apply total_zero. intros c (i & Hi)%list_elem_of_lookup. destruct c; try done. by pose proof (Hcall _ _ Hi eq_refl). }
  assert (∀ i c, cl !! i = Some c → underway c = false) as Hm.
  { intros i c Hi. apply (Hcall i); [done|]. unfold may_call. rewrite Hb. by destruct c. }
  pose proof (lined_length _ _ (ar_ready 0) _ _ eq_refl Hl) as Hlen.
  destruct q as [|po q].
  - split; [|simpl in Hcnt; lia]. apply forallb_forall. intros c (i & Hi)%list_elem_of_In%list_elem_of_lookup.
    pose proof (Hm i c Hi) as Hu. unfold underway in Hu. rewrite (lined_nil _ _ _ _ _ Hl Hi) in Hu. by destruct (all_rounds_made c).
  - exfalso. destruct (lined_member _ _ _ _ po Hl ltac:(by left)) as (j & d & Hj & _ & Hd).
    rewrite (total_ext _ (λ _, 1)) in Hlen; [rewrite total_ones in Hlen by done; simpl in *; lia|].
    intros c (i & Hi)%list_elem_of_lookup. pose proof (Hm i c Hi) as Hu. pose proof (Hrd _ _ Hi). pose proof (Hrd _ _ Hj).
    destruct c as [[]| | | | |], d; simpl in *; try done; lia.
Qed.

Lemma arriver_steps_length k x y : nsteps arriver_step k x y → length y.2 = length x.2.
Proof.
  induction 1 as [|k x y z Hst _ IH]; [done|]. rewrite IH. destruct Hst; simpl. by rewrite length_deliver, length_insert.
Qed.
End system.

(** ** The property *)

Section property.
Context {ASIO : Asio} `{!EqDecision handler}.
Implicit Types (L : gmap addr (list addr)) (m : barrier_impl) (w : world) (s : machine barrier_impl) (cl : list arriver).

Lemma rounds_ok_start threads hnd ecv L m w n r :
  barrier_rep L m w [] → counter_ m = init_ m → init_ m = Z.of_nat n →
  (∀ i, threads i = true → enabled_ (get_mtx m) = true ∧ is_Some (ecs w !! ecv i)) →
  rounds_ok threads hnd ecv (Machine m w, replicate n (ar_ready r)).
Proof.
  intros Hr Hc Hn Ht. split; cbn [fst snd obj wld].
  - exists L, []. split_and!; [done| |simpl; lia]. apply lined_start. by intros c [-> _]%elem_of_replicate.
  - by rewrite length_replicate.
  - exists r. by intros i c [-> _]%lookup_replicate.
  - rewrite total_replicate. simpl. lia.
  - intros i c [-> _]%lookup_replicate. split; [auto|done].
Qed.

(** C12: rounds. Let exactly as many parties as a barrier waits for use it for
    [r] rounds each, coroutines with [async_arrive], whose handlers and memory do
    not fail, and threads with [arrive], each with an [error_code] of its own. The
    two critical sections of [async_arrive] are two steps, and the scheduler may
    do anything but let the last party of a round come while another one is
    between them. Then at every moment all parties have the same number of rounds
    left that have not opened: nobody gets past the barrier before everybody has
    arrived, and whoever has arrived is released when everybody has. At most
    [3 * r] steps are made for a party, and a state in which nothing can happen
    any more is one in which everybody has made all rounds and the barrier is
    ready for another one. *)
Theorem barrier_rounds_finish threads exec hnd ecv L m w n r k s cl :
  Inj (=) (=) hnd → Inj (=) (=) ecv → (∀ i X, allocate (hnd i) X ≠ None) →
  barrier_rep L m w [] → counter_ m = init_ m → init_ m = Z.of_nat n →
  (∀ i, threads i = true → enabled_ (get_mtx m) = true ∧ is_Some (ecs w !! ecv i)) →
  nsteps (arriver_step threads exec hnd ecv) k (Machine m w, replicate n (ar_ready r)) (s, cl) →
  length cl = n ∧
  (∀ i j c d, cl !! i = Some c → cl !! j = Some d → closed_rounds c = closed_rounds d) ∧
  k + total arriver_weight cl ≤ 3 * r * n ∧
  ((∀ y, ¬ arriver_step threads exec hnd ecv (s, cl) y) →
    forallb all_rounds_made cl = true ∧ counter_ (obj s) = init_ (obj s)).
Proof.
  intros Hinj Hecv Hmem Hr Hc Hn Ht Hst. pose proof (rounds_ok_start threads hnd ecv L m w n r Hr Hc Hn Ht) as Hok.
  destruct (nsteps_shrink (arriver_step threads exec hnd ecv) (rounds_ok threads hnd ecv) (λ x, total arriver_weight x.2) _ _ _
    (arriver_step_advances threads exec hnd ecv Hmem) Hok Hst) as [Hok' Hle]. cbn [fst snd] in *.
  rewrite total_replicate in Hle. simpl in Hle.
  split_and!; [|destruct (ro_round _ _ _ _ Hok') as [r' Hrd]|done|by eapply arrivers_stuck].
  - apply arriver_steps_length in Hst. by cbn [snd] in Hst; rewrite length_replicate in Hst.
  - intros i j c d Hi Hj. by rewrite (Hrd _ _ Hi), (Hrd _ _ Hj).
Qed.
End property.

(** ** At work *)

Section witness.
#[local] Existing Instance test_asio.

(** A thread and two coroutines, two rounds: in the first the calls of the
    coroutines overlap and the thread opens the barrier, the second is opened by a
    coroutine. *)
Definition demo_threads (i : nat) : bool := Nat.eqb i 0.
Definition demo_arriver_hnd (i : nat) : nat := 14 + i.
Definition demo_arriver_ecv (i : nat) : addr := Pos.of_succ_nat i.
Definition demo_rounds_start : machine barrier_impl * list arriver :=
  (Machine (obj (demo_barrier true 3)) (wld (demo_barrier true 3)), replicate 3 (ar_ready 2)).
Definition demo_arrivals : list nat := [1; 2; 1; 2; 0; 1; 2; 0; 1; 1; 2; 0; 1; 2].
Definition demo_arriver_step : relation (machine barrier_impl * list arriver) :=
  arriver_step (ASIO := test_asio) demo_threads 0 demo_arriver_hnd demo_arriver_ecv.
Definition demo_rounds_end : machine barrier_impl * list arriver :=
  default demo_rounds_start
    (play (arriver_turn (ASIO := test_asio) demo_threads 0 demo_arriver_hnd demo_arriver_ecv) demo_arrivals demo_rounds_start).

Lemma demo_rounds : nsteps demo_arriver_step 14 demo_rounds_start (demo_rounds_end.1, demo_rounds_end.2).
Proof. eapply (play_nsteps demo_arriver_step _ demo_arrivals); [apply arriver_turn_step|]. vm_compute. reflexivity. Qed.
Example demo_rounds_done : demo_rounds_end.2 = replicate 3 (ar_ready 0).
Proof. vm_compute. reflexivity. Qed.

Lemma barrier_rounds_finish_witness :
  length demo_rounds_end.2 = 3 ∧
  (∀ i j c d, demo_rounds_end.2 !! i = Some c → demo_rounds_end.2 !! j = Some d → closed_rounds c = closed_rounds d) ∧
  14 + total arriver_weight demo_rounds_end.2 ≤ 18 ∧
  ((∀ y, ¬ demo_arriver_step (demo_rounds_end.1, demo_rounds_end.2) y) →
    forallb all_rounds_made demo_rounds_end.2 = true ∧ counter_ (obj demo_rounds_end.1) = init_ (obj demo_rounds_end.1)).
Proof.
  apply (barrier_rounds_finish (ASIO := test_asio) demo_threads 0 demo_arriver_hnd demo_arriver_ecv demo_barrier_lists
    (obj (demo_barrier true 3)) (wld (demo_barrier true 3)) 3 2 14 demo_rounds_end.1 demo_rounds_end.2).
  - intros i j. unfold demo_arriver_hnd. lia.
  - intros i j. unfold demo_arriver_ecv. lia.
  - intros [|i] X; done.
  - by apply demo_barrier_rep.
  - vm_compute. reflexivity.
  - vm_compute. reflexivity.
  - intros [|i] Hi; [|done]. split; [vm_compute; reflexivity|by eexists].
  - exact demo_rounds.
Defined.
End witness.
