(* ===== verification/Monitor.v ===== *)
(** * No wakeup is lost

    Coroutines that share some state and one condition variable, run by one
    thread: each of them awaits conditions on the state and changes it, with
    [notify_all] after each change. [monitor_step] is the closed system, with
    cancellation, in which the calls of the coroutines interleave in any order.
    Nobody waits for a condition that holds unless a notification is still to
    come, every run is short, and what is left at its end waits for something
    that does not hold. (A coroutine looks at its condition and calls
    [async_wait] in one step: [condvar_forgets_notification] shows what happens
    when a change gets in between.) *)
From S2P Require Import Prelude Machine Bilist Ops Service Impl CondVar CondVarSpec Scheduler.

(** ** The parties *)

Section system.
Context {ASIO : Asio} `{!EqDecision handler} {X : Type}.

(** What a party does next: wait for a condition on the state, or change it. *)
Inductive action :=
  | await (p : predicate)
  | change (f : X → X).

(** Where a party is, with [todo] to do after that: before its next action,
    waiting, told the outcome of its wait, or between a change and its
    notification. *)
Inductive actor :=
  | ac_ready (todo : list action)
  | ac_waiting (p : predicate) (todo : list action)
  | ac_told (p : predicate) (todo : list action) (ec : error_code)
  | ac_changed (todo : list action).

(** [value x p]: whether the condition [p] holds in the state [x]. *)
Context (exec : executor) (hnd : nat → handler) (value : X → predicate → bool).
Implicit Types (cl : list actor) (c : actor) (i j : nat) (w : world) (x : X) (p : predicate) (L : gmap addr (list addr)).
Implicit Types (m : condition_variable_impl) (s : machine condition_variable_impl) (q : list (addr * op)).

Definition awaits c : bool := match c with ac_waiting _ _ => true | _ => false end.
Definition at_end c : bool := match c with ac_ready [] => true | _ => false end.

(** [while (!p()) cv.async_wait(p, yield);] and [f(); cv.notify_all();]. A wait
    that is cancelled is given up. *)
Definition actor_call i c x : M condition_variable_impl (actor * X) :=
  match c with
  | ac_ready (await p :: todo) =>
      if value x p then mret (ac_ready todo, x)
      else async_predicate_wait exec p (hnd i);; mret (ac_waiting p todo, x)
  | ac_ready (change f :: todo) => mret (ac_changed todo, f x)
  | ac_changed todo => notify_all (value x);; mret (ac_ready todo, x)
  | ac_told p todo ec => mret (if ec_failed ec then ac_ready todo else ac_ready (await p :: todo), x)
  | ac_ready [] | ac_waiting _ _ => ub
  end.

Definition actor_told (ec : error_code) c : actor :=
  match c with ac_waiting p todo => ac_told p todo ec | _ => c end.
Abbreviation actor_hears := (hears hnd actor_told).
Abbreviation hear w w' cl := (deliver actor_hears (events_since w w') cl).

Definition monitor : Type := machine condition_variable_impl * X * list actor.

Inductive monitor_step : relation monitor :=
  | mst_call i c c' s s' x x' cl : cl !! i = Some c → actor_call i c x s = Some (Ok (c', x'), s') →
      monitor_step (s, x, cl) (s', x', hear (wld s) (wld s') (<[i := c']> cl))
  | mst_cancel n a s s' x cl : slots (wld s) !! n = Some (CancelHandler a (this_ (get_sm (obj s)))) →
      condvar_emit n true s = Some (Ok tt, s') → monitor_step (s, x, cl) (s', x, hear (wld s) (wld s') cl).

(** A schedule, as in [SharedUsers]. *)
Definition monitor_turn (u : nat + positive) (y : monitor) : option monitor :=
  let '(s, x, cl) := y in
  match u with
  | inl i =>
      c ← cl !! i;
      match actor_call i c x s with
      | Some (Ok (c', x'), s') => Some (s', x', hear (wld s) (wld s') (<[i := c']> cl))
      | _ => None
      end
  | inr n =>
      c ← slots (wld s) !! n;
      if decide (ch_impl c = this_ (get_sm (obj s))) then
        match condvar_emit n true s with
        | Some (Ok tt, s') => Some (s', x, hear (wld s) (wld s') cl)
        | _ => None
        end
      else None
  end.
Lemma monitor_turn_step u y z : monitor_turn u y = Some z → monitor_step y z.
Proof.
  destruct y as [[s x] cl], u as [i|n]; simpl.
  - intros (c & Hi & H)%bind_Some. destruct (actor_call i c x s) as [[[[c' x']|] s']|] eqn:E; try done.
    injection H as <-. by eapply mst_call.
  - intros ([p im] & Hn & H)%bind_Some. simpl in H. case_decide as Him; [|done].
    destruct (condvar_emit n true s) as [[[[]|] s']|] eqn:E; try done. injection H as <-. subst im. by eapply mst_cancel.
Qed.

(** ** The steps that are left *)

(** A change can send everybody who waits round its loop once more, two steps
    for each of the [n] parties. *)
Definition action_weight (n : nat) (a : action) : nat := match a with await _ => 4 | change _ => 2 * n + 2 end.
Definition todo_weight (n : nat) (todo : list action) : nat := sum_list_with (action_weight n) todo.
Definition actor_weight (n : nat) c : nat :=
  match c with
  | ac_ready todo => todo_weight n todo
  | ac_waiting _ todo => todo_weight n todo + 3
  | ac_told _ todo ec => todo_weight n todo + if ec_failed ec then 2 else 5
  | ac_changed todo => todo_weight n todo + 2 * n + 1
  end.

(** ** What is heard *)

(** The operation of a party in line. *)
Definition stands_for i c (po : addr * op) : Prop :=
  match c with ac_waiting p _ => ∃ g, po.2 = predicate_op_model g (hnd i) (user_predicate p) | _ => False end.
Abbreviation line := (lined stands_for awaits).

(** What becomes of a party when [notify_all] is called in the state [x]. *)
Definition served x c : actor :=
  match c with ac_waiting p todo => if value x p then ac_told p todo no_error else c | _ => c end.

Lemma stands_ready x i c po : stands_for i c po → ∃ p todo, c = ac_waiting p todo ∧ ready (value x) po = value x p.
Proof. destruct po as [a o], c; try done. intros [g Hg]. simpl in Hg. subst o. by eexists _, _. Qed.

Lemma stands_handler i c po : stands_for i c po → op_handler po.2 = Some (hnd i).
Proof. destruct c; try done. by intros [g ->]. Qed.

Context `{!Inj (=) (=) hnd} (memory : ∀ i Y, allocate (hnd i) Y ≠ None).

Lemma hear_all_served x cl q :
  line cl q →
  deliver actor_hears (filter (λ po, ready (value x) po) q ≫= completion no_error) cl = served x <$> cl ∧
  line (served x <$> cl) (filter (λ po, negb (ready (value x) po)) q).
Proof.
  intros Hl. split.
  - apply list_eq. intros i. rewrite deliver_lookup, list_lookup_fmap. destruct (cl !! i) as [c|] eqn:Hi; [|done].
    simpl. f_equal. rewrite heard_completions by (by intros []). destruct (awaits c) eqn:Hc; [|by destruct c; simpl; case_decide].
    destruct (lined_at _ _ _ _ _ _ Hl Hi Hc) as (po & Hpo & Hs). destruct (stands_ready x _ _ _ Hs) as (p & todo & -> & Hrd).
    simpl. destruct (value x p) eqn:Hv.
    + rewrite decide_True; [done|]. apply Exists_exists. exists po.
      split; [apply list_elem_of_filter; by rewrite Hrd|by eapply stands_handler].
    + rewrite decide_False; [done|]. intros (po' & [Hrd' Hin]%list_elem_of_filter & E)%Exists_exists.
      destruct (lined_member _ _ _ _ _ Hl Hin) as (j & d & Hj & Hs' & _). rewrite (stands_handler _ _ _ Hs') in E.
      injection E as ->%(inj hnd). rewrite Hi in Hj. injection Hj as <-.
      destruct (stands_ready x _ _ _ Hs') as (? & ? & [= <- <-] & E). by rewrite E, Hv in Hrd'.
  - eapply lined_filter; [exact Hl| |by intros []]. intros i c po Hs _. destruct (stands_ready x _ _ _ Hs) as (p & todo & -> & ->).
    simpl. by destruct (value x p).
Qed.

(** An operation in line is completed, with whatever error. *)
Lemma hear_one_told ec cl q1 po q2 :
  line cl (q1 ++ po :: q2) →
  ∃ j p todo, cl !! j = Some (ac_waiting p todo) ∧
    deliver actor_hears (completion ec po) cl = <[j := ac_told p todo ec]> cl ∧
    line (<[j := ac_told p todo ec]> cl) (q1 ++ q2).
Proof.
  intros Hl. destruct (lined_remove _ _ _ _ _ _ Hl) as (j & c & Hj & Hs & Hc & Hrem).
  destruct c as [|p todo| |]; try done. exists j, p, todo. split_and!; [done| |by apply Hrem].
  by rewrite (deliver_completion hnd actor_told _ _ _ _ _ Hj (stands_handler _ _ _ Hs)).
Qed.

(** ** The invariant *)

(** Whoever waits for a condition that holds will be notified. *)
Definition signalled x cl : Prop :=
  ∀ i p todo, cl !! i = Some (ac_waiting p todo) → value x p = true → ∃ j todo', cl !! j = Some (ac_changed todo').

Context (n : nat).

Record monitor_ok (y : monitor) : Prop := {
  mo_rep : ∃ L q, condvar_rep L (obj y.1.1) (wld y.1.1) q ∧ line y.2 q;
  mo_signalled : signalled y.1.2 y.2;
  mo_parties : length y.2 ≤ n
}.

Lemma signalled_changed x cl i c todo : cl !! i = Some c → signalled x (<[i := ac_changed todo]> cl).
Proof. intros Hi j p todo' _ _. exists i, todo. apply list_lookup_insert_eq. by eapply lookup_lt_Some. Qed.
Lemma signalled_same x cl i c c' :
  signalled x cl → cl !! i = Some c → (∀ todo, c ≠ ac_changed todo) → (∀ p todo, c' = ac_waiting p todo → value x p = false) →
  signalled x (<[i := c']> cl).
Proof.
  intros Hs Hi Hc Hc' j p todo Hj Hv. apply list_lookup_insert_Some in Hj as [(<- & -> & _)|[_ Hj]].
  - by rewrite (Hc' p todo) in Hv.
  - destruct (Hs j p todo Hj Hv) as (k & todo' & Hk). exists k, todo'. rewrite list_lookup_insert_ne; [done|].
    intros <-. rewrite Hi in Hk. injection Hk. apply Hc.
Qed.
Lemma signalled_served x cl : signalled x (served x <$> cl).
Proof.
  intros i p todo. rewrite list_lookup_fmap. intros (c & _ & E)%fmap_Some Hv.
  destruct c as [|p' todo'| |]; simpl in E; try done. destruct (value x p') eqn:Hv'; congruence.
Qed.

(** ** The calls *)

Definition improves cl (y : monitor) : Prop := monitor_ok y ∧ total (actor_weight n) y.2 < total (actor_weight n) cl.

(** A step that changes one party. *)
Lemma monitor_one L q m w x x' cl i c c' s :
  monitor_ok (s, x, cl) → cl !! i = Some c → condvar_rep L m w q → line (<[i := c']> cl) q →
  actor_weight n c' < actor_weight n c → signalled x' (<[i := c']> cl) → improves cl (Machine m w, x', <[i := c']> cl).
Proof.
  intros [_ _ Hn] Hi Hr Hl Hlt Hs. cbn [fst snd] in *. pose proof (total_insert (actor_weight n) cl i c c' Hi).
  split; [|cbn [snd]; lia]. split; cbn [fst snd obj wld]; [by exists L, q|done|by rewrite length_insert].
Qed.

Definition moves i s cl c' x' s' : Prop := improves cl (s', x', hear (wld s) (wld s') (<[i := c']> cl)).

Lemma wp_wait_moves s x cl i p todo :
  monitor_ok (s, x, cl) → cl !! i = Some (ac_ready (await p :: todo)) → value x p = false →
  wp (async_predicate_wait exec p (hnd i)) s (λ r s', r = Ok tt ∧ moves i s cl (ac_waiting p todo) x s').
Proof.
  intros Hok Hi Hv. destruct s as [m w]. pose proof (mo_rep _ Hok) as (L & q & Hr & Hl). cbn [fst snd obj wld] in *.
  eapply wp_async_predicate_wait; [exact Hr|by intros ?%memory|].
  intros a N' _ Ha po w' Hr'. split; [done|]. unfold moves. rewrite deliver_none by done.
  eapply monitor_one; [done|done|exact Hr'|eapply lined_queue; try done; simpl; by eexists|simpl; lia|].
  eapply signalled_same; [apply Hok|done|done|]. by intros ? ? [= -> ->].
Qed.

Lemma served_weight x cl : total (actor_weight n) (served x <$> cl) ≤ total (actor_weight n) cl + 2 * length cl.
Proof.
  unfold total. induction cl as [|c cl IH]; simpl; [lia|]. unfold fmap in *.
  assert (actor_weight n (served x c) ≤ actor_weight n c + 2); [|lia].
  destruct c as [|p todo| |]; simpl; try lia. destruct (value x p); simpl; [unfold ec_failed; simpl|]; lia.
Qed.

Lemma wp_notify_moves s x cl i todo :
  monitor_ok (s, x, cl) → cl !! i = Some (ac_changed todo) →
  wp (notify_all (value x)) s (λ r s', r = Ok tt ∧ moves i s cl (ac_ready todo) x s').
Proof.
  intros Hok Hi. destruct s as [m w]. pose proof (mo_rep _ Hok) as (L & q & Hr & Hl). pose proof (mo_parties _ Hok) as Hn.
  cbn [fst snd obj wld] in *. eapply wp_notify_all; [exact Hr|]. intros N' w' rest Hr'. split; [done|]. unfold moves. cbn [wld].
  assert (line (<[i := ac_ready todo]> cl) q) as Hl' by (by eapply lined_same).
  destruct (hear_all_served x _ _ Hl') as [E Hrest].
  rewrite (events_since_app w w' _ (trace_finish_all no_error (filter (λ po, ready (value x) po) q) w)), E.
  pose proof (total_insert (actor_weight n) cl i _ (ac_ready todo) Hi) as Tw. simpl in Tw.
  pose proof (served_weight x (<[i := ac_ready todo]> cl)) as Ts. rewrite length_insert in Ts.
  split; [|cbn [fst snd]; lia]. split; cbn [fst snd obj wld];
    [by eexists _, rest|apply signalled_served|by rewrite length_fmap, length_insert].
Qed.

Definition moving c : bool := match c with ac_ready [] | ac_waiting _ _ => false | _ => true end.

Lemma wp_actor_call s x cl i c :
  monitor_ok (s, x, cl) → cl !! i = Some c → moving c = true →
  wp (actor_call i c x) s (λ r s', ∃ c' x', r = Ok (c', x') ∧ moves i s cl c' x' s').
Proof.
  intros Hok Hi Hc.
  assert (∀ c' x', awaits c = false → awaits c' = false → actor_weight n c' < actor_weight n c → signalled x' (<[i := c']> cl) →
    wp (mret (c', x')) s (λ r s', ∃ c' x', r = Ok (c', x') ∧ moves i s cl c' x' s')) as Hret.
  { intros c' x' H1 H2 H3 H4. destruct s as [m w]. pose proof (mo_rep _ Hok) as (L & q & Hr & Hl). cbn [fst snd obj wld] in *.
    apply wp_ret. eexists _, _. split; [done|]. unfold moves. rewrite deliver_none by done.
    eapply monitor_one; [done|done|exact Hr|by eapply lined_same|done|done]. }
  assert (∀ todo, (∀ todo', c ≠ ac_changed todo') → signalled x (<[i := ac_ready todo]> cl)) as Hsame.
  { intros todo H. by eapply signalled_same; [apply Hok|..]. }
  destruct c as [[|[p|f] todo]|p todo|p todo ec|todo]; try done; cbn [actor_call].
  - destruct (value x p) eqn:Hv.
    + apply Hret; [done|done|simpl; lia|by apply Hsame].
    + apply wp_bind. eapply wp_mono; [by eapply wp_wait_moves|]. intros r s' [-> H]. apply wp_ret. by eexists _, _.
  - apply Hret; [done|done|simpl; lia|by eapply signalled_changed].
  - destruct (ec_failed ec) eqn:Hec; (apply Hret; [done|done|simpl; rewrite Hec; lia|by apply Hsame]).
  - apply wp_bind. eapply wp_mono; [by eapply wp_notify_moves|]. intros r s' [-> H]. apply wp_ret. by eexists _, _.
Qed.
Lemma actor_call_moving s x i c r : actor_call i c x s = Some r → moving c = true.
Proof. by destruct c as [[|[] todo]| | |]. Qed.

Lemma wp_cancel_moves s x cl k a :
  monitor_ok (s, x, cl) → slots (wld s) !! k = Some (CancelHandler a (this_ (get_sm (obj s)))) →
  wp (condvar_emit k true) s (λ r s', r = Ok tt ∧ improves cl (s', x, hear (wld s) (wld s') cl)).
Proof.
  intros Hok Hk. destruct s as [m w]. pose proof (mo_rep _ Hok) as (L & q & Hr & Hl). cbn [fst snd obj wld] in *.
  eapply wp_condvar_emit; [exact Hr| | |].
  - intros c Hc. by simplify_eq.
  - intros [|?]; congruence.
  - intros _ q1 a' o q2 N' -> _ w' Hr'. split; [done|]. cbn [wld].
    rewrite (events_since_app w w' (completion operation_aborted (a', o))) by apply trace_finish.
    destruct (hear_one_told operation_aborted _ _ _ _ Hl) as (j & p & todo & Hj & E & Hl'). rewrite E.
    eapply monitor_one; [done|done|exact Hr'|exact Hl'|simpl; lia|]. by eapply signalled_same; [apply Hok|..].
Qed.

(** ** Runs *)

Lemma monitor_step_improves y z :
  monitor_ok y → monitor_step y z → monitor_ok z ∧ total (actor_weight n) z.2 < total (actor_weight n) y.2.
Proof.
  intros Hok Hst. destruct Hst as [i c c' s s' x x' cl Hi Hc|k a s s' x cl Hk Hc].
  - pose proof (wp_actor_call s x cl i c Hok Hi (actor_call_moving _ _ _ _ _ Hc)) as H. unfold wp in H. rewrite Hc in H.
    by destruct H as (? & ? & [= <- <-] & ?).
  - pose proof (wp_cancel_moves s x cl k a Hok Hk) as H. unfold wp in H. rewrite Hc in H. by destruct H as [_ ?].
Qed.

(** What a party waits for does not hold when nobody can move. *)
Definition asleep x c : bool :=
  match c with ac_ready [] => true | ac_waiting p _ => negb (value x p) | _ => false end.

Lemma monitor_stuck s x cl :
  monitor_ok (s, x, cl) → (∀ y, ¬ monitor_step (s, x, cl) y) → forallb (asleep x) cl = true.
Proof.
  intros Hok Hstuck. assert (∀ i c, cl !! i = Some c → moving c = false) as Hm.
  { intros i c Hi. apply not_true_is_false. intros Hc.
    pose proof (wp_actor_call s x cl i c Hok Hi Hc) as (r & s' & Hex & c' & x' & -> & _)%wp_run.
    eapply Hstuck. by eapply mst_call. }
  apply forallb_forall. intros c (i & Hi)%list_elem_of_In%list_elem_of_lookup. pose proof (Hm i c Hi) as Hmv.
  destruct c as [[|a todo]|p todo| |]; try done. simpl. apply negb_true_iff, not_true_is_false. intros Hv.
  destruct (mo_signalled _ Hok i p todo Hi Hv) as (j & todo' & Hj). by pose proof (Hm j _ Hj).
Qed.

Definition fresh_actor c : bool := match c with ac_ready _ => true | _ => false end.

Lemma monitor_ok_start L m w x cl :
  condvar_rep L m w [] → forallb fresh_actor cl = true → length cl ≤ n → monitor_ok (Machine m w, x, cl).
Proof.
  intros Hr Hf Hn. assert (∀ c, c ∈ cl → ∃ todo, c = ac_ready todo) as Hc.
  { intros c Hin. rewrite forallb_forall in Hf. specialize (Hf c (proj1 (list_elem_of_In _ _) Hin)).
    destruct c as [todo| | |]; try done. by exists todo. }
  split; cbn [fst snd obj wld]; [|intros i p todo Hi; by destruct (Hc _ (list_elem_of_lookup_2 _ _ _ Hi))|done].
  exists L, []. split; [done|]. apply lined_start. by intros c [todo ->]%Hc.
Qed.

Lemma monitor_steps_length k y z : nsteps monitor_step k y z → length z.2 = length y.2.
Proof.
  induction 1 as [|k y z u Hst _ IH]; [done|]. rewrite IH. destruct Hst; simpl; rewrite length_deliver; [|done].
  apply length_insert.
Qed.
End system.

(** ** The property *)

Section property.
Context {ASIO : Asio} `{!EqDecision handler} {X : Type}.

(** C13: no wakeup is lost. Let coroutines share a state and a condition
    variable, each of them awaiting conditions on the state and changing it, with
    [notify_all] after each change, in any order, and let waits be cancelled at
    any time. Whenever a coroutine waits for a condition that holds, another one
    has changed the state and not yet called [notify_all]; every run is bounded,
    although each change may send everybody who waits round the loop again; and in
    a state in which nothing can happen any more every coroutine is at its end or
    waits for a condition that does not hold. *)
Theorem monitor_no_lost_wakeups exec hnd (value : X → predicate → bool) L m w k s x0 x cl0 cl :
  Inj (=) (=) hnd → (∀ i Y, allocate (hnd i) Y ≠ None) →
  condvar_rep L m w [] → forallb fresh_actor cl0 = true →
  nsteps (monitor_step exec hnd value) k (Machine m w, x0, cl0) (s, x, cl) →
  length cl = length cl0 ∧ signalled value x cl ∧
  k + total (actor_weight (length cl0)) cl ≤ total (actor_weight (length cl0)) cl0 ∧
  ((∀ y, ¬ monitor_step exec hnd value (s, x, cl) y) → forallb (asleep value x) cl = true).
Proof.
  intros Hinj Hmem Hr Hf Hst. pose proof (monitor_ok_start hnd value (length cl0) L m w x0 cl0 Hr Hf (le_n _)) as Hok.
  destruct (nsteps_shrink (monitor_step exec hnd value) (monitor_ok hnd value (length cl0))
    (λ y, total (actor_weight (length cl0)) y.2) _ _ _ (monitor_step_improves exec hnd value Hmem _) Hok Hst) as [Hok' Hle].
  split_and!; [by apply (monitor_steps_length _ _ _ _ _ _ Hst)|apply Hok'|done|by eapply monitor_stuck].
Qed.
End property.

(** ** At work *)

Section witness.
#[local] Existing Instance test_asio.

(** The state is a number; condition [p]: it is at least [p]. Two parties are
    woken one after the other, each counts up; one is cancelled; the last waits
    for what never happens. *)
Definition demo_actor_hnd (i : nat) : nat := 14 + i.
Definition demo_at_least (x : nat) (p : nat) : bool := Nat.leb p x.
Definition demo_actors : list (@actor test_asio nat) :=
  [ac_ready [@await test_asio nat 2; change S]; ac_ready [@await test_asio nat 1; change S]; ac_ready [change S];
   ac_ready [@await test_asio nat 9]; ac_ready [@await test_asio nat 9]].
Definition demo_monitor_start : @monitor test_asio nat :=
  (Machine (obj demo_condvar) (wld demo_condvar), 0, demo_actors).
Definition demo_monitor_schedule : list (nat + positive) :=
  [inl 0; inl 1; inl 3; inl 4; inl 2; inl 2; inl 1; inl 1; inl 1; inl 1; inr 17%positive; inl 0; inl 0; inl 3; inl 0; inl 0].
Definition demo_monitor_end : @monitor test_asio nat :=
  default demo_monitor_start
    (play (monitor_turn (ASIO := test_asio) 0 demo_actor_hnd demo_at_least) demo_monitor_schedule demo_monitor_start).
Definition demo_monitor_step : relation (@monitor test_asio nat) :=
  monitor_step (ASIO := test_asio) 0 demo_actor_hnd demo_at_least.

Lemma demo_monitor_run :
  nsteps demo_monitor_step 16 demo_monitor_start (demo_monitor_end.1.1, demo_monitor_end.1.2, demo_monitor_end.2).
Proof.
  eapply (play_nsteps demo_monitor_step _ demo_monitor_schedule); [apply monitor_turn_step|]. vm_compute. reflexivity.
Qed.
Example demo_monitor_asleep :
  (demo_monitor_end.1.2, demo_monitor_end.2) =
  (3, [ac_ready []; ac_ready []; ac_ready []; ac_ready []; @ac_waiting test_asio nat 9 []]).
Proof. vm_compute. reflexivity. Qed.

Lemma monitor_no_lost_wakeups_witness :
  length demo_monitor_end.2 = 5 ∧ signalled demo_at_least demo_monitor_end.1.2 demo_monitor_end.2 ∧
  16 + total (actor_weight 5) demo_monitor_end.2 ≤ 52 ∧
  ((∀ y, ¬ demo_monitor_step (demo_monitor_end.1.1, demo_monitor_end.1.2, demo_monitor_end.2) y) →
    forallb (asleep demo_at_least demo_monitor_end.1.2) demo_monitor_end.2 = true).
Proof.
  apply (monitor_no_lost_wakeups (ASIO := test_asio) 0 demo_actor_hnd demo_at_least demo_condvar_lists
    (obj demo_condvar) (wld demo_condvar) 16 demo_monitor_end.1.1 0 demo_monitor_end.1.2 demo_actors demo_monitor_end.2).
  - intros i j. unfold demo_actor_hnd. lia.
  - intros [|i] Y; done.
  - apply demo_condvar_rep.
  - reflexivity.
  - exact demo_monitor_run.
Defined.
End witness.
