(* ===== verification/Producers.v ===== *)
(** * Producers and consumers

    Workers that share a stock of goods and one condition variable: who produces
    adds an item and calls [notify_one], who consumes waits until there is an item
    and takes it. [worker_step] is the closed system, with cancellation, in which
    the calls of the workers interleave in any order. All wait for the same
    condition, so that [notify_one], which looks at the head of the line only, is
    enough: nobody waits while there are items that nobody has been told of, and
    no item is lost. *)
From S2P Require Import Prelude Machine Bilist Ops Service Impl CondVar CondVarSpec Scheduler.

(** ** The workers *)

Inductive task := produce | consume.

(** Where a worker is, with the tasks [todo] to do after that: before its next
    task, waiting for an item, told the outcome of its wait, or between adding an
    item and its notification. *)
Inductive worker :=
  | wk_ready (todo : list task)
  | wk_waiting (todo : list task)
  | wk_told (todo : list task) (ec : error_code)
  | wk_added (todo : list task).

(** The goods: what is in stock and how many items were taken. *)
Record goods := Goods { stock : nat; taken : nat }.
Definition in_stock (x : goods) : bool := bool_decide (0 < stock x).

Definition hungry (c : worker) : bool := match c with wk_waiting _ => true | _ => false end.
Definition worker_told (ec : error_code) (c : worker) : worker :=
  match c with wk_waiting todo => wk_told todo ec | _ => c end.

Fixpoint produces (todo : list task) : nat :=
  match todo with [] => 0 | produce :: todo => S (produces todo) | consume :: todo => produces todo end.

(** The steps that are left; those who have an item or a notification on their
    hands; the items that are still to be made. *)
Definition worker_weight (c : worker) : nat :=
  match c with
  | wk_ready todo => 3 * length todo
  | wk_waiting todo => 3 * length todo + 2
  | wk_told todo ec => 3 * length todo + if ec_failed ec then 1 else 3
  | wk_added todo => 3 * length todo + 2
  end.
Definition alerted (c : worker) : nat :=
  match c with wk_told _ ec => if ec_failed ec then 0 else 1 | wk_added _ => 1 | _ => 0 end.
Definition to_make (c : worker) : nat :=
  match c with wk_ready todo | wk_waiting todo | wk_told todo _ | wk_added todo =>
    produces todo end.

Section system.
Context {ASIO : Asio} `{!EqDecision handler} (exec : executor) (hnd : nat → handler) (pr : predicate).
Implicit Types (cl : list worker) (c : worker) (i j : nat) (w : world) (x : goods) (L : gmap addr (list addr)).
Implicit Types (m : condition_variable_impl) (s : machine condition_variable_impl) (q : list (addr * op)) (todo : list task).

(** [while (stock == 0) cv.async_wait([&] { return stock > 0; }, yield); --stock;]
    up to the wait or its end; a coroutine that is resumed does the same. *)
Definition take i todo x : M condition_variable_impl (worker * goods) :=
  if in_stock x then mret (wk_ready todo, Goods (stock x - 1) (S (taken x)))
  else async_predicate_wait exec pr (hnd i);; mret (wk_waiting todo, x).

(** [++stock; cv.notify_one();]. A wait that is cancelled is given up. *)
Definition worker_call i c x : M condition_variable_impl (worker * goods) :=
  match c with
  | wk_ready (produce :: todo) => mret (wk_added todo, Goods (S (stock x)) (taken x))
  | wk_ready (consume :: todo) => take i todo x
  | wk_told todo ec => if ec_failed ec then mret (wk_ready todo, x) else take i todo x
  | wk_added todo => notify_one (λ _, in_stock x);; mret (wk_ready todo, x)
  | wk_ready [] | wk_waiting _ => ub
  end.

Abbreviation hear w w' cl := (deliver (hears hnd worker_told) (events_since w w') cl).

Definition workshop : Type := machine condition_variable_impl * goods * list worker.

Inductive worker_step : relation workshop :=
  | wst_call i c c' s s' x x' cl : cl !! i = Some c → worker_call i c x s = Some (Ok (c', x'), s') →
      worker_step (s, x, cl) (s', x', hear (wld s) (wld s') (<[i := c']> cl))
  | wst_cancel n a s s' x cl : slots (wld s) !! n = Some (CancelHandler a (this_ (get_sm (obj s)))) →
      condvar_emit n true s = Some (Ok tt, s') → worker_step (s, x, cl) (s', x, hear (wld s) (wld s') cl).

(** A schedule, as in [Monitor]. *)
Definition worker_turn (u : nat + positive) (y : workshop) : option workshop :=
  let '(s, x, cl) := y in
  match u with
  | inl i =>
      c ← cl !! i;
      match worker_call i c x s with
      | Some (Ok (c', x'), s') => Some (s', x', hear (wld s) (wld s') (<[i := c']> cl))
      | _ => None
      end
  | inr n =>
      c ← slots (wld s) !! n;
      if decide (ch_impl c = this_ (get_sm (obj s))) then
        match condvar_emit n true s with
        | Some (Ok tt, s') => Some (s', x, hear (wld s) (wld s') cl)
        | _ => None
        end
      else None
  end.
Lemma worker_turn_step u y z : worker_turn u y = Some z → worker_step y z.
Proof.
  destruct y as [[s x] cl], u as [i|n]; simpl.
  - intros (c & Hi & H)%bind_Some. destruct (worker_call i c x s) as [[[[c' x']|] s']|] eqn:E; try done.
    injection H as <-. by eapply wst_call.
  - intros ([p im] & Hn & H)%bind_Some. simpl in H. case_decide as Him; [|done].
    destruct (condvar_emit n true s) as [[[[]|] s']|] eqn:E; try done. injection H as <-. subst im. by eapply wst_cancel.
Qed.

(** ** The invariant *)

Definition queued i c (po : addr * op) : Prop :=
  match c with wk_waiting _ => ∃ g, po.2 = predicate_op_model g (hnd i) (user_predicate pr) | _ => False end.
Abbreviation line := (lined queued hungry).

Lemma queued_ready x i c po : queued i c po → ready (λ _, in_stock x) po = in_stock x ∧ op_handler po.2 = Some (hnd i).
Proof. destruct po as [a o], c; try done. intros [g Hg]. simpl in Hg. by subst o. Qed.

(** Whoever waits would be told of every item that nobody else is told of. *)
Definition provided x cl : Prop := ∀ i, waits_at hungry cl i → stock x ≤ total alerted cl.

(** [items]: all items that are ever made. *)
Context (items : nat).

Record workshop_ok (y : workshop) : Prop := {
  wo_rep : ∃ L q, condvar_rep L (obj y.1.1) (wld y.1.1) q ∧ line y.2 q;
  wo_provided : provided y.1.2 y.2;
  wo_items : stock y.1.2 + taken y.1.2 + total to_make y.2 = items
}.

Context `{!Inj (=) (=) hnd} (memory : ∀ i Y, allocate (hnd i) Y ≠ None).

Definition progress cl (y : workshop) : Prop := workshop_ok y ∧ total worker_weight y.2 < total worker_weight cl.

(** A step that changes one worker. *)
Lemma progress_one L q m w x x' cl i c c' s :
  workshop_ok (s, x, cl) → cl !! i = Some c → condvar_rep L m w q → line (<[i := c']> cl) q →
  worker_weight c' < worker_weight c → provided x' (<[i := c']> cl) →
  stock x' + taken x' + to_make c' = stock x + taken x + to_make c → progress cl (Machine m w, x', <[i := c']> cl).
Proof.
  intros [_ _ Ht] Hi Hr Hl Hlt Hp Hg. cbn [fst snd] in *. pose proof (total_insert worker_weight cl i c c' Hi).
  pose proof (total_insert to_make cl i c c' Hi).
  split; [|cbn [snd]; lia]. split; cbn [fst snd obj wld]; [by exists L, q|done|lia].
Qed.

(** Nobody else gets hungry, and the alert that is gone has taken its item. *)
Lemma provided_insert x x' cl i c c' :
  provided x cl → cl !! i = Some c → hungry c' = false → stock x' + alerted c ≤ stock x + alerted c' ∨ stock x' = 0 →
  provided x' (<[i := c']> cl).
Proof.
  intros Hp Hi Hc' [Ha|Ha] j Hj; [|lia]. apply (waits_insert _ _ _ _ _ _ Hi) in Hj. case_decide; [congruence|].
  specialize (Hp j Hj). pose proof (total_insert alerted cl i c c' Hi). lia.
Qed.

(** ** The calls *)

Definition goes i s cl c' x' s' : Prop := progress cl (s', x', hear (wld s) (wld s') (<[i := c']> cl)).

Lemma wp_take s x cl i c todo :
  workshop_ok (s, x, cl) → cl !! i = Some c → hungry c = false → worker_weight c = 3 * length todo + 3 →
  alerted c ≤ 1 → to_make c = to_make (wk_ready todo) →
  wp (take i todo x) s (λ r s', ∃ c' x', r = Ok (c', x') ∧ goes i s cl c' x' s').
Proof.
  intros Hok Hi Hc Hw Ha Hm. destruct s as [m w]. pose proof (wo_rep _ Hok) as (L & q & Hr & Hl).
  pose proof (wo_provided _ Hok) as Hp. cbn [fst snd obj wld] in *. unfold take, in_stock.
  case_bool_decide as Hs.
  - apply wp_ret. eexists _, _. split; [done|]. unfold goes. rewrite deliver_none by done.
    eapply progress_one; [done|done|exact Hr|by eapply lined_same|simpl; lia| |simpl in *; lia].
    eapply provided_insert; [done..|]. simpl. lia.
  - apply wp_bind. eapply wp_async_predicate_wait; [exact Hr|by intros ?%memory|].
    intros a N' _ Hf po w' Hr'. apply wp_ret. eexists _, _. split; [done|]. unfold goes. rewrite deliver_none by done.
    eapply progress_one; [done|done|exact Hr'|eapply lined_queue; try done; simpl; by eexists|simpl; lia| |simpl in *; lia].
    intros j _. lia.
Qed.

(** A waiting worker is told. *)
Lemma progress_told L m w s x cl cl1 j todo ec q :
  cl1 !! j = Some (wk_waiting todo) → condvar_rep L m w q → line (<[j := wk_told todo ec]> cl1) q →
  provided x (<[j := wk_told todo ec]> cl1) → stock x + taken x + total to_make cl1 = items →
  total worker_weight cl1 + (if ec_failed ec then 0 else 2) ≤ total worker_weight cl →
  workshop_ok (s, x, cl) → progress cl (Machine m w, x, <[j := wk_told todo ec]> cl1).
Proof.
  intros Hj Hr Hl Hp Ht Hw _.
  pose proof (total_insert worker_weight _ _ _ (wk_told todo ec) Hj) as Tw.
  pose proof (total_insert to_make _ _ _ (wk_told todo ec) Hj) as Tm. simpl in Tw, Tm.
  split; [|cbn [snd]; destruct (ec_failed ec); lia]. split; cbn [fst snd obj wld]; [by exists L, q|done|lia].
Qed.

Lemma wp_added s x cl i todo :
  workshop_ok (s, x, cl) → cl !! i = Some (wk_added todo) →
  wp (notify_one (λ _, in_stock x)) s (λ r s', r = Ok tt ∧ goes i s cl (wk_ready todo) x s').
Proof.
  intros Hok Hi. destruct s as [m w]. pose proof (wo_rep _ Hok) as (L & q & Hr & Hl).
  pose proof (wo_provided _ Hok) as Hp. pose proof (wo_items _ Hok) as Ht. cbn [fst snd obj wld] in *.
  assert (line (<[i := wk_ready todo]> cl) q) as Hl' by (by eapply lined_same).
  pose proof (total_insert worker_weight cl i _ (wk_ready todo) Hi) as Tw.
  pose proof (total_insert to_make cl i _ (wk_ready todo) Hi) as Tm.
  pose proof (total_insert alerted cl i _ (wk_ready todo) Hi) as Ta. simpl in Tw, Tm, Ta.
  eapply wp_notify_one; [exact Hr|]. destruct q as [|po q].
  - split; [done|]. unfold goes. rewrite deliver_none by done.
    eapply progress_one; [done|done|exact Hr|done|simpl; lia| |simpl; lia].
    intros j Hj. destruct (<[i := wk_ready todo]> cl !! j) as [d|] eqn:Hd; [|unfold waits_at in Hj; by rewrite Hd in Hj].
    pose proof (lined_nil _ _ _ _ _ Hl' Hd) as Hn. apply (waits_here _ _ _ _ Hd) in Hj. congruence.
  - destruct (lined_remove _ _ _ [] _ _ Hl') as (j & c & Hj & Hs & Hc & Hrem). destruct c as [|todo'| |]; try done.
    destruct (queued_ready x _ _ _ Hs) as [-> Hh]. unfold in_stock. case_bool_decide as Hst.
    + intros N' Hr'. split; [done|]. unfold goes. cbn [wld].
      rewrite (events_since_app w _ (completion no_error po)) by apply trace_finish.
      rewrite (deliver_completion hnd worker_told _ _ _ _ _ Hj Hh). simpl worker_told.
      pose proof (total_insert alerted _ _ _ (wk_told todo' no_error) Hj) as Ta'. simpl in Ta'.
      eapply progress_told; [done|exact Hr'|by apply Hrem| |lia|simpl; lia|done].
      intros k Hk. assert (waits_at hungry (<[i := wk_ready todo]> cl) j) as Hjw by (by apply (waits_here _ _ _ _ Hj)).
      apply (waits_insert _ _ _ _ _ _ Hi) in Hjw. case_decide; [done|]. specialize (Hp j Hjw).
      change (ec_failed no_error) with false in Ta'. lia.
    + split; [done|]. unfold goes. rewrite deliver_none by done.
      eapply progress_one; [done|done|exact Hr|done|simpl; lia| |simpl; lia]. intros k _. lia.
Qed.

Definition busy c : bool := match c with wk_ready [] | wk_waiting _ => false | _ => true end.

Lemma wp_worker_call s x cl i c :
  workshop_ok (s, x, cl) → cl !! i = Some c → busy c = true →
  wp (worker_call i c x) s (λ r s', ∃ c' x', r = Ok (c', x') ∧ goes i s cl c' x' s').
Proof.
  intros Hok Hi Hc.
  assert (∀ c' x', hungry c = false → hungry c' = false → worker_weight c' < worker_weight c →
    stock x' + alerted c ≤ stock x + alerted c' → stock x' + taken x' + to_make c' = stock x + taken x + to_make c →
    wp (mret (c', x')) s (λ r s', ∃ c' x', r = Ok (c', x') ∧ goes i s cl c' x' s')) as Hret.
  { intros c' x' H1 H2 H3 H4 H5. destruct s as [m w]. pose proof (wo_rep _ Hok) as (L & q & Hr & Hl). cbn [fst snd obj wld] in *.
    apply wp_ret. eexists _, _. split; [done|]. unfold goes. rewrite deliver_none by done.
    eapply progress_one; [done|done|exact Hr|by eapply lined_same|done| |done].
    eapply provided_insert; [apply Hok|done|done|by left]. }
  destruct c as [[|[] todo]|todo|todo ec|todo]; try done; cbn [worker_call].
  - apply Hret; simpl; try done; try lia.
  - eapply wp_take; [done|done|done|simpl; lia|simpl; lia|done].
  - destruct (ec_failed ec) eqn:Hec.
    + apply Hret; simpl; rewrite ?Hec; try done; lia.
    + eapply wp_take; [done|done|done|simpl; rewrite Hec; lia|simpl; rewrite Hec; lia|done].
  - apply wp_bind. eapply wp_mono; [by eapply wp_added|]. intros r s' [-> H]. apply wp_ret. by eexists _, _.
Qed.
Lemma worker_call_busy s x i c r : worker_call i c x s = Some r → busy c = true.
Proof. by destruct c as [[|[] todo]| | |]. Qed.

Lemma wp_cancel_wait s x cl k a :
  workshop_ok (s, x, cl) → slots (wld s) !! k = Some (CancelHandler a (this_ (get_sm (obj s)))) →
  wp (condvar_emit k true) s (λ r s', r = Ok tt ∧ progress cl (s', x, hear (wld s) (wld s') cl)).
Proof.
  intros Hok Hk. destruct s as [m w]. pose proof (wo_rep _ Hok) as (L & q & Hr & Hl). cbn [fst snd obj wld] in *.
  eapply wp_condvar_emit; [exact Hr| | |].
  - intros c Hc. by simplify_eq.
  - intros [|?]; congruence.
  - intros _ q1 a' o q2 N' -> _ w' Hr'. split; [done|]. cbn [wld].
    rewrite (events_since_app w w' (completion operation_aborted (a', o))) by apply trace_finish.
    destruct (lined_remove _ _ _ _ _ _ Hl) as (j & c & Hj & Hs & Hc & Hrem). destruct c as [|todo| |]; try done.
    destruct (queued_ready x _ _ _ Hs) as [_ Hh]. rewrite (deliver_completion hnd worker_told _ _ _ _ _ Hj Hh).
    eapply progress_told; [done|exact Hr'|by apply Hrem| |apply Hok|simpl; lia|done].
    eapply provided_insert; [apply Hok|done|done|]. left. simpl. lia.
Qed.

(** ** Runs *)

Lemma worker_step_progress y z :
  workshop_ok y → worker_step y z → workshop_ok z ∧ total worker_weight z.2 < total worker_weight y.2.
Proof.
  intros Hok Hst. destruct Hst as [i c c' s s' x x' cl Hi Hc|k a s s' x cl Hk Hc].
  - pose proof (wp_worker_call s x cl i c Hok Hi (worker_call_busy _ _ _ _ _ Hc)) as H. unfold wp in H. rewrite Hc in H.
    by destruct H as (? & ? & [= <- <-] & ?).
  - pose proof (wp_cancel_wait s x cl k a Hok Hk) as H. unfold wp in H. rewrite Hc in H. by destruct H as [_ ?].
Qed.

Definition resting c : bool := match c with wk_ready [] | wk_waiting _ => true | _ => false end.

(** When nobody can move, nobody is alerted. *)
Lemma workers_stuck s x cl :
  workshop_ok (s, x, cl) → (∀ y, ¬ worker_step (s, x, cl) y) →
  forallb resting cl = true ∧ (existsb hungry cl = true → stock x = 0).
Proof.
  intros Hok Hstuck. assert (∀ c, c ∈ cl → busy c = false) as Hb.
  { intros c (i & Hi)%list_elem_of_lookup. apply not_true_is_false. intros Hc.
    pose proof (wp_worker_call s x cl i c Hok Hi Hc) as (r & s' & Hex & c' & x' & -> & _)%wp_run.
    eapply Hstuck. by eapply wst_call. }
  split.
  - apply forallb_forall. intros c Hc%list_elem_of_In%Hb. by destruct c as [[]| | |].
  - intros (c & (i & Hi)%list_elem_of_In%list_elem_of_lookup & Hc)%existsb_exists.
    pose proof (wo_provided _ Hok i) as Hp. cbn [fst snd] in Hp. rewrite (waits_here _ _ _ _ Hi) in Hp.
    specialize (Hp Hc). rewrite (total_zero alerted) in Hp; [lia|]. intros d Hd%Hb. by destruct d as [| | |].
Qed.

Definition fresh_worker c : bool := match c with wk_ready _ => true | _ => false end.

Lemma workshop_ok_start L m w x cl :
  condvar_rep L m w [] → forallb fresh_worker cl = true → stock x + taken x + total to_make cl = items →
  workshop_ok (Machine m w, x, cl).
Proof.
  intros Hr Hf Ht. assert (∀ c, c ∈ cl → ∃ todo, c = wk_ready todo) as Hc.
  { intros c Hin. rewrite forallb_forall in Hf. specialize (Hf c (proj1 (list_elem_of_In _ _) Hin)).
    destruct c as [todo| | |]; try done. by exists todo. }
  split; cbn [fst snd obj wld]; [| |done].
  - exists L, []. split; [done|]. apply lined_start. by intros c [todo ->]%Hc.
  - intros i (c & Hi & H)%fmap_Some. by destruct (Hc _ (list_elem_of_lookup_2 _ _ _ Hi)) as [todo ->].
Qed.

Lemma worker_steps_length k y z : nsteps worker_step k y z → length z.2 = length y.2.
Proof.
  induction 1 as [|k y z u Hst _ IH]; [done|]. rewrite IH. destruct Hst; simpl; rewrite length_deliver; [|done].
  apply length_insert.
Qed.
End system.

(** ** The property *)

Section property.
Context {ASIO : Asio} `{!EqDecision handler}.

(** C14: [notify_one] is enough for producers and consumers. Let coroutines share
    a stock and a condition variable, each of them producing items, with
    [notify_one] after each, and consuming them, in any order, and let waits be
    cancelled at any time. While anybody waits there are no more items than workers
    that have been told or are about to notify; no item is lost or taken twice; at
    most three steps are made for a task; and in a state in which nothing can
    happen any more every coroutine is at its end or waits, and nobody waits while
    there is an item. *)
Theorem producers_notify_one exec hnd pr L m w k s x0 x cl0 cl :
  Inj (=) (=) hnd → (∀ i Y, allocate (hnd i) Y ≠ None) →
  condvar_rep L m w [] → forallb fresh_worker cl0 = true →
  nsteps (worker_step exec hnd pr) k (Machine m w, x0, cl0) (s, x, cl) →
  length cl = length cl0 ∧
  (existsb hungry cl = true → stock x ≤ total alerted cl) ∧
  stock x + taken x + total to_make cl = stock x0 + taken x0 + total to_make cl0 ∧
  k + total worker_weight cl ≤ total worker_weight cl0 ∧
  ((∀ y, ¬ worker_step exec hnd pr (s, x, cl) y) →
    forallb resting cl = true ∧ (existsb hungry cl = true → stock x = 0)).
Proof.
  intros Hinj Hmem Hr Hf Hst. pose proof (workshop_ok_start hnd pr _ L m w x0 cl0 Hr Hf eq_refl) as Hok.
  destruct (nsteps_shrink (worker_step exec hnd pr) (workshop_ok hnd pr _)
    (λ y, total worker_weight y.2) _ _ _ (worker_step_progress exec hnd pr _ Hmem) Hok Hst) as [Hok' Hle].
  split_and!; [by apply (worker_steps_length _ _ _ _ _ _ Hst)| |apply Hok'|done|by eapply workers_stuck].
  intros (c & (i & Hi)%list_elem_of_In%list_elem_of_lookup & Hc)%existsb_exists.
  apply (wo_provided _ _ _ _ Hok' i), (waits_here _ _ _ _ Hi), Hc.
Qed.
End property.

(** ** At work *)

Section witness.
#[local] Existing Instance test_asio.

(** Three consumers wait; the first gives up; two items are made, one of which a
    fourth consumer takes before the one that was told of it. *)
Definition demo_worker_hnd (i : nat) : nat := 14 + i.
Definition demo_workers : list worker :=
  [wk_ready [consume]; wk_ready [consume]; wk_ready [consume]; wk_ready [produce; produce]; wk_ready [consume]].
Definition demo_workshop : @workshop test_asio :=
  (Machine (obj demo_condvar) (wld demo_condvar), Goods 0 0, demo_workers).
Definition demo_worker_turns : list (nat + positive) :=
  [inl 0; inl 1; inl 2; inr 14%positive; inl 3; inl 3; inl 4; inl 0; inl 1; inl 3; inl 3; inl 2].
Definition demo_workshop_end : @workshop test_asio :=
  default demo_workshop
    (play (worker_turn (ASIO := test_asio) 0 demo_worker_hnd 7) demo_worker_turns demo_workshop).
Definition demo_worker_step : relation (@workshop test_asio) := worker_step (ASIO := test_asio) 0 demo_worker_hnd 7.

Lemma demo_workshop_run :
  nsteps demo_worker_step 12 demo_workshop (demo_workshop_end.1.1, demo_workshop_end.1.2, demo_workshop_end.2).
Proof.
  eapply (play_nsteps demo_worker_step _ demo_worker_turns); [apply worker_turn_step|]. vm_compute. reflexivity.
Qed.
Example demo_workshop_rests :
  (demo_workshop_end.1.2, demo_workshop_end.2) =
  (Goods 0 2, [wk_ready []; wk_waiting []; wk_ready []; wk_ready []; wk_ready []]).
Proof. vm_compute. reflexivity. Qed.

Lemma producers_notify_one_witness :
  length demo_workshop_end.2 = 5 ∧
  (existsb hungry demo_workshop_end.2 = true → stock demo_workshop_end.1.2 ≤ total alerted demo_workshop_end.2) ∧
  stock demo_workshop_end.1.2 + taken demo_workshop_end.1.2 + total to_make demo_workshop_end.2 = 2 ∧
  12 + total worker_weight demo_workshop_end.2 ≤ 18 ∧
  ((∀ y, ¬ demo_worker_step (demo_workshop_end.1.1, demo_workshop_end.1.2, demo_workshop_end.2) y) →
    forallb resting demo_workshop_end.2 = true ∧
    (existsb hungry demo_workshop_end.2 = true → stock demo_workshop_end.1.2 = 0)).
Proof.
  apply (producers_notify_one (ASIO := test_asio) 0 demo_worker_hnd 7 demo_condvar_lists
    (obj demo_condvar) (wld demo_condvar) 12 demo_workshop_end.1.1 (Goods 0 0) demo_workshop_end.1.2
    demo_workers demo_workshop_end.2).
  - intros i j. unfold demo_worker_hnd. lia.
  - intros [|i] Y; done.
  - apply demo_condvar_rep.
  - reflexivity.
  - exact demo_workshop_run.
Defined.
End witness.
