(* ===== verification/Gate.v ===== *)
(** * What holds back the callers of a mutex or a semaphore

    [Gate St] lists the functions by which a party enters and leaves a mutex or
    a semaphore: the test, the asynchronous and the blocking entry, the wakeup
    of a blocked thread, the exit, and the signal of a slot. A gate has a number
    of places, and a line of operations that wait for one. [GateOk St] states
    what a call does, in terms of the free places and the line; [Parties] is
    proved against it. The instances are [mutex_impl], with one place, and
    [semaphore_impl], with as many as it has permits. *)
From S2P Require Import Prelude Machine Bilist Ops Service Impl.
From S2P Require Mutex MutexSpec Semaphore.

(** ** The interface *)

Class Gate (St : Type) `{ASIO : Asio, !Member St} := {
  gate_try : M St bool;
  gate_async : executor → handler → M St unit;
  gate_block : addr → M St sync_result;
  gate_wake : addr → M St bool;
  gate_give : M St unit;
  gate_emit : positive → bool → M St unit;
  gate_free : St → Z;
  gate_capacity : Z;
  gate_rep : gmap addr (list addr) → St → world → list (addr * op) → Prop
}.

Section outcomes.
Context {ASIO : Asio} `{!Member St, !Gate St}.
Implicit Types (L : gmap addr (list addr)) (m : St) (w : world) (q : list (addr * op)).

(** One place is taken. *)
Definition takes m m' : Prop := gate_free m' = (gate_free m - 1)%Z ∧ same_member m m'.

(** A new operation gets in line. *)
Definition queues m w q (po : addr * op) w' : Prop :=
  ops w !! po.1 = None ∧ same_but_nodes w' (enqueued (this_ (get_sm m)) po w) ∧ gate_free m = 0%Z ∧
  ∃ L', gate_rep L' m w' (q ++ [po]).

(** An operation in line is completed. *)
Definition completes m ec w q1 (po : addr * op) q2 w' : Prop :=
  same_but_nodes w' (finish ec w po) ∧ ∃ L', gate_rep L' m w' (q1 ++ q2).
End outcomes.

Class GateOk (St : Type) `{ASIO : Asio, !Member St, !Gate St} := {
  gate_world (L : gmap addr (list addr)) (m : St) w q : gate_rep L m w q → world_ok w L;
  gate_queue (L : gmap addr (list addr)) (m : St) w q : gate_rep L m w q → ∃ r, queue w L r q;
  gate_bounds (L : gmap addr (list addr)) (m : St) w q : gate_rep L m w q → (0 ≤ gate_free m ≤ gate_capacity)%Z;
  gate_busy (L : gmap addr (list addr)) (m : St) w q : gate_rep L m w q → q ≠ [] → gate_free m = 0%Z;
  wp_gate_try L (m : St) w q :
    gate_rep L m w q →
    wp gate_try (Machine m w) (λ r s', ∃ m', s' = Machine m' w ∧ gate_rep L m' w q ∧
      if decide (gate_free m = 0%Z) then r = Ok false ∧ m' = m else r = Ok true ∧ takes m m');
  wp_gate_async L (m : St) w q exec h :
    gate_rep L m w q → allocate h (dom (nodes w)) ≠ None →
    wp (gate_async exec h) (Machine m w) (λ r s', r = Ok tt ∧
      if decide (gate_free m = 0%Z) then ∃ w' p g, s' = Machine m w' ∧ queues m w q (p, basic_op_model g h) w'
      else ∃ m' g w', s' = Machine m' w' ∧ w' = log (ev_dispatch g h no_error) w ∧ takes m m' ∧ gate_rep L m' w' q);
  wp_gate_block L (m : St) w q ec :
    gate_rep L m w q → is_Some (ecs w !! ec) → enabled_ (get_mtx m) = true →
    wp (gate_block ec) (Machine m w) (λ r s',
      if decide (gate_free m = 0%Z) then
        ∃ w' p, r = Ok (Blocked p) ∧ s' = Machine m w' ∧ queues m w q (p, sync_op ec false) w'
      else ∃ m' w', r = Ok Returned ∧ s' = Machine m' w' ∧ same_but_nodes w' w ∧ takes m m' ∧ gate_rep L m' w' q);
  wp_gate_wake L (m : St) w q p ec :
    gate_rep L m w q → ops w !! p = Some (sync_op ec true) →
    wp (gate_wake p) (Machine m w) (λ r s', ∃ w', r = Ok true ∧ s' = Machine m w' ∧
      same_but_nodes w' (set_ops (delete p) w) ∧ gate_rep L m w' q);
  wp_gate_give L (m : St) w q :
    gate_rep L m w q → (gate_free m < gate_capacity)%Z →
    wp gate_give (Machine m w) (λ r s', r = Ok tt ∧
      match q with
      | [] => ∃ m', s' = Machine m' w ∧ gate_rep L m' w [] ∧ gate_free m' = (gate_free m + 1)%Z ∧ same_member m m'
      | po :: q' => ∃ w', s' = Machine m w' ∧ completes m no_error w [] po q' w'
      end);
  wp_gate_emit L (m : St) w q n p :
    gate_rep L m w q → slots w !! n = Some (CancelHandler p (this_ (get_sm m))) →
    wp (gate_emit n true) (Machine m w) (λ r s', ∃ w' q1 o q2, r = Ok tt ∧ s' = Machine m w' ∧
      q = q1 ++ (p, o) :: q2 ∧ completes m operation_aborted w q1 (p, o) q2 w')
}.

(** ** The mutex *)

Section mutex.
Import Mutex MutexSpec.
Context {ASIO : Asio}.

#[export] Instance mutex_gate : Gate mutex_impl := {|
  gate_try := try_lock;
  gate_async := async_lock;
  gate_block := lock;
  gate_wake := sync_wait;
  gate_give := unlock;
  gate_emit := mutex_emit;
  gate_free m := (if locked_ m then 0 else 1)%Z;
  gate_capacity := 1%Z;
  gate_rep := mutex_rep
|}.

Lemma takes_locked m : locked_ m = false → takes m (set_locked true m).
Proof. intros Hl. unfold takes. simpl. by rewrite Hl. Qed.

#[export] Program Instance mutex_gate_ok : GateOk mutex_impl.
Next Obligation. intros L m w q Hr. apply Hr. Qed.
Next Obligation. intros L m w q Hr. by exists (waiters_ m); apply Hr. Qed.
Next Obligation. intros L m w q _. simpl. by destruct (locked_ m). Qed.
Next Obligation. intros L m w q Hr Hq. simpl. by rewrite (mr_held _ _ _ _ Hr Hq). Qed.
Next Obligation.
  intros L m w q Hr. eapply wp_try_lock; [exact Hr|]. simpl. destruct (locked_ m) eqn:Hl; simpl.
  - by exists m.
  - pose proof (rep_owned _ _ _ _ Hr Hl) as ->. eexists. split_and!; [done|by apply mutex_rep_locked|done|by apply takes_locked].
Qed.
Next Obligation.
  intros L m w q exec h Hr Ha. eapply wp_async_lock; [exact Hr|intros Hl|done|intros Hl p N' _ Hp po w' Hr']; simpl; rewrite Hl; simpl.
  - pose proof (rep_owned _ _ _ _ Hr Hl) as ->. split; [done|]. do 3 eexists. split_and!; [done..|by apply takes_locked|].
    by apply mutex_rep_locked, mutex_rep_log.
  - split; [done|]. do 3 eexists. split; [done|]. split; [by eapply fresh_op; [apply Hr|]|].
    split_and!; [apply same_with_nodes|simpl; by rewrite Hl|by eexists].
Qed.
Next Obligation.
  intros L m w q ec Hr He Hen. eapply wp_lock_mt; [done..|]. simpl. destruct (locked_ m) eqn:Hl; simpl.
  - intros p N' Hp Hr'. do 2 eexists. split_and!; [done..|]. split; [by eapply fresh_op; [apply Hr|]|].
    split_and!; [apply same_with_nodes|simpl; by rewrite Hl|by eexists].
  - pose proof (rep_owned _ _ _ _ Hr Hl) as ->. intros N' Hr'. do 2 eexists.
    split_and!; [done..|apply same_with_nodes|by apply takes_locked|done].
Qed.
Next Obligation.
  intros L m w q p ec Hr Hp. eapply wp_mutex_resume; [done..|]. simpl. intros N' Hr'. eexists.
  split_and!; [done..|apply same_with_nodes|done].
Qed.
Next Obligation.
  intros L m w q Hr Hc. simpl in *. eapply wp_unlock; [exact Hr|]. destruct q as [|po q].
  - split; [done|]. eexists. split_and!; [done|by apply mutex_rep_locked| |done]. simpl. destruct (locked_ m); simpl in *; lia.
  - intros N' w' Hr'. split; [done|]. eexists. split; [done|]. split; [apply same_with_nodes|by eexists].
Qed.
Next Obligation.
  intros L m w q n p Hr Hn. eapply wp_mutex_emit; [exact Hr|by rewrite Hn; intros ? [= <-]|intros [?|?]; congruence|].
  intros _ q1 p' o q2 N' -> Hn' w' Hr'. rewrite Hn in Hn'. injection Hn' as <-. do 4 eexists.
  split_and!; [done..|]. split; [apply same_with_nodes|by eexists].
Qed.
End mutex.

(** ** The semaphore *)

Section semaphore.
Import Semaphore.
Context {ASIO : Asio}.

#[export] Instance semaphore_gate : Gate semaphore_impl := {|
  gate_try := try_acquire;
  gate_async := async_acquire;
  gate_block := acquire;
  gate_wake := sync_wait;
  gate_give := release;
  gate_emit := semaphore_emit;
  gate_free := count_;
  gate_capacity := INT_MAX;
  gate_rep := semaphore_rep
|}.

(** A permit is taken from a semaphore that has one. *)
Lemma semaphore_takes L m w q :
  semaphore_rep L m w q → count_ m ≠ 0%Z →
  q = [] ∧ (count_ m > 0)%Z ∧ takes m (set_count (count_ m - 1) m) ∧ semaphore_rep L (set_count (count_ m - 1) m) w [].
Proof.
  intros Hr Hz. pose proof (sr_count _ _ _ _ Hr). assert (count_ m > 0)%Z as Hp by lia.
  pose proof (rep_available _ _ _ _ Hr Hp) as ->. split_and!; [done..|]. apply semaphore_rep_count; [done|lia].
Qed.

#[export] Program Instance semaphore_gate_ok : GateOk semaphore_impl.
Next Obligation. intros L m w q Hr. apply Hr. Qed.
Next Obligation. intros L m w q Hr. by exists (se_waiters m); apply Hr. Qed.
Next Obligation. intros L m w q Hr. by apply (sr_count _ _ _ _ Hr). Qed.
Next Obligation. intros L m w q Hr. by apply (sr_busy _ _ _ _ Hr). Qed.
Next Obligation.
  intros L m w q Hr. eapply wp_try_acquire; [exact Hr|]. pose proof (sr_count _ _ _ _ Hr).
  change (gate_free m) with (count_ m). destruct (decide (count_ m = 0%Z)) as [Hz|Hz].
  - rewrite bool_decide_eq_false_2 by lia. by exists m.
  - destruct (semaphore_takes _ _ _ _ Hr Hz) as (-> & Hp & Ht & Hr'). rewrite bool_decide_eq_true_2 by done.
    by eexists.
Qed.
Next Obligation.
  intros L m w q exec h Hr Ha. pose proof (sr_count _ _ _ _ Hr). change (gate_free m) with (count_ m).
  eapply wp_async_acquire; [exact Hr|intros Hp|done|intros Hz p N' _ Hp po w' Hr'].
  - rewrite decide_False by lia. destruct (semaphore_takes _ _ _ _ Hr ltac:(lia)) as (-> & _ & Ht & Hr').
    split; [done|]. do 3 eexists. split_and!; [done..|]. by apply semaphore_rep_log.
  - rewrite decide_True by done. split; [done|]. do 3 eexists. split; [done|].
    split; [by eapply fresh_op; [apply Hr|]|]. split_and!; [apply same_with_nodes|done|by eexists].
Qed.
Next Obligation.
  intros L m w q ec Hr He Hen. pose proof (sr_count _ _ _ _ Hr). change (gate_free m) with (count_ m).
  eapply wp_acquire_mt; [done..|]. case_bool_decide as Hz.
  - destruct (semaphore_takes _ _ _ _ Hr ltac:(lia)) as (-> & _ & Ht & _).
    intros N' m' Hr'. rewrite decide_False by lia. do 2 eexists. by split_and!; [..|apply same_with_nodes| |].
  - intros p N' Hp po w' Hr'. rewrite decide_True by lia. do 2 eexists. split_and!; [done..|].
    split; [by eapply fresh_op; [apply Hr|]|]. split_and!; [apply same_with_nodes|simpl; lia|by eexists].
Qed.
Next Obligation.
  intros L m w q p ec Hr Hp. eapply wp_semaphore_resume; [done..|]. simpl. intros N' Hr'. eexists.
  split_and!; [done..|apply same_with_nodes|done].
Qed.
Next Obligation.
  intros L m w q Hr Hc. simpl in *. eapply wp_release; [exact Hr|done|]. pose proof (sr_count _ _ _ _ Hr).
  destruct q as [|po q].
  - split; [done|]. eexists. split_and!; [done|apply semaphore_rep_count; [done|lia]|done..].
  - intros N' w' Hr'. split; [done|]. eexists. split; [done|]. split; [apply same_with_nodes|by eexists].
Qed.
Next Obligation.
  intros L m w q n p Hr Hn. eapply wp_semaphore_emit; [exact Hr|by rewrite Hn; intros ? [= <-]|intros [?|?]; congruence|].
  intros _ q1 p' o q2 N' -> Hn' w' Hr'. rewrite Hn in Hn'. injection Hn' as <-. do 4 eexists.
  split_and!; [done..|]. split; [apply same_with_nodes|by eexists].
Qed.
End semaphore.
