(* ===== verification/LockGuard.v ===== *)
(** * Lock guards

    [lock_guard], [shared_lock_guard] and the free functions that make them
    ([lock_guard.hpp], [shared_lock_guard.hpp]). A [lock_guard] holds a pointer
    to a [mutex_impl], whose [lock], [try_lock] and [unlock] are virtual: the
    class [Lockable] lists the operations of a mutex that guards call, with one
    instance for each of the two mutexes. *)
From S2P Require Import Prelude Machine Bilist Ops Service Impl Mutex MutexSpec SharedMutex.

(** ** The code *)

Section code.
Context {ASIO : Asio}.

(** The virtual functions of [mutex_impl], and what [basic_mutex] and
    [basic_shared_mutex] add to them. *)
Class Lockable (St : Type) := {
  lk_member :: Member St;
  lk_lock : addr → M St sync_result;
  lk_lock_throwing : M St sync_result;
  lk_unlock : M St unit;
  lk_async_lock : executor → handler → M St unit
}.

(** The throwing overloads of [basic_shared_mutex], up to where they block. *)
Definition shared_lock_throwing : M shared_mutex_impl sync_result :=
  ec ← local_ec;
  r ← SharedMutex.lock ec;
  match r with
  | Returned => throw_if_failed ec;; mret Returned
  | Blocked op => mret (Blocked op)
  end.
Definition shared_lock_shared_throwing : M shared_mutex_impl sync_result :=
  ec ← local_ec;
  r ← lock_shared ec;
  match r with
  | Returned => throw_if_failed ec;; mret Returned
  | Blocked op => mret (Blocked op)
  end.

#[export] Instance mutex_lockable : Lockable mutex_impl := {|
  lk_member := mutex_member;
  lk_lock := Mutex.lock;
  lk_lock_throwing := lock_throwing;
  lk_unlock := Mutex.unlock;
  lk_async_lock := Mutex.async_lock
|}.
#[export] Instance shared_mutex_lockable : Lockable shared_mutex_impl := {|
  lk_member := shared_mutex_member;
  lk_lock := SharedMutex.lock;
  lk_lock_throwing := shared_lock_throwing;
  lk_unlock := SharedMutex.unlock;
  lk_async_lock := SharedMutex.async_lock
|}.

(** [detail::mutex_impl *mtx_], [nullptr] by default. *)
Record lock_guard := LockGuard { lg_mtx : option addr }.

Definition lock_guard_ctor : lock_guard := LockGuard None.
(** The new guard and the new [lhs]. *)
Definition lock_guard_move_ctor (lhs : lock_guard) : lock_guard * lock_guard :=
  (LockGuard (lg_mtx lhs), LockGuard None).
(** The new [*this] and the new [lhs]: the pointers are swapped. *)
Definition lock_guard_move_assign (self lhs : lock_guard) : lock_guard * lock_guard :=
  (LockGuard (lg_mtx lhs), LockGuard (lg_mtx self)).

(** A blocking call that has returned with a guard, or sleeps. *)
Inductive guard_result (G : Type) :=
  | Got (g : G)
  | Waits (op : addr).
Global Arguments Got {_} _.
Global Arguments Waits {_} _.

Section guards.
Context {St : Type} `{!Lockable St}.

(** [lock_guard(mtx, std::adopt_lock)]. *)
Definition lock_guard_adopt : M St lock_guard :=
  m ← get_obj; mret (LockGuard (Some (this_ (get_sm m)))).

(** [~lock_guard()]. The machine holds one mutex; a guard of another one
    cannot run on it. *)
Definition lock_guard_dtor (g : lock_guard) : M St unit :=
  match lg_mtx g with
  | Some p => m ← get_obj; if bool_decide (p = this_ (get_sm m)) then lk_unlock else ub
  | None => mret tt
  end.

(** [if (ec) return lock_guard(); else return lock_guard(mtx, std::adopt_lock);] *)
Definition lock_finish (ec : addr) : M St lock_guard :=
  w ← get_world;
  e ← of_option (ecs w !! ec);
  if ec_failed e then mret lock_guard_ctor else lock_guard_adopt.

(** [lock(mtx, ec)], and how it goes on when its thread is woken. *)
Definition guard_lock_ec (ec : addr) : M St (guard_result lock_guard) :=
  r ← lk_lock ec;
  match r with
  | Returned => g ← lock_finish ec; mret (Got g)
  | Blocked op => mret (Waits op)
  end.
Definition guard_lock_ec_resume (ec op : addr) : M St (option lock_guard) :=
  b ← sync_wait op;
  if (b : bool) then g ← lock_finish ec; mret (Some g) else mret None.

(** [lock(mtx)]. *)
Definition guard_lock : M St (guard_result lock_guard) :=
  r ← lk_lock_throwing;
  match r with
  | Returned => g ← lock_guard_adopt; mret (Got g)
  | Blocked op => mret (Waits op)
  end.

(** The same when its thread is woken. *)
Definition guard_lock_resume (ec op : addr) : M St (option lock_guard) :=
  b ← sync_wait op;
  if (b : bool) then throw_if_failed ec;; g ← lock_guard_adopt; mret (Some g) else mret None.

(** [detail::async_lock_op]: the composed operation starts by locking the mutex
    with itself as the handler, and completes with a guard. *)
Definition async_lock_op_start (exec : executor) (self : handler) : M St unit := lk_async_lock exec self.
Definition async_lock_op_complete (ec : error_code) : M St lock_guard :=
  if ec_failed ec then mret lock_guard_ctor else lock_guard_adopt.
End guards.

(** ** [shared_lock_guard] *)

Record shared_lock_guard := SharedLockGuard { slg_mtx : option addr }.

Definition shared_lock_guard_ctor : shared_lock_guard := SharedLockGuard None.
Definition shared_lock_guard_move_ctor (lhs : shared_lock_guard) : shared_lock_guard * shared_lock_guard :=
  (SharedLockGuard (slg_mtx lhs), SharedLockGuard None).
Definition shared_lock_guard_move_assign (self lhs : shared_lock_guard) : shared_lock_guard * shared_lock_guard :=
  (SharedLockGuard (slg_mtx lhs), SharedLockGuard (slg_mtx self)).
Definition shared_lock_guard_adopt : M shared_mutex_impl shared_lock_guard :=
  m ← get_obj; mret (SharedLockGuard (Some (this_ (get_sm m)))).
Definition shared_lock_guard_dtor (g : shared_lock_guard) : M shared_mutex_impl unit :=
  match slg_mtx g with
  | Some p => m ← get_obj; if bool_decide (p = this_ (get_sm m)) then unlock_shared else ub
  | None => mret tt
  end.

(** [lock_shared(mtx)] and [lock_shared(mtx, ec)] call [mtx.lock]. *)
Definition guard_lock_shared : M shared_mutex_impl (guard_result shared_lock_guard) :=
  r ← shared_lock_throwing;
  match r with
  | Returned => g ← shared_lock_guard_adopt; mret (Got g)
  | Blocked op => mret (Waits op)
  end.
Definition guard_lock_shared_ec (ec : addr) : M shared_mutex_impl (guard_result shared_lock_guard) :=
  r ← SharedMutex.lock ec;
  match r with
  | Returned =>
      w ← get_world;
      e ← of_option (ecs w !! ec);
      g ← (if ec_failed e then mret shared_lock_guard_ctor else shared_lock_guard_adopt);
      mret (Got g)
  | Blocked op => mret (Waits op)
  end.

(** [detail::async_lock_shared_op]. *)
Definition async_lock_shared_op_start (exec : executor) (self : handler) : M shared_mutex_impl unit :=
  async_lock_shared exec self.
Definition async_lock_shared_op_complete (ec : error_code) : M shared_mutex_impl shared_lock_guard :=
  if ec_failed ec then mret shared_lock_guard_ctor else shared_lock_guard_adopt.
End code.

(** ** What guards rely on

    [lk_free]: nobody owns the mutex or waits for it; [lk_held]: one caller owns
    it exclusively and nobody waits. *)

Class LockableOk (St : Type) `{ASIO : Asio, !Lockable St} := {
  lk_free : gmap addr (list addr) → St → world → Prop;
  lk_held : gmap addr (list addr) → St → world → Prop;
  lk_lock_ok L m w ec : lk_free L m w → is_Some (ecs w !! ec) →
    wp (lk_lock ec) (Machine m w) (λ r s', ∃ m' N', r = Ok Returned ∧ s' = Machine m' (with_nodes N' w) ∧
      this_ (get_sm m') = this_ (get_sm m) ∧ lk_held L m' (with_nodes N' w));
  lk_lock_throwing_ok L m w : lk_free L m w →
    wp lk_lock_throwing (Machine m w) (λ r s', ∃ m' N', r = Ok Returned ∧ s' = Machine m' (with_nodes N' w) ∧
      this_ (get_sm m') = this_ (get_sm m) ∧ lk_held L m' (with_nodes N' w));
  lk_unlock_ok L m w : lk_held L m w →
    wp lk_unlock (Machine m w) (λ r s', ∃ m', r = Ok tt ∧ s' = Machine m' w ∧ lk_free L m' w);
  lk_async_lock_ok L m w exec h : lk_free L m w →
    wp (lk_async_lock exec h) (Machine m w) (λ r s', ∃ m', r = Ok tt ∧
      let w' := log (ev_dispatch (get_associated_immediate_executor h exec) h no_error) w in
      s' = Machine m' w' ∧ this_ (get_sm m') = this_ (get_sm m) ∧ lk_held L m' w')
}.

Section instances.
Context {ASIO : Asio}.
Implicit Types (L : gmap addr (list addr)) (w : world).

(** A throwing overload whose call succeeds: its local [error_code] is gone. *)
Lemma wp_throwing {St} `{!Member St} (lk : addr → M St sync_result) L m m' w ps
    (Φ : res sync_result → machine St → Prop) :
  impl_ok L m w ps →
  (∀ ec w1, w1 = set_ecs <[ec := no_error]> w → ecs w1 !! ec = Some no_error → impl_ok L m w1 ps →
     wp (lk ec) (Machine m w1) (λ r s', ∃ N', r = Ok Returned ∧ s' = Machine m' (with_nodes N' w1) ∧
       world_ok (with_nodes N' w1) L)) →
  (∀ N', world_ok (with_nodes N' w) L → Φ (Ok Returned) (Machine m' (with_nodes N' w))) →
  wp (ec ← local_ec; r ← lk ec;
      match r with Returned => throw_if_failed ec;; mret Returned | Blocked op => mret (Blocked op) end)
    (Machine m w) Φ.
Proof.
  intros Hi Hlk HΦ. apply wp_bind, wp_bind, wp_get_world, wp_bind, wp_modify_world, wp_ret.
  cbn [obj wld]. set (ec := fresh (dom (ecs w))).
  assert (ecs w !! ec = None) as Hfr by apply not_elem_of_dom, is_fresh.
  apply wp_bind. eapply wp_mono.
  { apply (Hlk ec); [done|simpl; apply lookup_insert_eq|by apply impl_ok_ecs]. }
  intros r s' (N' & -> & -> & Hok). cbn beta iota. apply wp_bind.
  eapply wp_throw_if_failed; [simpl; apply lookup_insert_eq|]. apply wp_ret. cbn [obj wld].
  replace (set_ecs (delete ec) _) with (with_nodes N' w).
  - apply HΦ, world_ok_nodes; [apply Hi|apply Hok|]. intros a Ha. by apply (wo_ops _ _ Hok).
  - unfold with_nodes, set_ecs. simpl. by rewrite delete_insert_id.
Qed.

Lemma mutex_lock_free L m w ec :
  mutex_rep L m w [] → locked_ m = false → is_Some (ecs w !! ec) →
  wp (Mutex.lock ec) (Machine m w) (λ r s', ∃ N', r = Ok Returned ∧
    s' = Machine (set_locked true m) (with_nodes N' w) ∧ mutex_rep L (set_locked true m) (with_nodes N' w) []).
Proof.
  intros Hr Hl He. destruct (enabled_ (get_mtx m)) eqn:Hen.
  - eapply wp_lock_mt; [done..|]. rewrite Hl. intros N' Hr'. by exists N'.
  - eapply wp_lock_st; [done..|]. rewrite Hl. exists (nodes w). rewrite with_nodes_id.
    split_and!; [done..|]. by apply mutex_rep_locked.
Qed.

Lemma shared_lock_free L m w ec :
  shared_rep L m w [] [] → sh_locked m = false → locked_shared_ m = 0%Z → is_Some (ecs w !! ec) →
  wp (SharedMutex.lock ec) (Machine m w) (λ r s', ∃ N', r = Ok Returned ∧
    s' = Machine (set_sh_locked true m) (with_nodes N' w) ∧
    shared_rep L (set_sh_locked true m) (with_nodes N' w) [] []).
Proof.
  intros Hr Hl Hz He. destruct (enabled_ (get_mtx m)) eqn:Hen.
  - eapply wp_shared_lock_mt; [done..|]. rewrite Hl, Hz. simpl. intros N' Hr'. by exists N'.
  - eapply wp_shared_lock_st; [done..|]. rewrite Hl, Hz. simpl. exists (nodes w). rewrite with_nodes_id.
    split_and!; [done..|]. by apply shared_rep_lock.
Qed.

Lemma shared_rep_nodes_world L m w N' :
  shared_rep L m w [] [] → world_ok (with_nodes N' w) L → shared_rep L m (with_nodes N' w) [] [].
Proof. intros [[Hok Hi Hc] Hx Hs Hne Hb He Hw Hr] Hok'. by split; [split|..]. Qed.
Lemma mutex_rep_nodes_world L m w N' :
  mutex_rep L m w [] → world_ok (with_nodes N' w) L → mutex_rep L m (with_nodes N' w) [].
Proof. intros [[Hok Hi Hc] Hq Hh] Hok'. by split; [split|..]. Qed.

#[export] Program Instance mutex_lockable_ok : LockableOk mutex_impl := {|
  lk_free L m w := mutex_rep L m w [] ∧ locked_ m = false;
  lk_held L m w := mutex_rep L m w [] ∧ locked_ m = true
|}.
Next Obligation.
  intros L m w ec [Hr Hl] He. eapply wp_mono; [by apply mutex_lock_free|].
  intros r s' (N' & -> & -> & Hr'). by exists (set_locked true m), N'.
Qed.
Next Obligation.
  intros L m w [Hr Hl]. apply (wp_throwing Mutex.lock L m (set_locked true m) w []); [apply Hr| |].
  - intros ec w1 -> He Hi. eapply wp_mono; [apply (mutex_lock_free L); [by apply mutex_rep_ecs|done|by eexists]|].
    intros r s' (N' & -> & -> & Hr'). exists N'. split_and!; [done..|apply Hr'].
  - intros N' Hok. exists (set_locked true m), N'. split_and!; [done..| |done].
    apply mutex_rep_nodes_world; [by apply mutex_rep_locked|done].
Qed.
Next Obligation.
  intros L m w [Hr Hl]. eapply wp_unlock; [done|]. exists (set_locked false m).
  split_and!; [done..| |done]. by apply mutex_rep_locked.
Qed.
Next Obligation.
  intros L m w exec h [Hr Hl]. eapply wp_async_lock; [done| |congruence..]. intros _.
  exists (set_locked true m). cbv zeta. split_and!; [done..| |done].
  by apply mutex_rep_locked, mutex_rep_log.
Qed.

#[export] Program Instance shared_mutex_lockable_ok : LockableOk shared_mutex_impl := {|
  lk_free L m w := shared_rep L m w [] [] ∧ sh_locked m = false ∧ locked_shared_ m = 0%Z;
  lk_held L m w := shared_rep L m w [] [] ∧ sh_locked m = true ∧ locked_shared_ m = 0%Z
|}.
Next Obligation.
  intros L m w ec (Hr & Hl & Hz) He. eapply wp_mono; [by apply shared_lock_free|].
  intros r s' (N' & -> & -> & Hr'). by exists (set_sh_locked true m), N'.
Qed.
Next Obligation.
  intros L m w (Hr & Hl & Hz).
  apply (wp_throwing SharedMutex.lock L m (set_sh_locked true m) w []); [apply Hr| |].
  - intros ec w1 -> He Hi.
    eapply wp_mono; [apply (shared_lock_free L); [|done|done|by eexists]|].
    + destruct Hr. by split.
    + intros r s' (N' & -> & -> & Hr'). exists N'. split_and!; [done..|apply Hr'].
  - intros N' Hok. exists (set_sh_locked true m), N'. split_and!; [done..| |done|done].
    apply shared_rep_nodes_world; [by apply shared_rep_lock|done].
Qed.
Next Obligation.
  intros L m w (Hr & Hl & Hz). eapply wp_shared_unlock; [done..|]. intros Hr'.
  by exists (set_sh_locked false m).
Qed.
Next Obligation.
  intros L m w exec h (Hr & Hl & Hz). eapply wp_shared_async_lock; [done|]. rewrite Hl, Hz. simpl.
  exists (set_sh_locked true m). cbv zeta. split_and!; [done..| |done|done].
  by apply shared_rep_lock; [apply shared_rep_log|].
Qed.
End instances.
