(* ===== verification/GuardRuns.v ===== *)
(** * Programs with lock guards

    [guard_run] is a program of any length in which only the destructors of
    guards unlock a mutex. Whoever was granted the lock is kept in view until it
    has become a guard: handlers that asio has still to call, threads that were
    woken and have not looked, callers who hold the lock by hand, and locks that
    nobody will ever give back. [guard_run_ok] is the account: together they own
    the mutex once, or not at all. *)
From S2P Require Import Prelude Machine Bilist Ops Service Impl Mutex MutexSpec SharedMutex LockGuard.

(** ** Two rules *)

Section rules.
Context {ASIO : Asio}.

Lemma wp_both {St A} (x : M St A) (s0 : machine St) (Φ Ψ : res A → machine St → Prop) :
  wp x s0 Φ → wp x s0 Ψ → wp x s0 (λ r s', Φ r s' ∧ Ψ r s').
Proof. unfold wp. by destruct (x s0) as [[r s']|]. Qed.
Lemma wp_unmap {St A B} (x : M St A) (f : A → B) (s0 : machine St) (Φ : res B → machine St → Prop) :
  wp (a ← x; mret (f a)) s0 Φ → wp x s0 (λ r s', match r with Ok a => Φ (Ok (f a)) s' | Exn e => Φ (Exn e) s' end).
Proof. unfold wp, mbind, M_bind. by destruct (x s0) as [[[a|e] s']|]. Qed.
End rules.

(** ** Threads that were woken *)

Section woken.
Context {ASIO : Asio}.
Implicit Types (w : world) (p ec : addr).

(** The thread whose operation is at [p] has been given the lock and has not
    looked yet. *)
Definition woken_at w p : bool :=
  match ops w !! p with
  | Some (sync_op ec true) => bool_decide (ecs w !! ec = Some no_error)
  | _ => false
  end.
Definition woken_threads w : gset addr := filter (λ p, woken_at w p = true) (dom (ops w)).
Definition woken w : nat := size (woken_threads w).

Lemma elem_of_woken w p : p ∈ woken_threads w ↔ woken_at w p = true.
Proof.
  unfold woken_threads. rewrite elem_of_filter, elem_of_dom. split; [by intros [? _]|]. intros E. split; [done|].
  unfold woken_at in E. by destruct (ops w !! p).
Qed.

Definition count (b : bool) : nat := if b then 1 else 0.

(** Only what happens at [p] counts. *)
Lemma woken_change w w' p :
  (∀ p', p' ≠ p → woken_at w' p' = woken_at w p') →
  woken w' + count (woken_at w p) = woken w + count (woken_at w' p).
Proof.
  intros Hne. assert (∀ w, woken w = size (woken_threads w ∖ {[p]}) + count (woken_at w p)) as Hsplit.
  { intros w1. unfold woken. destruct (woken_at w1 p) eqn:E; simpl.
    - rewrite <- (size_singleton (C := gset addr) p), <- size_union by set_solver. f_equal. apply set_eq. intros p'.
      apply elem_of_woken in E. destruct (decide (p' = p)); set_solver.
    - rewrite Nat.add_0_r. f_equal. apply set_eq. intros p'.
      assert (p ∉ woken_threads w1) by (rewrite elem_of_woken; congruence). set_solver. }
  rewrite (Hsplit w), (Hsplit w'). assert (woken_threads w' ∖ {[p]} = woken_threads w ∖ {[p]}) as ->; [|lia].
  apply set_eq. intros p'. rewrite !elem_of_difference, !elem_of_woken, not_elem_of_singleton.
  split; intros [E ?]; (split; [|done]); [rewrite <- Hne|rewrite Hne]; done.
Qed.
Lemma woken_ext w w' : (∀ p, woken_at w' p = woken_at w p) → woken w' = woken w.
Proof. intros E. unfold woken. f_equal. apply set_eq. intros p. by rewrite !elem_of_woken, E. Qed.

(** Every call that is going on has an [error_code] of its own, which is alive. *)
Record calls_apart w : Prop := {
  ca_alive p ec d : ops w !! p = Some (sync_op ec d) → is_Some (ecs w !! ec);
  ca_own p p' ec d d' : ops w !! p = Some (sync_op ec d) → ops w !! p' = Some (sync_op ec d') → p = p'
}.
Definition unused w ec : Prop := ∀ p d, ops w !! p ≠ Some (sync_op ec d).
Definition no_calls w : Prop := ∀ p ec d, ops w !! p ≠ Some (sync_op ec d).

Lemma apart_ecs w f ec :
  calls_apart w → unused w ec → (∀ r, r ≠ ec → f (ecs w) !! r = ecs w !! r) →
  calls_apart (set_ecs f w) ∧ woken (set_ecs f w) = woken w.
Proof.
  intros [Ha Ho] Hu Hf. split; [split; simpl; [|done]|].
  - intros p r d Hp. rewrite Hf; [by eapply Ha|]. intros ->. by eapply Hu.
  - apply woken_ext. intros p. unfold woken_at. simpl. destruct (ops w !! p) as [[| |r []]|] eqn:Hp; try done.
    rewrite Hf; [done|]. intros ->. by eapply Hu.
Qed.

(** An operation that is new, or goes. *)
Lemma apart_new w p o :
  calls_apart w → ops w !! p = None →
  match o with sync_op ec d => d = false ∧ unused w ec ∧ is_Some (ecs w !! ec) | _ => True end →
  ∀ w', ops w' = <[p := o]> (ops w) → ecs w' = ecs w → calls_apart w' ∧ woken w' = woken w.
Proof.
  intros [Ha Ho] Hp Hnew w' Eo Ee. split; [split|].
  - intros p' r d. rewrite Eo, Ee. intros [[<- ->]|[_ Hp']]%lookup_insert_Some; [apply Hnew|by eapply Ha].
  - intros p1 p2 r d1 d2. rewrite Eo. intros [[<- ->]|[_ H1]]%lookup_insert_Some [[<- E]|[_ H2]]%lookup_insert_Some; try done.
    + destruct Hnew as (_ & Hu & _). by destruct (Hu p2 d2).
    + subst o. destruct Hnew as (_ & Hu & _). by destruct (Hu p1 d1).
    + by eapply Ho.
  - apply woken_ext. intros p'. unfold woken_at. rewrite Eo, Ee. destruct (decide (p' = p)) as [->|Hne].
    + rewrite lookup_insert_eq, Hp. destruct o; try done. by destruct Hnew as [-> _].
    + by rewrite lookup_insert_ne.
Qed.
Lemma apart_gone w p :
  calls_apart w → ∀ w', ops w' = delete p (ops w) → ecs w' = ecs w →
  calls_apart w' ∧ woken w' + count (woken_at w p) = woken w.
Proof.
  intros [Ha Ho] w' Eo Ee. split; [split|].
  - intros p' r d. rewrite Eo, Ee. intros [_ Hp']%lookup_delete_Some. by eapply Ha.
  - intros p1 p2 r d1 d2. rewrite Eo. intros [_ H1]%lookup_delete_Some [_ H2]%lookup_delete_Some. by eapply Ho.
  - rewrite (woken_change w w' p).
    + replace (woken_at w' p) with false; [simpl; lia|]. unfold woken_at. by rewrite Eo, lookup_delete_eq.
    + intros p' Hne. unfold woken_at. by rewrite Eo, Ee, lookup_delete_ne.
Qed.

(** A call that ends: a thread is woken with [e]. *)
Lemma apart_done w p ec e :
  calls_apart w → ops w !! p = Some (sync_op ec false) →
  ∀ w', ops w' = <[p := sync_op ec true]> (ops w) → ecs w' = <[ec := e]> (ecs w) →
  calls_apart w' ∧ woken w' = woken w + count (bool_decide (e = no_error)).
Proof.
  intros [Ha Ho] Hp w' Eo Ee. split; [split|].
  - intros p' r d. rewrite Eo, Ee. intros Hl. apply lookup_insert_is_Some'.
    apply lookup_insert_Some in Hl as [[<- [= <- <-]]|[_ Hp']]; [by left|right; by eapply Ha].
  - intros p1 p2 r d1 d2. rewrite Eo.
    intros [[<- [= <- <-]]|[_ H1]]%lookup_insert_Some [[<- E]|[_ H2]]%lookup_insert_Some; try done;
      [by eapply Ho|injection E as <- <-; by eapply Ho|by eapply Ho].
  - assert (woken_at w p = false) as E1 by (unfold woken_at; by rewrite Hp).
    assert (woken_at w' p = bool_decide (e = no_error)) as E2.
    { unfold woken_at. rewrite Eo, Ee, !lookup_insert_eq. apply bool_decide_ext. by split; [intros [= ->]|intros ->]. }
    pose proof (woken_change w w' p) as E. rewrite E1, E2 in E. rewrite <- E; [simpl; lia|].
    intros p' Hne. unfold woken_at. rewrite Eo, Ee, lookup_insert_ne by done.
    destruct (ops w !! p') as [[| |r []]|] eqn:Hp'; try done. rewrite lookup_insert_ne; [done|].
    intros ->. apply Hne. by eapply Ho.
Qed.
End woken.

(** ** What a call on the mutex grants *)

Section balance.
Context {ASIO : Asio}.
Implicit Types (w : world) (p : addr) (q : list (addr * op)) (sp : mutex_spec) (s : machine mutex_impl).

(** The calls of handlers, among those that asio has still to make, that say
    that the lock was granted. *)
Definition clear (pd : list (handler * error_code)) : nat := length (filter (λ x, x.2 = no_error) pd).
#[global] Instance clear_proper : Proper (Permutation ==> eq) clear.
Proof. intros l k E. unfold clear. by rewrite E. Qed.
Lemma clear_app pd pd' : clear (pd ++ pd') = clear pd + clear pd'.
Proof. unfold clear. by rewrite filter_app, length_app. Qed.
Lemma clear_cons h ec pd : clear ((h, ec) :: pd) = count (bool_decide (ec = no_error)) + clear pd.
Proof. unfold clear. rewrite filter_cons. simpl. case_decide as E; [rewrite bool_decide_eq_true_2|rewrite bool_decide_eq_false_2]; done. Qed.

Definition told w w' : list (handler * error_code) := told_of (events_since w w').

(** An operation that is in line is completed with [e]: its handler is handed to
    asio, or its thread is woken. *)
Lemma finish_balance w p o e :
  calls_apart w → ops w !! p = Some o → op_pending w o →
  calls_apart (finish e w (p, o)) ∧
  woken (finish e w (p, o)) + clear (told_of (completion e (p, o))) = woken w + count (bool_decide (e = no_error)).
Proof.
  intros Hc Hp Hpd. destruct o as [g h|g h pr|r d]; simpl in Hpd.
  3: { destruct Hpd as [-> _]. destruct (apart_done w p r e Hc Hp (finish e w (p, sync_op r false)) eq_refl eq_refl) as [H1 ->].
       split; [done|]. change (clear (told_of _)) with 0. lia. }
  all: match goal with |- calls_apart ?w' ∧ _ => destruct (apart_gone w p Hc w' eq_refl eq_refl) as [H1 H2] end;
    split; [done|]; unfold woken_at in H2; rewrite Hp in H2; simpl in H2;
    change (told_of _) with [(h, e)]; rewrite clear_cons; change (clear []) with 0; lia.
Qed.

(** One that is shut down grants nothing. *)
Lemma abort_balance w p o :
  calls_apart w → ops w !! p = Some o → op_pending w o →
  calls_apart (abort w (p, o)) ∧ woken (abort w (p, o)) = woken w ∧ clear (told_of (abortion (p, o))) = 0.
Proof.
  intros Hc Hp Hpd. destruct o as [g h|g h pr|r d]; simpl in Hpd.
  3: { destruct Hpd as [-> _].
       destruct (apart_done w p r shut_down Hc Hp (abort w (p, sync_op r false)) eq_refl eq_refl) as [H1 ->].
       split_and!; [done|simpl; lia|done]. }
  all: match goal with |- calls_apart ?w' ∧ _ => destruct (apart_gone w p Hc w' eq_refl eq_refl) as [H1 H2] end;
    split_and!; [done| |done]; unfold woken_at in H2; rewrite Hp in H2; simpl in H2; lia.
Qed.

Lemma abort_all_balance q w :
  calls_apart w → NoDup q.*1 → Forall (λ po, ops w !! po.1 = Some po.2 ∧ op_pending w po.2) q →
  calls_apart (abort_all q w) ∧ woken (abort_all q w) = woken w.
Proof.
  revert w. induction q as [|[p o] q IH]; intros w Hc Hnd Hq; [done|]. rewrite abort_all_cons.
  apply Forall_cons in Hq as [[Hp Hpd] Hq]. apply NoDup_cons in Hnd as [Hn Hnd].
  destruct (abort_balance w p o Hc Hp Hpd) as (H1 & H2 & _). rewrite <- H2. apply IH; [done..|].
  rewrite Forall_forall in *. intros [p' o'] Hin. destruct (Hq _ Hin) as [Hp' Hpd']. simpl in *.
  assert (p' ≠ p) as Hne by (intros ->; apply Hn, list_elem_of_fmap; by exists (p, o')).
  split; [by destruct o; simpl; rewrite ?lookup_delete_ne, ?lookup_insert_ne|].
  destruct o' as [| |r d]; try done. destruct Hpd' as [-> Hr]. split; [done|].
  destruct o; simpl; try done. apply lookup_insert_is_Some'. by right.
Qed.

Lemma told_same w w' : trace w' = trace w → told w w' = [].
Proof. intros E. unfold told. by rewrite events_since_same. Qed.
Lemma told_app w w' es : trace w' = trace w ++ es → told w w' = told_of es.
Proof. intros E. unfold told. by rewrite (events_since_app _ _ _ E). Qed.

Lemma apart_same w w' : same_but_nodes w' w → calls_apart w → calls_apart w' ∧ woken w' = woken w.
Proof. intros [N ->] [Ha Ho]. split; [by split|]. by apply woken_ext. Qed.

(** Calls rely on what [mutex_pre] says, and [lock] on an [error_code] of its own. *)
Definition guard_pre (c : mutex_cmd) s : Prop :=
  mutex_pre c s ∧ match c with cmd_lock ec => unused (wld s) ec | _ => True end.

(** The grants that are seen at once: by [try_lock], by [lock] on a mutex that is
    free, by a thread that looks. *)
Definition taken s (c : mutex_cmd) (r : res reply) : nat :=
  match c, r with
  | cmd_try_lock, Ok (r_bool true) => 1
  | cmd_lock _, _ => count (negb (locked_ (obj s)))
  | cmd_resume p, Ok (r_bool true) => count (woken_at (wld s) p)
  | _, _ => 0
  end.

Lemma step_balance L s sp c r sp' w' enabled impl :
  mutex_implements L s sp → calls_apart (wld s) → guard_pre c s → (c = cmd_unlock → owned sp = true) →
  mutex_step enabled impl sp (wld s) c r sp' w' →
  calls_apart w' ∧
  owners (owned sp') + releases c + woken (wld s) = owners (owned sp) + taken s c r + clear (told (wld s) w') + woken w'.
Proof.
  intros [Hr Hl] Hc [Hpre Hpc] Hun Hst. pose proof (mr_queue _ _ _ _ Hr) as Hq.
  pose proof (io_world _ _ _ _ (mr_impl _ _ _ _ Hr)) as Hw.
  pose proof (queue_NoDup _ _ _ _ Hw Hq) as Hnd.
  assert (Forall (λ po, ops (wld s) !! po.1 = Some po.2 ∧ op_pending (wld s) po.2) (line sp)) as Hpd.
  { rewrite Forall_forall. intros [p o] Hin. pose proof (queue_member _ _ _ _ p o Hq Hin) as Hp. split; [done|].
    eapply (wo_pending _ _ Hw); [exact Hp|]. eapply listed_member; [apply Hq|]. apply list_elem_of_fmap. by exists (p, o). }
  unfold taken. rewrite Hl. clear Hl Hr Hq Hw. destruct s as [m w]. cbn [obj wld] in *.
  destruct Hst as [sp w r Hfr|w|q w|ec w|ec q w He|ec q w p He Hp|b w|[p o] q w|exec h w|exec h q w X Ha|exec h q w p Hp po
    |n type sp w Hn|n q1 p o q2 w Hn|p ec sp w Hp|p ec sp w Hp|b q w]; cbn [owned line] in *;
    try (rewrite told_same by done; split; [done|change (clear []) with 0; cbn [releases]; try destruct (owned sp); simpl; lia]).
  - destruct (apart_ecs w <[r := no_error]> r Hc) as [H1 ->].
    + intros p d Hp. destruct (ca_alive _ Hc _ _ _ Hp). congruence.
    + intros r' Hne. by rewrite lookup_insert_ne.
    + rewrite told_same by done. split; [done|]. change (clear []) with 0. simpl. lia.
  - destruct (apart_ecs w <[ec := in_progress]> ec Hc Hpc) as [H1 ->].
    + intros r' Hne. by rewrite lookup_insert_ne.
    + rewrite told_same by done. split; [done|]. change (clear []) with 0. simpl. lia.
  - destruct (apart_new w p (sync_op ec false) Hc Hp ltac:(done) (enqueued impl (p, sync_op ec false) w) eq_refl eq_refl) as [H1 ->].
    rewrite told_same by done. split; [done|]. change (clear []) with 0. simpl. lia.
  - rewrite told_same by done. split; [done|]. change (clear []) with 0. destruct b; [simpl; lia|]. by specialize (Hun eq_refl).
  - apply Forall_cons in Hpd as [[Hp Hpd] _]. destruct (finish_balance w p o no_error Hc Hp Hpd) as [H1 H2].
    rewrite (told_app _ _ _ (trace_finish _ _ _)). split; [done|]. simpl in *. lia.
  - rewrite (told_app _ _ [ev_dispatch (get_associated_immediate_executor h exec) h no_error]) by done.
    split; [by destruct Hc|]. change (woken (log _ w)) with (woken w). change (told_of _) with [(h, no_error)].
    rewrite clear_cons. change (clear []) with 0. simpl. lia.
  - subst po. destruct (apart_new w p (basic_op_model (get_associated_executor h exec) h) Hc Hp I
      (enqueued impl (p, basic_op_model (get_associated_executor h exec) h) w) eq_refl eq_refl) as [H1 ->].
    rewrite told_same by done. split; [done|]. change (clear []) with 0. simpl. lia.
  - apply Forall_elem_of_mid in Hpd as [[Hp Hpd] _]. destruct (finish_balance w p o operation_aborted Hc Hp Hpd) as [H1 H2].
    rewrite (told_app _ _ _ (trace_finish _ _ _)). split; [done|]. simpl in *. lia.
  - set (w' := set_ops (delete p) w). destruct (apart_gone w p Hc w' eq_refl eq_refl) as [H1 H2].
    rewrite told_same by done. split; [done|]. change (clear []) with 0. cbn [releases]. lia.
  - destruct (abort_all_balance q w Hc Hnd Hpd) as [H1 ->]. split; [done|].
    rewrite (told_app _ _ _ (trace_abort_all _ _)). replace (clear (told_of (q ≫= abortion))) with 0; [simpl; lia|].
    clear. induction q as [|[p []] q IH]; done.
Qed.

(** Every call has an outcome, and it balances. *)
Lemma wp_call_balance L s sp c :
  mutex_implements L s sp → calls_apart (wld s) → guard_pre c s → (c = cmd_unlock → owned sp = true) →
  wp (mutex_exec c) s (λ r s', ∃ L' sp', mutex_implements L' s' sp' ∧ calls_apart (wld s') ∧
    get_sm (obj s') = get_sm (obj s) ∧
    owners (owned sp') + releases c + woken (wld s) =
      owners (owned sp) + taken s c r + clear (told (wld s) (wld s')) + woken (wld s')).
Proof.
  intros Himp Hc Hpre Hun. eapply wp_mono; [by apply (mutex_exec_refines c L s sp); [|apply Hpre]|].
  intros r s' (L' & sp' & w' & Hst & Hsame & Himp' & Hlo).
  destruct (step_balance _ _ _ _ _ _ _ _ _ Himp Hc Hpre Hun Hst) as [H1 H2].
  destruct (apart_same _ _ Hsame H1) as [H3 H4]. exists L', sp'. split_and!; [done..|apply Hlo|].
  rewrite H4. unfold told, events_since in *. by rewrite (trace_same _ _ Hsame).
Qed.

(** What [lock] answers, and what it does to the [error_code]. *)
Lemma wp_lock_answers L s sp ec :
  mutex_implements L s sp → is_Some (ecs (wld s) !! ec) →
  wp (mutex_exec (cmd_lock ec)) s (λ r s', match r with
    | Ok (r_sync Returned) => ops (wld s') = ops (wld s) ∧
        ecs (wld s') !! ec = if locked_ (obj s) then Some in_progress else ecs (wld s) !! ec
    | Ok (r_sync (Blocked p)) => locked_ (obj s) = true
    | _ => False
    end).
Proof.
  intros Himp He. eapply wp_mono; [by apply (mutex_exec_refines (cmd_lock ec) L s sp)|].
  intros r s' (L' & sp' & w' & Hst & [N ->] & _). rewrite (proj2 Himp). clear Himp.
  remember (cmd_lock ec) as c eqn:Ec. destruct Hst; try done. injection Ec as ->. simpl. by rewrite lookup_insert_eq.
Qed.
Lemma wp_resume_answers L s sp p ec d :
  mutex_implements L s sp → ops (wld s) !! p = Some (sync_op ec d) →
  wp (mutex_exec (cmd_resume p)) s (λ r s', r = Ok (r_bool d) ∧ ecs (wld s') = ecs (wld s) ∧
    ops (wld s') = if d then delete p (ops (wld s)) else ops (wld s)).
Proof.
  intros Himp Hp. eapply wp_mono; [apply (mutex_exec_refines (cmd_resume p) L s sp Himp); by eexists _, _|].
  intros r s' (L' & sp' & w' & Hst & [N ->] & _). clear Himp. remember (cmd_resume p) as c eqn:Ec.
  destruct Hst; try done; injection Ec as ->; simplify_eq; done.
Qed.
End balance.

(** ** Programs *)

Section programs.
Context {ASIO : Asio}.
Implicit Types (s : machine mutex_impl) (gs : list lock_guard) (pd : list (handler * error_code)) (n k : nat).

(** A guard owns when its pointer is set. *)
Definition owning gs : nat := length (filter (λ g, is_Some (lg_mtx g)) gs).

#[global] Instance owning_proper : Proper (Permutation ==> eq) owning.
Proof. intros l l' E. unfold owning. by rewrite E. Qed.

Lemma owning_cons g gs : owning (g :: gs) = owning [g] + owning gs.
Proof. unfold owning. rewrite !filter_cons, filter_nil. destruct (decide _); simpl; lia. Qed.
Lemma owning_some p gs : owning (LockGuard (Some p) :: gs) = S (owning gs).
Proof. unfold owning. rewrite filter_cons_True; [done|by eexists]. Qed.
Lemma owning_none gs : owning (LockGuard None :: gs) = owning gs.
Proof. unfold owning. rewrite filter_cons_False; [done|by intros []]. Qed.

(** The calls a program makes besides: none of them unlocks. *)
Definition no_unlock (c : mutex_cmd) : Prop := match c with cmd_unlock | cmd_lock _ => False | _ => True end.

(** [lock(ec)] on a mutex that is free locks it; with an [ec] that holds an old
    error the caller takes it for a failure. *)
Definition locks s : nat := count (negb (locked_ (obj s))).
Definition lost s (ec : addr) : nat :=
  if bool_decide (ecs (wld s) !! ec = Some no_error) then 0 else locks s.

(** [guard_run s0 s gs pd n k]: the guards [gs] are alive (their order does not
    matter), asio has still to call the handlers [pd], [n] callers hold the lock
    by hand and may adopt it, and [k] times the lock was lost. Handlers are those
    of the composed [async_lock], which make a guard, or others. *)
Inductive guard_run s0 : machine mutex_impl → list lock_guard → list (handler * error_code) → nat → nat → Prop :=
  | gr_start : guard_run s0 s0 [] [] 0 0
  | gr_call s gs pd n k c r s' : guard_run s0 s gs pd n k → no_unlock c → mutex_pre c s →
      mutex_exec c s = Some (r, s') →
      guard_run s0 s' gs (pd ++ told (wld s) (wld s')) (n + taken s c r) k
  | gr_lock_by_hand s gs pd n k ec r s' : guard_run s0 s gs pd n k →
      unused (wld s) ec → is_Some (ecs (wld s) !! ec) → mutex_exec (cmd_lock ec) s = Some (r, s') →
      guard_run s0 s' gs (pd ++ told (wld s) (wld s')) (n + (locks s - lost s ec)) (k + lost s ec)
  | gr_lock s gs pd n k ec r s' : guard_run s0 s gs pd n k →
      unused (wld s) ec → is_Some (ecs (wld s) !! ec) → guard_lock_ec ec s = Some (Ok r, s') →
      guard_run s0 s' (match r with Got g => g :: gs | Waits _ => gs end)
        (pd ++ told (wld s) (wld s')) n (k + lost s ec)
  | gr_lock_throwing s gs pd n k r s' : guard_run s0 s gs pd n k → guard_lock s = Some (r, s') →
      guard_run s0 s' (match r with Ok (Got g) => g :: gs | _ => gs end) (pd ++ told (wld s) (wld s')) n k
  | gr_resume s gs pd n k ec p d r s' : guard_run s0 s gs pd n k → ops (wld s) !! p = Some (sync_op ec d) →
      guard_lock_ec_resume ec p s = Some (Ok r, s') →
      guard_run s0 s' (match r with Some g => g :: gs | None => gs end) (pd ++ told (wld s) (wld s')) n k
  | gr_resume_throwing s gs pd n k ec p d r s' : guard_run s0 s gs pd n k → ops (wld s) !! p = Some (sync_op ec d) →
      guard_lock_resume ec p s = Some (r, s') →
      guard_run s0 s' (match r with Ok (Some g) => g :: gs | _ => gs end) (pd ++ told (wld s) (wld s')) n k
  | gr_complete s gs pd pd' n k h ec g s' : guard_run s0 s gs pd n k → pd ≡ₚ (h, ec) :: pd' →
      async_lock_op_complete ec s = Some (Ok g, s') → guard_run s0 s' (g :: gs) pd' n k
  | gr_handler s gs pd pd' n k h ec : guard_run s0 s gs pd n k → pd ≡ₚ (h, ec) :: pd' →
      guard_run s0 s gs pd' (n + count (bool_decide (ec = no_error))) k
  | gr_adopt s gs pd n k g s' : guard_run s0 s gs pd (S n) k → lock_guard_adopt s = Some (Ok g, s') →
      guard_run s0 s' (g :: gs) pd n k
  | gr_empty s gs pd n k : guard_run s0 s gs pd n k → guard_run s0 s (lock_guard_ctor :: gs) pd n k
  | gr_move s gs pd n k g gs' : guard_run s0 s gs pd n k → gs ≡ₚ g :: gs' →
      guard_run s0 s ((lock_guard_move_ctor g).1 :: (lock_guard_move_ctor g).2 :: gs') pd n k
  | gr_assign s gs pd n k g lhs gs' : guard_run s0 s gs pd n k → gs ≡ₚ g :: lhs :: gs' →
      guard_run s0 s ((lock_guard_move_assign g lhs).1 :: (lock_guard_move_assign g lhs).2 :: gs') pd n k
  | gr_destroy s gs pd n k g gs' s' : guard_run s0 s gs pd n k → gs ≡ₚ g :: gs' →
      lock_guard_dtor g s = Some (Ok tt, s') →
      guard_run s0 s' gs' (pd ++ told (wld s) (wld s')) n k.

(** All who own the mutex. *)
Definition owners_of w gs pd n k : nat := owning gs + clear pd + woken w + n + k.

Definition of_mutex (p0 : addr) (g : lock_guard) : Prop := lg_mtx g = None ∨ lg_mtx g = Some p0.

Record guard_ok p0 s gs pd n k : Prop := {
  go_mutex : ∃ L sp, mutex_implements L s sp ∧ owners_of (wld s) gs pd n k = owners (owned sp);
  go_apart : calls_apart (wld s);
  go_this : this_ (get_sm (obj s)) = p0;
  go_guards : Forall (of_mutex p0) gs
}.

(** The rule of every call: what it grants is added. *)
Lemma wp_guard_call p0 s gs pd n k c :
  guard_ok p0 s gs pd n k → guard_pre c s → c ≠ cmd_unlock →
  wp (mutex_exec c) s (λ r s', guard_ok p0 s' gs (pd ++ told (wld s) (wld s')) (n + taken s c r) k).
Proof.
  intros [(L & sp & Himp & Hacc) Hc Hth Hgs] Hpre Hne. eapply wp_mono; [by apply (wp_call_balance L s sp c)|].
  intros r s' (L' & sp' & Himp' & Hc' & Hsm & E). split; [exists L', sp'; split; [done|]|done|by rewrite Hsm|done].
  unfold owners_of in *. rewrite clear_app. assert (releases c = 0) by (by destruct c). lia.
Qed.

(** Grants that change hands. *)
Lemma guard_ok_hand p0 s gs pd n k gs' pd' n' k' :
  guard_ok p0 s gs pd n k → owning gs' + clear pd' + n' + k' = owning gs + clear pd + n + k →
  Forall (of_mutex p0) gs' → guard_ok p0 s gs' pd' n' k'.
Proof.
  intros [(L & sp & Himp & Hacc) ? ? _] E ?. split; try done. exists L, sp. split; [done|]. unfold owners_of in *. lia.
Qed.

(** An [error_code] that no call refers to is declared, set or gone. *)
Lemma guard_ok_ecs p0 m w gs pd n k f ec :
  guard_ok p0 (Machine m w) gs pd n k → unused w ec → (∀ r, r ≠ ec → f (ecs w) !! r = ecs w !! r) →
  guard_ok p0 (Machine m (set_ecs f w)) gs pd n k.
Proof.
  intros [(L & sp & [[Hi Hq Hh] Hl] & Hacc) Hc ? ?] Hu Hf. destruct (apart_ecs w f ec Hc Hu Hf) as [H1 H2].
  split; [|done..]. exists L, sp. split; [|unfold owners_of in *; cbn [wld] in *; by rewrite H2]. split; [|done]. split; [|done..].
  destruct Hi as [[? ? ? Hp ?] ? ?]. split; [split; try done|done..].
  intros p o Ho Hls. pose proof (Hp p o Ho Hls) as Hpd. destruct o; [done..|]. destruct Hpd as [-> Hs].
  split; [done|]. simpl. rewrite Hf; [done|]. intros ->. by eapply Hu.
Qed.

Lemma wp_guard_lock_call p0 s gs pd n k ec :
  guard_ok p0 s gs pd n k → unused (wld s) ec → is_Some (ecs (wld s) !! ec) →
  wp (Mutex.lock ec) s (λ r s', ∃ a, r = Ok a ∧ guard_ok p0 s' gs (pd ++ told (wld s) (wld s')) (n + locks s) k ∧
    match a with
    | Returned => ops (wld s') = ops (wld s) ∧
        ecs (wld s') !! ec = if locked_ (obj s) then Some in_progress else ecs (wld s) !! ec
    | Blocked _ => locked_ (obj s) = true
    end).
Proof.
  intros Hok Hu He. destruct (go_mutex _ _ _ _ _ _ Hok) as (L & sp & Himp & _).
  pose proof (wp_guard_call _ _ _ _ _ _ (cmd_lock ec) Hok (conj He Hu) ltac:(done)) as H1.
  pose proof (wp_unmap _ _ _ _ (wp_both _ _ _ _ H1 (wp_lock_answers L s sp ec Himp He))) as H2.
  eapply wp_mono; [exact H2|]. intros [a|e] s' [Ha Hans]; [|done]. exists a. split; [done|]. split; [exact Ha|]. by destruct a.
Qed.

(** [if (ec)]: a guard that owns the mutex takes over the grant of its maker. *)
Lemma wp_lock_finish p0 s gs pd n k ec e :
  guard_ok p0 s gs pd (n + count (bool_decide (e = no_error))) k → ecs (wld s) !! ec = Some e →
  wp (lock_finish ec) s (λ r s', ∃ g, r = Ok g ∧ s' = s ∧ guard_ok p0 s (g :: gs) pd n k).
Proof.
  intros Hok He. apply wp_bind, wp_get_world, wp_bind. eapply wp_of_option; [exact He|]. unfold ec_failed.
  pose proof (go_guards _ _ _ _ _ _ Hok) as Hgs. pose proof (go_this _ _ _ _ _ _ Hok) as Hth.
  destruct (decide (e = no_error)) as [->|Hne].
  - rewrite bool_decide_eq_false_2 by auto. apply wp_bind, wp_get_obj, wp_ret. eexists. split; [done|]. split; [done|].
    eapply guard_ok_hand; [exact Hok| |constructor; [right; simpl; f_equal; exact Hth|done]].
    rewrite owning_some. simpl. lia.
  - rewrite bool_decide_eq_true_2 by done. apply wp_ret. eexists. split; [done|]. split; [done|].
    rewrite bool_decide_eq_false_2 in Hok by done. eapply guard_ok_hand; [exact Hok| |by constructor; [left|]].
    unfold lock_guard_ctor. rewrite owning_none. simpl. lia.
Qed.

Lemma wp_guard_lock_ec p0 s gs pd n k ec :
  guard_ok p0 s gs pd n k → unused (wld s) ec → is_Some (ecs (wld s) !! ec) →
  wp (guard_lock_ec ec) s (λ r s', ∃ a, r = Ok a ∧
    guard_ok p0 s' (match a with Got g => g :: gs | Waits _ => gs end) (pd ++ told (wld s) (wld s')) n (k + lost s ec)).
Proof.
  intros Hok Hu He. apply wp_bind. eapply wp_mono; [by apply (wp_guard_lock_call p0 s gs pd n k ec)|].
  intros r s' ([|p] & -> & Hok' & Ha); cbn beta iota.
  - destruct Ha as [_ Ha]. apply wp_bind. destruct He as [e He]. rewrite He in Ha.
    eapply wp_mono; [eapply (wp_lock_finish p0 s' gs (pd ++ told (wld s) (wld s')) n (k + lost s ec) ec (if locked_ (obj s) then in_progress else e));
      [|by rewrite Ha; destruct (locked_ (obj s))]|].
    + eapply guard_ok_hand; [exact Hok'| |apply Hok']. unfold lost, locks. rewrite He.
      rewrite (bool_decide_ext (Some e = Some no_error) (e = no_error)) by (split; [by intros [= ->]|by intros ->]).
      destruct (locked_ (obj s)).
      * rewrite (bool_decide_eq_false_2 (in_progress = no_error)) by done. destruct (bool_decide _); simpl; lia.
      * destruct (bool_decide _); simpl; lia.
    + intros r s2 (g & -> & -> & H). apply wp_ret. by exists (Got g).
  - apply wp_ret. exists (Waits p). split; [done|]. eapply guard_ok_hand; [exact Hok'| |apply Hok'].
    unfold lost, locks. rewrite Ha. destruct (bool_decide _); simpl; lia.
Qed.

(** A guard that was made, if one was. *)
Definition got {G} (r : res (option G)) (gs : list G) : list G := match r with Ok (Some g) => g :: gs | _ => gs end.
Definition got_lock {G} (r : res (guard_result G)) (gs : list G) : list G := match r with Ok (Got g) => g :: gs | _ => gs end.

(** The local [error_code] of a throwing overload goes, and the guard is made if
    it was clear. *)
Lemma wp_throw_or_adopt p0 s gs pd n k ec e :
  guard_ok p0 s gs pd (n + count (bool_decide (e = no_error))) k → ecs (wld s) !! ec = Some e → unused (wld s) ec →
  wp (throw_if_failed ec;; lock_guard_adopt) s (λ r s', trace (wld s') = trace (wld s) ∧ match r with
    | Ok g => guard_ok p0 s' (g :: gs) pd n k
    | Exn _ => guard_ok p0 s' gs pd n k
    end).
Proof.
  intros Hok He Hu. destruct s as [m w]. cbn [wld] in *.
  assert (∀ r, r ≠ ec → delete ec (ecs w) !! r = ecs w !! r) as Hd by (intros r Hne; by rewrite lookup_delete_ne).
  pose proof (guard_ok_ecs p0 m w gs pd _ k (delete ec) ec Hok Hu Hd) as Hok'. pose proof (go_this _ _ _ _ _ _ Hok) as Hth.
  apply wp_bind, wp_bind, wp_get_world, wp_bind. eapply wp_of_option; [exact He|]. apply wp_bind, wp_modify_world.
  unfold ec_failed. destruct (decide (e = no_error)) as [->|Hne].
  - rewrite bool_decide_eq_false_2 by auto. apply wp_ret, wp_bind, wp_get_obj, wp_ret. split; [done|].
    eapply guard_ok_hand; [exact Hok'| |constructor; [right; simpl; f_equal; exact Hth|apply Hok]].
    rewrite owning_some. simpl. lia.
  - rewrite bool_decide_eq_true_2 by done. apply wp_throw. split; [done|].
    rewrite bool_decide_eq_false_2 in Hok' by done. eapply guard_ok_hand; [exact Hok'| |apply Hok]. simpl. lia.
Qed.

Lemma told_trace w w1 w2 : trace w1 = trace w2 → told w w1 = told w w2.
Proof. unfold told, events_since. by intros ->. Qed.

Lemma wp_guard_lock p0 s gs pd n k :
  guard_ok p0 s gs pd n k →
  wp guard_lock s (λ r s', guard_ok p0 s' (got_lock r gs) (pd ++ told (wld s) (wld s')) n k).
Proof.
  intros Hok. destruct s as [m w]. apply wp_bind, wp_bind, wp_bind, wp_get_world, wp_bind, wp_modify_world, wp_ret. cbn [obj wld].
  set (ec := fresh (dom (ecs w))). assert (ecs w !! ec = None) as Hfr by apply not_elem_of_dom, is_fresh.
  assert (unused w ec) as Hu.
  { intros p d Hp. destruct (ca_alive _ (go_apart _ _ _ _ _ _ Hok) _ _ _ Hp) as [? E]. simpl in E; congruence. }
  set (w1 := set_ecs <[ec := no_error]> w).
  assert (guard_ok p0 (Machine m w1) gs pd n k) as Hok1.
  { apply (guard_ok_ecs p0 m w gs pd n k _ ec Hok Hu). intros r Hne. by rewrite lookup_insert_ne. }
  assert (ecs w1 !! ec = Some no_error) as He1 by apply lookup_insert_eq.
  apply wp_bind. eapply wp_mono; [apply (wp_guard_lock_call p0 (Machine m w1) gs pd n k ec Hok1 Hu); by eexists|].
  intros r s' ([|p] & -> & Hok' & Ha); cbn beta iota; cbn [obj wld] in *.
  - destruct Ha as [Eo Ha]. rewrite He1 in Ha.
    assert (wp (throw_if_failed ec;; lock_guard_adopt) s' (λ r s'', trace (wld s'') = trace (wld s') ∧ match r with
      | Ok g => guard_ok p0 s'' (g :: gs) (pd ++ told w (wld s')) n k
      | Exn _ => guard_ok p0 s'' gs (pd ++ told w (wld s')) n k end)) as H.
    { eapply (wp_throw_or_adopt p0 s' gs _ n k ec (if locked_ m then in_progress else no_error)); [|by rewrite Ha; destruct (locked_ m)|].
      - eapply guard_ok_hand; [exact Hok'| |apply Hok']. unfold locks. cbn [obj]. change (told w1 (wld s')) with (told w (wld s')).
        by destruct (locked_ m).
      - intros p d. rewrite Eo. apply Hu. }
    revert H. unfold wp, mbind, M_bind. destruct (throw_if_failed ec s') as [[[[]|e] s2]|]; [|simpl|done].
    + simpl. intros [Et H]. by rewrite (told_trace w _ _ Et).
    + intros [Et H]. by rewrite (told_trace _ _ _ Et).
  - apply wp_ret, wp_ret. simpl. eapply guard_ok_hand; [exact Hok'| |apply Hok']. unfold locks. cbn [obj]. rewrite Ha.
    change (told w1 (wld s')) with (told w (wld s')). simpl. lia.
Qed.

(** A thread looks at its operation; when it is done the grant is its own. *)
Lemma wp_guard_sync_wait p0 s gs pd n k p ec d :
  guard_ok p0 s gs pd n k → ops (wld s) !! p = Some (sync_op ec d) →
  wp (sync_wait p) s (λ r s', r = Ok d ∧ if d then ∃ e, ecs (wld s') !! ec = Some e ∧ unused (wld s') ec ∧
      guard_ok p0 s' gs (pd ++ told (wld s) (wld s')) (n + count (bool_decide (e = no_error))) k
    else guard_ok p0 s' gs (pd ++ told (wld s) (wld s')) n k).
Proof.
  intros Hok Hp. destruct (go_mutex _ _ _ _ _ _ Hok) as (L & sp & Himp & _). pose proof (go_apart _ _ _ _ _ _ Hok) as Hc.
  assert (guard_pre (cmd_resume p) s) as Hpre by (split; [by eexists _, _|done]).
  pose proof (wp_guard_call _ _ _ _ _ _ _ Hok Hpre ltac:(done)) as H1.
  pose proof (wp_unmap _ _ _ _ (wp_both _ _ _ _ H1 (wp_resume_answers L s sp p ec d Himp Hp))) as H2.
  eapply wp_mono; [exact H2|]. intros [b|e] s' (Ha & Hr & Hecs & Hops); [|done]. injection Hr as ->. split; [done|].
  destruct d; simpl in Ha; [|by rewrite Nat.add_0_r in Ha]. destruct (ca_alive _ Hc _ _ _ Hp) as [e He]. exists e.
  rewrite Hecs. split_and!; [done| |].
  - intros p' d'. rewrite Hops. intros [Hne Hp']%lookup_delete_Some. by destruct (Hne (ca_own _ Hc _ _ _ _ _ Hp Hp')).
  - eapply guard_ok_hand; [exact Ha| |apply Ha]. unfold woken_at. rewrite Hp, He.
    by rewrite (bool_decide_ext (Some e = Some no_error) (e = no_error)) by (split; [by intros [= ->]|by intros ->]).
Qed.

Lemma wp_guard_resume p0 s gs pd n k p ec d :
  guard_ok p0 s gs pd n k → ops (wld s) !! p = Some (sync_op ec d) →
  wp (guard_lock_ec_resume ec p) s (λ r s', guard_ok p0 s' (got r gs) (pd ++ told (wld s) (wld s')) n k).
Proof.
  intros Hok Hp. apply wp_bind. eapply wp_mono; [by apply (wp_guard_sync_wait p0 s gs pd n k p ec d)|].
  intros r s' [-> H]. destruct d; [|by apply wp_ret]. destruct H as (e & He & _ & H). apply wp_bind.
  eapply wp_mono; [by eapply (wp_lock_finish p0 s' gs (pd ++ told (wld s) (wld s')) n k ec e)|].
  intros r s2 (g & -> & -> & H2). by apply wp_ret.
Qed.

Lemma wp_guard_resume_throwing p0 s gs pd n k p ec d :
  guard_ok p0 s gs pd n k → ops (wld s) !! p = Some (sync_op ec d) →
  wp (guard_lock_resume ec p) s (λ r s', guard_ok p0 s' (got r gs) (pd ++ told (wld s) (wld s')) n k).
Proof.
  intros Hok Hp. apply wp_bind. eapply wp_mono; [by apply (wp_guard_sync_wait p0 s gs pd n k p ec d)|].
  intros r s' [-> H]. destruct d; [|by apply wp_ret]. destruct H as (e & He & Hu & H).
  pose proof (wp_throw_or_adopt p0 s' gs _ n k ec e H He Hu) as Hwp. revert Hwp.
  unfold wp, mbind, M_bind. destruct (throw_if_failed ec s') as [[[[]|e'] s2]|]; [|simpl|done].
  - simpl. intros [Et H2]. by rewrite (told_trace (wld s) _ _ Et).
  - intros [Et H2]. by rewrite (told_trace (wld s) _ _ Et).
Qed.

(** The destructor of a guard has an outcome, and only an owner unlocks. *)
Lemma wp_guard_dtor p0 s g gs pd n k :
  guard_ok p0 s (g :: gs) pd n k →
  wp (lock_guard_dtor g) s (λ r s', r = Ok tt ∧ guard_ok p0 s' gs (pd ++ told (wld s) (wld s')) n k).
Proof.
  intros [(L & sp & Himp & Hacc) Hc Hth Hgs]. apply Forall_cons in Hgs as [Hg Hgs]. unfold owners_of in Hacc.
  destruct g as [[p|]]; unfold lock_guard_dtor; cbn [lg_mtx].
  - destruct Hg as [|[= ->]]; [done|]. rewrite owning_some in Hacc.
    assert (owned sp = true) as How by (destruct (owned sp); [done|simpl in Hacc; lia]).
    apply wp_bind, wp_get_obj. rewrite bool_decide_eq_true_2 by (by rewrite <- Hth).
    pose proof (wp_call_balance L s sp cmd_unlock Himp Hc (conj I I) (λ _, How)) as H.
    assert (wp (mutex_exec cmd_unlock) s (λ r _, r = Ok r_unit)) as Hr.
    { eapply wp_mono; [by apply (mutex_exec_refines cmd_unlock L s sp)|]. intros r s' (L' & sp' & w' & Hst & _).
      remember cmd_unlock as c eqn:Ec. by destruct Hst. }
    pose proof (wp_unmap (lk_unlock (St := mutex_impl)) (λ _, r_unit) s _ (wp_both _ _ _ _ H Hr)) as H2.
    eapply wp_mono; [exact H2|]. intros [[]|e] s' [(L' & sp' & Himp' & Hc' & Hsm & E) Hru]; [|done]. split; [done|].
    split; [exists L', sp'; split; [done|]|done|by rewrite Hsm|done].
    unfold owners_of. rewrite clear_app. rewrite How in *. simpl in *. lia.
  - rewrite owning_none in Hacc. apply wp_ret. split; [done|]. rewrite told_same, app_nil_r by done.
    split; [|done..]. by exists L, sp.
Qed.

(** ** The account of a program *)

Lemma guard_ok_start L m w :
  mutex_rep L m w [] → locked_ m = false → no_calls w → guard_ok (this_ (get_sm m)) (Machine m w) [] [] 0 0.
Proof.
  intros Hr Hl Hn. split; [|by split; intros * H%Hn|done|done]. exists L, (MutexSpec false []). split; [by split|].
  unfold owners_of. cbn [wld]. assert (woken w = 0) as ->; [|done]. unfold woken. apply size_empty_iff. intros p.
  rewrite elem_of_woken. unfold woken_at. destruct (ops w !! p) as [[| |r d]|] eqn:E; [set_solver..| |set_solver]. by apply Hn in E.
Qed.

Lemma of_mutex_perm p0 gs gs' : gs ≡ₚ gs' → Forall (of_mutex p0) gs → Forall (of_mutex p0) gs'.
Proof. by intros ->. Qed.

Lemma guard_run_ok p0 s0 s gs pd n k :
  guard_ok p0 s0 [] [] 0 0 → guard_run s0 s gs pd n k → guard_ok p0 s gs pd n k.
Proof.
  intros H0. induction 1 as [|s gs pd n k c r s' _ IH Hc Hpre Hex|s gs pd n k ec r s' _ IH Hu He Hex
    |s gs pd n k ec r s' _ IH Hu He Hex|s gs pd n k r s' _ IH Hex|s gs pd n k ec p d r s' _ IH Hp Hex
    |s gs pd n k ec p d r s' _ IH Hp Hex|s gs pd pd' n k h ec g s' _ IH E Hex|s gs pd pd' n k h ec _ IH E
    |s gs pd n k g s' _ IH Hex|s gs pd n k _ IH|s gs pd n k g gs' _ IH E|s gs pd n k g lhs gs' _ IH E
    |s gs pd n k g gs' s' _ IH E Hex].
  - done.
  - assert (guard_pre c s) as Hgp by (split; [done|by destruct c]).
    pose proof (wp_guard_call p0 s gs pd n k c IH Hgp ltac:(by intros ->)) as H. unfold wp in H. by rewrite Hex in H.
  - pose proof (wp_guard_call p0 s gs pd n k (cmd_lock ec) IH (conj He Hu) ltac:(done)) as H. unfold wp in H.
    rewrite Hex in H. eapply guard_ok_hand; [exact H| |apply H].
    replace (taken s (cmd_lock ec) r) with (locks s) by done.
    assert (lost s ec ≤ locks s) by (unfold lost; destruct (bool_decide _); lia). lia.
  - pose proof (wp_guard_lock_ec p0 s gs pd n k ec IH Hu He) as H. unfold wp in H. rewrite Hex in H.
    by destruct H as (a & [= ->] & H).
  - pose proof (wp_guard_lock p0 s gs pd n k IH) as H. unfold wp in H. by rewrite Hex in H.
  - pose proof (wp_guard_resume p0 s gs pd n k p ec d IH Hp) as H. unfold wp in H. by rewrite Hex in H.
  - pose proof (wp_guard_resume_throwing p0 s gs pd n k p ec d IH Hp) as H. unfold wp in H. by rewrite Hex in H.
  - pose proof (go_this _ _ _ _ _ _ IH) as Hth. unfold async_lock_op_complete, ec_failed in Hex.
    destruct (decide (ec = no_error)) as [->|Hne].
    + rewrite bool_decide_eq_false_2 in Hex by auto. injection Hex as <- <-.
      eapply guard_ok_hand; [exact IH| |constructor; [right; simpl; f_equal; exact Hth|apply IH]].
      rewrite owning_some, E, clear_cons, bool_decide_eq_true_2 by done. simpl. lia.
    + rewrite bool_decide_eq_true_2 in Hex by done. injection Hex as <- <-.
      eapply guard_ok_hand; [exact IH| |constructor; [by left|apply IH]].
      unfold lock_guard_ctor. rewrite owning_none, E, clear_cons, bool_decide_eq_false_2 by done. simpl. lia.
  - eapply guard_ok_hand; [exact IH| |apply IH]. rewrite E, clear_cons. lia.
  - pose proof (go_this _ _ _ _ _ _ IH) as Hth. injection Hex as <- <-.
    eapply guard_ok_hand; [exact IH| |constructor; [right; simpl; f_equal; exact Hth|apply IH]]. rewrite owning_some. lia.
  - eapply guard_ok_hand; [exact IH| |constructor; [by left|apply IH]]. by rewrite owning_none.
  - pose proof (of_mutex_perm _ _ _ E (go_guards _ _ _ _ _ _ IH)) as [Hg Hgs]%Forall_cons.
    eapply guard_ok_hand; [exact IH| |constructor; [exact Hg|constructor; [by left|exact Hgs]]].
    rewrite E, owning_cons, owning_none, (owning_cons g). by destruct g.
  - pose proof (of_mutex_perm _ _ _ E (go_guards _ _ _ _ _ _ IH)) as [Hg [Hlhs Hgs]%Forall_cons]%Forall_cons.
    eapply guard_ok_hand; [exact IH| |constructor; [exact Hlhs|constructor; [exact Hg|exact Hgs]]].
    rewrite E, (owning_cons g), (owning_cons lhs), owning_cons, (owning_cons (LockGuard (lg_mtx g))).
    destruct g, lhs; simpl; lia.
  - assert (guard_ok p0 s (g :: gs') pd n k) as IH'.
    { eapply guard_ok_hand; [exact IH|by rewrite E|]. eapply of_mutex_perm; [exact E|apply IH]. }
    pose proof (wp_guard_dtor p0 s g gs' pd n k IH') as H. unfold wp in H. rewrite Hex in H. apply H.
Qed.
End programs.
