(* ===== verification/LockGuardSpec.v ===== *)
(** * Lock guards: properties

    The theorems about one guard hold for every mutex that is [LockableOk];
    [lock_guard_raii] is about the programs of [GuardRuns]. *)
From S2P Require Import Prelude Machine Bilist Ops Service Impl Mutex MutexSpec SharedMutex SharedMutexSpec LockGuard GuardRuns.

(** ** Properties *)

Section properties.
Context {ASIO : Asio}.
Implicit Types (L : gmap addr (list addr)) (w : world).

(** C19: guards own exclusively. Take a mutex that is free and any program in which
    only destructors of guards unlock it: guards are made by both overloads of
    [lock], before and after they block, by the composed [async_lock] when asio
    calls its handler, and by adoption; they are moved, swapped and destroyed in
    any order; the mutex is tried and locked by hand, cancelled and shut down in
    between. Calls that are going on have an [error_code] each, which may hold an
    old error. Count who owns the mutex: guards, handlers that asio has still to
    call without an error, threads that were woken with a clear [error_code] and
    have not looked, callers who hold it by hand, and calls that locked it and
    were taken for failures because of their old error. There is at most one
    owner, and there is one exactly while the mutex is locked: moves and swaps
    neither lose nor duplicate the ownership, and no destructor unlocks for
    somebody else. Every destructor has an outcome, and an empty guard's does
    nothing. *)
Theorem lock_guard_raii L m w s gs pd n k :
  mutex_rep L m w [] → locked_ m = false → no_calls w → guard_run (Machine m w) s gs pd n k →
  owners_of (wld s) gs pd n k ≤ 1 ∧ (owners_of (wld s) gs pd n k = 1 ↔ locked_ (obj s) = true) ∧
  ∀ g, g ∈ gs → wp (lock_guard_dtor g) s (λ r s', r = Ok tt ∧ (lg_mtx g = None → s' = s)).
Proof.
  intros Hr Hl Hn Hrun. pose proof (guard_run_ok _ _ _ _ _ _ _ (guard_ok_start L m w Hr Hl Hn) Hrun) as Hok.
  destruct (go_mutex _ _ _ _ _ _ Hok) as (L' & sp & [_ Hlk] & ->). rewrite Hlk. split; [|split].
  - destruct (owned sp); simpl; lia.
  - by destruct (owned sp).
  - intros g (gs' & E)%elem_of_Permutation. assert (guard_ok (this_ (get_sm m)) s (g :: gs') pd n k) as Hok'.
    { eapply guard_ok_hand; [exact Hok|by rewrite E|]. eapply of_mutex_perm; [exact E|apply Hok]. }
    destruct g as [[p|]]; [|by apply wp_ret]. eapply wp_mono; [by apply (wp_guard_dtor _ _ _ _ _ _ _ Hok')|]. by intros r s' [-> _].
Qed.

(** A guard is made by [lock(mtx)] and moved into another one; the scope of
    both ends. *)
Definition guard_scope {St} `{!Lockable St} : M St unit :=
  r ← guard_lock;
  match r with
  | Got g => let gs := lock_guard_move_ctor g in lock_guard_dtor gs.1;; lock_guard_dtor gs.2
  | Waits _ => ub
  end.

(** C30: a scope with a guard leaves a free mutex free. For every mutex a guard
    can hold, [lock(mtx)] neither blocks nor throws, and once the guard and what
    it was moved into are gone the mutex is free again, and asio has not been
    called. *)
Theorem guard_scope_restores {St} `{!Lockable St, !LockableOk St} L (m : St) w :
  lk_free L m w →
  wp guard_scope (Machine m w) (λ r s', r = Ok tt ∧ trace (wld s') = trace w ∧ lk_free L (obj s') (wld s')).
Proof.
  intros Hf. apply wp_bind, wp_bind. eapply wp_mono; [by apply lk_lock_throwing_ok|].
  intros r s' (m1 & N1 & -> & -> & Hthis & Hh). cbn beta iota.
  apply wp_bind, wp_bind, wp_get_obj, wp_ret, wp_ret. cbn [lock_guard_move_ctor lg_mtx fst snd obj].
  apply wp_bind, wp_bind, wp_get_obj. cbn [obj]. rewrite bool_decide_eq_true_2 by done.
  eapply wp_mono; [by apply lk_unlock_ok|]. intros r s' (m2 & -> & -> & Hf2). by apply wp_ret.
Qed.

(** C32: a stale [error_code] loses the lock. [lock(mtx, ec)] does not clear
    [ec] when it locks: called on a free mutex with an [ec] that still holds an
    old error, it locks the mutex and returns an empty guard, so that nobody
    will ever unlock it. *)
Theorem guard_lock_stale_ec {St} `{!Lockable St, !LockableOk St} L (m : St) w ec e :
  lk_free L m w → ecs w !! ec = Some e → e ≠ no_error →
  wp (guard_lock_ec ec) (Machine m w) (λ r s',
    r = Ok (Got lock_guard_ctor) ∧ ecs (wld s') !! ec = Some e ∧ lk_held L (obj s') (wld s')).
Proof.
  intros Hf He Hne. apply wp_bind. eapply wp_mono; [apply lk_lock_ok; [done|by eexists]|].
  intros r s' (m1 & N1 & -> & -> & Hthis & Hh). cbn beta iota.
  apply wp_bind, wp_bind, wp_get_world, wp_bind. eapply wp_of_option; [exact He|].
  unfold ec_failed. rewrite bool_decide_eq_true_2 by done. apply wp_ret, wp_ret. done.
Qed.

(** A composed lock starts, its completion with [e] and with no error, and the
    ends of both guards. *)
Definition async_guard_session {St} `{!Lockable St} (exec : executor) (h : handler) (e : error_code) :
    M St (option addr * option addr) :=
  async_lock_op_start exec h;;
  bad ← async_lock_op_complete e; lock_guard_dtor bad;;
  g ← async_lock_op_complete no_error; lock_guard_dtor g;;
  mret (lg_mtx bad, lg_mtx g).

(** An asynchronous lock makes one guard. On a free mutex the composed
    operation hands itself to asio with no error, the guard it then completes
    with owns the mutex, and its destructor makes the mutex free again; with an
    error it completes with an empty guard and touches nothing. *)
Theorem async_guard_round_trip {St} `{!Lockable St, !LockableOk St} L (m : St) w exec h e :
  lk_free L m w → e ≠ no_error →
  wp (async_guard_session exec h e) (Machine m w) (λ r s', r = Ok (None, Some (this_ (get_sm m))) ∧ lk_free L (obj s') (wld s') ∧
      events_since w (wld s') = [ev_dispatch (get_associated_immediate_executor h exec) h no_error]).
Proof.
  intros Hf Hne. apply wp_bind. eapply wp_mono; [by apply lk_async_lock_ok|].
  intros r s' (m1 & -> & -> & Hthis & Hh). cbn beta iota.
  apply wp_bind. unfold async_lock_op_complete at 1, ec_failed. rewrite bool_decide_eq_true_2 by done.
  apply wp_ret, wp_bind, wp_ret, wp_bind, wp_bind, wp_get_obj, wp_ret.
  apply wp_bind, wp_bind, wp_get_obj. cbn [obj lg_mtx]. rewrite bool_decide_eq_true_2 by done.
  eapply wp_mono; [by apply lk_unlock_ok|]. intros r s' (m2 & -> & -> & Hf2). apply wp_ret.
  cbn [lg_mtx lock_guard_ctor]. rewrite Hthis. split_and!; [done..|by apply events_since_app].
Qed.

(** [{ auto g = lock_shared(mtx); }], then a look at the mutex. *)
Definition shared_guard_scope : M shared_mutex_impl (bool * bool) :=
  r ← guard_lock_shared;
  match r with
  | Got g => shared_lock_guard_dtor g;; a ← SharedMutex.try_lock; b ← try_lock_shared; mret (a, b)
  | Waits _ => ub
  end.

(** C33: a [shared_lock_guard] made by [lock_shared(mtx)] never gives its lock
    back (its constructor needs a friend declaration that the code lacks; this
    is what happens with it). The function locks the free mutex exclusively, the
    guard's destructor calls [unlock_shared], which finds no reader, and the
    mutex refuses every later [try_lock] and [try_lock_shared]. *)
Theorem shared_guard_leaves_locked L m w :
  shared_rep L m w [] [] → sh_locked m = false → locked_shared_ m = 0%Z →
  wp shared_guard_scope (Machine m w) (λ r s', r = Ok (false, false) ∧ obj s' = set_sh_locked true m ∧
    shared_rep L (obj s') (wld s') [] []).
Proof.
  intros Hr Hl Hz. apply wp_bind, wp_bind.
  apply (wp_throwing SharedMutex.lock L m (set_sh_locked true m) w []); [apply Hr| |].
  - intros ec w1 -> He Hi. eapply wp_mono; [apply (shared_lock_free L); [|done|done|by eexists]|].
    + destruct Hr. by split.
    + intros r s' (N' & -> & -> & Hr'). exists N'. split_and!; [done..|apply Hr'].
  - intros N' Hok. assert (shared_rep L (set_sh_locked true m) (with_nodes N' w) [] []) as Hr'
      by (apply shared_rep_nodes_world; [by apply shared_rep_lock|done]).
    apply wp_bind, wp_bind, wp_get_obj, wp_ret, wp_ret. cbn beta iota.
    apply wp_bind, wp_bind, wp_get_obj. cbn [obj]. rewrite bool_decide_eq_true_2 by done.
    eapply wp_unlock_shared_idle; [exact Hr'|done|]. cbn beta iota.
    apply wp_bind. eapply wp_shared_try_lock; [exact Hr'|]. simpl.
    apply wp_bind. eapply wp_try_lock_shared; [exact Hr'|by simpl; rewrite Hz|]. simpl. by apply wp_ret.
Qed.
End properties.

(** ** The properties at work *)

Section witnesses.

(** A guard is made by [lock(mtx, ec)] and handler 4 waits for the next one; the
    first guard goes, and asio calls the handler. *)
Definition demo_guarded : machine mutex_impl :=
  after (guard_lock_ec (ASIO := test_asio) 1 (demo_mutex true)) (demo_mutex true).
Definition demo_guarded2 : machine mutex_impl :=
  after (mutex_exec (ASIO := test_asio) (cmd_async_lock (ASIO := test_asio) 0 4) demo_guarded) demo_guarded.
Definition demo_guarded3 : machine mutex_impl :=
  after (lock_guard_dtor (ASIO := test_asio) (LockGuard (Some 2%positive)) demo_guarded2) demo_guarded2.

Lemma guard_run_eq {ASIO : Asio} s0 s gs pd pd' n n' k k' :
  guard_run s0 s gs pd n k → (pd, n, k) = (pd', n', k') → guard_run s0 s gs pd' n' k'.
Proof. by intros H [= <- <- <-]. Qed.

Lemma demo_guard_run :
  guard_run (ASIO := test_asio) (Machine (obj (demo_mutex true)) (wld (demo_mutex true))) demo_guarded3
    [LockGuard (Some 2%positive)] [] 0 0.
Proof.
  assert (guard_run (ASIO := test_asio) (Machine (obj (demo_mutex true)) (wld (demo_mutex true))) demo_guarded
    [LockGuard (Some 2%positive)] [] 0 0) as H1.
  { eapply guard_run_eq; [apply (gr_lock _ _ [] [] 0 0 1 (Got (LockGuard (Some 2%positive))) demo_guarded (gr_start _));
      [by intros p d|by eexists|vm_compute; reflexivity]|vm_compute; reflexivity]. }
  assert (guard_run (ASIO := test_asio) (Machine (obj (demo_mutex true)) (wld (demo_mutex true))) demo_guarded2
    [LockGuard (Some 2%positive)] [] 0 0) as H2.
  { eapply guard_run_eq; [apply (gr_call _ _ _ _ _ _ (cmd_async_lock (ASIO := test_asio) 0 4) (Ok r_unit) demo_guarded2 H1);
      [done|done|vm_compute; reflexivity]|vm_compute; reflexivity]. }
  assert (guard_run (ASIO := test_asio) (Machine (obj (demo_mutex true)) (wld (demo_mutex true))) demo_guarded3
    [] [(4, no_error)] 0 0) as H3.
  { eapply guard_run_eq; [apply (gr_destroy _ _ _ _ _ _ (LockGuard (Some 2%positive)) [] demo_guarded3 H2);
      [done|vm_compute; reflexivity]|vm_compute; reflexivity]. }
  eapply (gr_complete (ASIO := test_asio) _ _ _ _ [] 0 0 4 no_error _ _ H3); [done|vm_compute; reflexivity].
Qed.

Lemma lock_guard_raii_witness :
  owners_of (ASIO := test_asio) (wld demo_guarded3) [LockGuard (Some 2%positive)] [] 0 0 ≤ 1 ∧
  (owners_of (ASIO := test_asio) (wld demo_guarded3) [LockGuard (Some 2%positive)] [] 0 0 = 1 ↔ locked_ (obj demo_guarded3) = true) ∧
  ∀ g, g ∈ [LockGuard (Some 2%positive)] →
    wp (lock_guard_dtor (ASIO := test_asio) g) demo_guarded3 (λ r s', r = Ok tt ∧ (lg_mtx g = None → s' = demo_guarded3)).
Proof.
  apply (lock_guard_raii demo_mutex_lists (obj (demo_mutex true)) (wld (demo_mutex true))).
  - apply demo_mutex_rep.
  - vm_compute. reflexivity.
  - by intros p ec d.
  - exact demo_guard_run.
Defined.

Lemma guard_scope_restores_witness :
  wp (guard_scope (St := shared_mutex_impl)) (Machine (obj (demo_shared true)) (wld (demo_shared true))) (λ r s', r = Ok tt ∧
    trace (wld s') = trace (wld (demo_shared true)) ∧
    lk_free (LockableOk := @shared_mutex_lockable_ok test_asio) demo_shared_lists (obj s') (wld s')).
Proof.
  apply (guard_scope_restores (ASIO := test_asio) demo_shared_lists (obj (demo_shared true)) (wld (demo_shared true))).
  split; [apply demo_shared_rep|split; vm_compute; reflexivity].
Defined.

Lemma guard_lock_stale_ec_witness :
  let w := set_ecs <[1%positive := in_progress]> (wld (demo_mutex true)) in
  wp (guard_lock_ec (St := mutex_impl) 1) (Machine (obj (demo_mutex true)) w) (λ r s',
    r = Ok (Got lock_guard_ctor) ∧ ecs (wld s') !! 1%positive = Some in_progress ∧
    lk_held (LockableOk := @mutex_lockable_ok test_asio) demo_mutex_lists (obj s') (wld s')).
Proof.
  apply (guard_lock_stale_ec (ASIO := test_asio) demo_mutex_lists (obj (demo_mutex true))
    (set_ecs <[1%positive := in_progress]> (wld (demo_mutex true)))).
  - split; [apply mutex_rep_ecs, demo_mutex_rep|vm_compute; reflexivity].
  - vm_compute. reflexivity.
  - discriminate.
Defined.

Lemma async_guard_round_trip_witness :
  wp (async_guard_session (St := mutex_impl) 0 4 operation_aborted)
    (Machine (obj (demo_mutex true)) (wld (demo_mutex true))) (λ r s',
      r = Ok (None, Some (this_ (get_sm (Member := @lk_member test_asio _ _) (obj (demo_mutex true))))) ∧
      lk_free (LockableOk := @mutex_lockable_ok test_asio) demo_mutex_lists (obj s') (wld s') ∧
      events_since (wld (demo_mutex true)) (wld s') = [@ev_dispatch test_asio (@get_associated_immediate_executor test_asio 4 0) 4 no_error]).
Proof.
  apply (async_guard_round_trip (ASIO := test_asio) demo_mutex_lists (obj (demo_mutex true)) (wld (demo_mutex true)) 0 4
    operation_aborted).
  - split; [apply demo_mutex_rep|vm_compute; reflexivity].
  - discriminate.
Defined.

Lemma shared_guard_leaves_locked_witness :
  wp shared_guard_scope (Machine (obj (demo_shared true)) (wld (demo_shared true))) (λ r s',
    r = Ok (false, false) ∧ obj s' = set_sh_locked true (obj (demo_shared true)) ∧
    shared_rep demo_shared_lists (obj s') (wld s') [] []).
Proof.
  apply (shared_guard_leaves_locked demo_shared_lists).
  - apply demo_shared_rep.
  - vm_compute. reflexivity.
  - vm_compute. reflexivity.
Defined.
End witnesses.
