(* ===== verification/Guarded.v ===== *)
(** * Guarded operations

    [guarded(sm, op)] and [guarded(mtx, op)] ([guarded.hpp],
    [detail/guarded.hpp]): composed operations that take a permit of a
    semaphore, or lock a mutex, run the user's operation, and give it back. Each
    [operator()] of the two function objects is a function from the state of
    the semaphore (mutex) to what the composed operation does next: complete,
    start the user's operation, or wait. [async_compose] keeps the function
    object alive between the calls; that is asio's. *)
From S2P Require Import Prelude Machine Bilist Ops Service Impl.
From S2P Require Mutex MutexSpec Semaphore SemaphoreSpec.

Section code.
Context {ASIO : Asio}.

(** [prepend(self, semaphore_tag{})] as a handler, and what the user's
    operation completes with. *)
Context (semaphore_tagged : handler → handler) {op_result : Type}.

(** The two error types a completion signature may start with, and
    [make_error] for them. [guard_by_mutex_op] makes a [std::system_error] where
    [guard_by_semaphore_op] makes the library's [system_error]; only in a
    standalone build are the two one type. *)
Inductive err_type := Err_error_code | Err_exception_ptr.
Inductive err :=
  | err_code (ec : error_code)
  | err_exception (e : exn)
  | err_std_system_error (ec : error_code).
Definition make_error (t : err_type) (ec : error_code) : err :=
  match t with
  | Err_error_code => err_code ec
  | Err_exception_ptr => err_exception (system_error ec)
  end.
Definition mutex_make_error (t : err_type) (ec : error_code) : err :=
  match t with
  | Err_error_code => err_code ec
  | Err_exception_ptr => err_std_system_error ec
  end.

(** What the composed operation [self] does at the end of an [operator()]:
    [self.complete(err, Args{}...)], [self.complete(args...)], the start of the
    user's operation with [prepend(self, op_tag{})] as its handler, or nothing
    until its handler is called. *)
Inductive guard_action :=
  | ga_fail (self : handler) (e : err)
  | ga_complete (self : handler) (args : op_result)
  | ga_start (self : handler)
  | ga_wait (self : handler).

(** [operator()(Self &&)]: [cancelled] tells whether the cancellation state
    holds a request. *)
Definition guard_by_semaphore_init (t : err_type) (exec : executor) (cancelled : bool) (self : handler) :
    M Semaphore.semaphore_impl guard_action :=
  if cancelled then mret (ga_fail self (make_error t operation_aborted))
  else
    b ← Semaphore.try_acquire;
    if (b : bool) then mret (ga_start self)
    else Semaphore.async_acquire exec (semaphore_tagged self);; mret (ga_wait self).

(** [operator()(Self &&, semaphore_tag, error_code)]. *)
Definition guard_by_semaphore_acquired (t : err_type) (self : handler) (ec : error_code) :
    M Semaphore.semaphore_impl guard_action :=
  if ec_failed ec then mret (ga_fail self (make_error t ec)) else mret (ga_start self).

(** [operator()(Self &&, op_tag, Args_ &&...)]. *)
Definition guard_by_semaphore_done (self : handler) (args : op_result) : M Semaphore.semaphore_impl guard_action :=
  Semaphore.release;; mret (ga_complete self args).

Definition guard_by_mutex_init (t : err_type) (exec : executor) (cancelled : bool) (self : handler) :
    M Mutex.mutex_impl guard_action :=
  if cancelled then mret (ga_fail self (mutex_make_error t operation_aborted))
  else
    b ← Mutex.try_lock;
    if (b : bool) then mret (ga_start self)
    else Mutex.async_lock exec (semaphore_tagged self);; mret (ga_wait self).
Definition guard_by_mutex_acquired (t : err_type) (self : handler) (ec : error_code) :
    M Mutex.mutex_impl guard_action :=
  if ec_failed ec then mret (ga_fail self (mutex_make_error t ec)) else mret (ga_start self).
Definition guard_by_mutex_done (self : handler) (args : op_result) : M Mutex.mutex_impl guard_action :=
  Mutex.unlock;; mret (ga_complete self args).
End code.

Lemma bind_inv {ASIO : Asio} {St A B} (x : M St A) (k : A → M St B) s y :
  (x ≫= k) s = Some y → ∃ r s1, x s = Some (r, s1) ∧
    match r with Ok a => k a s1 = Some y | Exn e => y = (Exn e, s1) end.
Proof.
  unfold mbind, M_bind. destruct (x s) as [[[a|e] s1]|]; [|intros [= <-]|done]; intros; by eexists _, _.
Qed.
Lemma exec_reply {ASIO : Asio} {St A B} (x : M St A) (f : A → B) s r s1 :
  x s = Some (r, s1) →
  (x ≫= λ a, mret (f a)) s = Some (match r with Ok a => Ok (f a) | Exn e => Exn e end, s1).
Proof. unfold mbind, M_bind. intros ->. by destruct r. Qed.

(** ** Programs guarded by a semaphore *)

Section semaphore_programs.
Import Semaphore SemaphoreSpec.
Context {ASIO : Asio} (semaphore_tagged : handler → handler) {op_result : Type}.
Implicit Types (s : machine semaphore_impl) (L : gmap addr (list addr)) (w : world).

Abbreviation action := (@guard_action _ op_result).

(** How many user operations an action starts. *)
Definition starts (r : res action) : nat :=
  match r with Ok (ga_start _) => 1 | _ => 0 end.

(** [guarded_run s0 s k n]: any number of guarded operations and other users
    of the semaphore, which take permits but do not release any, have brought
    it from [s0] to [s]; [k] user operations are running, and [n] receivers of a
    permit have not been called yet. *)
Inductive guarded_run s0 : machine semaphore_impl → nat → nat → Prop :=
  | gd_begin : guarded_run s0 s0 0 0
  | gd_other s k n c r s' : guarded_run s0 s k n → permits_released c = 0 → semaphore_client c s →
      semaphore_exec c s = Some (r, s') → guarded_run s0 s' k (n + permits_granted s c r s')
  | gd_init s k n t exec cancelled self (r : res action) s' : guarded_run s0 s k n →
      guard_by_semaphore_init semaphore_tagged t exec cancelled self s = Some (r, s') →
      guarded_run s0 s' (k + starts r) (n + granted (events_since (wld s) (wld s')))
  | gd_acquired s k n t self ec (r : res action) s' : guarded_run s0 s k n → (ec = no_error → 0 < n) →
      guard_by_semaphore_acquired t self ec s = Some (r, s') →
      guarded_run s0 s' (k + starts r) (n - starts r)
  | gd_done s k n self args (r : res action) s' : guarded_run s0 s k n → 0 < k →
      guard_by_semaphore_done self args s = Some (r, s') →
      guarded_run s0 s' (k - 1) (n + granted (events_since (wld s) (wld s'))).

Lemma try_acquire_keeps s L q r s' :
  semaphore_rep L (obj s) (wld s) q → try_acquire s = Some (r, s') →
  wld s' = wld s ∧ ∃ b, r = Ok b.
Proof.
  intros Hr Hex. destruct s as [m w].
  assert (wp try_acquire (Machine m w) (λ r s', wld s' = w ∧ ∃ b, r = Ok b)) as Hwp.
  { eapply wp_try_acquire; [exact Hr|]. case_bool_decide; split; by try eexists. }
  unfold wp in Hwp. by rewrite Hex in Hwp.
Qed.

(** Guarded operations are clients that play by the rules: what runs, what will
    run and what was given back is what was handed out. *)
Lemma guarded_run_semaphore L m w s k n :
  semaphore_rep L m w [] → guarded_run (Machine m w) s k n →
  ∃ g f, semaphore_run (Machine m w) g f s ∧ g = k + n + f.
Proof.
  intros Hr. induction 1 as [|s k n c r s' _ (g & f & Hrun & ->) Hc Hcl Hex
    |s k n t exec cancelled self r s' _ (g & f & Hrun & ->) Hi
    |s k n t self ec r s' _ (g & f & Hrun & ->) Hn Ha|s k n self args r s' _ (g & f & Hrun & ->) Hk Hd].
  - exists 0, 0. split; [apply sem_run_start|done].
  - eexists _, _. split; [by eapply sem_run_call|]. lia.
  - unfold guard_by_semaphore_init in Hi. destruct cancelled.
    { injection Hi as <- <-. exists (k + n + f), f. split; [done|].
      rewrite (events_since_same _ _ eq_refl). simpl. unfold granted. simpl. lia. }
    apply bind_inv in Hi as (rb & s1 & Hb & Hk).
    destruct (sem_run_invariant _ _ _ _ _ _ Hr Hrun) as (L1 & sp1 & [Hr1 _] & _).
    destruct (try_acquire_keeps _ _ _ _ _ Hr1 Hb) as (Hw & b & ->).
    pose proof (exec_reply _ r_bool _ _ _ Hb) as Hex.
    assert (semaphore_client sem_try_acquire s) as Hcl by done.
    pose proof (sem_run_call _ _ _ _ sem_try_acquire _ _ Hrun Hcl Hex) as Hrun1. destruct b; simpl in *.
    + injection Hk as <- <-. eexists _, _. split; [exact Hrun1|]. rewrite Hw.
      rewrite (events_since_same _ _ eq_refl). unfold granted. simpl. lia.
    + apply bind_inv in Hk as (ra & s2 & Ha & Hk).
      assert (s' = s2 ∧ starts r = 0) as [-> Hst] 
        by (destruct ra as [[]|e]; [injection Hk as <- <-|injection Hk as -> ->]; done).
      pose proof (exec_reply _ (λ _, r_unit) _ _ _ Ha) as Hex2.
      assert (semaphore_client (sem_async_acquire exec (semaphore_tagged self)) s1) as Hcl2 by done.
      pose proof (sem_run_call _ _ _ _ (sem_async_acquire exec (semaphore_tagged self)) _ _ Hrun1 Hcl2 Hex2) as Hrun2.
      eexists _, _. split; [exact Hrun2|]. simpl. rewrite Hw. lia.
  - unfold guard_by_semaphore_acquired in Ha. destruct (ec_failed ec) eqn:Hf; injection Ha as <- <-; simpl.
    + eexists _, _. split; [exact Hrun|lia].
    + apply bool_decide_eq_false in Hf. apply dec_stable in Hf. specialize (Hn Hf).
      eexists _, _. split; [exact Hrun|lia].
  - apply bind_inv in Hd as (ra & s2 & Ha & Hd).
    assert (s' = s2) as -> by (destruct ra as [[]|e]; [injection Hd as <- <-|injection Hd as -> ->]; done).
    pose proof (exec_reply _ (λ _, r_unit) _ _ _ Ha) as Hex.
    destruct (sem_run_invariant _ _ _ _ _ _ Hr Hrun) as (L1 & sp1 & [Hr1 Hc1] & E).
    assert (semaphore_client sem_release s) as Hcl.
    { split; [|done]. simpl. rewrite Hc1. pose proof (sr_count _ _ _ _ Hr). lia. }
    pose proof (sem_run_call _ _ _ _ sem_release _ _ Hrun Hcl Hex) as Hrun1.
    eexists _, _. split; [exact Hrun1|]. simpl. lia.
Qed.
End semaphore_programs.

(** ** Programs guarded by a mutex *)

Section mutex_programs.
Import Mutex MutexSpec.
Context {ASIO : Asio} (semaphore_tagged : handler → handler) {op_result : Type}.
Implicit Types (s : machine mutex_impl) (L : gmap addr (list addr)) (w : world).

(** The same for [guard_by_mutex_op]; the other users lock the mutex and do not
    unlock it. *)
Inductive guarded_mutex_run s0 : machine mutex_impl → nat → nat → Prop :=
  | gm_begin : guarded_mutex_run s0 s0 0 0
  | gm_other s k n c r s' : guarded_mutex_run s0 s k n → releases c = 0 →
      mutex_client (k + n) c s → mutex_exec c s = Some (r, s') → guarded_mutex_run s0 s' k (n + grants s c r s')
  | gm_init s k n t exec cancelled self (r : res (guard_action (op_result := op_result))) s' :
      guarded_mutex_run s0 s k n →
      guard_by_mutex_init semaphore_tagged t exec cancelled self s = Some (r, s') →
      guarded_mutex_run s0 s' (k + starts r) (n + granted (events_since (wld s) (wld s')))
  | gm_acquired s k n t self ec (r : res (guard_action (op_result := op_result))) s' :
      guarded_mutex_run s0 s k n → (ec = no_error → 0 < n) →
      guard_by_mutex_acquired t self ec s = Some (r, s') →
      guarded_mutex_run s0 s' (k + starts r) (n - starts r)
  | gm_done s k n self args (r : res (guard_action (op_result := op_result))) s' :
      guarded_mutex_run s0 s k n → 0 < k →
      guard_by_mutex_done self args s = Some (r, s') →
      guarded_mutex_run s0 s' (k - 1) (n + granted (events_since (wld s) (wld s'))).

Lemma try_lock_keeps s L q r s' :
  mutex_rep L (obj s) (wld s) q → try_lock s = Some (r, s') → wld s' = wld s ∧ ∃ b, r = Ok b.
Proof.
  intros Hr Hex. destruct s as [m w].
  assert (wp try_lock (Machine m w) (λ r s', wld s' = w ∧ ∃ b, r = Ok b)) as Hwp.
  { eapply wp_try_lock; [exact Hr|]. destruct (locked_ m); split; by try eexists. }
  unfold wp in Hwp. by rewrite Hex in Hwp.
Qed.

Lemma mutex_run_count s0 s h h' : mutex_run s0 h s → h' = h → mutex_run s0 h' s.
Proof. by intros H ->. Qed.

Lemma guarded_run_mutex_client L m w s k n :
  mutex_rep L m w [] → locked_ m = false → guarded_mutex_run (Machine m w) s k n → mutex_run (Machine m w) (k + n) s.
Proof.
  intros Hr Hl. induction 1 as [|s k n c r s' _ Hrun Hc Hcl Hex|s k n t exec cancelled self r s' _ Hrun Hi
    |s k n t self ec r s' _ Hrun Hn Ha|s k n self args r s' _ Hrun Hk Hd].
  - apply run_start.
  - eapply mutex_run_count; [by eapply run_call|]. lia.
  - unfold guard_by_mutex_init in Hi. destruct cancelled.
    { injection Hi as <- <-. eapply mutex_run_count; [exact Hrun|].
      rewrite (events_since_same _ _ eq_refl). unfold granted. simpl. lia. }
    apply bind_inv in Hi as (rb & s1 & Hb & Hk).
    destruct (run_invariant _ _ _ _ _ Hr Hl Hrun) as (L1 & sp1 & [Hr1 _] & _).
    destruct (try_lock_keeps _ _ _ _ _ Hr1 Hb) as (Hw & b & ->).
    pose proof (exec_reply _ r_bool _ _ _ Hb) as Hex.
    pose proof (run_call _ _ _ cmd_try_lock _ _ Hrun (conj I I) Hex) as Hrun1. destruct b; simpl in *.
    + injection Hk as <- <-. eapply mutex_run_count; [exact Hrun1|]. rewrite Hw.
      rewrite (events_since_same _ _ eq_refl). unfold granted. simpl. lia.
    + apply bind_inv in Hk as (ra & s2 & Ha & Hk).
      assert (s' = s2 ∧ starts r = 0) as [-> Hst]
        by (destruct ra as [[]|e]; [injection Hk as <- <-|injection Hk as -> ->]; done).
      pose proof (exec_reply _ (λ _, r_unit) _ _ _ Ha) as Hex2.
      pose proof (run_call _ _ _ (cmd_async_lock exec (semaphore_tagged self)) _ _ Hrun1 (conj I I) Hex2) as Hrun2.
      eapply mutex_run_count; [exact Hrun2|]. simpl. rewrite Hw. lia.
  - unfold guard_by_mutex_acquired in Ha. destruct (ec_failed ec) eqn:Hf; injection Ha as <- <-; simpl.
    + eapply mutex_run_count; [exact Hrun|lia].
    + apply bool_decide_eq_false in Hf. apply dec_stable in Hf. specialize (Hn Hf).
      eapply mutex_run_count; [exact Hrun|lia].
  - apply bind_inv in Hd as (ra & s2 & Ha & Hd).
    assert (s' = s2) as -> by (destruct ra as [[]|e]; [injection Hd as <- <-|injection Hd as -> ->]; done).
    pose proof (exec_reply _ (λ _, r_unit) _ _ _ Ha) as Hex.
    assert (mutex_client (k + n) cmd_unlock s) as Hcl by (split; [done|simpl; lia]).
    eapply mutex_run_count; [exact (run_call _ _ _ cmd_unlock _ _ Hrun Hcl Hex)|]. simpl. lia.
Qed.
End mutex_programs.
