(* ===== verification/GuardedSpec.v ===== *)
(** * Guarded operations: properties

    How many guarded operations run at a time, what one of them does from start
    to end, and what happens to one that is cancelled while it waits. *)
From S2P Require Import Prelude Machine Bilist Ops Service Impl Guarded.
From S2P Require Mutex MutexSpec Semaphore SemaphoreSpec.

Section semaphore_properties.
Import Semaphore SemaphoreSpec.
Context {ASIO : Asio} (semaphore_tagged : handler → handler) {op_result : Type}.
Implicit Types (L : gmap addr (list addr)) (w : world) (m : semaphore_impl) (s : machine semaphore_impl).
Implicit Types (q : list (addr * op)).

(** C16: [guarded] bounds the concurrency. After any interleaving of guarded
    operations and of other users that only take permits, the user operations
    that are running, the permits that are on their way or with the other users,
    and the permits left add up to the initial count: never more than that many
    operations run at a time. *)
Theorem guarded_bounded L m w s k n :
  semaphore_rep L m w [] → guarded_run semaphore_tagged (op_result := op_result) (Machine m w) s k n →
  (Z.of_nat k + Z.of_nat n + count_ (obj s) = count_ m)%Z ∧ (Z.of_nat k ≤ count_ m)%Z.
Proof.
  intros Hr Hrun. destruct (guarded_run_semaphore _ _ _ _ _ _ _ Hr Hrun) as (g & f & Hs & ->).
  destruct (sem_run_invariant _ _ _ _ _ _ Hr Hs) as (L' & sp & [Hr' E'] & E).
  pose proof (sr_count _ _ _ _ Hr'). lia.
Qed.

(** A guarded operation from its start to the completion of the user's
    operation with [args]. *)
Definition guarded_session (t : err_type) (exec : executor) (self : handler) (args : op_result) :
    M semaphore_impl (guard_action (op_result := op_result) * guard_action (op_result := op_result)) :=
  a ← guard_by_semaphore_init semaphore_tagged t exec false self;
  b ← guard_by_semaphore_done self args;
  mret (a, b).

(** A guarded operation takes one permit and gives it back. With a permit
    left the user's operation starts at once, and when it completes with [args]
    so does the guarded operation; the semaphore and the world are what they
    were, and nothing was allocated or posted. *)
Theorem guarded_gives_back L m w t exec self args :
  semaphore_rep L m w [] → (0 < count_ m)%Z →
  wp (guarded_session t exec self args) (Machine m w) (λ r s',
    r = Ok (ga_start self, ga_complete self args) ∧ s' = Machine m w).
Proof.
  intros Hr Hc. pose proof (sr_count _ _ _ _ Hr).
  apply wp_bind, wp_bind. eapply wp_try_acquire; [done|]. rewrite bool_decide_eq_true_2 by lia.
  apply wp_ret, wp_bind, wp_bind. eapply wp_release; [apply semaphore_rep_count; [done|lia]|simpl; lia|].
  apply wp_ret, wp_ret. split; [done|]. f_equal. destruct m. unfold set_count. simpl. f_equal. lia.
Qed.

(** A guarded operation starts to wait, the signal of its slot [n] is emitted,
    and asio calls its handler with the error it was posted with. *)
Definition guarded_cancel_session (t : err_type) (exec : executor) (self : handler) (n : positive) :
    M semaphore_impl (guard_action (op_result := op_result) * guard_action (op_result := op_result)) :=
  a ← guard_by_semaphore_init semaphore_tagged t exec false self;
  semaphore_emit n true;;
  b ← guard_by_semaphore_acquired t self operation_aborted;
  mret (a, b).

(** A guarded operation that is cancelled while it waits takes nothing. Its
    handler is posted with [operation_aborted], it completes with that error in
    the form its signature asks for, the user's operation is never started, and
    counter and line of the semaphore are what they were. *)
Theorem guarded_cancelled L m w q t exec self n :
  semaphore_rep L m w q → count_ m = 0%Z → allocate (semaphore_tagged self) (dom (nodes w)) ≠ None →
  associated_slot (semaphore_tagged self) = Some n →
  wp (guarded_cancel_session t exec self n) (Machine m w) (λ r s',
    r = Ok (ga_wait self, ga_fail self (make_error t operation_aborted)) ∧ obj s' = m ∧
    (∃ p, events_since w (wld s') = [ev_deallocate p;
      ev_post (get_associated_executor (semaphore_tagged self) exec) (semaphore_tagged self) operation_aborted]) ∧
    ∃ L', semaphore_rep L' m (wld s') q).
Proof.
  intros Hr Hz Ha Hslot. set (po := (basic_op_model (get_associated_executor (semaphore_tagged self) exec)
    (semaphore_tagged self))).
  apply wp_bind, wp_bind. eapply wp_try_acquire; [done|]. rewrite bool_decide_eq_false_2 by lia.
  apply wp_bind. eapply wp_async_acquire; [done|lia|done|]. intros _ p N' _ Hp po' w' Hr'.
  apply wp_ret, wp_bind. change po' with (p, po) in *. clear po'.
  assert (slots w' !! n = Some (CancelHandler p (this_ (get_sm m)))) as Hn.
  { unfold w'. simpl. rewrite Hslot. apply lookup_insert_eq. }
  pose proof (queue_NoDup _ _ _ _ (io_world _ _ _ _ (sr_impl _ _ _ _ Hr')) (sr_queue _ _ _ _ Hr')) as Hnd.
  eapply wp_semaphore_emit; [exact Hr'|by rewrite Hn; intros c [= <-]|intros [?|?]; congruence|].
  intros _ q1 p' o q2 N2 Hsplit Hn2 w2 Hr2. rewrite Hn in Hn2. injection Hn2 as <-.
  destruct (split_at_key q [] q1 q2 p po o Hnd Hsplit) as (-> & -> & ->).
  apply wp_bind, wp_ret, wp_ret. split_and!; [done..| |].
  - exists p. by apply events_since_app.
  - rewrite app_nil_r in Hr2. by eexists.
Qed.
End semaphore_properties.

Section mutex_properties.
Import Mutex MutexSpec.
Context {ASIO : Asio} (semaphore_tagged : handler → handler) {op_result : Type}.
Implicit Types (L : gmap addr (list addr)) (w : world) (m : mutex_impl) (s : machine mutex_impl).

(** Operations guarded by a mutex run one at a time. After any
    interleaving of guarded operations and of other users that do not unlock,
    at most one user operation is running or about to run, and one is exactly
    while the mutex is locked. *)
Theorem guarded_mutex_exclusive L m w s k n :
  mutex_rep L m w [] → locked_ m = false →
  guarded_mutex_run semaphore_tagged (op_result := op_result) (Machine m w) s k n →
  k + n ≤ 1 ∧ (k + n = 1 ↔ locked_ (obj s) = true).
Proof.
  intros Hr Hl Hrun. apply (guarded_run_mutex_client _ _ _ _ _ _ _ Hr Hl) in Hrun.
  destruct (run_invariant _ _ _ _ _ Hr Hl Hrun) as (L' & sp & [_ ->] & ->).
  destruct (owned sp); simpl; split; try lia; by split.
Qed.
End mutex_properties.

(** ** The properties at work *)

Section witnesses.

(** The tag of [prepend] does not show in the handlers of [test_asio]. *)
Definition demo_tag : @handler test_asio → @handler test_asio := id.

Lemma demo_guarded_run :
  guarded_run demo_tag (op_result := unit)
    (Machine (obj (Semaphore.demo_semaphore true)) (wld (Semaphore.demo_semaphore true)))
    (Semaphore.demo_taken true) 1 0.
Proof.
  apply (gd_init (ASIO := test_asio) demo_tag
    (Machine (obj (Semaphore.demo_semaphore true)) (wld (Semaphore.demo_semaphore true))) _ 0 0 Err_error_code 0 false 4 (Ok (@ga_start test_asio unit 4))
    (Semaphore.demo_taken true) (gd_begin _ _)). vm_compute. reflexivity.
Qed.

Lemma guarded_bounded_witness :
  (Z.of_nat 1 + Z.of_nat 0 + Semaphore.count_ (obj (Semaphore.demo_taken true)) =
     Semaphore.count_ (obj (Semaphore.demo_semaphore true)))%Z ∧
  (Z.of_nat 1 ≤ Semaphore.count_ (obj (Semaphore.demo_semaphore true)))%Z.
Proof.
  apply (guarded_bounded demo_tag (op_result := unit) Semaphore.demo_semaphore_lists
    (obj (Semaphore.demo_semaphore true)) (wld (Semaphore.demo_semaphore true))).
  - apply Semaphore.demo_semaphore_rep.
  - exact demo_guarded_run.
Defined.

Lemma guarded_gives_back_witness :
  wp (guarded_session demo_tag Err_error_code 0 4 tt)
    (Machine (obj (Semaphore.demo_semaphore true)) (wld (Semaphore.demo_semaphore true))) (λ r s',
    r = Ok (@ga_start test_asio unit 4, @ga_complete test_asio unit 4 tt) ∧
    s' = Machine (obj (Semaphore.demo_semaphore true)) (wld (Semaphore.demo_semaphore true))).
Proof.
  apply (guarded_gives_back demo_tag Semaphore.demo_semaphore_lists (obj (Semaphore.demo_semaphore true))
    (wld (Semaphore.demo_semaphore true)) Err_error_code 0 4 tt).
  - apply Semaphore.demo_semaphore_rep.
  - vm_compute. reflexivity.
Defined.

Lemma guarded_cancelled_witness :
  wp (guarded_cancel_session demo_tag (op_result := unit) Err_exception_ptr 0 6 6)
    (Machine (obj (Semaphore.demo_taken true)) (wld (Semaphore.demo_taken true))) (λ r s',
    r = Ok (@ga_wait test_asio unit 6, @ga_fail test_asio unit 6 (err_exception (system_error operation_aborted))) ∧
    obj s' = obj (Semaphore.demo_taken true) ∧
    (∃ p, events_since (wld (Semaphore.demo_taken true)) (wld s') = [@ev_deallocate test_asio p;
      @ev_post test_asio (@get_associated_executor test_asio (demo_tag 6) 0) (demo_tag 6) operation_aborted]) ∧
    ∃ L', Semaphore.semaphore_rep L' (obj (Semaphore.demo_taken true)) (wld s') []).
Proof.
  apply (guarded_cancelled demo_tag Semaphore.demo_semaphore_lists (obj (Semaphore.demo_taken true))
    (wld (Semaphore.demo_taken true)) [] Err_exception_ptr 0 6 6).
  - apply Semaphore.demo_taken_rep.
  - vm_compute. reflexivity.
  - vm_compute. discriminate.
  - vm_compute. reflexivity.
Defined.

Lemma demo_guarded_mutex_run :
  guarded_mutex_run demo_tag (op_result := unit)
    (Machine (obj (Mutex.demo_mutex true)) (wld (Mutex.demo_mutex true))) (Mutex.demo_locked true) 1 0.
Proof.
  apply (gm_init (ASIO := test_asio) demo_tag
    (Machine (obj (Mutex.demo_mutex true)) (wld (Mutex.demo_mutex true))) _ 0 0 Err_error_code 0 false 4 (Ok (@ga_start test_asio unit 4))
    (Mutex.demo_locked true) (gm_begin _ _)). vm_compute. reflexivity.
Qed.

Lemma guarded_mutex_exclusive_witness : 1 + 0 ≤ 1 ∧ (1 + 0 = 1 ↔ Mutex.locked_ (obj (Mutex.demo_locked true)) = true).
Proof.
  apply (guarded_mutex_exclusive demo_tag (op_result := unit) Mutex.demo_mutex_lists
    (obj (Mutex.demo_mutex true)) (wld (Mutex.demo_mutex true))).
  - apply Mutex.demo_mutex_rep.
  - vm_compute. reflexivity.
  - exact demo_guarded_mutex_run.
Defined.
End witnesses.
