(* ===== verification/Clients.v ===== *)
(** * Who uses a mutex or a semaphore

    The code of three kinds of parties, each as a function from where it is to
    where it is after its next call, so that others may get between any two
    calls: the coroutine of [bench/mutex.cpp], a thread that locks and unlocks,
    and an operation guarded by the mutex or semaphore ([detail/guarded.hpp]).
    The thread and the guarded operation are written against [Gate]; the
    coroutine, a template over the mutex, against [BenchMutex], of which every
    gate is an instance. *)
From S2P Require Import Prelude Machine Bilist Ops Service Impl Gate Guarded.
From S2P Require Mutex Semaphore.

(** ** The coroutine of the benchmark *)

(** Where a copy of [run_benchmark_impl] is: at the head of its loop with [n]
    rounds left, between a [try_lock] that failed and [async_lock], suspended in
    the [yield], resumed but not running yet, before [unlock], or at its end. *)
Inductive client :=
  | Ready (n : nat)
  | Locking (n : nat)
  | Waiting (n : nat)
  | Posted (n : nat)
  | Owner (n : nat)
  | Done.

(** What [run_benchmark_impl] asks of its template parameter [Mutex]. *)
Class BenchMutex (St : Type) `{ASIO : Asio} := {
  bm_try_lock : M St bool;
  bm_async_lock : handler → M St unit;
  bm_unlock : M St unit
}.

(** A gate whose asynchronous calls use the executor [exec]. *)
Definition gate_bench `{ASIO : Asio, !Member St, !Gate St} (exec : executor) : BenchMutex St :=
  {| bm_try_lock := gate_try; bm_async_lock := gate_async exec; bm_unlock := gate_give |}.

Section client.
Context {ASIO : Asio} `{!BenchMutex St}.

(** [run_benchmark_impl::operator()], up to its next call of the mutex; [h] is
    the copy as a handler. It resumes whatever the [error_code]. *)
Definition client_call (h : handler) (c : client) : M St client :=
  match c with
  | Ready O => mret Done
  | Ready (S n) => b ← bm_try_lock; mret (if (b : bool) then Owner n else Locking n)
  | Locking n => bm_async_lock h;; mret (Waiting n)
  | Posted n => mret (Owner n)
  | Owner n => bm_unlock;; mret (Ready n)
  | Waiting _ | Done => ub
  end.

(** The handler of a waiting copy has been handed to its executor. *)
Definition told (c : client) : client := match c with Waiting n => Posted n | _ => c end.
End client.

(** ** A thread *)

(** Where a thread that takes the mutex [n] more times is: before [lock(ec)],
    asleep in it with its operation at [p], woken (its operation is done), before
    [unlock], or at its end. *)
Inductive thread :=
  | th_ready (n : nat)
  | th_asleep (n : nat) (p : addr)
  | th_awake (n : nat) (p : addr)
  | th_owner (n : nat)
  | th_done.

Section thread.
Context {ASIO : Asio} `{!Member St, !Gate St}.

(** A wakeup without a notification changes nothing and is left out: a thread
    that is asleep makes no call. *)
Definition thread_call (ec : addr) (c : thread) : M St thread :=
  match c with
  | th_ready O => mret th_done
  | th_ready (S n) => r ← gate_block ec; mret (match r with Returned => th_owner n | Blocked p => th_asleep n p end)
  | th_awake n p => b ← gate_wake p; mret (if (b : bool) then th_owner n else th_awake n p)
  | th_owner n => gate_give;; mret (th_ready n)
  | th_asleep _ _ | th_done => ub
  end.

(** [var.notify_all()] of the operation at [p]. *)
Definition notified (p : addr) (c : thread) : thread :=
  match c with
  | th_asleep n p' => if decide (p = p') then th_awake n p' else c
  | _ => c
  end.
End thread.

(** ** A guarded operation *)

(** Where a guarded operation is: not started, before [try_acquire], before
    [async_acquire], waiting, told (its handler is on its way, with a place or
    an error), running the user's operation, completed (with the results of the
    user's operation, or with an error). *)
Inductive guarded_op :=
  | gs_new
  | gs_trying
  | gs_locking
  | gs_waiting
  | gs_told (ec : error_code)
  | gs_running
  | gs_done (result : bool).

(** The two function objects. *)
Class Guarding (St : Type) `{ASIO : Asio, !Member St, !Gate St} := {
  guard_error : err_type → error_code → err;
  guard_init {R} (tag : handler → handler) : err_type → executor → bool → handler → M St (guard_action (op_result := R));
  guard_acquired {R} : err_type → handler → error_code → M St (guard_action (op_result := R));
  guard_done {R} : handler → R → M St (guard_action (op_result := R));
  guard_init_eq {R} tag t exec cancelled self : guard_init (R := R) tag t exec cancelled self =
    if cancelled then mret (ga_fail self (guard_error t operation_aborted))
    else b ← gate_try; if (b : bool) then mret (ga_start self) else gate_async exec (tag self);; mret (ga_wait self);
  guard_acquired_eq {R} t self ec : guard_acquired (R := R) t self ec =
    if ec_failed ec then mret (ga_fail self (guard_error t ec)) else mret (ga_start self);
  guard_done_eq {R} self (args : R) : guard_done self args = (gate_give;; mret (ga_complete self args))
}.

Section instances.
Import Mutex Semaphore.
Context {ASIO : Asio}.

#[export] Instance semaphore_guarding : Guarding semaphore_impl := {|
  guard_error := make_error;
  guard_init R tag := guard_by_semaphore_init tag;
  guard_acquired R := guard_by_semaphore_acquired;
  guard_done R := guard_by_semaphore_done;
  guard_init_eq _ _ _ _ _ _ := eq_refl;
  guard_acquired_eq _ _ _ _ := eq_refl;
  guard_done_eq _ _ _ := eq_refl
|}.
#[export] Instance mutex_guarding : Guarding mutex_impl := {|
  guard_error := mutex_make_error;
  guard_init R tag := guard_by_mutex_init tag;
  guard_acquired R := guard_by_mutex_acquired;
  guard_done R := guard_by_mutex_done;
  guard_init_eq _ _ _ _ _ _ := eq_refl;
  guard_acquired_eq _ _ _ _ := eq_refl;
  guard_done_eq _ _ _ := eq_refl
|}.
End instances.

Section guarded.
Context {ASIO : Asio} `{!Member St, !Gate St, !Guarding St}.
Context (tag : handler → handler) {op_result : Type} (t : err_type) (exec : executor).

(** What an [operator()] did. *)
Definition acted (a : guard_action (op_result := op_result)) : guarded_op :=
  match a with
  | ga_fail _ _ => gs_done false
  | ga_complete _ _ => gs_done true
  | ga_start _ => gs_running
  | ga_wait _ => gs_waiting
  end.

(** The next call of the operation [self], whose operation gives [args];
    [operator()(Self &&)] is in three pieces. [cancelled] is what the
    cancellation state says at that time. *)
Definition guarded_call (self : handler) (args : op_result) (cancelled : bool) (c : guarded_op) : M St guarded_op :=
  match c with
  | gs_new => mret (if cancelled then gs_done false else gs_trying)
  | gs_trying => b ← gate_try; mret (if (b : bool) then gs_running else gs_locking)
  | gs_locking => gate_async exec (tag self);; mret gs_waiting
  | gs_told ec => a ← guard_acquired t self ec; mret (acted a)
  | gs_running => a ← guard_done self args; mret (acted a)
  | gs_waiting | gs_done _ => ub
  end.

(** The pieces make up the function. *)
Definition guarded_init (self : handler) (args : op_result) (cancelled : bool) : M St guarded_op :=
  c ← guarded_call self args cancelled gs_new;
  match c with
  | gs_trying =>
      c ← guarded_call self args cancelled c;
      match c with
      | gs_locking => guarded_call self args cancelled c
      | _ => mret c
      end
  | _ => mret c
  end.

Lemma guarded_init_pieces self args cancelled s :
  guarded_init self args cancelled s = (a ← guard_init tag t exec cancelled self; mret (acted a)) s.
Proof.
  rewrite guard_init_eq. unfold guarded_init, guarded_call, mbind, M_bind. destruct cancelled; [done|]. simpl.
  destruct (gate_try s) as [[[[]|e] s1]|]; try done. simpl.
  by destruct (gate_async _ _ s1) as [[[[]|e] s2]|].
Qed.

(** The handler of a waiting operation has been handed to its executor. *)
Definition informed (ec : error_code) (c : guarded_op) : guarded_op :=
  match c with gs_waiting => gs_told ec | _ => c end.
End guarded.
