(* ===== verification/Parties.v ===== *)
(** * Everybody gets through

    Any number of coroutines, threads and guarded operations around one mutex or
    one semaphore: [party_step] is the closed system, in which calls interleave in
    any order, handlers that were posted run whenever the scheduler likes, and
    guarded operations are cancelled at any time. No more parties are inside than
    there are places, every run is short, and at its end everybody is done. *)
From S2P Require Import Prelude Machine Bilist Ops Service Impl Gate Guarded Scheduler Clients.
From S2P Require Mutex MutexSpec Semaphore.

(** ** The system *)

Inductive party :=
  | coroutine (c : client)
  | on_thread (c : thread)
  | guarded (c : guarded_op).

(** The steps that are left; the places held, also by parties that do not know
    yet; the parties between entry and exit. *)
Definition weight (c : party) : nat :=
  match c with
  | coroutine (Ready n) => 5 * n + 1
  | coroutine (Locking n) => 5 * n + 5
  | coroutine (Waiting n) => 5 * n + 4
  | coroutine (Posted n) => 5 * n + 3
  | coroutine (Owner n) => 5 * n + 2
  | coroutine Done => 0
  | on_thread (th_ready n) => 4 * n + 1
  | on_thread (th_asleep n _) => 4 * n + 4
  | on_thread (th_awake n _) => 4 * n + 3
  | on_thread (th_owner n) => 4 * n + 2
  | on_thread th_done => 0
  | guarded gs_new => 6
  | guarded gs_trying => 5
  | guarded gs_locking => 4
  | guarded gs_waiting => 3
  | guarded (gs_told _) => 2
  | guarded gs_running => 1
  | guarded (gs_done _) => 0
  end.
Definition holds (c : party) : nat :=
  match c with
  | coroutine (Posted _ | Owner _) | on_thread (th_awake _ _ | th_owner _) => 1
  | guarded (gs_told no_error | gs_running) => 1
  | _ => 0
  end.
Definition inside (c : party) : nat :=
  match c with
  | coroutine (Owner _) | on_thread (th_owner _) | guarded gs_running => 1
  | _ => 0
  end.
Definition waits (c : party) : bool :=
  match c with
  | coroutine (Waiting _) | on_thread (th_asleep _ _) | guarded gs_waiting => true
  | _ => false
  end.
Definition fresh_party (c : party) : bool :=
  match c with
  | coroutine (Ready _) | on_thread (th_ready _) | guarded gs_new => true
  | _ => false
  end.
Definition finished (c : party) : bool :=
  match c with
  | coroutine Done | on_thread th_done | guarded (gs_done _) => true
  | _ => false
  end.

Section system.
Context {ASIO : Asio} `{!EqDecision handler} `{!Member St, !Gate St, !Guarding St}.

(** What the parties are made of: their executor; the handler a party waits
    with, [tag (self i)]; for threads the [error_code] they pass to [lock], and
    for guarded operations what the user's operation completes with. *)
Context (tag : handler → handler) {op_result : Type} (t : err_type) (exec : executor).
Context (self : nat → handler) (ecv : nat → addr) (args : nat → op_result).
Implicit Types (cl : list party) (c : party) (i j : nat) (w : world).

Abbreviation hnd i := (tag (self i)).
#[local] Instance coroutine_mutex : BenchMutex St := gate_bench exec.

Definition party_call i (cancelled : bool) c : M St party :=
  match c with
  | coroutine c => c' ← client_call (hnd i) c; mret (coroutine c')
  | on_thread c => c' ← thread_call (ecv i) c; mret (on_thread c')
  | guarded c => c' ← guarded_call tag t exec (self i) (args i) cancelled c; mret (guarded c')
  end.

(** What a party hears of an event. *)
Definition tell (e : event) i c : party :=
  match c, e with
  | coroutine c', (ev_post _ h _ | ev_dispatch _ h _) => if decide (hnd i = h) then coroutine (told c') else c
  | guarded c', (ev_post _ h ec | ev_dispatch _ h ec) => if decide (hnd i = h) then guarded (informed ec c') else c
  | on_thread c', ev_notify p => on_thread (notified p c')
  | _, _ => c
  end.
Abbreviation hear w w' cl := (deliver tell (events_since w w') cl).

(** One call of one party, or the signal of a slot with a closure of the gate. *)
Inductive party_step : relation (machine St * list party) :=
  | pst_call i cancelled c c' s s' cl : cl !! i = Some c → party_call i cancelled c s = Some (Ok c', s') →
      party_step (s, cl) (s', hear (wld s) (wld s') (<[i := c']> cl))
  | pst_cancel n p s s' cl : slots (wld s) !! n = Some (CancelHandler p (this_ (get_sm (obj s)))) →
      gate_emit n true s = Some (Ok tt, s') → party_step (s, cl) (s', hear (wld s) (wld s') cl).

(** A schedule says whose turn it is, or which signal is emitted. *)
Inductive turn := t_call (i : nat) (cancelled : bool) | t_cancel (n : positive).
Definition take_turn (u : turn) (x : machine St * list party) : option (machine St * list party) :=
  match u with
  | t_call i cancelled =>
      c ← x.2 !! i;
      match party_call i cancelled c x.1 with
      | Some (Ok c', s') => Some (s', hear (wld x.1) (wld s') (<[i := c']> x.2))
      | _ => None
      end
  | t_cancel n =>
      c ← slots (wld x.1) !! n;
      if decide (ch_impl c = this_ (get_sm (obj x.1))) then
        match gate_emit n true x.1 with
        | Some (Ok tt, s') => Some (s', hear (wld x.1) (wld s') x.2)
        | _ => None
        end
      else None
  end.
Lemma take_turn_step u x y : take_turn u x = Some y → party_step x y.
Proof.
  destruct x as [s cl], u as [i cancelled|n]; simpl.
  - intros (c & Hi & H)%bind_Some. destruct (party_call i cancelled c s) as [[[c'|] s']|] eqn:E; try done.
    injection H as <-. by eapply pst_call.
  - intros ([p im] & Hn & H)%bind_Some. simpl in H. case_decide as Him; [|done].
    destruct (gate_emit n true s) as [[[[]|] s']|] eqn:E; try done. injection H as <-. subst im. by eapply pst_cancel.
Qed.

(** ** The invariant *)

(** The operation a waiting party has in line. *)
Definition stands i c (po : addr * op) : Prop :=
  match c with
  | coroutine (Waiting _) | guarded gs_waiting => ∃ g, po.2 = basic_op_model g (hnd i)
  | on_thread (th_asleep _ p) => po = (p, sync_op (ecv i) false)
  | _ => False
  end.

(** What holds of a party whatever the others do: coroutines are not
    cancelled, threads run where there are threads and pass an [error_code] that
    is alive, and one that was woken finds its operation done. *)
Definition settled (m : St) w i c : Prop :=
  match c with
  | coroutine _ => associated_slot (hnd i) = None
  | on_thread c => enabled_ (get_mtx m) = true ∧ is_Some (ecs w !! ecv i) ∧
      match c with th_awake _ p => ops w !! p = Some (sync_op (ecv i) true) | _ => True end
  | guarded _ => True
  end.

Context (places : Z).
Record parties_ok (x : machine St * list party) : Prop := {
  po_rep : ∃ L q, gate_rep L (obj x.1) (wld x.1) q ∧ lined stands waits x.2 q;
  po_places : (Z.of_nat (total holds x.2) + gate_free (obj x.1) = places)%Z;
  po_settled i c : x.2 !! i = Some c → settled (obj x.1) (wld x.1) i c
}.

(** The calls of the others leave a party settled. *)
Lemma settled_kept m m' w w' i c : same_member m m' → kept w w' → settled m w i c → settled m' w' i c.
Proof.
  intros Hm [Hops Hecs]. destruct c as [c|c|c]; simpl; [done| |done].
  rewrite (same_member_mtx _ _ Hm). intros (H1 & H2 & H3). split_and!; [done|auto|]. destruct c; auto.
Qed.

(** ** What a step does *)

Context `{!GateOk St, !Inj (=) (=) (λ i, hnd i), !Inj (=) (=) ecv}.
Context (memory : ∀ i X, allocate (hnd i) X ≠ None) (Hplaces : (places ≤ gate_capacity)%Z).
Implicit Types (L : gmap addr (list addr)) (m : St) (q : list (addr * op)) (s : machine St).

Definition better cl (y : machine St * list party) : Prop := parties_ok y ∧ total weight y.2 < total weight cl.

(** A step that changes one party. *)
Lemma better_one L q m m' w w' cl i c c' :
  parties_ok (Machine m w, cl) → cl !! i = Some c → gate_rep L m' w' q → lined stands waits (<[i := c']> cl) q →
  weight c' < weight c →
  (gate_free m' + Z.of_nat (holds c') = gate_free m + Z.of_nat (holds c))%Z → settled m' w' i c' →
  (∀ j d, j ≠ i → cl !! j = Some d → settled m' w' j d) →
  better cl (Machine m' w', <[i := c']> cl).
Proof.
  intros [_ Ho _] Hi Hr Hl Hlt Hf Hc Hother. pose proof (total_insert holds cl i c c' Hi).
  pose proof (total_insert weight cl i c c' Hi). simpl in Ho. split; [|simpl; lia]. split; simpl.
  - by exists L, q.
  - lia.
  - intros j d. destruct (decide (j = i)) as [->|Hne].
    + rewrite list_lookup_insert_eq by (by eapply lookup_lt_Some). by intros [= <-].
    + rewrite list_lookup_insert_ne by done. by apply Hother.
Qed.

(** The same when all others are settled because little changed. *)
Lemma better_kept L q m m' w w' cl i c c' :
  parties_ok (Machine m w, cl) → cl !! i = Some c → gate_rep L m' w' q → lined stands waits (<[i := c']> cl) q →
  weight c' < weight c →
  (gate_free m' + Z.of_nat (holds c') = gate_free m + Z.of_nat (holds c))%Z → settled m' w' i c' →
  same_member m m' → kept w w' → better cl (Machine m' w', <[i := c']> cl).
Proof.
  intros Hok Hi Hr Hl Hlt Hf Hc Hm Hk. eapply better_one; [done..|]. intros j d _ Hj.
  eapply settled_kept; [done..|]. by apply (po_settled _ Hok).
Qed.

(** What the operation [po] of the party [j] makes [j] hear, and the others. *)
Definition served (ec : error_code) c : party :=
  match c with
  | coroutine c => coroutine (told c)
  | on_thread (th_asleep n p) => on_thread (th_awake n p)
  | on_thread c => on_thread c
  | guarded c => guarded (informed ec c)
  end.
Lemma heard_served ec po j c : stands j c po → heard tell (completion ec po) j c = served ec c.
Proof.
  destruct po as [p o], c as [[]|[]|[]]; simpl; try done.
  - intros [g ->]. simpl. by rewrite decide_True.
  - intros [= -> ->]. simpl. by rewrite decide_True.
  - intros [g ->]. simpl. by rewrite decide_True.
Qed.
Lemma heard_other ec po i j c d cl L m w q :
  gate_rep L m w q → lined stands waits cl q → po ∈ q → stands j c po → cl !! i = Some d → i ≠ j →
  heard tell (completion ec po) i d = d.
Proof.
  intros Hr Hl Hpo Hs Hi Hne.
  assert ((∃ g, po.2 = basic_op_model g (hnd j)) ∨ ∃ p, po = (p, sync_op (ecv j) false)) as Hpos.
  { destruct c as [[]|[]|[]]; try done; auto. simpl in Hs. subst po. right. by eexists. }
  destruct Hpos as [[g Hg]|[p ->]].
  - assert (hnd i ≠ hnd j) as Hh by (by intros ?%(inj (λ i, hnd i))).
    destruct po as [p o]. simpl in Hg. subst o. destruct d; simpl; by rewrite ?decide_False.
  - destruct d as [|d|]; [done| |done]. simpl. f_equal. destruct d as [|n p'| | |]; simpl; try done. case_decide as E; [|done]. subst p'.
    exfalso. apply Hne. destruct (lined_at _ _ _ _ _ _ Hl Hi eq_refl) as ([p' o] & Hpo' & [= -> ->]).
    destruct (gate_queue _ _ _ _ Hr) as [r Hq]. pose proof (queue_member _ _ _ _ _ _ Hq Hpo) as E1.
    pose proof (queue_member _ _ _ _ _ _ Hq Hpo') as E2. rewrite E1 in E2. injection E2. by intros ?%(inj ecv).
Qed.

(** An operation in line is completed: its party goes on. *)
Lemma better_completed L m q1 po q2 ec w w' cl :
  gate_rep L m w (q1 ++ po :: q2) → lined stands waits cl (q1 ++ po :: q2) → completes m ec w q1 po q2 w' →
  (∀ i c, cl !! i = Some c → settled m w i c) → ec = no_error ∨ is_Some (op_slot po.2) ∧ ec = operation_aborted →
  (Z.of_nat (total holds cl) + gate_free m + (if decide (ec = no_error) then 1 else 0) = places)%Z →
  better cl (Machine m w', hear w w' cl).
Proof.
  intros Hr Hl [Hsame [L' Hr']] Hset Hec Ho.
  destruct (lined_remove _ _ _ _ _ _ Hl) as (j & c & Hj & Hs & Hc & Hrem).
  assert (po ∈ q1 ++ po :: q2) as Hpo by set_solver. destruct (gate_queue _ _ _ _ Hr) as [r Hq].
  pose proof (kept_finish _ _ _ _ _ _ _ (gate_world _ _ _ _ Hr) Hq Hpo Hsame) as Hk.
  erewrite (deliver_one tell w w' (completion ec po) cl j c); [|by rewrite (trace_same _ _ Hsame), trace_finish|done|].
  2: { intros i d Hne Hi. exact (heard_other _ _ _ _ _ _ _ _ _ _ _ Hr Hl Hpo Hs Hi Hne). }
  rewrite heard_served by done.
  assert (holds c = 0 ∧ weight (served ec c) < weight c ∧ waits (served ec c) = false ∧
    holds (served ec c) = if decide (ec = no_error) then 1 else 0) as (H0 & Hw & Hw' & Hh).
  { pose proof (Hset _ _ Hj) as Hsj. destruct c as [[]|[]|[]]; try done; simpl in *.
    - destruct Hs as [g E]. rewrite E in Hec. simpl in Hec. rewrite Hsj in Hec.
      destruct Hec as [->|[[? ?] _]]; [|done]. rewrite decide_True by done. split_and!; [done|lia|done..].
    - subst po. simpl in Hec. destruct Hec as [->|[[? ?] _]]; [|done]. rewrite decide_True by done. split_and!; [done|lia|done..].
    - split_and!; [done|lia|done|]. by destruct Hec as [->|[_ ->]]. }
  pose proof (total_insert holds cl j c (served ec c) Hj) as Th. pose proof (total_insert weight cl j c (served ec c) Hj) as Tw.
  assert (settled m w' j (served ec c)) as Hsj.
  { pose proof (settled_kept m m w w' j c (reflexivity _) Hk (Hset _ _ Hj)) as Hsj.
    destruct c as [[]|[]|[]]; try done. simpl in *. subst po. destruct Hsj as (? & ? & _). split_and!; [done..|].
    destruct Hsame as [N ->]. destruct Hec as [->|[[? ?] _]]; [|done]. apply lookup_insert_eq. }
  split; [|simpl; lia]. split; simpl.
  - exists L', (q1 ++ q2). split; [done|]. by apply Hrem.
  - case_decide; lia.
  - intros i d. destruct (decide (i = j)) as [->|Hne].
    + rewrite list_lookup_insert_eq by (by eapply lookup_lt_Some). by intros [= <-].
    + rewrite list_lookup_insert_ne by done. intros Hi. eapply settled_kept; [reflexivity|done|by apply Hset].
Qed.

(** ** The calls of the gate, made by a party *)

(** The call [r] takes the party [i] to [c]. *)
Definition moves (s : machine St) cl i (c : party) (s' : machine St) : Prop :=
  better cl (s', hear (wld s) (wld s') (<[i := c]> cl)).

(** A step without a call. *)
Lemma moves_alone s cl i c c' :
  parties_ok (s, cl) → cl !! i = Some c → waits c = false → waits c' = false → weight c' < weight c →
  holds c' = holds c → (∀ m w, settled m w i c → settled m w i c') → moves s cl i c' s.
Proof.
  intros Hok Hi Hc Hc' Hlt Hh Hset. destruct s as [m w]. pose proof (po_rep _ Hok) as (L & q & Hr & Hl).
  unfold moves. rewrite deliver_none by done.
  eapply better_kept; [done|done|exact Hr|by eapply lined_same|done|lia|apply Hset, (po_settled _ Hok _ _ Hi)|done|].
  by apply kept_same.
Qed.

Lemma wp_try_moves s cl i c (k : bool → party) :
  parties_ok (s, cl) → cl !! i = Some c → waits c = false → holds c = 0 →
  (∀ b, waits (k b) = false ∧ weight (k b) < weight c ∧ holds (k b) = if b then 1 else 0) →
  (∀ b m w, settled m w i c → settled m w i (k b)) →
  wp gate_try s (λ r s', ∃ b, r = Ok b ∧ moves s cl i (k b) s').
Proof.
  intros Hok Hi Hc Hh Hk Hset. destruct s as [m w]. pose proof (po_rep _ Hok) as (L & q & Hr & Hl).
  eapply wp_mono; [by eapply wp_gate_try|]. intros r s' (m' & -> & Hr' & H).
  exists (negb (bool_decide (gate_free m = 0%Z))). pose proof (po_settled _ Hok _ _ Hi) as Hsi.
  destruct (Hk (negb (bool_decide (gate_free m = 0%Z)))) as (Hw & Hlt & Hh').
  unfold moves. case_decide as Hz; [rewrite (bool_decide_eq_true_2 _ Hz) in *|rewrite (bool_decide_eq_false_2 _ Hz) in *];
    simpl in *; destruct H as [-> H]; (split; [done|]); rewrite deliver_none by done.
  - subst m'. eapply better_kept; [done|done|exact Hr'|by eapply lined_same|done|lia|by apply Hset|done|by apply kept_same].
  - destruct H as [Hf Hm]. eapply better_kept; [done|done|exact Hr'|by eapply lined_same|done|lia| |done|by apply kept_same].
    eapply settled_kept; [exact Hm|by apply kept_same|by apply Hset].
Qed.

(** What a party hears when its handler is dispatched at once. *)
Definition by_handler c : bool := match c with coroutine (Waiting _) | guarded gs_waiting => true | _ => false end.
Lemma heard_dispatch i c g : by_handler c = true → heard tell [ev_dispatch g (hnd i) no_error] i c = served no_error c.
Proof. destruct c as [[]|[]|[]]; try done; intros _; simpl; by rewrite decide_True. Qed.
Lemma heard_dispatch_other i j d g : j ≠ i → heard tell [ev_dispatch g (hnd i) no_error] j d = d.
Proof.
  intros Hne. assert (hnd j ≠ hnd i) as Hh by (by intros ?%(inj (λ i, hnd i))).
  destruct d; simpl; by rewrite ?decide_False.
Qed.
Lemma served_handler c m w i : by_handler c = true →
  waits c = true ∧ holds c = 0 ∧ waits (served no_error c) = false ∧ holds (served no_error c) = 1 ∧
  weight (served no_error c) < weight c ∧ (∀ po, (∃ g, po.2 = basic_op_model g (hnd i)) → stands i c po) ∧
  (settled m w i c → settled m w i (served no_error c)).
Proof. destruct c as [[]|[]|[]]; try done; intros _; simpl; split_and!; by try lia. Qed.

Lemma wp_async_moves s cl i c c' :
  parties_ok (s, cl) → cl !! i = Some c → waits c = false → holds c = 0 → weight c' < weight c →
  by_handler c' = true → (∀ m w, settled m w i c → settled m w i c') →
  wp (gate_async exec (hnd i)) s (λ r s', r = Ok tt ∧ moves s cl i c' s').
Proof.
  intros Hok Hi Hc Hh Hlt Hby Hset. destruct s as [m w].
  pose proof (po_rep _ Hok) as (L & q & Hr & Hl). pose proof (po_settled _ Hok _ _ Hi) as Hsi.
  eapply wp_mono; [eapply wp_gate_async; [exact Hr|apply memory]|]. intros r s' [-> H]. split; [done|]. unfold moves.
  destruct (served_handler c' m w i Hby) as (Hw & Hh' & Hw2 & Hh2 & Hlt2 & Hst & Hset2). case_decide as Hz.
  - destruct H as (w' & p & g & -> & Hp & Hsame & _ & L' & Hr'). cbn [wld].
    pose proof (kept_enqueued _ _ _ _ Hp Hsame) as Hk.
    rewrite deliver_none by (rewrite (trace_same _ _ Hsame); done).
    eapply better_kept; [done|done|exact Hr'|eapply lined_queue; [done..|apply Hst; by eexists]|done|lia| |done|done].
    eapply settled_kept; [reflexivity|done|by apply Hset].
  - destruct H as (m' & g & w' & -> & -> & [Hf Hm] & Hr'). cbn [wld].
    erewrite (deliver_one tell _ _ [ev_dispatch g (hnd i) no_error] _ i c');
      [|done|by rewrite list_lookup_insert_eq by (by eapply lookup_lt_Some)|intros; by apply heard_dispatch_other].
    rewrite heard_dispatch, list_insert_insert_eq by done.
    eapply better_kept; [done|done|exact Hr'|by eapply lined_same|lia|lia| |done|by split].
    eapply settled_kept; [exact Hm|by split|by apply Hset2, Hset].
Qed.

Lemma wp_give_moves s cl i c c' :
  parties_ok (s, cl) → cl !! i = Some c → waits c = false → holds c = 1 → weight c' < weight c →
  waits c' = false → holds c' = 0 → (∀ m w, settled m w i c → settled m w i c') →
  wp gate_give s (λ r s', r = Ok tt ∧ moves s cl i c' s').
Proof.
  intros Hok Hi Hc Hh Hlt Hw Hh' Hset. destruct s as [m w].
  pose proof (po_rep _ Hok) as (L & q & Hr & Hl). pose proof (po_settled _ Hok _ _ Hi) as Hsi.
  pose proof (po_places _ Hok) as Ho. pose proof (total_le holds cl i c Hi) as Hge. cbn [fst snd obj wld] in *.
  eapply wp_mono; [eapply wp_gate_give; [exact Hr|lia]|]. intros r s' [-> H]. split; [done|]. unfold moves.
  destruct q as [|po q].
  - destruct H as (m' & -> & Hr' & Hf & Hm). rewrite deliver_none by done.
    eapply better_kept; [done|done|exact Hr'|by eapply lined_same|done|lia| |done|by apply kept_same].
    eapply settled_kept; [exact Hm|by apply kept_same|by apply Hset].
  - destruct H as (w' & -> & Hcomp). cbn [wld].
    pose proof (total_insert holds cl i c c' Hi). pose proof (total_insert weight cl i c c' Hi).
    destruct (better_completed L m [] po q no_error w w' (<[i := c']> cl)) as [Hok' Hlt']; try done.
    + by eapply lined_same.
    + intros j d. destruct (decide (j = i)) as [->|Hne].
      * rewrite list_lookup_insert_eq by (by eapply lookup_lt_Some). intros [= <-]. by apply Hset.
      * rewrite list_lookup_insert_ne by done. apply (po_settled _ Hok).
    + by left.
    + rewrite decide_True by done. lia.
    + split; [done|]. simpl in *. lia.
Qed.

(** A thread blocks in [lock], or passes. *)
Lemma wp_block_moves s cl i n :
  parties_ok (s, cl) → cl !! i = Some (on_thread (th_ready (S n))) →
  wp (gate_block (ecv i)) s (λ r s', ∃ b, r = Ok b ∧
    moves s cl i (on_thread match b with Returned => th_owner n | Blocked p => th_asleep n p end) s').
Proof.
  intros Hok Hi. destruct s as [m w]. pose proof (po_rep _ Hok) as (L & q & Hr & Hl).
  pose proof (po_settled _ Hok _ _ Hi) as (Hen & He & _). cbn [fst snd obj wld] in *.
  eapply wp_mono; [by eapply wp_gate_block|]. intros r s' H. unfold moves. case_decide as Hz.
  - destruct H as (w' & p & -> & -> & Hp & Hsame & _ & L' & Hr'). exists (Blocked p). split; [done|]. cbn [wld].
    pose proof (kept_enqueued _ _ _ _ Hp Hsame) as Hk.
    rewrite deliver_none by (rewrite (trace_same _ _ Hsame); done).
    eapply better_kept; [done|done|exact Hr'|by eapply lined_queue|simpl; lia|simpl; lia| |done|done].
    split_and!; [done|by apply Hk|done].
  - destruct H as (m' & w' & -> & -> & Hsame & [Hf Hm] & Hr'). exists Returned. split; [done|]. cbn [wld].
    pose proof (kept_same _ _ Hsame) as Hk. rewrite deliver_none by (by rewrite (trace_same _ _ Hsame)).
    eapply better_kept; [done|done|exact Hr'|by eapply lined_same|simpl; lia|simpl; lia| |done|done].
    split_and!; [by rewrite (same_member_mtx _ _ Hm)|by apply Hk|done].
Qed.

(** A thread that was woken passes. *)
Lemma wp_wake_moves s cl i n p :
  parties_ok (s, cl) → cl !! i = Some (on_thread (th_awake n p)) →
  wp (gate_wake p) s (λ r s', r = Ok true ∧ moves s cl i (on_thread (th_owner n)) s').
Proof.
  intros Hok Hi. destruct s as [m w]. pose proof (po_rep _ Hok) as (L & q & Hr & Hl).
  pose proof (po_settled _ Hok _ _ Hi) as (Hen & He & Hp). cbn [fst snd obj wld] in *.
  eapply wp_mono; [by eapply wp_gate_wake|]. intros r s' (w' & -> & -> & Hsame & Hr'). split; [done|].
  unfold moves. cbn [wld]. rewrite deliver_none by (by rewrite (trace_same _ _ Hsame)). destruct Hsame as [N ->].
  eapply better_one; [done|done|exact Hr'|by eapply lined_same|simpl; lia|done|done|].
  intros j d Hne Hj. pose proof (po_settled _ Hok _ _ Hj) as Hs. destruct d as [|[]|]; try done; simpl in *.
  destruct Hs as (? & ? & Hp'). split_and!; [done..|]. rewrite lookup_delete_ne; [done|].
  intros ->. rewrite Hp in Hp'. injection Hp' as E%(inj ecv). congruence.
Qed.

(** ** The calls of the parties *)

Definition goes_on c : bool := negb (waits c || finished c).

Lemma wp_client_call s cl i (c : client) :
  parties_ok (s, cl) → cl !! i = Some (coroutine c) → goes_on (coroutine c) = true →
  wp (client_call (hnd i) c) s (λ r s', ∃ c' : client, r = Ok c' ∧ moves s cl i (coroutine c') s').
Proof.
  intros Hok Hi Hc. destruct c as [[|n]|n|n|n|n|]; try done; cbn [client_call coroutine_mutex gate_bench bm_try_lock bm_async_lock bm_unlock].
  - apply wp_ret. eexists. split; [done|]. eapply moves_alone; try done. simpl. lia.
  - apply wp_bind. eapply wp_mono; [apply (wp_try_moves s cl i _ (λ b, coroutine (if b then Owner n else Locking n)) Hok Hi); try done|].
    + intros []; simpl; split_and!; by try lia.
    + intros r s' (b & -> & H). apply wp_ret. by eexists.
  - apply wp_bind. eapply wp_mono; [apply (wp_async_moves s cl i _ (coroutine (Waiting n)) Hok Hi); try done; simpl; lia|].
    intros r s' [-> H]. apply wp_ret. by eexists.
  - apply wp_ret. eexists. split; [done|]. eapply moves_alone; try done. simpl. lia.
  - apply wp_bind. eapply wp_mono; [apply (wp_give_moves s cl i _ (coroutine (Ready n)) Hok Hi); try done; simpl; lia|].
    intros r s' [-> H]. apply wp_ret. by eexists.
Qed.

Lemma wp_thread_call s cl i (c : thread) :
  parties_ok (s, cl) → cl !! i = Some (on_thread c) → goes_on (on_thread c) = true →
  wp (thread_call (ecv i) c) s (λ r s', ∃ c' : thread, r = Ok c' ∧ moves s cl i (on_thread c') s').
Proof.
  intros Hok Hi Hc. destruct c as [[|n]| |n p|n|]; try done; cbn [thread_call].
  - apply wp_ret. eexists. split; [done|]. eapply moves_alone; try done. simpl. lia.
  - apply wp_bind. eapply wp_mono; [by eapply wp_block_moves|]. intros r s' (b & -> & H). apply wp_ret. by eexists.
  - apply wp_bind. eapply wp_mono; [by eapply wp_wake_moves|]. intros r s' [-> H]. apply wp_ret. by eexists.
  - apply wp_bind. eapply wp_mono; [apply (wp_give_moves s cl i _ (on_thread (th_ready n)) Hok Hi); try done; simpl; lia|].
    intros r s' [-> H]. apply wp_ret. by eexists.
Qed.

Lemma wp_guarded_call s cl i cancelled (c : guarded_op) :
  parties_ok (s, cl) → cl !! i = Some (guarded c) → goes_on (guarded c) = true →
  wp (guarded_call tag t exec (self i) (args i) cancelled c) s (λ r s', ∃ c' : guarded_op, r = Ok c' ∧ moves s cl i (guarded c') s').
Proof.
  intros Hok Hi Hc. destruct c as [| | | |ec| |]; try done; cbn [guarded_call].
  - apply wp_ret. eexists. split; [done|]. destruct cancelled; (eapply moves_alone; try done; simpl; lia).
  - apply wp_bind. eapply wp_mono; [apply (wp_try_moves s cl i _ (λ b, guarded (if b then gs_running else gs_locking)) Hok Hi); try done|].
    + intros []; simpl; split_and!; by try lia.
    + intros r s' (b & -> & H). apply wp_ret. by eexists.
  - apply wp_bind. eapply wp_mono; [apply (wp_async_moves s cl i _ (guarded gs_waiting) Hok Hi); try done; simpl; lia|].
    intros r s' [-> H]. apply wp_ret. by eexists.
  - rewrite guard_acquired_eq. unfold ec_failed. case_bool_decide as Hec; apply wp_bind, wp_ret, wp_ret; eexists;
      (split; [done|]); (eapply moves_alone; try done; [simpl; lia|]).
    + by destruct ec.
    + by subst ec.
  - rewrite guard_done_eq. apply wp_bind, wp_bind.
    eapply wp_mono; [apply (wp_give_moves s cl i _ (guarded (gs_done true)) Hok Hi); try done; simpl; lia|].
    intros r s' [-> H]. apply wp_ret, wp_ret. by eexists.
Qed.

Lemma wp_party_call s cl i cancelled c :
  parties_ok (s, cl) → cl !! i = Some c → goes_on c = true →
  wp (party_call i cancelled c) s (λ r s', ∃ c', r = Ok c' ∧ moves s cl i c' s').
Proof.
  intros Hok Hi Hc. destruct c as [c|c|c]; apply wp_bind;
    (eapply wp_mono; [first [by apply wp_client_call|by apply wp_thread_call|by apply wp_guarded_call]|]);
    intros r s' (c' & -> & H); apply wp_ret; by eexists.
Qed.

(** ** Steps and runs *)

Lemma party_call_stops i cancelled c s : goes_on c = false → party_call i cancelled c s = None.
Proof. by destruct c as [[[]| | | | |]|[[]| | | |]|[]]. Qed.

Lemma party_step_better x y : parties_ok x → party_step x y → better x.2 y.
Proof.
  intros Hok Hst. destruct Hst as [i cancelled c c' s s' cl Hi Hex|n p s s' cl Hn Hex].
  - destruct (goes_on c) eqn:Hc; [|by rewrite party_call_stops in Hex].
    pose proof (wp_party_call _ _ _ cancelled _ Hok Hi Hc) as Hwp. unfold wp in Hwp. rewrite Hex in Hwp.
    by destruct Hwp as (c2 & [= <-] & Hb).
  - destruct s as [m w]. pose proof (po_rep _ Hok) as (L & q & Hr & Hl). pose proof (po_places _ Hok) as Ho.
    cbn [fst snd obj wld] in *. pose proof (wp_gate_emit _ _ _ _ _ _ Hr Hn) as Hwp. unfold wp in Hwp. rewrite Hex in Hwp.
    destruct Hwp as (w' & q1 & o & q2 & _ & -> & -> & Hcomp). cbn [wld].
    eapply (better_completed L m q1 (p, o) q2 operation_aborted); [done|done|done| | |].
    + intros i c. apply (po_settled _ Hok).
    + right. split; [|done]. destruct (wo_slots _ _ (gate_world _ _ _ _ Hr) _ _ Hn) as (o' & Ho' & Hs & _). simpl in *.
      destruct (gate_queue _ _ _ _ Hr) as [r Hq]. rewrite (queue_member _ _ _ _ p o Hq) in Ho' by set_solver.
      injection Ho' as <-. by exists n.
    + rewrite decide_False by done. lia.
Qed.

(** As long as a party is not done somebody can go on. *)
Lemma party_goes_on_exists s cl i c :
  (0 < places)%Z → parties_ok (s, cl) → cl !! i = Some c → finished c = false →
  ∃ j d, cl !! j = Some d ∧ goes_on d = true.
Proof.
  intros Hpos Hok Hi Hf. destruct (waits c) eqn:Hc; [|exists i, c; split; [done|]; unfold goes_on; by rewrite Hc, Hf].
  pose proof (po_rep _ Hok) as (L & q & Hr & Hl). pose proof (po_places _ Hok) as Ho. cbn [fst snd] in *.
  destruct q as [|po q]; [by rewrite (lined_nil _ _ _ _ _ Hl Hi) in Hc|].
  rewrite (gate_busy _ _ _ _ Hr ltac:(done)) in Ho. destruct (total_pos holds cl ltac:(lia)) as (k & ck & Hk & Hp).
  exists k, ck. split; [done|]. by destruct ck as [[]|[]|[]]; simpl in Hp; try lia.
Qed.
Lemma party_step_exists s cl i c :
  (0 < places)%Z → parties_ok (s, cl) → cl !! i = Some c → finished c = false → ∃ y, party_step (s, cl) y.
Proof.
  intros Hpos Hok Hi Hf. destruct (party_goes_on_exists s cl i c Hpos Hok Hi Hf) as (j & d & Hj & Hd).
  pose proof (wp_party_call _ _ _ false _ Hok Hj Hd) as (r & s' & Hex & c2 & -> & _)%wp_run.
  eexists. by eapply pst_call.
Qed.

Lemma party_steps_length k x y : nsteps party_step k x y → length y.2 = length x.2.
Proof.
  induction 1 as [|k x y z Hxy _ IH]; [done|]. rewrite IH.
  destruct Hxy; simpl; by rewrite length_deliver, ?length_insert.
Qed.

Lemma parties_ok_start L m w cl :
  gate_rep L m w [] → gate_free m = places → forallb fresh_party cl = true →
  (∀ i c, cl !! i = Some c → settled m w i c) → parties_ok (Machine m w, cl).
Proof.
  intros Hr Hp Hf Hs. assert (∀ c, c ∈ cl → fresh_party c = true) as Hfr.
  { intros c Hc. rewrite forallb_forall in Hf. by apply Hf, list_elem_of_In. }
  split; [exists L, []; split; [exact Hr|]| |exact Hs]; simpl.
  - apply lined_start. intros c Hc%Hfr. by destruct c as [[]|[]|[]].
  - rewrite total_zero; [lia|]. intros c Hc%Hfr. by destruct c as [[]|[]|[]].
Qed.

Lemma inside_holds c : inside c ≤ holds c.
Proof. destruct c as [[]|[]|[]]; simpl; lia. Qed.

(** The whole of it, for any gate with a free place. *)
Lemma parties_finish L m w k s cl0 cl :
  gate_rep L m w [] → gate_free m = places → (0 < places)%Z → forallb fresh_party cl0 = true →
  (∀ i c, cl0 !! i = Some c → settled m w i c) → nsteps party_step k (Machine m w, cl0) (s, cl) →
  length cl = length cl0 ∧ (Z.of_nat (total inside cl) ≤ places)%Z ∧ k ≤ total weight cl0 ∧
  ((∀ y, ¬ party_step (s, cl) y) → forallb finished cl = true ∧ gate_free (obj s) = places).
Proof.
  intros Hr Hp Hpos Hf Hs Hst.
  destruct (nsteps_shrink party_step parties_ok (λ x, total weight x.2) k _ _ party_step_better
    (parties_ok_start L m w cl0 Hr Hp Hf Hs) Hst) as [Hok Hle].
  pose proof (po_rep _ Hok) as (L' & q & Hr' & Hl). pose proof (po_places _ Hok) as Ho.
  pose proof (gate_bounds _ _ _ _ Hr'). cbn [fst snd] in *. split_and!; [by eapply party_steps_length in Hst| |lia|].
  - pose proof (total_le_pointwise inside holds cl inside_holds). lia.
  - intros Hstuck. assert (∀ i c, cl !! i = Some c → finished c = true) as Hfin.
    { intros i c Hi. destruct (finished c) eqn:E; [done|].
      destruct (party_step_exists s cl i c Hpos Hok Hi E) as [y Hy]. by destruct (Hstuck y). }
    split.
    + apply forallb_forall. intros c (i & Hi)%list_elem_of_In%list_elem_of_lookup. by apply (Hfin i).
    + rewrite (total_zero holds) in Ho; [lia|]. intros c (i & Hi)%list_elem_of_lookup.
      specialize (Hfin i c Hi). by destruct c as [[]|[]|[]].
Qed.
End system.

(** ** The properties *)

Section mutex_property.
Import Mutex.
Context {ASIO : Asio} `{!EqDecision handler}.

(** C10: everybody gets the mutex and everything ends. Let any number of
    parties share a mutex: coroutines of the benchmark, threads that call
    [lock(ec)], and guarded operations, which may be cancelled. Whatever order
    their calls come in and whenever posted handlers run, at most one of them is
    between its lock and its unlock, at most [5 * n + 1] steps are made for a
    coroutine of [n] rounds, [4 * n + 1] for a thread of [n] rounds and 6 for a
    guarded operation, and a state in which nothing can happen any more is one in
    which every party is done and the mutex is free. *)
Theorem mutex_clients_finish tag {op_result : Type} t exec self ecv (args : nat → op_result) L m w k s cl0 cl :
  Inj (=) (=) (λ i, tag (self i)) → Inj (=) (=) ecv → (∀ i X, allocate (tag (self i)) X ≠ None) →
  mutex_rep L m w [] → locked_ m = false → forallb fresh_party cl0 = true →
  (∀ i c, cl0 !! i = Some c → settled tag self ecv m w i c) →
  nsteps (party_step tag t exec self ecv args) k (Machine m w, cl0) (s, cl) →
  length cl = length cl0 ∧
  (∀ i j a b, cl !! i = Some a → cl !! j = Some b → inside a = 1 → inside b = 1 → i = j) ∧
  k ≤ total weight cl0 ∧
  ((∀ y, ¬ party_step tag t exec self ecv args (s, cl) y) →
    forallb finished cl = true ∧ locked_ (obj s) = false).
Proof.
  intros Hinj Hecv Hmem Hr Hl Hf Hs Hst.
  assert (1 ≤ gate_capacity (St := mutex_impl))%Z as Hc by done.
  destruct (parties_finish tag t exec self ecv args 1 Hmem Hc L m w k s cl0 cl Hr) as (H1 & H2 & H3 & H4);
    try done; [by simpl; rewrite Hl|].
  split_and!; [done| |done|].
  - intros i j a b Hi Hj Ha Hb. destruct (decide (i = j)) as [|Hne]; [done|].
    pose proof (total_two inside cl i j _ _ Hi Hj Hne). lia.
  - intros [Hfin Hfree]%H4. split; [done|]. simpl in Hfree. by destruct (locked_ (obj s)).
Qed.

End mutex_property.

Section semaphore_property.
Import Semaphore.
Context {ASIO : Asio} `{!EqDecision handler}.

(** C17: everybody gets a permit and everything ends. Let any number of
    coroutines of the benchmark, threads that call [acquire(ec)] and guarded
    operations, which may be cancelled, share a semaphore with at least one
    permit. In whatever order their calls come, at most as many parties as there
    are permits are inside at a time, the number of steps is bounded, and in a
    state in which nothing can happen any more every party is done, every guarded
    operation has completed once, and the semaphore has all its permits back. *)
Theorem guarded_all_complete tag {op_result : Type} t exec self ecv (args : nat → op_result) L m w k s cl0 cl :
  Inj (=) (=) (λ i, tag (self i)) → Inj (=) (=) ecv → (∀ i X, allocate (tag (self i)) X ≠ None) →
  semaphore_rep L m w [] → (0 < count_ m)%Z → forallb fresh_party cl0 = true →
  (∀ i c, cl0 !! i = Some c → settled tag self ecv m w i c) →
  nsteps (party_step tag t exec self ecv args) k (Machine m w, cl0) (s, cl) →
  length cl = length cl0 ∧ (Z.of_nat (total inside cl) ≤ count_ m)%Z ∧ k ≤ total weight cl0 ∧
  ((∀ y, ¬ party_step tag t exec self ecv args (s, cl) y) →
    forallb finished cl = true ∧ count_ (obj s) = count_ m).
Proof.
  intros Hinj Hecv Hmem Hr Hpos Hf Hs Hst.
  assert (count_ m ≤ gate_capacity (St := semaphore_impl))%Z as Hc by apply (sr_count _ _ _ _ Hr).
  by apply (parties_finish tag t exec self ecv args (count_ m) Hmem Hc L m w k s cl0 cl Hr).
Qed.
End semaphore_property.

(** ** At work *)

Section witnesses.
#[local] Existing Instance test_asio.

Definition demo_self (i : nat) : nat := match i with 1 => 0 | _ => 14 + i end.
Definition demo_ecv (i : nat) : addr := Pos.of_succ_nat i.

Lemma demo_self_inj : Inj (=) (=) (λ i, id (demo_self i)).
Proof. intros [|[|i]] [|[|j]]; simpl; lia. Qed.
Lemma demo_ecv_inj : Inj (=) (=) demo_ecv.
Proof. intros i j. unfold demo_ecv. lia. Qed.
Lemma demo_memory i X : allocate (Asio := test_asio) (id (demo_self i)) X ≠ None.
Proof. by destruct i as [|[|i]]. Qed.

(** A thread, a coroutine and a guarded operation. The coroutine gets the mutex,
    the thread blocks, the guarded operation waits and is cancelled. *)
Definition demo_parties : list party := [on_thread (th_ready 1); coroutine (Ready 1); guarded gs_new].
Definition demo_start : machine Mutex.mutex_impl * list party :=
  (Machine (obj (Mutex.demo_mutex true)) (wld (Mutex.demo_mutex true)), demo_parties).
Definition demo_turns : list turn :=
  [t_call 1 false; t_call 0 false; t_call 2 false; t_call 2 false; t_call 2 false; t_call 1 false; t_call 1 false;
   t_call 0 false; t_cancel 16; t_call 2 false; t_call 0 false; t_call 0 false].
Import Mutex.
Definition demo_step : relation (machine mutex_impl * list party) :=
  party_step (ASIO := test_asio) id (op_result := unit) Err_error_code 0 demo_self demo_ecv (λ _, tt).
Definition demo_end : machine mutex_impl * list party :=
  default demo_start (play (take_turn (ASIO := test_asio) id (op_result := unit) Err_error_code 0 demo_self demo_ecv (λ _, tt)) demo_turns demo_start).

Lemma demo_steps : nsteps demo_step 12 demo_start (demo_end.1, demo_end.2).
Proof.
  eapply (play_nsteps demo_step _ demo_turns); [apply take_turn_step|]. vm_compute. reflexivity.
Qed.
Example demo_outcome : demo_end.2 = [on_thread th_done; coroutine Done; guarded (gs_done false)].
Proof. vm_compute. reflexivity. Qed.

Lemma mutex_clients_finish_witness :
  length demo_end.2 = 3 ∧
  (∀ i j a b, demo_end.2 !! i = Some a → demo_end.2 !! j = Some b → inside a = 1 → inside b = 1 → i = j) ∧
  12 ≤ 17 ∧
  ((∀ y, ¬ demo_step (demo_end.1, demo_end.2) y) → forallb finished demo_end.2 = true ∧ locked_ (obj demo_end.1) = false).
Proof.
  apply (mutex_clients_finish (ASIO := test_asio) id Err_error_code 0 demo_self demo_ecv (λ _, tt) demo_mutex_lists
    (obj (demo_mutex true)) (wld (demo_mutex true)) 12 demo_end.1 demo_parties demo_end.2).
  - exact demo_self_inj.
  - exact demo_ecv_inj.
  - exact demo_memory.
  - apply demo_mutex_rep.
  - vm_compute. reflexivity.
  - reflexivity.
  - intros [|[|[|i]]] c; intros [= <-]; vm_compute; try done. split_and!; [done|by eexists|done].
  - exact demo_steps.
Defined.
End witnesses.

Section semaphore_witness.
Import Semaphore.
#[local] Existing Instance test_asio.

(** One permit, and two guarded operations behind a thread. *)
Definition demo_parties2 : list party := [on_thread (th_ready 1); coroutine (Ready 0); guarded gs_new; guarded gs_new].
Definition demo_start2 : machine semaphore_impl * list party :=
  (Machine (obj (demo_semaphore true)) (wld (demo_semaphore true)), demo_parties2).
Definition demo_turns2 : list turn :=
  [t_call 2 false; t_call 2 false; t_call 0 false; t_call 3 false; t_call 3 false; t_call 3 false; t_call 2 false;
   t_call 0 false; t_call 0 false; t_call 3 false; t_call 3 false; t_call 0 false; t_call 1 false].
Definition demo_step2 : relation (machine semaphore_impl * list party) :=
  party_step (ASIO := test_asio) id (op_result := unit) Err_error_code 0 demo_self demo_ecv (λ _, tt).
Definition demo_end2 : machine semaphore_impl * list party :=
  default demo_start2 (play (take_turn (ASIO := test_asio) id (op_result := unit) Err_error_code 0 demo_self demo_ecv (λ _, tt)) demo_turns2 demo_start2).

Lemma demo_steps2 : nsteps demo_step2 13 demo_start2 (demo_end2.1, demo_end2.2).
Proof.
  eapply (play_nsteps demo_step2 _ demo_turns2); [apply take_turn_step|]. vm_compute. reflexivity.
Qed.
Example demo_outcome2 :
  demo_end2.2 = [on_thread th_done; coroutine Done; guarded (gs_done true); guarded (gs_done true)].
Proof. vm_compute. reflexivity. Qed.

Lemma guarded_all_complete_witness :
  length demo_end2.2 = 4 ∧ (Z.of_nat (total inside demo_end2.2) ≤ 1)%Z ∧ 13 ≤ 18 ∧
  ((∀ y, ¬ demo_step2 (demo_end2.1, demo_end2.2) y) →
    forallb finished demo_end2.2 = true ∧ count_ (obj demo_end2.1) = count_ (obj (demo_semaphore true))).
Proof.
  apply (guarded_all_complete (ASIO := test_asio) id Err_error_code 0 demo_self demo_ecv (λ _, tt) demo_semaphore_lists
    (obj (demo_semaphore true)) (wld (demo_semaphore true)) 13 demo_end2.1 demo_parties2 demo_end2.2).
  - exact demo_self_inj.
  - exact demo_ecv_inj.
  - exact demo_memory.
  - apply demo_semaphore_rep.
  - vm_compute. reflexivity.
  - reflexivity.
  - intros [|[|[|[|i]]]] c; intros [= <-]; vm_compute; try done. split_and!; [done|by eexists|done].
  - exact demo_steps2.
Defined.
End semaphore_witness.
