(* ===== verification/Basic.v ===== *)
(** * The public classes

    [basic_mutex], [basic_shared_mutex], [basic_semaphore], [basic_barrier] and
    [basic_condition_variable]: an executor and an implementation object. Their
    member functions hand on to the implementation; what they add is where the
    implementation's context comes from, the executor of asynchronous calls, the
    throwing overloads, and the conversions from a class with another executor
    type. The machine of these functions holds the public object; two-object
    functions take the objects and return them. *)
From S2P Require Import Prelude Machine Bilist Ops Service Impl.
From S2P Require Mutex Semaphore Barrier CondVar SharedMutex LockGuard Guarded.

(** What the classes ask of asio's contexts: [net::query(exec, context)] with
    [use_service<op_list_service>] gives a service, [ctx.get_executor()] an
    executor; [context_config] is the scheduler configuration. *)
Class Contexts `{Asio} := {
  query_context : executor → addr;
  context_executor : addr → executor;
  context_config : addr → Z → Z
}.

Section code.
Context {ASIO : Asio} {CTX : Contexts}.

Record basic_object (I : Type) := BasicObject { exec_ : executor; impl_ : I }.
Global Arguments BasicObject {_} _ _.
Global Arguments exec_ {_} _.
Global Arguments impl_ {_} _.

(** A call on [impl_]. *)
Definition on_impl {I A} (x : M I A) : M (basic_object I) A := λ s,
  match x (Machine (impl_ (obj s)) (wld s)) with
  | Some (r, s') => Some (r, Machine (BasicObject (exec_ (obj s)) (obj s')) (wld s'))
  | None => None
  end.

Definition get_executor {I} : M (basic_object I) executor := b ← get_obj; mret (exec_ b).

(** ** [basic_mutex] *)

Definition basic_mutex := basic_object Mutex.mutex_impl.

(** From an executor and from a context. *)
Definition basic_mutex_ctor {St} (this waiters : addr) (exec : executor) (hint : Z) : M St basic_mutex :=
  let ctx := query_context exec in
  i ← Mutex.mutex_impl_ctor this waiters ctx (context_config ctx) hint;
  mret (BasicObject exec i).
Definition basic_mutex_ctor_context {St} (this waiters ctx : addr) (hint : Z) : M St basic_mutex :=
  i ← Mutex.mutex_impl_ctor this waiters ctx (context_config ctx) hint;
  mret (BasicObject (context_executor ctx) i).

(** [basic_mutex(basic_mutex<Executor_> &&sem)]; [convert] is the conversion of
    executors. The new object and the new [sem]. *)
Definition basic_mutex_rebind {St} (convert : executor → executor) (this waiters : addr) (sem : basic_mutex) :
    M St (basic_mutex * basic_mutex) :=
  let e := convert (exec_ sem) in
  r ← Mutex.mutex_impl_move_ctor this waiters (impl_ sem);
  mret (BasicObject e r.1, BasicObject (exec_ sem) r.2).

(** The defaulted assignment. (The one from another executor type calls
    [std::swap] on two executors of different types, which no program can
    instantiate.) *)
Definition basic_mutex_move_assign {St} (self sem : basic_mutex) : M St (basic_mutex * basic_mutex) :=
  r ← Mutex.mutex_impl_move_assign (impl_ self) (impl_ sem);
  mret (BasicObject (exec_ sem) r.1, BasicObject (exec_ sem) r.2).

Definition basic_mutex_lock (ec : addr) : M basic_mutex sync_result := on_impl (Mutex.lock ec).
Definition basic_mutex_lock_throwing : M basic_mutex sync_result := on_impl Mutex.lock_throwing.
Definition basic_mutex_unlock : M basic_mutex unit := on_impl Mutex.unlock.
Definition basic_mutex_try_lock : M basic_mutex bool := on_impl Mutex.try_lock.
Definition basic_mutex_async_lock (h : handler) : M basic_mutex unit :=
  e ← get_executor; on_impl (Mutex.async_lock e h).

(** ** [basic_shared_mutex] *)

Definition basic_shared_mutex := basic_object SharedMutex.shared_mutex_impl.

Definition basic_shared_mutex_ctor {St} (this waiters shared_waiters : addr) (exec : executor) (hint : Z) :
    M St basic_shared_mutex :=
  let ctx := query_context exec in
  i ← SharedMutex.shared_mutex_impl_ctor this waiters shared_waiters ctx (context_config ctx) hint;
  mret (BasicObject exec i).
Definition basic_shared_mutex_ctor_context {St} (this waiters shared_waiters ctx : addr) (hint : Z) :
    M St basic_shared_mutex :=
  i ← SharedMutex.shared_mutex_impl_ctor this waiters shared_waiters ctx (context_config ctx) hint;
  mret (BasicObject (context_executor ctx) i).
Definition basic_shared_mutex_rebind {St} (convert : executor → executor) (this waiters shared_waiters : addr)
    (sem : basic_shared_mutex) : M St (basic_shared_mutex * basic_shared_mutex) :=
  let e := convert (exec_ sem) in
  r ← SharedMutex.shared_mutex_impl_move_ctor this waiters shared_waiters (impl_ sem);
  mret (BasicObject e r.1, BasicObject (exec_ sem) r.2).
Definition basic_shared_mutex_move_assign {St} (self sem : basic_shared_mutex) :
    M St (basic_shared_mutex * basic_shared_mutex) :=
  r ← SharedMutex.shared_mutex_impl_move_assign (impl_ self) (impl_ sem);
  mret (BasicObject (exec_ sem) r.1, BasicObject (exec_ sem) r.2).

Definition basic_shared_mutex_lock (ec : addr) : M basic_shared_mutex sync_result := on_impl (SharedMutex.lock ec).
Definition basic_shared_mutex_lock_throwing : M basic_shared_mutex sync_result :=
  on_impl LockGuard.shared_lock_throwing.
Definition basic_shared_mutex_unlock : M basic_shared_mutex unit := on_impl SharedMutex.unlock.
Definition basic_shared_mutex_try_lock : M basic_shared_mutex bool := on_impl SharedMutex.try_lock.
Definition basic_shared_mutex_lock_shared (ec : addr) : M basic_shared_mutex sync_result :=
  on_impl (SharedMutex.lock_shared ec).
Definition basic_shared_mutex_lock_shared_throwing : M basic_shared_mutex sync_result :=
  on_impl LockGuard.shared_lock_shared_throwing.
Definition basic_shared_mutex_unlock_shared : M basic_shared_mutex unit := on_impl SharedMutex.unlock_shared.
Definition basic_shared_mutex_try_lock_shared : M basic_shared_mutex bool := on_impl SharedMutex.try_lock_shared.
Definition basic_shared_mutex_async_lock (h : handler) : M basic_shared_mutex unit :=
  e ← get_executor; on_impl (SharedMutex.async_lock e h).
Definition basic_shared_mutex_async_lock_shared (h : handler) : M basic_shared_mutex unit :=
  e ← get_executor; on_impl (SharedMutex.async_lock_shared e h).

(** ** [basic_semaphore] *)

Definition basic_semaphore := basic_object Semaphore.semaphore_impl.

Definition basic_semaphore_ctor {St} (this waiters : addr) (exec : executor) (initial_count hint : Z) :
    M St basic_semaphore :=
  let ctx := query_context exec in
  i ← Semaphore.semaphore_impl_ctor this waiters ctx (context_config ctx) initial_count hint;
  mret (BasicObject exec i).
Definition basic_semaphore_ctor_context {St} (this waiters ctx : addr) (initial_count hint : Z) :
    M St basic_semaphore :=
  i ← Semaphore.semaphore_impl_ctor this waiters ctx (context_config ctx) initial_count hint;
  mret (BasicObject (context_executor ctx) i).
Definition basic_semaphore_rebind {St} (convert : executor → executor) (this waiters : addr) (sem : basic_semaphore) :
    M St (basic_semaphore * basic_semaphore) :=
  let e := convert (exec_ sem) in
  r ← Semaphore.semaphore_impl_move_ctor this waiters (impl_ sem);
  mret (BasicObject e r.1, BasicObject (exec_ sem) r.2).
(** The two assignments do the same, up to the conversion of the executor;
    [semaphore_impl::operator=] leaves its operand's members alone. *)
Definition basic_semaphore_move_assign (convert : executor → executor) (sem : basic_semaphore) :
    M basic_semaphore unit :=
  modify_obj (λ b, BasicObject (convert (exec_ sem)) (impl_ b));;
  on_impl (Semaphore.semaphore_impl_move_assign (impl_ sem)).

Definition basic_semaphore_acquire (ec : addr) : M basic_semaphore sync_result := on_impl (Semaphore.acquire ec).
Definition basic_semaphore_acquire_throwing : M basic_semaphore sync_result := on_impl Semaphore.acquire_throwing.
Definition basic_semaphore_try_acquire : M basic_semaphore bool := on_impl Semaphore.try_acquire.
Definition basic_semaphore_release : M basic_semaphore unit := on_impl Semaphore.release.
Definition basic_semaphore_value : M basic_semaphore Z := on_impl Semaphore.value.
Definition basic_semaphore_async_acquire (h : handler) : M basic_semaphore unit :=
  e ← get_executor; on_impl (Semaphore.async_acquire e h).

(** ** [basic_barrier] *)

Definition basic_barrier := basic_object Barrier.barrier_impl.

Definition basic_barrier_ctor {St} (this waiters : addr) (exec : executor) (init_count hint : Z) : M St basic_barrier :=
  let ctx := query_context exec in
  i ← Barrier.barrier_impl_ctor this waiters ctx (context_config ctx) init_count hint;
  mret (BasicObject exec i).
Definition basic_barrier_ctor_context {St} (this waiters ctx : addr) (init_count hint : Z) : M St basic_barrier :=
  i ← Barrier.barrier_impl_ctor this waiters ctx (context_config ctx) init_count hint;
  mret (BasicObject (context_executor ctx) i).
Definition basic_barrier_rebind {St} (convert : executor → executor) (this waiters : addr) (sem : basic_barrier) :
    M St (basic_barrier * basic_barrier) :=
  let e := convert (exec_ sem) in
  r ← Barrier.barrier_impl_move_ctor this waiters (impl_ sem);
  mret (BasicObject e r.1, BasicObject (exec_ sem) r.2).
Definition basic_barrier_move_assign {St} (convert : executor → executor) (self sem : basic_barrier) :
    M St (basic_barrier * basic_barrier) :=
  r ← Barrier.barrier_impl_move_assign (impl_ self) (impl_ sem);
  mret (BasicObject (convert (exec_ sem)) r.1, BasicObject (exec_ sem) r.2).

Definition basic_barrier_try_arrive : M basic_barrier bool := on_impl Barrier.try_arrive.
Definition basic_barrier_arrive (ec : addr) : M basic_barrier sync_result := on_impl (Barrier.arrive ec).
Definition basic_barrier_arrive_throwing : M basic_barrier sync_result := on_impl Barrier.arrive_throwing.
Definition basic_barrier_async_arrive (h : handler) : M basic_barrier unit :=
  e ← get_executor; on_impl (Barrier.async_arrive e h).

(** ** [basic_condition_variable] *)

Definition basic_condition_variable := basic_object CondVar.condition_variable_impl.

Definition basic_condition_variable_ctor {St} (this waiters : addr) (exec : executor) (hint : Z) :
    M St basic_condition_variable :=
  let ctx := query_context exec in
  i ← CondVar.condition_variable_impl_ctor this waiters ctx (context_config ctx) hint;
  mret (BasicObject exec i).
Definition basic_condition_variable_ctor_context {St} (this waiters ctx : addr) (hint : Z) :
    M St basic_condition_variable :=
  i ← CondVar.condition_variable_impl_ctor this waiters ctx (context_config ctx) hint;
  mret (BasicObject (context_executor ctx) i).
Definition basic_condition_variable_rebind {St} (convert : executor → executor) (this waiters : addr)
    (sem : basic_condition_variable) : M St (basic_condition_variable * basic_condition_variable) :=
  let e := convert (exec_ sem) in
  r ← CondVar.condition_variable_impl_move_ctor this waiters (impl_ sem);
  mret (BasicObject e r.1, BasicObject (exec_ sem) r.2).
Definition basic_condition_variable_move_assign {St} (convert : executor → executor)
    (self sem : basic_condition_variable) : M St (basic_condition_variable * basic_condition_variable) :=
  r ← CondVar.condition_variable_impl_move_assign (impl_ self) (impl_ sem);
  mret (BasicObject (convert (exec_ sem)) r.1, BasicObject (exec_ sem) r.2).

Definition basic_condition_variable_notify_one (value : predicate → bool) : M basic_condition_variable unit :=
  on_impl (CondVar.notify_one value).
Definition basic_condition_variable_notify_all (value : predicate → bool) : M basic_condition_variable unit :=
  on_impl (CondVar.notify_all value).
Definition basic_condition_variable_async_wait (h : handler) : M basic_condition_variable unit :=
  e ← get_executor; on_impl (CondVar.async_wait e h).
Definition basic_condition_variable_async_predicate_wait (pr : predicate) (h : handler) :
    M basic_condition_variable unit :=
  e ← get_executor; on_impl (CondVar.async_predicate_wait e pr h).

(** ** Composed operations

    [guarded], [async_lock] and [async_lock_shared] make a composed operation,
    [self], with the executor of the object; [async_compose] calls it once. *)

Section composed.
Context (semaphore_tagged : handler → handler) {op_result : Type}.

Definition guarded_semaphore (t : Guarded.err_type) (cancelled : bool) (self : handler) :
    M basic_semaphore (Guarded.guard_action (op_result := op_result)) :=
  e ← get_executor; on_impl (Guarded.guard_by_semaphore_init semaphore_tagged t e cancelled self).
Definition guarded_mutex (t : Guarded.err_type) (cancelled : bool) (self : handler) :
    M basic_mutex (Guarded.guard_action (op_result := op_result)) :=
  e ← get_executor; on_impl (Guarded.guard_by_mutex_init semaphore_tagged t e cancelled self).
End composed.

#[local] Existing Instances LockGuard.mutex_lockable LockGuard.shared_mutex_lockable.

Definition guard_async_lock (self : handler) : M basic_mutex unit :=
  e ← get_executor; on_impl (LockGuard.async_lock_op_start e self).
Definition guard_async_lock_exclusive (self : handler) : M basic_shared_mutex unit :=
  e ← get_executor; on_impl (LockGuard.async_lock_op_start e self).
Definition guard_async_lock_shared (self : handler) : M basic_shared_mutex unit :=
  e ← get_executor; on_impl (LockGuard.async_lock_shared_op_start e self).
End code.

(** ** Calls on members, and local objects *)

Section rules.
Context {ASIO : Asio}.

Lemma wp_on_impl {I A} (x : M I A) e i w (Φ : res A → machine (basic_object I) → Prop) :
  wp x (Machine i w) (λ r s', Φ r (Machine (BasicObject e (obj s')) (wld s'))) →
  wp (on_impl x) (Machine (BasicObject e i) w) Φ.
Proof. unfold wp, on_impl. simpl. by destruct (x (Machine i w)) as [[r s']|]. Qed.

(** A local object of a program: made, used, and destroyed however its block is
    left. An exception of the destructor ends the program. *)
Definition with_local {St T A} (ctor : M St T) (body : M T A) (dtor : M T unit) : M St A := λ s,
  match ctor s with
  | Some (Ok t, s1) =>
      match body (Machine t (wld s1)) with
      | Some (r, s2) =>
          match dtor s2 with
          | Some (Ok _, s3) => Some (r, Machine (obj s1) (wld s3))
          | _ => None
          end
      | None => None
      end
  | Some (Exn e, s1) => Some (Exn e, s1)
  | None => None
  end.

Lemma wp_with_local {St T A} (ctor : M St T) (body : M T A) dtor s (Φ : res A → machine St → Prop) :
  wp ctor s (λ r s1, match r with
    | Ok t => wp body (Machine t (wld s1)) (λ r s2, wp dtor s2 (λ r' s3, r' = Ok tt ∧ Φ r (Machine (obj s1) (wld s3))))
    | Exn e => Φ (Exn e) s1
    end) →
  wp (with_local ctor body dtor) s Φ.
Proof.
  unfold wp, with_local. destruct (ctor s) as [[[t|e] s1]|]; [|done..].
  destruct (body _) as [[r s2]|]; [|done]. by destruct (dtor s2) as [[r' s3]|]; [intros [-> ?]|].
Qed.
End rules.
