(* ===== verification/BasicSpec.v ===== *)
(** * The public classes: properties

    What rebinding a mutex to another executor does to the operations that wait
    for it. *)
From S2P Require Import Prelude Machine Bilist Ops Service Impl Mutex MutexSpec Basic.

Section properties.
Context {ASIO : Asio}.
Implicit Types (L : gmap addr (list addr)) (w : world) (m : mutex_impl) (q : list (addr * op)).

(** C36: rebinding a mutex does not cancel its operations, and breaks their
    cancellation. The new mutex takes over the lock and the whole line, and
    nobody is told anything; but the cancellation handlers still refer to the
    implementation of the old mutex: once that is destroyed, emitting the
    signal of an operation in line is undefined behaviour. *)
Theorem basic_mutex_rebind_dangles L m w q1 p o q2 n svc ms convert e this waiters :
  mutex_rep L m w (q1 ++ (p, o) :: q2) → slots w !! n = Some (CancelHandler p (this_ (get_sm m))) →
  service (get_sm m) = Some svc → service_ok w L svc (ms ++ [this_ (get_sm m)]) → svc ≠ waiters_ m →
  nodes w !! this = None → nodes w !! waiters = None → this ≠ waiters →
  wp (basic_mutex_rebind convert this waiters (BasicObject e m)) (Machine tt w) (λ r s1, ∃ new old,
    r = Ok (new, old) ∧ exec_ new = convert e ∧ locked_ (impl_ new) = locked_ m ∧
    trace (wld s1) = trace w ∧
    (∃ L1, queue (wld s1) L1 (waiters_ (impl_ new)) (q1 ++ (p, o) :: q2)) ∧
    wp mutex_impl_dtor (Machine (impl_ old) (wld s1)) (λ r2 s2,
      r2 = Ok tt ∧ trace (wld s2) = trace w ∧ mutex_emit n true (Machine (impl_ new) (wld s2)) = None)).
Proof.
  intros Hr Hn Hsvc Hs Hne Hthis Hwait Htw. pose proof (mr_impl _ _ _ _ Hr) as [Hok Hi Hc].
  assert (this_ (get_sm m) ≠ this) as Hold.
  { intros E. destruct (heap_rep_listed _ _ (this_ (get_sm m)) (wo_heap _ _ Hok)) as [nd Hnd];
      [eapply listed_member; [apply Hs|set_solver]|]. by rewrite E, Hthis in Hnd. }
  apply wp_bind. eapply wp_mutex_impl_move_ctor; [done|apply Hr|done..|].
  intros N1 w1 L1 new Hok1 Hs1 Hq1 Hq1'. apply wp_ret.
  exists (BasicObject (convert e) new), (BasicObject e (set_locked false m)).
  split_and!; [done..|by eexists|]. cbn [impl_ wld].
  apply wp_bind, wp_get_obj. cbn [obj].
  rewrite <- app_assoc in Hs1. simpl in Hs1.
  eapply (wp_impl_dtor_freed (waiters_ m) (set_locked false m) _ _ [] svc ms [this]); [done..|].
  intros N2 w2 L2 _ _ Hfree. split_and!; [done..|].
  unfold mutex_emit, get_world, mbind, M_bind. simpl. rewrite Hn. unfold lock_captured, get_obj, mbind, M_bind.
  simpl. rewrite bool_decide_eq_false_2 by done. unfold get_node, get_world, mbind, M_bind, of_option. simpl.
  change (N2 !! this_ (get_sm m) = None) in Hfree. change (this_ (mi_sm m)) with (this_ (get_sm m)). by rewrite Hfree.
Qed.
End properties.

(** ** The property at work *)

Section witnesses.

Lemma basic_mutex_rebind_dangles_witness :
  let m := obj (demo_waiting1 true) in let w := wld (demo_waiting1 true) in
  wp (basic_mutex_rebind (λ e : @executor test_asio, e) 20 21 (@BasicObject test_asio _ 0 m)) (Machine tt w) (λ r s1, ∃ new old,
    r = Ok (new, old) ∧ exec_ new = (0 : @executor test_asio) ∧ locked_ (impl_ new) = locked_ m ∧
    trace (wld s1) = trace w ∧
    (∃ L1, queue (wld s1) L1 (waiters_ (impl_ new)) ([] ++ (4%positive, @basic_op_model test_asio 4 4) :: [])) ∧
    wp mutex_impl_dtor (Machine (impl_ old) (wld s1)) (λ r2 s2,
      r2 = Ok tt ∧ trace (wld s2) = trace w ∧ mutex_emit 4 true (Machine (impl_ new) (wld s2)) = None)).
Proof.
  apply (basic_mutex_rebind_dangles (ASIO := test_asio) (<[3%positive := [4%positive]]> demo_mutex_lists)
    (obj (demo_waiting1 true)) (wld (demo_waiting1 true)) [] 4 (@basic_op_model test_asio 4 4) [] 4 1 [] (λ e, e) 0 20 21).
  - apply demo_waiting1_rep.
  - vm_compute. reflexivity.
  - vm_compute. reflexivity.
  - split.
    + vm_compute. reflexivity.
    + eexists. split; [vm_compute; reflexivity|done].
    + repeat constructor.
  - vm_compute. discriminate.
  - vm_compute. reflexivity.
  - vm_compute. reflexivity.
  - discriminate.
Defined.
End witnesses.
