(* ===== verification/BilistSpec.v ===== *)
(** * Lists and members: properties

    The intrusive list as a queue, its move assignment, and the move assignment
    of the objects a service keeps. *)
From S2P Require Import Prelude Machine Bilist Ops Service.
From S2P Require Mutex.

(** ** Programs *)

Section programs.
Context {ASIO : Asio} {St : Type}.
Implicit Types (L : gmap addr (list addr)) (s : machine St) (xs ps qs : list addr).

Fixpoint link_all (r : addr) (ps : list addr) : M St unit :=
  match ps with
  | [] => mret tt
  | p :: ps => link_before p r;; link_all r ps
  end.
Fixpoint unlink_all (ps : list addr) : M St unit :=
  match ps with
  | [] => mret tt
  | p :: ps => unlink p;; unlink_all ps
  end.

(** Nodes that are ready to be linked. *)
Definition loose (N : gmap addr bilist_node) L ps : Prop :=
  NoDup ps ∧ Forall (λ p, is_Some (N !! p) ∧ ¬ listed L p) ps.

Lemma wp_link_all r ps xs L s (Φ : res unit → machine St → Prop) :
  heap_rep (nodes (wld s)) L → L !! r = Some xs → loose (nodes (wld s)) L ps →
  (∀ N', heap_rep N' (<[r := xs ++ ps]> L) → dom N' = dom (nodes (wld s)) →
     Φ (Ok tt) (Machine (obj s) (with_nodes N' (wld s)))) →
  wp (link_all r ps) s Φ.
Proof.
  revert xs L s. induction ps as [|p ps IH]; intros xs L s HL Hr [Hnd Hps] HΦ; simpl.
  - apply wp_ret. destruct s as [m w]. rewrite app_nil_r in HΦ. specialize (HΦ (nodes w)).
    simpl in HΦ. rewrite insert_id, with_nodes_id in HΦ by done. by apply HΦ.
  - apply NoDup_cons in Hnd as [Hp Hnd]. apply Forall_cons in Hps as [[Hpn Hpl] Hps].
    apply wp_bind. eapply wp_link_before; [done..|]. intros N1 HL1 Hdom1.
    eapply (IH (xs ++ [p])); simpl; [exact HL1|by rewrite lookup_insert_eq| |].
    + split; [done|]. rewrite Forall_forall in *. intros q Hq. destruct (Hps q Hq) as [Hqn Hql]. split.
      * apply elem_of_dom. rewrite Hdom1. by apply elem_of_dom.
      * rewrite listed_snoc by done. intros [->|?]; done.
    + intros N2. rewrite insert_insert_eq, <- app_assoc. intros HL2 Hdom2. apply (HΦ N2); [done|].
      by rewrite Hdom2.
Qed.

Lemma wp_unlink_all r xs ps qs L s (Φ : res unit → machine St → Prop) :
  heap_rep (nodes (wld s)) L → L !! r = Some (xs ++ ps) → ps ≡ₚ qs →
  (∀ N', heap_rep N' (<[r := xs]> L) → dom N' = dom (nodes (wld s)) →
     Φ (Ok tt) (Machine (obj s) (with_nodes N' (wld s)))) →
  wp (unlink_all qs) s Φ.
Proof.
  revert ps L s. induction qs as [|q qs IH]; intros ps L s HL Hr Hp HΦ; simpl.
  - apply Permutation_nil_r in Hp as ->. rewrite app_nil_r in Hr. apply wp_ret.
    destruct s as [m w]. specialize (HΦ (nodes w)). simpl in HΦ. rewrite insert_id, with_nodes_id in HΦ by done.
    by apply HΦ.
  - assert (q ∈ ps) as (p1 & p2 & ->)%list_elem_of_split by (rewrite Hp; by left).
    assert (p1 ++ p2 ≡ₚ qs) as Hp' by (apply (Permutation_cons_inv (a := q)); by rewrite Permutation_middle).
    apply wp_bind. eapply wp_unlink; [done|by rewrite Hr, app_assoc|]. intros N1 HL1 Hdom1 _ _.
    eapply (IH (p1 ++ p2)); simpl; [exact HL1|by rewrite lookup_insert_eq, app_assoc|done|].
    intros N2. rewrite insert_insert_eq. intros HL2 Hdom2. apply (HΦ N2); [done|]. by rewrite Hdom2.
Qed.
End programs.

(** ** Properties *)

Section properties.
Context {ASIO : Asio} {St : Type}.
Implicit Types (L : gmap addr (list addr)) (s : machine St) (xs ps qs : list addr).

(** C37: the list is a queue, and unlinking needs no list. Nodes linked before
    the root one after the other stand behind the others in that order, [size]
    counts them all, and unlinking the same nodes in any order restores every
    list of the heap. *)
Theorem bilist_round_trip r xs ps qs L s :
  heap_rep (nodes (wld s)) L → L !! r = Some xs → loose (nodes (wld s)) L ps → ps ≡ₚ qs →
  (Z.of_nat (size (nodes (wld s))) < 2 ^ 64)%Z →
  wp (link_all r ps) s (λ r1 s1, r1 = Ok tt ∧ heap_rep (nodes (wld s1)) (<[r := xs ++ ps]> L) ∧
    wp (bilist_size r) s1 (λ r2 s2, r2 = Ok (Z.of_nat (length (xs ++ ps))) ∧ s2 = s1) ∧
    wp (unlink_all qs) s1 (λ r3 s3, r3 = Ok tt ∧ heap_rep (nodes (wld s3)) L)).
Proof.
  intros HL Hr Hps Hp Hsz. eapply wp_link_all; [done..|]. intros N1 HL1 Hdom1.
  split_and!; [done..| |].
  - eapply wp_bilist_size; [exact HL1|by rewrite lookup_insert_eq| |done]. simpl.
    rewrite <- (size_dom N1), Hdom1, size_dom. done.
  - eapply (wp_unlink_all r xs ps); [exact HL1|by rewrite lookup_insert_eq|done|].
    intros N2. rewrite insert_insert_eq, insert_id by done. done.
Qed.

(** Move assignment from a list that has members does nothing at all: the
    target keeps its own members, the source keeps its members, and not one
    node of the heap changes. *)
Theorem bilist_move_assign_does_nothing this lhs xs y ys L s :
  heap_rep (nodes (wld s)) L → L !! this = Some xs → L !! lhs = Some (y :: ys) →
  bilist_move_assign this lhs s = Some (Ok tt, s).
Proof.
  intros HL Ht Hl.
  assert (wp (bilist_move_assign this lhs) s (λ r s', r = Ok tt ∧ s' = s)) as (r & s' & -> & -> & ->)%wp_run; [|done].
  by eapply wp_bilist_move_assign_cons.
Qed.

(** C40: move assignment keeps a member in its service and corrupts the
    operand. When the two belong to different services, the target is taken
    out of its own service's list and put at the end of the same list, and the
    operand's service pointer is overwritten while it stays in the list of the
    service it came from. *)
Theorem service_member_move_assign_wrong self sm svc svc' xs ys L s :
  world_ok (wld s) L → service self = Some svc → service sm = Some svc' → svc ≠ svc' →
  service_ok (wld s) L svc (xs ++ this_ self :: ys) →
  wp (service_member_move_assign self sm) s (λ r s',
    r = Ok (self, ServiceMember (this_ sm) (Some svc) (mtx_ sm)) ∧
    ∃ L', world_ok (wld s') L' ∧ service_ok (wld s') L' svc ((xs ++ ys) ++ [this_ self]) ∧
      L' !! svc' = L !! svc').
Proof.
  destruct s as [m w]. cbn [wld]. intros Hok Hself Hsm Hne Hs. unfold service_member_move_assign.
  rewrite bool_decide_eq_true_2 by congruence. apply wp_bind. eapply wp_of_option; [exact Hself|].
  pose proof (so_members _ _ _ _ Hs) as Hms. pose proof (so_plain _ _ _ _ Hs) as Hpl.
  apply wp_bind. eapply wp_unregister_queue; [done..|]. intros N1 w1 L1 Hok1 Hs1 Hdom1.
  apply Forall_elem_of_mid in Hpl as [Hop _].
  apply wp_bind. eapply (wp_register_queue svc (this_ self) m w1 L1 (xs ++ ys)); [done|done| | |done|].
  - simpl. apply elem_of_dom. rewrite Hdom1. apply elem_of_dom.
    eapply heap_rep_listed; [apply Hok|]. eapply listed_member; [exact Hms|set_solver].
  - by eapply unlisted_removed; [apply Hok|].
  - intros N2 w2 L2 Hok2 Hs2 Hdom2. apply wp_ret. rewrite Hself. split; [done|].
    exists L2. split_and!; [done..|]. unfold L2, L1. by rewrite !lookup_insert_ne.
Qed.
End properties.

(** ** The properties at work *)

Section witnesses.

(** Two loose nodes next to the list of the demonstration service. *)
Definition demo_loose : machine unit :=
  Machine tt (set_nodes (λ N, <[8%positive := BilistNode 8 8]> (<[9%positive := BilistNode 9 9]> N)) (demo_world true)).

Lemma unlisted_demo p : p ≠ 1%positive → ¬ listed demo_lists p.
Proof.
  intros Hp (r & xs & Hr & Hin). unfold demo_lists in Hr. apply lookup_singleton_Some in Hr as [<- <-].
  by apply list_elem_of_singleton in Hin.
Qed.

Lemma bilist_round_trip_witness :
  wp (link_all 1 [8%positive; 9%positive]) demo_loose (λ r1 s1, r1 = Ok tt ∧
    heap_rep (nodes (wld s1)) (<[1%positive := [] ++ [8%positive; 9%positive]]> demo_lists) ∧
    wp (bilist_size 1) s1 (λ r2 s2, r2 = Ok 2%Z ∧ s2 = s1) ∧
    wp (unlink_all [9%positive; 8%positive]) s1 (λ r3 s3, r3 = Ok tt ∧ heap_rep (nodes (wld s3)) demo_lists)).
Proof.
  apply (bilist_round_trip 1 [] [8%positive; 9%positive] [9%positive; 8%positive]).
  - apply heap_rep_insert; [|by apply unlisted_demo]. apply heap_rep_insert; [|by apply unlisted_demo].
    apply demo_world_ok.
  - vm_compute. reflexivity.
  - split; [repeat constructor; set_solver|]. repeat constructor; try (by eexists; vm_compute); by apply unlisted_demo.
  - apply Permutation_swap.
  - vm_compute. reflexivity.
Defined.

Lemma heap_rep_machine `{Asio} {St} (m : St) w L :
  heap_rep (nodes w) L → heap_rep (nodes (wld (Machine m w))) L.
Proof. done. Qed.

Lemma bilist_move_assign_does_nothing_witness :
  bilist_move_assign 1 3 (Machine tt (wld (Mutex.demo_waiting1 true))) =
    Some (Ok tt, Machine tt (wld (Mutex.demo_waiting1 true))).
Proof.
  apply (bilist_move_assign_does_nothing 1 3 [2%positive] 4 []
    (<[3%positive := [4%positive]]> Mutex.demo_mutex_lists) (Machine tt (wld (Mutex.demo_waiting1 true)))).
  - apply heap_rep_machine, (wo_heap _ _ (Mutex.mutex_rep_world _ _ _ _ (proj1 (Mutex.demo_waiting1_rep true)))).
  - vm_compute. reflexivity.
  - vm_compute. reflexivity.
Defined.

(** A second service, at address 5, beside that of the demonstration mutex. *)
Definition demo_services : world :=
  match op_list_service_ctor 5 (demo_config true) (Machine tt (wld (Mutex.demo_mutex true))) with
  | Some (_, s) => wld s
  | None => empty_world
  end.
Definition demo_services_lists : gmap addr (list addr) := <[5%positive := []]> Mutex.demo_mutex_lists.

Lemma demo_services_ok :
  world_ok demo_services demo_services_lists ∧ service_ok demo_services demo_services_lists 1 [2%positive].
Proof.
  destruct (Mutex.demo_mutex_rep true) as [Hr [Hms (c & Hc & Hi) Hpl]].
  assert (wp (op_list_service_ctor 5 (demo_config true)) (Machine tt (wld (Mutex.demo_mutex true))) (λ r s,
    world_ok (wld s) demo_services_lists ∧ service_ok (wld s) demo_services_lists 1 [2%positive])) as H.
  { eapply wp_op_list_service_ctor; [apply Hr|by vm_compute|]. intros N' c' w' L' H1 H2 _. split; [done|].
    split; [by vm_compute| |done]. exists c. split; [|done]. simpl. by rewrite lookup_insert_ne. }
  unfold demo_services. unfold wp in H. by destruct (op_list_service_ctor _ _ _) as [[r s]|].
Qed.

Lemma service_member_move_assign_wrong_witness :
  let self := Mutex.mi_sm (obj (Mutex.demo_mutex true)) in
  let sm := ServiceMember 9 (Some 5%positive) (cem_ctor true) in
  wp (service_member_move_assign self sm) (Machine tt demo_services) (λ r s',
    r = Ok (self, ServiceMember 9 (Some 1%positive) (cem_ctor true)) ∧
    ∃ L' : gmap addr (list addr), world_ok (wld s') L' ∧ service_ok (wld s') L' 1 [2%positive] ∧
      L' !! 5%positive = Some []).
Proof.
  apply (service_member_move_assign_wrong (Mutex.mi_sm (obj (Mutex.demo_mutex true)))
    (ServiceMember 9 (Some 5%positive) (cem_ctor true)) 1 5 [] [] demo_services_lists (Machine tt demo_services)).
  - apply demo_services_ok.
  - vm_compute. reflexivity.
  - reflexivity.
  - discriminate.
  - apply demo_services_ok.
Defined.
End witnesses.
