(* ===== verification/Request.v ===== *)
(** * The example: a composed request

    [request_op] ([example/request.cpp]), the operation the example guards with a
    mutex: it writes a request to a socket and reads the response. It is a
    stackless coroutine: [reenter] goes on after the [yield] it left at, a
    [yield] notes where it is, starts an operation and leaves, and the end of the
    block ends the coroutine. The operations of the socket are asio's and
    Beast's; each of them calls the function object once, with its result. *)
From S2P Require Import Prelude Machine.

(** ** The code *)

(** Where the coroutine is: at its beginning, after the [yield] of the write,
    after the [yield] of the read, at its end. *)
Inductive request_pos := rp_start | rp_written | rp_read | rp_end.

(** What the function object does. *)
Inductive request_action :=
  | ra_prepare_payload
  | ra_async_write
  | ra_async_read
  | ra_complete (ec : error_code).

(** [operator()(Self &&, error_code ec, size_t)]. *)
Definition request_op_call (pos : request_pos) (ec : error_code) : request_pos * list request_action :=
  let actions := if ec_failed ec then [ra_complete ec] else [] in
  match pos with
  | rp_start => (rp_written, actions ++ [ra_prepare_payload; ra_async_write])
  | rp_written => (rp_read, actions ++ [ra_async_read])
  | rp_read => (rp_end, actions ++ [ra_complete ec])
  | rp_end => (rp_end, actions)
  end.

(** [async_compose] calls the function object once; every operation it starts
    calls it again, with the next of the [results]. *)
Definition starts (a : request_action) : bool :=
  match a with ra_async_write | ra_async_read => true | _ => false end.
Fixpoint request_resume (pos : request_pos) (ec : error_code) (results : list error_code) : list request_action :=
  let '(pos, actions) := request_op_call pos ec in
  actions ++
  match results with
  | ec :: results => if existsb starts actions then request_resume pos ec results else []
  | [] => []
  end.
Definition async_request (results : list error_code) : list request_action := request_resume rp_start no_error results.

Definition completions (actions : list request_action) : list error_code :=
  omap (λ a, match a with ra_complete ec => Some ec | _ => None end) actions.

(** ** What it does *)

(** A request completes exactly once if and only if nothing fails, and then
    with no error, after the write and the read. [operator()] does not return
    after [self.complete(ec)]: when the write fails, the operation is completed
    with the error, the response is read all the same, and the operation is
    completed again; when the read fails it is completed twice. *)
Theorem request_completes_once ec1 ec2 :
  completions (async_request [ec1; ec2]) =
    (if ec_failed ec1 then [ec1] else []) ++ (if ec_failed ec2 then [ec2] else []) ++ [ec2] ∧
  (length (completions (async_request [ec1; ec2])) = 1 ↔ ec_failed ec1 = false ∧ ec_failed ec2 = false) ∧
  filter (λ a, starts a = true) (async_request [ec1; ec2]) = [ra_async_write; ra_async_read].
Proof.
  destruct (ec_failed ec1) eqn:E1, (ec_failed ec2) eqn:E2; unfold async_request; simpl; rewrite ?E1, ?E2; simpl;
    rewrite ?E1, ?E2; naive_solver lia.
Qed.

Example request_fine : async_request [no_error; no_error] =
  [ra_prepare_payload; ra_async_write; ra_async_read; ra_complete no_error].
Proof. reflexivity. Qed.
Example request_write_fails : async_request [operation_aborted; operation_aborted] =
  [ra_prepare_payload; ra_async_write; ra_complete operation_aborted; ra_async_read;
   ra_complete operation_aborted; ra_complete operation_aborted].
Proof. reflexivity. Qed.
