(* ===== verification/Requests.v ===== *)
(** * The example: guarded requests

    The program of [example/request.cpp]: requests on one socket, each of them
    guarded by the same mutex. [request_step] is the closed system, in which the
    handlers of the requests run in any order; the socket completes every
    operation with the [error_code] it likes. When nothing fails, the requests
    use the socket one after the other and all of them complete. *)
From S2P Require Import Prelude Machine Bilist Ops Service Impl Gate Guarded Scheduler Clients Parties Request.
From S2P Require Mutex MutexSpec.

(** ** The program *)

(** A guarded request: where the guard is, and where the coroutine is that the
    guard runs. *)
Record guarded_request := GuardedRequest {
  gr_guard : guarded_op;
  gr_pos : request_pos
}.

(** An operation of the socket is under way. *)
Definition on_socket (c : guarded_request) : bool :=
  match gr_pos c with rp_written | rp_read => true | _ => false end.

Lemma bind_ok {ASIO : Asio} {St A B} (x : M St A) (k : A → M St B) s b s' :
  (x ≫= k) s = Some (Ok b, s') → ∃ a s1, x s = Some (Ok a, s1) ∧ k a s1 = Some (Ok b, s').
Proof. intros ([a|e] & s1 & Hx & H)%bind_inv; [by exists a, s1|]. by simplify_eq. Qed.

Section system.
Import Mutex MutexSpec.
Context {ASIO : Asio} `{!EqDecision handler}.
Context (tag : handler → handler) (t : err_type) (exec : executor) (self : nat → handler).

(** What the socket answers to the operation that the request [i] started before
    it got to [pos]. *)
Context (result : nat → request_pos → error_code).
Implicit Types (c : guarded_request) (ec : error_code) (cl : list guarded_request) (i j : nat) (e : event) (es : list event).
Implicit Types (s : machine mutex_impl) (acts : list request_action) (log : list (nat * request_action)).

Abbreviation guard i ec := (guarded_call tag t exec (self i) ec false).

(** The actions of the coroutine. [self.complete(ec)] calls the guard, with
    [op_tag]. A composed operation completes once: what asio does with a second
    call is not documented. *)
Fixpoint perform i acts c : M mutex_impl guarded_request :=
  match acts with
  | [] => mret c
  | ra_complete ec :: acts =>
      match gr_guard c with
      | gs_running => g ← guard i ec gs_running; perform i acts (GuardedRequest g (gr_pos c))
      | _ => ub
      end
  | _ :: acts => perform i acts c
  end.

(** The coroutine is called, for the first time or by the socket. *)
Definition call_request i c (ec : error_code) : M mutex_impl (guarded_request * list request_action) :=
  let '(pos, acts) := request_op_call (gr_pos c) ec in
  c ← perform i acts (GuardedRequest (gr_guard c) pos); mret (c, acts).

(** The next handler of [guarded(mtx, [&](auto &&token) { return
    async_request(stream, req, res, std::move(token)); }, detached)]: the guard
    that gets the mutex calls the coroutine at once. *)
Definition request_call i c : M mutex_impl (guarded_request * list request_action) :=
  if on_socket c then call_request i c (result i (gr_pos c))
  else
    match gr_guard c with
    | gs_running => ub
    | g =>
        g ← guard i no_error g;
        match g with
        | gs_running => call_request i (GuardedRequest g (gr_pos c)) no_error
        | _ => mret (GuardedRequest g (gr_pos c), [])
        end
    end.

Definition request_hears e i c : guarded_request :=
  match e with
  | ev_post _ h ec | ev_dispatch _ h ec =>
      if decide (tag (self i) = h) then GuardedRequest (informed ec (gr_guard c)) (gr_pos c) else c
  | _ => c
  end.

(** The mutex, the requests, and what they did on the socket. *)
Definition requests : Type := machine mutex_impl * list guarded_request * list (nat * request_action).

Inductive request_step : relation requests :=
  | rst_call i c c' acts s s' cl log : cl !! i = Some c → request_call i c s = Some (Ok (c', acts), s') →
      request_step (s, cl, log)
        (s', deliver request_hears (events_since (wld s) (wld s')) (<[i := c']> cl), log ++ (pair i <$> acts)).

Definition request_turn i (y : requests) : option requests :=
  let '(s, cl, log) := y in
  c ← cl !! i;
  match request_call i c s with
  | Some (Ok (c', acts), s') =>
      Some (s', deliver request_hears (events_since (wld s) (wld s')) (<[i := c']> cl), log ++ (pair i <$> acts))
  | _ => None
  end.
Lemma request_turn_step i y z : request_turn i y = Some z → request_step y z.
Proof.
  destruct y as [[s cl] log]. intros (c & Hi & H)%bind_Some.
  destruct (request_call i c s) as [[[[c' acts]|] s']|] eqn:E; try done. injection H as <-. by eapply rst_call.
Qed.

(** ** What the guard does *)

Definition guard_next (g g' : guarded_op) : Prop :=
  match g with
  | gs_new => g' = gs_trying
  | gs_trying => g' = gs_running ∨ g' = gs_locking
  | gs_locking => g' = gs_waiting
  | gs_told ec => g' = if ec_failed ec then gs_done false else gs_running
  | gs_running => g' = gs_done true
  | gs_waiting | gs_done _ => False
  end.

Lemma guarded_call_next i ec g g' s s' : guard i ec g s = Some (Ok g', s') → guard_next g g'.
Proof.
  destruct g as [| | | |ec'| |]; try done; cbn [guarded_call]; intros H.
  - by injection H as <- <-.
  - apply bind_ok in H as (b & s1 & _ & H). injection H as <- <-. destruct b; [by left|by right].
  - apply bind_ok in H as (b & s1 & _ & H). by injection H as <- <-.
  - rewrite guard_acquired_eq in H. apply bind_ok in H as (b & s1 & E & H). injection H as <- <-.
    simpl. by destruct (ec_failed ec'); injection E as <- <-.
  - rewrite guard_done_eq in H. apply bind_ok in H as (b & s1 & E & H). injection H as <- <-.
    apply bind_ok in E as (b' & s2 & _ & E). by injection E as <- <-.
Qed.

Context `{!Inj (=) (=) (λ i, tag (self i))} (memory : ∀ i X, allocate (tag (self i)) X ≠ None).

(** Nobody is told an error: nobody is cancelled. *)
Definition untroubled es : Prop :=
  Forall (λ e, match e with ev_post _ _ ec | ev_dispatch _ _ ec => ec = no_error | _ => True end) es.

Definition no_ecv (i : nat) : addr := Pos.of_succ_nat i.
Abbreviation parties_ok := (parties_ok tag self no_ecv 1).

Lemma guarded_call_untroubled i ec g g' s s' pl :
  parties_ok (s, pl) → pl !! i = Some (guarded g) → guard i ec g s = Some (Ok g', s') →
  untroubled (events_since (wld s) (wld s')).
Proof.
  intros Hok Hi H. destruct s as [m w]. pose proof (po_rep _ _ _ _ _ Hok) as (L & q & Hr & _).
  pose proof (po_places _ _ _ _ _ Hok) as Ho. cbn [fst snd obj wld] in *.
  assert (∀ w', trace w' = trace w → untroubled (events_since w w')) as Hsame.
  { intros w' E. rewrite events_since_same by done. constructor. }
  destruct g as [| | | |ec'| |]; try done; cbn [guarded_call] in H.
  - injection H as <- <-. by apply Hsame.
  - apply bind_ok in H as (b & s1 & E & H). injection H as <- <-.
    pose proof (wp_gate_try _ _ _ _ Hr) as Hwp. unfold wp in Hwp. rewrite E in Hwp. destruct Hwp as (m' & -> & _). by apply Hsame.
  - apply bind_ok in H as (b & s1 & E & H). injection H as <- <-.
    pose proof (wp_gate_async _ _ _ _ exec _ Hr (memory i (dom (nodes w)))) as Hwp. unfold wp in Hwp. rewrite E in Hwp.
    destruct Hwp as [_ Hwp]. case_decide.
    + destruct Hwp as (w' & p & h & -> & _ & Hsb & _). by apply Hsame, (trace_same _ _ Hsb).
    + destruct Hwp as (m' & h & w' & -> & -> & _). cbn [wld].
      rewrite (events_since_app w _ [ev_dispatch h (tag (self i)) no_error]) by done. by repeat constructor.
  - rewrite guard_acquired_eq in H. apply bind_ok in H as (b & s1 & E & H). injection H as <- <-.
    destruct (ec_failed ec'); injection E as <- <-; by apply Hsame.
  - rewrite guard_done_eq in H. apply bind_ok in H as (b & s1 & E & H). injection H as <- <-.
    apply bind_ok in E as (b' & s2 & E & E'). injection E' as <- <-.
    pose proof (total_le holds pl i _ Hi) as Hge. simpl in Hge.
    pose proof (wp_gate_give _ _ _ _ Hr ltac:(simpl in *; lia)) as Hwp. unfold wp in Hwp. rewrite E in Hwp. destruct Hwp as [_ Hwp].
    destruct q as [|po q].
    + destruct Hwp as (m' & -> & _). by apply Hsame.
    + destruct Hwp as (w' & -> & Hsb & _). cbn [wld]. rewrite (events_since_app w w' (completion no_error po)).
      * destruct po as [p []]; by repeat constructor.
      * by rewrite (trace_same _ _ Hsb), trace_finish.
Qed.

(** ** The requests as parties *)

Definition guards cl : list party := (λ c, guarded (gr_guard c)) <$> cl.

Lemma heard_pos es i c : gr_pos (heard request_hears es i c) = gr_pos c.
Proof.
  revert c. induction es as [|e es IH]; intros c; [done|]. unfold heard in *. simpl. rewrite IH.
  destruct e; simpl; try done; by case_decide.
Qed.
Lemma heard_guard es i c :
  guarded (gr_guard (heard request_hears es i c)) = heard (tell tag self) es i (guarded (gr_guard c)).
Proof.
  revert c. induction es as [|e es IH]; intros c; [done|]. unfold heard in *. simpl. rewrite IH. f_equal.
  destruct e; simpl; try done; by case_decide.
Qed.
Lemma guards_deliver es cl : guards (deliver request_hears es cl) = deliver (tell tag self) es (guards cl).
Proof.
  apply list_eq. intros i. unfold guards. rewrite list_lookup_fmap, !deliver_lookup, list_lookup_fmap.
  destruct (cl !! i) as [c|]; [|done]. simpl. by rewrite heard_guard.
Qed.

Lemma guard_moves i s s' c c' cl :
  parties_ok (s, guards cl) → cl !! i = Some c → guard i no_error (gr_guard c) s = Some (Ok (gr_guard c'), s') →
  parties_ok (s', guards (deliver request_hears (events_since (wld s) (wld s')) (<[i := c']> cl))).
Proof.
  intros Hok Hi H. rewrite guards_deliver. unfold guards. rewrite list_fmap_insert.
  eapply (party_step_better tag t exec self no_ecv (λ _, no_error) 1 memory); [done|exact Hok|].
  eapply (pst_call _ _ _ _ _ _ _ false (guarded (gr_guard c))).
  - cbn [snd]. by rewrite list_lookup_fmap, Hi.
  - cbn [party_call fst]. unfold mbind, M_bind. by rewrite H.
Qed.

(** ** The invariant *)

Definition completed c : bool := match gr_guard c with gs_done true => true | _ => false end.

(** Where the coroutine is, by where the guard is. *)
Definition request_wf c : Prop :=
  match gr_guard c with
  | gs_running => on_socket c = true
  | gs_done result => result = true ∧ gr_pos c = rp_end
  | gs_told ec => ec = no_error ∧ gr_pos c = rp_start
  | _ => gr_pos c = rp_start
  end.

(** All that a request does, and what one that is under way has done. *)
Definition whole i : list (nat * request_action) := pair i <$> async_request [no_error; no_error].
Definition begun i c : list (nat * request_action) :=
  pair i <$> match gr_pos c with
             | rp_written => [ra_prepare_payload; ra_async_write]
             | rp_read => [ra_prepare_payload; ra_async_write; ra_async_read]
             | rp_start | rp_end => []
             end.

(** The socket was used by the requests [js], one after the other, and is used by
    the request that is under way. *)
Definition one_by_one cl log : Prop :=
  ∃ js, NoDup js ∧ (∀ i, i ∈ js ↔ completed <$> cl !! i = Some true) ∧ log = (js ≫= whole) ++ mjoin (imap begun cl).

Record requests_ok (y : requests) : Prop := {
  rq_parties : parties_ok (y.1.1, guards y.1.2);
  rq_wf i c : y.1.2 !! i = Some c → request_wf c;
  rq_log : one_by_one y.1.2 y.2
}.

Lemma on_socket_running c : request_wf c → on_socket c = true → gr_guard c = gs_running.
Proof. destruct c as [[| | | | | |[]] pos]; unfold request_wf, on_socket; simpl; intros H; try done; destruct pos; naive_solver. Qed.
Lemma running_on_socket c : request_wf c → gr_guard c = gs_running → on_socket c = true.
Proof. unfold request_wf. by intros H E; rewrite E in H. Qed.
Lemma begun_nothing i c : on_socket c = false → begun i c = [].
Proof. unfold on_socket, begun. by destruct (gr_pos c). Qed.

Lemma running_unique s cl i j c d :
  parties_ok (s, guards cl) → cl !! i = Some c → cl !! j = Some d → gr_guard c = gs_running → gr_guard d = gs_running → i = j.
Proof.
  intros Hok Hi Hj Hc Hd. destruct (decide (i = j)) as [|Hne]; [done|]. exfalso.
  pose proof (po_rep _ _ _ _ _ Hok) as (L & q & Hr & _). pose proof (po_places _ _ _ _ _ Hok) as Ho.
  pose proof (gate_bounds _ _ _ _ Hr). cbn [fst snd] in *.
  assert (∀ k b, cl !! k = Some b → gr_guard b = gs_running → guards cl !! k = Some (guarded gs_running)) as Hg.
  { intros k b Hk Hb. unfold guards. rewrite list_lookup_fmap, Hk. simpl. by rewrite Hb. }
  pose proof (total_two holds (guards cl) i j _ _ (Hg _ _ Hi Hc) (Hg _ _ Hj Hd) Hne) as H2. simpl in H2. lia.
Qed.

Lemma completed_insert cl i c c' j :
  cl !! i = Some c → (completed <$> <[i := c']> cl !! j) = Some true ↔
  if decide (i = j) then completed c' = true else completed <$> cl !! j = Some true.
Proof.
  intros Hi. case_decide as E.
  - subst j. rewrite list_lookup_insert_eq by (by eapply lookup_lt_Some). simpl. by split; [intros [=]|intros ->].
  - by rewrite list_lookup_insert_ne.
Qed.

(** A request moves on, while nobody else uses the socket. *)
Lemma one_by_one_move cl log i c c' acts :
  one_by_one cl log → cl !! i = Some c → (∀ j d, j ≠ i → cl !! j = Some d → on_socket d = false) →
  completed c = false → completed c' = false → begun i c' = begun i c ++ (pair i <$> acts) →
  one_by_one (<[i := c']> cl) (log ++ (pair i <$> acts)).
Proof.
  intros (js & Hnd & Hjs & ->) Hi Hoff Hc Hc' Hb. exists js. split_and!; [done| |].
  - intros j. rewrite (completed_insert _ _ _ _ _ Hi), Hjs. case_decide as E; [subst j; rewrite Hi; simpl|done].
    by rewrite Hc, Hc'.
  - rewrite (mjoin_imap_one begun cl i c Hi) by (intros; by eapply begun_nothing, Hoff).
    rewrite (mjoin_imap_one begun (<[i := c']> cl) i c').
    + by rewrite Hb, app_assoc.
    + apply list_lookup_insert_eq. by eapply lookup_lt_Some.
    + intros j d Hne. rewrite list_lookup_insert_ne by done. intros Hj. by eapply begun_nothing, Hoff.
Qed.

(** The same when [i] does not use it either. *)
Lemma one_by_one_idle cl log i c c' :
  one_by_one cl log → cl !! i = Some c → on_socket c = false → on_socket c' = false →
  completed c = false → completed c' = false → one_by_one (<[i := c']> cl) log.
Proof.
  intros (js & Hnd & Hjs & ->) Hi Ho Ho' Hc Hc'. exists js. split_and!; [done| |].
  - intros j. rewrite (completed_insert _ _ _ _ _ Hi), Hjs. case_decide as E; [subst j; rewrite Hi; simpl|done].
    by rewrite Hc, Hc'.
  - do 2 f_equal. apply list_eq. intros j. rewrite !list_lookup_imap. destruct (decide (i = j)) as [<-|Hne].
    + rewrite Hi, list_lookup_insert_eq by (by eapply lookup_lt_Some). simpl. by rewrite !begun_nothing.
    + by rewrite list_lookup_insert_ne.
Qed.

(** A request completes. *)
Lemma one_by_one_complete cl log i c c' acts :
  one_by_one cl log → cl !! i = Some c → (∀ j d, j ≠ i → cl !! j = Some d → on_socket d = false) →
  completed c = false → completed c' = true → on_socket c' = false → begun i c ++ (pair i <$> acts) = whole i →
  one_by_one (<[i := c']> cl) (log ++ (pair i <$> acts)).
Proof.
  intros (js & Hnd & Hjs & ->) Hi Hoff Hc Hc' Ho' Hb. exists (js ++ [i]). split_and!.
  - apply NoDup_snoc. split; [done|]. rewrite Hjs, Hi. simpl. congruence.
  - intros j. rewrite (completed_insert _ _ _ _ _ Hi), elem_of_app, list_elem_of_singleton, Hjs.
    case_decide as E; split; naive_solver.
  - rewrite (mjoin_imap_one begun cl i c Hi) by (intros; by eapply begun_nothing, Hoff).
    rewrite (mjoin_imap_nil begun (<[i := c']> cl)).
    + by rewrite app_nil_r, bind_app, <- app_assoc, Hb, bind_singleton.
    + intros j d Hj. apply list_lookup_insert_Some in Hj as [(<- & <- & _)|[Hne Hj]]; [by apply begun_nothing|].
      by eapply begun_nothing, Hoff.
Qed.

(** What the others hear changes nothing about the socket. *)
Lemma heard_completed es i c : completed (heard request_hears es i c) = completed c.
Proof.
  revert c. induction es as [|e es IH]; intros c; [done|]. unfold heard in *. simpl. rewrite IH.
  destruct e; simpl; try done; case_decide; try done; unfold completed; simpl; by destruct (gr_guard c).
Qed.
Lemma one_by_one_deliver es cl log : one_by_one cl log → one_by_one (deliver request_hears es cl) log.
Proof.
  intros (js & Hnd & Hjs & ->). exists js. split_and!; [done| |].
  - intros i. rewrite Hjs, deliver_lookup. destruct (cl !! i) as [c|]; [|done]. simpl. by rewrite heard_completed.
  - do 2 f_equal. apply list_eq. intros i. rewrite !list_lookup_imap, deliver_lookup.
    destruct (cl !! i) as [c|]; [|done]. simpl. unfold begun. by rewrite heard_pos.
Qed.
Lemma heard_wf es i c : untroubled es → request_wf c → request_wf (heard request_hears es i c).
Proof.
  intros Hes. revert c. induction Hes as [|e es He Hes IH]; intros c Hc; [done|]. unfold heard in *. simpl. apply IH.
  destruct e; simpl; try done; case_decide; try done; subst; unfold request_wf in *; simpl in *;
    destruct c as [[] pos]; by simpl in *.
Qed.

(** ** The calls *)

Context (answers : ∀ i pos, result i pos = no_error).

(** What a call does when nothing fails: the coroutine goes on after the write; it
    completes after the read; the guard gets the mutex and starts it; or the guard
    is on its way to the mutex. *)
Inductive request_does i s s' : guarded_request → guarded_request → list request_action → Prop :=
  | rd_written : s' = s → request_does i s s' (GuardedRequest gs_running rp_written) (GuardedRequest gs_running rp_read) [ra_async_read]
  | rd_read : guard i no_error gs_running s = Some (Ok (gs_done true), s') →
      request_does i s s' (GuardedRequest gs_running rp_read) (GuardedRequest (gs_done true) rp_end) [ra_complete no_error]
  | rd_locked g : guard_next g gs_running → guard i no_error g s = Some (Ok gs_running, s') →
      request_does i s s' (GuardedRequest g rp_start) (GuardedRequest gs_running rp_written) [ra_prepare_payload; ra_async_write]
  | rd_guard g g' : guard_next g g' → g' = gs_trying ∨ g' = gs_locking ∨ g' = gs_waiting → guard i no_error g s = Some (Ok g', s') →
      request_does i s s' (GuardedRequest g rp_start) (GuardedRequest g' rp_start) [].

Lemma request_call_guard i g pos :
  on_socket (GuardedRequest g pos) = false → g ≠ gs_running →
  request_call i (GuardedRequest g pos) =
    (g' ← guard i no_error g;
     match g' with
     | gs_running => call_request i (GuardedRequest g' pos) no_error
     | _ => mret (GuardedRequest g' pos, [])
     end).
Proof. unfold request_call. intros -> Hne. by destruct g. Qed.

Lemma request_call_does i s s' c c' acts :
  request_wf c → request_call i c s = Some (Ok (c', acts), s') → request_does i s s' c c' acts.
Proof.
  intros Hwf H. destruct (on_socket c) eqn:Hs.
  - unfold request_call in H. rewrite Hs in H. pose proof (on_socket_running _ Hwf Hs) as Hg. destruct c as [g pos]. simpl in *. subst g.
    rewrite answers in H. destruct pos; try done.
    + injection H as <- <- <-. by constructor.
    + apply bind_ok in H as (c1 & s1 & H & E). injection E as <- <- <-. cbn [perform gr_guard] in H.
      apply bind_ok in H as (g & s2 & H & E). injection E as <- <-.
      pose proof (guarded_call_next _ _ _ _ _ _ H) as ->. by constructor.
  - destruct c as [g pos]. assert (pos = rp_start ∨ g = gs_running ∨ ∃ b, g = gs_done b) as [->|Hg].
    { destruct g; unfold request_wf in Hwf; simpl in Hwf; naive_solver. }
    2: { destruct Hg as [->|[b ->]]; [unfold request_wf in Hwf; simpl in Hwf; congruence|].
      unfold request_call in H. rewrite Hs in H. by apply bind_ok in H as (g & s1 & H & E). }
    rewrite request_call_guard in H by (done || by intros ->).
    apply bind_ok in H as (g' & s1 & Hc & E). pose proof (guarded_call_next _ _ _ _ _ _ Hc) as Hn.
    destruct g' as [| | | |ec'| |b]; try (injection E as <- <- <-).
    6: by constructor.
    all: destruct g as [| | | |ec| |]; simpl in Hn; try done; try (by destruct Hn); try (apply rd_guard; simpl; by auto).
    all: unfold request_wf in Hwf; simpl in Hwf; destruct Hwf as [-> _]; done.
Qed.

Definition request_weight c : nat :=
  match gr_guard c with
  | gs_new => 6
  | gs_trying => 5
  | gs_locking => 4
  | gs_waiting | gs_told _ => 3
  | gs_running => match gr_pos c with rp_written => 2 | _ => 1 end
  | gs_done _ => 0
  end.

Lemma request_does_weight i s s' c c' acts : request_wf c → request_does i s s' c c' acts → request_weight c' < request_weight c.
Proof.
  intros Hwf [?|?|g Hn ?|g g' Hn Hg ?]; unfold request_weight; cbn [gr_guard gr_pos]; [lia|lia|..].
  - destruct g; simpl in Hn; try done; lia.
  - destruct Hg as [->|[->| ->]], g; simpl in Hn; try done; try lia; try naive_solver; by case_match.
Qed.
Lemma heard_weight es i c : request_weight (heard request_hears es i c) ≤ request_weight c.
Proof.
  revert c. induction es as [|e es IH]; intros c; [done|]. unfold heard in *. simpl. etrans; [apply IH|].
  destruct e; simpl; try done; case_decide; try done; unfold request_weight; simpl; by destruct (gr_guard c).
Qed.

(** ** Steps *)

Lemma heard_running es i c : gr_guard c = gs_running → gr_guard (heard request_hears es i c) = gs_running.
Proof.
  revert c. induction es as [|e es IH]; intros c Hc; [done|]. unfold heard in *. simpl. apply IH.
  destruct e; simpl; try done; case_decide; try done; simpl; by rewrite Hc.
Qed.

Section step.
Context (i : nat) (s s' : machine mutex_impl) (c c' : guarded_request) (cl : list guarded_request).
Context (log : list (nat * request_action)) (acts : list request_action).
Context (Hok : requests_ok (s, cl, log)) (Hi : cl !! i = Some c) (Hdo : request_does i s s' c c' acts).
Abbreviation es := (events_since (wld s) (wld s')).
Abbreviation cl' := (deliver request_hears es (<[i := c']> cl)).

Lemma step_guard : (s' = s ∧ gr_guard c' = gr_guard c) ∨ guard i no_error (gr_guard c) s = Some (Ok (gr_guard c'), s').
Proof. destruct Hdo; auto. Qed.

Lemma step_parties : parties_ok (s', guards cl').
Proof.
  pose proof (rq_parties _ Hok) as Hp. cbn [fst snd] in Hp. destruct step_guard as [[-> E]|H]; [|by eapply guard_moves].
  rewrite deliver_none by done. unfold guards in *. rewrite list_fmap_insert, E, list_insert_id; [done|].
  by rewrite list_lookup_fmap, Hi.
Qed.
Lemma step_untroubled : untroubled es.
Proof.
  pose proof (rq_parties _ Hok) as Hp. cbn [fst snd] in Hp. destruct step_guard as [[-> E]|H].
  - rewrite events_since_same by done. constructor.
  - eapply guarded_call_untroubled; [exact Hp| |exact H]. unfold guards. by rewrite list_lookup_fmap, Hi.
Qed.
Lemma step_wf j d : cl' !! j = Some d → request_wf d.
Proof.
  rewrite deliver_lookup. intros (d0 & Hj & ->)%fmap_Some. apply heard_wf; [apply step_untroubled|].
  apply list_lookup_insert_Some in Hj as [(<- & <- & _)|[_ Hj]]; [|by apply (rq_wf _ Hok j)].
  destruct Hdo as [?|?|? ? ?|g g' ? [->|[->| ->]] ?]; done.
Qed.

(** Whoever gets on with the socket is alone there. *)
Lemma step_alone : gr_guard c = gs_running ∨ gr_guard c' = gs_running → ∀ j d, j ≠ i → cl !! j = Some d → on_socket d = false.
Proof.
  intros Hc j d Hne Hj. apply not_true_is_false. intros Hd. pose proof (on_socket_running _ (rq_wf _ Hok _ _ Hj) Hd) as Hd'.
  apply Hne. destruct Hc as [Hc|Hc]; [by eapply (running_unique s cl); [apply Hok|..]|].
  eapply (running_unique s' cl' j i (heard request_hears es j d) (heard request_hears es i c')).
  - apply step_parties.
  - by rewrite deliver_lookup, list_lookup_insert_ne, Hj.
  - rewrite deliver_lookup, list_lookup_insert_eq by (by eapply lookup_lt_Some). done.
  - by apply heard_running.
  - by apply heard_running.
Qed.

Lemma step_log : one_by_one cl' (log ++ (pair i <$> acts)).
Proof.
  apply one_by_one_deliver. pose proof (rq_log _ Hok) as Hl. pose proof step_alone as Halone. cbn [snd fst] in *.
  destruct Hdo as [?|?|g Hn ?|g g' Hn Hg ?].
  - eapply one_by_one_move; [done|done|by apply Halone; left|done..].
  - eapply one_by_one_complete; [done|done|by apply Halone; left|done..].
  - eapply one_by_one_move; [done|done|by apply Halone; right| |done|done]. by destruct g.
  - rewrite app_nil_r. eapply one_by_one_idle; [done|done|done|done|by destruct g|by destruct Hg as [->|[->| ->]]].
Qed.
End step.

Lemma request_step_better y z :
  requests_ok y → request_step y z → requests_ok z ∧ total request_weight z.1.2 < total request_weight y.1.2.
Proof.
  intros Hok Hst. destruct Hst as [i c c' acts s s' cl log Hi Hc].
  pose proof (rq_wf _ Hok _ _ Hi) as Hwf. cbn [fst snd] in Hwf. pose proof (request_call_does _ _ _ _ _ _ Hwf Hc) as Hdo. split.
  - split; cbn [fst snd]; [by eapply step_parties|intros j d; by eapply step_wf|by eapply step_log].
  - cbn [fst snd]. pose proof (request_does_weight _ _ _ _ _ _ Hwf Hdo).
    pose proof (total_insert request_weight cl i c c' Hi).
    pose proof (total_imap_le request_weight (heard request_hears (events_since (wld s) (wld s'))) (<[i := c']> cl) (λ i c, heard_weight _ i c)).
    unfold deliver. lia.
Qed.

(** A guard that can go on makes its request go on. *)
Lemma request_call_runs i s s' c g' :
  request_wf c → guard i no_error (gr_guard c) s = Some (Ok g', s') →
  ∃ c' acts s', request_call i c s = Some (Ok (c', acts), s').
Proof.
  destruct c as [g pos]. cbn [gr_guard]. intros Hwf Hex. destruct (on_socket (GuardedRequest g pos)) eqn:Hs.
  - unfold request_call. rewrite Hs, answers. pose proof (on_socket_running _ Hwf Hs) as Hg. simpl in Hg. subst g. destruct pos; try done.
    + by eexists _, _, _.
    + pose proof (guarded_call_next _ _ _ _ _ _ Hex) as ->. unfold call_request. cbn [request_op_call perform gr_pos gr_guard].
      unfold mbind, M_bind. cbn [ec_failed]. simpl app. cbn [perform gr_guard]. unfold mbind, M_bind. rewrite Hex. by eexists _, _, _.
  - assert (g ≠ gs_running) as Hne.
    { intros ->. unfold request_wf in Hwf. simpl in Hwf. congruence. }
    rewrite request_call_guard by done.
    unfold mbind, M_bind. rewrite Hex. destruct g'; try by eexists _, _, _.
    unfold call_request. destruct pos; try done; by eexists _, _, _.
Qed.

(** As long as a request has not completed somebody can go on. *)
Lemma request_step_exists s cl log i c :
  requests_ok (s, cl, log) → cl !! i = Some c → completed c = false → ∃ z, request_step (s, cl, log) z.
Proof.
  intros Hok Hi Hc. pose proof (rq_parties _ Hok) as Hp. cbn [fst snd] in Hp.
  destruct (party_goes_on_exists tag self no_ecv 1 s (guards cl) i (guarded (gr_guard c))) as (j & d & Hj & Hd); [done|done| | |].
  { unfold guards. by rewrite list_lookup_fmap, Hi. }
  { pose proof (rq_wf _ Hok _ _ Hi) as Hwf. unfold request_wf, completed in *. simpl. destruct (gr_guard c) as [| | | | | |[]]; naive_solver. }
  pose proof Hj as Hj'. unfold guards in Hj. rewrite list_lookup_fmap in Hj. apply fmap_Some in Hj as (d' & Hj & ->).
  pose proof (rq_wf _ Hok _ _ Hj) as Hwf. cbn [fst snd] in Hwf.
  assert (1 ≤ gate_capacity (St := mutex_impl))%Z as Hcap by done.
  pose proof (wp_guarded_call tag t exec self no_ecv (λ _, no_error) 1 memory Hcap s _ j false _ Hp Hj' Hd) as (r & s' & Hex & g' & -> & _)%wp_run.
  pose proof (guarded_call_next _ _ _ _ _ _ Hex) as Hn. destruct d' as [g pos]. simpl in *.
  destruct (request_call_runs j s s' (GuardedRequest g pos) g' Hwf Hex) as (c' & acts & s2 & Hcall). eexists. by eapply rst_call.
Qed.
(** ** Runs *)

Lemma request_steps_length k y z : nsteps request_step k y z → length z.1.2 = length y.1.2.
Proof.
  induction 1 as [|k y z u Hst _ IH]; [done|]. rewrite IH. destruct Hst; simpl. by rewrite length_deliver, length_insert.
Qed.

Lemma requests_ok_start L m w n :
  mutex_rep L m w [] → locked_ m = false → requests_ok (Machine m w, replicate n (GuardedRequest gs_new rp_start), []).
Proof.
  intros Hr Hl. split; cbn [fst snd].
  - eapply (parties_ok_start tag self no_ecv 1); [exact Hr|simpl; by rewrite Hl|..].
    + apply forallb_forall. intros c (? & -> & [-> _]%elem_of_replicate)%list_elem_of_In%list_elem_of_fmap. done.
    + intros i c. unfold guards. rewrite list_lookup_fmap. by intros (? & [-> _]%lookup_replicate & ->)%fmap_Some.
  - by intros i c [-> _]%lookup_replicate.
  - exists []. split_and!; [constructor| |].
    + intros i. split; [by intros ?%not_elem_of_nil|]. by intros (? & [-> _]%lookup_replicate & ?)%fmap_Some.
    + simpl. symmetry. apply mjoin_imap_nil. by intros j d [-> _]%lookup_replicate.
Qed.

Lemma requests_stuck s cl log :
  requests_ok (s, cl, log) → (∀ z, ¬ request_step (s, cl, log) z) →
  locked_ (obj s) = false ∧ ∃ js, js ≡ₚ seq 0 (length cl) ∧ log = js ≫= whole.
Proof.
  intros Hok Hstuck. assert (∀ i c, cl !! i = Some c → completed c = true) as Hall.
  { intros i c Hi. destruct (completed c) eqn:Hc; [done|]. destruct (request_step_exists s cl log i c Hok Hi Hc) as [z Hz].
    by destruct (Hstuck z). }
  split.
  - pose proof (po_places _ _ _ _ _ (rq_parties _ Hok)) as Ho. cbn [fst snd] in Ho. rewrite (total_zero holds) in Ho.
    + simpl in Ho. by destruct (locked_ (obj s)).
    + intros p (c & -> & (i & Hi)%list_elem_of_lookup)%list_elem_of_fmap. pose proof (Hall i c Hi) as Hc.
      unfold completed in Hc. simpl. by destruct (gr_guard c).
  - destruct (rq_log _ Hok) as (js & Hnd & Hjs & E). cbn [fst snd] in *. exists js. split.
    + apply NoDup_Permutation; [done|apply NoDup_seq|]. intros i. rewrite Hjs, elem_of_seq. split.
      * intros (c & Hi & _)%fmap_Some. apply lookup_lt_Some in Hi. lia.
      * intros [_ Hlt]. destruct (lookup_lt_is_Some_2 cl i Hlt) as [c Hi]. rewrite Hi. simpl. by rewrite (Hall i c Hi).
    + rewrite E, mjoin_imap_nil; [by rewrite app_nil_r|]. intros i c Hi. apply begun_nothing.
      pose proof (rq_wf _ Hok i c Hi) as Hwf. pose proof (Hall i c Hi) as Hc. unfold completed, request_wf, on_socket in *.
      destruct (gr_guard c); try done. by destruct Hwf as [_ ->].
Qed.
End system.

(** ** The property *)

Section property.
Import Mutex.
Context {ASIO : Asio} `{!EqDecision handler}.
Implicit Types (L : gmap addr (list addr)) (m : mutex_impl) (w : world).

(** [main]: a mutex, and [n] requests guarded by it. *)
Definition requests_start (n : nat) m w : requests := (Machine m w, replicate n (GuardedRequest gs_new rp_start), []).

(** C18: the example does what it means to. Let any number of requests be guarded
    by one mutex, and let no operation of the socket fail. In whatever order the
    handlers run, one request at most is on the socket, and each request prepares
    its payload, writes, reads and completes before the next one begins; at most
    six handlers run for a request; and in a state in which nothing can happen any
    more every request has been made and has completed, exactly once, and the
    mutex is free. *)
Theorem guarded_requests_one_by_one tag t exec self result L m w n k s cl log :
  Inj (=) (=) (λ i, tag (self i)) → (∀ i X, allocate (tag (self i)) X ≠ None) →
  mutex_rep L m w [] → locked_ m = false → (∀ i pos, result i pos = no_error) →
  nsteps (request_step tag t exec self result) k (requests_start n m w) (s, cl, log) →
  length cl = n ∧
  (∀ i j c d, cl !! i = Some c → cl !! j = Some d → on_socket c = true → on_socket d = true → i = j) ∧
  one_by_one cl log ∧ k + total request_weight cl ≤ 6 * n ∧
  ((∀ z, ¬ request_step tag t exec self result (s, cl, log) z) →
    locked_ (obj s) = false ∧ ∃ js, js ≡ₚ seq 0 n ∧ log = js ≫= whole).
Proof.
  intros Hinj Hmem Hr Hl Hres Hst.
  pose proof (requests_ok_start tag self L m w n Hr Hl) as Hok.
  destruct (nsteps_shrink (request_step tag t exec self result) (requests_ok tag self) (λ y, total request_weight y.1.2) _ _ _
    (request_step_better tag t exec self result Hmem Hres) Hok Hst) as [Hok' Hle].
  pose proof (request_steps_length _ _ _ _ _ _ _ _ Hst) as Hlen. cbn [fst snd requests_start] in *.
  rewrite length_replicate in Hlen. rewrite total_replicate in Hle.
  split_and!; [done| |apply Hok'|simpl in Hle; lia|rewrite <- Hlen; by eapply requests_stuck].
  intros i j c d Hi Hj Hc Hd. eapply (running_unique tag self s cl i j); [apply Hok'|done|done|..];
    (eapply on_socket_running; [by eapply (rq_wf _ _ _ Hok')|done]).
Qed.
(** C35: what happens when a write fails. [operator()] completes the request and
    does not return: the guard unlocks the mutex, the next in line gets it (or
    nobody does), and the request that has completed goes on to read from the
    socket. When the read ends it completes for a second time, which asio does not
    allow. *)
Theorem request_failed_write_unlocks tag t exec self result i L m w q :
  mutex_rep L m w q → locked_ m = true → ec_failed (result i rp_written) = true →
  wp (request_call tag t exec self result i (GuardedRequest gs_running rp_written)) (Machine m w) (λ r s',
    ∃ c, r = Ok (c, [ra_complete (result i rp_written); ra_async_read]) ∧ on_socket c = true ∧ completed c = true ∧
    match q with
    | [] => locked_ (obj s') = false
    | po :: _ => events_since w (wld s') = completion no_error po
    end ∧ ∀ s'', request_call tag t exec self result i c s'' = None).
Proof.
  intros Hr Hl Hec. unfold request_call, call_request. cbn [on_socket gr_pos request_op_call]. rewrite Hec.
  cbn [app perform gr_guard gr_pos guarded_call]. rewrite guard_done_eq.
  apply wp_bind, wp_bind, wp_bind, wp_bind. eapply wp_mono; [by eapply wp_gate_give; [exact Hr|simpl; rewrite Hl]|].
  intros r s' [-> H]. apply wp_ret, wp_ret, wp_ret, wp_ret. eexists. split_and!; [done..| |].
  - destruct q as [|po q].
    + destruct H as (m' & -> & _ & Hf & _). simpl in *. by destruct (locked_ m'), (locked_ m).
    + destruct H as (w' & -> & Hsb & _). cbn [wld]. apply events_since_app. by rewrite (trace_same _ _ Hsb), trace_finish.
  - intros s''. cbn [on_socket gr_pos request_op_call]. by destruct (result i rp_read).
Qed.
End property.

(** ** At work *)

Section witness.
Import Mutex.
#[local] Existing Instance test_asio.

(** Three requests; the second and the third wait for the mutex. *)
Definition demo_requests : requests := requests_start 3 (obj (demo_mutex true)) (wld (demo_mutex true)).
Definition demo_request_turns : list nat := [0; 1; 0; 1; 1; 2; 0; 2; 2; 0; 1; 1; 1; 2; 2; 2].
Definition demo_answers (i : nat) (pos : request_pos) : error_code := no_error.
Definition demo_request_step : relation requests :=
  request_step (ASIO := test_asio) id Err_error_code 0 demo_self demo_answers.
Definition demo_requests_end : requests :=
  default demo_requests
    (play (request_turn (ASIO := test_asio) id Err_error_code 0 demo_self demo_answers) demo_request_turns demo_requests).

Lemma demo_requests_run :
  nsteps demo_request_step 16 demo_requests (demo_requests_end.1.1, demo_requests_end.1.2, demo_requests_end.2).
Proof.
  eapply (play_nsteps demo_request_step _ demo_request_turns); [apply request_turn_step|]. vm_compute. reflexivity.
Qed.
Example demo_requests_log : demo_requests_end.2 = [0; 1; 2] ≫= whole.
Proof. vm_compute. reflexivity. Qed.

(** When the write of the first request fails, the request completes and the
    guard unlocks the mutex, but the request goes on to read: the second one is on
    the socket at the same time. The end of the read would complete the first for a
    second time. *)
Definition demo_bad_answers (i : nat) (pos : request_pos) : error_code :=
  match i, pos with 0, rp_written => operation_aborted | _, _ => no_error end.
Definition demo_bad_turn : nat → requests → option requests :=
  request_turn (ASIO := test_asio) id Err_error_code 0 demo_self demo_bad_answers.
Definition demo_requests_overlap : requests := default demo_requests (play demo_bad_turn [0; 1; 0; 1; 1; 0; 1] demo_requests).
Example demo_requests_both :
  on_socket <$> demo_requests_overlap.1.2 = [true; true; false] ∧
  demo_requests_overlap.2 =
    [(0, ra_prepare_payload); (0, ra_async_write); (0, ra_complete operation_aborted); (0, ra_async_read);
     (1, ra_prepare_payload); (1, ra_async_write)] ∧
  demo_bad_turn 0 demo_requests_overlap = None.
Proof. vm_compute. done. Qed.

Lemma request_failed_write_unlocks_witness :
  wp (request_call (ASIO := test_asio) id Err_error_code 0 demo_self demo_bad_answers 0 (GuardedRequest gs_running rp_written))
    (Machine (set_locked true (obj (demo_mutex true))) (wld (demo_mutex true))) (λ r s',
    ∃ c, r = Ok (c, [ra_complete operation_aborted; ra_async_read]) ∧ on_socket c = true ∧ completed c = true ∧
    locked_ (obj s') = false ∧
    ∀ s'', request_call (ASIO := test_asio) id Err_error_code 0 demo_self demo_bad_answers 0 c s'' = None).
Proof.
  apply (request_failed_write_unlocks (ASIO := test_asio) id Err_error_code 0 demo_self demo_bad_answers 0 demo_mutex_lists
    (set_locked true (obj (demo_mutex true))) (wld (demo_mutex true)) []).
  - apply mutex_rep_locked, demo_mutex_rep.
  - reflexivity.
  - reflexivity.
Defined.

Lemma guarded_requests_one_by_one_witness :
  length demo_requests_end.1.2 = 3 ∧
  (∀ i j c d, demo_requests_end.1.2 !! i = Some c → demo_requests_end.1.2 !! j = Some d →
    on_socket c = true → on_socket d = true → i = j) ∧
  one_by_one demo_requests_end.1.2 demo_requests_end.2 ∧ 16 + total request_weight demo_requests_end.1.2 ≤ 18 ∧
  ((∀ z, ¬ demo_request_step (demo_requests_end.1.1, demo_requests_end.1.2, demo_requests_end.2) z) →
    locked_ (obj demo_requests_end.1.1) = false ∧ ∃ js, js ≡ₚ seq 0 3 ∧ demo_requests_end.2 = js ≫= whole).
Proof.
  apply (guarded_requests_one_by_one (ASIO := test_asio) id Err_error_code 0 demo_self demo_answers demo_mutex_lists
    (obj (demo_mutex true)) (wld (demo_mutex true)) 3 16 demo_requests_end.1.1 demo_requests_end.1.2 demo_requests_end.2).
  - exact demo_self_inj.
  - exact demo_memory.
  - apply demo_mutex_rep.
  - vm_compute. reflexivity.
  - reflexivity.
  - exact demo_requests_run.
Defined.
End witness.
