(* ===== verification/CondVarBenchmark.v ===== *)
(** * The benchmark of the condition variable

    [run_benchmark] of [bench/condition_variable.cpp] with the library's
    condition variable: one function object that posts itself [n] times, and each
    time but the last starts a wait for a predicate, wakes one waiter, or, every
    hundredth time, all that are ready. The whole life of the condition variable
    is in it, from its constructor to its destructor. *)
From S2P Require Import Prelude Machine Bilist Ops Service Impl CondVar CondVarSpec Basic.

(** ** The code *)

Section code.
Context {ASIO : Asio} {CTX : Contexts}.

(** [lambda i] is the predicate [[i] { return i % 4 == 0; }], [call] what calling
    a predicate returns, [detached i] the [net::detached] of the wait [i]. *)
Context (lambda : nat → predicate) (call : predicate → bool) (detached : nat → handler).

(** [impl::operator()(ec, i)]: the [i] it posts itself with, if any. *)
Definition impl_call (i : nat) : M basic_condition_variable (option nat) :=
  (if negb (i =? 0) then basic_condition_variable_async_predicate_wait (lambda i) (detached i) else mret tt);;
  (if i mod 100 =? 0 then basic_condition_variable_notify_all call
   else basic_condition_variable_notify_one call);;
  mret (if negb (i =? 0) then Some (i - 1) else None).

(** [exec.context().run()]: as long as [impl] is posted it is called. (The
    [detached] handlers that are posted as well do nothing.) *)
Fixpoint context_run (fuel : nat) (posted : option nat) : M basic_condition_variable unit :=
  match posted with
  | None => mret tt
  | Some i =>
      match fuel with
      | O => ub
      | S fuel => posted ← impl_call i; context_run fuel posted
      end
  end.

Definition basic_condition_variable_dtor : M basic_condition_variable unit :=
  on_impl condition_variable_impl_dtor.

Definition run_benchmark {St} (this waiters : addr) (exec : executor) (n : nat) : M St unit :=
  with_local (basic_condition_variable_ctor this waiters exec CONCURRENCY_HINT_DEFAULT)
    (context_run (S n) (Some n))
    basic_condition_variable_dtor.

(** What the waits are told: the handlers posted, with their errors. *)
Definition posted_one (e : event) : option (handler * error_code) :=
  match e with ev_post _ h ec => Some (h, ec) | _ => None end.
Definition posted (es : list event) : list (handler * error_code) := omap posted_one es.
End code.

(** [i % 4 == 0], and the values of [i] of the calls that start a wait. *)
Definition fourth (i : nat) : bool := i mod 4 =? 0.
Fixpoint countdown (n : nat) : list nat :=
  match n with
  | O => []
  | S k => S k :: countdown k
  end.

(** Of the waits [js], [told] are served, in order, and [later] is left. *)
Definition serves (js told later : list nat) : Prop :=
  told ++ filter (λ j, fourth j) later = filter (λ j, fourth j) js ∧
  filter (λ j, negb (fourth j)) later = filter (λ j, negb (fourth j)) js.
Definition no_fourth (js : list nat) : Prop := filter (λ j, fourth j) js = [].
(** [notify_one] serves the oldest wait, if its predicate holds. *)
Definition served (js : list nat) : list nat :=
  match js with
  | j :: _ => if fourth j then [j] else []
  | [] => []
  end.

Lemma no_fourth_filter js : no_fourth (filter (λ j, negb (fourth j)) js).
Proof.
  unfold no_fourth. induction js as [|j js IH]; [done|]. rewrite !filter_cons.
  destruct (fourth j) eqn:E; simpl; [done|]. by rewrite filter_cons, E.
Qed.
Lemma no_fourth_all js : no_fourth js → filter (λ j, negb (fourth j)) js = js.
Proof.
  unfold no_fourth. induction js as [|j js IH]; [done|]. rewrite !filter_cons.
  destruct (fourth j) eqn:E; simpl; [done|]. intros H. by rewrite IH.
Qed.
Lemma serves_all js : serves js (filter (λ j, fourth j) js) (filter (λ j, negb (fourth j)) js).
Proof.
  split; [by rewrite (no_fourth_filter js : filter _ _ = []), app_nil_r|].
  apply no_fourth_all, no_fourth_filter.
Qed.
Lemma serves_one js : serves js (served js) (drop (length (served js)) js).
Proof.
  unfold serves, served. destruct js as [|j js]; [done|]. destruct (fourth j) eqn:E; [|done].
  simpl. rewrite drop_0, !filter_cons, E. done.
Qed.

(** ** The state of a run *)

Section run.
Context {ASIO : Asio} {CTX : Contexts}.
Context (lambda : nat → predicate) (call : predicate → bool) (detached : nat → handler) (exec : executor).
Context (Hcall : ∀ i, call (lambda i) = fourth i) (memory : ∀ i X, allocate (detached i) X ≠ None).
Context (m : condition_variable_impl) (svc : addr) (ms : list addr) (Hne : svc ≠ cv_waiters m).
Implicit Types (w : world) (q : list (addr * op)) (i j : nat) (js : list nat).

Definition wait_op i : op :=
  predicate_op_model (get_associated_executor (detached i) exec) (detached i) (user_predicate (lambda i)).

(** The waits [js] are in line. *)
Definition in_line w js : Prop := ∃ L q,
  condvar_rep L m w q ∧ q.*2 = wait_op <$> js ∧ service_ok w L svc ms.

Definition cv : basic_condition_variable := BasicObject exec m.
Definition notified (ec : error_code) i : handler * error_code := (detached i, ec).

Lemma ready_wait (p : addr) i : ready call (p, wait_op i) = fourth i.
Proof. exact (Hcall i). Qed.

Lemma posted_wait ec (p : addr) i : posted (completion ec (p, wait_op i)) = [notified ec i].
Proof. done. Qed.
Lemma posted_waits ec q js : q.*2 = wait_op <$> js → posted (q ≫= completion ec) = notified ec <$> js.
Proof.
  revert js. induction q as [|[p o] q IH]; intros [|j js] Hq; try done. injection Hq as -> Hq.
  unfold posted in *. rewrite bind_cons, omap_app. by rewrite (IH js Hq).
Qed.
Lemma filter_waits (f : addr * op → bool) (g : nat → bool) q js :
  (∀ p i, f (p, wait_op i) = g i) → q.*2 = wait_op <$> js →
  (filter (λ po, f po) q).*2 = wait_op <$> filter (λ i, g i) js.
Proof.
  intros Hfg. revert js. induction q as [|[p o] q IH]; intros [|j js] Hq; try done.
  injection Hq as -> Hq. rewrite !filter_cons, Hfg. case_decide; rewrite ?fmap_cons; by rewrite (IH js Hq).
Qed.

(** The members of the service are no operations, and stay so. *)
Lemma service_ok_keep w L w' L' :
  service_ok w L svc ms → L' !! svc = L !! svc → services w' = services w →
  (∀ a, a ∈ ms → ops w !! a = None → ops w' !! a = None) → service_ok w' L' svc ms.
Proof.
  intros [Hms Hc Hpl] HL Hs Hops. split; [by rewrite HL|by rewrite Hs|].
  rewrite Forall_forall in *. auto.
Qed.
Lemma service_ok_finished ec w L q q1 N' L' :
  service_ok w L svc ms → Forall (λ po, ops w !! po.1 = Some po.2) q → q1 ⊆ q → L' !! svc = L !! svc →
  service_ok (with_nodes N' (finish_all ec q1 w)) L' svc ms.
Proof.
  intros Hs Hq Hsub HL. eapply service_ok_keep; [done|done|apply services_finish_all|].
  intros a _ Ha. simpl. rewrite ops_finish_all_ne; [done|]. intros ([p o] & -> & Hin)%list_elem_of_fmap.
  rewrite Forall_forall in Hq. specialize (Hq (p, o) (Hsub _ Hin)). simpl in *. congruence.
Qed.

(** ** The calls *)

(** What a call leaves: the same object, [js] in line and [told] added to what
    has been posted. *)
Definition leaves w js told (s' : machine basic_condition_variable) : Prop :=
  obj s' = cv ∧ in_line (wld s') js ∧ posted (trace (wld s')) = posted (trace w) ++ told.

Lemma leaves_intro w js told L' q' w' :
  condvar_rep L' m w' q' → q'.*2 = wait_op <$> js → service_ok w' L' svc ms →
  posted (trace w') = posted (trace w) ++ told → leaves w js told (Machine cv w').
Proof. intros. split_and!; [done|by exists L', q'|done]. Qed.

Lemma wp_wait w js i :
  in_line w js →
  wp (basic_condition_variable_async_predicate_wait (lambda i) (detached i)) (Machine cv w)
    (λ r s', r = Ok tt ∧ leaves w (js ++ [i]) [] s').
Proof.
  intros (L & q & Hr & Hq & Hs). apply wp_bind, wp_bind, wp_get_obj, wp_ret, wp_on_impl.
  eapply wp_async_predicate_wait; [done|by intros ?%memory|].
  intros p N' _ Hp po w' Hr'. split; [done|]. eapply leaves_intro; [exact Hr'|by rewrite !fmap_app, Hq| |].
  - eapply service_ok_keep; [done|by rewrite lookup_insert_ne|done|].
    intros a Ha Hop. simpl. rewrite lookup_insert_ne; [done|]. intros <-.
    destruct (heap_rep_listed _ _ p (wo_heap _ _ (io_world _ _ _ _ (cr_impl _ _ _ _ Hr)))) as [nd Hnd];
      [eapply listed_member; [apply Hs|done]|]. congruence.
  - by rewrite app_nil_r.
Qed.

(** [notify_one]. *)
Lemma wp_wake_one w js :
  in_line w js →
  wp (basic_condition_variable_notify_one call) (Machine cv w) (λ r s', r = Ok tt ∧
    leaves w (drop (length (served js)) js) (notified no_error <$> served js) s').
Proof.
  intros (L & q & Hr & Hq & Hs). apply wp_on_impl.
  assert (∀ told, told = [] → leaves w js told (Machine cv w)) as Hsame.
  { intros told ->. eapply leaves_intro; [done..|by rewrite app_nil_r]. }
  eapply wp_notify_one; [done|]. destruct q as [|[p o] q], js as [|j js]; simplify_eq/=; [by split; [|apply Hsame]|].
  rewrite ready_wait. destruct (fourth j) eqn:Hj; [|by split; [|apply Hsame]].
  intros N' Hr'. split; [done|]. eapply leaves_intro; [exact Hr'|done| |].
  - eapply (service_ok_finished no_error w L _ [(p, wait_op j)]);
      [done|apply (cr_queue _ _ _ _ Hr)|set_solver|by rewrite lookup_insert_ne].
  - change (trace (with_nodes _ ?w')) with (trace w'). rewrite trace_finish.
    unfold posted. by rewrite omap_app.
Qed.

(** [notify_all] serves every wait whose predicate holds. *)
Lemma wp_wake_all w js :
  in_line w js →
  wp (basic_condition_variable_notify_all call) (Machine cv w) (λ r s', r = Ok tt ∧
    leaves w (filter (λ i, negb (fourth i)) js) (notified no_error <$> filter (λ i, fourth i) js) s').
Proof.
  intros (L & q & Hr & Hq & Hs). apply wp_on_impl. eapply wp_notify_all; [done|].
  intros N' w' rest Hr'. split; [done|]. eapply leaves_intro; [exact Hr'|..].
  - apply (filter_waits (λ po, negb (ready call po))); [|done]. intros p i. by rewrite ready_wait.
  - eapply service_ok_finished; [done|apply (cr_queue _ _ _ _ Hr)|by intros ? [_ ?]%list_elem_of_filter|by rewrite lookup_insert_ne].
  - subst w'. cbn [wld]. change (trace (with_nodes _ ?w')) with (trace w'). rewrite trace_finish_all.
    unfold posted at 1. rewrite omap_app. f_equal. apply posted_waits, (filter_waits (λ po, ready call po)); [|done]. intros p i. by rewrite ready_wait.
Qed.

(** One call of [impl]: of the waits in line, with the one it adds, [told] are
    served, and [later] is left. *)
Definition joined i js : list nat := if i =? 0 then js else js ++ [i].
Lemma wp_impl_call w js i :
  in_line w js →
  wp (impl_call lambda call detached i) (Machine cv w) (λ r s', ∃ told later,
    r = Ok (if i =? 0 then None else Some (i - 1)) ∧ leaves w later (notified no_error <$> told) s' ∧
    serves (joined i js) told later ∧ (i = 0 → no_fourth later)).
Proof.
  intros Hl. apply wp_bind.
  assert (wp (if negb (i =? 0) then basic_condition_variable_async_predicate_wait (lambda i) (detached i) else mret tt)
    (Machine cv w) (λ r s', r = Ok tt ∧ leaves w (joined i js) [] s')) as Hwait.
  { unfold joined. destruct (i =? 0); [|by apply wp_wait]. apply wp_ret. split; [done|].
    unfold leaves. by rewrite app_nil_r. }
  eapply wp_mono; [exact Hwait|]. intros ? [o1 w1] (-> & E & Hl1 & Ht1). cbn [obj wld] in *. subst o1. rewrite app_nil_r in Ht1.
  assert (∀ told later s', leaves w1 later (notified no_error <$> told) s' → leaves w later (notified no_error <$> told) s') as Hw.
  { intros told later s' (? & ? & H). unfold leaves. by rewrite <- Ht1. }
  apply wp_bind. destruct (i mod 100 =? 0) eqn:Ei.
  - eapply wp_mono; [by apply wp_wake_all|]. intros ? s2 [-> H]. apply wp_ret. do 2 eexists.
    split_and!; [by destruct (i =? 0)|by apply Hw|apply serves_all|intros _; apply no_fourth_filter].
  - eapply wp_mono; [by apply wp_wake_one|]. intros ? s2 [-> H]. apply wp_ret. do 2 eexists.
    split_and!; [by destruct (i =? 0)|by apply Hw|apply serves_one|]. intros ->. done.
Qed.

(** ** The run *)

Lemma wp_context_run w js i fuel :
  in_line w js → i < fuel →
  wp (context_run lambda call detached fuel (Some i)) (Machine cv w) (λ r s', r = Ok tt ∧
    leaves w (filter (λ j, negb (fourth j)) (js ++ countdown i))
      (notified no_error <$> filter (λ j, fourth j) (js ++ countdown i)) s').
Proof.
  revert w js fuel. induction i as [|i IH]; intros w js [|fuel] Hl Hlt; [lia| |lia|].
  - cbn [context_run]. apply wp_bind. eapply wp_mono; [by apply (wp_impl_call w js 0)|].
    intros ? s (told & later & -> & H & [H1 H2] & H0). specialize (H0 eq_refl).
    change (joined 0 js) with js in *. rewrite (H0 : filter _ _ = []), app_nil_r in H1.
    rewrite (no_fourth_all _ H0) in H2. rewrite app_nil_r, <- H1, <- H2. by destruct fuel; apply wp_ret.
  - cbn [context_run]. apply wp_bind. eapply wp_mono; [by apply (wp_impl_call w js (S i))|].
    intros ? [o1 w1] (told & later & -> & (E & Hl1 & Ht1) & [H1 H2] & _). simpl in E. subst o1.
    change (S i =? 0) with false. cbn [negb]. replace (S i - 1) with i by lia.
    eapply wp_mono; [apply (IH w1 later); [done|lia]|]. intros ? s2 (-> & E2 & Hl2 & Ht2). split; [done|].
    assert (∀ f : nat → bool, filter (λ j, f j) (js ++ countdown (S i)) = filter (λ j, f j) (joined (S i) js) ++ filter (λ j, f j) (countdown i)) as Hf.
    { intros f. unfold joined. simpl. rewrite <- filter_app. by rewrite <- app_assoc. }
    rewrite (Hf (λ j, negb (fourth j))), (Hf fourth), <- H1, <- H2, <- filter_app, <- app_assoc, <- filter_app.
    cbn [wld] in *. split_and!; [done..|]. by rewrite Ht2, Ht1, <- app_assoc, fmap_app.
Qed.
End run.

(** ** The property *)

Section properties.
Context {ASIO : Asio} {CTX : Contexts}.

(** C21: the benchmark of the condition variable ends for every [n], and every
    wait it starts is posted exactly once: those whose predicate holds with no
    error, in the order they were started in, however many unready waits are in
    front of them (the call with [i = 0] wakes all that are ready), and then, from
    the destructor, all others with [operation_aborted], in the order they were
    started in. The service has the members it had before. *)
Theorem condvar_benchmark_completes lambda call detached exec L w ms this waiters n :
  (∀ i, call (lambda i) = fourth i) → (∀ i X, allocate (detached i) X ≠ None) →
  world_ok w L → service_ok w L (query_context exec) ms →
  nodes w !! this = None → nodes w !! waiters = None → this ≠ waiters → unreferenced w this →
  wp (run_benchmark lambda call detached this waiters exec n) (Machine tt w) (λ r s', r = Ok tt ∧
    posted (trace (wld s')) = posted (trace w) ++
      (notified detached no_error <$> filter (λ i, fourth i) (countdown n)) ++
      (notified detached operation_aborted <$> filter (λ i, negb (fourth i)) (countdown n)) ∧
    ∃ L', world_ok (wld s') L' ∧ service_ok (wld s') L' (query_context exec) ms).
Proof.
  intros Hcall Hmem Hok Hs Hthis Hwait Htw Hun. set (svc := query_context exec).
  assert (svc ≠ waiters) as Hne.
  { intros E. destruct (heap_rep_listed _ _ svc (wo_heap _ _ Hok)) as [nd Hnd]; [eapply listed_root, Hs|].
    congruence. }
  apply wp_with_local. apply wp_bind.
  eapply wp_condition_variable_impl_ctor; [done..|]. intros N' w1 L1 c m Hr Hs1. apply wp_ret. cbn [wld].
  eapply wp_mono; [eapply (wp_context_run lambda call detached exec Hcall Hmem m svc (ms ++ [this]) Hne w1 [] n (S n)); [|lia]|].
  { by exists L1, []. }
  intros ? [o w2] (-> & E & (L2 & q & Hr2 & Hq & Hs2) & Ht). cbn [obj wld] in *. subst o.
  apply wp_on_impl. eapply (wp_condition_variable_impl_dtor L2 m w2 q svc ms []); [done..|].
  intros N3 w3 L3 H1 H2. split_and!; [done..| |exists L3; by rewrite app_nil_r in *].
  subst w3. cbn [wld]. change (trace (with_nodes _ ?w')) with (trace w'). rewrite trace_finish_all.
  unfold posted at 1. rewrite omap_app. fold (posted (trace w2)). rewrite Ht, <- app_assoc. do 2 f_equal.
  eapply posted_waits, Hq.
Qed.
End properties.

(** ** At work *)

Section witnesses.
#[local] Existing Instance test_asio.

Definition demo_contexts : @Contexts test_asio :=
  {| query_context := λ _, 1%positive; context_executor := λ _, 0; context_config := λ _, demo_config true |}.
Definition demo_benchmark (n : nat) : M unit unit :=
  run_benchmark (ASIO := test_asio) (CTX := demo_contexts) (λ i, i) fourth (λ i, 2 * i) 2 3 0 n.

(** Four waits: only the first is ready, and all of the others are aborted. *)
Example demo_benchmark_runs :
  (λ es, posted es) <$> run_trace (demo_benchmark 4 (Machine tt (demo_world true))) =
  Some [(8, no_error); (6, operation_aborted); (4, operation_aborted); (2, operation_aborted)].
Proof. vm_compute. reflexivity. Qed.

Lemma condvar_benchmark_completes_witness :
  wp (demo_benchmark 9) (Machine tt (demo_world true)) (λ r s', r = Ok tt ∧
    posted (trace (wld s')) = posted (trace (demo_world true)) ++
      (notified (λ i, 2 * i) no_error <$> [8; 4]) ++
      (notified (λ i, 2 * i) operation_aborted <$> [9; 7; 6; 5; 3; 2; 1]) ∧
    ∃ L', world_ok (wld s') L' ∧ service_ok (wld s') L' 1 []).
Proof.
  apply (condvar_benchmark_completes (ASIO := test_asio) (CTX := demo_contexts) (λ i, i) fourth (λ i, 2 * i) 0
    demo_lists (demo_world true) [] 2 3 9).
  - done.
  - intros i X. simpl. destruct (Nat.eqb_spec (i + (i + 0)) 13); [lia|done].
  - apply (demo_world_ok true).
  - apply (demo_world_ok true).
  - vm_compute. reflexivity.
  - vm_compute. reflexivity.
  - discriminate.
  - by intros n c.
Defined.
End witnesses.
