(* ===== verification/MutexBenchmark.v ===== *)
(** * The benchmark of the mutex

    [bench/mutex.cpp]: [run_benchmark] as a whole program, with the library's
    mutex and with [tmutex], the imitation of a mutex by a channel that holds one
    message. asio's channel is a parameter: the class [Channel] lists what
    [tmutex] calls, and [ChannelOk] its documented behaviour. *)
From S2P Require Import Prelude Machine Bilist Ops Service Impl Mutex MutexSpec Basic Clients Scheduler.

(** ** Channels *)

(** [Channel<void(error_code)>]: its constructor with the size of its buffer,
    and the calls, which say what they have asio do. The answer of [try_receive]
    is the message it calls its handler with. *)
Class Channel `{ASIO : Asio} := {
  channel : Type;
  channel_ctor : executor → nat → channel;
  try_send : error_code → channel → bool * channel;
  async_send : error_code → handler → channel → list event * channel;
  try_receive : channel → option error_code * list event * channel
}.

(** What asio documents of a channel, of which one sees the messages in the
    buffer, its size, and the senders that wait, as long as it is [undisturbed]:
    open, with no operation cancelled and nobody who waits to receive. [try_send]
    fails when the buffer is full; [try_receive] fails when the buffer is empty
    and no sender waits (a channel of size 0 hands a message from a sender
    directly to a receiver). *)
Class ChannelOk `{ASIO : Asio, !Channel} := {
  buffer : channel → list error_code;
  limit : channel → nat;
  senders : channel → list (error_code * handler);
  undisturbed : channel → Prop;
  ctor_empty e n : let c := channel_ctor e n in undisturbed c ∧ buffer c = [] ∧ limit c = n ∧ senders c = [];
  try_send_ok m c : undisturbed c → let r := try_send m c in
    undisturbed r.2 ∧ limit r.2 = limit c ∧ senders r.2 = senders c ∧
    if decide (length (buffer c) < limit c) then r.1 = true ∧ buffer r.2 = buffer c ++ [m]
    else r.1 = false ∧ buffer r.2 = buffer c;
  async_send_ok m h c : undisturbed c → let r := async_send m h c in
    undisturbed r.2 ∧ limit r.2 = limit c ∧
    if decide (length (buffer c) < limit c) then
      told_of r.1 = [(h, no_error)] ∧ buffer r.2 = buffer c ++ [m] ∧ senders r.2 = senders c
    else told_of r.1 = [] ∧ buffer r.2 = buffer c ∧ senders r.2 = senders c ++ [(m, h)];
  try_receive_ok c : undisturbed c → let r := try_receive c in
    undisturbed r.2 ∧ limit r.2 = limit c ∧
    match buffer c, senders c with
    | [], [] => r.1 = (None, []) ∧ buffer r.2 = [] ∧ senders r.2 = []
    | m :: ms, [] => r.1 = (Some m, []) ∧ buffer r.2 = ms ∧ senders r.2 = []
    | [], (m', h) :: ss => r.1.1 = Some m' ∧ told_of r.1.2 = [(h, no_error)] ∧ buffer r.2 = [] ∧ senders r.2 = ss
    | m :: ms, (m', h) :: ss =>
        r.1.1 = Some m ∧ told_of r.1.2 = [(h, no_error)] ∧ buffer r.2 = ms ++ [m'] ∧ senders r.2 = ss
    end
}.

(** ** The imitation *)

Section code.
Context {ASIO : Asio} `{!Channel}.

Record tmutex := TMutex { chan : channel }.

Definition tmutex_ctor (exec : executor) : tmutex := TMutex (channel_ctor exec 1).

Definition tmutex_try_lock : M tmutex bool :=
  m ← get_obj;
  let r := try_send no_error (chan m) in
  modify_obj (λ _, TMutex r.2);;
  mret r.1.

Definition tmutex_async_lock (h : handler) : M tmutex unit :=
  m ← get_obj;
  let r := async_send no_error h (chan m) in
  modify_obj (λ _, TMutex r.2);;
  modify_world (logs r.1).

(** The handler given to [try_receive] does nothing. *)
Definition tmutex_unlock : M tmutex unit :=
  m ← get_obj;
  let r := try_receive (chan m) in
  modify_obj (λ _, TMutex r.2);;
  modify_world (logs r.1.2).
End code.

#[export] Instance tmutex_bench `{ASIO : Asio, !Channel} : BenchMutex tmutex :=
  {| bm_try_lock := tmutex_try_lock; bm_async_lock := tmutex_async_lock; bm_unlock := tmutex_unlock |}.

(** The library's mutex. *)
#[export] Instance basic_mutex_bench `{ASIO : Asio} : BenchMutex basic_mutex :=
  {| bm_try_lock := basic_mutex_try_lock; bm_async_lock := basic_mutex_async_lock; bm_unlock := basic_mutex_unlock |}.

(** ** The program *)

Section program.
Context {ASIO : Asio} `{!EqDecision handler} `{!BenchMutex St}.

(** The coroutine [h] goes on when its handler is handed to its executor. *)
Definition resumed (h : handler) (e : event) (i : nat) (c : client) : client :=
  match e with
  | ev_post _ h' _ | ev_dispatch _ h' _ => if decide (h = h') then told c else c
  | _ => c
  end.

(** [exec.context().run()] runs the coroutine until it ends or waits, when there
    is nothing left to run. *)
Fixpoint run (fuel : nat) (h : handler) (c : client) : M St client :=
  match c with
  | Done | Waiting _ => mret c
  | _ =>
      match fuel with
      | O => ub
      | S fuel =>
          w ← get_world;
          c ← client_call h c;
          w' ← get_world;
          run fuel h (heard (resumed h) (events_since w w') 0 c)
      end
  end.

(** [run_benchmark(exec, n)], whose coroutine is the handler [h]. Two calls are
    made in each round when nobody else locks the mutex. *)
Definition run_benchmark {T} (ctor : M T St) (dtor : M St unit) (h : handler) (n : nat) : M T client :=
  with_local ctor (run (S (2 * n)) h (Ready n)) dtor.

(** A mutex that is free is locked by [try_lock], and one that is locked with
    nobody in line is freed by [unlock]; both without telling anybody. *)
Context (free held : machine St → Prop) (w0 : world).
Context (same : ∀ s, free s ∨ held s → trace (wld s) = trace w0).
Context (try_free : ∀ s, free s → wp bm_try_lock s (λ r s', r = Ok true ∧ held s')).
Context (unlock_held : ∀ s, held s → wp bm_unlock s (λ r s', r = Ok tt ∧ free s')).

Lemma wp_run_ready fuel h n s : free s → 2 * n < fuel → wp (run fuel h (Ready n)) s (λ r s', r = Ok Done ∧ free s').
Proof.
  revert n s. induction fuel as [fuel IH] using lt_wf_ind. intros n s Hf Hlt.
  destruct fuel as [|fuel]; [lia|]. cbn [run]. apply wp_bind, wp_get_world, wp_bind. destruct n as [|n]; cbn [client_call].
  - apply wp_ret, wp_bind, wp_get_world. rewrite events_since_same by done. change (heard _ [] 0 Done) with Done.
    destruct fuel; by apply wp_ret.
  - apply wp_bind. eapply wp_mono; [by apply try_free|]. intros r1 s1 [-> Hh]. apply wp_ret, wp_bind, wp_get_world.
    rewrite events_since_same by (rewrite !same; auto). change (heard _ [] 0 ?c) with c.
    destruct fuel as [|fuel]; [lia|]. cbn [run client_call]. apply wp_bind, wp_get_world, wp_bind, wp_bind.
    eapply wp_mono; [by apply unlock_held|]. intros r2 s2 [-> Hf2]. apply wp_ret, wp_bind, wp_get_world.
    rewrite events_since_same by (rewrite !same; auto). change (heard _ [] 0 ?c) with c. apply IH; [lia|done|lia].
Qed.
End program.

(** ** The imitation behaves like the mutex *)

Section imitation.
Context {ASIO : Asio} `{!Channel, !ChannelOk}.
Implicit Types (L : gmap addr (list addr)) (m : mutex_impl) (w : world) (q : list (addr * op)) (h : handler).

Inductive bench_call := b_try_lock | b_async_lock (h : handler) | b_unlock.

Definition bench_exec `{!BenchMutex St} (c : bench_call) : M St (option bool) :=
  match c with
  | b_try_lock => b ← bm_try_lock; mret (Some b)
  | b_async_lock h => bm_async_lock h;; mret None
  | b_unlock => bm_unlock;; mret None
  end.
Fixpoint bench_calls `{!BenchMutex St} (cs : list bench_call) : M St (list (option bool)) :=
  match cs with
  | [] => mret []
  | c :: cs => r ← bench_exec c; rs ← bench_calls cs; mret (r :: rs)
  end.

(** The channel of a mutex that is locked or not, with the handlers [hs] in line. *)
Record channel_rep (c : channel) (locked : bool) (hs : list handler) : Prop := {
  ch_undisturbed : undisturbed c;
  ch_limit : limit c = 1;
  ch_buffer : buffer c = if locked then [no_error] else [];
  ch_senders : senders c = (λ h, (no_error, h)) <$> hs
}.

Lemma channel_rep_ctor exec : channel_rep (channel_ctor exec 1) false [].
Proof. destruct (ctor_empty exec 1) as (? & ? & ? & ?). by split. Qed.

Lemma wp_tmutex_try_lock c w locked hs :
  channel_rep c locked hs →
  wp tmutex_try_lock (Machine (TMutex c) w) (λ r s', ∃ c',
    r = Ok (negb locked) ∧ s' = Machine (TMutex c') w ∧ channel_rep c' true hs).
Proof.
  intros [Hu Hl Hb Hs]. apply wp_bind, wp_get_obj, wp_bind, wp_modify_obj, wp_ret.
  destruct (try_send_ok no_error c Hu) as (Hu' & H1 & H2 & H3). rewrite Hl, Hb in *. eexists. cbn [obj wld chan].
  destruct locked; simpl in H3; destruct H3 as [-> H3]; split_and!; try done; split; first [done|congruence].
Qed.

Lemma wp_tmutex_async_lock c w locked hs h :
  channel_rep c locked hs →
  wp (tmutex_async_lock h) (Machine (TMutex c) w) (λ r s', ∃ c' es,
    r = Ok tt ∧ s' = Machine (TMutex c') (logs es w) ∧ channel_rep c' true (if locked then hs ++ [h] else hs) ∧
    told_of es = if locked then [] else [(h, no_error)]).
Proof.
  intros [Hu Hl Hb Hs]. apply wp_bind, wp_get_obj, wp_bind, wp_modify_obj, wp_modify_world.
  destruct (async_send_ok no_error h c Hu) as (Hu' & H1 & H2). rewrite Hl, Hb in *. do 2 eexists. cbn [obj wld chan].
  destruct locked; simpl in H2; destruct H2 as (Ht & H2 & H3); split_and!; try done;
    split; rewrite ?H3, ?Hs, ?fmap_app; simpl; first [done|congruence].
Qed.

Lemma wp_tmutex_unlock c w locked hs :
  channel_rep c locked hs → (hs ≠ [] → locked = true) →
  wp tmutex_unlock (Machine (TMutex c) w) (λ r s', ∃ c' es,
    r = Ok tt ∧ s' = Machine (TMutex c') (logs es w) ∧ channel_rep c' (match hs with [] => false | _ => true end) (tail hs) ∧
    told_of es = match hs with [] => [] | h :: _ => [(h, no_error)] end ∧ (hs = [] → es = [])).
Proof.
  intros [Hu Hl Hb Hs] Hhs. apply wp_bind, wp_get_obj, wp_bind, wp_modify_obj, wp_modify_world.
  pose proof (try_receive_ok c Hu) as (Hu' & H1 & H2). rewrite Hb, Hs in H2. exists (try_receive c).2, (try_receive c).1.2. cbn [obj wld chan].
  destruct hs as [|h hs]; [destruct locked|rewrite Hhs in H2 by done]; simpl in H2.
  - destruct H2 as (E & ? & ?). rewrite E. split_and!; [done..|split; simpl; first [done|congruence]|done|done].
  - destruct H2 as (E & ? & ?). rewrite E. split_and!; [done..|split; simpl; first [done|congruence]|done|done].
  - destruct H2 as (_ & E & ? & ?). split_and!; [done..|split; simpl; first [congruence|done]|done|done].
Qed.

(** The two mutexes in step. *)
Record in_step (exec : executor) (s : machine basic_mutex) (s' : machine tmutex) : Prop := {
  is_exec : exec_ (obj s) = exec;
  is_step : ∃ L q hs, mutex_rep L (impl_ (obj s)) (wld s) q ∧
    q.*2 = (λ h, basic_op_model (get_associated_executor h exec) h) <$> hs ∧
    channel_rep (chan (obj s')) (locked_ (impl_ (obj s))) hs
}.

(** Both tell the same. *)
Definition tell_alike {A B} (s1 : machine A) (s2 : machine B) w1 w2 : Prop :=
  ∃ es1 es2, trace w1 = trace (wld s1) ++ es1 ∧ trace w2 = trace (wld s2) ++ es2 ∧ told_of es1 = told_of es2.

Lemma tell_alike_nothing {A B} (s1 : machine A) (s2 : machine B) w1 w2 :
  trace w1 = trace (wld s1) → trace w2 = trace (wld s2) → tell_alike s1 s2 w1 w2.
Proof. intros H1 H2. exists [], []. by rewrite !app_nil_r. Qed.

Definition alike exec s1 s2 (x : M basic_mutex (option bool)) (y : M tmutex (option bool)) : Prop :=
  wp x s1 (λ r s1', wp y s2 (λ r2 s2', r2 = r ∧ (∃ a, r = Ok a) ∧ in_step exec s1' s2' ∧ tell_alike s1 s2 (wld s1') (wld s2'))).

Lemma try_alike exec s1 s2 : in_step exec s1 s2 → alike exec s1 s2 (bench_exec b_try_lock) (bench_exec b_try_lock).
Proof.
  intros [He (L & q & hs & Hr & Hq & Hc)]. destruct s1 as [[e m] w1], s2 as [[c] w2]. cbn [obj wld impl_ exec_ chan] in *.
  apply wp_bind, wp_on_impl. eapply wp_try_lock; [exact Hr|].
  assert (∀ m' c', mutex_rep L m' w1 q → channel_rep c' (locked_ m') hs →
    in_step exec (Machine (BasicObject e m') w1) (Machine (TMutex c') w2)) as Hstep.
  { intros m' c' H1 H2. split; [done|]. by exists L, q, hs. }
  destruct (locked_ m) eqn:Hl; apply wp_ret; apply wp_bind; (eapply wp_mono; [by apply wp_tmutex_try_lock|]);
    intros r s (c' & -> & -> & Hc'); apply wp_ret; (split_and!; [done|by eexists| |by apply tell_alike_nothing]); apply Hstep.
  - done.
  - simpl. by rewrite Hl.
  - pose proof (rep_owned _ _ _ _ Hr Hl) as ->. by apply mutex_rep_locked.
  - done.
Qed.

Lemma async_alike exec s1 s2 h :
  (∀ X, allocate h X ≠ None) → in_step exec s1 s2 →
  alike exec s1 s2 (bench_exec (b_async_lock h)) (bench_exec (b_async_lock h)).
Proof.
  intros Hal [He (L & q & hs & Hr & Hq & Hc)]. destruct s1 as [[e m] w1], s2 as [[c] w2]. cbn [obj wld impl_ exec_ chan] in *. subst e.
  assert (∀ m' w1',
    (∃ L' q' hs', mutex_rep L' m' w1' q' ∧ q'.*2 = (λ h, basic_op_model (get_associated_executor h exec) h) <$> hs' ∧
      locked_ m' = true ∧ hs' = if locked_ m then hs ++ [h] else hs) →
    (∃ es, trace w1' = trace w1 ++ es ∧ told_of es = if locked_ m then [] else [(h, no_error)]) →
    wp (mret None : M basic_mutex (option bool)) (Machine (BasicObject exec m') w1') (λ r1 s1', wp (bench_exec (b_async_lock h)) (Machine (TMutex c) w2) (λ r2 s2',
      r2 = r1 ∧ (∃ a, r1 = Ok a) ∧ in_step exec s1' s2' ∧
      tell_alike (Machine (BasicObject exec m) w1) (Machine (TMutex c) w2) (wld s1') (wld s2')))) as Hrest.
  { intros m' w1' (L' & q' & hs' & H1 & H2 & H3 & ->) (es & H4 & H5). apply wp_ret, wp_bind.
    eapply wp_mono; [by apply wp_tmutex_async_lock|]. intros r2 s (c' & es' & -> & -> & Hc' & Ht). apply wp_ret.
    split_and!; [done|by eexists| |exists es, es'; cbn [wld]; rewrite trace_logs, H5, Ht; done].
    split; [done|]. eexists _, _, _. cbn [obj wld impl_ exec_ chan]. by rewrite H3. }
  apply wp_bind, wp_bind, wp_bind, wp_get_obj, wp_ret. cbn [exec_]. apply wp_on_impl.
  eapply wp_async_lock; [exact Hr|intros Hl|by intros _ ?%Hal|intros Hl p N' _ Hp po w' Hr'].
  - pose proof (rep_owned _ _ _ _ Hr Hl) as ->. eapply Hrest.
    + exists L, [], hs. rewrite Hl. split_and!; try done. by apply mutex_rep_locked, mutex_rep_log.
    + rewrite Hl. by eexists.
  - eapply Hrest.
    + do 3 eexists. split; [exact Hr'|]. rewrite Hl. split_and!; [|done..]. by rewrite !fmap_app, Hq.
    + rewrite Hl. exists []. by rewrite app_nil_r.
Qed.

Lemma unlock_alike exec s1 s2 : in_step exec s1 s2 → alike exec s1 s2 (bench_exec b_unlock) (bench_exec b_unlock).
Proof.
  intros [He (L & q & hs & Hr & Hq & Hc)]. destruct s1 as [[e m] w1], s2 as [[c] w2]. cbn [obj wld impl_ exec_ chan] in *. subst e.
  assert (hs ≠ [] → locked_ m = true) as Hhs.
  { intros Hne. apply (mr_held _ _ _ _ Hr). intros ->. by destruct hs. }
  apply wp_bind, wp_on_impl. eapply wp_unlock; [exact Hr|]. destruct q as [|[p o] q], hs as [|h hs]; try done.
  - apply wp_ret, wp_bind. eapply wp_mono; [by apply (wp_tmutex_unlock _ _ (locked_ m))|]. intros r s (c' & es & -> & -> & Hc' & Ht & _).
    apply wp_ret. split_and!; [done|by eexists| |].
    + split; [done|]. exists L, [], []. split_and!; [by apply mutex_rep_locked|done..].
    + exists [], es. cbn [wld]. by rewrite trace_logs, app_nil_r, Ht.
  - injection Hq as -> Hq. intros N' w' Hr'. apply wp_ret, wp_bind.
    eapply wp_mono; [by apply (wp_tmutex_unlock _ _ (locked_ m))|]. intros r s (c' & es & -> & -> & Hc' & Ht & _).
    apply wp_ret. split_and!; [done|by eexists| |].
    + split; [done|]. eexists _, q, hs. cbn [obj wld impl_ chan]. rewrite (Hhs ltac:(done)). by split_and!.
    + exists (completion no_error (p, basic_op_model (get_associated_executor h exec) h)), es. cbn [wld].
      rewrite trace_logs, Ht. split_and!; [|done..]. unfold w'. change (trace (with_nodes _ ?w)) with (trace w). by rewrite trace_finish.
Qed.

(** Every call, and so every sequence of calls. *)
Definition waits_with (c : bench_call) : option handler := match c with b_async_lock h => Some h | _ => None end.

Lemma call_alike exec s1 s2 c :
  (∀ h X, waits_with c = Some h → allocate h X ≠ None) → in_step exec s1 s2 →
  alike exec s1 s2 (bench_exec c) (bench_exec c).
Proof.
  intros Hal Hs. destruct c as [|h|]; [by apply try_alike|apply async_alike; [intros X; by apply Hal|done]|by apply unlock_alike].
Qed.

Lemma calls_alike exec cs s1 s2 :
  (∀ c h X, c ∈ cs → waits_with c = Some h → allocate h X ≠ None) → in_step exec s1 s2 →
  wp (bench_calls cs) s1 (λ r s1', wp (bench_calls cs) s2 (λ r2 s2',
    r2 = r ∧ (∃ rs, r = Ok rs ∧ length rs = length cs) ∧ tell_alike s1 s2 (wld s1') (wld s2'))).
Proof.
  revert s1 s2. induction cs as [|c cs IH]; intros s1 s2 Hal Hs; cbn [bench_calls].
  - apply wp_ret, wp_ret. split_and!; [done|by eexists|by apply tell_alike_nothing].
  - apply wp_bind. eapply wp_mono; [eapply (call_alike exec s1 s2 c); [|done]|].
    { intros h X. apply Hal. by left. }
    intros r s1' Hc. cbn beta in Hc. apply wp_run in Hc as (r2 & s2' & Hex & -> & [a ->] & Hs' & es1 & es2 & H1 & H2 & H3).
    apply wp_bind. eapply wp_mono; [apply (IH s1' s2'); [|done]|].
    { intros c' h X Hin. apply Hal. by right. }
    intros r1 s1'' Hc. apply wp_run in Hc as (r2 & s2'' & Hex2 & -> & (rs & -> & Hlen) & fs1 & fs2 & H4 & H5 & H6).
    apply wp_ret. apply wp_bind. unfold wp at 1. rewrite Hex. apply wp_bind. unfold wp at 1. rewrite Hex2. apply wp_ret.
    split_and!; [done|eexists; split; [done|simpl; by rewrite Hlen]|].
    exists (es1 ++ fs1), (es2 ++ fs2). by rewrite H4, H1, H5, H2, !told_of_app, H3, H6, !app_assoc.
Qed.
End imitation.

(** ** The properties *)

Section properties.
Context {ASIO : Asio}.
Implicit Types (L : gmap addr (list addr)) (m : mutex_impl) (w : world).

(** C22: what the benchmark compares is comparable. Any sequence of [try_lock],
    [async_lock] and [unlock] gives the same answers on a mutex that is free and
    on a new [tmutex], makes as many of them, and the same handlers are told, in
    the same order and with no error; for every channel that behaves as
    documented while it is open, nothing on it is cancelled and nobody waits to
    receive. *)
Theorem tmutex_imitates `{!Channel, !ChannelOk} exec L m w w' cs :
  mutex_rep L m w [] → locked_ m = false →
  (∀ c h X, c ∈ cs → waits_with c = Some h → allocate h X ≠ None) →
  wp (bench_calls cs) (Machine (BasicObject exec m) w) (λ r1 s1,
    wp (bench_calls cs) (Machine (tmutex_ctor exec) w') (λ r2 s2,
      r2 = r1 ∧ (∃ rs, r1 = Ok rs ∧ length rs = length cs) ∧
      told_of (events_since w' (wld s2)) = told_of (events_since w (wld s1)))).
Proof.
  intros Hr Hl Hal. eapply wp_mono.
  { apply (calls_alike exec cs (Machine (BasicObject exec m) w) (Machine (tmutex_ctor exec) w') Hal).
    split; [done|]. exists L, [], []. cbn [obj impl_ chan tmutex_ctor wld]. rewrite Hl. split_and!; [done..|apply channel_rep_ctor]. }
  intros r1 s1 Halike. eapply wp_mono; [exact Halike|]. intros r2 s2 (-> & Hrs & es1 & es2 & H1 & H2 & H3).
  cbn [wld] in *. split_and!; [done..|]. rewrite (events_since_app _ _ _ H2), <- H3. symmetry. apply (f_equal told_of). by apply events_since_app.
Qed.

(** With nobody in line the library's mutex and the imitation are free and
    locked in turn. *)
Definition mutex_is exec svc ms (b : bool) w0 (s : machine basic_mutex) : Prop :=
  exec_ (obj s) = exec ∧ locked_ (impl_ (obj s)) = b ∧ trace (wld s) = trace w0 ∧ service (get_sm (impl_ (obj s))) = Some svc ∧
  this_ (get_sm (impl_ (obj s))) = ms.2 ∧ ∃ L, mutex_rep L (impl_ (obj s)) (wld s) [] ∧
    service_ok (wld s) L svc (ms.1 ++ [ms.2]) ∧ svc ≠ waiters_ (impl_ (obj s)).

Lemma mutex_is_try exec svc ms w0 s :
  mutex_is exec svc ms false w0 s → wp bm_try_lock s (λ r s', r = Ok true ∧ mutex_is exec svc ms true w0 s').
Proof.
  intros (He & Hl & Ht & Hsv & Hth & L & Hr & Hs & Hne). destruct s as [[e m] w]. cbn [obj wld impl_ exec_] in *.
  apply wp_on_impl. eapply wp_try_lock; [exact Hr|]. rewrite Hl. split; [done|].
  split_and!; [done..|]. exists L. split_and!; [by apply mutex_rep_locked|done..].
Qed.
Lemma mutex_is_unlock exec svc ms w0 s :
  mutex_is exec svc ms true w0 s → wp bm_unlock s (λ r s', r = Ok tt ∧ mutex_is exec svc ms false w0 s').
Proof.
  intros (He & Hl & Ht & Hsv & Hth & L & Hr & Hs & Hne). destruct s as [[e m] w]. cbn [obj wld impl_ exec_] in *.
  apply wp_on_impl. eapply wp_unlock; [exact Hr|]. split; [done|].
  split_and!; [done..|]. exists L. split_and!; [by apply mutex_rep_locked|done..].
Qed.

Definition tmutex_is `{!Channel, !ChannelOk} (b : bool) w0 (s : machine tmutex) : Prop :=
  trace (wld s) = trace w0 ∧ channel_rep (chan (obj s)) b [].

Definition basic_mutex_dtor : M basic_mutex unit := on_impl mutex_impl_dtor.

(** C23: the benchmark of the mutex ends for every [n] with its coroutine at its
    end, which has never waited: with the library's mutex, from its constructor
    to its destructor, nothing is handed to asio and the service has the members
    it had before; and with the imitation nothing is handed to asio either. *)
Theorem mutex_benchmark_completes `{!EqDecision handler} {CTX : Contexts} `{!Channel, !ChannelOk} exec L w w' ms this waiters h n :
  world_ok w L → service_ok w L (query_context exec) ms →
  nodes w !! this = None → nodes w !! waiters = None → this ≠ waiters → unreferenced w this →
  wp (run_benchmark (basic_mutex_ctor this waiters exec CONCURRENCY_HINT_DEFAULT) basic_mutex_dtor h n) (Machine tt w)
    (λ r s', r = Ok Done ∧ trace (wld s') = trace w ∧
      ∃ L', world_ok (wld s') L' ∧ service_ok (wld s') L' (query_context exec) ms) ∧
  wp (run_benchmark (mret (tmutex_ctor exec)) (mret tt) h n) (Machine tt w')
    (λ r s', r = Ok Done ∧ trace (wld s') = trace w').
Proof.
  intros Hok Hs Hthis Hwait Htw Hun. set (svc := query_context exec). split.
  - assert (svc ≠ waiters) as Hne.
    { intros E. destruct (heap_rep_listed _ _ svc (wo_heap _ _ Hok)) as [nd Hnd]; [eapply listed_root, Hs|]. congruence. }
    apply wp_with_local. apply wp_bind.
    eapply wp_mutex_impl_ctor; [done..|]. intros N' w1 L1 c m Hr Hs1. apply wp_ret. cbn [wld].
    eapply wp_mono; [eapply (wp_run_ready (mutex_is exec svc (ms, this) false w) (mutex_is exec svc (ms, this) true w) w
      ltac:(by intros s [(_ & _ & ? & _)|(_ & _ & ? & _)]) (mutex_is_try _ _ _ _) (mutex_is_unlock _ _ _ _)); [|lia]|].
    { split_and!; [done..|]. exists L1. by split_and!. }
    intros r [[e m2] w2] (-> & _ & _ & Ht & Hsv & Hth & L2 & Hr2 & Hs2 & Hne2). cbn [obj wld impl_] in *.
    apply wp_on_impl. eapply (wp_mutex_impl_dtor L2 m2 w2 [] svc ms []); [done|done|by rewrite Hth|done|].
    intros N3 w3 L3 H1 H2. split_and!; [done..|exists L3; by rewrite app_nil_r in *].
  - apply wp_with_local, wp_ret. cbn [wld].
    eapply wp_mono; [eapply (wp_run_ready (tmutex_is false w') (tmutex_is true w') w' ltac:(by intros s [[]|[]])); [| | |lia]|].
    + intros [[c] w2] [Ht Hc]. eapply wp_mono; [by apply wp_tmutex_try_lock|]. by intros r s (c' & -> & -> & Hc').
    + intros [[c] w2] [Ht Hc]. eapply wp_mono; [by apply (wp_tmutex_unlock _ _ true)|].
      intros r s (c' & es & -> & -> & Hc' & _ & Hes).
      by rewrite Hes by done.
    + split; [done|]. apply channel_rep_ctor.
    + intros r s [-> [Ht _]]. by apply wp_ret.
Qed.
End properties.

(** ** At work *)

Section witnesses.
#[local] Existing Instance test_asio.

(** A channel as asio documents it: the buffer, its size, the senders, and the
    executor the senders' handlers run on. *)
Record demo_chan := DemoChan {
  dc_exec : nat; dc_limit : nat; dc_buffer : list error_code; dc_senders : list (error_code * nat)
}.
Definition demo_try_send (m : error_code) (c : demo_chan) : bool * demo_chan :=
  if decide (length (dc_buffer c) < dc_limit c) then
    (true, DemoChan (dc_exec c) (dc_limit c) (dc_buffer c ++ [m]) (dc_senders c))
  else (false, c).
Definition demo_async_send (m : error_code) (h : nat) (c : demo_chan) : list event * demo_chan :=
  if decide (length (dc_buffer c) < dc_limit c) then
    ([ev_post (dc_exec c) h no_error], DemoChan (dc_exec c) (dc_limit c) (dc_buffer c ++ [m]) (dc_senders c))
  else ([], DemoChan (dc_exec c) (dc_limit c) (dc_buffer c) (dc_senders c ++ [(m, h)])).
Definition demo_try_receive (c : demo_chan) : option error_code * list event * demo_chan :=
  match dc_buffer c, dc_senders c with
  | [], [] => (None, [], c)
  | [], (m', h) :: ss => (Some m', [ev_post (dc_exec c) h no_error], DemoChan (dc_exec c) (dc_limit c) [] ss)
  | m :: ms, [] => (Some m, [], DemoChan (dc_exec c) (dc_limit c) ms [])
  | m :: ms, (m', h) :: ss =>
      (Some m, [ev_post (dc_exec c) h no_error], DemoChan (dc_exec c) (dc_limit c) (ms ++ [m']) ss)
  end.

Definition demo_channel : Channel (ASIO := test_asio) :=
  {| channel := demo_chan; channel_ctor := λ e n, DemoChan e n [] [];
     try_send := demo_try_send; async_send := demo_async_send; try_receive := demo_try_receive |}.
#[local] Existing Instance demo_channel.
#[local] Program Instance demo_channel_ok : ChannelOk (ASIO := test_asio) :=
  {| buffer := dc_buffer; limit := dc_limit; senders := dc_senders; undisturbed := λ _, True |}.
Next Obligation. done. Qed.
Next Obligation. intros m c _. simpl. unfold demo_try_send. by destruct (decide _). Qed.
Next Obligation. intros m h c _. simpl. unfold demo_async_send. by destruct (decide _). Qed.
Next Obligation.
  intros c _. simpl. unfold demo_try_receive. by destruct (dc_buffer c) as [|m ms] eqn:?, (dc_senders c) as [|[m' h] ss] eqn:?.
Qed.

(** Without a buffer a message goes from the sender that waits to the receiver. *)
Example demo_unbuffered :
  let c := (demo_async_send (other_error 7) 4 (channel_ctor 0 0)).2 in
  (demo_try_send no_error c).1 = false ∧
  demo_try_receive c = (Some (other_error 7), [ev_post 0 4 no_error], channel_ctor 0 0) ∧
  demo_try_receive (channel_ctor 0 0) = (None, [], channel_ctor 0 0).
Proof. done. Qed.

Definition demo_calls : list bench_call :=
  [b_try_lock; b_async_lock 4; b_try_lock; b_async_lock 6; b_unlock; b_unlock; b_unlock; b_async_lock 4].
Definition demo_bench_mutex : machine basic_mutex :=
  Machine (BasicObject 0 (obj (demo_mutex true))) (wld (demo_mutex true)).

(** What both answer and tell. *)
Example demo_calls_mutex :
  (λ '(r, s), (r, told_of (trace (wld s)))) <$> bench_calls demo_calls demo_bench_mutex =
  Some (Ok [Some true; None; Some false; None; None; None; None; None], [(4, no_error); (6, no_error); (4, no_error)]).
Proof. vm_compute. reflexivity. Qed.
Example demo_calls_tmutex :
  (λ '(r, s), (r, told_of (trace (wld s)))) <$> bench_calls (St := tmutex) demo_calls (Machine (tmutex_ctor 0) empty_world) =
  Some (Ok [Some true; None; Some false; None; None; None; None; None], [(4, no_error); (6, no_error); (4, no_error)]).
Proof. vm_compute. reflexivity. Qed.

Lemma tmutex_imitates_witness :
  wp (bench_calls demo_calls) (Machine (BasicObject 0 (obj (demo_mutex true))) (wld (demo_mutex true))) (λ r1 s1,
    wp (bench_calls (St := tmutex) demo_calls) (Machine (tmutex_ctor 0) empty_world) (λ r2 s2,
      r2 = r1 ∧ (∃ rs, r1 = Ok rs ∧ length rs = length demo_calls) ∧
      told_of (events_since empty_world (wld s2)) = told_of (events_since (wld (demo_mutex true)) (wld s1)))).
Proof.
  apply (tmutex_imitates (ASIO := test_asio) 0 demo_mutex_lists (obj (demo_mutex true)) (wld (demo_mutex true)) empty_world demo_calls).
  - apply demo_mutex_rep.
  - vm_compute. reflexivity.
  - intros c h X Hc Hh. assert (h ∈ omap waits_with demo_calls) as Hin by (apply list_elem_of_omap; by exists c).
    change (h ∈ [4; 6; 4]) in Hin. rewrite !elem_of_cons in Hin.
    destruct Hin as [->|[->|[->|[]%not_elem_of_nil]]]; discriminate.
Defined.

Definition demo_bench_contexts : @Contexts test_asio :=
  {| query_context := λ _, 1%positive; context_executor := λ _, 0; context_config := λ _, demo_config true |}.

Lemma mutex_benchmark_completes_witness :
  wp (run_benchmark (basic_mutex_ctor (CTX := demo_bench_contexts) 2 3 0 (-1)) basic_mutex_dtor 4 3) (Machine tt (demo_world true))
    (λ r s', r = Ok Done ∧ trace (wld s') = trace (demo_world true) ∧
      ∃ L', world_ok (wld s') L' ∧ service_ok (wld s') L' 1 []) ∧
  wp (run_benchmark (St := tmutex) (mret (tmutex_ctor 0)) (mret tt) 4 3) (Machine tt empty_world)
    (λ r s', r = Ok Done ∧ trace (wld s') = trace empty_world).
Proof.
  apply (mutex_benchmark_completes (ASIO := test_asio) (CTX := demo_bench_contexts) 0 demo_lists (demo_world true) empty_world [] 2 3 4 3).
  - apply (demo_world_ok true).
  - apply (demo_world_ok true).
  - vm_compute. reflexivity.
  - vm_compute. reflexivity.
  - discriminate.
  - by intros n c.
Defined.
End witnesses.
